(* ===== verification/_CoqProject ===== *)
-Q . S2P
Prelude.v
Patch.v
Misc.v
Format.v
Lz4.v
Cstr.v
CString.v
Cpio.v
CpioPatch.v
Text.v
Statement.v
PolicyCli.v
Io.v
Sys.v
Mount.v
Preinit.v
ModuleTree.v
ModuleApply.v
ModuleStore.v
Argh.v
Help.v
Derive.v
Words.v
ResetProp.v
Socket.v
Decodable.v
Fds.v
Logging.v
Result.v
Zygisk.v
Companion.v
Daemon.v
Su.v
Pts.v
ThreadPool.v
Dir.v
Restorecon.v
Files.v
Attrs.v
Foreign.v
MountCalls.v
Init.v
Overlay.v
Entry.v
Hijack.v
Dtb.v
Payload.v
Compress.v
Sign.v
CpioCli.v
CpioExtract.v
MagiskCli.v
Db.v
BootCli.v
AtomicArc.v
Tools.v
