(* ===== verification/Prelude.v ===== *)
(** Magisk's native programs: a verification development.

    Magisk is a few Rust programs that share a library ([src/native/src], the paths below
    start there).  At boot [magiskinit] ([init/]) takes the place of init: it finds out how
    the device boots, lays its files over the root directory, patches [init.rc] and the
    SELinux policy and executes the real init.  The commands it put into [init.rc] run
    [magisk] ([core/]), whose daemon goes through the boot stages, mounts the modules and
    serves requests: for root, for zygote's processes, for properties and settings.
    [magiskboot] ([boot/]) takes boot images apart and patches them at installation;
    [magiskpolicy] ([sepolicy/]) edits policies.  [base/] is the library below all of them.

    Each operation of the code is a definition that can be evaluated, with its branches,
    its errors and its panics; theorems follow the definitions they are about, and a
    closed example ([.._witness]) applies each that has hypotheses.

    ** The style of the model

    - [res] (this file) is the outcome of a computation: a value, an error, a panic, or, for
      a loop with fuel, no fuel left.  A theorem about such a loop says that it ends.
    - [Io] and [Sys] are the sequences of system calls of a computation, without and with a
      piece of the system's state.  An environment decides which calls succeed.  Files with
      a state of their own ([Dir], [Attrs], [CpioCli], [Derive], [Result]) define a small
      monad for it.
    - Integers are [Z] with the wrap-around written out where the code's width matters;
      strings are their bytes, UTF-8 where Rust has [str]; a map iterated in key order is
      its sorted entries, any other a [gmap].
    - What is not Rust code of the repository is a parameter: a section variable or a class
      of operations, with a class of laws for what the code relies on.  Each class of laws
      has an instance, so that the theorems on it apply to something.

    ** The files

    Base library ([base/]):
    - [Misc] (misc.rs): byte search and [Chunker]; [AtomicArc] (misc.rs): the shared pointer
      under interleaved threads.
    - [Cstr], [CString] (cstr.rs, paths of files.rs): fixed-size and growable strings behind
      the interface [Utf8CStrBuf].
    - [Text] (files.rs): lines and properties.  [Files] (files.rs): streams and path
      operations.  [Dir] (dir.rs, files.rs): trees, walks, copies, moves.  [Attrs] (files.rs,
      dir.rs): attributes, links, mapped files.  [MountCalls] (mount.rs).
    - [Argh], [Help] (argh.rs): the parser of command lines; [Derive] (derive/argh/): the
      macro that makes such parsers from structs, [Words]: structs of plain strings;
      [Decodable] (derive/decodable.rs): the macro for messages.
    - [Logging] (logging.rs, core/logging.rs), [Result] (result.rs), [Foreign] (xwrap.rs,
      cxx_extern.rs): logs, errors and the functions called by C++.

    magiskboot ([boot/]):
    - [Format] (format.rs, lib.rs), [Compress] and [Lz4] (compress.rs), [Patch] (patch.rs),
      [Dtb] (dtb.rs), [Payload] (payload.rs), [Sign] (sign.rs).
    - [Cpio]: ramdisk archives; [CpioPatch]: patch, backup and restore; [CpioCli],
      [CpioExtract]: the command on files (all cpio.rs).
    - [BootCli] (cli.rs): the command line, as a struct that goes through [Derive].

    magiskpolicy ([sepolicy/]): [Statement] (statement.rs, rules.rs, lib.rs) and [PolicyCli]
    (cli.rs).

    magisk and its daemon ([core/]):
    - [Socket], [Fds] (socket.rs): messages and descriptors; [Daemon] (daemon.rs,
      bootstages.rs, db.rs, su/daemon.rs): who may ask for what, the stages of a boot, the
      settings; [Entry] (daemon.rs): how it starts; [ThreadPool] (thread.rs); [Db] (db.rs):
      the settings as statements, an instance of the interface [Daemon] uses where queries
      do not fail.
    - [Su] (su/daemon.rs, package.rs) and [Pts] (su/pts.rs): root shells and their terminal.
    - [Zygisk], [Companion] (zygisk/daemon.rs, su/db.rs): what zygote's processes are told.
      [ResetProp] (resetprop/) is the properties [Zygisk] sets, behind the interface [Props].
    - [ModuleStore], [ModuleApply], [ModuleTree] (module.rs): the installed modules, what is
      collected from them, and the mounts that show it; [Mount], [Preinit] (mount.rs,
      init/mount.rs, files.rs): mount tables and the directory for early files;
      [Restorecon] (selinux.rs).
    - [MagiskCli] (magisk.rs): the command line, down to the requests of [Daemon].

    magiskinit ([init/]): [Init] (init.rs, twostage.rs, getinfo.rs, logging.rs, mount.rs): the
    flows up to [execve]; [Overlay] (rootdir.rs): the files laid over the root and the
    patched [init.rc]; [Hijack] (selinux.rs): the policy.  [Tools]: the programs used by the
    build ([src/tools]).

    ** What the theorems show

    - Modules: an upgrade replaces what it names ([upgrade_modules_spec]), only enabled
      ones are listed ([collect_modules_active]), the first that has a path decides
      ([modules_first_wins]), the mounted directory is the overlay ([commit_tmpfs_overlay])
      and nothing is mounted elsewhere ([apply_mounts_safe]).
    - Boot: every flow ends in init being executed, with the exceptions that are listed
      ([boot_reaches_exec]); init goes on only behind the write of the patched policy, but
      for one error path ([hijack_releases_loaded]); the triggers in [init.rc] are requests
      the daemon accepts ([triggers_reach_daemon]), which then keeps to the order of the
      stages ([boot_stages_safe]) and out of boot loops ([bootloop_protection]), takes down
      the overlay ([overlay_undone]), serves nobody too early ([serves_when_ready]) and
      labels its files ([restorecon_restores]).
    - Requests: access control ([handle_requests_access], [root_shell_allowed]), messages
      ([su_request_roundtrip]), settings ([setting_kept]), logs ([log_delivered]), the
      terminal ([terminal_in_order], [session_drains]), the pool ([pending_task_has_taker]).
    - Archives and images: parsing undoes writing ([load_dump], [lz4_roundtrip]), restoring
      a backup undoes what was added, removed and rewritten ([backup_restore]), commands do to files what they do to entries
      ([script_edits_file], [extract_shows_entries]), patches change exactly what they are
      meant to ([patch_fstab_refines], [dtb_patch_file]), payloads are written in place
      ([extract_full_payload]), signatures verify ([sign_cmd_verifies]).
    - Text and strings: statements ([statement_roundtrip]), command lines
      ([accepted_struct_wf], [from_args_roundtrip]), properties ([persist_refines_map]),
      strings ([cstring_is_string], [read_link_at_same], [xrealpath_sound]).
    - Files: copies ([copy_into_overlay]), attributes ([clone_attr_copies]), mapped files
      ([map_file_bounds]).

    Other lemmas state where the code departs from what it says it does: the decoder that
    takes an archive's trailer for a magic ([Lz4]), the sort with an order that is not
    transitive ([Mount]), the thread that leaves beside a posted task and the one that was
    never made ([ThreadPool]), the storage that cannot be read once its last property is
    deleted ([ResetProp]), [move_into] that stops half way ([Dir]), the read of freed memory ([AtomicArc]), input
    that comes out on the wrong side of the terminal ([Pts]) and more.

    ** Fuel

    A loop that consumes its input has the length of the input, or its successor, as fuel:
    [Cpio.load_loop], [Statement.extract_token], the parser of [Argh], the merge of
    [CpioPatch], the loops of [Patch], [Misc], [Lz4], [Logging], [Files] and [Attrs].
    [ModuleTree] descends two trees at once with the larger height; [Db] has
    the number of statements a text can hold; the decimal digits of a number are bounded
    by its logarithm.  In each case a lemma, or the main theorem itself, says that this is
    enough.  The two waits of [Hijack] depend on another process: they end if it moves on.
    The rounds of [Pts] and the clients of [Entry] are given as lists, the interleavings of
    [ThreadPool] and [AtomicArc] as step relations.

    ** Not modelled

    C++: boot images, the policy database, the denylist, the root shell, the hooks in
    zygote's processes and init's partition mounts; they are parameters or calls in a
    trace.  Packages: compression other than the legacy LZ4 frames, cryptography, device
    trees, ELF, protobuf, SQLite and the property area.  The kernel's path resolution,
    except in [Dir].  Vendored and generated code, module lists and constants, the Android
    application, the scripts and the build driver.  Memory is modelled where the code
    manages it itself ([CString], [AtomicArc], [Lz4]'s buffers); scheduling only
    in [ThreadPool] and [AtomicArc].

    ** This file

    The outcome type [res] with its monad; bytes and UTF-8 ([utf8_valid]); the byte-wise order
    of strings, which is the iteration order of a [BTreeMap<String, _>] ([entries]);
    checked slicing, splitting, prefix tests, number formatting and alignment, with the
    lemmas the components share. *)

From Stdlib Require Export ZArith Lia.
From Stdlib Require Strings.Byte.
From stdpp Require Export base list gmap sorting strings.

#[global] Open Scope Z_scope.

Declare Scope magisk_scope.
Delimit Scope magisk_scope with magisk.
#[global] Open Scope magisk_scope.

Create HintDb magisk.
Create Rewrite HintDb magisk_len.

(** ** Outcomes *)

Inductive res (E A : Type) : Type :=
  | Ok (a : A)
  | Err (e : E)
  | Panic
  | NoFuel.
Arguments Ok {E A} a.
Arguments Err {E A} e.
Arguments Panic {E A}.
Arguments NoFuel {E A}.

Abbreviation LoggedResult := (res unit).

#[global] Instance res_ret E : MRet (res E) := fun A a => Ok a.
#[global] Instance res_bind E : MBind (res E) := fun A B f m =>
  match m with
  | Ok a => f a
  | Err e => Err e
  | Panic => Panic
  | NoFuel => NoFuel
  end.

(** [of_option e o] is Rust's [o.ok_or(e)]. *)
Definition of_option {E A} (e : E) (o : option A) : res E A :=
  match o with Some a => Ok a | None => Err e end.

(** [res_ok r] is Rust's [Result::ok], for outcomes that did return. *)
Definition res_ok {E A} (r : res E A) : option A :=
  match r with Ok a => Some a | _ => None end.

Definition is_ok {E A} (r : res E A) : bool :=
  match r with Ok _ => true | _ => false end.

Lemma bind_ok_inv {E A B} (m : res E A) (f : A → res E B) b :
  mbind f m = Ok b → ∃ a, m = Ok a ∧ f a = Ok b.
Proof. destruct m; simpl; intros; try discriminate; eauto. Qed.

(** Splits every hypothesis [x ← m; k = Ok _] into the value of [m] and the rest. *)
Ltac inv_bind :=
  repeat match goal with
  | H : mbind _ _ = Ok _ |- _ =>
      apply bind_ok_inv in H; destruct H as (? & ? & H)
  end.

(** Closes a decidable, closed goal by evaluation. *)
Ltac by_compute := apply (bool_decide_unpack _); vm_compute; exact I.

(** ** Bytes *)

Abbreviation byte := Byte.byte.
Abbreviation bytes := (list byte).

#[global] Instance byte_eq_dec : EqDecision byte := Byte.byte_eq_dec.

#[global] Program Instance byte_countable : Countable byte :=
  inj_countable Byte.to_N Byte.of_N _.
Next Obligation. intros b. apply Byte.of_to_N. Qed.

(** A string literal as the bytes Rust sees. *)
Definition bs (s : string) : bytes := String.list_byte_of_string s.

(** The value of a byte and the byte of a value (reduced modulo 256). *)
Definition u8 (b : byte) : Z := Z.of_N (Byte.to_N b).
Definition byte_of (z : Z) : byte :=
  default Byte.x00 (Byte.of_N (Z.to_N (z mod 256))).

Lemma u8_range b : 0 ≤ u8 b < 256.
Proof. unfold u8. pose proof (Byte.to_N_bounded b). lia. Qed.

Lemma u8_inj b c : u8 b = u8 c → b = c.
Proof.
  unfold u8. intros H%N2Z.inj.
  pose proof (Byte.of_to_N b). pose proof (Byte.of_to_N c). congruence.
Qed.

Lemma u8_byte_of z : 0 ≤ z < 256 → u8 (byte_of z) = z.
Proof.
  intros Hz. unfold u8, byte_of. rewrite Z.mod_small by lia.
  destruct (Byte.of_N (Z.to_N z)) as [b|] eqn:Hb; simpl.
  - apply Byte.to_of_N in Hb. lia.
  - apply Byte.of_N_None_iff in Hb. lia.
Qed.

Lemma byte_of_u8 b : byte_of (u8 b) = b.
Proof. apply u8_inj, u8_byte_of, u8_range. Qed.

(** The length of a byte string, as the [usize] Rust computes with. *)
Definition len {A} (l : list A) : Z := Z.of_nat (length l).

Lemma len_nonneg {A} (l : list A) : 0 ≤ len l.
Proof. unfold len. lia. Qed.

Lemma len_app {A} (l k : list A) : len (l ++ k) = len l + len k.
Proof. unfold len. rewrite length_app. lia. Qed.

Lemma len_cons {A} (x : A) l : len (x :: l) = 1 + len l.
Proof. unfold len. simpl. lia. Qed.

#[export] Hint Resolve len_nonneg u8_range : magisk.
#[export] Hint Rewrite @len_app @len_cons : magisk_len.

(** [&l[i..j]]: a panic when the range is not inside the slice. *)
Definition slice {E A} (i j : Z) (l : list A) : res E (list A) :=
  if (0 <=? i) && (i <=? j) && (j <=? len l)
  then Ok (take (Z.to_nat (j - i)) (drop (Z.to_nat i) l))
  else Panic.

(** Slicing out the middle of a concatenation. *)
Lemma slice_app {E A} (p m s : list A) :
  slice (E:=E) (len p) (len p + len m) (p ++ m ++ s) = Ok m.
Proof.
  unfold slice. rewrite !len_app.
  assert ((0 <=? len p) && (len p <=? len p + len m)
          && (len p + len m <=? len p + (len m + len s)) = true) as ->.
  { pose proof (len_nonneg p); pose proof (len_nonneg m); pose proof (len_nonneg s). lia. }
  unfold len. rewrite Nat2Z.id, drop_app_length.
  replace (Z.to_nat _) with (length m) by lia. by rewrite take_app_length.
Qed.

(** ** Filtering *)

Lemma filter_all {A} (P : A → Prop) `{!∀ x, Decision (P x)} l : Forall P l → filter P l = l.
Proof. induction 1; [done|]. rewrite filter_cons_True by done. by f_equal. Qed.

Lemma filter_ext_in {A} (P Q : A → Prop) `{!∀ x, Decision (P x)} `{!∀ x, Decision (Q x)} l :
  Forall (λ x, P x ↔ Q x) l → filter P l = filter Q l.
Proof.
  induction 1 as [|x l Hx _ IH]; [done|]. destruct (decide (P x)) as [HP|HP].
  - rewrite !filter_cons_True by tauto. by f_equal.
  - by rewrite !filter_cons_False by tauto.
Qed.

Lemma filter_none {A} (P : A → Prop) `{!∀ x, Decision (P x)} l :
  Forall (λ x, ¬ P x) l → filter P l = [].
Proof. induction 1; [done|]. by rewrite filter_cons_False. Qed.

(** ** Zero-filled runs and alignment *)

Definition zeros (n : Z) : bytes := replicate (Z.to_nat n) Byte.x00.

Lemma len_zeros n : 0 ≤ n → len (zeros n) = n.
Proof. unfold len, zeros. rewrite length_replicate. lia. Qed.

(** [(x + 3) & !3] on a [usize]. *)
Definition align_4 (x : Z) : Z := Z.land (x + 3) (Z.lnot 3).

Lemma align_4_spec x : align_4 x = 4 * ((x + 3) / 4).
Proof.
  unfold align_4. change (Z.lnot 3) with (Z.lnot (Z.ones 2)).
  rewrite <- Z.ldiff_land, Z.ldiff_ones_r by lia.
  rewrite Z.shiftr_div_pow2, Z.shiftl_mul_pow2 by lia. change (2 ^ 2) with 4. lia.
Qed.

Lemma align_4_bounds x : x ≤ align_4 x < x + 4.
Proof.
  rewrite align_4_spec. pose proof (Z.div_mod (x + 3) 4). 
  pose proof (Z.mod_pos_bound (x + 3) 4). lia.
Qed.

Lemma align_4_mod x : align_4 x mod 4 = 0.
Proof. rewrite align_4_spec, Z.mul_comm. apply Z.mod_mul. lia. Qed.

(** A position that is already aligned shifts through [align_4]. *)
Lemma align_4_add x y : x mod 4 = 0 → align_4 (x + y) = x + align_4 y.
Proof.
  intros H. rewrite !align_4_spec.
  pose proof (Z.div_mod x 4). replace (x + y + 3) with ((x / 4) * 4 + (y + 3)) by lia.
  rewrite Z.div_add_l by lia. lia.
Qed.

(** ** Prefixes and splitting *)

(** [s.strip_prefix(p)]. *)
Fixpoint strip_prefix (p s : bytes) : option bytes :=
  match p, s with
  | [], _ => Some s
  | a :: p', b :: s' => if bool_decide (a = b) then strip_prefix p' s' else None
  | _ :: _, [] => None
  end.

(** [s.starts_with(p)]. *)
Definition starts_with (p s : bytes) : bool :=
  match strip_prefix p s with Some _ => true | None => false end.

(** [s.ends_with(p)]. *)
Definition ends_with (p s : bytes) : bool := starts_with (rev p) (rev s).

Lemma strip_prefix_Some p s r : strip_prefix p s = Some r ↔ s = p ++ r.
Proof.
  revert s. induction p as [|a p IH]; intros [|b s]; simpl; try (split; congruence).
  case_bool_decide; rewrite ?IH; split; congruence.
Qed.

Lemma strip_prefix_app p r : strip_prefix p (p ++ r) = Some r.
Proof. by apply strip_prefix_Some. Qed.

Lemma starts_with_spec p s : starts_with p s = true ↔ ∃ r, s = p ++ r.
Proof.
  unfold starts_with. destruct (strip_prefix p s) eqn:H.
  - apply strip_prefix_Some in H. naive_solver.
  - split; [done|]. intros [r ->]. by rewrite strip_prefix_app in H.
Qed.

Lemma starts_with_app p r : starts_with p (p ++ r) = true.
Proof. apply starts_with_spec. eauto. Qed.

Lemma ends_with_spec p s : ends_with p s = true ↔ ∃ r, s = r ++ p.
Proof.
  unfold ends_with. rewrite starts_with_spec. split.
  - intros [r H]. exists (rev r).
    by rewrite <- (rev_involutive s), H, rev_app_distr, rev_involutive.
  - intros [r ->]. exists (rev r). apply rev_app_distr.
Qed.

Lemma ends_with_app p r : ends_with p (r ++ p) = true.
Proof. apply ends_with_spec. eauto. Qed.

(** [s.split(c)]: always at least one piece. *)
Fixpoint split_on (c : byte) (s : bytes) : list bytes :=
  match s with
  | [] => [[]]
  | b :: s' =>
      if bool_decide (b = c) then [] :: split_on c s'
      else match split_on c s' with
           | p :: ps => (b :: p) :: ps
           | [] => [[b]]
           end
  end.

(** The pieces joined by a separator ([intersperse] and [collect]). *)
Fixpoint join (sep : bytes) (ps : list bytes) : bytes :=
  match ps with
  | [] => []
  | [p] => p
  | p :: ps' => p ++ sep ++ join sep ps'
  end.

Lemma split_on_nonempty c s : split_on c s ≠ [].
Proof. destruct s as [|b s]; simpl; [done|]. case_bool_decide; [done|]. by destruct split_on. Qed.

Lemma split_on_no_sep c s p : p ∈ split_on c s → c ∉ p.
Proof.
  revert p. induction s as [|b s IH]; simpl; intros p.
  - intros ->%list_elem_of_singleton. apply not_elem_of_nil.
  - case_bool_decide as Hb.
    + intros [->|?]%elem_of_cons; [apply not_elem_of_nil|eauto].
    + destruct (split_on c s) as [|q qs]; intros Hp.
      * apply list_elem_of_singleton in Hp as ->. by intros ?%list_elem_of_singleton.
      * apply elem_of_cons in Hp as [->|Hp]; [|apply IH; by right].
        intros [?|Hq]%elem_of_cons; [by subst|].
        by apply (IH q); [left|].
Qed.

Lemma join_split_on c s : join [c] (split_on c s) = s.
Proof.
  induction s as [|b s IH]; simpl; [done|]. case_bool_decide.
  - subst. destruct (split_on c s) as [|q qs] eqn:E; [by apply split_on_nonempty in E|].
    simpl in *. by rewrite IH.
  - destruct (split_on c s) as [|q [|q' qs]] eqn:E; [by apply split_on_nonempty in E| |];
      simpl in *; by rewrite IH.
Qed.

(** A piece without separators splits off unchanged. *)
Lemma split_on_app_sep c p s : c ∉ p → split_on c (p ++ c :: s) = p :: split_on c s.
Proof.
  induction p as [|b p IH]; simpl; intros Hp.
  - by rewrite bool_decide_true.
  - rewrite bool_decide_false by set_solver. rewrite IH by set_solver. done.
Qed.

Lemma split_on_no_occ c p : c ∉ p → split_on c p = [p].
Proof.
  induction p as [|b p IH]; simpl; intros Hp; [done|].
  rewrite bool_decide_false by set_solver. by rewrite IH by set_solver.
Qed.

Definition nonempty (s : bytes) : bool := negb (bool_decide (s = [])).
Definition nonempty_list {A} (l : list A) : bool := match l with [] => false | _ => true end.

(** ** The order of strings *)

Fixpoint bytes_cmp (a b : bytes) : comparison :=
  match a, b with
  | [], [] => Eq
  | [], _ :: _ => Lt
  | _ :: _, [] => Gt
  | x :: a', y :: b' =>
      match u8 x ?= u8 y with
      | Eq => bytes_cmp a' b'
      | c => c
      end
  end.

Definition bytes_le (a b : bytes) : Prop := bytes_cmp a b ≠ Gt.
Definition bytes_lt (a b : bytes) : Prop := bytes_cmp a b = Lt.

#[global] Instance bytes_le_dec : RelDecision bytes_le.
Proof. intros a b. unfold bytes_le. apply _. Defined.
#[global] Instance bytes_lt_dec : RelDecision bytes_lt.
Proof. intros a b. unfold bytes_lt. apply _. Defined.

Lemma bytes_cmp_eq a b : bytes_cmp a b = Eq ↔ a = b.
Proof.
  revert b. induction a as [|x a IH]; intros [|y b]; simpl; try (split; congruence).
  destruct (Z.compare_spec (u8 x) (u8 y)) as [E|E|E].
  - apply u8_inj in E as ->. rewrite IH. naive_solver.
  - split; [done|]. intros [= -> _]. lia.
  - split; [done|]. intros [= -> _]. lia.
Qed.

Lemma bytes_cmp_antisym a b : bytes_cmp b a = CompOpp (bytes_cmp a b).
Proof.
  revert b. induction a as [|x a IH]; intros [|y b]; simpl; try done.
  rewrite (Z.compare_antisym (u8 x) (u8 y)).
  destruct (u8 x ?= u8 y); simpl; auto.
Qed.

Lemma bytes_lt_trans a b c : bytes_lt a b → bytes_lt b c → bytes_lt a c.
Proof.
  unfold bytes_lt. revert b c.
  induction a as [|x a IH]; intros [|y b] [|z c]; simpl; try done.
  destruct (Z.compare_spec (u8 x) (u8 y)), (Z.compare_spec (u8 y) (u8 z)),
    (Z.compare_spec (u8 x) (u8 z)); try done; try lia; eauto.
Qed.

Lemma bytes_le_alt a b : bytes_le a b ↔ bytes_lt a b ∨ a = b.
Proof.
  unfold bytes_le, bytes_lt. rewrite <- bytes_cmp_eq.
  destruct (bytes_cmp a b); naive_solver.
Qed.

#[global] Instance bytes_le_trans : Transitive bytes_le.
Proof.
  intros a b c. rewrite !bytes_le_alt.
  intros [H| ->] [H'| ->]; eauto using bytes_lt_trans.
Qed.

#[global] Instance bytes_le_total : Total bytes_le.
Proof.
  intros a b. unfold bytes_le. rewrite (bytes_cmp_antisym a b).
  destruct (bytes_cmp a b); simpl; auto.
Qed.

#[global] Instance bytes_le_antisymm : AntiSymm (=) bytes_le.
Proof.
  intros a b. unfold bytes_le. rewrite (bytes_cmp_antisym a b), <- bytes_cmp_eq.
  destruct (bytes_cmp a b); simpl; naive_solver.
Qed.

Lemma bytes_lt_irrefl a : ¬ bytes_lt a a.
Proof. unfold bytes_lt. rewrite (proj2 (bytes_cmp_eq a a)); done. Qed.

Lemma bytes_lt_app p s t : bytes_lt s t → bytes_lt (p ++ s) (p ++ t).
Proof. unfold bytes_lt. induction p; simpl; [done|]. by rewrite Z.compare_refl. Qed.

Lemma bytes_lt_prefix p s : s ≠ [] → bytes_lt p (p ++ s).
Proof.
  unfold bytes_lt. intros Hs. induction p as [|b p IH]; simpl; [by destruct s|].
  by rewrite Z.compare_refl.
Qed.

Lemma bytes_lt_le a b : bytes_lt a b ↔ bytes_le a b ∧ a ≠ b.
Proof.
  rewrite bytes_le_alt. split; [|naive_solver].
  intros H. split; [auto|]. intros ->. by apply bytes_lt_irrefl in H.
Qed.

(** ** [BTreeMap<String, A>]: a finite map iterated in key order *)

Section BTreeMap.
Context {A : Type}.
Implicit Types m : gmap bytes A.

Definition entry_le (p q : bytes * A) : Prop := bytes_le p.1 q.1.
#[global] Instance entry_le_dec : RelDecision entry_le.
Proof. intros p q. unfold entry_le. apply _. Defined.
#[global] Instance entry_le_total : Total entry_le.
Proof. intros p q. apply bytes_le_total. Qed.
#[global] Instance entry_le_trans : Transitive entry_le.
Proof. intros p q r. apply bytes_le_trans. Qed.

(** [m.iter()]. *)
Definition entries m : list (bytes * A) := merge_sort entry_le (map_to_list m).

Lemma entries_perm m : entries m ≡ₚ map_to_list m.
Proof. apply merge_sort_Permutation. Qed.

Lemma elem_of_entries m k a : (k, a) ∈ entries m ↔ m !! k = Some a.
Proof. by rewrite entries_perm, elem_of_map_to_list. Qed.

Lemma entries_NoDup_keys m : NoDup (entries m).*1.
Proof. rewrite entries_perm. apply NoDup_fst_map_to_list. Qed.

Lemma entries_sorted m : StronglySorted entry_le (entries m).
Proof. by apply (StronglySorted_merge_sort entry_le). Qed.

(** Keys are strictly increasing. *)
Lemma entries_strict m : StronglySorted bytes_lt (entries m).*1.
Proof.
  pose proof (entries_sorted m) as Hs. pose proof (entries_NoDup_keys m) as Hn.
  induction Hs as [|p l Hl IH Hp]; cbn [fmap list_fmap] in *; [constructor|].
  apply NoDup_cons in Hn as [Hin Hn]. constructor; [by apply IH|].
  apply Forall_forall. intros k Hk. apply bytes_lt_le. split; [|by intros <-].
  apply list_elem_of_fmap in Hk as (q & -> & Hq).
  by eapply Forall_forall in Hp.
Qed.

(** Inserting all entries into an empty map rebuilds the map. *)
Lemma list_to_map_entries m : list_to_map (entries m) = m.
Proof.
  rewrite <- (list_to_map_to_list m) at 2.
  apply list_to_map_proper; [apply entries_NoDup_keys|apply entries_perm].
Qed.

(** [BTreeMap::extend] / [insert] of a list of pairs, left to right. *)
Definition insert_all (l : list (bytes * A)) m : gmap bytes A :=
  foldl (λ m p, <[p.1 := p.2]> m) m l.

Lemma insert_all_app l k m : insert_all (l ++ k) m = insert_all k (insert_all l m).
Proof. apply foldl_app. Qed.

Lemma insert_all_list_to_map l m :
  NoDup l.*1 → insert_all l m = list_to_map l ∪ m.
Proof.
  revert m. induction l as [|[k a] l IH]; simpl; intros m Hnd.
  - by rewrite (left_id_L ∅ (∪)).
  - apply NoDup_cons in Hnd as [Hk Hnd]. rewrite IH by done.
    apply map_eq. intros i. rewrite !lookup_union, lookup_insert.
    destruct (decide (k = i)) as [->|Hne].
    + rewrite (not_elem_of_list_to_map_1 l i) by done.
      rewrite lookup_insert_eq. by destruct (m !! i).
    + rewrite lookup_insert_ne by done. done.
Qed.

Lemma insert_all_entries m : insert_all (entries m) ∅ = m.
Proof.
  rewrite insert_all_list_to_map by apply entries_NoDup_keys.
  by rewrite list_to_map_entries, (right_id_L ∅ (∪)).
Qed.
End BTreeMap.

(** ** UTF-8 *)

Definition in_range (lo hi : Z) (b : byte) : bool := (lo <=? u8 b) && (u8 b <=? hi).
Definition is_cont (b : byte) : bool := in_range 0x80 0xBF b.

(** [str::from_utf8(s).is_ok()]: the well-formed sequences of Unicode
    (no overlong forms, no surrogates, at most U+10FFFF). *)
Fixpoint utf8_valid (s : bytes) : bool :=
  match s with
  | [] => true
  | b0 :: s1 =>
      if u8 b0 <? 0x80 then utf8_valid s1
      else if in_range 0xC2 0xDF b0 then
        match s1 with
        | b1 :: s2 => is_cont b1 && utf8_valid s2
        | _ => false
        end
      else if in_range 0xE0 0xEF b0 then
        match s1 with
        | b1 :: b2 :: s3 =>
            in_range (if u8 b0 =? 0xE0 then 0xA0 else 0x80)
                     (if u8 b0 =? 0xED then 0x9F else 0xBF) b1
            && is_cont b2 && utf8_valid s3
        | _ => false
        end
      else if in_range 0xF0 0xF4 b0 then
        match s1 with
        | b1 :: b2 :: b3 :: s4 =>
            in_range (if u8 b0 =? 0xF0 then 0x90 else 0x80)
                     (if u8 b0 =? 0xF4 then 0x8F else 0xBF) b1
            && is_cont b2 && is_cont b3 && utf8_valid s4
        | _ => false
        end
      else false
  end.

Definition is_ascii (s : bytes) : bool := forallb (λ b, u8 b <? 0x80) s.

Lemma utf8_valid_ascii s : is_ascii s = true → utf8_valid s = true.
Proof.
  induction s as [|b s IH]; simpl; [done|].
  intros [-> H]%andb_true_iff. auto.
Qed.

(** ** Digits, number formatting and parsing *)

(** [char::to_digit(radix)] on one byte (a non-ASCII character has no digit). *)
Definition to_digit (radix : Z) (b : byte) : option Z :=
  let d :=
    if in_range 0x30 0x39 b then Some (u8 b - 0x30)
    else if in_range 0x61 0x7A b then Some (u8 b - 0x61 + 10)
    else if in_range 0x41 0x5A b then Some (u8 b - 0x41 + 10)
    else None in
  match d with
  | Some d => if d <? radix then Some d else None
  | None => None
  end.

(** The accumulated value of a run of digits. *)
Fixpoint digits_val (radix acc : Z) (s : bytes) : option Z :=
  match s with
  | [] => Some acc
  | c :: s' =>
      match to_digit radix c with
      | Some d => digits_val radix (acc * radix + d) s'
      | None => None
      end
  end.

(** [uN::from_str_radix]: an optional [+], at least one digit, no overflow. *)
Definition from_str_radix_u (bits radix : Z) (s : bytes) : option Z :=
  let s' := match s with c :: s' => if bool_decide (c = Byte.x2b) then s' else s | [] => [] end in
  if bool_decide (s' = []) then None
  else match digits_val radix 0 s' with
       | Some v => if v <? 2 ^ bits then Some v else None
       | None => None
       end.

(** [iN::from_str_radix]: a sign of either kind. *)
Definition from_str_radix_i (bits radix : Z) (s : bytes) : option Z :=
  match s with
  | c :: s' =>
      if bool_decide (c = Byte.x2d) then
        if bool_decide (s' = []) then None
        else match digits_val radix 0 s' with
             | Some v => if v <=? 2 ^ (bits - 1) then Some (- v) else None
             | None => None
             end
      else from_str_radix_u (bits - 1) radix s
  | [] => None
  end.

(** One hexadecimal digit, and the [n] low-order ones of a number. *)
Definition hex_digit (up : bool) (d : Z) : byte :=
  byte_of (if d <? 10 then 0x30 + d else (if up then 0x41 else 0x61) + (d - 10)).

Fixpoint hex_fixed (up : bool) (n : nat) (z : Z) : bytes :=
  match n with
  | O => []
  | S n => hex_fixed up n (z / 16) ++ [hex_digit up (z mod 16)]
  end.

(** [{:0wx}] (or [X] with [up]): at least [w] digits, more when the number needs them. *)
Definition fmt_hex (up : bool) (w : nat) (z : Z) : bytes :=
  hex_fixed up (Nat.max w (Z.to_nat (Z.log2 z / 4 + 1))) z.

Lemma hex_digit_u8 up d :
  0 ≤ d < 16 → u8 (hex_digit up d) = if d <? 10 then 0x30 + d else (if up then 0x41 else 0x61) + (d - 10).
Proof. intros H. apply u8_byte_of. destruct up; destruct (Z.ltb_spec d 10); lia. Qed.

Lemma to_digit_hex up d : 0 ≤ d < 16 → to_digit 16 (hex_digit up d) = Some d.
Proof.
  intros H. unfold to_digit, in_range. rewrite hex_digit_u8 by done.
  destruct (Z.ltb_spec d 10).
  - assert ((48 <=? 48 + d) && (48 + d <=? 57) = true) as -> by lia.
    assert (48 + d - 48 <? 16 = true) as -> by lia. f_equal; lia.
  - destruct up.
    + assert ((48 <=? 65 + (d - 10)) && (65 + (d - 10) <=? 57) = false) as -> by lia.
      assert ((97 <=? 65 + (d - 10)) && (65 + (d - 10) <=? 122) = false) as -> by lia.
      assert ((65 <=? 65 + (d - 10)) && (65 + (d - 10) <=? 90) = true) as -> by lia.
      assert (65 + (d - 10) - 65 + 10 <? 16 = true) as -> by lia. f_equal; lia.
    + assert ((48 <=? 97 + (d - 10)) && (97 + (d - 10) <=? 57) = false) as -> by lia.
      assert ((97 <=? 97 + (d - 10)) && (97 + (d - 10) <=? 122) = true) as -> by lia.
      assert (97 + (d - 10) - 97 + 10 <? 16 = true) as -> by lia. f_equal; lia.
Qed.

Lemma length_hex_fixed up n z : length (hex_fixed up n z) = n.
Proof. revert z. induction n; intros z; simpl; rewrite ?length_app, ?IHn; simpl; lia. Qed.

Lemma digits_val_app r acc s t :
  digits_val r acc (s ++ t) =
    match digits_val r acc s with Some v => digits_val r v t | None => None end.
Proof. revert acc. induction s as [|c s IH]; intros acc; simpl; [done|]. by destruct to_digit. Qed.

Lemma digits_val_hex up n acc z :
  0 ≤ z → digits_val 16 acc (hex_fixed up n z) = Some (acc * 16 ^ Z.of_nat n + z mod 16 ^ Z.of_nat n).
Proof.
  revert acc z. induction n as [|n IH]; intros acc z Hz.
  - simpl. rewrite Z.mod_1_r. f_equal. lia.
  - cbn [hex_fixed]. rewrite digits_val_app, IH by (apply Z.div_pos; lia). simpl.
    pose proof (Z.mod_pos_bound z 16). rewrite to_digit_hex by lia. f_equal.
    rewrite Nat2Z.inj_succ, Z.pow_succ_r by lia.
    rewrite (Z.rem_mul_r z 16 (16 ^ Z.of_nat n)) by lia. lia.
Qed.

(** A number below [16^w] takes exactly [w] digits. *)
Lemma fmt_hex_fixed up w z : 0 ≤ z < 16 ^ Z.of_nat w → (0 < w)%nat → fmt_hex up w z = hex_fixed up w z.
Proof.
  intros Hz Hw. unfold fmt_hex. f_equal. apply Nat.max_l.
  destruct (decide (z = 0)) as [->|]; [change (Z.log2 0 / 4) with 0; lia|].
  assert (Z.log2 z < 4 * Z.of_nat w); [|pose proof (Z.div_lt_upper_bound (Z.log2 z) 4 (Z.of_nat w)); lia].
  apply Z.log2_lt_pow2; [lia|]. rewrite Z.pow_mul_r by lia. apply Hz.
Qed.

Lemma is_ascii_hex_fixed up n z : is_ascii (hex_fixed up n z) = true.
Proof.
  revert z. induction n as [|n IH]; intros z; [done|]. unfold is_ascii in *.
  cbn [hex_fixed]. rewrite forallb_app, IH. simpl.
  pose proof (Z.mod_pos_bound z 16). rewrite hex_digit_u8 by lia.
  destruct up; destruct (Z.ltb_spec (z mod 16) 10); simpl; lia.
Qed.

(** [{}] of an unsigned number; the fuel of [dec_digits] bounds the digits. *)
Definition dec_digit (d : Z) : byte := byte_of (0x30 + d).

Fixpoint dec_digits (fuel : nat) (z : Z) : bytes :=
  match fuel with
  | O => []
  | S fuel => (if z <? 10 then [] else dec_digits fuel (z / 10)) ++ [dec_digit (z mod 10)]
  end.

Definition fmt_dec (z : Z) : bytes := dec_digits (S (Z.to_nat (Z.log2 z))) z.

Lemma dec_digit_u8 d : 0 ≤ d < 10 → u8 (dec_digit d) = 0x30 + d.
Proof. intros. apply u8_byte_of. lia. Qed.

Lemma to_digit_dec d : 0 ≤ d < 10 → to_digit 10 (dec_digit d) = Some d.
Proof.
  intros H. unfold to_digit, in_range. rewrite dec_digit_u8 by done.
  assert ((48 <=? 48 + d) && (48 + d <=? 57) = true) as -> by lia.
  assert (48 + d - 48 <? 10 = true) as -> by lia. f_equal. lia.
Qed.

Lemma digits_val_dec fuel z : 0 ≤ z < 2 ^ Z.of_nat fuel → digits_val 10 0 (dec_digits fuel z) = Some z.
Proof.
  revert z. induction fuel as [|fuel IH]; intros z Hz.
  - assert (z = 0) as -> by (simpl in Hz; lia). done.
  - cbn [dec_digits]. rewrite digits_val_app. pose proof (Z.mod_pos_bound z 10).
    rewrite Nat2Z.inj_succ, Z.pow_succ_r in Hz by lia.
    destruct (Z.ltb_spec z 10).
    + cbn [digits_val]. rewrite to_digit_dec by lia. rewrite Z.mod_small by lia. done.
    + rewrite IH. 2: { split; [apply Z.div_pos; lia|]. apply Z.div_lt_upper_bound; lia. }
      cbn [digits_val]. rewrite to_digit_dec by lia. f_equal.
      pose proof (Z.div_mod z 10). lia.
Qed.

Lemma dec_digits_digits fuel z : 0 ≤ z → Forall (λ b, 0x30 ≤ u8 b ≤ 0x39) (dec_digits fuel z).
Proof.
  revert z. induction fuel as [|fuel IH]; intros z Hz; [constructor|]. cbn [dec_digits].
  apply Forall_app. split.
  - destruct (z <? 10); [constructor|]. apply IH, Z.div_pos; lia.
  - pose proof (Z.mod_pos_bound z 10). constructor; [rewrite dec_digit_u8; lia|constructor].
Qed.

Lemma fmt_dec_digits z : 0 ≤ z → Forall (λ b, 0x30 ≤ u8 b ≤ 0x39) (fmt_dec z).
Proof. apply dec_digits_digits. Qed.

Lemma fmt_dec_nonempty z : fmt_dec z ≠ [].
Proof. unfold fmt_dec. cbn [dec_digits]. by destruct (if z <? 10 then [] else _). Qed.

(** Printing and parsing a decimal number. *)
Lemma parse_fmt_dec bits z : 0 ≤ z < 2 ^ bits → from_str_radix_u bits 10 (fmt_dec z) = Some z.
Proof.
  intros Hz. unfold from_str_radix_u.
  pose proof (fmt_dec_digits z ltac:(lia)) as Hd. pose proof (fmt_dec_nonempty z) as Hn.
  assert (digits_val 10 0 (fmt_dec z) = Some z) as Hv.
  { apply digits_val_dec. rewrite Nat2Z.inj_succ, Z2Nat.id by apply Z.log2_nonneg.
    destruct (decide (z = 0)) as [->|]; [split; [lia|by vm_compute]|].
    split; [lia|]. apply Z.log2_spec. lia. }
  destruct (fmt_dec z) as [|c s] eqn:E; [done|].
  rewrite (bool_decide_false (c = Byte.x2b)).
  2: { intros ->. apply Forall_inv in Hd. vm_compute in Hd. intuition congruence. }
  rewrite bool_decide_false by done. rewrite Hv. by destruct (Z.ltb_spec z (2 ^ bits)); [|lia].
Qed.

(** ** Plain-old-data integers: little-endian on every supported target *)

Fixpoint le_bytes (n : nat) (z : Z) : bytes :=
  match n with
  | O => []
  | S n => byte_of z :: le_bytes n (z / 256)
  end.

Fixpoint le_val (s : bytes) : Z :=
  match s with
  | [] => 0
  | b :: s => u8 b + 256 * le_val s
  end.

Lemma length_le_bytes n z : length (le_bytes n z) = n.
Proof. revert z. induction n; intros z; simpl; auto. Qed.

Lemma byte_of_mod z : byte_of (z mod 256) = byte_of z.
Proof. unfold byte_of. by rewrite Z.mod_mod by lia. Qed.

Lemma le_val_bytes n z : le_val (le_bytes n z) = z mod 256 ^ Z.of_nat n.
Proof.
  revert z. induction n as [|n IH]; intros z; cbn [le_bytes le_val].
  - by rewrite Z.mod_1_r.
  - pose proof (Z.mod_pos_bound z 256).
    rewrite <- byte_of_mod, u8_byte_of, IH, Nat2Z.inj_succ, Z.pow_succ_r by lia.
    rewrite Z.rem_mul_r by lia. lia.
Qed.

Lemma le_val_bytes_small n z : 0 ≤ z < 256 ^ Z.of_nat n → le_val (le_bytes n z) = z.
Proof. intros H. by rewrite le_val_bytes, Z.mod_small. Qed.

Lemma le_val_range s : 0 ≤ le_val s < 256 ^ len s.
Proof.
  induction s as [|b s IH]; [split; by vm_compute|]. cbn [le_val].
  rewrite len_cons, Z.pow_add_r, Z.pow_1_r by (pose proof (len_nonneg s); lia).
  pose proof (u8_range b). lia.
Qed.

(** [x as u32], [x as i32] and a wrapping [u32] or [i32] result. *)
Definition as_u32 (z : Z) : Z := z mod 2 ^ 32.
Definition as_i32 (z : Z) : Z := (z + 2 ^ 31) mod 2 ^ 32 - 2 ^ 31.

Lemma as_i32_u32 z : as_i32 (as_u32 z) = as_i32 z.
Proof.
  unfold as_i32, as_u32. f_equal. by rewrite Z.add_mod_idemp_l by lia.
Qed.

Lemma as_i32_small z : - 2 ^ 31 ≤ z < 2 ^ 31 → as_i32 z = z.
Proof. intros H. unfold as_i32. rewrite Z.mod_small by lia. lia. Qed.
