(* ===== verification/Patch.v ===== *)
(** Patch: [native/src/boot/patch.rs], the in-place editing of fstab-like
    buffers and of hexadecimal patterns.

    [match_patterns] is the macro of the same name instantiated with a list of
    patterns; [remove_pattern] is the in-place compaction loop with its write
    and read cursors; [stripped] is the reference: what remains of a buffer
    when the matches are dropped from left to right.  [matcher_ok] is the
    contract the [SAFETY] comments state: a match never runs past the buffer. *)

From S2P Require Import Prelude.

(** ** The pattern matchers *)

(** The bytes that end the value of a [flag=value] pair. *)
Definition is_delim (c : byte) : bool := bool_decide (c ∈ bs " " ++ [Byte.x0a; Byte.x00]).

(** The length of the run up to the first delimiter. *)
Fixpoint value_len (b : bytes) : nat :=
  match b with
  | [] => 0
  | c :: b' => if is_delim c then 0 else S (value_len b')
  end.

(** The chain of [else if b.starts_with($str)]. *)
Fixpoint first_match (pats : list bytes) (b : bytes) : option nat :=
  match pats with
  | [] => None
  | p :: ps => if starts_with p b then Some (length p) else first_match ps b
  end.

(** The macro; its callers pass a non-empty buffer. *)
Definition match_patterns (pats : list bytes) (buf : bytes) : option nat :=
  let ln := match buf with c :: _ => if bool_decide (c = Byte.x2c) then 1%nat else 0%nat | [] => 0%nat end in
  let b := drop ln buf in
  match (if bool_decide (b = []) then None else first_match pats b) with
  | Some n =>
      let ln := (ln + n)%nat in
      let b := drop ln buf in
      Some (match b with
            | c :: _ => if bool_decide (c = Byte.x3d) then (ln + value_len b)%nat else ln
            | [] => ln
            end)
  | None => None
  end.

Definition match_verity_pattern : bytes → option nat :=
  match_patterns
    [bs "verifyatboot"; bs "verify"; bs "avb_keys"; bs "avb"; bs "support_scfs"; bs "fsverity"].

Definition match_encryption_pattern : bytes → option nat :=
  match_patterns [bs "forceencrypt"; bs "forcefdeorfbe"; bs "fileencryption"].

(** ** The compaction loop *)

Fixpoint remove_loop (fuel : nat) (m : bytes → option nat)
    (buf : bytes) (write read : nat) (sz : Z) : LoggedResult (bytes * nat * Z) :=
  match fuel with
  | O => NoFuel
  | S fuel =>
      if (read <? length buf)%nat then
        match m (drop read buf) with
        | Some ln => remove_loop fuel m buf write (read + ln) (sz - Z.of_nat ln)
        | None =>
            match buf !! read with
            | Some c => remove_loop fuel m (<[write := c]> buf) (S write) (S read) sz
            | None => Panic
            end
        end
      else Ok (buf, write, sz)
  end.

(** The buffer afterwards (same length, zero-filled tail) and the new size. *)
Definition remove_pattern (buf : bytes) (m : bytes → option nat) : LoggedResult (bytes * Z) :=
  '(buf, write, sz) ← remove_loop (S (length buf)) m buf 0 0 (len buf);
  Ok (take write buf ++ replicate (length buf - write) Byte.x00, sz).

Definition patch_verity (buf : bytes) : LoggedResult (bytes * Z) :=
  remove_pattern buf match_verity_pattern.

Definition patch_encryption (buf : bytes) : LoggedResult (bytes * Z) :=
  remove_pattern buf match_encryption_pattern.

(** ** Hexadecimal patterns *)

Definition to_ascii_uppercase (b : byte) : Z :=
  if in_range 0x61 0x7A b then u8 b - 32 else u8 b.

(** [b - b'0'] then [- 7] above 9, on wrapping [u8]s. *)
Definition hex_nibble (b : byte) : Z :=
  let h := (to_ascii_uppercase b - 0x30) mod 256 in
  if 9 <? h then (h - 7) mod 256 else h.

Fixpoint hex2byte (hex : bytes) : bytes :=
  match hex with
  | a :: b :: hex' =>
      byte_of (Z.lor (Z.shiftl (hex_nibble a) 4 mod 256) (hex_nibble b)) :: hex2byte hex'
  | _ => []
  end.

Section HexPatch.
(** The C++ [mut_u8_patch]: the patched buffer and the patched offsets. *)
Variable mut_u8_patch : bytes → bytes → bytes → bytes * list Z.

(** [hexpatch] on the contents of the file, [None] when it cannot be mapped:
    the contents afterwards and the result. *)
Definition hexpatch (file : option bytes) (from to : bytes) : option bytes * bool :=
  match file with
  | None => (None, false)
  | Some map =>
      let '(map', v) := mut_u8_patch map (hex2byte from) (hex2byte to) in
      (Some map', negb (bool_decide (v = [])))
  end.
End HexPatch.

(** ** Specification *)

(** The contract of a matcher on a non-empty buffer. *)
Definition matcher_ok (m : bytes → option nat) : Prop :=
  ∀ s n, s ≠ [] → m s = Some n → (1 ≤ n ≤ length s)%nat.

(** [stripped m s t]: [t] is [s] without its matches, taken from the left. *)
Inductive stripped (m : bytes → option nat) : bytes → bytes → Prop :=
  | stripped_nil : stripped m [] []
  | stripped_match c s n t :
      m (c :: s) = Some n → stripped m (drop n (c :: s)) t → stripped m (c :: s) t
  | stripped_keep c s t :
      m (c :: s) = None → stripped m s t → stripped m (c :: s) (c :: t).

(** ** The matchers respect their contract *)

Lemma first_match_bound pats b n :
  first_match pats b = Some n → (n ≤ length b)%nat ∧ ∃ p, p ∈ pats ∧ n = length p.
Proof.
  induction pats as [|p ps IH]; simpl; [done|].
  destruct (starts_with p b) eqn:Hp.
  - intros [= <-]. apply starts_with_spec in Hp as [r ->].
    rewrite length_app. split; [lia|]. exists p. split; [left|]; done.
  - intros [? (q & ? & ?)]%IH. split; [done|]. exists q. split; [by right|done].
Qed.

Lemma value_len_bound b : (value_len b ≤ length b)%nat.
Proof. induction b as [|c b IH]; simpl; [lia|]. destruct is_delim; lia. Qed.

Lemma match_patterns_ok pats :
  [] ∉ pats → matcher_ok (match_patterns pats).
Proof.
  intros Hne s n Hs. unfold match_patterns.
  set (ln := match s with [] => 0%nat | c :: _ => _ end).
  assert (Hln : (ln ≤ length s)%nat).
  { subst ln. destruct s; simpl; [lia|]. case_bool_decide; lia. }
  case_bool_decide; [done|]. destruct (first_match pats (drop ln s)) as [k|] eqn:Hk; [|done].
  apply first_match_bound in Hk as [Hk (p & Hp & ->)].
  rewrite length_drop in Hk.
  assert (1 ≤ length p)%nat by (destruct p; simpl; [done|lia]).
  intros [= <-]. destruct (drop (ln + length p) s) as [|c b] eqn:Hd; [lia|].
  case_bool_decide; [|lia].
  assert (length (c :: b) = length s - (ln + length p))%nat by (rewrite <- Hd, length_drop; lia).
  pose proof (value_len_bound (c :: b)). lia.
Qed.

Lemma match_verity_ok : matcher_ok match_verity_pattern.
Proof. apply match_patterns_ok. by_compute. Qed.

Lemma match_encryption_ok : matcher_ok match_encryption_pattern.
Proof. apply match_patterns_ok. by_compute. Qed.

#[export] Hint Resolve match_verity_ok match_encryption_ok : magisk.

(** ** The loop computes the reference *)

(** The reference is total and deterministic for a matcher that keeps its contract. *)
Lemma stripped_total m s : matcher_ok m → ∃ t, stripped m s t ∧ (length t ≤ length s)%nat.
Proof.
  intros Hm. remember (length s) as k eqn:Hk. revert s Hk.
  induction (lt_wf k) as [k _ IH]; intros s ->.
  destruct s as [|c s]; [exists []; split; [constructor|simpl; lia]|].
  destruct (m (c :: s)) as [n|] eqn:E.
  - destruct (Hm (c :: _) n ltac:(done) E) as [Hn1 Hn2].
    destruct (IH (length (drop n (c :: s))) ltac:(rewrite length_drop; lia) _ eq_refl)
      as (t & Ht & Hl).
    exists t. split; [by econstructor|]. rewrite length_drop in Hl. lia.
  - destruct (IH (length s) ltac:(simpl; lia) s eq_refl) as (t & Ht & Hl).
    exists (c :: t). split; [by constructor|]. simpl. lia.
Qed.

Lemma stripped_det m s t t' : stripped m s t → stripped m s t' → t = t'.
Proof.
  intros H. revert t'. induction H as [|c s n t E H IH|c s t E H IH];
    intros t' H'; inversion H'; subst; try congruence.
  - apply IH. congruence.
  - f_equal. eauto.
Qed.

(** One writing step moves the kept byte to the end of the compacted prefix. *)
Lemma write_step (buf : bytes) (write : nat) c :
  (write < length buf)%nat →
  take (S write) (<[write := c]> buf) = take write buf ++ [c].
Proof.
  intros H. rewrite (take_S_r _ _ c) by (by apply list_lookup_insert_eq).
  by rewrite take_insert_ge by lia.
Qed.

(** Writing at or before the cursor leaves what is read later unchanged. *)
Lemma read_unchanged (buf : bytes) (write read : nat) c :
  (write < read)%nat → drop read (<[write := c]> buf) = drop read buf.
Proof. intros. by apply drop_insert_lt. Qed.

Lemma remove_loop_spec fuel m buf write read sz t :
  matcher_ok m → (write ≤ read)%nat → (length buf < fuel + read)%nat →
  stripped m (drop read buf) t →
  (read ≤ length buf)%nat →
  ∃ buf', remove_loop fuel m buf write read sz =
      Ok (buf', (write + length t)%nat, sz - Z.of_nat (length buf - read - length t)) ∧
    take (write + length t) buf' = take write buf ++ t ∧ length buf' = length buf.
Proof.
  intros Hm. revert buf write read sz t.
  induction fuel as [|fuel IH]; intros buf write read sz t Hwr Hf Ht Hr; [lia|].
  simpl. destruct (Nat.ltb_spec read (length buf)) as [Hlt|Hge].
  2:{ rewrite drop_ge in Ht by lia. inversion Ht; subst. exists buf. simpl.
      rewrite Nat.add_0_r, app_nil_r. split; [|done]. repeat f_equal. lia. }
  destruct (lookup_lt_is_Some_2 buf read Hlt) as [c Hc].
  rewrite (drop_S _ c read Hc) in Ht |- *. rewrite Hc.
  inversion Ht as [|? ? n ? E Ht'|? ? t' E Ht']; subst; rewrite E.
  - destruct (Hm (c :: _) n ltac:(done) E) as [Hn1 Hn2].
    rewrite <- (drop_S _ c read Hc), drop_drop in Ht'.
    rewrite <- (drop_S _ c read Hc), length_drop in Hn2.
    destruct (IH buf write (read + n)%nat (sz - Z.of_nat n) t) as (buf' & -> & Htk & Hl);
      [lia|lia|done|lia|].
    assert (length t ≤ length buf - (read + n))%nat.
    { destruct (stripped_total m (drop (read + n) buf) Hm) as (t0 & H0 & Hl0).
      rewrite (stripped_det _ _ _ _ Ht' H0). rewrite length_drop in Hl0. done. }
    exists buf'. split; [|done]. do 2 f_equal. lia.
  - destruct (IH (<[write := c]> buf) (S write) (S read) sz t') as (buf' & -> & Htk & Hl).
    + lia.
    + rewrite length_insert. lia.
    + rewrite read_unchanged by lia. done.
    + rewrite length_insert. lia.
    + rewrite length_insert in *. exists buf'.
      rewrite write_step in Htk by lia. rewrite <- app_assoc in Htk.
      simpl length. replace (write + S (length t'))%nat with (S write + length t')%nat by lia.
      split; [|done]. do 3 f_equal. lia.
Qed.

Lemma remove_pattern_spec m buf :
  matcher_ok m →
  ∃ t, stripped m buf t ∧ (length t ≤ length buf)%nat ∧
    remove_pattern buf m = Ok (t ++ zeros (len buf - len t), len t).
Proof.
  intros Hm. destruct (stripped_total m buf Hm) as (t & Ht & Hl). exists t. do 2 (split; [done|]).
  unfold remove_pattern.
  destruct (remove_loop_spec (S (length buf)) m buf 0 0 (len buf) t) as (buf' & -> & Htk & Hlen);
    [done|lia|lia|done|lia|].
  simpl in *. rewrite Htk, Hlen. unfold zeros, len. do 3 f_equal; [f_equal|]; lia.
Qed.

(** Every suffix that can be read during the run is a suffix of the buffer. *)
Lemma stripped_same_length m s t :
  matcher_ok m → stripped m s t →
  length t = length s ↔ (∀ i, (i < length s)%nat → m (drop i s) = None).
Proof.
  intros Hm H. induction H as [|c s n t E H IH|c s t E H IH]; simpl.
  - split; [intros _ i ?; lia|done].
  - destruct (Hm (c :: s) n ltac:(done) E) as [Hn1 Hn2].
    destruct (stripped_total m (drop n (c :: s)) Hm) as (t0 & H0 & Hl0).
    rewrite (stripped_det _ _ _ _ H H0), length_drop in *. simpl in *. split; [lia|].
    intros Hno. specialize (Hno 0%nat ltac:(lia)). simpl in Hno. congruence.
  - split.
    + intros [= Ht] [|i] Hi; [done|]. simpl. apply IH; [done|lia].
    + intros Hno. f_equal. apply IH. intros i Hi. apply (Hno (S i)). lia.
Qed.

Lemma hex2byte_one up b : hex2byte (hex_fixed up 2 (u8 b)) = [b].
Proof. destruct up, b; vm_compute; reflexivity. Qed.

Lemma hex2byte_app a c hex : hex2byte (a :: c :: hex) = hex2byte [a; c] ++ hex2byte hex.
Proof. done. Qed.

(** ** Properties *)

(** C19: [patch_verity] and [patch_encryption] run their in-place loop to the end on
    every buffer, never reading or slicing outside it, and leave exactly the buffer
    stripped of its matches from left to right, zero-filled to the old length, with
    the stripped length as result. *)
Theorem patch_fstab_refines buf :
  (∃ t, stripped match_verity_pattern buf t ∧ (length t ≤ length buf)%nat ∧
     patch_verity buf = Ok (t ++ zeros (len buf - len t), len t)) ∧
  (∃ t, stripped match_encryption_pattern buf t ∧ (length t ≤ length buf)%nat ∧
     patch_encryption buf = Ok (t ++ zeros (len buf - len t), len t)).
Proof. split; apply remove_pattern_spec; auto with magisk. Qed.

(** The size [patch_verity] returns differs from the buffer's exactly when some
    position of the buffer matches a verity flag, which is what the callers test. *)
Theorem patch_verity_size_iff buf :
  (∃ b, patch_verity buf = Ok (b, len buf)) ↔
  (∀ i, (i < length buf)%nat → match_verity_pattern (drop i buf) = None).
Proof.
  destruct (remove_pattern_spec match_verity_pattern buf) as (t & Ht & Hl & Heq);
    [auto with magisk|].
  rewrite <- (stripped_same_length _ _ _ match_verity_ok Ht). unfold patch_verity. rewrite Heq.
  unfold len. split.
  - intros [b [= _ Hb]]. lia.
  - intros ->. eauto.
Qed.

(** [hex2byte] reads back what [{:02x}] or [{:02X}] printing of any bytes wrote. *)
Theorem hex2byte_roundtrip up data : hex2byte (flat_map (λ b, hex_fixed up 2 (u8 b)) data) = data.
Proof.
  induction data as [|b data IH]; [done|]. cbn [flat_map].
  pose proof (hex2byte_one up b) as Hb. pose proof (length_hex_fixed up 2 (u8 b)) as Hl.
  destruct (hex_fixed up 2 (u8 b)) as [|a [|c [|]]]; try done.
  cbn [app]. by rewrite hex2byte_app, IH, Hb.
Qed.
