(* ===== verification/Misc.v ===== *)
(** Misc: [native/src/base/misc.rs], byte-pattern search ([BytesExt::find]) and
    the [Chunker], which cuts a stream handed over in arbitrary pieces into
    blocks of one size.

    [add_data] is one call, with its three cases and its checked copies;
    [feed] is the caller's loop ([while !buf.is_empty()] in
    [LZ4BlockEncoder::write_all]).  [chunks_of] is the reference: the full
    blocks of a byte string and the remainder. *)

From S2P Require Import Prelude.

(** ** [BytesExt] *)

(** [memmem]: the offset of the first occurrence. *)
Fixpoint find (needle hay : bytes) : option Z :=
  if starts_with needle hay then Some 0
  else match hay with
       | [] => None
       | _ :: hay' => match find needle hay' with Some i => Some (i + 1) | None => None end
       end.

Definition contains (needle hay : bytes) : bool :=
  match find needle hay with Some _ => true | None => false end.

(** The first occurrence: the needle stands there and nowhere before. *)
Lemma find_Some needle hay i :
  find needle hay = Some i →
  0 ≤ i ∧ ∃ p s, hay = p ++ needle ++ s ∧ len p = i.
Proof.
  revert i. induction hay as [|c hay IH]; intros i; cbn [find];
    destruct (starts_with needle _) eqn:H.
  - intros [= <-]. apply starts_with_spec in H as [r ->]. split; [lia|]. by exists [], r.
  - done.
  - intros [= <-]. apply starts_with_spec in H as [r ->]. split; [lia|]. by exists [], r.
  - destruct (find needle hay) as [j|]; [|done]. intros [= <-].
    destruct (IH j eq_refl) as (? & p & s & -> & <-). split; [lia|].
    exists (c :: p), s. rewrite len_cons. split; [done|lia].
Qed.

Lemma find_range needle hay i : find needle hay = Some i → 0 ≤ i ≤ len hay.
Proof.
  intros (? & p & s & -> & <-)%find_Some. rewrite !len_app.
  pose proof (len_nonneg needle). pose proof (len_nonneg s). lia.
Qed.

Lemma contains_spec needle hay : contains needle hay = true ↔ ∃ p s, hay = p ++ needle ++ s.
Proof.
  unfold contains. split.
  - destruct (find needle hay) as [i|] eqn:H; [|done].
    apply find_Some in H as (? & p & s & -> & ?). eauto.
  - intros (p & s & ->). induction p as [|c p IH]; simpl.
    + destruct (needle ++ s) eqn:E; cbn [find]; rewrite <- E, starts_with_app; done.
    + destruct (starts_with needle _); [done|]. by destruct (find needle (p ++ needle ++ s)).
Qed.

(** ** [Chunker] *)

Module Chunker.

Record Chunker := mk { chunk : bytes; chunk_size : nat; pos : nat }.

(** A fresh chunker; the bytes of the box are never read before they are written. *)
Definition new (chunk_size : nat) : Chunker :=
  mk (replicate chunk_size Byte.x00) chunk_size 0.

Definition set_chunk_size (c : Chunker) (size : nat) : Chunker :=
  mk (if (length (chunk c) <? size)%nat then replicate size Byte.x00 else chunk c) size 0.

(** [dst[at..at + src.len()].copy_from_slice(src)]. *)
Definition copy_at (dst : bytes) (at_ : nat) (src : bytes) : LoggedResult bytes :=
  if (at_ + length src <=? length dst)%nat
  then Ok (take at_ dst ++ src ++ drop (at_ + length src) dst)
  else Panic.

(** The chunker afterwards, the remaining input, and a block when one is complete. *)
Definition add_data (c : Chunker) (buf : bytes) : LoggedResult (Chunker * bytes * option bytes) :=
  if (0 <? pos c)%nat then
    let ln := Nat.min (chunk_size c - pos c) (length buf) in
    chunk' ← copy_at (chunk c) (pos c) (take ln buf);
    let pos' := (pos c + ln)%nat in
    if (pos' =? chunk_size c)%nat
    then Ok (mk chunk' (chunk_size c) 0, drop ln buf, Some (take (chunk_size c) chunk'))
    else Ok (mk chunk' (chunk_size c) pos', drop ln buf, None)
  else if (chunk_size c <=? length buf)%nat then
    Ok (c, drop (chunk_size c) buf, Some (take (chunk_size c) buf))
  else
    chunk' ← copy_at (chunk c) (pos c) buf;
    Ok (mk chunk' (chunk_size c) (pos c + length buf), [], None).

Definition get_available (c : Chunker) : Chunker * bytes :=
  (mk (chunk c) (chunk_size c) 0, take (pos c) (chunk c)).

(** [while !buf.is_empty() { let (b, chunk) = add_data(buf); ... }]: the blocks in order. *)
Fixpoint feed (fuel : nat) (c : Chunker) (buf : bytes) : LoggedResult (Chunker * list bytes) :=
  match fuel with
  | O => NoFuel
  | S fuel =>
      if bool_decide (buf = []) then Ok (c, [])
      else
        '(c', b, ch) ← add_data c buf;
        '(c'', cs) ← feed fuel c' b;
        Ok (c'', option_list ch ++ cs)
  end.

(** *** Specification *)

(** The buffered prefix of an unfinished block. *)
Definition pending (c : Chunker) : bytes := take (pos c) (chunk c).

(** A chunker between calls: the box holds a block, which is not complete. *)
Definition wf (c : Chunker) : Prop :=
  (pos c < chunk_size c)%nat ∧ (chunk_size c ≤ length (chunk c))%nat.

(** [chunks_of n s blocks rest]: [s] cut into blocks of [n] bytes, then less than a block. *)
Inductive chunks_of (n : nat) : bytes → list bytes → bytes → Prop :=
  | chunks_rest s : (length s < n)%nat → chunks_of n s [] s
  | chunks_block b s bs rest :
      length b = n → chunks_of n s bs rest → chunks_of n (b ++ s) (b :: bs) rest.

Lemma chunks_of_concat n s bs rest : chunks_of n s bs rest → s = concat bs ++ rest.
Proof. induction 1; simpl; [done|]. subst. by rewrite <- app_assoc. Qed.

Lemma chunks_of_sizes n s bs rest :
  chunks_of n s bs rest → Forall (λ b, length b = n) bs ∧ (length rest < n)%nat.
Proof. induction 1; naive_solver. Qed.

(** Cutting a stream that continues a finished cut. *)
Lemma chunks_of_app n s bs r t cs rest :
  chunks_of n s bs r → chunks_of n (r ++ t) cs rest → chunks_of n (s ++ t) (bs ++ cs) rest.
Proof.
  induction 1 as [|b s bs r Hb H IH]; simpl; [done|].
  intros Hc. rewrite <- app_assoc. constructor; auto.
Qed.

Lemma wf_new n : (0 < n)%nat → wf (new n).
Proof. unfold wf, new. simpl. rewrite length_replicate. lia. Qed.

Lemma wf_set_chunk_size c n : (0 < n)%nat → wf (set_chunk_size c n).
Proof.
  unfold wf, set_chunk_size. simpl. intros.
  destruct (Nat.ltb_spec (length (chunk c)) n); rewrite ?length_replicate; lia.
Qed.

Lemma copy_at_spec dst i src :
  (i + length src ≤ length dst)%nat →
  ∃ d, copy_at dst i src = Ok d ∧ length d = length dst ∧
    take (i + length src) d = take i dst ++ src.
Proof.
  intros H. unfold copy_at. destruct (Nat.leb_spec (i + length src) (length dst)); [|lia].
  eexists. split; [done|]. split.
  - rewrite !length_app, length_drop, length_take. lia.
  - rewrite app_assoc. apply take_app_length'. rewrite length_app, length_take. lia.
Qed.

(** One call: it never panics, keeps the invariant and the block size, makes
    progress, and moves [pending ++ buf] to a block (if any), the new pending
    bytes and the remaining input, in order. *)
Lemma add_data_spec c buf :
  wf c → buf ≠ [] →
  ∃ c' b ch, add_data c buf = Ok (c', b, ch) ∧ wf c' ∧ chunk_size c' = chunk_size c ∧
    (length b < length buf)%nat ∧
    pending c ++ buf = (if ch then default [] ch else []) ++ pending c' ++ b ∧
    match ch with
    | Some blk => length blk = chunk_size c ∧ pending c' = []
    | None => b = []
    end.
Proof.
  destruct c as [ck n p]. unfold wf, add_data, pending; simpl. intros [Hp Hn] Hb.
  assert (0 < length buf)%nat by (destruct buf; simpl; [done|lia]).
  destruct (Nat.ltb_spec 0 p) as [H0|H0].
  - set (ln := Nat.min (n - p) (length buf)).
    destruct (copy_at_spec ck p (take ln buf)) as (d & -> & Hd & Htk);
      rewrite length_take in *; [lia|]. simpl.
    rewrite (Nat.min_l ln) in Htk by lia.
    destruct (Nat.eqb_spec (p + ln) n) as [E|E]; do 3 eexists; (split; [done|]); simpl;
      rewrite length_drop.
    + rewrite <- E, Htk, length_app, !length_take, <- app_assoc, take_drop.
      split_and!; try lia; done.
    + assert (p + length buf < n)%nat by lia. assert (ln = length buf) as -> by lia.
      rewrite Htk, drop_all, app_nil_r, firstn_all. split_and!; try lia; done.
  - assert (p = 0%nat) as -> by lia. simpl.
    destruct (Nat.leb_spec n (length buf)).
    + do 3 eexists. split; [done|]. simpl.
      rewrite length_drop, length_take, take_drop. split_and!; try lia; done.
    + destruct (copy_at_spec ck 0 buf) as (d & -> & Hd & Htk); [lia|]. simpl in *.
      do 3 eexists. split; [done|]. simpl. rewrite Htk, app_nil_r. split_and!; try lia; done.
Qed.

(** The caller's loop terminates and cuts [pending ++ buf] into blocks. *)
Lemma feed_spec fuel c buf :
  wf c → (length buf < fuel)%nat →
  ∃ c' cs, feed fuel c buf = Ok (c', cs) ∧ wf c' ∧ chunk_size c' = chunk_size c ∧
    chunks_of (chunk_size c) (pending c ++ buf) cs (pending c').
Proof.
  revert c buf. induction fuel as [|fuel IH]; intros c buf Hwf Hf; [lia|]. simpl.
  case_bool_decide as Hb.
  - subst. rewrite app_nil_r. exists c, []. split_and!; try done. constructor.
    unfold pending. rewrite length_take. destruct Hwf. lia.
  - destruct (add_data_spec c buf Hwf Hb) as (c1 & b & ch & -> & Hwf1 & Hs1 & Hl & Heq & Hch).
    simpl. destruct (IH c1 b Hwf1 ltac:(lia)) as (c2 & cs & -> & Hwf2 & Hs2 & Hcs). simpl.
    exists c2, (option_list ch ++ cs). split_and!; try done; [congruence|].
    rewrite Heq. rewrite Hs1 in Hcs. destruct ch as [blk|]; simpl; [|done].
    destruct Hch as [Hblk Hp]. by constructor.
Qed.

End Chunker.

(** ** A stream written in pieces *)

Module Stream.
Import Chunker.

(** Several writes through one chunker: all the blocks produced. *)
Fixpoint feed_all (c : Chunker) (writes : list bytes) : LoggedResult (Chunker * list bytes) :=
  match writes with
  | [] => Ok (c, [])
  | w :: ws =>
      '(c', cs) ← feed (S (length w)) c w;
      '(c'', cs') ← feed_all c' ws;
      Ok (c'', cs ++ cs')
  end.

Lemma feed_all_spec c writes :
  wf c →
  ∃ c' cs, feed_all c writes = Ok (c', cs) ∧ wf c' ∧ chunk_size c' = chunk_size c ∧
    chunks_of (chunk_size c) (pending c ++ concat writes) cs (pending c').
Proof.
  revert c. induction writes as [|w ws IH]; intros c Hwf; cbn [feed_all concat].
  - rewrite app_nil_r. exists c, []. split_and!; try done. constructor.
    unfold pending. rewrite length_take. destruct Hwf. lia.
  - destruct (feed_spec (S (length w)) c w Hwf ltac:(lia)) as (c1 & cs & -> & Hwf1 & Hs1 & Hc1).
    simpl. destruct (IH c1 Hwf1) as (c2 & cs' & -> & Hwf2 & Hs2 & Hc2). simpl.
    exists c2, (cs ++ cs'). split_and!; try done; [congruence|].
    rewrite app_assoc. eapply chunks_of_app; [done|]. by rewrite Hs1 in Hc2.
Qed.

(** However a stream is cut into writes, the chunker terminates without a panic
    and hands over exactly the full blocks of the concatenated stream, in order; what
    [get_available] then returns is the remainder, shorter than a block. *)
Theorem chunker_stream n writes :
  (0 < n)%nat →
  ∃ c cs, feed_all (new n) writes = Ok (c, cs) ∧
    chunks_of n (concat writes) cs (get_available c).2.
Proof.
  intros Hn. destruct (feed_all_spec (new n) writes (wf_new n Hn)) as (c & cs & H & _ & _ & Hc).
  exists c, cs. split; [done|]. exact Hc.
Qed.

Lemma chunker_stream_witness :
  (0 < 3)%nat ∧
  ∃ c cs, feed_all (new 3) [bs "ab"; bs "cdefg"; bs "h"] = Ok (c, cs) ∧
    chunks_of 3 (concat [bs "ab"; bs "cdefg"; bs "h"]) cs (get_available c).2.
Proof. split; [lia|]. apply (chunker_stream 3). lia. Defined.

End Stream.
