(* ===== verification/Format.v ===== *)
(** Format: [FileFormat] ([native/src/boot/lib.rs] and [native/src/boot/format.rs]):
    the enumeration shared with the C++ side, its names, its file extensions and
    the set of formats magiskboot can compress and decompress. *)

From S2P Require Import Prelude.

Inductive FileFormat :=
  | UNKNOWN
  | CHROMEOS | AOSP | AOSP_VENDOR | DHTB | BLOB
  | GZIP | ZOPFLI | XZ | LZMA | BZIP2 | LZ4 | LZ4_LEGACY | LZ4_LG
  | LZOP
  | MTK | DTB | ZIMAGE.

#[global] Instance FileFormat_eq_dec : EqDecision FileFormat.
Proof. solve_decision. Defined.

(** [FromStr]. *)
Definition from_str (s : bytes) : option FileFormat :=
  if bool_decide (s = bs "gzip") then Some GZIP
  else if bool_decide (s = bs "zopfli") then Some ZOPFLI
  else if bool_decide (s = bs "xz") then Some XZ
  else if bool_decide (s = bs "lzma") then Some LZMA
  else if bool_decide (s = bs "bzip2") then Some BZIP2
  else if bool_decide (s = bs "lz4") then Some LZ4
  else if bool_decide (s = bs "lz4_legacy") then Some LZ4_LEGACY
  else if bool_decide (s = bs "lz4_lg") then Some LZ4_LG
  else None.

(** [as_cstr], which is also [Display] and [fmt2name]. *)
Definition as_cstr (f : FileFormat) : bytes :=
  match f with
  | GZIP => bs "gzip"
  | ZOPFLI => bs "zopfli"
  | LZOP => bs "lzop"
  | XZ => bs "xz"
  | LZMA => bs "lzma"
  | BZIP2 => bs "bzip2"
  | LZ4 => bs "lz4"
  | LZ4_LEGACY => bs "lz4_legacy"
  | LZ4_LG => bs "lz4_lg"
  | DTB => bs "dtb"
  | ZIMAGE => bs "zimage"
  | _ => bs "raw"
  end.

Definition ext (f : FileFormat) : bytes :=
  match f with
  | GZIP | ZOPFLI => bs "gz"
  | LZOP => bs "lzo"
  | XZ => bs "xz"
  | LZMA => bs "lzma"
  | BZIP2 => bs "bz2"
  | LZ4 | LZ4_LEGACY | LZ4_LG => bs "lz4"
  | _ => []
  end.

Definition is_compressed (f : FileFormat) : bool :=
  match f with
  | GZIP | ZOPFLI | XZ | LZMA | BZIP2 | LZ4 | LZ4_LEGACY | LZ4_LG => true
  | _ => false
  end.

Definition supported : list FileFormat :=
  [GZIP; ZOPFLI; XZ; LZMA; BZIP2; LZ4; LZ4_LEGACY; LZ4_LG].

(** The list of names in the usage message. *)
Definition formats : bytes := join (bs " ") (map as_cstr supported).

Definition fmt_compressed_any (f : FileFormat) : bool :=
  is_compressed f || bool_decide (f = LZOP).

(** ** Lemmas *)

Lemma ext_nonempty f : is_compressed f = true → ext f ≠ [].
Proof. by destruct f. Qed.

Lemma ext_no_dot f : Byte.x2e ∉ ext f.
Proof. destruct f; by_compute. Qed.

(** The names parse back: [from_str] accepts exactly the names of the formats
    magiskboot can compress to, each giving the format whose name it is, and the
    usage message lists exactly those names. *)
Theorem from_str_as_cstr s f :
  from_str s = Some f ↔ is_compressed f = true ∧ s = as_cstr f ∧ s ∈ split_on Byte.x20 formats.
Proof.
  split.
  - unfold from_str. intros H.
    repeat (case_bool_decide as Hs;
            [injection H as <-; subst s; split_and!; by_compute|clear Hs]).
    done.
  - intros (Hf & -> & _). by destruct f.
Qed.
