(* ===== verification/Lz4.v ===== *)
(** Lz4: the legacy LZ4 block archive of [native/src/boot/compress.rs]
    ([LZ4BlockEncoder], [LZ4BlockDecoder]).

    An archive is a magic, then blocks (a little-endian size and the compressed
    bytes), then, in the LG variant, the total uncompressed size.  The block
    codec is the [lz4] crate: the section's [lz4_compress] and [lz4_decompress],
    with the documented facts the code relies on as hypotheses.  The encoder
    state is the bytes written, the [Chunker], the [u32] total and the variant;
    [write_all] is one call, [finish] the last one.  The decoder is driven by
    [read] with any buffer size; [read_to_end] repeats it until it returns 0
    bytes, as [std::io::copy] does. *)

From S2P Require Import Prelude Misc.
Import Chunker Stream.

Definition LZ4_MAGIC : Z := 0x184c2102.

Section Lz4.
Context (LZ4_BLOCK_SIZE : nat).
(** The block codec of the [lz4] crate and the size of the decoder's input buffer
    ([compress_bound(LZ4_BLOCK_SIZE)]). *)
Context (lz4_compress lz4_decompress : bytes → option bytes) (in_len : Z).
(** How many bytes one [Read::read] of the underlying reader returns when asked
    for [n] bytes and [n] are available. *)
Context (read_some : Z → Z).

(** ** Encoder *)

Record Encoder := mkEnc { write : bytes; chunker : Chunker; total : Z; is_lg : bool }.

Definition new (is_lg : bool) : Encoder := mkEnc [] (Chunker.new LZ4_BLOCK_SIZE) 0 is_lg.

Definition encode_block (w : bytes) (chunk : bytes) : LoggedResult bytes :=
  z ← of_option tt (lz4_compress chunk);
  Ok (w ++ le_bytes 4 (as_u32 (len z)) ++ z).

(** [while !buf.is_empty()] in [write_all]. *)
Fixpoint write_loop (fuel : nat) (w : bytes) (c : Chunker) (buf : bytes) :
    LoggedResult (bytes * Chunker) :=
  match fuel with
  | O => NoFuel
  | S fuel =>
      if bool_decide (buf = []) then Ok (w, c)
      else
        '(c', b, chunk) ← add_data c buf;
        w' ← match chunk with Some chunk => encode_block w chunk | None => Ok w end;
        write_loop fuel w' c' b
  end.

Definition write_all (e : Encoder) (buf : bytes) : LoggedResult Encoder :=
  let w := if total e =? 0 then write e ++ le_bytes 4 LZ4_MAGIC else write e in
  let total' := as_u32 (total e + as_u32 (len buf)) in
  '(w', c') ← write_loop (S (length buf)) w (chunker e) buf;
  Ok (mkEnc w' c' total' (is_lg e)).

Definition finish (e : Encoder) : LoggedResult bytes :=
  let '(_, chunk) := get_available (chunker e) in
  w ← (if bool_decide (chunk = []) then Ok (write e) else encode_block (write e) chunk);
  Ok (if is_lg e then w ++ le_bytes 4 (total e) else w).

(** An archive written with these calls to [write_all]. *)
Fixpoint write_each (e : Encoder) (writes : list bytes) : LoggedResult Encoder :=
  match writes with
  | [] => Ok e
  | b :: bs => e' ← write_all e b; write_each e' bs
  end.

Definition encode (is_lg : bool) (writes : list bytes) : LoggedResult bytes :=
  e ← write_each (new is_lg) writes; finish e.

(** ** Decoder *)

(** The unread input, the decompressed block and how much of it was handed out. *)
Record Decoder := mkDec { input : bytes; out_buf : bytes; out_pos : nat }.

Definition new_decoder (input : bytes) : Decoder := mkDec input [] 0.

(** [read_pod] of a [u32]: [None] is [UnexpectedEof]. *)
Definition read_u32 (s : bytes) : option (Z * bytes) :=
  if (4 <=? length s)%nat then Some (le_val (take 4 s), drop 4 s) else None.

(** The next block: [inl] is the end of the archive (the [Ok(0)] returns). *)
Definition read_block (s : bytes) : LoggedResult (bytes + bytes * bytes) :=
  match read_u32 s with
  | None => Ok (inl [])
  | Some (block_size, s) =>
      '(block_size, s) ← (if block_size =? LZ4_MAGIC then of_option tt (read_u32 s)
                          else Ok (block_size, s));
      if in_len <? block_size then Ok (inl s)
      else
        (* self.read.read(compressed_block), then read_exact of what is missing *)
        let ln := Z.min (read_some block_size) (Z.min block_size (len s)) in
        if ln =? 0 then Ok (inl s)
        else if block_size <=? len s then
          let z := take (Z.to_nat block_size) s in
          out ← of_option tt (lz4_decompress z);
          Ok (inr (out, drop (Z.to_nat block_size) s))
        else Err tt
  end.

(** [read] into a buffer of [n] bytes: the decoder afterwards and the bytes. *)
Definition read (d : Decoder) (n : nat) : LoggedResult (Decoder * bytes) :=
  let give d :=
    let k := Nat.min n (length (out_buf d) - out_pos d) in
    Ok (mkDec (input d) (out_buf d) (out_pos d + k), take k (drop (out_pos d) (out_buf d))) in
  if (out_pos d =? length (out_buf d))%nat then
    r ← read_block (input d);
    match r with
    | inl s => Ok (mkDec s (out_buf d) (out_pos d), [])
    | inr (out, s) => give (mkDec s out 0)
    end
  else give d.

(** [std::io::copy] with buffers of [n] bytes. *)
Fixpoint read_to_end (fuel : nat) (d : Decoder) (n : nat) : LoggedResult bytes :=
  match fuel with
  | O => NoFuel
  | S fuel =>
      '(d', out) ← read d n;
      if bool_decide (out = []) then Ok []
      else rest ← read_to_end fuel d' n; Ok (out ++ rest)
  end.

(** ** Correctness *)

(** Facts the [lz4] crate documents: a block always compresses into a buffer of
    [compress_bound] bytes, to a non-empty block that decompresses to it. *)
Context (block_size_pos : (0 < LZ4_BLOCK_SIZE)%nat).
Context (codec_ok : ∀ b, b ≠ [] → (length b ≤ LZ4_BLOCK_SIZE)%nat →
  ∃ z, lz4_compress b = Some z ∧ lz4_decompress z = Some b ∧ z ≠ [] ∧ len z ≤ in_len).
Context (in_len_small : in_len < LZ4_MAGIC).
(** [Read::read] returns at least one byte when some are asked for and available. *)
Context (read_some_ok : ∀ n, 0 ≤ n → Z.min 1 n ≤ read_some n ≤ n).

(** A block as it stands in an archive. *)
Definition frame (b : bytes) : bytes :=
  match lz4_compress b with
  | Some z => le_bytes 4 (as_u32 (len z)) ++ z
  | None => []
  end.

Definition frames (bs : list bytes) : bytes := concat (map frame bs).

(** The blocks an encoder produces. *)
Definition block_ok (b : bytes) : Prop := b ≠ [] ∧ (length b ≤ LZ4_BLOCK_SIZE)%nat.

Lemma encode_block_frame w b : block_ok b → encode_block w b = Ok (w ++ frame b).
Proof.
  intros [Hb Hl]. destruct (codec_ok b Hb Hl) as (z & Hz & _).
  unfold encode_block, frame. by rewrite Hz.
Qed.

Lemma frames_app bs cs : frames (bs ++ cs) = frames bs ++ frames cs.
Proof. unfold frames. by rewrite map_app, concat_app. Qed.

Lemma frames_one b : frames [b] = frame b.
Proof. unfold frames. simpl. apply app_nil_r. Qed.

Lemma write_loop_feed fuel w c buf c' cs :
  feed fuel c buf = Ok (c', cs) → Forall block_ok cs →
  write_loop fuel w c buf = Ok (w ++ frames cs, c').
Proof.
  revert w c buf c' cs. induction fuel as [|fuel IH]; intros w c buf c' cs; [done|].
  simpl. case_bool_decide.
  - intros [= <- <-] _. by rewrite app_nil_r.
  - destruct (add_data c buf) as [[[c1 b] ch]| | |]; try done. simpl.
    destruct (feed fuel c1 b) as [[c2 cs2]| | |] eqn:E; try done. simpl.
    intros [= <- <-] Hcs. apply Forall_app in Hcs as [Hch Hcs].
    destruct ch as [blk|]; simpl.
    + apply Forall_cons in Hch as [Hblk _]. rewrite (encode_block_frame w blk Hblk). simpl.
      rewrite (IH _ _ _ _ _ E Hcs). unfold frames. simpl. by rewrite app_assoc.
    + by rewrite (IH _ _ _ _ _ E Hcs).
Qed.

Lemma chunks_blocks_ok n s cs rest :
  n = LZ4_BLOCK_SIZE → chunks_of n s cs rest → Forall block_ok cs.
Proof.
  intros -> [H _]%chunks_of_sizes. eapply Forall_impl; [exact H|].
  simpl. intros b Hb. split; [|lia]. intros ->. simpl in Hb. lia.
Qed.

(** One call to [write_all]. *)
Lemma write_all_spec e buf :
  wf (chunker e) → chunk_size (chunker e) = LZ4_BLOCK_SIZE →
  ∃ e' cs, write_all e buf = Ok e' ∧ wf (chunker e') ∧ chunk_size (chunker e') = LZ4_BLOCK_SIZE ∧
    chunks_of LZ4_BLOCK_SIZE (pending (chunker e) ++ buf) cs (pending (chunker e')) ∧
    write e' = (if total e =? 0 then write e ++ le_bytes 4 LZ4_MAGIC else write e) ++ frames cs ∧
    total e' = as_u32 (total e + len buf) ∧ is_lg e' = is_lg e.
Proof.
  intros Hwf Hs. unfold write_all.
  destruct (feed_spec (S (length buf)) (chunker e) buf Hwf ltac:(lia))
    as (c' & cs & Hf & Hwf' & Hs' & Hc).
  rewrite (write_loop_feed _ _ _ _ _ _ Hf) by (by eapply chunks_blocks_ok).
  cbn [mbind res_bind]. eexists _, cs. split; [done|]. simpl. rewrite Hs in *.
  split_and!; try done. unfold as_u32. by rewrite Z.add_mod_idemp_r by lia.
Qed.

(** Further calls, once something was written: no more magic. *)
Lemma write_each_spec e writes :
  wf (chunker e) → chunk_size (chunker e) = LZ4_BLOCK_SIZE →
  0 < total e → total e + len (concat writes) < 2 ^ 32 →
  ∃ e' cs, write_each e writes = Ok e' ∧ wf (chunker e') ∧
    chunks_of LZ4_BLOCK_SIZE (pending (chunker e) ++ concat writes) cs (pending (chunker e')) ∧
    write e' = write e ++ frames cs ∧ total e' = total e + len (concat writes) ∧
    is_lg e' = is_lg e.
Proof.
  revert e. induction writes as [|w ws IH]; intros e Hwf Hs Ht Hlt; cbn [write_each concat].
  - exists e, []. rewrite app_nil_r. split_and!; try done.
    + constructor. unfold pending. rewrite length_take. destruct Hwf. lia.
    + unfold frames. simpl. by rewrite app_nil_r.
    + simpl. unfold len. simpl. lia.
  - cbn [concat] in Hlt. rewrite len_app in Hlt.
    destruct (write_all_spec e w Hwf Hs) as (e1 & cs & -> & Hwf1 & Hs1 & Hc1 & Hw1 & Ht1 & Hlg1).
    pose proof (len_nonneg w). pose proof (len_nonneg (concat ws)).
    unfold as_u32 in Ht1. rewrite Z.mod_small in Ht1 by lia.
    cbn [mbind res_bind].
    destruct (IH e1 Hwf1 Hs1) as (e2 & cs' & -> & Hwf2 & Hc2 & Hw2 & Ht2 & Hlg2); [lia|lia|].
    exists e2, (cs ++ cs'). rewrite len_app, app_assoc. split_and!; try done; try lia.
    + by eapply chunks_of_app.
    + rewrite Hw2, Hw1, frames_app, app_assoc.
      destruct (Z.eqb_spec (total e) 0); [lia|done].
    + congruence.
Qed.

(** What a non-empty archive looks like. *)
Lemma encode_from_spec p lg w ws :
  w ≠ [] → len (concat (w :: ws)) < 2 ^ 32 →
  ∃ bs, (e ← write_each (mkEnc p (Chunker.new LZ4_BLOCK_SIZE) 0 lg) (w :: ws); finish e) =
      Ok (p ++ le_bytes 4 LZ4_MAGIC ++ frames bs ++
          (if lg then le_bytes 4 (len (concat (w :: ws))) else [])) ∧
    Forall block_ok bs ∧ concat bs = concat (w :: ws).
Proof.
  intros Hw Hlt. cbn [write_each].
  pose proof (wf_new _ block_size_pos) as Hwf0. set (e0 := mkEnc p _ 0 lg).
  destruct (write_all_spec e0 w Hwf0 eq_refl)
    as (e1 & cs & -> & Hwf1 & Hs1 & Hc1 & Hw1 & Ht1 & Hlg1).
  cbn [concat] in *. rewrite len_app in *.
  assert (0 < len w) by (destruct w; [done|rewrite len_cons; pose proof (len_nonneg w); lia]).
  pose proof (len_nonneg (concat ws)).
  simpl in Ht1. unfold as_u32 in Ht1. rewrite Z.mod_small in Ht1 by lia.
  cbn [mbind res_bind].
  destruct (write_each_spec e1 ws Hwf1 Hs1) as (e2 & cs' & -> & Hwf2 & Hc2 & Hw2 & Ht2 & Hlg2);
    [lia|lia|].
  cbn [mbind res_bind]. pose proof (chunks_of_app _ _ _ _ _ _ _ Hc1 Hc2) as Hc.
  assert (pending (chunker e0) = []) as Hp0 by done. rewrite Hp0 in Hc. simpl app in Hc.
  pose proof (chunks_blocks_ok _ _ _ _ eq_refl Hc) as Hok.
  unfold finish, get_available. fold (pending (chunker e2)).
  rewrite Hlg2, Hlg1, Ht2, Ht1. simpl is_lg.
  assert (write e2 = p ++ le_bytes 4 LZ4_MAGIC ++ frames (cs ++ cs')) as Hw'
    by (rewrite Hw2, Hw1, frames_app, !app_assoc; reflexivity).
  pose proof (chunks_of_concat _ _ _ _ Hc) as Hcat.
  case_bool_decide as Hp.
  - exists (cs ++ cs'). rewrite Hp, app_nil_r in Hcat. split_and!; [|done|done].
    simpl. rewrite Hw'. destruct lg; simpl; by rewrite ?app_nil_r, <- ?app_assoc.
  - assert (block_ok (pending (chunker e2))) as Hb.
    { split; [done|]. apply chunks_of_sizes in Hc. lia. }
    rewrite (encode_block_frame _ _ Hb). exists ((cs ++ cs') ++ [pending (chunker e2)]).
    split_and!.
    + cbn [mbind res_bind]. rewrite Hw', (frames_app (cs ++ cs')), frames_one.
      destruct lg; cbn [negb]; by rewrite ?app_nil_r, <- ?app_assoc.
    + apply Forall_app; auto.
    + rewrite concat_app. simpl. by rewrite app_nil_r, Hcat.
Qed.

Lemma encode_spec lg w ws :
  w ≠ [] → len (concat (w :: ws)) < 2 ^ 32 →
  ∃ bs, encode lg (w :: ws) =
      Ok (le_bytes 4 LZ4_MAGIC ++ frames bs ++
          (if lg then le_bytes 4 (len (concat (w :: ws))) else [])) ∧
    Forall block_ok bs ∧ concat bs = concat (w :: ws).
Proof. apply (encode_from_spec []). Qed.

(** *** The decoder *)

Lemma length_le4 z : length (le_bytes 4 z) = 4%nat.
Proof. apply length_le_bytes. Qed.

Lemma read_u32_le z s : 0 ≤ z < 2 ^ 32 → read_u32 (le_bytes 4 z ++ s) = Some (z, s).
Proof.
  intros Hz. unfold read_u32. rewrite length_app, length_le4.
  destruct (Nat.leb_spec 4 (4 + length s)); [|lia].
  rewrite (take_app_length' (le_bytes 4 z)), (drop_app_length' (le_bytes 4 z)) by (by rewrite length_le4).
  by rewrite le_val_bytes_small by (change (256 ^ Z.of_nat 4) with (2 ^ 32); lia).
Qed.

(** A magic in front of a size field is skipped. *)
Lemma read_block_magic s : (∃ z t, read_u32 s = Some (z, t) ∧ z ≠ LZ4_MAGIC) →
  read_block (le_bytes 4 LZ4_MAGIC ++ s) = read_block s.
Proof.
  intros (z & t & Hz & Hm). unfold read_block.
  rewrite read_u32_le by done. rewrite Z.eqb_refl, Hz. simpl.
  destruct (Z.eqb_spec z LZ4_MAGIC); [done|]. done.
Qed.

Lemma frame_size b s : block_ok b →
  ∃ z, lz4_decompress z = Some b ∧ 1 ≤ len z ≤ in_len ∧
    read_u32 (frame b ++ s) = Some (len z, z ++ s).
Proof.
  intros [Hb Hl]. destruct (codec_ok b Hb Hl) as (z & Hz & Hd & Hn & Hi).
  assert (1 ≤ len z) by (destruct z; [done|rewrite len_cons; pose proof (len_nonneg z); lia]).
  pose proof in_len_small. unfold LZ4_MAGIC in *.
  exists z. split_and!; try done. unfold frame. rewrite Hz, <- app_assoc.
  unfold as_u32. rewrite Z.mod_small by lia. apply read_u32_le. lia.
Qed.

Lemma read_block_frame b s : block_ok b → read_block (frame b ++ s) = Ok (inr (b, s)).
Proof.
  intros Hb. destruct (frame_size b s Hb) as (z & Hd & Hz & Hr). unfold read_block. rewrite Hr.
  destruct (Z.eqb_spec (len z) LZ4_MAGIC); [lia|]. cbn [mbind res_bind].
  destruct (Z.ltb_spec in_len (len z)); [lia|]. rewrite len_app.
  pose proof (read_some_ok (len z) ltac:(lia)). pose proof (len_nonneg s).
  destruct (Z.eqb_spec (Z.min (read_some (len z)) (Z.min (len z) (len z + len s))) 0); [lia|].
  destruct (Z.leb_spec (len z) (len z + len s)); [|lia].
  assert (Z.to_nat (len z) = length z) as -> by (unfold len; lia).
  rewrite take_app_length, drop_app_length, Hd. done.
Qed.

(** Where the blocks of an archive stop: at an end of input ([Ok]), or at an error. *)
Definition stops (s : bytes) (o : LoggedResult unit) : Prop :=
  ∃ t, read_block s = (_ ← o; Ok (inl t)).
Abbreviation ends s := (stops s (Ok tt)).

Lemma ends_nil : ends [].
Proof. by exists []. Qed.

Lemma ends_double_magic s : ends (le_bytes 4 LZ4_MAGIC ++ le_bytes 4 LZ4_MAGIC ++ s).
Proof.
  exists s. unfold read_block. rewrite read_u32_le, Z.eqb_refl, read_u32_le by done.
  cbn [of_option mbind res_bind]. destruct (Z.ltb_spec in_len LZ4_MAGIC); [done|lia].
Qed.

Lemma stops_magic : stops (le_bytes 4 LZ4_MAGIC) (Err tt).
Proof. exists []. unfold read_block. by rewrite <- (app_nil_r (le_bytes 4 _)), read_u32_le. Qed.

Lemma ends_total z : 0 ≤ z < 2 ^ 32 → z ≠ LZ4_MAGIC → ends (le_bytes 4 z).
Proof.
  intros Hz Hm. unfold stops, read_block. cbn [mbind res_bind].
  pose proof (read_u32_le z [] Hz) as Hr. rewrite app_nil_r in Hr. rewrite Hr.
  destruct (Z.eqb_spec z LZ4_MAGIC); [done|]. cbn [mbind res_bind].
  destruct (in_len <? z); [eauto|].
  pose proof (read_some_ok z ltac:(lia)).
  replace (Z.min (read_some z) (Z.min z (len []))) with 0 by (unfold len; simpl; lia).
  rewrite Z.eqb_refl. eauto.
Qed.

(** One [read] in the middle of a block. *)
Lemma read_within d n :
  (out_pos d < length (out_buf d))%nat → (0 < n)%nat →
  ∃ d' out, read d n = Ok (d', out) ∧ out ≠ [] ∧ input d' = input d ∧
    (out_pos d' ≤ length (out_buf d'))%nat ∧
    drop (out_pos d) (out_buf d) = out ++ drop (out_pos d') (out_buf d').
Proof.
  intros Hp Hn. unfold read. destruct (Nat.eqb_spec (out_pos d) (length (out_buf d))); [lia|].
  do 2 eexists. split; [done|]. simpl.
  set (k := Nat.min n (length (out_buf d) - out_pos d)).
  split_and!; [|done|lia|].
  - intros E%(f_equal length). rewrite length_take, length_drop in E. simpl in E. lia.
  - by rewrite <- drop_drop, take_drop.
Qed.

(** Reading at a block boundary goes on in the next block, or stops. *)
Lemma read_boundary_block d n b s :
  out_pos d = length (out_buf d) → read_block (input d) = Ok (inr (b, s)) → b ≠ [] →
  read d n = read (mkDec s b 0) n.
Proof.
  intros Hp Hr Hb. unfold read at 1. rewrite Hp, Nat.eqb_refl, Hr. cbn [mbind res_bind].
  unfold read. simpl. destruct (length b) eqn:E; [by destruct b|]. done.
Qed.

Lemma read_boundary_end d n o :
  out_pos d = length (out_buf d) → stops (input d) o → ∃ d', read d n = (_ ← o; Ok (d', [])).
Proof.
  intros Hp [t Ht]. unfold read. rewrite Hp, Nat.eqb_refl, Ht. destruct o; simpl; eauto.
  all: by exists d.
Qed.

Lemma read_to_end_frames fuel d n bs tl o :
  input d = frames bs ++ tl → Forall block_ok bs → stops tl o →
  (out_pos d ≤ length (out_buf d))%nat → (0 < n)%nat →
  (length (drop (out_pos d) (out_buf d) ++ concat bs) < fuel)%nat →
  read_to_end fuel d n = (_ ← o; Ok (drop (out_pos d) (out_buf d) ++ concat bs)).
Proof.
  revert d bs. induction fuel as [|fuel IH]; intros d bs Hi Hbs He Hp Hn Hf; [lia|].
  cbn [read_to_end].
  assert (Hin : ∀ d0 bs0, input d0 = frames bs0 ++ tl → Forall block_ok bs0 →
      (out_pos d0 < length (out_buf d0))%nat →
      (length (drop (out_pos d0) (out_buf d0) ++ concat bs0) < S fuel)%nat →
      ('(d', out) ← read d0 n;
       if bool_decide (out = []) then Ok [] else rest ← read_to_end fuel d' n; Ok (out ++ rest))
      = (_ ← o; Ok (drop (out_pos d0) (out_buf d0) ++ concat bs0))).
  { intros d0 bs0 Hi0 Hbs0 Hp0 Hf0.
    destruct (read_within d0 n Hp0 Hn) as (d' & out & -> & Ho & Hi' & Hp' & Heq).
    cbn [mbind res_bind]. rewrite bool_decide_false by done.
    rewrite Heq, <- app_assoc in Hf0. rewrite length_app in Hf0.
    rewrite (IH d' bs0); [|congruence|done|done|done|done|].
    - rewrite Heq, <- app_assoc. by destruct o.
    - destruct out; [done|]. simpl in Hf0. lia. }
  destruct (decide (out_pos d = length (out_buf d))) as [Hp'|]; [|apply Hin; auto; lia].
  rewrite (drop_ge (out_buf d)) in * by lia. simpl app in *.
  destruct bs as [|b bs].
  - destruct (read_boundary_end d n o Hp') as (d' & ->); [by rewrite Hi|]. by destruct o.
  - apply Forall_cons in Hbs as [Hb Hbs].
    assert (read_block (input d) = Ok (inr (b, frames bs ++ tl))) as Hr.
    { rewrite Hi. unfold frames. simpl. rewrite <- app_assoc. by apply read_block_frame. }
    rewrite (read_boundary_block d n b _ Hp' Hr) by apply Hb.
    apply (Hin (mkDec (frames bs ++ tl) b 0) bs); auto. simpl.
    destruct Hb. destruct b; simpl; [done|lia].
Qed.

(** A non-empty archive decodes to the data of its blocks. *)
Lemma decode_archive n b bs tl o fuel :
  Forall block_ok (b :: bs) → stops tl o → (0 < n)%nat → (length (concat (b :: bs)) < fuel)%nat →
  read_to_end fuel (new_decoder (le_bytes 4 LZ4_MAGIC ++ frames (b :: bs) ++ tl)) n
  = (_ ← o; Ok (concat (b :: bs))).
Proof.
  intros Hbs He Hn Hf.
  transitivity (read_to_end fuel (new_decoder (frames (b :: bs) ++ tl)) n);
    [|by apply (read_to_end_frames fuel (new_decoder _) n (b :: bs) tl o)].
  destruct fuel as [|fuel]; [lia|]. cbn [read_to_end].
  assert (∀ s, (∃ z t, read_u32 s = Some (z, t) ∧ z ≠ LZ4_MAGIC) →
    read (new_decoder (le_bytes 4 LZ4_MAGIC ++ s)) n = read (new_decoder s) n) as ->.
  { intros s Hs. unfold read, new_decoder. cbn [input out_buf out_pos length].
    change (0 =? 0)%nat with true. cbv iota. by rewrite read_block_magic. }
  - done.
  - apply Forall_cons in Hbs as [Hb _]. pose proof in_len_small.
    destruct (frame_size b (frames bs ++ tl) Hb) as (z & _ & Hz & Hr).
    exists (len z), (z ++ frames bs ++ tl). unfold frames at 1. simpl. rewrite <- app_assoc.
    split; [exact Hr|lia].
Qed.

(** [finish] of an encoder nothing was written to. *)
Lemma encode_empty lg : encode lg [] = Ok (if lg then le_bytes 4 0 else []).
Proof. by destruct lg. Qed.

(** An archive of some data starts with the magic and decodes to the data. *)
Lemma lz4_archive lg w ws n fuel :
  Forall (λ w, w ≠ []) (w :: ws) → len (concat (w :: ws)) < 2 ^ 32 →
  (lg = true → len (concat (w :: ws)) ≠ LZ4_MAGIC) → (0 < n)%nat → (length (concat (w :: ws)) < fuel)%nat →
  ∃ a, encode lg (w :: ws) = Ok a ∧ (∃ t, a = le_bytes 4 LZ4_MAGIC ++ t) ∧
    read_to_end fuel (new_decoder a) n = Ok (concat (w :: ws)).
Proof.
  intros Hne Hlt Hlg Hn Hf. pose proof (len_nonneg (concat (w :: ws))).
  assert (∀ z, z = len (concat (w :: ws)) → ends (if lg then le_bytes 4 z else [])) as He.
  { intros z ->. destruct lg; [apply ends_total; auto|apply ends_nil]. }
  apply Forall_cons in Hne as [Hw _].
  destruct (encode_spec lg w ws Hw Hlt) as (bs & -> & Hok & Hcat). eexists. split; [done|].
  split; [by eexists|]. rewrite <- Hcat in *. destruct bs as [|b bs].
  { simpl in Hcat. destruct w; [done|discriminate Hcat]. }
  by apply (decode_archive _ _ _ _ (Ok tt)); auto.
Qed.

(** C18: an archive written by any sequence of non-empty writes, below 4 GiB in
    total, decodes to the data written, whatever the sizes of the reads; in the
    LG variant provided its total is not the archive magic. *)
Theorem lz4_roundtrip lg writes n fuel :
  Forall (λ w, w ≠ []) writes → len (concat writes) < 2 ^ 32 →
  (lg = true → len (concat writes) ≠ LZ4_MAGIC) →
  (0 < n)%nat → (length (concat writes) < fuel)%nat →
  ∃ a, encode lg writes = Ok a ∧ read_to_end fuel (new_decoder a) n = Ok (concat writes).
Proof.
  intros Hne Hlt Hlg Hn Hf. pose proof (len_nonneg (concat writes)).
  assert (∀ z, z = len (concat writes) → ends (if lg then le_bytes 4 z else [])) as He.
  { intros z ->. destruct lg; [apply ends_total; auto|apply ends_nil]. }
  destruct writes as [|w ws].
  - rewrite encode_empty. eexists. split; [done|]. simpl in Hf.
    destruct fuel as [|fuel]; [lia|]. cbn [read_to_end].
    edestruct (read_boundary_end (new_decoder (if lg then le_bytes 4 0 else [])) n (Ok tt)) as [d' ->];
      [done|by apply He|done].
  - destruct (lz4_archive lg w ws n fuel) as (a & Ha & _ & Hr); try done. by exists a.
Qed.

(** An empty first call to [write_all] makes the encoder emit the magic a
    second time with the first data, and the archive then decodes to nothing. *)
Theorem lz4_empty_write_loses_data lg w n fuel :
  w ≠ [] → len w < 2 ^ 32 → (0 < n)%nat → (0 < fuel)%nat →
  ∃ a, encode lg [[]; w] = Ok a ∧ read_to_end fuel (new_decoder a) n = Ok [].
Proof.
  intros Hw Hlt Hn Hf.
  destruct (encode_from_spec (le_bytes 4 LZ4_MAGIC) lg w [] Hw) as (bs & He & _ & _);
    [cbn [concat]; by rewrite app_nil_r|].
  eexists. split; [exact He|].
  destruct fuel as [|fuel]; [lia|]. cbn [read_to_end].
  match goal with |- context [new_decoder ?a] => set (d := new_decoder a) end.
  destruct (read_boundary_end d n (Ok tt)) as [d' ->];
    [done|apply ends_double_magic|done].
Qed.

(** An LG archive whose total size is the magic number cannot be decoded:
    the trailer is taken for a second archive, which is missing. *)
Theorem lz4_lg_magic_total_fails writes n fuel :
  Forall (λ w, w ≠ []) writes → len (concat writes) = LZ4_MAGIC →
  (0 < n)%nat → (length (concat writes) < fuel)%nat →
  ∃ a, encode true writes = Ok a ∧ read_to_end fuel (new_decoder a) n = Err tt.
Proof.
  intros Hne Heq Hn Hf. destruct writes as [|w ws]; [discriminate Heq|].
  apply Forall_cons in Hne as [Hw _].
  destruct (encode_spec true w ws Hw) as (bs & -> & Hok & Hcat); [by rewrite Heq|].
  eexists. split; [done|]. rewrite <- Hcat in Hf. destruct bs as [|b bs].
  { simpl in Hcat. destruct w; [done|discriminate Hcat]. }
  apply (decode_archive _ _ _ _ (Err tt)); auto. rewrite Heq. apply stops_magic.
Qed.
End Lz4.

(** *** Instances with the stored (identity) codec and blocks of 3 bytes *)

Lemma stored_ok (n : nat) (b : bytes) : b ≠ [] → (length b ≤ n)%nat →
  ∃ z, Some b = Some z ∧ Some z = Some b ∧ z ≠ [] ∧ len z ≤ Z.of_nat n.
Proof. intros Hb Hn. exists b. unfold len. split_and!; auto; lia. Qed.

Lemma read_all_ok n : 0 ≤ n → Z.min 1 n ≤ n ≤ n.
Proof. lia. Qed.

Lemma lz4_roundtrip_witness : ∃ a,
  encode 3 Some true [bs "ab"; bs "cdefghi"; bs "j"] = Ok a ∧
  read_to_end Some 3 (λ n, n) 11 (new_decoder a) 2 = Ok (bs "abcdefghij").
Proof.
  apply (lz4_roundtrip 3 Some Some 3 (λ n, n) ltac:(lia) (stored_ok 3)
           ltac:(reflexivity) read_all_ok true [bs "ab"; bs "cdefghi"; bs "j"] 2 11).
  - by_compute.
  - reflexivity.
  - intros _. vm_compute. discriminate.
  - lia.
  - vm_compute. lia.
Defined.

Lemma lz4_empty_write_loses_data_witness : ∃ a,
  encode 3 Some false [[]; bs "ab"] = Ok a ∧
  read_to_end Some 3 (λ n, n) 9 (new_decoder a) 2 = Ok [].
Proof.
  apply (lz4_empty_write_loses_data 3 Some Some 3 (λ n, n) ltac:(lia) (stored_ok 3)
           ltac:(reflexivity) false (bs "ab") 2 9).
  - discriminate.
  - reflexivity.
  - lia.
  - lia.
Defined.

(** A write of as many bytes as the magic number. *)
Definition magic_write : bytes := replicate (Z.to_nat LZ4_MAGIC) Byte.x00.

Lemma len_magic_write : len magic_write = LZ4_MAGIC.
Proof. unfold len, magic_write. rewrite length_replicate. apply Z2Nat.id. discriminate. Qed.

Lemma magic_write_nonempty : magic_write ≠ [].
Proof. intros H. pose proof len_magic_write as E. rewrite H in E. discriminate E. Qed.

Lemma lz4_lg_magic_total_fails_witness : ∃ a,
  encode 3 Some true [magic_write] = Ok a ∧
  read_to_end Some 3 (λ n, n) (S (length (concat [magic_write]))) (new_decoder a) 2 = Err tt.
Proof.
  apply (lz4_lg_magic_total_fails 3 Some Some 3 (λ n, n) ltac:(lia) (stored_ok 3)
           ltac:(reflexivity) read_all_ok [magic_write] 2 (S (length (concat [magic_write])))).
  - apply Forall_cons. split; [exact magic_write_nonempty|apply Forall_nil_2].
  - cbn [concat]. rewrite app_nil_r. exact len_magic_write.
  - lia.
  - apply Nat.lt_succ_diag_r.
Defined.
