(* ===== verification/Cstr.v ===== *)
(** Cstr: the null-terminated strings of [native/src/base/cstr.rs] and the path
    building of [native/src/base/files.rs].

    A [Utf8CStr] is represented by its content, the bytes before the terminating
    null.  [Buf] is [Utf8CStrBufArr] and [Utf8CStrBufRef] (one macro implements
    both): a buffer and the number of bytes used.  [Bounded] is what these
    promise: a string that never outgrows its capacity, truncated as it grows.
    [Path] is the part of [std::path::Path] the program uses on its strings. *)

From S2P Require Import Prelude.

Definition NUL : byte := Byte.x00.

(** ** Validation *)

Inductive StrErr := Utf8Error | CStrWithNullError | CStrUntilNullError | NullPointerError.

(** The bytes before the first null ([CStr::from_bytes_until_nul]). *)
Fixpoint until_nul (s : bytes) : option bytes :=
  match s with
  | [] => None
  | b :: s => if bool_decide (b = NUL) then Some [] else (cons b) <$> until_nul s
  end.

(** [Utf8CStr::from_cstr]: the content without its null must be UTF-8. *)
Definition from_cstr (s : bytes) : res StrErr bytes :=
  if utf8_valid s then Ok s else Err Utf8Error.

Definition from_bytes_until_nul (s : bytes) : res StrErr bytes :=
  match until_nul s with
  | Some s => from_cstr s
  | None => Err CStrUntilNullError
  end.

(** [CStr::from_bytes_with_nul]: the only null is the last byte. *)
Definition from_bytes (s : bytes) : res StrErr bytes :=
  match until_nul s with
  | Some t => if (length s =? S (length t))%nat then from_cstr t else Err CStrWithNullError
  | None => Err CStrWithNullError
  end.

(** [Utf8CStr::from_ptr]: [None] is a null pointer, [Some s] the memory it points to. *)
Definition from_ptr (p : option bytes) : res StrErr bytes :=
  match p with
  | None => Err NullPointerError
  | Some s => from_bytes_until_nul s
  end.

Definition as_bytes_with_nul (s : bytes) : bytes := s ++ [NUL].

Lemma until_nul_app s r : NUL ∉ s → until_nul (s ++ NUL :: r) = Some s.
Proof.
  induction s as [|b s IH]; simpl; intros Hs; [done|].
  rewrite bool_decide_false by set_solver. by rewrite IH by set_solver.
Qed.

Lemma until_nul_Some s t : until_nul s = Some t → NUL ∉ t ∧ ∃ r, s = t ++ NUL :: r.
Proof.
  revert t. induction s as [|b s IH]; simpl; intros t; [done|]. case_bool_decide as Hb.
  - intros [= <-]. subst. split; [apply not_elem_of_nil|eauto].
  - destruct (until_nul s) as [u|]; [|done]. intros [= <-].
    destruct (IH u eq_refl) as (Hu & r & ->). split; [|eauto]. set_solver.
Qed.

(** [from_bytes] accepts exactly the null-terminated images of UTF-8 strings
    without nulls, and gives the string back. *)
Lemma from_bytes_Ok s t :
  from_bytes s = Ok t ↔ s = as_bytes_with_nul t ∧ NUL ∉ t ∧ utf8_valid t = true.
Proof.
  unfold from_bytes, from_cstr, as_bytes_with_nul. split.
  - destruct (until_nul s) as [u|] eqn:E; [|done].
    apply until_nul_Some in E as (Hu & r & ->). rewrite length_app. simpl.
    destruct (Nat.eqb_spec (length u + S (length r)) (S (length u))); [|done].
    destruct r; [|simpl in *; lia]. destruct (utf8_valid u) eqn:Hv; [|done].
    by intros [= <-].
  - intros (-> & Ht & Hv). rewrite until_nul_app, length_app by done. simpl.
    by rewrite Nat.add_1_r, Nat.eqb_refl, Hv.
Qed.

(** A valid string in front does not change the validity of the rest. *)
Lemma utf8_valid_app s t : utf8_valid s = true → utf8_valid (s ++ t) = utf8_valid t.
Proof.
  remember (length s) as n eqn:Hn. assert (length s ≤ n)%nat as H by lia. clear Hn.
  revert s H. induction n as [|n IH]; intros [|b0 s] H; simpl in *; try done; [lia|].
  destruct (u8 b0 <? 128); [apply IH; lia|].
  destruct (in_range 194 223 b0); [|destruct (in_range 224 239 b0);
    [|destruct (in_range 240 244 b0); [|done]]].
  - destruct s as [|b1 s]; simpl in *; [done|].
    intros [-> ?]%andb_true_iff. apply IH; [lia|done].
  - destruct s as [|b1 [|b2 s]]; simpl in *; try done.
    intros [Hc ?]%andb_true_iff. rewrite Hc. apply IH; [lia|done].
  - destruct s as [|b1 [|b2 [|b3 s]]]; simpl in *; try done.
    intros [Hc ?]%andb_true_iff. rewrite Hc. apply IH; [lia|done].
Qed.

(** A string that stops after the first byte of a two-byte character. *)
Lemma utf8_valid_dangling s t lead :
  utf8_valid s = true → is_ascii t = true → 0xC2 ≤ u8 lead ≤ 0xDF →
  utf8_valid (s ++ t ++ [lead]) = false.
Proof.
  intros Hs Ht Hl. rewrite !utf8_valid_app by auto using utf8_valid_ascii.
  simpl. destruct (Z.ltb_spec (u8 lead) 128); [lia|].
  unfold in_range. by assert ((194 <=? u8 lead) && (u8 lead <=? 223) = true) as -> by lia.
Qed.

(** ** Fixed-size buffers *)

Module Buf.

Record Buf := mk { used : nat; buf : bytes }.

(** [Utf8CStrBufArr::new]; [From<&mut [u8]>] panics on an empty slice. *)
Definition new (n : nat) : Buf := mk 0 (replicate n NUL).

Definition wrap (b : bytes) : LoggedResult Buf :=
  match b with [] => Panic | _ :: b => Ok (mk 0 (NUL :: b)) end.

Definition as_str (b : Buf) : bytes := take (used b) (buf b).

Definition capacity (b : Buf) : nat := length (buf b).

Definition is_empty (b : Buf) : bool := (used b =? 0)%nat.

(** [dest] with its first bytes overwritten, and how many were. *)
Definition copy_cstr_truncate (dest src : bytes) : bytes * nat :=
  if (length dest <=? 1)%nat then (dest, 0%nat)
  else
    let len := Nat.min (length src) (length dest - 1) in
    (take len src ++ NUL :: drop (S len) dest, len).

Definition push_str (b : Buf) (s : bytes) : Buf * nat :=
  let '(dest, len) := copy_cstr_truncate (drop (used b) (buf b)) s in
  (mk (used b + len) (take (used b) (buf b) ++ dest), len).

Definition clear (b : Buf) : Buf := mk 0 (<[0%nat := NUL]> (buf b)).

Definition truncate (b : Buf) (new_len : nat) : Buf :=
  if (used b <=? new_len)%nat then b else mk new_len (<[new_len := NUL]> (buf b)).

Definition rebuild (b : Buf) : Buf * res StrErr unit :=
  match from_bytes_until_nul (buf b) with
  | Ok s => (mk (length s) (buf b), Ok tt)
  | Err e => (clear b, Err e)
  | Panic => (b, Panic)
  | NoFuel => (b, NoFuel)
  end.

(** [append_path_impl]. *)
Definition append_path (b : Buf) (path : bytes) : Buf :=
  let b := if starts_with (bs "/") path then clear b else b in
  let b := if negb (is_empty b) && negb (ends_with (bs "/") (as_str b))
           then (push_str b (bs "/")).1 else b in
  (push_str b path).1.

(** [append_path_fmt]: the formatted name behind a slash. *)
Definition append_path_fmt (b : Buf) (name : bytes) : Buf :=
  (push_str (push_str b (bs "/")).1 name).1.

(** [assert_true(len <= capacity - 1)], and null termination. *)
Definition wf (b : Buf) : Prop := buf b !! used b = Some NUL.

Lemma wf_used b : wf b → (used b < capacity b)%nat.
Proof. unfold wf. apply lookup_lt_Some. Qed.

Lemma length_as_str b : wf b → length (as_str b) = used b.
Proof. intros H%wf_used. unfold as_str, capacity in *. rewrite length_take. lia. Qed.

Lemma wf_new_buf n : (0 < n)%nat → wf (new n).
Proof. intros H. unfold wf, new. simpl. by apply lookup_replicate_2. Qed.

(** The C view of a buffer: a reader that stops at the first null sees the string. *)
Lemma until_nul_buf b : wf b → NUL ∉ as_str b → until_nul (buf b) = Some (as_str b).
Proof.
  intros Hb Hn. rewrite <- (take_drop_middle (buf b) (used b) NUL Hb) at 1.
  by apply until_nul_app.
Qed.

(** *** The promise: a bounded string *)

Definition bounded_push (cap : nat) (s t : bytes) : bytes := s ++ take (cap - 1 - length s) t.

Lemma push_str_ok b s : wf b →
  wf (push_str b s).1 ∧ capacity (push_str b s).1 = capacity b ∧
  as_str (push_str b s).1 = bounded_push (capacity b) (as_str b) s ∧
  (push_str b s).2 = Nat.min (length s) (capacity b - 1 - used b).
Proof.
  intros Hb. pose proof (wf_used b Hb) as Hu. pose proof (length_as_str b Hb) as Hl.
  unfold bounded_push. rewrite Hl. unfold push_str, copy_cstr_truncate, wf, capacity in *.
  rewrite length_drop.
  destruct (Nat.leb_spec (length (buf b) - used b) 1); unfold as_str in *; cbn [fst snd used buf].
  - rewrite Nat.add_0_r, take_drop.
    replace (length (buf b) - 1 - used b)%nat with 0%nat by lia.
    rewrite take_0, app_nil_r, Nat.min_0_r. done.
  - set (k := Nat.min (length s) (length (buf b) - used b - 1)).
    assert (k = Nat.min (length s) (length (buf b) - 1 - used b)) as Hk by lia.
    assert (length (take k s) = k) as Hlk by (rewrite length_take; lia).
    split_and!.
    + rewrite lookup_app_r by lia.
      replace (used b + k - length (take (used b) (buf b)))%nat with (length (take k s)) by lia.
      by apply list_lookup_middle.
    + rewrite !length_app, Hlk. simpl. rewrite !length_drop, Hl. lia.
    + rewrite app_assoc, take_app_length' by (rewrite length_app; lia). f_equal.
      destruct (decide (length s ≤ length (buf b) - used b - 1)%nat).
      * rewrite !take_ge by lia. done.
      * f_equal. lia.
    + done.
Qed.

Lemma clear_ok b : wf b → wf (clear b) ∧ capacity (clear b) = capacity b ∧ as_str (clear b) = [].
Proof.
  intros Hu%wf_used. unfold wf, clear, capacity in *. cbn [used buf].
  rewrite list_lookup_insert_eq, length_insert by lia. done.
Qed.

Lemma truncate_ok b n : wf b →
  wf (truncate b n) ∧ capacity (truncate b n) = capacity b ∧ as_str (truncate b n) = take n (as_str b).
Proof.
  intros Hb. pose proof (wf_used b Hb) as Hu. unfold truncate.
  destruct (Nat.leb_spec (used b) n).
  - rewrite take_ge by (rewrite length_as_str; done). done.
  - unfold wf, capacity, as_str in *. cbn [used buf].
    rewrite list_lookup_insert_eq, length_insert, take_insert_ge, take_take by lia.
    by rewrite Nat.min_l by lia.
Qed.

Lemma is_empty_ok b : wf b → is_empty b = bool_decide (as_str b = []).
Proof.
  intros Hb%length_as_str. unfold is_empty. rewrite <- Hb.
  case_bool_decide as E; [by rewrite E|]. by destruct (as_str b).
Qed.

(** A use of the buffer, and of the string it stands for. *)
Inductive Op :=
  | Push (s : bytes)
  | Clear
  | Truncate (n : nat)
  | Append (path : bytes)
  | AppendFmt (name : bytes).

Definition step (b : Buf) (o : Op) : Buf :=
  match o with
  | Push s => (push_str b s).1
  | Clear => clear b
  | Truncate n => truncate b n
  | Append p => append_path b p
  | AppendFmt n => append_path_fmt b n
  end.

(** [path] appended to the path [s]: an absolute one replaces it, a separator
    is put where there is none. *)
Definition path_sep (s : bytes) : bytes :=
  if nonempty s && negb (ends_with (bs "/") s) then bs "/" else [].

Definition spec_step (cap : nat) (s : bytes) (o : Op) : bytes :=
  match o with
  | Push t => bounded_push cap s t
  | Clear => []
  | Truncate n => take n s
  | Append p => bounded_push cap [] ((if starts_with (bs "/") p then [] else s ++ path_sep s) ++ p)
  | AppendFmt n => bounded_push cap s (bs "/" ++ n)
  end.

Lemma bounded_push_push cap s t u :
  (length s < cap)%nat → bounded_push cap (bounded_push cap s t) u = bounded_push cap s (t ++ u).
Proof.
  intros Hs. unfold bounded_push. rewrite <- app_assoc, length_app, length_take. f_equal.
  destruct (decide (length t ≤ cap - 1 - length s)%nat).
  - rewrite (take_ge t), take_app_ge by lia. f_equal. f_equal. lia.
  - rewrite take_app_le by lia. replace (cap - 1 - (length s + _))%nat with 0%nat by lia.
    by rewrite take_0, app_nil_r.
Qed.

Lemma bounded_push_nil cap s : (length s < cap)%nat → bounded_push cap [] s = s.
Proof. intros. unfold bounded_push. simpl. apply take_ge. lia. Qed.

Lemma append_path_ok b p : wf b →
  wf (append_path b p) ∧ capacity (append_path b p) = capacity b ∧
  as_str (append_path b p) = spec_step (capacity b) (as_str b) (Append p).
Proof.
  intros Hb. unfold append_path. cbn [spec_step].
  set (b1 := if starts_with (bs "/") p then clear b else b).
  assert (wf b1 ∧ capacity b1 = capacity b ∧
    as_str b1 = if starts_with (bs "/") p then [] else as_str b) as (Hb1 & Hc1 & Hs1).
  { unfold b1. destruct starts_with; [by apply clear_ok|done]. }
  set (b2 := if negb (is_empty b1) && _ then _ else b1).
  assert (wf b2 ∧ capacity b2 = capacity b ∧
    as_str b2 = bounded_push (capacity b) (as_str b1) (path_sep (as_str b1))) as (Hb2 & Hc2 & Hs2).
  { unfold b2, path_sep, nonempty. rewrite (is_empty_ok b1 Hb1).
    clear b2. destruct (_ && _).
    - destruct (push_str_ok b1 (bs "/") Hb1) as (? & ? & ? & _). split_and!; [done|congruence|].
      by rewrite <- Hc1.
    - unfold bounded_push. rewrite take_nil, app_nil_r. done. }
  destruct (push_str_ok b2 p Hb2) as (H1 & H2 & H3 & _). split_and!; [done|congruence|].
  pose proof (wf_used b1 Hb1) as Hu. pose proof (length_as_str b1 Hb1) as Hlen.
  rewrite H3, Hc2, Hs2, bounded_push_push by lia.
  rewrite <- (bounded_push_nil (capacity b) (as_str b1)) at 1 by lia.
  rewrite bounded_push_push by (simpl; lia). rewrite Hs1, app_assoc.
  by destruct starts_with.
Qed.

Lemma step_ok b o : wf b →
  wf (step b o) ∧ capacity (step b o) = capacity b ∧
  as_str (step b o) = spec_step (capacity b) (as_str b) o.
Proof.
  intros Hb. destruct o as [s| |n|p|n]; simpl.
  - destruct (push_str_ok b s Hb) as (? & ? & ? & _). done.
  - by apply clear_ok.
  - by apply truncate_ok.
  - by apply append_path_ok.
  - unfold append_path_fmt.
    destruct (push_str_ok b (bs "/") Hb) as (H1 & H2 & H3 & _).
    destruct (push_str_ok _ n H1) as (H4 & H5 & H6 & _).
    pose proof (wf_used b Hb). pose proof (length_as_str b Hb).
    split_and!; [done|congruence|]. by rewrite H6, H2, H3, bounded_push_push by lia.
Qed.

(** A fixed-size string buffer behaves as a bounded string under any
    sequence of pushes, clears, truncations and path appends: it stays
    null-terminated within its capacity and holds what the bounded string holds. *)
Theorem buf_refines_bounded n ops : (0 < n)%nat →
  let b := foldl step (new n) ops in
  wf b ∧ capacity b = n ∧ (length (as_str b) < n)%nat ∧ as_str b = foldl (spec_step n) [] ops.
Proof.
  intros Hn.
  assert (∀ b, wf b → let b' := foldl step b ops in
    wf b' ∧ capacity b' = capacity b ∧ as_str b' = foldl (spec_step (capacity b)) (as_str b) ops) as H.
  { induction ops as [|o ops IH]; intros b Hb; simpl; [done|].
    destruct (step_ok b o Hb) as (H1 & H2 & H3).
    destruct (IH (step b o) H1) as (? & ? & ?). rewrite H2, H3 in *. done. }
  destruct (H (new n) (wf_new_buf n Hn)) as (H1 & H2 & H3).
  assert (capacity (new n) = n) as Hc by apply length_replicate. rewrite Hc in *.
  simpl. split_and!; [done|done| |done]. rewrite length_as_str by done.
  pose proof (wf_used _ H1). lia.
Qed.

Lemma buf_refines_bounded_witness :
  as_str (foldl step (new 8) [Push (bs "ab"); Append (bs "cd"); AppendFmt (bs "e0f")]) = bs "ab/cd/e".
Proof.
  destruct (buf_refines_bounded 8 [Push (bs "ab"); Append (bs "cd"); AppendFmt (bs "e0f")]
              ltac:(lia)) as (_ & _ & _ & ->).
  vm_compute. reflexivity.
Defined.

(** Truncation is by bytes: a push that stops inside a multi-byte character
    leaves a string that is not UTF-8, which the buffer still hands out as one. *)
Theorem push_str_splits_char b s lead tail :
  wf b → utf8_valid (as_str b) = true → 0xC2 ≤ u8 lead ≤ 0xDF →
  (length s + used b + 2 = capacity b)%nat → is_ascii s = true →
  as_str (push_str b (s ++ lead :: tail)).1 = as_str b ++ s ++ [lead] ∧
  utf8_valid (as_str (push_str b (s ++ lead :: tail)).1) = false.
Proof.
  intros Hb Hv Hl Hc Ha. destruct (push_str_ok b (s ++ lead :: tail) Hb) as (_ & _ & -> & _).
  unfold bounded_push. rewrite (length_as_str b Hb).
  replace (capacity b - 1 - used b)%nat with (length (s ++ [lead])) by (rewrite length_app; simpl; lia).
  change (lead :: tail) with ([lead] ++ tail). rewrite app_assoc, take_app_length.
  split; [done|]. by apply utf8_valid_dangling.
Qed.

Lemma push_str_splits_char_witness :
  as_str (push_str (new 4) [Byte.x61; Byte.x62; Byte.xc3; Byte.xa9]).1 = [Byte.x61; Byte.x62; Byte.xc3] ∧
  utf8_valid (as_str (push_str (new 4) [Byte.x61; Byte.x62; Byte.xc3; Byte.xa9]).1) = false.
Proof.
  apply (push_str_splits_char (new 4) [Byte.x61; Byte.x62] Byte.xc3 [Byte.xa9]).
  - reflexivity.
  - reflexivity.
  - split; discriminate.
  - reflexivity.
  - reflexivity.
Defined.

End Buf.

(** ** [std::path::Path] on strings *)

Module Path.

(** A piece between separators that [Path::components] skips; a leading [.] of a
    relative path is the one that counts. *)
Definition skipped (p : bytes) : bool := bool_decide (p = []) || bool_decide (p = bs ".").

(** The pieces without the skipped ones at their end. *)
Fixpoint trim_right (first_counts : bool) (ps : list bytes) : list bytes :=
  match ps with
  | [] => []
  | p :: ps' =>
      match trim_right false ps' with
      | [] => if skipped p && negb (first_counts && bool_decide (p = bs ".")) then [] else [p]
      | qs => p :: qs
      end
  end.

(** The path split into its root and its pieces, the last one a component. *)
Definition parts (s : bytes) : bool * list bytes :=
  match strip_prefix (bs "/") s with
  | Some body => (true, trim_right false (split_on Byte.x2f body))
  | None => (false, trim_right true (split_on Byte.x2f s))
  end.

(** [Path::parent]. *)
Definition parent_dir (s : bytes) : option bytes :=
  let '(root, ps) := parts s in
  match ps with
  | [] => None
  | _ => Some ((if root then bs "/" else []) ++
               join (bs "/") (trim_right (negb root) (removelast ps)))
  end.

(** [Path::file_name]. *)
Definition file_name (s : bytes) : option bytes :=
  match last (parts s).2 with
  | Some p => if bool_decide (p = bs ".") || bool_decide (p = bs "..") then None else Some p
  | None => None
  end.

Example parent_dir_examples :
  map parent_dir (map bs ["a/b"; "/a"; "a"; "/"; ""; "."; "a//b/./"; "./a"; "/./a"; "a/.."]%string) =
  [Some (bs "a"); Some (bs "/"); Some []; None; None; Some []; Some (bs "a"); Some (bs "."); Some (bs "/");
   Some (bs "a")].
Proof. reflexivity. Qed.

Lemma trim_right_plain b ps : Forall (λ p, skipped p = false) ps → trim_right b ps = ps.
Proof.
  revert b. induction ps as [|p ps IH]; intros b Hps; simpl; [done|].
  apply Forall_cons in Hps as [Hp Hps]. rewrite (IH false Hps), Hp. by destruct ps.
Qed.

End Path.
