(* ===== verification/CString.v ===== *)
(** CString: the growable string of [native/src/base/cstr.rs], the trait it shares with the
    fixed-size buffers, and path building against that trait
    ([native/src/base/files.rs]).

    [Str] is Rust's [String] with the memory behind it: the null byte of a [Utf8CString]
    lies outside the string's length, where memory that moves is not kept.  [junk] is what
    that memory holds then, [isize_max] the largest capacity.  Running out of memory below
    that aborts the process and is not modelled. *)

From S2P Require Import Prelude Cstr.

(** ** The trait *)

Class Utf8CStrBuf (B : Type) := {
  as_str : B → bytes;
  len : B → nat;
  capacity : B → nat;
  push_str : B → bytes → res unit (B * nat);
  clear : B → res unit B;
  truncate : B → nat → res unit B;
  rebuild : B → B * res StrErr unit;
  with_nul : B → bytes
}.

(** How long a string may get: below a limit, or as long as it likes. *)
Definition bounded (limit : option nat) (s t : bytes) : bytes :=
  match limit with Some cap => Buf.bounded_push cap s t | None => s ++ t end.

(** [str::is_char_boundary]. *)
Definition is_char_boundary (s : bytes) (n : nat) : bool :=
  (n =? 0)%nat || match s !! n with Some b => negb (is_cont b) | None => (n =? length s)%nat end.

(** What an implementation promises: every operation takes a string that can be used ([ok]) to
    one that is also followed by a null byte ([wf]).  Only a string without a limit panics
    when it gets too large. *)
Class Utf8CStrBufOk (B : Type) `{Utf8CStrBuf B} := {
  ok : B → Prop;
  wf : B → Prop;
  limit : B → option nat;
  wf_ok b : wf b → ok b;
  within_limit b : ok b → match limit b with Some cap => (length (as_str b) < cap)%nat | None => True end;
  len_ok b : ok b → len b = length (as_str b);
  terminated b : wf b → with_nul b = as_str b ++ [NUL];
  push_ok b s : ok b →
    match push_str b s with
    | Ok (b', n) => wf b' ∧ limit b' = limit b ∧ as_str b' = bounded (limit b) (as_str b) s ∧
        length (as_str b') = (length (as_str b) + n)%nat
    | Panic => limit b = None
    | _ => False
    end;
  clear_ok b : ok b → ∃ b', clear b = Ok b' ∧ wf b' ∧ limit b' = limit b ∧ as_str b' = [];
  truncate_ok b n b' : ok b → truncate b n = Ok b' →
    wf b' ∧ limit b' = limit b ∧ as_str b' = take n (as_str b);
  rebuild_ok b : ok b → let '(b', r) := rebuild b in
    wf b' ∧ limit b' = limit b ∧
    match r with Ok _ => utf8_valid (as_str b') = true ∧ NUL ∉ as_str b' | Err _ => as_str b' = [] | _ => False end
}.

(** ** Path building, for every implementation *)

Section Paths.
Context {B : Type} `{Utf8CStrBufOk B}.

Definition is_empty (b : B) : bool := (len b =? 0)%nat.

(** The count is not looked at. *)
Definition push_ (b : B) (s : bytes) : res unit B := '(b, _) ← push_str b s; Ok b.

(** [append_path_impl]. *)
Definition append_path (b : B) (path : bytes) : res unit B :=
  b ← (if starts_with (bs "/") path then clear b else Ok b);
  b ← (if negb (is_empty b) && negb (ends_with (bs "/") (as_str b)) then push_ b (bs "/") else Ok b);
  push_ b path.

(** [write_fmt] pushes the pieces one by one. *)
Definition append_path_fmt (b : B) (name : bytes) : res unit B := b ← push_ b (bs "/"); push_ b name.

(** [join_path], [join_path_fmt]. *)
Definition join_path (b : B) (path : bytes) : res unit B := append_path b path.
Definition join_path_fmt (b : B) (name : bytes) : res unit B := append_path_fmt b name.

Lemma bounded_twice b s t : ok b → bounded (limit b) (bounded (limit b) (as_str b) s) t = bounded (limit b) (as_str b) (s ++ t).
Proof.
  intros Hb. pose proof (within_limit b Hb) as Hl. unfold bounded. destruct (limit b); [by apply Buf.bounded_push_push|].
  by rewrite app_assoc.
Qed.

Lemma bounded_from_nil b : ok b → bounded (limit b) [] (as_str b) = as_str b.
Proof.
  intros Hb. pose proof (within_limit b Hb) as Hl. unfold bounded. destruct (limit b); [by apply Buf.bounded_push_nil|done].
Qed.

(** The outcome of a step that may outgrow a string without a limit. *)
Definition grows (b : B) (m : res unit B) (P : B → Prop) : Prop :=
  match m with Ok b' => limit b' = limit b ∧ P b' | Panic => limit b = None | _ => False end.

Lemma growth_bind b m k P Q : grows b m P → (∀ b', limit b' = limit b → P b' → grows b' (k b') Q) →
  grows b (mbind k m) Q.
Proof.
  intros Hm Hk. destruct m as [b1| | |]; cbn in *; try done. destruct Hm as [Hl HP].
  specialize (Hk b1 Hl HP). unfold grows in *. by rewrite Hl in Hk.
Qed.

Lemma pushed_ok b s : ok b → grows b (push_ b s) (λ b', wf b' ∧ as_str b' = bounded (limit b) (as_str b) s).
Proof.
  intros Hb. pose proof (push_ok b s Hb) as Hp. unfold push_. destruct (push_str b s) as [[b' n]| | |]; [|done..].
  by destruct Hp as (H1 & H2 & H3 & _).
Qed.

(** On every kind of buffer, appending a path replaces the string by an absolute one and
    else puts the pieces together with one separator between them, as far as the buffer
    allows; the result is a string that ends in the null byte.  Only a string without a
    limit can panic. *)
Theorem append_path_joins b p : ok b →
  let s := as_str b in
  match append_path b p with
  | Ok b' => wf b' ∧ limit b' = limit b ∧
      as_str b' = bounded (limit b) [] ((if starts_with (bs "/") p then [] else s ++ Buf.path_sep s) ++ p) ∧
      with_nul b' = as_str b' ++ [NUL]
  | Panic => limit b = None
  | _ => False
  end.
Proof.
  intros Hb s.
  assert (Hg : grows b (append_path b p) (λ b', wf b' ∧
    as_str b' = bounded (limit b) [] ((if starts_with (bs "/") p then [] else s ++ Buf.path_sep s) ++ p))).
  { unfold append_path.
    apply (growth_bind _ _ _ (λ b1, ok b1 ∧ as_str b1 = if starts_with (bs "/") p then [] else s)).
    { destruct (starts_with _ p); [|by split].
      destruct (clear_ok b Hb) as (b' & -> & H1 & H2 & H3). by split; [|split; [apply wf_ok|]]. }
    intros b1 Hl1 [Hb1 Hs1].
    apply (growth_bind _ _ _ (λ b2, ok b2 ∧ as_str b2 = bounded (limit b) (as_str b1) (Buf.path_sep (as_str b1)))).
    { unfold Buf.path_sep, is_empty, nonempty. rewrite len_ok by done.
      assert (bool_decide (as_str b1 = []) = (length (as_str b1) =? 0)%nat) as -> by (by destruct (as_str b1)).
      rewrite <- Hl1. destruct (_ && _).
      - pose proof (pushed_ok b1 (bs "/") Hb1) as Hp. destruct (push_ b1 _); [|done..].
        destruct Hp as (H1 & H2 & H3). by split; [|split; [apply wf_ok|]].
      - split; [done|]. split; [done|]. unfold bounded. destruct (limit b1); [|by rewrite app_nil_r].
        unfold Buf.bounded_push. by rewrite take_nil, app_nil_r. }
    intros b2 Hl2 [Hb2 Hs2]. pose proof (pushed_ok b2 p Hb2) as Hp. destruct (push_ b2 p) as [b3| | |]; [|done..].
    destruct Hp as (H1 & H2 & H3). split; [done|]. split; [done|].
    rewrite H3, Hl2, Hs2, Hl1, <- Hl1, bounded_twice by done.
    rewrite <- (bounded_from_nil b1) at 1 by done. rewrite Hs1, Hl1. destruct (limit b) eqn:El; cbn [bounded].
    - rewrite Buf.bounded_push_push; [destruct (starts_with _ p); by rewrite ?app_assoc|].
      pose proof (within_limit b Hb) as Hw. rewrite El in Hw. cbn. lia.
    - destruct (starts_with _ p); cbn [app]; by rewrite ?app_assoc. }
  unfold grows in Hg. destruct (append_path b p); [|done..]. destruct Hg as (H1 & H2 & H3).
  do 3 (split; [done|]). by apply terminated.
Qed.
End Paths.

(** ** Fixed-size buffers *)

Lemma from_bytes_until_nul_spec s :
  match from_bytes_until_nul s with
  | Ok t => ∃ r, s = t ++ NUL :: r ∧ NUL ∉ t ∧ utf8_valid t = true
  | Err _ => True
  | _ => False
  end.
Proof.
  unfold from_bytes_until_nul, from_cstr. destruct (until_nul s) as [t|] eqn:E; [|done].
  destruct (utf8_valid t) eqn:Hv; [|done]. apply until_nul_Some in E as (Ht & r & ->). eauto.
Qed.

#[export] Instance fixed_buf : Utf8CStrBuf Buf.Buf := {
  as_str := Buf.as_str;
  len := Buf.used;
  capacity := Buf.capacity;
  push_str b s := Ok (Buf.push_str b s);
  clear b := Ok (Buf.clear b);
  truncate b n := Ok (Buf.truncate b n);
  rebuild := Buf.rebuild;
  with_nul b := take (Datatypes.S (Buf.used b)) (Buf.buf b)
}.

#[export, refine] Instance fixed_buf_ok : Utf8CStrBufOk Buf.Buf := {
  ok b := Buf.wf b;
  wf b := Buf.wf b;
  limit b := Some (Buf.capacity b)
}.
Proof.
  - done.
  - intros b Hb. cbn. rewrite (Buf.length_as_str b Hb). by apply Buf.wf_used.
  - intros b Hb. symmetry. by apply Buf.length_as_str.
  - intros b Hb. cbn. by rewrite (take_S_r _ _ NUL) by apply Hb.
  - intros b s Hb. destruct (Buf.push_str_ok b s Hb) as (H1 & H2 & H3 & H4). cbn. destruct (Buf.push_str b s) as [b' n].
    cbn [fst snd] in *. split; [done|]. split; [by rewrite H2|]. split; [done|].
    pose proof (Buf.length_as_str b Hb) as Hl. rewrite H3. unfold Buf.bounded_push. rewrite length_app, length_take. lia.
  - intros b Hb. destruct (Buf.clear_ok b Hb) as (H1 & H2 & H3). eexists. split; [done|].
    split; [exact H1|]. split; [exact (f_equal Some H2)|exact H3].
  - intros b n b' Hb [= <-]. destruct (Buf.truncate_ok b n Hb) as (H1 & H2 & H3). split; [exact H1|]. split; [exact (f_equal Some H2)|exact H3].
  - intros b Hb. cbn. unfold Buf.rebuild. pose proof (from_bytes_until_nul_spec (Buf.buf b)) as Hs.
    destruct (from_bytes_until_nul (Buf.buf b)) as [t|e| |]; try done.
    + destruct Hs as (r & Er & Ht & Hv). unfold Buf.wf, Buf.as_str, Buf.capacity. cbn. rewrite Er.
      split; [by apply list_lookup_middle|]. split; [done|]. by rewrite take_app_length.
    + destruct (Buf.clear_ok b Hb) as (H1 & H2 & H3). split; [exact H1|]. split; [exact (f_equal Some H2)|exact H3].
Defined.

(** The interface's path building is the one the components use. *)
Lemma fixed_push (b : Buf.Buf) t : push_ b t = Ok (Buf.push_str b t).1.
Proof. unfold push_. cbn. by destruct (Buf.push_str b t). Qed.

Lemma fixed_append_path (b : Buf.Buf) p : append_path b p = Ok (Buf.append_path b p).
Proof.
  unfold append_path, Buf.append_path. cbn [clear fixed_buf].
  destruct (starts_with (bs "/") p); cbn [mbind res_bind];
    match goal with |- context [push_ ?b (bs "/")] => rewrite (fixed_push b (bs "/")) end;
    match goal with |- context [if ?c then Ok ?x else Ok ?y] => replace (if c then Ok x else Ok y) with (Ok (if c then x else y) : res unit Buf.Buf) by by destruct c end;
    apply fixed_push.
Qed.

Lemma fixed_append_path_fmt (b : Buf.Buf) n : append_path_fmt b n = Ok (Buf.append_path_fmt b n).
Proof. unfold append_path_fmt. rewrite fixed_push. apply fixed_push. Qed.

Lemma in_range_cont lo hi b : 0x80 ≤ lo → hi ≤ 0xBF → in_range lo hi b = true → is_cont b = true.
Proof. unfold is_cont, in_range. lia. Qed.

(** The first character: the bytes behind its first one continue it. *)
Lemma first_char s : utf8_valid s = true → s ≠ [] →
  ∃ b c r, s = (b :: c) ++ r ∧ utf8_valid (b :: c) = true ∧ utf8_valid r = true ∧ Forall (λ b, is_cont b = true) c.
Proof.
  destruct s as [|b0 s]; [done|]. intros Hv _. cbn [utf8_valid] in Hv.
  destruct (u8 b0 <? 128) eqn:E1.
  { exists b0, [], s. cbn [utf8_valid]. by rewrite E1. }
  destruct (in_range 194 223 b0) eqn:E2.
  { destruct s as [|b1 s]; [done|]. apply andb_true_iff in Hv as [H1 Hv].
    exists b0, [b1], s. cbn [utf8_valid]. rewrite E1, E2, H1. auto. }
  destruct (in_range 224 239 b0) eqn:E3.
  { destruct s as [|b1 [|b2 s]]; try done. apply andb_true_iff in Hv as [[H1 H2]%andb_true_iff Hv].
    exists b0, [b1; b2], s. cbn [utf8_valid]. rewrite E1, E2, E3, H1, H2. split_and!; try done.
    repeat constructor; [|done]. refine (in_range_cont _ _ _ _ _ H1); clear; match goal with |- context [if ?c then _ else _] => destruct c end; lia. }
  destruct (in_range 240 244 b0) eqn:E4; [|done].
  destruct s as [|b1 [|b2 [|b3 s]]]; try done.
  apply andb_true_iff in Hv as [[[H1 H2]%andb_true_iff H3]%andb_true_iff Hv].
  exists b0, [b1; b2; b3], s. cbn [utf8_valid]. rewrite E1, E2, E3, E4, H1, H2, H3. split_and!; try done.
  repeat constructor; [|done..]. refine (in_range_cont _ _ _ _ _ H1); clear; match goal with |- context [if ?c then _ else _] => destruct c end; lia.
Qed.

(** Cut between characters, a string stays one. *)
Lemma utf8_valid_take s n : utf8_valid s = true → is_char_boundary s n = true → utf8_valid (take n s) = true.
Proof.
  revert n. induction s as [s IH] using (induction_ltof1 _ (@length byte)). unfold ltof in IH. intros n Hv Hb.
  destruct (decide (s = [])) as [->|Hne]; [by rewrite take_nil|].
  destruct (first_char s Hv Hne) as (b & c & r & -> & Hc & Hr & Hcont).
  destruct n as [|n]; [done|]. unfold is_char_boundary in Hb. change (Datatypes.S n =? 0)%nat with false in Hb. rewrite orb_false_l in Hb.
  destruct (decide (n < length c)%nat) as [Hlt|Hge].
  - destruct (lookup_lt_is_Some_2 c n Hlt) as [x Hx]. exfalso.
    rewrite (lookup_app_l_Some (b :: c) r (Datatypes.S n) x Hx) in Hb.
    rewrite (Forall_lookup_1 _ _ _ _ Hcont Hx) in Hb. done.
  - rewrite take_app, take_ge by (cbn; lia). rewrite utf8_valid_app by done.
    apply IH; [rewrite length_app; cbn; lia|done|]. unfold is_char_boundary.
    rewrite lookup_app_r, length_app in Hb by (cbn; lia).
    destruct (r !! _); [by rewrite Hb, orb_true_r|]. apply orb_true_iff. right.
    rewrite Nat.eqb_eq in Hb. apply Nat.eqb_eq. change (length (b :: c)) with (Datatypes.S (length c)) in *. lia.
Qed.

(** ** Growable strings *)

Record Str := mkStr { mem : bytes; used : nat }.

Section Growable.
Context (isize_max : Z) (junk : nat → bytes).

Definition str (s : Str) : bytes := take (used s) (mem s).
Definition str_capacity (s : Str) : nat := length (mem s).

(** Asking for more than [isize::MAX] bytes panics. *)
Definition allocate (cap : nat) : res unit bytes :=
  if isize_max <? Z.of_nat cap then Panic else Ok (junk cap).

(** [String::reserve]: the memory at least doubles when it grows, and the string moves. *)
Definition reserve (s : Str) (additional : nat) : res unit Str :=
  if (used s + additional <=? str_capacity s)%nat then Ok s
  else
    let cap := Nat.max 8 (Nat.max (2 * str_capacity s) (used s + additional)) in
    fresh ← allocate cap;
    Ok (mkStr (str s ++ drop (used s) fresh) (used s)).

Definition nul_terminate (s : Str) : res unit Str :=
  s ← reserve s 1; Ok (mkStr (<[used s := NUL]> (mem s)) (used s)).

(** [String::push_str], [clear] and [truncate]. *)
Definition string_push_str (s : Str) (t : bytes) : res unit Str :=
  s ← reserve s (length t);
  Ok (mkStr (str s ++ t ++ drop (used s + length t) (mem s)) (used s + length t)).
Definition string_truncate (s : Str) (n : nat) : res unit Str :=
  if (n <=? used s)%nat then
    if is_char_boundary (str s) n then Ok (mkStr (mem s) n) else Panic
  else Ok s.

(** [Utf8CString]: [with_capacity], [From<String>], [From<&str>]. *)
Definition from_string (s : Str) : res unit Str := nul_terminate s.
Definition with_capacity (n : nat) : res unit Str := m ← allocate n; from_string (mkStr m 0).
Definition from_str (t : bytes) : res unit Str :=
  m ← allocate (length t + 1); s ← string_push_str (mkStr m 0) t; nul_terminate s.
Definition default_string : res unit Str := with_capacity 256.

(** The null byte is not written again. *)
Definition ensure_capacity (s : Str) (cap : nat) : res unit Str :=
  if (cap <=? str_capacity s)%nat then Ok s else reserve s (cap - used s).

Definition str_rebuild (s : Str) : Str * res StrErr unit :=
  match from_bytes_until_nul (mem s) with
  | Ok t => (mkStr (mem s) (length t), Ok tt)
  | Err e => match nul_terminate (mkStr (mem s) 0) with Ok s => (s, Err e) | _ => (s, Panic) end
  | Panic => (s, Panic)
  | NoFuel => (s, NoFuel)
  end.

#[local] Instance growable : Utf8CStrBuf Str := {
  as_str := str;
  len := used;
  capacity := str_capacity;
  push_str s t := s ← string_push_str s t; s ← nul_terminate s; Ok (s, length t);
  clear s := nul_terminate (mkStr (mem s) 0);
  truncate s n := s ← string_truncate s n; nul_terminate s;
  rebuild := str_rebuild;
  with_nul s := take (Datatypes.S (used s)) (mem s)
}.

(** [ToOwned]: a copy of what is borrowed. *)
Definition to_owned (s : bytes) : res unit Str := b ← with_capacity (length s + 1); push_ b s.

Definition str_ok (s : Str) : Prop := (used s ≤ str_capacity s)%nat.
Definition str_wf (s : Str) : Prop := mem s !! used s = Some NUL.

Lemma str_wf_ok s : str_wf s → str_ok s.
Proof. intros H%lookup_lt_Some. unfold str_ok, str_capacity. lia. Qed.

Lemma length_str s : str_ok s → length (str s) = used s.
Proof. unfold str_ok, str_capacity, str. rewrite length_take. lia. Qed.

Lemma wf_used_str s t : str_wf s → str s = t → used s = length t.
Proof. intros Hw <-. symmetry. by apply length_str, str_wf_ok. Qed.

Lemma str_app t r : str (mkStr (t ++ r) (length t)) = t.
Proof. apply take_app_length. Qed.

(** A step that keeps the string usable, or panics. *)
Definition gives (m : res unit Str) (P : Str → Prop) : Prop :=
  match m with Ok s => P s | Panic => True | _ => False end.

Lemma usable_bind m k (P Q : Str → Prop) : gives m P → (∀ s, P s → gives (k s) Q) → gives (mbind k m) Q.
Proof. intros Hm Hk. destruct m; cbn in *; auto; done. Qed.

Context (Hjunk : ∀ n, length (junk n) = n) (Hmax : 8 ≤ isize_max).

Lemma reserve_ok s n : str_ok s →
  gives (reserve s n) (λ s', str_ok s' ∧ str s' = str s ∧ used s' = used s ∧ (used s + n ≤ str_capacity s')%nat).
Proof.
  intros Hs. unfold reserve. destruct (Nat.leb_spec (used s + n) (str_capacity s)) as [Hle|Hlt]; [done|].
  unfold allocate. cbn zeta. destruct (isize_max <? _); [done|]. cbn [mbind res_bind gives].
  pose proof (length_str s Hs) as Hl. unfold str_ok, str_capacity in *. cbn [mem used].
  rewrite length_app, length_drop, Hjunk, Hl. split_and!; [lia| |done|lia]. rewrite <- Hl. apply str_app.
Qed.

Lemma nul_terminate_ok s : str_ok s → gives (nul_terminate s) (λ s', str_wf s' ∧ str s' = str s).
Proof.
  intros Hs. unfold nul_terminate. eapply usable_bind; [by apply reserve_ok|].
  intros s' (Ho & E & Hu & Hc). unfold str_wf, str_capacity in *. cbn [gives mem used]. split.
  - apply list_lookup_insert_eq. lia.
  - rewrite <- E. unfold str. cbn [mem used]. by rewrite take_insert_ge.
Qed.

Lemma push_grows s t : str_ok s →
  gives (string_push_str s t) (λ s', str_ok s' ∧ str s' = str s ++ t ∧ used s' = (used s + length t)%nat).
Proof.
  intros Hs. unfold string_push_str. eapply usable_bind; [by apply (reserve_ok s (length t))|].
  intros s' (Ho & E & Hu & Hc). pose proof (length_str s' Ho) as Hl. unfold str_ok, str_capacity in *. cbn [gives mem used].
  split_and!; [rewrite !length_app, Hl; lia| |lia].
  rewrite app_assoc, <- Hl, <- length_app. rewrite str_app. by rewrite E.
Qed.

Lemma push_wf s t : str_ok s →
  gives (push_ s t) (λ s', str_wf s' ∧ str s' = str s ++ t).
Proof.
  intros Hs. unfold push_. cbn. pose proof (push_grows s t Hs) as Hp. destruct (string_push_str s t) as [s1| | |]; try done.
  destruct Hp as (H1 & H2 & _). cbn. pose proof (nul_terminate_ok s1 H1) as Hn. rewrite H2 in Hn.
  by destruct (nul_terminate s1).
Qed.

Lemma truncate_cuts s n s' : str_ok s → string_truncate s n = Ok s' → str_ok s' ∧ str s' = take n (str s).
Proof.
  intros Hs. unfold string_truncate. destruct (Nat.leb_spec n (used s)) as [Hle|Hlt].
  - destruct (is_char_boundary (str s) n); [|done]. intros [= <-]. unfold str_ok, str, str_capacity in *. cbn [mem used].
    split; [lia|]. rewrite take_take. by rewrite Nat.min_l by lia.
  - intros [= <-]. split; [done|]. rewrite take_ge; [done|]. rewrite length_str by done. lia.
Qed.

(** An empty string always has room for the null byte. *)
Lemma nul_terminate_empty m : ∃ s', nul_terminate (mkStr m 0) = Ok s' ∧ str_wf s' ∧ str s' = [].
Proof.
  assert (Ho : str_ok (mkStr m 0)) by (unfold str_ok; cbn; lia).
  pose proof (nul_terminate_ok _ Ho) as H. destruct (nul_terminate (mkStr m 0)) as [s'| | |] eqn:E; try done.
  { by exists s'. }
  exfalso. revert E. unfold nul_terminate, reserve, allocate, str_capacity. cbn [mem used].
  destruct m as [|b m]; cbn [length Nat.add Nat.leb]; [|done].
  change (Z.of_nat _) with 8. by rewrite (proj2 (Z.ltb_ge _ _)).
Qed.

#[local, refine] Instance growable_ok : Utf8CStrBufOk Str := {
  ok s := str_ok s;
  wf s := str_wf s;
  limit _ := None
}.
Proof.
  - apply str_wf_ok.
  - done.
  - intros s Hs. symmetry. by apply length_str.
  - intros s Hs. cbn. by rewrite (take_S_r _ _ NUL) by apply Hs.
  - intros s t Hs. pose proof (push_grows s t Hs) as Hp. cbn. destruct (string_push_str s t) as [s1| | |]; try done.
    destruct Hp as (H1 & H2 & _). cbn. pose proof (nul_terminate_ok s1 H1) as Hn.
    destruct (nul_terminate s1) as [s2| | |]; try done. destruct Hn as [H3 H4]. cbn.
    split; [done|]. split; [done|]. rewrite H4, H2. split; [done|]. apply length_app.
  - intros s Hs. cbn. destruct (nul_terminate_empty (mem s)) as (s' & E & H1 & H2). by exists s'.
  - intros s n s' Hs. cbn. destruct (string_truncate s n) as [s1|e| |] eqn:Et; try done. cbn. intros E.
    destruct (truncate_cuts s n s1 Hs Et) as [H1 H2]. pose proof (nul_terminate_ok s1 H1) as Hn. rewrite E in Hn.
    destruct Hn as [H3 H4]. split; [done|]. split; [done|]. by rewrite H4.
  - intros s Hs. cbn. unfold str_rebuild. pose proof (from_bytes_until_nul_spec (mem s)) as Hb.
    destruct (from_bytes_until_nul (mem s)) as [t|e| |]; try done.
    + destruct Hb as (r & Er & Ht & Hv). unfold str_wf, str. cbn [mem used]. rewrite Er.
      split; [by apply list_lookup_middle|]. split; [done|]. by rewrite take_app_length.
    + destruct (nul_terminate_empty (mem s)) as (s' & -> & H1 & H2). done.
Defined.

(** ** A string of characters *)

(** What a program does with a [Utf8CString], and what it stands for: a string, on which
    only a cut inside a character panics. *)
Inductive StrOp :=
  | Push (t : bytes)
  | Clear
  | Truncate (n : nat)
  | Append (path : bytes)
  | AppendFmt (name : bytes)
  | EnsureCapacity (cap : nat).

Definition str_step (s : Str) (o : StrOp) : res unit Str :=
  match o with
  | Push t => push_ s t
  | Clear => clear s
  | Truncate n => truncate s n
  | Append p => append_path s p
  | AppendFmt n => append_path_fmt s n
  | EnsureCapacity cap => ensure_capacity s cap
  end.

Definition spec_step (s : bytes) (o : StrOp) : res unit bytes :=
  match o with
  | Push t => Ok (s ++ t)
  | Clear => Ok []
  | Truncate n => if (length s <=? n)%nat || is_char_boundary s n then Ok (take n s) else Panic
  | Append p => Ok ((if starts_with (bs "/") p then [] else s ++ Buf.path_sep s) ++ p)
  | AppendFmt n => Ok (s ++ bs "/" ++ n)
  | EnsureCapacity _ => Ok s
  end.

(** The texts of the operations are strings. *)
Definition op_utf8 (o : StrOp) : bool :=
  match o with Push t | Append t | AppendFmt t => utf8_valid t | _ => true end.

(** Room for what an operation adds: its text, a separator and the null byte. *)
Definition op_room (o : StrOp) : nat :=
  match o with
  | Push t => length t + 1
  | Clear | Truncate _ => 1
  | Append t | AppendFmt t => length t + 2
  | EnsureCapacity cap => cap
  end.
Definition room (ops : list StrOp) : nat := sum_list_with op_room ops.

(** All but [ensure_capacity] write the null byte. *)
Definition terminates (o : StrOp) : bool := match o with EnsureCapacity _ => false | _ => true end.

Fixpoint run {S} (step : S → StrOp → res unit S) (s : S) (ops : list StrOp) : res unit S :=
  match ops with [] => Ok s | o :: ops => s ← step s o; run step s ops end.

(** *** Room below the largest capacity *)

Lemma spec_step_room s o t : spec_step s o = Ok t → (length t + 1 ≤ length s + Nat.max 1 (op_room o))%nat.
Proof.
  destruct o as [u| |n|p|n|cap]; cbn [spec_step op_room].
  - intros [= <-]. rewrite length_app. lia.
  - intros [= <-]. cbn. lia.
  - destruct (_ || _); [|done]. intros [= <-]. rewrite length_take. lia.
  - intros [= <-]. rewrite length_app. destruct (starts_with _ p); [cbn; lia|]. rewrite length_app. unfold Buf.path_sep.
    destruct (_ && _); cbn; lia.
  - intros [= <-]. rewrite !length_app. cbn. lia.
  - intros [= <-]. lia.
Qed.

Section Room.
Context (max : nat) (Hmin : (8 ≤ max)%nat) (Hroom : 2 * Z.of_nat max ≤ isize_max).

(** The memory at most doubles what was asked for. *)
Definition roomy (s : Str) : Prop := (str_capacity s ≤ 2 * max)%nat.
Definition lands (m : res unit Str) (P : Str → Prop) : Prop := ∃ s, m = Ok s ∧ roomy s ∧ P s.

Lemma lands_gives m P : lands m (λ _, True) → gives m P → lands m P.
Proof. intros (s & -> & Hr & _) Hg. by exists s. Qed.

Lemma lands_bind m k (P Q : Str → Prop) : lands m P → (∀ s, roomy s → P s → lands (k s) Q) → lands (mbind k m) Q.
Proof. intros (s & -> & Hr & HP) Hk. by apply Hk. Qed.

Lemma reserve_lands s n : str_ok s → roomy s → (used s + n ≤ max)%nat →
  lands (reserve s n) (λ s', str_ok s' ∧ str s' = str s ∧ used s' = used s ∧ (used s + n ≤ str_capacity s')%nat).
Proof.
  intros Hs Hr Hn. apply lands_gives; [|by apply reserve_ok].
  unfold reserve. destruct (Nat.leb_spec (used s + n) (str_capacity s)) as [Hle|Hlt]; [by exists s|].
  unfold allocate, roomy in *. cbn zeta. rewrite (proj2 (Z.ltb_ge _ _)) by lia. eexists. split; [done|]. split; [|done].
  unfold roomy, str_capacity in *. cbn [mem]. rewrite length_app, length_drop, Hjunk, length_str by done. lia.
Qed.

Lemma nul_lands s : str_ok s → roomy s → (used s + 1 ≤ max)%nat →
  lands (nul_terminate s) (λ s', str_wf s' ∧ str s' = str s).
Proof.
  intros Hs Hr Hn. apply lands_gives; [|by apply nul_terminate_ok].
  eapply lands_bind; [by apply reserve_lands|]. intros s' Hr' _. eexists. split; [done|]. split; [|done].
  unfold roomy, str_capacity in *. cbn [mem]. by rewrite length_insert.
Qed.

Lemma push_lands s t : str_ok s → roomy s → (used s + length t + 1 ≤ max)%nat →
  lands (push_ s t) (λ s', str_wf s' ∧ str s' = str s ++ t).
Proof.
  intros Hs Hr Hn. apply lands_gives; [|by apply push_wf].
  assert (Hp : lands (string_push_str s t) (λ s', str_ok s' ∧ str s' = str s ++ t ∧ used s' = (used s + length t)%nat)).
  { apply lands_gives; [|by apply push_grows]. eapply lands_bind; [apply reserve_lands; done || lia|].
    intros s' Hr' (Ho & E & Hu & Hc). eexists. split; [done|]. split; [|done].
    unfold roomy, str_ok, str_capacity in *. cbn [mem]. rewrite !length_app, length_str, length_drop by done. lia. }
  destruct Hp as (s1 & E1 & Hr1 & Ho1 & _ & Hu1). destruct (nul_lands s1 Ho1 Hr1) as (s2 & E2 & Hr2 & _); [lia|].
  exists s2. split; [|done]. unfold push_. cbn. rewrite E1. cbn. by rewrite E2.
Qed.

Lemma append_lands s p : str_ok s → roomy s → (used s + length p + 2 ≤ max)%nat → lands (append_path s p) (λ s', str_wf s').
Proof.
  intros Hs Hr Hn. unfold append_path.
  apply (lands_bind _ _ (λ b, str_ok b ∧ (used b ≤ used s)%nat)).
  { destruct (starts_with _ p); [|by exists s]. destruct (nul_lands (mkStr (mem s) 0)) as (b & E & Hb & Hw & Hz).
    - unfold str_ok. cbn. lia.
    - done.
    - cbn. lia.
    - exists b. split; [done|]. split; [done|]. split; [by apply str_wf_ok|]. rewrite (wf_used_str b [] Hw Hz). cbn. lia. }
  intros b Hb [Hbo Hbu].
  apply (lands_bind _ _ (λ b, str_ok b ∧ (used b ≤ used s + 1)%nat)).
  { destruct (_ && _); [|exists b; split_and!; (done || lia)].
    destruct (push_lands b (bs "/")) as (c & E & Hc & Hw & Hz); [done|done|change (length (bs "/")) with 1%nat; lia|].
    exists c. split; [done|]. split; [done|]. split; [by apply str_wf_ok|].
    rewrite (wf_used_str c _ Hw Hz), length_app, length_str by done. change (length (bs "/")) with 1%nat. lia. }
  intros c Hc [Hco Hcu]. destruct (push_lands c p) as (d & E & Hd & Hw & _); [done|done|lia|]. by exists d.
Qed.

Lemma append_fmt_lands s n : str_ok s → roomy s → (used s + length n + 2 ≤ max)%nat →
  lands (append_path_fmt s n) (λ s', str_wf s' ∧ str s' = str s ++ bs "/" ++ n).
Proof.
  intros Hs Hr Hn. unfold append_path_fmt.
  eapply lands_bind; [apply push_lands; [done|done|change (length (bs "/")) with 1%nat; lia]|]. intros b Hb [Hw E].
  pose proof (wf_used_str b _ Hw E) as Hu. rewrite length_app, length_str in Hu by done.
  change (length (bs "/")) with 1%nat in Hu.
  destruct (push_lands b n) as (c & Ec & Hc & Hcw & Hcs); [by apply str_wf_ok|done|lia|].
  exists c. split; [done|]. split; [done|]. split; [done|]. by rewrite Hcs, E, <- app_assoc.
Qed.

(** One step, when there is room for it. *)
Lemma str_step_ok s o : str_ok s → roomy s → (used s + op_room o ≤ max)%nat →
  match spec_step (str s) o with
  | Ok t => lands (str_step s o) (λ s', str_ok s' ∧ str s' = t ∧ (terminates o = true → str_wf s'))
  | Panic => str_step s o = Panic
  | _ => False
  end.
Proof.
  intros Hs Hr Hn. assert (Hweak : ∀ m t, lands m (λ s', str_wf s' ∧ str s' = t) →
    lands m (λ s', str_ok s' ∧ str s' = t ∧ (terminates o = true → str_wf s'))).
  { intros m t (s' & E & Hr' & Hw & Et). exists s'. split; [done|]. split; [done|]. by split; [apply str_wf_ok|]. }
  destruct o as [t| |n|p|n|cap]; cbn [str_step spec_step op_room] in *.
  - apply Hweak, push_lands; done || lia.
  - apply Hweak. apply nul_lands; [unfold str_ok; cbn; lia|done|cbn; lia].
  - rewrite length_str by done. cbn. unfold string_truncate.
    assert (Hl : (used s <=? n)%nat || is_char_boundary (str s) n =
      negb (n <=? used s)%nat || is_char_boundary (str s) n).
    { destruct (Nat.leb_spec n (used s)), (Nat.leb_spec (used s) n); try done; [|lia]. assert (n = used s) as -> by lia. cbn.
      unfold is_char_boundary. rewrite <- (length_str s Hs), lookup_ge_None_2, Nat.eqb_refl by done. by rewrite orb_true_r. }
    rewrite Hl. destruct (Nat.leb_spec n (used s)) as [Hle|Hlt]; cbn [negb orb].
    + destruct (is_char_boundary (str s) n); [|done]. cbn [mbind res_bind]. apply Hweak.
      destruct (nul_lands (mkStr (mem s) n)) as (s' & E & Hr' & Hw & Es); [unfold str_ok, str_capacity in *; cbn; lia|done|cbn; lia|].
      exists s'. split; [done|]. split; [done|]. split; [done|]. rewrite Es. unfold str. cbn. rewrite take_take. by rewrite Nat.min_l.
    + cbn [mbind res_bind]. apply Hweak. rewrite take_ge by (rewrite length_str by done; lia). apply nul_lands; done || lia.
  - destruct (append_lands s p) as (s' & E & Hr' & Hw); [done|done|lia|]. exists s'. split; [done|]. split; [done|].
    split; [by apply str_wf_ok|]. pose proof (append_path_joins s p Hs) as Hj. cbn [as_str growable] in Hj. rewrite E in Hj.
    by destruct Hj as (_ & _ & Hj & _).
  - apply Hweak, append_fmt_lands; done || lia.
  - unfold ensure_capacity. destruct (Nat.leb_spec cap (str_capacity s)); [by exists s|].
    destruct (reserve_lands s (cap - used s)) as (s' & E & Hr' & Ho & Es & _); [done|done|unfold str_ok in *; lia|].
    by exists s'.
Qed.

End Room.

Lemma spec_step_utf8 s o t : utf8_valid s = true → op_utf8 o = true → spec_step s o = Ok t → utf8_valid t = true.
Proof.
  intros Hs Ho. destruct o as [u| |n|p|n|cap]; cbn in *.
  - intros [= <-]. by rewrite utf8_valid_app.
  - by intros [= <-].
  - destruct (Nat.leb_spec (length s) n) as [Hle|Hlt]; cbn [orb].
    + intros [= <-]. by rewrite take_ge.
    + destruct (is_char_boundary s n) eqn:Eb; [|done]. intros [= <-]. by apply utf8_valid_take.
  - intros [= <-]. destruct (starts_with _ p); [done|]. rewrite utf8_valid_app; [done|]. rewrite utf8_valid_app by done.
    unfold Buf.path_sep. by destruct (_ && _).
  - intros [= <-]. by rewrite utf8_valid_app.
  - by intros [= <-].
Qed.

Lemma run_refines max ops s : (8 ≤ max)%nat → 2 * Z.of_nat max ≤ isize_max →
  str_ok s → roomy max s → (used s + room ops ≤ max)%nat → utf8_valid (str s) = true → forallb op_utf8 ops = true →
  match run spec_step (str s) ops with
  | Ok t => ∃ s', run str_step s ops = Ok s' ∧ str_ok s' ∧ str s' = t ∧ utf8_valid t = true ∧
      (match last ops with Some o => terminates o = true | None => str_wf s end → str_wf s')
  | Panic => run str_step s ops = Panic
  | _ => False
  end.
Proof.
  intros Hmin Hroom. revert s. induction ops as [|o ops IH]; intros s Hs Hr Hn Hv Ho; cbn [run]; [by exists s|].
  cbn [forallb] in Ho. apply andb_true_iff in Ho as [Ho Hops].
  change (room (o :: ops)) with (op_room o + room ops)%nat in Hn.
  pose proof (str_step_ok max Hmin Hroom s o Hs Hr) as Hstep.
  pose proof (spec_step_utf8 (str s) o) as Hu. pose proof (spec_step_room (str s) o) as Hl. rewrite length_str in Hl by done.
  destruct (spec_step (str s) o) as [t|e'| |]; [|by (destruct Hstep; lia)|by rewrite Hstep by lia|by (destruct Hstep; lia)].
  destruct Hstep as (s' & -> & Hr' & Hs' & <- & Hw); [lia|]. cbn [mbind res_bind].
  specialize (IH s' Hs' Hr'). specialize (Hl _ eq_refl). rewrite length_str in Hl by done.
  destruct (run spec_step (str s') ops) as [t|e| |]; try (apply IH; (lia || by auto)).
  destruct IH as (s2 & E & Ho2 & Es2 & Hv2 & Hw2); [lia|by auto|done|]. exists s2. do 4 (split; [done|]).
  intros Hlast. apply Hw2. destruct ops as [|o' ops]; [by apply Hw|].
  change (last (o :: o' :: ops)) with (last (o' :: ops)) in Hlast.
  destruct (last (o' :: ops)) eqn:El; [done|by apply last_None in El].
Qed.
End Growable.

(** C37: while all sizes together stay below half of [isize::MAX], a growable C string does
    what a string does, whatever memory it grows into: it holds valid UTF-8 all the time and
    panics exactly where a cut would split a character; its bytes are followed by the null
    byte, except right after [ensure_capacity], which moves the string and does not write
    it.  A capacity above [isize::MAX] panics. *)
Theorem cstring_is_string isize_max junk n ops :
  (∀ n, length (junk n) = n) → forallb op_utf8 ops = true → 2 * Z.of_nat (n + 8 + room ops) ≤ isize_max →
  (∃ s0, with_capacity isize_max junk n = Ok s0 ∧
    match run spec_step [] ops with
    | Ok t => ∃ s, run (str_step isize_max junk) s0 ops = Ok s ∧ str s = t ∧ utf8_valid t = true ∧
        (match last ops with Some o => terminates o = true | None => True end →
         take (Datatypes.S (used s)) (mem s) = t ++ [NUL])
    | Panic => run (str_step isize_max junk) s0 ops = Panic
    | _ => False
    end) ∧
  ∀ cap s, isize_max < Z.of_nat cap → Z.of_nat (str_capacity s) ≤ isize_max → str_ok s →
    with_capacity isize_max junk cap = Panic ∧ ensure_capacity isize_max junk s cap = Panic.
Proof.
  intros Hj Ho Hsize. split.
  - set (max := (n + 8 + room ops)%nat) in *.
    assert (Hm : 8 ≤ isize_max) by lia.
    destruct (nul_lands isize_max junk Hj max ltac:(lia) Hsize (mkStr (junk n) 0)) as (s0 & E0 & Hr0 & Hw0 & Es0).
    { unfold str_ok. cbn. lia. }
    { unfold roomy, str_capacity. cbn. rewrite Hj. lia. }
    { cbn. lia. }
    exists s0. split.
    { unfold with_capacity, allocate, from_string. rewrite (proj2 (Z.ltb_ge _ _)) by lia. exact E0. }
    change (str (mkStr (junk n) 0)) with (@nil byte) in Es0.
    pose proof (run_refines isize_max junk Hj Hm max ops s0 ltac:(lia) Hsize (str_wf_ok s0 Hw0) Hr0) as H.
    rewrite Es0, (wf_used_str s0 [] Hw0 Es0) in H. specialize (H ltac:(cbn; lia) eq_refl Ho).
    destruct (run spec_step [] ops) as [t|e| |]; try done. destruct H as (s & E & Hs & <- & Hv & Hw).
    exists s. do 3 (split; [done|]). intros Hlast. assert (str_wf s) as Hws by (apply Hw; by destruct (last ops)).
    unfold str_wf in Hws. by rewrite (take_S_r _ _ NUL).
  - intros cap s Hc Hs Hok. split.
    + unfold with_capacity, allocate. by rewrite (proj2 (Z.ltb_lt _ _)).
    + unfold ensure_capacity. rewrite (proj2 (Nat.leb_gt _ _)) by lia. unfold reserve, str_ok in *.
      rewrite (proj2 (Nat.leb_gt _ _)) by lia. unfold allocate. cbn zeta. by rewrite (proj2 (Z.ltb_lt _ _)) by lia.
Qed.

Lemma cstring_is_string_witness :
  let ops := [Push (bs "/data"); Append (bs "adb"); AppendFmt (bs "modules"); EnsureCapacity 64; Truncate 9; Append (bs "magisk.db")] in
  let junk n := replicate n Byte.xff in
  (∃ s0, with_capacity (2 ^ 63 - 1) junk 0 = Ok s0 ∧
    match run spec_step [] ops with
    | Ok t => ∃ s, run (str_step (2 ^ 63 - 1) junk) s0 ops = Ok s ∧ str s = t ∧ utf8_valid t = true ∧
        (match last ops with Some o => terminates o = true | None => True end →
         take (Datatypes.S (used s)) (mem s) = t ++ [NUL])
    | Panic => run (str_step (2 ^ 63 - 1) junk) s0 ops = Panic
    | _ => False
    end) ∧
  ∀ cap s, 2 ^ 63 - 1 < Z.of_nat cap → Z.of_nat (str_capacity s) ≤ 2 ^ 63 - 1 → str_ok s →
    with_capacity (2 ^ 63 - 1) junk cap = Panic ∧ ensure_capacity (2 ^ 63 - 1) junk s cap = Panic.
Proof.
  apply (cstring_is_string (2 ^ 63 - 1) (λ n, replicate n Byte.xff) 0
    [Push (bs "/data"); Append (bs "adb"); AppendFmt (bs "modules"); EnsureCapacity 64; Truncate 9; Append (bs "magisk.db")]);
    [intros n; apply length_replicate|reflexivity|by_compute].
Defined.

(** Vec only promises to keep what is within the length: after [ensure_capacity] has moved
    the string the byte behind it can be anything. *)
Example ensure_capacity_unterminated :
  let junk n := replicate n Byte.xff in
  run (str_step (2 ^ 63 - 1) junk) (mkStr (bs "abc" ++ [NUL]) 3) [EnsureCapacity 12] =
  Ok (mkStr (bs "abc" ++ replicate 9 Byte.xff) 3).
Proof. vm_compute. reflexivity. Qed.
