(* ===== verification/Cpio.v ===== *)
(** Cpio: ramdisk archives, [native/src/boot/cpio.rs]: the entries, parsing and
    writing an archive, and the operations on names and entries.

    [Cpio] is the [BTreeMap<String, Box<CpioEntry>>]; [load_from_data] and [dump]
    follow the code statement by statement, positions included.  [load_loop] has
    fuel: every turn consumes a header, so the length of the data is enough
    ([load_total]).  [dump] returns the bytes written (every [write] is whole). *)

From S2P Require Import Prelude Misc Cstr.

(** ** Constants of [libc] *)

Definition S_IFMT : Z := 0xF000.
Definition S_IFDIR : Z := 0x4000.
Definition S_IFREG : Z := 0x8000.
Definition S_IFLNK : Z := 0xA000.
Definition S_IFBLK : Z := 0x6000.
Definition S_IFCHR : Z := 0x2000.

(** [mode & S_IFMT == kind]. *)
Definition is_kind (kind mode : Z) : bool := Z.land mode S_IFMT =? kind.

(** ** Data *)

Record CpioEntry := mkEntry {
  mode : Z; uid : Z; gid : Z; rdevmajor : Z; rdevminor : Z; data : bytes }.

#[global] Instance CpioEntry_eq_dec : EqDecision CpioEntry.
Proof. solve_decision. Defined.

Abbreviation Cpio := (gmap bytes CpioEntry).

Record CpioHeader := mkHeader {
  magic : bytes; ino : bytes; h_mode : bytes; h_uid : bytes; h_gid : bytes; nlink : bytes;
  mtime : bytes; filesize : bytes; devmajor : bytes; devminor : bytes; h_rdevmajor : bytes;
  h_rdevminor : bytes; namesize : bytes; check : bytes }.

Definition hdr_sz : Z := 110.

Definition CPIO_MAGIC : bytes := bs "070701".
Definition TRAILER : bytes := bs "TRAILER!!!".

(** ** Parsing *)

(** [from_bytes::<CpioHeader>]: the packed fields of 110 bytes. *)
Definition header_of (h : bytes) : CpioHeader :=
  let f (i : nat) := take 8 (drop (6 + 8 * i) h) in
  mkHeader (take 6 h) (f 0%nat) (f 1%nat) (f 2%nat) (f 3%nat) (f 4%nat) (f 5%nat) (f 6%nat)
           (f 7%nat) (f 8%nat) (f 9%nat) (f 10%nat) (f 11%nat) (f 12%nat).

Definition x8u (x : bytes) : LoggedResult Z := of_option tt (digits_val 16 0 x).

(** [Utf8CStr::from_bytes(..)?]. *)
Definition name_of (raw : bytes) : LoggedResult bytes :=
  match from_bytes raw with
  | Ok s => Ok s | Err _ => Err tt | Panic => Panic | NoFuel => NoFuel
  end.

(** The head of a loop turn: the header, the name, and the aligned position behind it. *)
Definition load_head (data : bytes) (pos : Z) : LoggedResult (CpioHeader * bytes * Z) :=
  h ← slice pos (pos + hdr_sz) data;
  let hdr := header_of h in
  if negb (bool_decide (magic hdr = CPIO_MAGIC)) then Err tt
  else
    let pos := pos + hdr_sz in
    name_sz ← x8u (namesize hdr);
    raw ← slice pos (pos + name_sz) data;
    name ← name_of raw;
    Ok (hdr, name, align_4 (pos + name_sz)).

(** The rest of a turn that stores an entry. *)
Definition load_entry (data : bytes) (hdr : CpioHeader) (pos : Z) : LoggedResult (CpioEntry * Z) :=
  file_sz ← x8u (filesize hdr);
  md ← x8u (h_mode hdr);
  u ← x8u (h_uid hdr);
  g ← x8u (h_gid hdr);
  rmaj ← x8u (h_rdevmajor hdr);
  rmin ← x8u (h_rdevminor hdr);
  content ← slice pos (pos + file_sz) data;
  Ok (mkEntry md u g rmaj rmin content, align_4 (pos + file_sz)).

Fixpoint load_loop (fuel : nat) (data : bytes) (pos : Z) (entries : Cpio) : LoggedResult Cpio :=
  match fuel with
  | O => NoFuel
  | S fuel =>
      if pos <? len data then
        '(hdr, name, pos) ← load_head data pos;
        if bool_decide (name = bs ".") || bool_decide (name = bs "..")
        then load_loop fuel data pos entries
        else if bool_decide (name = TRAILER) then
          rest ← slice pos (len data) data;
          match find CPIO_MAGIC rest with
          | Some x => load_loop fuel data (pos + x) entries
          | None => Ok entries
          end
        else
          '(entry, pos) ← load_entry data hdr pos;
          load_loop fuel data pos (<[name := entry]> entries)
      else Ok entries
  end.

Definition load_from_data (data : bytes) : LoggedResult Cpio :=
  load_loop (S (length data)) data 0 ∅.

(** ** Writing *)

(** The file and the [pos] counter. *)
Definition Sink : Type := bytes * Z.

Definition put (s : bytes) (w : Sink) : Sink := (w.1 ++ s, w.2 + len s).

(** [file.write_zeros(align_4(pos) - pos)?; pos = align_4(pos)]. *)
Definition pad (w : Sink) : Sink := (w.1 ++ zeros (align_4 w.2 - w.2), align_4 w.2).

Definition header_bytes (fields : list Z) : bytes :=
  CPIO_MAGIC ++ concat (map (fmt_hex false 8) fields).

Definition dump_entry (st : Sink * Z) (p : bytes * CpioEntry) : Sink * Z :=
  let '(w, inode) := st in
  let '(name, entry) := p in
  let w := put (header_bytes [inode; mode entry; uid entry; gid entry; 1; 0; len (data entry);
                              0; 0; rdevmajor entry; rdevminor entry; len name + 1; 0]) w in
  let w := put name w in
  let w := put [NUL] w in
  let w := pad w in
  let w := put (data entry) w in
  let w := pad w in
  (w, inode + 1).

Definition dump (c : Cpio) : bytes :=
  let '(w, inode) := foldl dump_entry (([], 0), 300000) (entries c) in
  let w := put (header_bytes [inode; 0x1ED; 0; 0; 1; 0; 0; 0; 0; 0; 0; 11; 0]) w in
  let w := put (TRAILER ++ [NUL]) w in
  (pad w).1.

(** ** Operations on names and entries *)

Definition norm_path (path : bytes) : bytes :=
  join (bs "/") (filter (λ x, nonempty x = true) (split_on Byte.x2f path)).

Definition parse_mode (s : bytes) : option Z := from_str_radix_u 32 8 s.

Definition rm (c : Cpio) (path : bytes) (recursive : bool) : Cpio :=
  let path := norm_path path in
  let c := delete path c in
  if recursive
  then filter (λ p, starts_with (path ++ bs "/") p.1 = false) c
  else c.

Definition exists_ (c : Cpio) (path : bytes) : bool :=
  bool_decide (is_Some (c !! norm_path path)).

Definition mkdir (c : Cpio) (md : Z) (dir : bytes) : Cpio :=
  <[norm_path dir := mkEntry (Z.lor md S_IFDIR) 0 0 0 0 []]> c.

Definition ln (c : Cpio) (src dst : bytes) : Cpio :=
  <[norm_path dst := mkEntry S_IFLNK 0 0 0 0 (norm_path src)]> c.

Definition mv (c : Cpio) (from to : bytes) : LoggedResult Cpio :=
  match c !! norm_path from with
  | None => Err tt
  | Some entry => Ok (<[norm_path to := entry]> (delete (norm_path from) c))
  end.

(** ** Parsing terminates *)

Lemma slice_Ok_len {E A} i j (l : list A) s : slice (E:=E) i j l = Ok s → 0 ≤ i ≤ j ∧ j ≤ len l.
Proof. unfold slice. destruct (_ && _) eqn:H; [lia|done]. Qed.

Lemma slice_not_NoFuel {E A} i j (l : list A) : slice (E:=E) i j l ≠ NoFuel.
Proof. unfold slice. by destruct (_ && _). Qed.

Lemma to_digit_nonneg r c d : to_digit r c = Some d → 0 ≤ d.
Proof.
  unfold to_digit, in_range.
  repeat match goal with |- context [if ?b then _ else _] => destruct b eqn:? end;
    intros; simplify_eq; lia.
Qed.

Lemma digits_val_nonneg r acc s v : 0 ≤ r → 0 ≤ acc → digits_val r acc s = Some v → 0 ≤ v.
Proof.
  intros Hr. revert acc. induction s as [|c s IH]; simpl; intros acc Ha; [congruence|].
  destruct (to_digit r c) as [d|] eqn:Hd; [|done]. apply to_digit_nonneg in Hd.
  apply IH. lia.
Qed.

Lemma x8u_nonneg x v : x8u x = Ok v → 0 ≤ v.
Proof.
  unfold x8u, of_option. destruct (digits_val 16 0 x) eqn:H; [|done]. intros [= <-].
  eapply digits_val_nonneg, H; lia.
Qed.

Lemma x8u_not_NoFuel x : x8u x ≠ NoFuel.
Proof. unfold x8u. by destruct digits_val. Qed.

Lemma name_of_not_NoFuel raw : name_of raw ≠ NoFuel.
Proof.
  unfold name_of, from_bytes, from_cstr. destruct until_nul; [|done].
  destruct (_ =? _)%nat; [|done]. by destruct utf8_valid.
Qed.

Lemma bind_not_NoFuel {E A B} (m : res E A) (f : A → res E B) :
  m ≠ NoFuel → (∀ a, m = Ok a → f a ≠ NoFuel) → mbind f m ≠ NoFuel.
Proof. destruct m; simpl; auto. Qed.

#[local] Hint Resolve slice_not_NoFuel x8u_not_NoFuel name_of_not_NoFuel bind_not_NoFuel : magisk.

Lemma load_head_not_NoFuel data pos : load_head data pos ≠ NoFuel.
Proof.
  unfold load_head. apply bind_not_NoFuel; [auto with magisk|]. intros h _.
  case_bool_decide; simpl; [|done]. repeat (apply bind_not_NoFuel; [auto with magisk|]; intros ? _).
  done.
Qed.

Lemma load_entry_not_NoFuel data hdr pos : load_entry data hdr pos ≠ NoFuel.
Proof.
  unfold load_entry. repeat (apply bind_not_NoFuel; [auto with magisk|]; intros ? _). done.
Qed.

Lemma load_head_pos data pos hdr name pos' :
  load_head data pos = Ok (hdr, name, pos') → pos + hdr_sz ≤ pos'.
Proof.
  unfold load_head. intros H. inv_bind. destruct (negb _); [done|]. inv_bind. simplify_eq.
  apply x8u_nonneg in H1.
  match goal with |- context [align_4 ?x] => pose proof (align_4_bounds x) end. lia.
Qed.

Lemma load_entry_pos data hdr pos e pos' :
  load_entry data hdr pos = Ok (e, pos') → pos ≤ pos'.
Proof.
  unfold load_entry. intros H. inv_bind. simplify_eq. apply x8u_nonneg in H0.
  match goal with |- context [align_4 ?x] => pose proof (align_4_bounds x) end. lia.
Qed.

Lemma load_loop_total fuel data pos c :
  0 ≤ pos → (Z.to_nat (len data - pos) < fuel)%nat → load_loop fuel data pos c ≠ NoFuel.
Proof.
  revert pos c. induction fuel as [|fuel IH]; intros pos c Hp Hf; [lia|]. cbn [load_loop].
  destruct (Z.ltb_spec pos (len data)) as [Hlt|]; [|done].
  assert (IHn : ∀ pos' c', pos + hdr_sz ≤ pos' → load_loop fuel data pos' c' ≠ NoFuel).
  { intros pos' c' Hp'. unfold hdr_sz in *. apply IH; lia. }
  apply bind_not_NoFuel; [apply load_head_not_NoFuel|].
  intros [[hdr name] pos1] H1%load_head_pos.
  destruct (_ || _); [by apply IHn|]. case_bool_decide.
  - apply bind_not_NoFuel; [auto with magisk|]. intros rest _.
    destruct (find CPIO_MAGIC rest) as [x|] eqn:E5; [|done].
    apply find_range in E5. apply IHn. lia.
  - apply bind_not_NoFuel; [apply load_entry_not_NoFuel|].
    intros [e pos2] H2%load_entry_pos. apply IHn. lia.
Qed.

(** Parsing always comes to an end: whatever the data, [load_from_data] is an
    archive, an error or a panic within one turn per byte. *)
Theorem load_total data : load_from_data data ≠ NoFuel.
Proof. apply load_loop_total; unfold len; lia. Qed.

(** ** What [dump] writes *)

Definition u32 (z : Z) : Prop := 0 ≤ z < 2 ^ 32.

(** A name an archive can carry: a [Utf8CStr] that is not one of the three the parser skips. *)
Definition valid_name (name : bytes) : Prop :=
  NUL ∉ name ∧ utf8_valid name = true ∧
  name ≠ bs "." ∧ name ≠ bs ".." ∧ name ≠ TRAILER ∧ u32 (len name + 1).

(** Fields that fit in the eight digits of the header. *)
Definition valid_entry (e : CpioEntry) : Prop :=
  u32 (mode e) ∧ u32 (uid e) ∧ u32 (gid e) ∧ u32 (rdevmajor e) ∧ u32 (rdevminor e) ∧
  u32 (len (data e)).

Definition valid_pair (p : bytes * CpioEntry) : Prop := valid_name p.1 ∧ valid_entry p.2.

(** An archive [dump] can write back: inode numbers included. *)
Definition valid_cpio (c : Cpio) : Prop :=
  map_Forall (λ name e, valid_name name ∧ valid_entry e) c ∧
  300000 + Z.of_nat (size c) < 2 ^ 32.

Definition aligned (s : bytes) : Prop := len s mod 4 = 0.

(** Padding up to the next multiple of four. *)
Definition pad4 (s : bytes) : bytes := s ++ zeros (align_4 (len s) - len s).

Definition record (inode : Z) (p : bytes * CpioEntry) : bytes :=
  let '(name, e) := p in
  pad4 (header_bytes [inode; mode e; uid e; gid e; 1; 0; len (data e); 0; 0;
                      rdevmajor e; rdevminor e; len name + 1; 0] ++ as_bytes_with_nul name) ++
  pad4 (data e).

Fixpoint records (inode : Z) (l : list (bytes * CpioEntry)) : bytes :=
  match l with [] => [] | p :: l => record inode p ++ records (inode + 1) l end.

Definition trailer (inode : Z) : bytes :=
  pad4 (header_bytes [inode; 0x1ED; 0; 0; 1; 0; 0; 0; 0; 0; 0; 11; 0] ++ as_bytes_with_nul TRAILER).

Lemma len_pad4 s : len (pad4 s) = align_4 (len s).
Proof.
  unfold pad4. rewrite len_app, len_zeros; [lia|]. pose proof (align_4_bounds (len s)). lia.
Qed.

Lemma aligned_pad4 s : aligned (pad4 s).
Proof. unfold aligned. rewrite len_pad4. apply align_4_mod. Qed.

Lemma aligned_app s t : aligned s → aligned t → aligned (s ++ t).
Proof. unfold aligned. rewrite len_app. intros. rewrite Z.add_mod by lia. by rewrite H, H0. Qed.

Lemma aligned_record i p : aligned (record i p).
Proof. destruct p. apply aligned_app; apply aligned_pad4. Qed.

Lemma aligned_records i l : aligned (records i l).
Proof.
  revert i. induction l; intros i; [done|]. apply aligned_app; [apply aligned_record|auto].
Qed.

Lemma align_4_id z : z mod 4 = 0 → align_4 z = z.
Proof. intros H. replace z with (z + 0) by lia. rewrite align_4_add by done. by vm_compute. Qed.

(** Padding behind an aligned prefix pads the suffix. *)
Lemma pad_app f s : aligned f → pad (f ++ s, len f + len s) = (f ++ pad4 s, len (f ++ pad4 s)).
Proof.
  intros Hf. unfold pad, pad4. cbn [fst snd]. rewrite align_4_add by done.
  replace (len f + align_4 (len s) - (len f + len s)) with (align_4 (len s) - len s) by lia.
  rewrite <- app_assoc. f_equal.
  rewrite !len_app, len_zeros; pose proof (align_4_bounds (len s)); lia.
Qed.

Lemma dump_entry_record f inode p : aligned f →
  dump_entry ((f, len f), inode) p = ((f ++ record inode p, len (f ++ record inode p)), inode + 1).
Proof.
  intros Hf. destruct p as [name e]. unfold dump_entry, record, put, as_bytes_with_nul.
  cbn [fst snd]. set (h := header_bytes _). rewrite <- !app_assoc.
  replace (len f + len h + len name + len [NUL]) with (len f + len (h ++ name ++ [NUL]))
    by (rewrite !len_app; lia).
  rewrite (pad_app f (h ++ name ++ [NUL])) by done. cbn [fst snd].
  set (f' := f ++ pad4 _). assert (aligned f') by (apply aligned_app; [done|apply aligned_pad4]).
  rewrite pad_app by done. unfold f'. by rewrite <- !app_assoc.
Qed.

Lemma foldl_dump_records l f inode : aligned f →
  foldl dump_entry ((f, len f), inode) l =
  ((f ++ records inode l, len (f ++ records inode l)), inode + Z.of_nat (length l)).
Proof.
  revert f inode. induction l as [|p l IH]; intros f inode Hf; cbn [foldl records length].
  - rewrite app_nil_r, Z.add_0_r. done.
  - rewrite dump_entry_record, IH by (try apply aligned_app; auto using aligned_record).
    rewrite <- app_assoc. f_equal. lia.
Qed.

Lemma length_entries (c : Cpio) : length (entries c) = size c.
Proof. rewrite (Permutation_length (entries_perm c)). apply length_map_to_list. Qed.

(** The bytes of an archive: its records in name order, then the trailer. *)
Lemma dump_records c :
  dump c = records 300000 (entries c) ++ trailer (300000 + Z.of_nat (size c)).
Proof.
  unfold dump. pose proof (foldl_dump_records (entries c) [] 300000 eq_refl) as H.
  change (len []) with 0 in H. rewrite H. cbn [app].
  unfold put. cbn [fst snd]. rewrite length_entries, <- Z.add_assoc, <- len_app, <- app_assoc.
  rewrite pad_app by apply aligned_records. done.
Qed.

(** ** Parsing what was written *)

Lemma slice_at {E A} i j (l p m s : list A) :
  i = len p → j = len p + len m → l = p ++ m ++ s → slice (E:=E) i j l = Ok m.
Proof. intros -> -> ->. apply slice_app. Qed.

Lemma length_hex8 z : u32 z → length (fmt_hex false 8 z) = 8%nat.
Proof. intros Hz. rewrite fmt_hex_fixed by (done || lia). apply length_hex_fixed. Qed.

Lemma x8u_hex8 z : u32 z → x8u (fmt_hex false 8 z) = Ok z.
Proof.
  intros Hz. unfold x8u. rewrite fmt_hex_fixed by (done || lia).
  rewrite digits_val_hex by apply Hz. cbn [of_option]. rewrite Z.mod_small by apply Hz. done.
Qed.

Lemma length_fields l : Forall u32 l → length (concat (map (fmt_hex false 8) l)) = (8 * length l)%nat.
Proof.
  induction 1 as [|z l Hz _ IH]; simpl; [done|]. rewrite length_app, IH, length_hex8 by done. lia.
Qed.

Lemma field_at l i z : Forall u32 l → l !! i = Some z →
  take 8 (drop (6 + 8 * i) (header_bytes l)) = fmt_hex false 8 z.
Proof.
  intros Hl Hi. unfold header_bytes. rewrite <- drop_drop.
  change (drop 6 (CPIO_MAGIC ++ ?x)) with x.
  revert i Hi. induction Hl as [|y l Hy Hl IH]; intros [|i] Hi; try done;
    cbn [lookup list_lookup map concat] in *.
  - injection Hi as ->. rewrite Nat.mul_0_r, drop_0, take_app_length' by (by rewrite length_hex8).
    done.
  - rewrite <- (IH i Hi). f_equal.
    replace (8 * S i)%nat with (8 + 8 * i)%nat by lia. rewrite <- drop_drop.
    by rewrite drop_app_length' by (by rewrite length_hex8).
Qed.

Lemma len_header l : Forall u32 l → length l = 13%nat → len (header_bytes l) = hdr_sz.
Proof.
  intros Hl H. unfold header_bytes. rewrite len_app. unfold len at 2. by rewrite length_fields, H.
Qed.

Lemma load_head_ok pre l name rest :
  aligned pre → Forall u32 l → length l = 13%nat → l !! 11%nat = Some (len name + 1) →
  NUL ∉ name → utf8_valid name = true →
  let h := pad4 (header_bytes l ++ as_bytes_with_nul name) in
  load_head (pre ++ h ++ rest) (len pre) = Ok (header_of (header_bytes l), name, len (pre ++ h)).
Proof.
  intros Hpre Hl Hlen Hn Hnul Hutf h. pose proof (len_header l Hl Hlen) as Hh.
  assert (len (as_bytes_with_nul name) = len name + 1) as Hr
    by (unfold as_bytes_with_nul; by rewrite len_app).
  unfold load_head. rewrite (slice_at _ _ _ pre (header_bytes l) (as_bytes_with_nul name ++
    zeros (align_4 (len (header_bytes l ++ as_bytes_with_nul name)) -
           len (header_bytes l ++ as_bytes_with_nul name)) ++ rest));
    [|done|by rewrite Hh|by unfold h, pad4; rewrite <- !app_assoc].
  cbn [mbind res_bind]. rewrite bool_decide_true by done. cbn [negb].
  change (namesize (header_of ?h)) with (take 8 (drop (6 + 8 * 11) h)).
  rewrite (field_at l 11 _ Hl Hn), x8u_hex8 by (eapply Forall_lookup_1 in Hl; [exact Hl|done]).
  cbn [mbind res_bind]. rewrite (slice_at _ _ _ (pre ++ header_bytes l) (as_bytes_with_nul name)
    (zeros (align_4 (len (header_bytes l ++ as_bytes_with_nul name)) -
           len (header_bytes l ++ as_bytes_with_nul name)) ++ rest));
    [|rewrite len_app; lia|rewrite len_app; lia|by unfold h, pad4; rewrite <- !app_assoc].
  cbn [mbind res_bind]. unfold name_of. rewrite (proj2 (from_bytes_Ok _ name)) by done.
  cbn [mbind res_bind]. do 2 f_equal. unfold h. rewrite len_app, len_pad4, len_app, Hh, Hr.
  rewrite <- align_4_add by done. f_equal. lia.
Qed.

Lemma load_entry_ok pre l e rest :
  aligned pre → Forall u32 l → length l = 13%nat →
  l !! 1%nat = Some (mode e) → l !! 2%nat = Some (uid e) → l !! 3%nat = Some (gid e) →
  l !! 6%nat = Some (len (data e)) → l !! 9%nat = Some (rdevmajor e) →
  l !! 10%nat = Some (rdevminor e) →
  load_entry (pre ++ pad4 (data e) ++ rest) (header_of (header_bytes l)) (len pre) =
  Ok (e, len (pre ++ pad4 (data e))).
Proof.
  intros Hpre Hl Hlen H1 H2 H3 H6 H9 H10. unfold load_entry.
  assert (∀ i z, l !! i = Some z → x8u (take 8 (drop (6 + 8 * i) (header_bytes l))) = Ok z) as Hx.
  { intros i z Hi. rewrite (field_at l i z Hl Hi). apply x8u_hex8. by eapply Forall_lookup_1 in Hl. }
  change (filesize (header_of ?h)) with (take 8 (drop (6 + 8 * 6) h)).
  change (h_mode (header_of ?h)) with (take 8 (drop (6 + 8 * 1) h)).
  change (h_uid (header_of ?h)) with (take 8 (drop (6 + 8 * 2) h)).
  change (h_gid (header_of ?h)) with (take 8 (drop (6 + 8 * 3) h)).
  change (h_rdevmajor (header_of ?h)) with (take 8 (drop (6 + 8 * 9) h)).
  change (h_rdevminor (header_of ?h)) with (take 8 (drop (6 + 8 * 10) h)).
  rewrite (Hx 6%nat _ H6), (Hx 1%nat _ H1), (Hx 2%nat _ H2), (Hx 3%nat _ H3), (Hx 9%nat _ H9),
    (Hx 10%nat _ H10).
  cbn [mbind res_bind]. rewrite (slice_at _ _ _ pre (data e)
    (zeros (align_4 (len (data e)) - len (data e)) ++ rest));
    [|done|done|by unfold pad4; rewrite <- !app_assoc].
  cbn [mbind res_bind]. rewrite align_4_add, len_app, len_pad4 by done. by destruct e.
Qed.

Lemma valid_fields inode name e : u32 inode → valid_pair (name, e) →
  Forall u32 [inode; mode e; uid e; gid e; 1; 0; len (data e); 0; 0;
              rdevmajor e; rdevminor e; len name + 1; 0].
Proof.
  intros Hi [(_ & _ & _ & _ & _ & Hn) (? & ? & ? & ? & ? & ?)].
  rewrite !Forall_cons, Forall_nil. unfold u32 in *. simpl in *. split_and!; lia || done.
Qed.

(** One turn of the loop on one record. *)
Lemma load_record fuel pre inode name e rest c :
  aligned pre → u32 inode → valid_pair (name, e) →
  let r := record inode (name, e) in
  load_loop (S fuel) (pre ++ r ++ rest) (len pre) c =
  load_loop fuel (pre ++ r ++ rest) (len (pre ++ r)) (<[name := e]> c).
Proof.
  intros Hpre Hi Hv r. pose proof (valid_fields inode name e Hi Hv) as Hl.
  destruct Hv as [(Hnul & Hutf & Hd & Hdd & Ht & Hn) He]. cbn [fst snd] in *.
  set (l := [inode; mode e; uid e; gid e; 1; 0; len (data e); 0; 0;
             rdevmajor e; rdevminor e; len name + 1; 0]) in *.
  set (h := pad4 (header_bytes l ++ as_bytes_with_nul name)).
  assert (pre ++ r ++ rest = pre ++ h ++ pad4 (data e) ++ rest) as Hdata
    by (unfold r, record, h, l; by rewrite <- app_assoc).
  assert (len pre < len (pre ++ r ++ rest)) as Hlt.
  { rewrite Hdata, !len_app. unfold h. rewrite len_pad4.
    pose proof (align_4_bounds (len (header_bytes l ++ as_bytes_with_nul name))).
    rewrite len_app, (len_header l Hl) in * by done. unfold hdr_sz in *.
    pose proof (len_nonneg (as_bytes_with_nul name)). pose proof (len_nonneg (pad4 (data e))).
    pose proof (len_nonneg rest). lia. }
  cbn [load_loop]. destruct (Z.ltb_spec (len pre) (len (pre ++ r ++ rest))); [|lia].
  rewrite Hdata. rewrite (load_head_ok pre l name) by done. fold h. cbn [mbind res_bind].
  rewrite !bool_decide_false by done. cbn [orb]. rewrite !(app_assoc pre h).
  rewrite (load_entry_ok (pre ++ h) l e)
    by (done || (apply aligned_app; [done|apply aligned_pad4])).
  cbn [mbind res_bind]. f_equal. unfold r, record, h, l. by rewrite <- !app_assoc.
Qed.

Lemma load_records fuel pre inode l rest c :
  aligned pre → Forall valid_pair l → 0 ≤ inode → inode + Z.of_nat (length l) < 2 ^ 32 →
  let r := records inode l in
  load_loop (length l + fuel) (pre ++ r ++ rest) (len pre) c =
  load_loop fuel (pre ++ r ++ rest) (len (pre ++ r)) (insert_all l c).
Proof.
  revert pre inode c. induction l as [|[name e] l IH]; intros pre inode c Hpre Hl Hi Hs r.
  { unfold r. simpl. by rewrite app_nil_r. }
  apply Forall_cons in Hl as [Hp Hl]. unfold r. cbn [records length Nat.add] in *.
  rewrite <- (app_assoc (record inode (name, e))), load_record, app_assoc by
    (done || (unfold u32; lia)).
  rewrite (app_assoc pre), IH by
    (done || lia || (apply aligned_app; [done|apply aligned_record])).
  by rewrite <- !app_assoc.
Qed.

Lemma load_trailer fuel pre inode rest c :
  aligned pre → u32 inode →
  let t := trailer inode in
  load_loop (S fuel) (pre ++ t ++ rest) (len pre) c =
  match find CPIO_MAGIC rest with
  | Some x => load_loop fuel (pre ++ t ++ rest) (len (pre ++ t) + x) c
  | None => Ok c
  end.
Proof.
  intros Hpre Hi t. set (l := [inode; 0x1ED; 0; 0; 1; 0; 0; 0; 0; 0; 0; 11; 0]).
  assert (Forall u32 l) as Hl.
  { unfold l. rewrite !Forall_cons, Forall_nil. unfold u32 in *. split_and!; lia || done. }
  assert (0 < len t) as Ht.
  { unfold t, trailer. fold l. rewrite len_pad4, len_app, (len_header l Hl) by done. done. }
  assert (len pre < len (pre ++ t ++ rest)) as Hlt
    by (rewrite !len_app; pose proof (len_nonneg rest); lia).
  cbn [load_loop]. destruct (Z.ltb_spec (len pre) (len (pre ++ t ++ rest))); [|lia].
  unfold t at 1, trailer. fold l. rewrite (load_head_ok pre l TRAILER) by
    (done || (apply (bool_decide_unpack _); vm_compute; exact I)).
  cbn [mbind res_bind]. rewrite !(bool_decide_false (TRAILER = _)) by done. cbn [orb].
  rewrite bool_decide_true by done. fold (trailer inode). fold t.
  rewrite (slice_at _ _ _ (pre ++ t) rest []);
    [done|done|by rewrite !len_app; lia|by rewrite app_nil_r, <- app_assoc].
Qed.

(** *** Searching the next archive *)

Lemma find_zeros n s : 0 ≤ n → find CPIO_MAGIC s = None → find CPIO_MAGIC (zeros n ++ s) = None.
Proof.
  intros _ Hs. unfold zeros. induction (Z.to_nat n) as [|k IH]; [done|]. simpl in *. by rewrite IH.
Qed.

Lemma find_zeros_magic n s : 0 ≤ n → find CPIO_MAGIC (zeros n ++ CPIO_MAGIC ++ s) = Some n.
Proof.
  intros Hn. unfold zeros. rewrite <- (Z2Nat.id n) at 2 by done.
  induction (Z.to_nat n) as [|k IH]; [done|].
  change (replicate (S k) Byte.x00) with (Byte.x00 :: replicate k Byte.x00).
  simpl in *. rewrite IH. simpl. f_equal. lia.
Qed.

Lemma dump_magic c : ∃ s, dump c = CPIO_MAGIC ++ s.
Proof.
  rewrite dump_records. destruct (entries c) as [|[name e] l]; cbn [records]; eexists.
  - unfold trailer, pad4, header_bytes. rewrite <- !app_assoc. done.
  - unfold record, pad4, header_bytes. rewrite <- !app_assoc. done.
Qed.

Lemma valid_entries c : valid_cpio c → Forall valid_pair (entries c).
Proof.
  intros [Hc _]. apply Forall_forall. intros [k e] H%elem_of_entries. by apply (Hc k e).
Qed.

Lemma aligned_dump c : aligned (dump c).
Proof. rewrite dump_records. apply aligned_app; [apply aligned_records|apply aligned_pad4]. Qed.

(** A whole archive inside the data: its entries are inserted, and the search for
    the next one starts behind it. *)
Lemma load_dump_at fuel pre c rest m :
  aligned pre → valid_cpio c →
  load_loop (size c + S fuel) (pre ++ dump c ++ rest) (len pre) m =
  match find CPIO_MAGIC rest with
  | Some x => load_loop fuel (pre ++ dump c ++ rest) (len (pre ++ dump c) + x) (c ∪ m)
  | None => Ok (c ∪ m)
  end.
Proof.
  intros Hpre Hv. pose proof (valid_entries c Hv) as Hl. destruct Hv as [_ Hs].
  rewrite dump_records. rewrite <- length_entries in *. set (l := entries c) in *.
  rewrite <- (app_assoc (records 300000 l)), load_records by (done || lia).
  rewrite (app_assoc pre (records 300000 l)), load_trailer;
    [|apply aligned_app; [done|apply aligned_records]|unfold u32; lia].
  assert (insert_all l m = c ∪ m) as ->.
  { unfold l. by rewrite insert_all_list_to_map, list_to_map_entries by apply entries_NoDup_keys. }
  by rewrite <- !app_assoc.
Qed.

Lemma length_record i p : (1 ≤ length (record i p))%nat.
Proof.
  destruct p as [name e]. unfold record, pad4, header_bytes, CPIO_MAGIC. simpl. lia.
Qed.

Lemma size_dump c : (size c + 1 ≤ length (dump c))%nat.
Proof.
  rewrite dump_records, length_app, <- length_entries.
  assert (1 ≤ length (trailer (300000 + Z.of_nat (length (entries c)))))%nat
    by (unfold trailer, pad4, header_bytes, CPIO_MAGIC; simpl; lia).
  enough (∀ i l, length l ≤ length (records i l))%nat by (specialize (H0 300000 (entries c)); lia).
  intros i l. revert i. induction l as [|p l IH]; intros i; cbn [records length]; [lia|].
  rewrite length_app. pose proof (length_record i p). specialize (IH (i + 1)). lia.
Qed.

Lemma find_zeros_end n : 0 ≤ n → find CPIO_MAGIC (zeros n) = None.
Proof. intros Hn. rewrite <- (app_nil_r (zeros n)). by apply find_zeros. Qed.

(** C4: writing an archive and parsing it gives the same archive, whatever zero
    padding stands behind it. *)
Theorem load_dump c k : valid_cpio c → 0 ≤ k → load_from_data (dump c ++ zeros k) = Ok c.
Proof.
  intros Hc Hk. unfold load_from_data. pose proof (size_dump c) as Hs.
  replace (S (length (dump c ++ zeros k)))
    with (size c + S (length (dump c ++ zeros k) - size c))%nat by (rewrite length_app; lia).
  rewrite (load_dump_at _ [] c (zeros k) ∅ eq_refl Hc), find_zeros_end by done.
  by rewrite (right_id_L ∅ (∪)).
Qed.

(** Archives may follow one another behind zero padding, as in a ramdisk:
    parsing collects the entries of both, the later ones replacing the earlier. *)
Theorem load_dump_concat a b k k' :
  valid_cpio a → valid_cpio b → 0 ≤ k → k mod 4 = 0 → 0 ≤ k' →
  load_from_data (dump a ++ zeros k ++ dump b ++ zeros k') = Ok (b ∪ a).
Proof.
  intros Ha Hb Hk Hk4 Hk'. unfold load_from_data.
  set (data := dump a ++ _). pose proof (size_dump a). pose proof (size_dump b).
  assert (length (dump a) + length (dump b) ≤ length data)%nat
    by (unfold data; rewrite !length_app; lia).
  replace (S (length data))
    with (size a + S (size b + S (length data - size a - size b - 1)))%nat by lia.
  pose proof (load_dump_at (size b + S (length data - size a - size b - 1)) [] a
    (zeros k ++ dump b ++ zeros k') ∅ eq_refl Ha) as E.
  cbn [app] in E. fold data in E. change (len []) with 0 in E. rewrite E, (right_id_L ∅ (∪)).
  destruct (dump_magic b) as [s Hs].
  rewrite Hs at 1. rewrite <- app_assoc, find_zeros_magic by done. clear E.
  unfold data at 2. rewrite (app_assoc (dump a)).
  replace (len (dump a) + k) with (len (dump a ++ zeros k)) by (rewrite len_app, len_zeros; lia).
  rewrite load_dump_at, find_zeros_end; [done|done| |done].
  apply aligned_app; [apply aligned_dump|]. unfold aligned. by rewrite len_zeros.
Qed.

(** Data that stops inside a header is not reported as an error: the slice
    panics, wherever in the archive the cut is. *)
Theorem load_truncated_panics c s :
  valid_cpio c → s ≠ [] → len s < hdr_sz →
  load_from_data (records 300000 (entries c) ++ s) = Panic.
Proof.
  intros Hc Hs Hl. pose proof (valid_entries c Hc) as Hv. destruct Hc as [_ Hn].
  rewrite <- length_entries in Hn. set (l := entries c) in *. unfold load_from_data.
  assert (length l ≤ length (records 300000 l))%nat as Hlen.
  { generalize 300000. clear. induction l as [|p l IH]; intros i; cbn [records length]; [lia|].
    rewrite length_app. pose proof (length_record i p). specialize (IH (i + 1)). lia. }
  replace (S (length (records 300000 l ++ s)))
    with (length l + S (length (records 300000 l ++ s) - length l))%nat by (rewrite length_app; lia).
  pose proof (load_records (S (length (records 300000 l ++ s) - length l)) [] 300000 l s ∅ eq_refl
    Hv ltac:(lia) ltac:(lia)) as E.
  cbn [app] in E. change (len []) with 0 in E. rewrite E. cbn [load_loop].
  assert (0 < len s) by (destruct s; [done|rewrite len_cons; pose proof (len_nonneg s); lia]).
  rewrite len_app. destruct (Z.ltb_spec (len (records 300000 l)) (len (records 300000 l) + len s));
    [|lia].
  unfold load_head, slice. rewrite len_app.
  destruct (Z.leb_spec (len (records 300000 l) + hdr_sz) (len (records 300000 l) + len s)); [lia|].
  by rewrite andb_false_r.
Qed.

(** ** Names *)

(** The components of a path. *)
Definition components (path : bytes) : list bytes :=
  filter (λ x, nonempty x = true) (split_on Byte.x2f path).

Lemma split_on_join c ps : ps ≠ [] → Forall (λ p, c ∉ p) ps → split_on c (join [c] ps) = ps.
Proof.
  induction ps as [|p ps IH]; intros Hne Hps; [done|].
  apply Forall_cons in Hps as [Hp Hps]. destruct ps as [|q ps].
  - by apply split_on_no_occ.
  - change (join [c] (p :: q :: ps)) with (p ++ c :: join [c] (q :: ps)).
    rewrite split_on_app_sep by done. by rewrite IH.
Qed.

Lemma components_ok path : Forall (λ p, Byte.x2f ∉ p ∧ nonempty p = true) (components path).
Proof.
  apply Forall_forall. intros p [Hp Hin]%list_elem_of_filter.
  split; [by eapply split_on_no_sep|done].
Qed.

Lemma components_norm path : components (norm_path path) = components path.
Proof.
  unfold norm_path. fold (components path). pose proof (components_ok path) as H.
  destruct (components path) as [|p ps] eqn:E; [done|].
  unfold components at 1. change (bs "/") with [Byte.x2f].
  rewrite split_on_join; [|done|by eapply Forall_impl; [exact H|]; intros ? []].
  rewrite filter_all; [done|]. by eapply Forall_impl; [exact H|]; intros ? [].
Qed.

Lemma norm_path_components path : norm_path path = join (bs "/") (components path).
Proof. done. Qed.

(** [norm_path] is the canonical spelling of a path: it is idempotent and
    two paths get the same one exactly when they have the same components. *)
Theorem norm_path_canonical p q :
  norm_path (norm_path p) = norm_path p ∧
  (norm_path p = norm_path q ↔ components p = components q).
Proof.
  split; [by rewrite (norm_path_components (norm_path p)), components_norm|].
  split; [|by rewrite !norm_path_components; intros ->].
  intros H. by rewrite <- (components_norm p), H, components_norm.
Qed.

Lemma join_app (sep : bytes) ps qs : ps ≠ [] → qs ≠ [] →
  join sep (ps ++ qs) = join sep ps ++ sep ++ join sep qs.
Proof.
  intros Hp Hq. induction ps as [|p ps IH]; [done|]. destruct ps as [|p' ps]; simpl in *.
  - by destruct qs.
  - rewrite IH by done. by rewrite <- !app_assoc.
Qed.

(** A normalized name stands below a path when its components continue the path's. *)
Lemma starts_with_components path k :
  norm_path k = k → components path ≠ [] →
  starts_with (norm_path path ++ bs "/") k = true ↔
  ∃ r, r ≠ [] ∧ components k = components path ++ r.
Proof.
  intros Hk Hp. rewrite starts_with_spec. split.
  - intros [r Hr]. pose proof (components_ok path) as Hok.
    assert (components k = components path ++ components r) as Hc.
    { rewrite Hr, <- app_assoc. unfold components at 1. rewrite norm_path_components.
      clear Hr Hk. remember (components path) as ps eqn:E. clear E.
      induction ps as [|p ps IH]; [done|]. apply Forall_cons in Hok as [[Hp1 Hp2] Hok].
      destruct ps as [|q ps].
      - cbn [join bs app]. change (bs "/" ++ r) with (Byte.x2f :: r).
        rewrite split_on_app_sep by done. by rewrite filter_cons_True.
      - change (join (bs "/") (p :: q :: ps)) with (p ++ Byte.x2f :: join (bs "/") (q :: ps)).
        rewrite <- app_assoc. cbn [app]. rewrite split_on_app_sep by done.
        rewrite filter_cons_True by done. cbn [app]. f_equal. by apply IH. }
    exists (components r). split; [|done]. intros Hr0. rewrite Hr0, app_nil_r in Hc.
    assert (norm_path k = norm_path path) as E by (by rewrite !norm_path_components, Hc).
    rewrite Hk, Hr in E. apply (f_equal length) in E. rewrite !length_app in E. simpl in E. lia.
  - intros (r & Hr & Hc). exists (join (bs "/") r).
    by rewrite <- Hk, !norm_path_components, Hc, join_app, <- app_assoc.
Qed.

(** The names of an archive edited by these operations alone. *)
Definition normalized (c : Cpio) : Prop := map_Forall (λ k _, norm_path k = k) c.

(** [rm] removes exactly the entry at the path and, when recursive, the
    entries whose components continue it; everything else stays as it is. *)
Theorem rm_spec c path recursive k e :
  normalized c → components path ≠ [] →
  rm c path recursive !! k = Some e ↔
  c !! k = Some e ∧ components k ≠ components path ∧
  (recursive = true → ¬ ∃ r, r ≠ [] ∧ components k = components path ++ r).
Proof.
  intros Hc Hp. unfold rm.
  assert (c !! k = Some e → norm_path path ≠ k ↔ components k ≠ components path) as Hk.
  { intros H%Hc. rewrite <- H at 1. rewrite (proj2 (norm_path_canonical path k)). done. }
  destruct recursive.
  - rewrite map_lookup_filter_Some, lookup_delete_Some. cbn [fst].
    split.
    + intros [[Hne He] Hs]. split_and!; [done|by apply Hk|]. intros _ H.
      apply starts_with_components in H; [congruence|by apply (Hc k e)|done].
    + intros (He & Hne & Hs). split_and!; [by apply Hk|done|].
      destruct starts_with eqn:E; [|done].
      apply starts_with_components in E; [|by apply (Hc k e)|done]. by destruct Hs.
  - rewrite lookup_delete_Some. split.
    + intros [Hne He]. split_and!; [done|by apply Hk|done].
    + intros (He & Hne & _). split; [by apply Hk|done].
Qed.

Lemma normalized_insert c k e : normalized c → norm_path k = k → normalized (<[k := e]> c).
Proof. intros. by apply map_Forall_insert_2. Qed.

Lemma norm_path_idemp p : norm_path (norm_path p) = norm_path p.
Proof. by rewrite (norm_path_components (norm_path p)), components_norm. Qed.

#[export] Hint Resolve norm_path_idemp normalized_insert : magisk.

(** The commands that edit an archive. *)
Inductive Edit :=
  | ERm (path : bytes) (recursive : bool)
  | EMkdir (md : Z) (dir : bytes)
  | ELn (src dst : bytes)
  | EMv (from to : bytes).

Definition edit (c : Cpio) (o : Edit) : LoggedResult Cpio :=
  match o with
  | ERm p r => Ok (rm c p r)
  | EMkdir m d => Ok (mkdir c m d)
  | ELn s d => Ok (ln c s d)
  | EMv f t => mv c f t
  end.

Fixpoint edits (c : Cpio) (os : list Edit) : LoggedResult Cpio :=
  match os with
  | [] => Ok c
  | o :: os => c ← edit c o; edits c os
  end.

Lemma normalized_rm c p r : normalized c → normalized (rm c p r).
Proof.
  intros Hc k e H. unfold rm in H. destruct r.
  - apply map_lookup_filter_Some in H as [[_ H]%lookup_delete_Some _]. by apply (Hc k e).
  - apply lookup_delete_Some in H as [_ H]. by apply (Hc k e).
Qed.

(** The editing commands keep every name canonical; a sequence of them stops
    exactly at a [mv] whose source is missing. *)
Theorem edits_normalized os c :
  normalized c →
  match edits c os with
  | Ok c' => normalized c'
  | Err _ => ∃ os1 from to os2 c1, os = os1 ++ EMv from to :: os2 ∧
      edits c os1 = Ok c1 ∧ c1 !! norm_path from = None
  | Panic | NoFuel => False
  end.
Proof.
  revert c. induction os as [|o os IH]; intros c Hc; cbn [edits]; [done|].
  destruct (edit c o) as [c1|[]| |] eqn:E; cbn [mbind res_bind].
  - assert (normalized c1) as Hc1.
    { destruct o as [p r|m d|s d|f t]; cbn [edit] in E.
      - injection E as <-. by apply normalized_rm.
      - injection E as <-. apply normalized_insert; auto with magisk.
      - injection E as <-. apply normalized_insert; auto with magisk.
      - unfold mv in E. destruct (c !! norm_path f); [|done]. injection E as <-.
        apply normalized_insert; auto with magisk. by apply map_Forall_delete. }
    specialize (IH c1 Hc1). destruct (edits c1 os) as [c2|[]| |]; try done.
    destruct IH as (os1 & f & t & os2 & c2 & -> & He & Hn).
    exists (o :: os1), f, t, os2, c2. cbn [edits app]. rewrite E. done.
  - destruct o as [p r|m d|s d|f t]; cbn [edit] in E; try done.
    exists [], f, t, os, c. split_and!; [done|done|].
    unfold mv in E. by destruct (c !! norm_path f).
  - destruct o as [p r|m d|s d|f t]; cbn [edit] in E; try done. unfold mv in E.
    by destruct (c !! norm_path f).
  - destruct o as [p r|m d|s d|f t]; cbn [edit] in E; try done. unfold mv in E.
    by destruct (c !! norm_path f).
Qed.

(** *** Instances *)

Definition sample_file : CpioEntry := mkEntry 0x81A4 0 2000 0 0 (bs "x=1").
Definition sample : Cpio :=
  <[bs "init" := sample_file]> (<[bs "dev/null" := mkEntry 0x21B6 0 0 1 3 []]> ∅).

#[global] Instance u32_dec z : Decision (u32 z).
Proof. unfold u32. apply _. Defined.
#[global] Instance valid_name_dec n : Decision (valid_name n).
Proof. unfold valid_name. apply _. Defined.
#[global] Instance valid_entry_dec e : Decision (valid_entry e).
Proof. unfold valid_entry. apply _. Defined.
#[global] Instance valid_cpio_dec c : Decision (valid_cpio c).
Proof. unfold valid_cpio. apply _. Defined.
#[global] Instance normalized_dec c : Decision (normalized c).
Proof. unfold normalized. apply _. Defined.

Lemma load_dump_witness : load_from_data (dump sample ++ zeros 512) = Ok sample.
Proof. apply (load_dump sample 512); by_compute. Defined.

Lemma load_dump_concat_witness :
  load_from_data (dump sample ++ zeros 8 ++ dump {[bs "init" := mkEntry 0x41ED 0 0 0 0 []]} ++ zeros 4) =
  Ok ({[bs "init" := mkEntry 0x41ED 0 0 0 0 []]} ∪ sample).
Proof. apply load_dump_concat; by_compute. Defined.

Lemma load_truncated_panics_witness :
  load_from_data (records 300000 (entries sample) ++ bs "070701") = Panic.
Proof. apply (load_truncated_panics sample (bs "070701")); by_compute. Defined.

Lemma rm_spec_witness :
  rm sample (bs "/dev/") true !! bs "dev/null" = None.
Proof.
  destruct (rm sample (bs "/dev/") true !! bs "dev/null") as [e|] eqn:E; [|done]. exfalso.
  apply (rm_spec sample (bs "/dev/") true) in E; [|by_compute|by_compute].
  destruct E as (_ & _ & H). apply (H eq_refl). exists [bs "null"]. by_compute.
Defined.

Lemma edits_normalized_witness :
  match edits sample [ERm (bs "dev") true; EMkdir 0x1ED (bs "/system//bin/"); EMv (bs "init") (bs "sbin/init")] with
  | Ok c => normalized c
  | _ => False
  end.
Proof.
  pose proof (edits_normalized
    [ERm (bs "dev") true; EMkdir 0x1ED (bs "/system//bin/"); EMv (bs "init") (bs "sbin/init")]
    sample ltac:(by_compute)) as H.
  assert (is_ok (edits sample [ERm (bs "dev") true; EMkdir 0x1ED (bs "/system//bin/");
    EMv (bs "init") (bs "sbin/init")]) = true) as E by (vm_compute; reflexivity).
  destruct (edits sample _); [exact H|discriminate E..].
Defined.
