(* ===== verification/CpioPatch.v ===== *)
(** CpioPatch: the ramdisk operations of [native/src/boot/cpio.rs] built on the
    archive: [patch], [test], [backup] and [restore].

    [backup] merges the entries of the original archive and of the current one,
    both in name order, and stores under [.backup/] what is needed to undo the
    changes; [restore] undoes them.  The xz codec of [CpioEntry::compress] and
    [decompress] is a third-party crate: the section's [xz] and [unxz]. *)

From S2P Require Import Prelude Cstr Patch Cpio.

(** ** [Cpio::patch] *)

(** [entry.data.resize(len, 0)] when the length changed. *)
Definition resize (d : bytes) (l : Z) : bytes :=
  take (Z.to_nat l) d ++ zeros (l - len d).

Definition set_data (e : CpioEntry) (d : bytes) : CpioEntry :=
  mkEntry (mode e) (uid e) (gid e) (rdevmajor e) (rdevminor e) d.

Definition is_fstab (keep_verity keep_force_encrypt : bool) (name : bytes) (e : CpioEntry) : bool :=
  (negb keep_verity || negb keep_force_encrypt)
  && is_kind S_IFREG (mode e)
  && negb (starts_with (bs ".backup") name)
  && negb (starts_with (bs "twrp") name)
  && negb (starts_with (bs "recovery") name)
  && starts_with (bs "fstab") name.

(** The closure of [retain]: [None] drops the entry. *)
Definition patch_entry (keep_verity keep_force_encrypt : bool) (name : bytes) (e : CpioEntry) :
    LoggedResult (option CpioEntry) :=
  let fstab := is_fstab keep_verity keep_force_encrypt name e in
  if negb keep_verity && negb fstab && bool_decide (name = bs "verity_key") then Ok None
  else
    e ← (if negb keep_verity && fstab then
           '(d, l) ← patch_verity (data e);
           Ok (set_data e (if l =? len d then d else resize d l))
         else Ok e);
    e ← (if negb keep_force_encrypt && fstab then
           '(d, l) ← patch_encryption (data e);
           Ok (set_data e (if l =? len d then d else resize d l))
         else Ok e);
    Ok (Some e).

(** [BTreeMap::retain]: the entries in order. *)
Fixpoint retain_mut (f : bytes → CpioEntry → LoggedResult (option CpioEntry))
    (l : list (bytes * CpioEntry)) : LoggedResult (list (bytes * CpioEntry)) :=
  match l with
  | [] => Ok []
  | (name, e) :: l =>
      oe ← f name e;
      l' ← retain_mut f l;
      Ok (match oe with Some e' => (name, e') :: l' | None => l' end)
  end.

Definition patch (keep_verity keep_force_encrypt : bool) (c : Cpio) : LoggedResult Cpio :=
  l ← retain_mut (patch_entry keep_verity keep_force_encrypt) (entries c);
  Ok (list_to_map l).

(** ** [Cpio::test] *)

Definition MAGISK_PATCHED : Z := Z.shiftl 1 0.
Definition UNSUPPORTED_CPIO : Z := Z.shiftl 1 1.

Definition test (c : Cpio) : Z :=
  if existsb (exists_ c) (map bs ["sbin/launch_daemonsu.sh"; "sbin/su"; "init.xposed.rc";
                                  "boot/sbin/launch_daemonsu.sh"]%string)
  then UNSUPPORTED_CPIO
  else if existsb (exists_ c) (map bs [".backup/.magisk"; "init.magisk.rc";
                                       "overlay/init.magisk.rc"]%string)
  then MAGISK_PATCHED
  else 0.

Section Xz.
(** The xz encoder at preset 9 and the decoder; [None] is an error. *)
Context (xz unxz : bytes → option bytes).

Definition compress (e : CpioEntry) : CpioEntry * bool :=
  if negb (is_kind S_IFREG (mode e)) then (e, false)
  else match xz (data e) with Some d => (set_data e d, true) | None => (e, false) end.

Definition decompress (e : CpioEntry) : CpioEntry * bool :=
  if negb (is_kind S_IFREG (mode e)) then (e, false)
  else match unxz (data e) with Some d => (set_data e d, true) | None => (e, false) end.

(** ** [Cpio::backup] *)

Inductive Action := Backup (name : bytes) (e : CpioEntry) | Record_ (name : bytes) | Noop.

(** The [match] on both heads: the action and the heads put back; [None] is [break]. *)
Definition merge_step (lhs rhs : option (bytes * CpioEntry)) :
    option (Action * option (bytes * CpioEntry) * option (bytes * CpioEntry)) :=
  match lhs, rhs with
  | Some (ln, le), Some (rn, re) =>
      match bytes_cmp ln rn with
      | Lt => Some (Backup ln le, None, Some (rn, re))
      | Gt => Some (Record_ rn, Some (ln, le), None)
      | Eq => Some (if negb (bool_decide (data re = data le)) then Backup ln le else Noop, None, None)
      end
  | Some (ln, le), None => Some (Backup ln le, None, None)
  | None, Some (rn, _) => Some (Record_ rn, None, None)
  | None, None => None
  end.

Definition backup_name (skip_compress : bool) (name : bytes) (e : CpioEntry) : bytes * CpioEntry :=
  let '(e', done_) := if skip_compress then (e, false) else compress e in
  if done_ then (bs ".backup/" ++ name ++ bs ".xz", e') else (bs ".backup/" ++ name, e').

(** The backups and the removal list. *)
Definition Backups : Type := gmap bytes CpioEntry * bytes.

Definition do_action (skip_compress : bool) (st : Backups) (a : Action) : Backups :=
  match a with
  | Backup name e =>
      let '(backup, e) := backup_name skip_compress name e in (<[backup := e]> st.1, st.2)
  | Record_ name => (st.1, st.2 ++ name ++ [NUL])
  | Noop => st
  end.

(** [if head.is_none() { head = iter.next() }]. *)
Definition refill (head : option (bytes * CpioEntry)) (l : list (bytes * CpioEntry)) :
    option (bytes * CpioEntry) * list (bytes * CpioEntry) :=
  match head, l with
  | None, p :: l => (Some p, l)
  | _, _ => (head, l)
  end.

Fixpoint merge_loop (fuel : nat) (skip_compress : bool)
    (lhs : option (bytes * CpioEntry)) (left_iter : list (bytes * CpioEntry))
    (rhs : option (bytes * CpioEntry)) (right_iter : list (bytes * CpioEntry))
    (st : Backups) : LoggedResult Backups :=
  match fuel with
  | O => NoFuel
  | S fuel =>
      let '(lhs, left_iter) := refill lhs left_iter in
      let '(rhs, right_iter) := refill rhs right_iter in
      match merge_step lhs rhs with
      | None => Ok st
      | Some (a, lhs, rhs) =>
          merge_loop fuel skip_compress lhs left_iter rhs right_iter (do_action skip_compress st a)
      end
  end.

Definition backup_dir : CpioEntry := mkEntry S_IFDIR 0 0 0 0 [].

(** [origin] is what loading the original archive gave. *)
Definition backup (c : Cpio) (origin : LoggedResult Cpio) (skip_compress : bool) : LoggedResult Cpio :=
  o ← origin;
  let o := rm o (bs ".backup") true in
  let c := rm c (bs ".backup") true in
  let '(lhs, left_iter) := refill None (entries o) in
  let '(rhs, right_iter) := refill None (entries c) in
  '(backups, rm_list) ←
    merge_loop (S (length (entries o) + length (entries c))) skip_compress
      lhs left_iter rhs right_iter ({[bs ".backup" := backup_dir]}, []);
  let backups :=
    if bool_decide (rm_list = []) then backups
    else <[bs ".backup/.rmlist" := mkEntry S_IFREG 0 0 0 0 rm_list]> backups in
  Ok (backups ∪ c).

(** ** [Cpio::restore] *)

(** The closure of [for_each] on the extracted entries. *)
Definition collect (st : Backups) (p : bytes * CpioEntry) : Backups :=
  let '(name, e) := p in
  if bool_decide (name = bs ".backup/.rmlist") then
    (st.1, if utf8_valid (data e) then st.2 ++ data e else st.2)
  else if bool_decide (name ≠ bs ".backup/.magisk") then
    let '(e', done_) := if ends_with (bs ".xz") name then decompress e else (e, false) in
    let new_name := if done_ then drop 8 (take (length name - 3) name) else drop 8 name in
    (<[new_name := e']> st.1, st.2)
  else st.

Definition in_backup (p : bytes * CpioEntry) : Prop := starts_with (bs ".backup/") p.1 = true.

Definition restore (c : Cpio) : Cpio :=
  let '(backups, rm_list) := foldl collect (∅, []) (filter in_backup (entries c)) in
  let c := filter (λ p, ¬ in_backup p) c in
  let c := rm c (bs ".backup") false in
  if bool_decide (rm_list = []) && bool_decide (backups = ∅) then ∅
  else
    let c := foldl (λ c r, if bool_decide (r = []) then c else rm c r false) c
               (split_on NUL rm_list) in
    backups ∪ c.

(** ** The merge *)

Abbreviation pairs := (list (bytes * CpioEntry)).

(** The entries of [L] that [R] does not have with the same data. *)
Definition changed (R : pairs) (p : bytes * CpioEntry) : Prop :=
  Forall (λ q, q.1 = p.1 → data q.2 ≠ data p.2) R.
Definition added (L : pairs) (k : bytes) : Prop := k ∉ L.*1.

#[local] Instance changed_dec R p : Decision (changed R p).
Proof. unfold changed. apply _. Defined.
#[local] Instance added_dec L k : Decision (added L k).
Proof. unfold added. apply _. Defined.

Definition to_backup (L R : pairs) : pairs := filter (changed R) L.
Definition to_record (L R : pairs) : list bytes := filter (added L) R.*1.

Definition strict (l : pairs) : Prop := StronglySorted bytes_lt l.*1.

Lemma strict_cons p l : strict (p :: l) → strict l ∧ Forall (λ q, bytes_lt p.1 q.1) l.
Proof.
  unfold strict. cbn [fmap list_fmap]. intros [H1 H2]%StronglySorted_inv.
  split; [done|]. rewrite Forall_fmap in H2. exact H2.
Qed.

Lemma changed_lt R p : Forall (λ q, bytes_lt p.1 q.1) R → changed R p.
Proof.
  intros H. eapply Forall_impl; [exact H|]. intros q Hq E. cbn beta in Hq. rewrite E in Hq.
  by apply bytes_lt_irrefl in Hq.
Qed.

Lemma not_in_lt k (R : pairs) : Forall (λ q, bytes_lt k q.1) R → k ∉ R.*1.
Proof.
  intros H (q & -> & Hin)%list_elem_of_fmap. eapply Forall_forall in H; [|exact Hin].
  by apply bytes_lt_irrefl in H.
Qed.

Lemma lt_trans_all k k' (R : pairs) :
  bytes_lt k k' → Forall (λ q, bytes_lt k' q.1) R → Forall (λ q, bytes_lt k q.1) R.
Proof. intros Hk H. eapply Forall_impl; [exact H|]. intros q. by apply bytes_lt_trans. Qed.

(** A head of [R] that is not in [L] changes nothing for [L], and conversely. *)
Lemma to_backup_skip L R q :
  Forall (λ p, bytes_lt q.1 p.1) L → to_backup L (q :: R) = to_backup L R.
Proof.
  intros H. apply filter_ext_in. apply Forall_forall. intros p Hp.
  unfold changed. rewrite Forall_cons. split; [by intros []|]. intros Hr. split; [|done].
  intros E. eapply Forall_forall in H; [|exact Hp]. cbn beta in H. rewrite E in H.
  by apply bytes_lt_irrefl in H.
Qed.

Lemma to_record_skip L R p :
  Forall (λ q, bytes_lt p.1 q.1) R → to_record (p :: L) R = to_record L R.
Proof.
  intros H. apply filter_ext_in. apply Forall_forall. intros k (q & -> & Hq)%list_elem_of_fmap.
  unfold added. cbn [fmap list_fmap]. rewrite not_elem_of_cons. split; [by intros []|].
  intros. split; [|done]. intros E. eapply Forall_forall in H; [|exact Hq].
  cbn beta in H. rewrite E in H. by apply bytes_lt_irrefl in H.
Qed.

(** The effect of the whole merge. *)
Definition merged (skip : bool) (L R : pairs) (st : Backups) : Backups :=
  (insert_all (map (λ p, backup_name skip p.1 p.2) (to_backup L R)) st.1,
   st.2 ++ flat_map (λ k, k ++ [NUL]) (to_record L R)).

Lemma do_action_backup skip st n e :
  do_action skip st (Backup n e) =
  (insert_all [backup_name skip n e] st.1, st.2).
Proof. unfold do_action. by destruct (backup_name skip n e). Qed.

Lemma merged_backup skip L R n e st :
  Forall (λ q, bytes_lt n q.1) R →
  merged skip ((n, e) :: L) R st = merged skip L R (do_action skip st (Backup n e)).
Proof.
  intros H. unfold merged. rewrite do_action_backup, (to_record_skip L R (n, e)) by done.
  unfold to_backup. rewrite filter_cons_True by (by apply changed_lt). done.
Qed.

Lemma merged_record skip L R n e st :
  Forall (λ q, bytes_lt n q.1) L →
  merged skip L ((n, e) :: R) st = merged skip L R (do_action skip st (Record_ n)).
Proof.
  intros H. unfold merged. rewrite (to_backup_skip L R (n, e)) by done.
  unfold to_record. cbn [fmap list_fmap]. rewrite filter_cons_True by (by apply not_in_lt).
  cbn [flat_map do_action fst snd]. by rewrite <- !app_assoc.
Qed.

Lemma merged_both skip L R n e e' st :
  Forall (λ q, bytes_lt n q.1) L → Forall (λ q, bytes_lt n q.1) R →
  merged skip ((n, e) :: L) ((n, e') :: R) st =
  merged skip L R (do_action skip st
    (if negb (bool_decide (data e' = data e)) then Backup n e else Noop)).
Proof.
  intros HL HR. unfold merged. unfold to_record at 1, to_backup at 1. cbn [fmap list_fmap].
  rewrite (filter_cons_False (added ((n, e) :: L))) by (unfold added; simpl; set_solver).
  fold (to_record ((n, e) :: L) R). rewrite (to_record_skip L R (n, e)) by done.
  assert (changed ((n, e') :: R) (n, e) ↔ data e' ≠ data e) as Hc.
  { unfold changed at 1. rewrite Forall_cons. cbn [fst snd]. split; [intros [H _]; auto|].
    intros H. split; [done|]. by apply (changed_lt R (n, e)). }
  pose proof (to_backup_skip L R (n, e') HL) as Hb. unfold to_backup in Hb.
  case_bool_decide as Hd; cbn [negb].
  - rewrite filter_cons_False by (rewrite Hc; auto). by rewrite Hb.
  - rewrite do_action_backup. rewrite filter_cons_True by (by rewrite Hc). by rewrite Hb.
Qed.

(** A held head, as the entries it is. *)
Definition olist (h : option (bytes * CpioEntry)) : pairs :=
  match h with Some p => [p] | None => [] end.

Lemma refill_spec head l : ∀ h l', refill head l = (h, l') →
  olist head ++ l = olist h ++ l' ∧ (h = None → l' = []).
Proof. destruct head, l; simpl; intros ? ? [= <- <-]; done. Qed.

Lemma merge_loop_spec fuel skip lhs left rhs right st :
  let L := olist lhs ++ left in
  let R := olist rhs ++ right in
  strict L → strict R → (length L + length R < fuel)%nat →
  merge_loop fuel skip lhs left rhs right st = Ok (merged skip L R st).
Proof.
  cbv zeta. revert lhs left rhs right st.
  induction fuel as [|fuel IH]; intros lhs left rhs right st HL HR Hf; [lia|].
  cbn [merge_loop].
  destruct (refill lhs left) as [lhs1 left1] eqn:E1. apply refill_spec in E1 as [E1 N1].
  destruct (refill rhs right) as [rhs1 right1] eqn:E2. apply refill_spec in E2 as [E2 N2].
  rewrite E1, E2 in *. clear lhs left rhs right E1 E2.
  destruct lhs1 as [[ln le]|]; [|rewrite N1 in * by done];
    (destruct rhs1 as [[rn re]|]; [|rewrite N2 in * by done]);
    cbn [merge_step olist app length] in *.
  - pose proof (strict_cons _ _ HL) as [HL' HLlt]. pose proof (strict_cons _ _ HR) as [HR' HRlt].
    cbn [fst] in *.
    destruct (bytes_cmp ln rn) eqn:E.
    + apply bytes_cmp_eq in E as ->.
      rewrite IH by (cbn [olist app]; done || lia). by rewrite merged_both.
    + rewrite IH by (cbn [olist app length]; done || lia).
      rewrite merged_backup; [done|]. apply Forall_cons. split; [done|].
      by eapply lt_trans_all.
    + assert (bytes_lt rn ln) as Hlt by (unfold bytes_lt; by rewrite bytes_cmp_antisym, E).
      rewrite IH by (cbn [olist app length]; done || lia).
      rewrite merged_record; [done|]. apply Forall_cons. split; [done|].
      by eapply lt_trans_all.
  - pose proof (strict_cons _ _ HL) as [HL' HLlt].
    rewrite IH by (cbn [olist app length]; done || lia). by rewrite merged_backup.
  - pose proof (strict_cons _ _ HR) as [HR' HRlt].
    rewrite IH by (cbn [olist app length]; done || lia). by rewrite merged_record.
  - unfold merged, to_backup, to_record. simpl. rewrite app_nil_r. by destruct st.
Qed.

(** ** Storing an entry under [.backup/] and taking it out again *)

Context (xz_ok : ∀ d z, xz d = Some z → unxz z = Some d).

Definition store (skip : bool) (p : bytes * CpioEntry) : bytes * CpioEntry :=
  backup_name skip p.1 p.2.

(** What [collect] makes of a stored entry. *)
Definition undo (q : bytes * CpioEntry) : bytes * CpioEntry :=
  let '(e', done_) := if ends_with (bs ".xz") q.1 then decompress q.2 else (q.2, false) in
  (if done_ then drop 8 (take (length q.1 - 3) q.1) else drop 8 q.1, e').

(** The names [backup] can store without a clash. *)
Definition storable (n : bytes) : Prop :=
  n ≠ bs ".rmlist" ∧ n ≠ bs ".magisk" ∧ ends_with (bs ".xz") n = false.

Lemma set_data_same e d : set_data (set_data e d) (data e) = e.
Proof. by destruct e. Qed.

Lemma store_cases skip n e :
  (store skip (n, e) = (bs ".backup/" ++ n, e)) ∨
  (∃ z, xz (data e) = Some z ∧ is_kind S_IFREG (mode e) = true ∧
    store skip (n, e) = (bs ".backup/" ++ n ++ bs ".xz", set_data e z)).
Proof.
  unfold store, backup_name, compress. cbn [fst snd]. destruct skip; [by left|].
  destruct (is_kind S_IFREG (mode e)); cbn [negb]; [|by left].
  destruct (xz (data e)) as [z|]; [right|by left]. eauto.
Qed.

Lemma in_backup_app n e : in_backup (bs ".backup/" ++ n, e).
Proof. unfold in_backup. cbn [fst]. apply starts_with_app. Qed.

Lemma store_in_backup skip n e : in_backup (store skip (n, e)).
Proof. destruct (store_cases skip n e) as [->|(z & _ & _ & ->)]; apply in_backup_app. Qed.

Lemma ends_with_backup n :
  ends_with (bs ".xz") n = false → ends_with (bs ".xz") (bs ".backup/" ++ n) = false.
Proof.
  intros Hn. destruct (ends_with _ (_ ++ n)) eqn:E; [|done].
  apply ends_with_spec in E as [r E]. apply app_eq_inv in E as [(k & E1 & E2)|(k & E1 & E2)].
  - destruct k as [|k b _] using rev_ind.
    + simpl in E2. rewrite <- E2 in Hn. discriminate Hn.
    + rewrite app_assoc in E1. apply (f_equal last) in E1.
      rewrite last_snoc in E1. injection E1 as <-.
      assert (Byte.x2f ∈ bs ".xz") as Hin by (rewrite E2; set_solver).
      assert (Byte.x2f ∉ bs ".xz") by by_compute. done.
  - rewrite E2, ends_with_app in Hn. done.
Qed.

Lemma undo_store skip n e : storable n → undo (store skip (n, e)) = (n, e).
Proof.
  intros (_ & _ & Hn). destruct (store_cases skip n e) as [->|(z & Hz & Hk & ->)];
    unfold undo; cbn [fst snd].
  - by rewrite ends_with_backup.
  - rewrite (app_assoc (bs ".backup/")), ends_with_app. unfold decompress.
    cbn [mode data set_data]. rewrite Hk, (xz_ok _ _ Hz). cbn [negb].
    fold (set_data e z). rewrite set_data_same. f_equal.
    rewrite take_app_length' by (rewrite (length_app _ (bs ".xz")); simpl; lia). done.
Qed.

Lemma store_names skip n e : storable n →
  (store skip (n, e)).1 ≠ bs ".backup/.rmlist" ∧ (store skip (n, e)).1 ≠ bs ".backup/.magisk".
Proof.
  intros (H1 & H2 & Hn).
  destruct (store_cases skip n e) as [->|(z & _ & _ & ->)]; cbn [fst].
  - change (bs ".backup/.rmlist") with (bs ".backup/" ++ bs ".rmlist").
    change (bs ".backup/.magisk") with (bs ".backup/" ++ bs ".magisk").
    split; by intros ?%app_inv_head.
  - split; intros E%(f_equal (ends_with (bs ".xz"))); rewrite app_assoc, ends_with_app in E;
      discriminate E.
Qed.

Lemma store_key_inj skip n e m f : storable n → storable m →
  (store skip (n, e)).1 = (store skip (m, f)).1 → n = m.
Proof.
  intros (_ & _ & Hn) (_ & _ & Hm).
  destruct (store_cases skip n e) as [->|(z & _ & _ & ->)],
    (store_cases skip m f) as [->|(z' & _ & _ & ->)]; cbn [fst]; intros E%app_inv_head.
  - done.
  - rewrite E, ends_with_app in Hn. done.
  - rewrite <- E, ends_with_app in Hm. done.
  - by apply app_inv_tail in E.
Qed.

(** *** Collecting *)

Definition not_rmlist (q : bytes * CpioEntry) : Prop := q.1 ≠ bs ".backup/.rmlist".
#[local] Instance not_rmlist_dec q : Decision (not_rmlist q).
Proof. unfold not_rmlist. apply _. Defined.

Definition rm_data (q : bytes * CpioEntry) : bytes :=
  if utf8_valid (data q.2) then data q.2 else [].

Lemma collect_fold l st :
  Forall (λ q, q.1 ≠ bs ".backup/.magisk") l →
  foldl collect st l =
  (insert_all (map undo (filter not_rmlist l)) st.1,
   st.2 ++ flat_map rm_data (filter (λ q, ¬ not_rmlist q) l)).
Proof.
  intros Hl. revert st. induction Hl as [|[n e] l Hn Hl IH]; intros st.
  { simpl. rewrite app_nil_r. by destruct st. }
  cbn [foldl]. rewrite IH. unfold collect. cbn [fst] in Hn.
  case_bool_decide as Hr.
  - rewrite (filter_cons_False not_rmlist), (filter_cons_True (λ q, ¬ not_rmlist q)) by
      (unfold not_rmlist; simpl; tauto).
    cbn [flat_map fst snd]. unfold rm_data at 2. cbn [snd].
    destruct (utf8_valid (data e)); by rewrite <- ?app_assoc.
  - rewrite (bool_decide_true (n ≠ _)) by done.
    rewrite (filter_cons_True not_rmlist), (filter_cons_False (λ q, ¬ not_rmlist q)) by
      (unfold not_rmlist; simpl; tauto).
    cbn [map]. unfold insert_all. cbn [foldl].
    assert (undo (n, e) = let '(e', d) := if ends_with (bs ".xz") n then decompress e else (e, false)
      in (if d then drop 8 (take (length n - 3) n) else drop 8 n, e')) as -> by done.
    by destruct (if ends_with (bs ".xz") n then decompress e else (e, false)) as [e' d].
Qed.

(** *** Undoing a backup *)

Lemma rm_backup_lookup m k e : rm m (bs ".backup") true !! k = Some e →
  m !! k = Some e ∧ k ≠ bs ".backup" ∧ starts_with (bs ".backup/") k = false.
Proof.
  unfold rm. change (norm_path (bs ".backup")) with (bs ".backup").
  rewrite map_lookup_filter_Some, lookup_delete_Some. cbn [fst]. naive_solver.
Qed.

Section Undo.
(** The original and the current archive, without old backups. *)
Context (o c : Cpio) (skip : bool).
Context (o_names : map_Forall (λ n _, storable n) o).
Context (c_clean : ∀ k e, c !! k = Some e → k ≠ bs ".backup" ∧ starts_with (bs ".backup/") k = false).
Context (c_names : map_Forall (λ n _, norm_path n = n ∧ n ≠ [] ∧ NUL ∉ n ∧ utf8_valid n = true) c).

Definition B : pairs := to_backup (entries o) (entries c).
Definition Rec : list bytes := to_record (entries o) (entries c).
Definition rml : bytes := flat_map (λ k, k ++ [NUL]) Rec.

(** What stands under [.backup/] afterwards. *)
Definition K : pairs :=
  (if bool_decide (rml = []) then [] else [(bs ".backup/.rmlist", mkEntry S_IFREG 0 0 0 0 rml)]) ++
  map (store skip) B.

Lemma elem_B n e : (n, e) ∈ B ↔
  o !! n = Some e ∧ ∀ e', c !! n = Some e' → data e' ≠ data e.
Proof.
  unfold B, to_backup. rewrite list_elem_of_filter, elem_of_entries. unfold changed.
  rewrite Forall_forall. split.
  - intros [H Ho]. split; [done|]. intros e' He'. by apply (H (n, e')); [apply elem_of_entries|].
  - intros [Ho H]. split; [|done]. intros [k e'] Hin%elem_of_entries E. simpl in *. subst. by apply H.
Qed.

Lemma elem_Rec n : n ∈ Rec ↔ is_Some (c !! n) ∧ o !! n = None.
Proof.
  assert (∀ m : Cpio, n ∈ (entries m).*1 ↔ is_Some (m !! n)) as Hk.
  { intros m. rewrite list_elem_of_fmap. split.
    - intros ([k e] & -> & H%elem_of_entries). by eexists.
    - intros [e H%elem_of_entries]. by exists (n, e). }
  unfold Rec, to_record. rewrite list_elem_of_filter. unfold added. rewrite !Hk.
  rewrite <- eq_None_not_Some. tauto.
Qed.

Lemma B_storable : Forall (λ p, storable p.1) B.
Proof. apply Forall_forall. intros [n e] [Ho _]%elem_B. by apply (o_names n e). Qed.

Lemma NoDup_B : NoDup B.*1.
Proof.
  unfold B, to_backup. pose proof (entries_NoDup_keys o) as H.
  induction (entries o) as [|p l IH]; [constructor|]. cbn [fmap list_fmap] in H.
  apply NoDup_cons in H as [Hp Hl]. destruct (decide (changed (entries c) p)).
  - rewrite filter_cons_True by done. cbn [fmap list_fmap]. apply NoDup_cons. split; [|by apply IH].
    intros (q & Hq & Hin)%list_elem_of_fmap. apply list_elem_of_filter in Hin as [_ Hin].
    apply Hp. rewrite Hq. by apply list_elem_of_fmap_2.
  - rewrite filter_cons_False by done. by apply IH.
Qed.

Lemma NoDup_stored : NoDup (map (store skip) B).*1.
Proof.
  change (map (store skip) B).*1 with (fst <$> (store skip <$> B)). rewrite <- list_fmap_compose.
  apply NoDup_fmap_2_strong.
  - intros [n e] [m f] Hn Hm E. pose proof B_storable as HB. rewrite Forall_forall in HB.
    assert (n = m) as -> by (eapply store_key_inj; [exact (HB _ Hn)|exact (HB _ Hm)|exact E]).
    apply elem_B in Hn as [Hn _], Hm as [Hm _]. congruence.
  - eapply NoDup_fmap_1, NoDup_B.
Qed.

Lemma stored_in_backup q : q ∈ map (store skip) B →
  in_backup q ∧ q.1 ≠ bs ".backup/.rmlist" ∧ q.1 ≠ bs ".backup/.magisk".
Proof.
  intros ([n e] & -> & Hin)%list_elem_of_fmap. split; [apply store_in_backup|].
  apply store_names. pose proof B_storable as HB. rewrite Forall_forall in HB. exact (HB _ Hin).
Qed.

Lemma K_in_backup : Forall in_backup K.
Proof.
  unfold K. apply Forall_app. split.
  - case_bool_decide; constructor; [by vm_compute|constructor].
  - apply Forall_forall. intros q Hq. by apply stored_in_backup.
Qed.

Lemma NoDup_K : NoDup K.*1.
Proof.
  unfold K. rewrite fmap_app. apply NoDup_app. split_and!; [|..|apply NoDup_stored].
  - case_bool_decide; [constructor|apply NoDup_singleton].
  - case_bool_decide; [set_solver|]. cbn [fmap list_fmap fst].
    intros k ->%list_elem_of_singleton (q & Hq & Hin)%list_elem_of_fmap.
    apply stored_in_backup in Hin as (_ & Hin & _). congruence.
Qed.

(** The archive [backup] leaves. *)
Definition backed_up : Cpio := list_to_map K ∪ ({[bs ".backup" := backup_dir]} ∪ c).

Lemma backed_up_in_backup k e : in_backup (k, e) → backed_up !! k = (list_to_map K : Cpio) !! k.
Proof.
  intros Hk. unfold backed_up. rewrite lookup_union.
  assert (({[bs ".backup" := backup_dir]} ∪ c : Cpio) !! k = None) as ->.
  { apply lookup_union_None. split.
    - apply lookup_singleton_ne. intros <-. unfold in_backup in Hk. vm_compute in Hk. done.
    - destruct (c !! k) as [e'|] eqn:E; [|done]. apply c_clean in E as [_ E].
      unfold in_backup in Hk. cbn [fst] in Hk. congruence. }
  by rewrite (right_id_L None (∪)).
Qed.

Lemma extracted_perm : filter in_backup (entries backed_up) ≡ₚ K.
Proof.
  apply NoDup_Permutation.
  - apply NoDup_filter. eapply NoDup_fmap_1, entries_NoDup_keys.
  - eapply NoDup_fmap_1, NoDup_K.
  - intros [k e]. rewrite list_elem_of_filter, elem_of_entries.
    rewrite (elem_of_list_to_map (M:=gmap bytes) K k e NoDup_K). split.
    + intros [Hk He]. by rewrite <- (backed_up_in_backup k e).
    + intros He. assert (in_backup (k, e)) as Hk.
      { apply elem_of_list_to_map_2 in He. pose proof K_in_backup as HK.
        rewrite Forall_forall in HK. by apply HK. }
      split; [done|]. by rewrite (backed_up_in_backup k e).
Qed.

Lemma rest_is_current : rm (filter (λ p, ¬ in_backup p) backed_up) (bs ".backup") false = c.
Proof.
  unfold rm. change (norm_path (bs ".backup")) with (bs ".backup"). apply map_eq. intros k.
  destruct (decide (k = bs ".backup")) as [->|Hk].
  - rewrite lookup_delete_eq. destruct (c !! bs ".backup") as [e|] eqn:E; [|done].
    by apply c_clean in E as [].
  - rewrite lookup_delete_ne by done.
    assert ((list_to_map K : Cpio) !! k = None ∨ starts_with (bs ".backup/") k = true) as [HK|HK].
    { destruct ((list_to_map K : Cpio) !! k) as [e|] eqn:E; [right|by left].
      apply elem_of_list_to_map_2 in E. pose proof K_in_backup as H. rewrite Forall_forall in H.
      exact (H _ E). }
    + assert (backed_up !! k = c !! k) as E.
      { unfold backed_up. rewrite lookup_union, HK, (left_id_L None (∪)).
        rewrite lookup_union_r; [done|]. by apply lookup_singleton_ne. }
      destruct (c !! k) as [e|] eqn:Ec.
      * apply map_lookup_filter_Some. split; [done|]. unfold in_backup. cbn [fst].
        apply c_clean in Ec as [_ ->]. done.
      * apply map_lookup_filter_None. left. done.
    + destruct (c !! k) as [e|] eqn:Ec.
      * apply c_clean in Ec as [_ Ec]. congruence.
      * apply map_lookup_filter_None. right. intros e _ H. by apply H.
Qed.

Lemma Rec_names : Forall (λ n, norm_path n = n ∧ n ≠ [] ∧ NUL ∉ n ∧ utf8_valid n = true) Rec.
Proof. apply Forall_forall. intros n [[e He] _]%elem_Rec. by apply (c_names n e). Qed.

Lemma split_rml : split_on NUL rml = Rec ++ [[]].
Proof.
  unfold rml. induction Rec_names as [|n l (_ & _ & Hn & _) _ IH]; [done|].
  cbn [flat_map]. rewrite <- app_assoc. cbn [app]. by rewrite split_on_app_sep, IH.
Qed.

Lemma utf8_rml : utf8_valid rml = true.
Proof.
  unfold rml. induction Rec_names as [|n l (_ & _ & _ & Hn) _ IH]; [done|].
  cbn [flat_map]. rewrite <- app_assoc. by rewrite utf8_valid_app.
Qed.

Lemma rml_nil : rml = [] ↔ Rec = [].
Proof. unfold rml. destruct Rec as [|n l]; [done|]. simpl. split; [|done]. by destruct n. Qed.

Lemma collected :
  foldl collect (∅, []) (filter in_backup (entries backed_up)) = (list_to_map B, rml).
Proof.
  pose proof extracted_perm as HK. rewrite collect_fold.
  2: { rewrite HK. unfold K. apply Forall_app. split.
       - case_bool_decide; constructor; [done|constructor].
       - apply Forall_forall. intros q Hq. by apply stored_in_backup. }
  cbn [fst snd app]. set (X := filter in_backup (entries backed_up)) in *.
  assert (Forall not_rmlist (map (store skip) B)) as Hs.
  { apply Forall_forall. intros q Hq. by apply stored_in_backup. }
  f_equal.
  - assert (map undo (filter not_rmlist X) ≡ₚ B) as HB.
    { rewrite HK. unfold K. rewrite filter_app, (filter_all not_rmlist (map _ _)) by done.
      assert (filter not_rmlist (if bool_decide (rml = []) then []
        else [(bs ".backup/.rmlist", mkEntry S_IFREG 0 0 0 0 rml)]) = []) as ->.
      { case_bool_decide; [done|]. rewrite filter_cons_False; [done|]. unfold not_rmlist. simpl. tauto. }
      cbn [app]. rewrite map_map. match goal with |- ?a ≡ₚ ?b => enough (a = b) as -> by done end.
      clear Hs. induction B_storable as [|[n e] l Hn _ IH]; [done|].
      cbn [map]. rewrite undo_store by done. f_equal. exact IH. }
    rewrite insert_all_list_to_map.
    + rewrite (right_id_L ∅ (∪)). apply list_to_map_proper; [|done].
      rewrite HB. apply NoDup_B.
    + rewrite HB. apply NoDup_B.
  - assert (filter (λ q, ¬ not_rmlist q) X ≡ₚ if bool_decide (rml = []) then []
        else [(bs ".backup/.rmlist", mkEntry S_IFREG 0 0 0 0 rml)]) as HR.
    { rewrite HK. unfold K. rewrite filter_app.
      rewrite (filter_none (λ q, ¬ not_rmlist q) (map _ _)), app_nil_r.
      - match goal with |- ?a ≡ₚ ?b => enough (a = b) as -> by done end. case_bool_decide; [done|].
        rewrite filter_cons_True; [done|]. unfold not_rmlist. simpl. tauto.
      - eapply Forall_impl; [exact Hs|]. simpl. tauto. }
    case_bool_decide as Hr.
    + apply Permutation_nil_r in HR. rewrite HR. done.
    + apply Permutation_singleton_r in HR. rewrite HR. cbn [flat_map].
      unfold rm_data. cbn [snd data]. by rewrite utf8_rml, app_nil_r.
Qed.

(** Removing the recorded names. *)
Lemma remove_all (l : list bytes) (m : Cpio) k :
  Forall (λ n, norm_path n = n) l →
  foldl (λ c r, if bool_decide (r = []) then c else rm c r false) m l !! k =
  if bool_decide (k ∈ l ∧ k ≠ []) then None else m !! k.
Proof.
  intros Hl. revert m. induction Hl as [|n l Hn Hl IH]; intros m; cbn [foldl].
  - by rewrite bool_decide_false by set_solver.
  - rewrite IH. unfold rm. rewrite Hn, (bool_decide_ext (k ∈ n :: l ∧ k ≠ [])
      ((k = n ∧ k ≠ []) ∨ (k ∈ l ∧ k ≠ []))) by (rewrite elem_of_cons; tauto).
    rewrite bool_decide_or. destruct (bool_decide (k ∈ l ∧ k ≠ [])); [by rewrite orb_true_r|].
    rewrite orb_false_r. case_bool_decide as Hn0.
    + subst. by rewrite bool_decide_false by tauto.
    + destruct (decide (k = n)) as [->|Hk].
      * by rewrite lookup_delete_eq, bool_decide_true.
      * by rewrite lookup_delete_ne, bool_decide_false by (congruence || tauto).
Qed.

(** Archives with the same names and data: nothing is stored. *)
Lemma restore_same_data :
  (∀ k, data <$> o !! k = data <$> c !! k) → restore backed_up = ∅.
Proof.
  intros H. unfold restore. rewrite collected, rest_is_current.
  assert (B = []) as ->.
  { destruct B as [|[n e] l] eqn:EB; [done|]. exfalso.
    assert ((n, e) ∈ B) as [He Hn]%elem_B by (rewrite EB; by left).
    specialize (H n). rewrite He in H. destruct (c !! n) as [e'|]; [|done].
    apply (Hn e'); [done|]. simpl in H. congruence. }
  assert (rml = []) as ->; [|done]. apply rml_nil.
  destruct Rec as [|n l] eqn:ER; [done|]. exfalso.
  assert (n ∈ Rec) as [[e He] Hn]%elem_Rec by (rewrite ER; by left).
  specialize (H n). by rewrite He, Hn in H.
Qed.

(** The entry of the original, or that of the current archive if only its mode, owner or
    device numbers differ. *)
Definition revert_entry (k : bytes) (e : CpioEntry) : CpioEntry :=
  match c !! k with
  | Some e' => if bool_decide (data e' = data e) then e' else e
  | None => e
  end.

Definition reverted : Cpio := map_imap (λ k e, Some (revert_entry k e)) o.

Lemma undone : (list_to_map B : Cpio) ∪
  foldl (λ c r, if bool_decide (r = []) then c else rm c r false) c (split_on NUL rml) = reverted.
Proof.
  apply map_eq. intros k. rewrite lookup_union, split_rml, remove_all.
  2: { apply Forall_app. split; [|repeat constructor].
       eapply Forall_impl; [exact Rec_names|]. intros n [Hn _]; exact Hn. }
  assert (∀ e, (list_to_map B : Cpio) !! k = Some e ↔ (k, e) ∈ B) as HB.
  { intros e. symmetry. apply elem_of_list_to_map, NoDup_B. }
  unfold reverted. rewrite map_lookup_imap. destruct (o !! k) as [e|] eqn:Ho; cbn [mbind option_bind].
  - destruct (decide (changed (entries c) (k, e))) as [Hch|Hch].
    + assert ((k, e) ∈ B) as HkB.
      { unfold B, to_backup. apply list_elem_of_filter. split; [done|]. by apply elem_of_entries. }
      rewrite (proj2 (HB e) HkB). apply elem_B in HkB as [_ HkB].
      assert (revert_entry k e = e) as ->; [|by destruct (if bool_decide _ then _ else _)].
      unfold revert_entry. destruct (c !! k) as [e'|]; [|done].
      by rewrite bool_decide_false by (by apply HkB).
    + assert (∃ e', c !! k = Some e' ∧ data e' = data e) as (e' & Hc & Hd).
      { unfold changed in Hch. apply not_Forall_Exists in Hch; [|apply _]. apply Exists_exists in Hch as ([k' e'] & Hin & H).
        apply elem_of_entries in Hin. exists e'. cbn [fst snd] in H.
        destruct (decide (k' = k)) as [->|]; [|by destruct H].
        split; [done|]. destruct (decide (data e' = data e)); [done|by destruct H]. }
      assert ((list_to_map B : Cpio) !! k = None) as ->.
      { apply eq_None_not_Some. intros [e2 E%HB]. apply elem_B in E as [E1 E2].
        destruct (E2 e' Hc). congruence. }
      rewrite bool_decide_false.
      * unfold revert_entry. rewrite Hc, (left_id_L None (∪)), bool_decide_true by done. done.
      * intros [[Hin| ->%list_elem_of_singleton]%elem_of_app ?]; [|done].
        apply elem_Rec in Hin as [_ Hin]. congruence.
  - assert ((list_to_map B : Cpio) !! k = None) as ->.
    { apply eq_None_not_Some. intros [e2 E%HB]. apply elem_B in E as [E1 _]. congruence. }
    rewrite (left_id_L None (∪)). case_bool_decide as Hk; [done|].
    destruct (c !! k) as [e|] eqn:Hc; [|done]. destruct Hk. split.
    + apply elem_of_app. left. apply elem_Rec. by rewrite Hc.
    + by destruct (c_names k e Hc) as (_ & ? & _).
Qed.

Lemma reverted_same :
  (∀ k e e', o !! k = Some e → c !! k = Some e' → data e = data e' → e = e') → reverted = o.
Proof.
  intros same. apply map_eq. intros k. unfold reverted. rewrite map_lookup_imap.
  destruct (o !! k) as [e|] eqn:Ho; [|done]. cbn [mbind option_bind]. f_equal.
  unfold revert_entry. destruct (c !! k) as [e'|] eqn:Hc; [|done].
  case_bool_decide as E; [|done]. symmetry. by eapply same.
Qed.

(** Something is stored unless names and data are the same. *)
Lemma nothing_stored : rml = [] ∧ (list_to_map B : Cpio) = ∅ → ∀ k, data <$> o !! k = data <$> c !! k.
Proof.
  intros [Hr%rml_nil HB] k. destruct (o !! k) as [e|] eqn:Ho.
  - destruct (decide ((k, e) ∈ B)) as [Hin|Hin].
    { apply (elem_of_list_to_map (M:=gmap bytes) B k e NoDup_B) in Hin. by rewrite HB in Hin. }
    rewrite elem_B in Hin. destruct (c !! k) as [e'|] eqn:Hc.
    + destruct (decide (data e' = data e)) as [E|E]; [by simpl; rewrite E|].
      destruct Hin. split; [done|]. congruence.
    + destruct Hin. split; [done|]. congruence.
  - destruct (c !! k) as [e|] eqn:Hc; [|done]. assert (k ∈ Rec) as Hin by (apply elem_Rec; by rewrite Hc).
    rewrite Hr in Hin. by apply not_elem_of_nil in Hin.
Qed.

Lemma restore_backed_up : (∃ k, data <$> o !! k ≠ data <$> c !! k) → restore backed_up = reverted.
Proof.
  intros [k Hk]. unfold restore. rewrite collected, rest_is_current, undone.
  repeat case_bool_decide; try done. by destruct Hk; apply nothing_stored.
Qed.

End Undo.

Lemma refill_entries (m : Cpio) : ∀ h l, refill None (entries m) = (h, l) → entries m = olist h ++ l.
Proof. intros h l H. apply refill_spec in H as [H _]. exact H. Qed.

(** What [backup] computes, in closed form. *)
Lemma backup_closed c0 o0 skip :
  let o := rm o0 (bs ".backup") true in
  let c := rm c0 (bs ".backup") true in
  map_Forall (λ n _, storable n) o →
  backup c0 (Ok o0) skip = Ok (backed_up o c skip).
Proof.
  intros o c Hn. unfold backup. cbn [mbind res_bind]. fold o c.
  destruct (refill None (entries o)) as [lhs left] eqn:E1. apply refill_entries in E1.
  destruct (refill None (entries c)) as [rhs right] eqn:E2. apply refill_entries in E2.
  pose proof (entries_strict o) as So. pose proof (entries_strict c) as Sc.
  rewrite E1 in So at 1. rewrite E2 in Sc at 1.
  rewrite merge_loop_spec; [|by rewrite <- E1 in *|by rewrite <- E2 in *|rewrite <- E1, <- E2; lia].
  rewrite <- E1, <- E2. unfold merged. cbn [mbind res_bind fst snd app]. f_equal.
  fold (B o c) (Rec o c) (rml o c). unfold backed_up. rewrite (assoc_L (∪)). f_equal.
  rewrite (insert_all_list_to_map (map (λ p, backup_name skip p.1 p.2) (B o c)))
    by (by apply NoDup_stored).
  fold (store skip). unfold K. case_bool_decide; cbn [app]; [done|].
  cbn [list_to_map foldr]. by rewrite <- insert_union_l.
Qed.

Lemma rm_backup_clean m k e : rm m (bs ".backup") true !! k = Some e →
  k ≠ bs ".backup" ∧ starts_with (bs ".backup/") k = false.
Proof. intros H%rm_backup_lookup. tauto. Qed.

(** C3: restoring a backup gives the original archive back (without its own old
    backup): what was added is removed, what was removed or has other data is as it was, whether
    or not the stored entries are compressed.  Only data is compared: an entry of which the
    mode, the owner or the device numbers changed and the data did not stays changed, so the
    archive is exactly the original when there is none of those; and when all names and
    data are the same there is no backup, and restoring empties the archive.  Names of
    the original that end in .xz, and .rmlist and .magisk, are left out; those of the current
    archive are normal paths. *)
Theorem backup_restore c0 o0 skip :
  let o := rm o0 (bs ".backup") true in
  let c := rm c0 (bs ".backup") true in
  map_Forall (λ n _, storable n) o →
  map_Forall (λ n _, norm_path n = n ∧ n ≠ [] ∧ NUL ∉ n ∧ utf8_valid n = true) c →
  ∃ c', backup c0 (Ok o0) skip = Ok c' ∧
    ((∀ k, data <$> o !! k = data <$> c !! k) → restore c' = ∅) ∧
    ((∃ k, data <$> o !! k ≠ data <$> c !! k) →
      restore c' = reverted o c ∧
      ((∀ k e e', o !! k = Some e → c !! k = Some e' → data e = data e' → e = e') → restore c' = o)).
Proof.
  intros o c Ho Hc. exists (backed_up o c skip). split; [by apply backup_closed|]. split; intros H.
  - apply restore_same_data; auto. apply rm_backup_clean.
  - assert (restore (backed_up o c skip) = reverted o c) as ->.
    { apply restore_backed_up; auto. apply rm_backup_clean. }
    split; [done|]. apply reverted_same.
Qed.

(** [backup] compares data only: when original and current archive have the
    same names and data, and differ in modes, owners or device numbers, nothing is
    stored and restoring empties the archive instead of giving the original back. *)
Theorem backup_ignores_attributes c0 o0 skip :
  let o := rm o0 (bs ".backup") true in
  let c := rm c0 (bs ".backup") true in
  map_Forall (λ n _, storable n) o →
  map_Forall (λ n _, norm_path n = n ∧ n ≠ [] ∧ NUL ∉ n ∧ utf8_valid n = true) c →
  (∀ k, data <$> o !! k = data <$> c !! k) →
  ∃ c', backup c0 (Ok o0) skip = Ok c' ∧ restore c' = ∅.
Proof.
  intros o c Ho Hc Hs. eexists. split; [by apply backup_closed|].
  apply restore_same_data; auto. apply rm_backup_clean.
Qed.
End Xz.

(** ** What [patch] does *)

(** The data of an fstab file before and after. *)
Definition fstab_data (keep_verity keep_force_encrypt : bool) (d d' : bytes) : Prop :=
  ∃ t, (if keep_verity then t = d else stripped match_verity_pattern d t) ∧
       (if keep_force_encrypt then d' = t else stripped match_encryption_pattern t d').

Lemma resize_stripped t (n : Z) : 0 ≤ n →
  let d := t ++ zeros n in (if len t =? len d then d else resize d (len t)) = t.
Proof.
  intros Hn d. unfold d, resize. rewrite len_app, len_zeros by done.
  destruct (Z.eqb_spec (len t) (len t + n)).
  - assert (n = 0) as -> by lia. apply app_nil_r.
  - rewrite take_app_length' by (unfold len; lia). replace (len t - (len t + n)) with (- n) by lia.
    unfold zeros at 1. replace (Z.to_nat (- n)) with 0%nat by lia. apply app_nil_r.
Qed.

(** One fstab pass on an entry. *)
Lemma strip_pass m e : matcher_ok m →
  ∃ t, stripped m (data e) t ∧
    ('(d, l) ← remove_pattern (data e) m;
     Ok (set_data e (if l =? len d then d else resize d l))) = Ok (E:=unit) (set_data e t).
Proof.
  intros Hm. destruct (remove_pattern_spec m (data e) Hm) as (t & Ht & Hl & ->).
  exists t. split; [done|]. cbn [mbind res_bind].
  rewrite resize_stripped; [done|]. unfold len. lia.
Qed.

Lemma set_data_id e : set_data e (data e) = e.
Proof. by destruct e. Qed.

Lemma patch_entry_spec kv ke n e :
  ∃ oe, patch_entry kv ke n e = Ok oe ∧
    if negb kv && bool_decide (n = bs "verity_key") then oe = None
    else if is_fstab kv ke n e then ∃ d', oe = Some (set_data e d') ∧ fstab_data kv ke (data e) d'
    else oe = Some e.
Proof.
  unfold patch_entry. assert (n = bs "verity_key" → is_fstab kv ke n e = false) as Hk.
  { intros ->. unfold is_fstab. change (starts_with (bs "fstab") (bs "verity_key")) with false.
    apply andb_false_r. }
  destruct kv; cbn [negb andb].
  - cbn [mbind res_bind]. destruct ke; cbn [negb andb].
    + eexists. split; [done|]. destruct (is_fstab _ _ _ _); [|done].
      exists (data e). rewrite set_data_id. split; [done|]. by exists (data e).
    + destruct (is_fstab _ _ _ _); [|eauto].
      destruct (strip_pass match_encryption_pattern e) as (t & Ht & Hp); [auto with magisk|].
      unfold patch_encryption. rewrite Hp. cbn [mbind res_bind].
      eexists. split; [done|]. exists t. split; [done|]. by exists (data e).
  - destruct (is_fstab false ke n e) eqn:Hf; cbn [negb andb].
    + assert (n ≠ bs "verity_key") by (intros E; by apply Hk in E).
      rewrite bool_decide_false by done.
      destruct (strip_pass match_verity_pattern e) as (t & Ht & Hp); [auto with magisk|].
      unfold patch_verity. rewrite Hp. cbn [mbind res_bind].
      destruct ke; cbn [negb andb].
      * eexists. split; [done|]. exists t. split; [done|]. by exists t.
      * destruct (strip_pass match_encryption_pattern (set_data e t)) as (u & Hu & Hq);
          [auto with magisk|].
        unfold patch_encryption. rewrite Hq. cbn [mbind res_bind data set_data] in *.
        eexists. split; [done|]. exists u. split; [done|]. by exists t.
    + case_bool_decide; [by eexists|]. rewrite andb_false_r. cbn [mbind res_bind]. eauto.
Qed.

Lemma retain_mut_spec f l : (∀ n e, ∃ oe, f n e = Ok oe) → NoDup l.*1 →
  ∃ l', retain_mut f l = Ok l' ∧ ∀ n,
    (list_to_map l' : Cpio) !! n =
    (e ← (list_to_map l : Cpio) !! n; default None (res_ok (f n e))).
Proof.
  intros Hf. induction l as [|[k e] l IH]; intros Hn.
  { exists []. split; [done|]. intros n. simpl. by rewrite lookup_empty. }
  cbn [fmap list_fmap] in Hn. apply NoDup_cons in Hn as [Hk Hn].
  destruct (IH Hn) as (l' & Hl & HL). destruct (Hf k e) as [oe Hoe].
  cbn [retain_mut]. rewrite Hoe, Hl. cbn [mbind res_bind]. eexists. split; [done|]. intros n.
  cbn [list_to_map foldr fst snd]. fold (list_to_map l : Cpio).
  destruct (decide (k = n)) as [->|Hne].
  - rewrite lookup_insert_eq. cbn [mbind option_bind]. rewrite Hoe. cbn [res_ok default].
    destruct oe as [e'|]; cbn [list_to_map foldr fst snd].
    + by rewrite lookup_insert_eq.
    + rewrite HL. by rewrite (not_elem_of_list_to_map_1 (M:=gmap bytes) l n).
  - rewrite lookup_insert_ne by done. rewrite <- HL.
    destruct oe as [e'|]; [|done]. cbn [list_to_map foldr fst snd].
    by rewrite lookup_insert_ne.
Qed.

(** [patch] always succeeds; it strips the verity and encryption flags the
    environment does not keep from the ramdisk's own fstab files, drops the verity
    key, and leaves every other entry and every attribute as it is. *)
Theorem patch_spec kv ke c :
  ∃ c', patch kv ke c = Ok c' ∧ ∀ n,
    match c !! n with
    | None => c' !! n = None
    | Some e =>
        if negb kv && bool_decide (n = bs "verity_key") then c' !! n = None
        else if is_fstab kv ke n e
        then ∃ d', c' !! n = Some (set_data e d') ∧ fstab_data kv ke (data e) d'
        else c' !! n = Some e
    end.
Proof.
  destruct (retain_mut_spec (patch_entry kv ke) (entries c)) as (l & Hl & HL).
  { intros n e. destruct (patch_entry_spec kv ke n e) as (oe & H & _). eauto. }
  { apply entries_NoDup_keys. }
  exists (list_to_map l). unfold patch. rewrite Hl. split; [done|]. intros n.
  rewrite HL, list_to_map_entries. destruct (c !! n) as [e|]; [|done]. cbn [mbind option_bind].
  destruct (patch_entry_spec kv ke n e) as (oe & -> & Hoe). cbn [res_ok default].
  destruct (_ && _); [done|]. destruct (is_fstab kv ke n e); done.
Qed.

(** *** Instances, with the identity for the codec *)

Lemma stored_codec (d z : bytes) : Some d = Some z → Some z = Some d.
Proof. congruence. Qed.

Definition origin_sample : Cpio :=
  <[bs "init" := mkEntry 0x81ED 0 0 0 0 (bs "stock")]>
  (<[bs "fstab.qcom" := mkEntry 0x81A4 0 0 0 0 (bs "verify")]> ∅).
Definition patched_sample : Cpio :=
  <[bs "init" := mkEntry 0x81ED 0 0 0 0 (bs "magiskinit")]>
  (<[bs "overlay.d/sbin/magisk.xz" := mkEntry 0x81A4 0 0 0 0 (bs "m")]> ∅).
Definition chmod_sample : Cpio :=
  <[bs "init" := mkEntry 0x81A4 0 0 0 0 (bs "stock")]>
  (<[bs "fstab.qcom" := mkEntry 0x81A4 0 0 0 0 (bs "verify")]> ∅).

#[global] Instance storable_dec n : Decision (storable n).
Proof. unfold storable. apply _. Defined.

Lemma backup_restore_witness :
  let o := rm origin_sample (bs ".backup") true in
  let c := rm patched_sample (bs ".backup") true in
  ∃ c', backup Some patched_sample (Ok origin_sample) false = Ok c' ∧
    ((∀ k, data <$> o !! k = data <$> c !! k) → restore Some c' = ∅) ∧
    ((∃ k, data <$> o !! k ≠ data <$> c !! k) →
      restore Some c' = reverted o c ∧
      ((∀ k e e', o !! k = Some e → c !! k = Some e' → data e = data e' → e = e') → restore Some c' = o)).
Proof. apply (backup_restore Some Some stored_codec patched_sample origin_sample false); by_compute. Defined.

(** The sample is restored whole. *)
Example sample_restored :
  (c' ← backup Some patched_sample (Ok origin_sample) false; Ok (restore Some c')) = Ok origin_sample.
Proof. vm_compute. reflexivity. Qed.

Lemma backup_ignores_attributes_witness :
  ∃ c', backup Some chmod_sample (Ok origin_sample) true = Ok c' ∧ restore Some c' = ∅.
Proof.
  apply (backup_ignores_attributes Some Some stored_codec chmod_sample origin_sample true).
  - by_compute.
  - by_compute.
  - intros k. unfold rm. change (norm_path (bs ".backup")) with (bs ".backup").
    cbv iota. rewrite !map_lookup_filter, !lookup_delete.
    destruct (decide (bs ".backup" = k)) as [<-|]; [reflexivity|].
    unfold origin_sample, chmod_sample.
    destruct (decide (k = bs "init")) as [->|]; [by vm_compute|].
    destruct (decide (k = bs "fstab.qcom")) as [->|]; [by vm_compute|].
    rewrite !lookup_insert_ne by done. done.
Defined.
