(* ===== verification/Text.v ===== *)
(** Text: lines, words and [key=value] properties, as
    [native/src/base/files.rs] ([BufReadExt]) and the [str] methods it and its
    callers use read them.

    Whitespace is Unicode's ([char::is_whitespace]) on UTF-8 bytes.  A line
    closure is a state transformer that says whether to go on. *)

From S2P Require Import Prelude.

(** ** Whitespace *)

Definition LF : byte := Byte.x0a.

(** The length of the whitespace character in front, or zero. *)
Definition ws_len (s : bytes) : nat :=
  match s with
  | b0 :: s1 =>
      if in_range 0x09 0x0D b0 || (u8 b0 =? 0x20) then 1%nat
      else match s1 with
      | b1 :: s2 =>
          if (u8 b0 =? 0xC2) && ((u8 b1 =? 0x85) || (u8 b1 =? 0xA0)) then 2%nat
          else match s2 with
          | b2 :: _ =>
              if ((u8 b0 =? 0xE1) && (u8 b1 =? 0x9A) && (u8 b2 =? 0x80))
                 || ((u8 b0 =? 0xE2) && (u8 b1 =? 0x80) &&
                     (in_range 0x80 0x8A b2 || (u8 b2 =? 0xA8) || (u8 b2 =? 0xA9) || (u8 b2 =? 0xAF)))
                 || ((u8 b0 =? 0xE2) && (u8 b1 =? 0x81) && (u8 b2 =? 0x9F))
                 || ((u8 b0 =? 0xE3) && (u8 b1 =? 0x80) && (u8 b2 =? 0x80))
              then 3%nat else 0%nat
          | [] => 0%nat
          end
      | [] => 0%nat
      end
  | [] => 0%nat
  end.

(** [s.split_whitespace()]: [acc] is the word being read, [skip] the rest of a
    whitespace character. *)
Fixpoint words_from (skip : nat) (acc s : bytes) : list bytes :=
  match s with
  | [] => if bool_decide (acc = []) then [] else [acc]
  | b :: s' =>
      match skip with
      | S k => words_from k acc s'
      | O =>
          match ws_len s with
          | O => words_from 0 (acc ++ [b]) s'
          | S k => (if bool_decide (acc = []) then [] else [acc]) ++ words_from k [] s'
          end
      end
  end.

Definition split_whitespace (s : bytes) : list bytes := words_from 0 [] s.

(** [s.trim_start()], [s.trim_end()], [s.trim()]. *)
Fixpoint trim_start_from (skip : nat) (s : bytes) : bytes :=
  match s with
  | [] => []
  | b :: s' =>
      match skip with
      | S k => trim_start_from k s'
      | O => match ws_len s with O => s | S k => trim_start_from k s' end
      end
  end.
Definition trim_start (s : bytes) : bytes := trim_start_from 0 s.

Fixpoint trim_end (s : bytes) : bytes :=
  match s with
  | [] => []
  | b :: s' => if bool_decide (trim_start s = []) then [] else b :: trim_end s'
  end.

Definition trim (s : bytes) : bytes := trim_end (trim_start s).

(** [s.split_once(c)]. *)
Fixpoint split_once (c : byte) (s : bytes) : option (bytes * bytes) :=
  match s with
  | [] => None
  | b :: s' =>
      if bool_decide (b = c) then Some ([], s')
      else match split_once c s' with
           | Some (l, r) => Some (b :: l, r)
           | None => None
           end
  end.

(** [uN::from_str]. *)
Definition parse_u (bits : Z) (s : bytes) : option Z := from_str_radix_u bits 10 s.

(** ** Lines *)

(** What successive calls to [read_line] return. *)
Fixpoint lines_from (acc s : bytes) : list bytes :=
  match s with
  | [] => if bool_decide (acc = []) then [] else [acc]
  | b :: s' =>
      if bool_decide (b = LF) then (acc ++ [b]) :: lines_from [] s'
      else lines_from (acc ++ [b]) s'
  end.

Definition read_lines (s : bytes) : list bytes := lines_from [] s.

(** [for_each_line]: a line that is not UTF-8 is a read error and ends the loop. *)
Fixpoint for_lines {St} (f : St → bytes → St * bool) (st : St) (lines : list bytes) : St :=
  match lines with
  | [] => st
  | l :: lines =>
      if utf8_valid l then
        let '(st', go) := f st l in if go then for_lines f st' lines else st'
      else st
  end.

Definition for_each_line {St} (f : St → bytes → St * bool) (st : St) (data : bytes) : St :=
  for_lines f st (read_lines data).

Definition for_each_prop {St} (f : St → bytes → bytes → St * bool) : St → bytes → St :=
  for_each_line (λ st line,
    let line := trim line in
    if starts_with (bs "#") line then (st, true)
    else match split_once Byte.x3d line with
         | Some (key, value) => f st (trim key) (trim value)
         | None => (st, true)
         end).

(** ** Facts *)

Lemma lines_from_concat acc s : concat (lines_from acc s) = acc ++ s.
Proof.
  revert acc. induction s as [|b s IH]; intros acc; simpl.
  - case_bool_decide; simpl; by subst; rewrite ?app_nil_r.
  - case_bool_decide; simpl; rewrite IH, <- ?app_assoc; done.
Qed.

Lemma read_lines_concat s : concat (read_lines s) = s.
Proof. apply lines_from_concat. Qed.

(** A piece of text without whitespace, by bytes. *)
Definition no_ws (s : bytes) : Prop := Forall (λ b, 0x21 ≤ u8 b < 0x7F) s.
#[global] Instance no_ws_dec s : Decision (no_ws s).
Proof. unfold no_ws. apply _. Defined.

Lemma ws_len_printable b s : 0x21 ≤ u8 b < 0x7F → ws_len (b :: s) = 0%nat.
Proof.
  intros H. unfold ws_len, in_range.
  assert ((9 <=? u8 b) && (u8 b <=? 13) || (u8 b =? 32) = false) as -> by lia.
  destruct s as [|b1 s]; [done|].
  assert ((u8 b =? 194) = false) as -> by lia. cbn [andb].
  destruct s as [|b2 s]; [done|].
  assert ((u8 b =? 225) = false) as -> by lia. assert ((u8 b =? 226) = false) as -> by lia.
  by assert ((u8 b =? 227) = false) as -> by lia.
Qed.

Lemma words_from_word w acc s : no_ws w → words_from 0 acc (w ++ s) = words_from 0 (acc ++ w) s.
Proof.
  intros Hw. revert acc. induction Hw as [|b w Hb Hw IH]; intros acc; cbn [app].
  - by rewrite app_nil_r.
  - cbn [words_from]. rewrite ws_len_printable, IH by done. by rewrite <- app_assoc.
Qed.

(** Words joined by single spaces split back. *)
Lemma split_whitespace_join ws :
  Forall (λ w, no_ws w ∧ w ≠ []) ws → split_whitespace (join (bs " ") ws) = ws.
Proof.
  unfold split_whitespace. induction 1 as [|w ws [Hw Hne] Hws IH]; [done|].
  destruct ws as [|w' ws].
  - cbn [join]. rewrite <- (app_nil_r w) at 1. rewrite words_from_word by done. cbn [words_from app].
    by rewrite bool_decide_false.
  - change (join (bs " ") (w :: w' :: ws)) with (w ++ Byte.x20 :: join (bs " ") (w' :: ws)).
    rewrite words_from_word by done. cbn [words_from app].
    change (ws_len (Byte.x20 :: ?x)) with 1%nat. cbv iota.
    rewrite bool_decide_false by done. cbn [app]. f_equal. exact IH.
Qed.

Lemma split_once_app c l r : c ∉ l → split_once c (l ++ c :: r) = Some (l, r).
Proof.
  induction l as [|b l IH]; intros Hl; cbn [app split_once].
  - by rewrite bool_decide_true.
  - rewrite bool_decide_false by set_solver. by rewrite IH by set_solver.
Qed.

Lemma split_once_Some c s l r : split_once c s = Some (l, r) → s = l ++ c :: r ∧ c ∉ l.
Proof.
  revert l. induction s as [|b s IH]; intros l; cbn [split_once]; [done|]. case_bool_decide as Hb.
  - intros [= <- <-]. subst. split; [done|apply not_elem_of_nil].
  - destruct (split_once c s) as [[l' r']|]; [|done]. intros [= <- <-].
    destruct (IH l' eq_refl) as [-> Hl]. split; [done|]. set_solver.
Qed.

Lemma split_once_None c s : split_once c s = None ↔ c ∉ s.
Proof.
  induction s as [|b s IH]; cbn [split_once]; [split; [|done]; set_solver|].
  case_bool_decide; [split; [done|set_solver]|].
  destruct (split_once c s) as [[? ?]|]; rewrite not_elem_of_cons, <- IH; naive_solver.
Qed.

Lemma trim_start_printable b s : 0x21 ≤ u8 b < 0x7F → trim_start (b :: s) = b :: s.
Proof. intros H. unfold trim_start. cbn [trim_start_from]. by rewrite ws_len_printable. Qed.

Lemma trim_end_app s : no_ws s → ∀ t, trim_start t = [] → trim_end (s ++ t) = s.
Proof.
  induction 1 as [|b s Hb Hs IH]; intros t Ht.
  - destruct t as [|b t]; [done|]. cbn [app trim_end]. by rewrite bool_decide_true.
  - cbn [app trim_end]. rewrite trim_start_printable by done.
    rewrite bool_decide_false by done. f_equal. by apply IH.
Qed.

(** A word loses nothing but the blanks behind it. *)
Lemma trim_word s t : no_ws s → s ≠ [] → trim_start t = [] → trim (s ++ t) = s.
Proof.
  intros Hs Hne Ht. unfold trim. destruct s as [|b s]; [done|].
  pose proof (Forall_inv Hs) as Hb. cbn [app]. rewrite trim_start_printable by done.
  by apply (trim_end_app (b :: s)).
Qed.

#[export] Hint Resolve split_whitespace_join : magisk.

(** Text of printable characters and spaces that neither starts nor ends with a space. *)
Definition printable (b : byte) : Prop := 0x20 ≤ u8 b < 0x7F.

Lemma trim_start_snoc s b : Forall printable s → 0x21 ≤ u8 b < 0x7F → trim_start (s ++ [b]) ≠ [].
Proof.
  unfold trim_start. induction 1 as [|c s Hc Hs IH]; intros Hb; cbn [app].
  - cbn [trim_start_from]. by rewrite ws_len_printable.
  - destruct (decide (u8 c = 0x20)) as [E|E].
    + cbn [trim_start_from]. assert (c = Byte.x20) as -> by (by apply u8_inj). by apply IH.
    + cbn [trim_start_from]. rewrite ws_len_printable; [done|]. unfold printable in Hc. lia.
Qed.

Lemma trim_end_snoc s b : Forall printable s → 0x21 ≤ u8 b < 0x7F → trim_end (s ++ [b]) = s ++ [b].
Proof.
  intros Hs Hb. induction Hs as [|c s Hc Hs IH]; cbn [app trim_end].
  - by rewrite trim_start_printable by done.
  - rewrite bool_decide_false; [by rewrite IH|].
    change (c :: s ++ [b]) with ((c :: s) ++ [b]). apply trim_start_snoc; [by constructor|done].
Qed.

Lemma no_ws_printable w : no_ws w → Forall printable w.
Proof. intros H. eapply Forall_impl; [exact H|]. unfold printable. simpl. lia. Qed.

Lemma join_words_shape w ws : Forall (λ w, no_ws w ∧ w ≠ []) (w :: ws) →
  (∃ b s, join (bs " ") (w :: ws) = b :: s ∧ 0x21 ≤ u8 b < 0x7F ∧ ∃ w', w = b :: w') ∧
  (∃ s b, join (bs " ") (w :: ws) = s ++ [b] ∧ Forall printable s ∧ 0x21 ≤ u8 b < 0x7F).
Proof.
  revert w. induction ws as [|v ws IH]; intros w [[Hw Hne] Hws]%Forall_cons.
  - cbn [join]. split.
    + destruct w as [|b s]; [done|]. pose proof (Forall_inv Hw). eauto 10.
    + destruct w as [|b s _] using rev_ind; [done|]. apply Forall_app in Hw as [H1 H2].
      apply Forall_inv in H2. exists s, b. split; [done|]. split; [by apply no_ws_printable|done].
  - destruct (IH v Hws) as [_ (s & b & E & Hs & Hb)].
    change (join (bs " ") (w :: v :: ws)) with (w ++ Byte.x20 :: join (bs " ") (v :: ws)). split.
    + destruct w as [|c w]; [done|]. pose proof (Forall_inv Hw). cbn [app]. eauto 10.
    + rewrite E. exists (w ++ Byte.x20 :: s), b. rewrite <- app_assoc. split; [done|].
      split; [|done]. apply Forall_app. split; [by apply no_ws_printable|].
      constructor; [|done]. by vm_compute.
Qed.

(** Joined words are already trimmed. *)
Lemma trim_join w ws : Forall (λ w, no_ws w ∧ w ≠ []) (w :: ws) →
  trim (join (bs " ") (w :: ws)) = join (bs " ") (w :: ws).
Proof.
  intros H. destruct (join_words_shape w ws H) as [(b & s & E & Hb & _) (s' & b' & E' & Hs & Hb')].
  unfold trim. rewrite E at 1. rewrite trim_start_printable, <- E, E' by done. by apply trim_end_snoc.
Qed.
