(* ===== verification/Statement.v ===== *)
(** Statement: SELinux policy statements, [native/src/sepolicy/statement.rs],
    [rules.rs] and the Rust side of [lib.rs].

    A statement is cut into tokens, parsed by recursive descent and turned into
    one call of a [SePolicy] method.  The methods are C++: the policy is the
    sequence of calls made on it ([Call]).  [extract_token] recurses on pieces of
    a word, with the word's length as fuel; [tokenize_total] shows it is enough. *)

From S2P Require Import Prelude Text.

(** ** Tokens *)

Inductive Token :=
  | AL | DN | AA | DA | AX | AY | DX | PM | EF | TA | TY | AT | TT | TC | TM | GF
  | LB | RB | CM | ST | TL | HP
  | HX (n : Z)
  | ID (s : bytes).

#[global] Instance Token_eq_dec : EqDecision Token.
Proof. solve_decision. Defined.

Record Xperm := mkXperm { low : Z; high : Z; reset : bool }.

#[global] Instance Xperm_eq_dec : EqDecision Xperm.
Proof. solve_decision. Defined.

Inductive ParseError :=
  | General
  | AvtabAv (t : Token)
  | AvtabXperms (t : Token)
  | AvtabType (t : Token)
  | TypeState (t : Token)
  | TypeAttr
  | TypeTrans
  | NewType
  | NewAttr
  | GenfsCon
  | ShowHelp
  | UnknownAction (t : Token).

(** The methods of [SePolicy] the parser calls. *)
Inductive Call :=
  | allow (s t c p : list bytes)
  | deny (s t c p : list bytes)
  | auditallow (s t c p : list bytes)
  | dontaudit (s t c p : list bytes)
  | allowxperm (s t c : list bytes) (p : list Xperm)
  | auditallowxperm (s t c : list bytes) (p : list Xperm)
  | dontauditxperm (s t c : list bytes) (p : list Xperm)
  | permissive (t : list bytes)
  | enforce (t : list bytes)
  | typeattribute (t a : list bytes)
  | type_ (t : bytes) (a : list bytes)
  | attribute (t : bytes)
  | type_transition (s t c d o : bytes)
  | type_change (s t c d : bytes)
  | type_member (s t c d : bytes)
  | genfscon (s t c : bytes).

Abbreviation SePolicy := (list Call).
Abbreviation ParseResult := (res ParseError).

(** The rest of the tokens is threaded through the parsers. *)
Definition Parser (A : Type) : Type := list Token → ParseResult (A * list Token).

Definition throw {A} : ParseResult A := Err General.

(** ** Terms *)

Definition parse_id : Parser bytes := λ tokens,
  match tokens with
  | ID name :: tokens => Ok (name, tokens)
  | _ => throw
  end.

(** The loop behind [{] in [parse_term]. *)
Fixpoint term_names (names : list bytes) (tokens : list Token) : ParseResult (list bytes * list Token) :=
  match tokens with
  | ID name :: tokens => term_names (names ++ [name]) tokens
  | RB :: tokens => Ok (names, tokens)
  | _ => throw
  end.

Definition parse_term : Parser (list bytes) := λ tokens,
  match tokens with
  | ID name :: tokens => Ok ([name], tokens)
  | LB :: tokens => term_names [] tokens
  | _ => throw
  end.

(** The loop behind [{] in [parse_sterm]: [None] once a [*] was seen. *)
Fixpoint sterm_names (names : option (list bytes)) (tokens : list Token) :
    ParseResult (list bytes * list Token) :=
  match tokens with
  | ID name :: tokens => sterm_names ((λ ns, ns ++ [name]) <$> names) tokens
  | ST :: tokens => sterm_names None tokens
  | RB :: tokens => Ok (default [] names, tokens)
  | _ => throw
  end.

Definition parse_sterm : Parser (list bytes) := λ tokens,
  match tokens with
  | ID name :: tokens => Ok ([name], tokens)
  | ST :: tokens => Ok ([], tokens)
  | LB :: tokens => sterm_names (Some []) tokens
  | _ => throw
  end.

(** ** Extended permissions *)

Definition parse_xperm_hex (s : bytes) : option Z :=
  match strip_prefix (bs "0x") s with
  | Some s => from_str_radix_u 16 16 s
  | None => None
  end.

Definition parse_xperm_range (s : bytes) : option (Z * Z) :=
  match split_once Byte.x2d s with
  | Some (low, high) =>
      match parse_xperm_hex low, parse_xperm_hex high with
      | Some low, Some high => Some (low, high)
      | _, _ => None
      end
  | None => None
  end.

Definition parse_xperm : Parser Xperm := λ tokens,
  match tokens with
  | HX low :: HP :: HX high :: tokens => Ok (mkXperm low high false, tokens)
  | HX low :: HP :: _ => throw
  | HX low :: tokens => Ok (mkXperm low low false, tokens)
  | ID s :: tokens =>
      match parse_xperm_range s with
      | Some (low, high) => Ok (mkXperm low high false, tokens)
      | None => throw
      end
  | _ => throw
  end.

Definition set_reset (r : bool) (x : Xperm) : Xperm := mkXperm (low x) (high x) r.

(** The [xperm_list] loop; the fuel bounds the tokens. *)
Fixpoint xperm_list (fuel : nat) (reset : bool) (xperms : list Xperm) (tokens : list Token) :
    ParseResult (list Xperm * list Token) :=
  match fuel with
  | O => NoFuel
  | S fuel =>
      '(x, tokens) ← parse_xperm tokens;
      let xperms := xperms ++ [set_reset reset x] in
      match tokens with
      | RB :: tokens => Ok (xperms, tokens)
      | _ => xperm_list fuel reset xperms tokens
      end
  end.

Definition parse_xperms : Parser (list Xperm) := λ tokens,
  '(reset, tokens) ←
    match tokens with
    | TL :: tokens => match tokens with LB :: _ => Ok (true, tokens) | _ => throw end
    | _ => Ok (false, tokens)
    end;
  match tokens with
  | LB :: tokens => xperm_list (S (length tokens)) reset [] tokens
  | ST :: tokens => Ok ([mkXperm 0x0000 0xFFFF reset], tokens)
  | HX low :: tokens =>
      Ok ([if 0 <? low then mkXperm low low reset else mkXperm 0x0000 0xFFFF reset], tokens)
  | ID s :: tokens =>
      match parse_xperm_range s with
      | Some (low, high) => Ok ([mkXperm low high reset], tokens)
      | None => throw
      end
  | _ => throw
  end.

Definition match_string (pattern : bytes) : Parser unit := λ tokens,
  match tokens with
  | ID s :: tokens => if bool_decide (s = pattern) then Ok (tt, tokens) else Err General
  | _ => Err General
  end.

(** ** Tokenizer *)

(** The literal words. *)
Definition keyword (s : bytes) : option (list Token) :=
  let lits := [("allow", [AL]); ("deny", [DN]); ("auditallow", [AA]); ("dontaudit", [DA]);
               ("allowxperm", [AX]); ("auditallowxperm", [AY]); ("dontauditxperm", [DX]);
               ("permissive", [PM]); ("enforce", [EF]); ("typeattribute", [TA]); ("type", [TY]);
               ("attribute", [AT]); ("type_transition", [TT]); ("type_change", [TC]);
               ("type_member", [TM]); ("genfscon", [GF]); ("*", [ST]); ("", [])]%string in
  snd <$> List.find (λ p, bool_decide (s = bs p.1)) lits.

Fixpoint extract_token (fuel : nat) (s : bytes) : res unit (list Token) :=
  match fuel with
  | O => NoFuel
  | S fuel =>
      match keyword s with
      | Some ts => Ok ts
      | None =>
          let around (a b : bytes) (t : Token) :=
            l ← extract_token fuel a;
            r ← extract_token fuel b;
            Ok (l ++ t :: r) in
          match split_once Byte.x7b s with
          | Some (a, b) => around a b LB
          | None =>
          match split_once Byte.x7d s with
          | Some (a, b) => around a b RB
          | None =>
          match split_once Byte.x2c s with
          | Some (a, b) => around a b CM
          | None =>
          match strip_prefix (bs "~") s with
          | Some s => l ← extract_token fuel s; Ok (TL :: l)
          | None =>
          match parse_xperm_hex s with
          | Some n => Ok [HX n]
          | None => Ok [ID s]
          end end end end end
      end
  end.

Fixpoint extract_all (ws : list bytes) : res unit (list Token) :=
  match ws with
  | [] => Ok []
  | w :: ws => l ← extract_token (S (length w)) w; r ← extract_all ws; Ok (l ++ r)
  end.

Definition tokenize_statement (statement : bytes) : res unit (list Token) :=
  extract_all (split_whitespace statement).

(** ** Statements *)

Definition check_additional_args (tokens : list Token) : ParseResult unit :=
  match tokens with [] => Ok tt | _ => Err General end.

(** [if result.is_err() { Err(hint)? }]. *)
Definition or_hint {A} (hint : ParseError) (r : ParseResult A) : ParseResult A :=
  match r with Err _ => Err hint | r => r end.

Definition four_ids (tokens : list Token) :
    ParseResult (bytes * bytes * bytes * bytes * list Token) :=
  '(s, tokens) ← parse_id tokens;
  '(t, tokens) ← parse_id tokens;
  '(c, tokens) ← parse_id tokens;
  '(d, tokens) ← parse_id tokens;
  Ok (s, t, c, d, tokens).

(** The one method call of a statement. *)
Definition exec_statement (tokens : list Token) : ParseResult Call :=
  match tokens with
  | [] => Err ShowHelp
  | action :: tokens =>
      match action with
      | AL | DN | AA | DA =>
          or_hint (AvtabAv action) (
            '(s, tokens) ← parse_sterm tokens;
            '(t, tokens) ← parse_sterm tokens;
            '(c, tokens) ← parse_sterm tokens;
            '(p, tokens) ← parse_sterm tokens;
            _ ← check_additional_args tokens;
            Ok (match action with
                | AL => allow s t c p
                | DN => deny s t c p
                | AA => auditallow s t c p
                | _ => dontaudit s t c p
                end))
      | AX | AY | DX =>
          or_hint (AvtabXperms action) (
            '(s, tokens) ← parse_sterm tokens;
            '(t, tokens) ← parse_sterm tokens;
            '(c, tokens) ← parse_sterm tokens;
            '(_, tokens) ← match_string (bs "ioctl") tokens;
            '(p, tokens) ← parse_xperms tokens;
            _ ← check_additional_args tokens;
            Ok (match action with
                | AX => allowxperm s t c p
                | AY => auditallowxperm s t c p
                | _ => dontauditxperm s t c p
                end))
      | PM | EF =>
          or_hint (TypeState action) (
            '(t, tokens) ← parse_sterm tokens;
            _ ← check_additional_args tokens;
            Ok (match action with PM => permissive t | _ => enforce t end))
      | TA =>
          or_hint TypeAttr (
            '(t, tokens) ← parse_term tokens;
            '(a, tokens) ← parse_term tokens;
            _ ← check_additional_args tokens;
            Ok (typeattribute t a))
      | TY =>
          or_hint NewType (
            '(t, tokens) ← parse_id tokens;
            '(a, tokens) ← match tokens with [] => Ok ([], []) | _ => parse_term tokens end;
            _ ← check_additional_args tokens;
            Ok (type_ t a))
      | AT =>
          or_hint NewAttr (
            '(t, tokens) ← parse_id tokens;
            _ ← check_additional_args tokens;
            Ok (attribute t))
      | TC | TM =>
          or_hint (AvtabType action) (
            '(s, t, c, d, tokens) ← four_ids tokens;
            _ ← check_additional_args tokens;
            Ok (match action with TC => type_change s t c d | _ => type_member s t c d end))
      | TT =>
          or_hint TypeTrans (
            '(s, t, c, d, tokens) ← four_ids tokens;
            '(o, tokens) ← match tokens with [] => Ok ([], []) | _ => parse_id tokens end;
            _ ← check_additional_args tokens;
            Ok (type_transition s t c d o))
      | GF =>
          or_hint GenfsCon (
            '(s, tokens) ← parse_id tokens;
            '(t, tokens) ← parse_id tokens;
            '(c, tokens) ← parse_id tokens;
            _ ← check_additional_args tokens;
            Ok (genfscon s t c))
      | _ => Err (UnknownAction action)
      end
  end.

(** The policy afterwards and the hint logged, if any. *)
Definition parse_statement (sepol : SePolicy) (statement : bytes) : SePolicy * option ParseError :=
  let statement := trim statement in
  if bool_decide (statement = []) || starts_with (bs "#") statement then (sepol, None)
  else match tokenize_statement statement with
       | Ok tokens =>
           match exec_statement tokens with
           | Ok call => (sepol ++ [call], None)
           | Err e => (sepol, Some e)
           | _ => (sepol, None)
           end
       | _ => (sepol, None)
       end.

Definition load_rules (sepol : SePolicy) (rules : bytes) : SePolicy :=
  for_each_line (λ sepol line, ((parse_statement sepol line).1, true)) sepol rules.

(** [load_rule_file]: a file that cannot be opened changes nothing. *)
Definition load_rule_file (sepol : SePolicy) (file : option bytes) : SePolicy :=
  match file with Some rules => load_rules sepol rules | None => sepol end.

(** ** Printing *)

Definition token_str (t : Token) : bytes :=
  match t with
  | AL => bs "allow" | DN => bs "deny" | AA => bs "auditallow" | DA => bs "dontaudit"
  | AX => bs "allowxperm" | AY => bs "auditallowxperm" | DX => bs "dontauditxperm"
  | PM => bs "permissive" | EF => bs "enforce" | TA => bs "typeattribute" | TY => bs "type"
  | AT => bs "attribute" | TT => bs "type_transition" | TC => bs "type_change"
  | TM => bs "type_member" | GF => bs "genfscon" | LB => bs "{" | RB => bs "}" | CM => bs ","
  | ST => bs "*" | TL => bs "~" | HP => bs "-"
  | HX n => fmt_hex true 6 n
  | ID s => s
  end.

(** [{:#06X}]: [0x] and at least four digits. *)
Definition alt_hex (n : Z) : bytes := bs "0x" ++ fmt_hex true 4 n.

Definition xperm_to_string (perm : Xperm) : bytes :=
  (if reset perm then bs "~" else []) ++
  (if low perm =? high perm then bs "{ " ++ alt_hex (low perm) ++ bs " }"
   else bs "{ " ++ alt_hex (low perm) ++ bs "-" ++ alt_hex (high perm) ++ bs " }").

(** [Display] of the errors; [help] is the text of [format_statement_help]. *)
Definition error_str (help : bytes) (e : ParseError) : bytes :=
  match e with
  | General => []
  | ShowHelp => help
  | AvtabAv a => token_str a ++ bs " *source_type *target_type *class *perm_set"
  | AvtabXperms a => token_str a ++ bs " *source_type *target_type *class operation xperm_set"
  | AvtabType a => token_str a ++ bs " source_type target_type class default_type"
  | TypeState a => token_str a ++ bs " *type"
  | TypeAttr => bs "typeattribute ^type ^attribute"
  | TypeTrans => bs "type_transition source_type target_type class default_type (object_name)"
  | NewType => bs "type type_name ^(attribute)"
  | NewAttr => bs "attribute attribute_name"
  | GenfsCon => bs "genfscon fs_name partial_path fs_context"
  | UnknownAction a => bs "Unknown action: " ++ [Byte.x22] ++ token_str a ++ [Byte.x22]
  end.

(** ** The tokenizer terminates *)

Lemma split_once_length c s a b :
  split_once c s = Some (a, b) → (length a < length s ∧ length b < length s)%nat.
Proof. intros [-> _]%split_once_Some. rewrite length_app. simpl. lia. Qed.

Lemma extract_token_total fuel s : (length s < fuel)%nat → ∃ ts, extract_token fuel s = Ok ts.
Proof.
  revert s. induction fuel as [|fuel IH]; intros s Hf; [lia|]. cbn [extract_token].
  destruct (keyword s); [eauto|].
  assert (Ha : ∀ c a b t, split_once c s = Some (a, b) →
    ∃ ts, (l ← extract_token fuel a; r ← extract_token fuel b; Ok (l ++ t :: r)) = Ok (E:=unit) ts).
  { intros c a b t [H1 H2]%split_once_length.
    destruct (IH a) as [l ->]; [lia|]. destruct (IH b) as [r ->]; [lia|]. eexists. done. }
  destruct (split_once Byte.x7b s) as [[a b]|] eqn:E1; [by eapply Ha|].
  destruct (split_once Byte.x7d s) as [[a b]|] eqn:E2; [by eapply Ha|].
  destruct (split_once Byte.x2c s) as [[a b]|] eqn:E3; [by eapply Ha|].
  destruct (strip_prefix (bs "~") s) as [s'|] eqn:E4.
  - apply strip_prefix_Some in E4 as ->. rewrite length_app in Hf. simpl in Hf.
    destruct (IH s') as [l ->]; [lia|]. eexists. done.
  - destruct (parse_xperm_hex s); eauto.
Qed.

Lemma extract_all_total ws : ∃ ts, extract_all ws = Ok ts.
Proof.
  induction ws as [|w ws [r Hr]]; [eexists; done|]. cbn [extract_all].
  destruct (extract_token_total (S (length w)) w) as [l ->]; [lia|]. rewrite Hr. eexists. done.
Qed.

Lemma extract_all_app ws vs l r :
  extract_all ws = Ok l → extract_all vs = Ok r → extract_all (ws ++ vs) = Ok (l ++ r).
Proof.
  intros Hw Hv. revert l Hw. induction ws as [|w ws IH]; intros l Hw.
  - injection Hw as <-. done.
  - cbn [extract_all app] in *. destruct (extract_token _ w) as [l1| | |]; try done.
    cbn [mbind res_bind] in *. destruct (extract_all ws) as [l2| | |]; try done.
    cbn [mbind res_bind] in *. injection Hw as <-. rewrite (IH l2 eq_refl).
    cbn [mbind res_bind]. by rewrite app_assoc.
Qed.

(** ** Outcomes *)

(** A parser that comes back. *)
Definition returns {E A} (r : res E A) : Prop :=
  match r with Ok _ | Err _ => True | Panic | NoFuel => False end.

Lemma returns_bind {E A B} (m : res E A) (f : A → res E B) :
  returns m → (∀ a, returns (f a)) → returns (mbind f m).
Proof. destruct m; simpl; auto. Qed.

Lemma parse_id_returns ts : returns (parse_id ts).
Proof. destruct ts as [|[] ts]; done. Qed.

Lemma term_names_returns ns ts : returns (term_names ns ts).
Proof. revert ns. induction ts as [|[] ts IH]; intros ns; simpl; auto. Qed.

Lemma parse_term_returns ts : returns (parse_term ts).
Proof. destruct ts as [|[] ts]; simpl; auto using term_names_returns. Qed.

Lemma sterm_names_returns ns ts : returns (sterm_names ns ts).
Proof. revert ns. induction ts as [|[] ts IH]; intros ns; simpl; auto. Qed.

Lemma parse_sterm_returns ts : returns (parse_sterm ts).
Proof. destruct ts as [|[] ts]; simpl; auto using sterm_names_returns. Qed.

Lemma match_string_returns p ts : returns (match_string p ts).
Proof. destruct ts as [|[] ts]; simpl; auto. by case_bool_decide. Qed.

Lemma parse_xperm_progress ts :
  returns (parse_xperm ts) ∧ ∀ x ts', parse_xperm ts = Ok (x, ts') → (length ts' < length ts)%nat.
Proof.
  destruct ts as [|t ts]; [done|]. destruct t; try done; simpl.
  - destruct ts as [|t ts]; [split; [done|]; intros ? ? [= _ <-]; simpl; lia|].
    destruct t; try (split; [done|]; intros ? ? [= _ <-]; simpl; lia).
    destruct ts as [|[] ts]; try done. split; [done|]. intros ? ? [= _ <-]. simpl. lia.
  - destruct (parse_xperm_range s) as [[l h]|]; [|done].
    split; [done|]. intros ? ? [= _ <-]. lia.
Qed.

Lemma xperm_list_returns fuel r xs ts : (length ts < fuel)%nat → returns (xperm_list fuel r xs ts).
Proof.
  revert xs ts. induction fuel as [|fuel IH]; intros xs ts Hf; [lia|]. cbn [xperm_list].
  destruct (parse_xperm_progress ts) as [Hr Hp].
  destruct (parse_xperm ts) as [[x ts']| | |]; try done. cbn [mbind res_bind].
  specialize (Hp x ts' eq_refl).
  assert (returns (xperm_list fuel r (xs ++ [set_reset r x]) ts')) by (apply IH; lia).
  by destruct ts' as [|[] ts'].
Qed.

Lemma parse_xperms_returns ts : returns (parse_xperms ts).
Proof.
  unfold parse_xperms. apply returns_bind; [by destruct ts as [|[] [|[] ts]]|].
  intros [r ts']. destruct ts' as [|[] ts']; try exact I.
  - apply xperm_list_returns. lia.
  - by destruct (parse_xperm_range s) as [[? ?]|].
Qed.

Lemma check_additional_args_returns ts : returns (check_additional_args ts).
Proof. by destruct ts. Qed.

Lemma four_ids_returns ts : returns (four_ids ts).
Proof.
  unfold four_ids. repeat (apply returns_bind; [apply parse_id_returns|]; intros [? ?]). done.
Qed.

Create HintDb parsers.
#[local] Hint Resolve returns_bind parse_id_returns parse_term_returns parse_sterm_returns
  match_string_returns parse_xperms_returns check_additional_args_returns four_ids_returns : parsers.

Lemma or_hint_cases {A} e (r : ParseResult A) :
  returns r → (∃ a, or_hint e r = Ok a) ∨ or_hint e r = Err e.
Proof. destruct r; simpl; naive_solver. Qed.

(** The hint for the action a statement begins with. *)
Definition hint (tokens : list Token) : ParseError :=
  match tokens with
  | [] => ShowHelp
  | a :: _ =>
      match a with
      | AL | DN | AA | DA => AvtabAv a
      | AX | AY | DX => AvtabXperms a
      | PM | EF => TypeState a
      | TC | TM => AvtabType a
      | TA => TypeAttr
      | TY => NewType
      | AT => NewAttr
      | TT => TypeTrans
      | GF => GenfsCon
      | _ => UnknownAction a
      end
  end.

Lemma exec_statement_cases tokens :
  (∃ call, exec_statement tokens = Ok call) ∨ exec_statement tokens = Err (hint tokens).
Proof.
  destruct tokens as [|a ts]; [by right|]. unfold exec_statement.
  destruct a; try (by right); apply or_hint_cases;
    repeat (apply returns_bind; [eauto with parsers|intros; repeat case_match]); try done.
  all: try (by destruct ts); try by destruct l.
  all: repeat match goal with |- context [match ?x with _ => _ end] => destruct x end;
    eauto with parsers; try done.
Qed.

(** A statement is always tokenized; a blank line or a comment changes nothing,
    any other statement either adds exactly one method call to the policy, or none,
    and then the hint logged is the usage of the action it begins with. *)
Theorem parse_statement_total sepol s :
  if bool_decide (trim s = []) || starts_with (bs "#") (trim s)
  then parse_statement sepol s = (sepol, None)
  else ∃ tokens, tokenize_statement (trim s) = Ok tokens ∧
    ((∃ call, exec_statement tokens = Ok call ∧ parse_statement sepol s = (sepol ++ [call], None)) ∨
     (parse_statement sepol s = (sepol, Some (hint tokens)))).
Proof.
  unfold parse_statement. destruct (_ || _); [done|].
  destruct (extract_all_total (split_whitespace (trim s))) as [ts Hts].
  exists ts. split; [exact Hts|]. unfold tokenize_statement. rewrite Hts.
  destruct (exec_statement_cases ts) as [[call ->]| ->]; eauto.
Qed.

(** ** Writing statements *)

(** A name that stands for itself: a word that is no keyword, has no punctuation
    of its own and is not a number. *)
Definition id_ok (s : bytes) : Prop :=
  no_ws s ∧ s ≠ [] ∧ keyword s = None ∧
  Byte.x7b ∉ s ∧ Byte.x7d ∉ s ∧ Byte.x2c ∉ s ∧
  strip_prefix (bs "~") s = None ∧ parse_xperm_hex s = None.

#[global] Instance id_ok_dec s : Decision (id_ok s).
Proof. unfold id_ok. apply _. Defined.

Definition u16 (z : Z) : Prop := 0 ≤ z < 2 ^ 16.
#[global] Instance u16_dec z : Decision (u16 z).
Proof. unfold u16. apply _. Defined.
Definition xperm_ok (x : Xperm) : Prop := u16 (low x) ∧ u16 (high x).

(** The words of a set, in braces or as the match-all star. *)
Definition set_words (ns : list bytes) : list bytes :=
  match ns with [] => [bs "*"] | [n] => [n] | _ => bs "{" :: ns ++ [bs "}"] end.
Definition set_tokens (ns : list bytes) : list Token :=
  match ns with [] => [ST] | [n] => [ID n] | _ => LB :: map ID ns ++ [RB] end.

(** The words of a list that may not be everything. *)
Definition list_words (ns : list bytes) : list bytes := bs "{" :: ns ++ [bs "}"].
Definition list_tokens (ns : list bytes) : list Token := LB :: map ID ns ++ [RB].

(** One extended permission. *)
Definition xperm_word (x : Xperm) : bytes :=
  if low x =? high x then alt_hex (low x) else alt_hex (low x) ++ bs "-" ++ alt_hex (high x).
Definition xperm_token (x : Xperm) : Token :=
  if low x =? high x then HX (low x) else ID (xperm_word x).

Definition xperms_words (r : bool) (xs : list Xperm) : list bytes :=
  (if r then bs "~{" else bs "{") :: map xperm_word xs ++ [bs "}"].
Definition xperms_tokens (r : bool) (xs : list Xperm) : list Token :=
  (if r then [TL; LB] else [LB]) ++ map xperm_token xs ++ [RB].

(** [toks ws ts]: the words [ws] are printable and tokenize to [ts]. *)
Definition toks (ws : list bytes) (ts : list Token) : Prop :=
  Forall (λ w, no_ws w ∧ w ≠ []) ws ∧ extract_all ws = Ok ts.

Lemma toks_nil : toks [] [].
Proof. split; [constructor|done]. Qed.

Lemma toks_app ws vs ts us : toks ws ts → toks vs us → toks (ws ++ vs) (ts ++ us).
Proof.
  intros [H1 H2] [H3 H4]. split; [by apply Forall_app|by apply extract_all_app].
Qed.

Lemma toks_cons w ws ts us : toks [w] ts → toks ws us → toks (w :: ws) (ts ++ us).
Proof. apply (toks_app [w]). Qed.

Lemma toks_word w ts : no_ws w → w ≠ [] → extract_token (S (length w)) w = Ok ts → toks [w] ts.
Proof.
  intros Hw Hn He. split; [by repeat constructor|]. cbn [extract_all]. rewrite He.
  cbn [mbind res_bind]. by rewrite app_nil_r.
Qed.

Lemma toks_id n : id_ok n → toks [n] [ID n].
Proof.
  intros (Hw & Hn & Hk & H1 & H2 & H3 & H4 & H5). apply toks_word; [done..|].
  cbn [extract_token]. rewrite Hk, (proj2 (split_once_None _ _) H1), (proj2 (split_once_None _ _) H2),
    (proj2 (split_once_None _ _) H3), H4, H5. done.
Qed.

Lemma toks_ids ns : Forall id_ok ns → toks ns (map ID ns).
Proof.
  induction 1 as [|n ns Hn Hns IH]; [apply toks_nil|]. apply (toks_cons n ns [ID n]); [|done].
  by apply toks_id.
Qed.

Lemma toks_lit w ts : bool_decide (no_ws w ∧ w ≠ []) = true →
  extract_token (S (length w)) w = Ok ts → toks [w] ts.
Proof. intros [Hw Hn]%bool_decide_eq_true_1 He. by apply toks_word. Qed.

Ltac lit := apply toks_lit; [vm_compute; reflexivity|vm_compute; reflexivity].

Lemma toks_braces ws ts : toks ws ts → toks (bs "{" :: ws ++ [bs "}"]) (LB :: ts ++ [RB]).
Proof.
  intros H. apply (toks_cons _ _ [LB]); [lit|]. apply toks_app; [done|]. lit.
Qed.

Lemma toks_set ns : Forall id_ok ns → toks (set_words ns) (set_tokens ns).
Proof.
  intros H. destruct ns as [|n [|n' ns]].
  - unfold set_words, set_tokens. lit.
  - apply toks_id. by apply Forall_inv in H.
  - by apply toks_braces, toks_ids.
Qed.

(** *** Hexadecimal words *)

Lemma alt_hex_fixed n : u16 n → alt_hex n = bs "0x" ++ hex_fixed true 4 n.
Proof. intros Hn. unfold alt_hex. by rewrite fmt_hex_fixed by (done || lia). Qed.

Lemma hex_digit_bytes d : 0 ≤ d < 16 →
  0x30 ≤ u8 (hex_digit true d) ≤ 0x39 ∨ 0x41 ≤ u8 (hex_digit true d) ≤ 0x46.
Proof. intros H. rewrite hex_digit_u8 by done. destruct (Z.ltb_spec d 10); lia. Qed.

Lemma hex_fixed_bytes n z :
  Forall (λ b, 0x30 ≤ u8 b ≤ 0x39 ∨ 0x41 ≤ u8 b ≤ 0x46) (hex_fixed true n z).
Proof.
  revert z. induction n as [|n IH]; intros z; [constructor|]. cbn [hex_fixed].
  apply Forall_app. split; [apply IH|]. constructor; [|constructor].
  apply hex_digit_bytes. pose proof (Z.mod_pos_bound z 16). lia.
Qed.

(** The bytes of printed permissions: digits, [x] and the dash of a range. *)
Definition hexish (b : byte) : Prop :=
  0x30 ≤ u8 b ≤ 0x39 ∨ 0x41 ≤ u8 b ≤ 0x46 ∨ u8 b = 0x78 ∨ u8 b = 0x2D.

Lemma alt_hex_hexish n : u16 n → Forall hexish (alt_hex n).
Proof.
  intros Hn. rewrite alt_hex_fixed by done. apply Forall_app. split.
  - repeat constructor; vm_compute; intuition congruence.
  - eapply Forall_impl; [apply hex_fixed_bytes|]. unfold hexish. simpl. lia.
Qed.

Lemma xperm_word_hexish x : xperm_ok x → Forall hexish (xperm_word x).
Proof.
  intros [H1 H2]. unfold xperm_word. destruct (_ =? _); [by apply alt_hex_hexish|].
  apply Forall_app. split; [by apply alt_hex_hexish|].
  change (bs "-" ++ alt_hex (high x)) with (Byte.x2d :: alt_hex (high x)).
  constructor; [by do 3 right|by apply alt_hex_hexish].
Qed.

Lemma hexish_not_in s b : Forall hexish s → ¬ hexish b → b ∉ s.
Proof. intros Hs Hb Hin. rewrite Forall_forall in Hs. by apply Hb, Hs. Qed.

Lemma keyword_zero s : keyword (Byte.x30 :: s) = None.
Proof. reflexivity. Qed.

Lemma parse_alt_hex n : u16 n → parse_xperm_hex (alt_hex n) = Some n.
Proof.
  intros Hn. rewrite alt_hex_fixed by done. unfold parse_xperm_hex. rewrite strip_prefix_app.
  unfold from_str_radix_u. pose proof (hex_fixed_bytes 4 n) as Hb.
  pose proof (length_hex_fixed true 4 n) as Hl.
  destruct (hex_fixed true 4 n) as [|c s] eqn:E; [done|].
  cbn [app]. rewrite (bool_decide_false (c = Byte.x2b)).
  2: { intros ->. apply Forall_inv in Hb. vm_compute in Hb. intuition congruence. }
  rewrite bool_decide_false by done. rewrite <- E, digits_val_hex by apply Hn.
  rewrite Z.mod_small by apply Hn. replace (0 * 16 ^ Z.of_nat 4 + n) with n by lia.
  unfold u16 in Hn. destruct (Z.ltb_spec n (2 ^ 16)); [done|lia].
Qed.

Lemma digits_val_dash acc s t : digits_val 16 acc (s ++ Byte.x2d :: t) = None.
Proof.
  revert acc. induction s as [|c s IH]; intros acc; [done|].
  cbn [app digits_val]. by destruct to_digit.
Qed.

Lemma parse_hex_range l h : u16 l →
  parse_xperm_hex (alt_hex l ++ bs "-" ++ h) = None.
Proof.
  intros Hl. rewrite alt_hex_fixed, <- app_assoc by done.
  unfold parse_xperm_hex. rewrite strip_prefix_app. unfold from_str_radix_u.
  pose proof (hex_fixed_bytes 4 l) as Hb. pose proof (length_hex_fixed true 4 l) as Hn.
  destruct (hex_fixed true 4 l) as [|c s] eqn:E; [done|]. cbn [app].
  cbn [app]. rewrite (bool_decide_false (c = Byte.x2b)).
  2: { intros ->. apply Forall_inv in Hb. vm_compute in Hb. intuition congruence. }
  rewrite bool_decide_false by done.
  change (c :: s ++ bs "-" ++ h) with ((c :: s) ++ Byte.x2d :: h). by rewrite digits_val_dash.
Qed.

Lemma parse_range l h : u16 l → u16 h →
  parse_xperm_range (alt_hex l ++ bs "-" ++ alt_hex h) = Some (l, h).
Proof.
  intros Hl Hh. unfold parse_xperm_range. cbn [app bs].
  change (bs "-" ++ alt_hex h) with (Byte.x2d :: alt_hex h). rewrite split_once_app.
  - by rewrite !parse_alt_hex.
  - rewrite alt_hex_fixed by done. rewrite elem_of_app. intros [H|H].
    + revert H. by_compute.
    + pose proof (hex_fixed_bytes 4 l) as Hb. rewrite Forall_forall in Hb. apply Hb in H.
      vm_compute in H. intuition congruence.
Qed.

Lemma toks_xperm x : xperm_ok x → toks [xperm_word x] [xperm_token x].
Proof.
  intros Hx. pose proof (xperm_word_hexish x Hx) as Hh. destruct Hx as [Hl Hu].
  assert (∃ s, xperm_word x = Byte.x30 :: s) as [s Hs].
  { unfold xperm_word. rewrite alt_hex_fixed by done. destruct (_ =? _); by eexists. }
  apply toks_word.
  - eapply Forall_impl; [exact Hh|]. unfold hexish. simpl. lia.
  - by rewrite Hs.
  - cbn [extract_token]. rewrite Hs at 1. rewrite keyword_zero.
    assert (∀ c, ¬ hexish c → split_once c (xperm_word x) = None) as Hc.
    { intros c Hc. by apply split_once_None, hexish_not_in. }
    rewrite !Hc by (vm_compute; intuition congruence).
    rewrite Hs at 1. change (strip_prefix (bs "~") (Byte.x30 :: s)) with (@None bytes). cbv iota.
    unfold xperm_token, xperm_word. destruct (low x =? high x).
    + by rewrite parse_alt_hex.
    + by rewrite parse_hex_range.
Qed.

Lemma toks_xperms r xs : Forall xperm_ok xs → toks (xperms_words r xs) (xperms_tokens r xs).
Proof.
  intros H. unfold xperms_words, xperms_tokens. apply toks_cons; [destruct r; lit|].
  apply toks_app; [|lit]. induction H as [|x xs Hx _ IH]; [apply toks_nil|].
  apply (toks_cons _ _ [xperm_token x]); [by apply toks_xperm|done].
Qed.

(** *** Parsing the tokens *)

Lemma sterm_names_ids acc ns rest :
  sterm_names (Some acc) (map ID ns ++ RB :: rest) = Ok (acc ++ ns, rest).
Proof.
  revert acc. induction ns as [|n ns IH]; intros acc; [by rewrite app_nil_r|].
  cbn [map app sterm_names]. change ((λ ns0, ns0 ++ [n]) <$> Some acc) with (Some (acc ++ [n])).
  rewrite IH. by rewrite <- app_assoc.
Qed.

Lemma parse_sterm_set ns rest : parse_sterm (set_tokens ns ++ rest) = Ok (ns, rest).
Proof.
  destruct ns as [|n [|n' ns]]; [done..|]. unfold set_tokens.
  change ((LB :: map ID (n :: n' :: ns) ++ [RB]) ++ rest)
    with (LB :: (map ID (n :: n' :: ns) ++ [RB]) ++ rest).
  rewrite <- app_assoc. cbn [app]. apply (sterm_names_ids [] (n :: n' :: ns)).
Qed.

Lemma term_names_ids acc ns rest :
  term_names acc (map ID ns ++ RB :: rest) = Ok (acc ++ ns, rest).
Proof.
  revert acc. induction ns as [|n ns IH]; intros acc; [by rewrite app_nil_r|].
  cbn [map app term_names]. rewrite IH. by rewrite <- app_assoc.
Qed.

Lemma parse_term_list ns rest : parse_term (list_tokens ns ++ rest) = Ok (ns, rest).
Proof.
  unfold list_tokens. cbn [app parse_term]. rewrite <- app_assoc. apply (term_names_ids []).
Qed.

Lemma parse_xperm_token x rest : xperm_ok x → (∀ t, rest ≠ HP :: t) →
  parse_xperm (xperm_token x :: rest) = Ok (set_reset false x, rest).
Proof.
  intros [Hl Hh] Hr. unfold xperm_token. destruct (Z.eqb_spec (low x) (high x)) as [E|E].
  - unfold set_reset. rewrite <- E. destruct rest as [|[] rest]; try done. by destruct (Hr rest).
  - cbn [parse_xperm]. unfold xperm_word. destruct (Z.eqb_spec (low x) (high x)); [done|].
    by rewrite parse_range.
Qed.

Lemma xperm_list_tokens r xs acc rest fuel :
  xs ≠ [] → Forall (λ x, xperm_ok x ∧ reset x = r) xs → (length xs ≤ fuel)%nat →
  xperm_list fuel r acc (map xperm_token xs ++ RB :: rest) = Ok (acc ++ xs, rest).
Proof.
  intros Hne Hxs. revert acc fuel. induction Hxs as [|x xs [Hx Hr] Hxs IH]; intros acc fuel Hf; [done|].
  destruct fuel as [|fuel]; [simpl in Hf; lia|]. cbn [map app xperm_list].
  rewrite parse_xperm_token; [|done|].
  2: { destruct xs as [|y ys]; [done|]. intros t. cbn [map app]. unfold xperm_token.
       by destruct (low y =? high y). }
  cbn [mbind res_bind].
  assert (set_reset r (set_reset false x) = x) as -> by (rewrite <- Hr; by destruct x).
  destruct xs as [|y ys]; [done|]. cbn [length] in Hf.
  specialize (IH ltac:(done) (acc ++ [x]) fuel ltac:(simpl; lia)). rewrite <- app_assoc in IH.
  cbn [map app] in *. rewrite <- IH. unfold xperm_token. by destruct (low y =? high y).
Qed.

Lemma parse_xperms_tokens r xs rest :
  xs ≠ [] → Forall (λ x, xperm_ok x ∧ reset x = r) xs →
  parse_xperms (xperms_tokens r xs ++ rest) = Ok (xs, rest).
Proof.
  intros Hne Hxs. unfold xperms_tokens, parse_xperms. rewrite <- !app_assoc.
  pose proof (xperm_list_tokens r xs [] rest
    (S (length (map xperm_token xs ++ RB :: rest))) Hne Hxs) as E.
  rewrite length_app, length_map in E. specialize (E ltac:(lia)).
  rewrite <- (length_map xperm_token xs), <- length_app in E.
  destruct r; cbn [app mbind res_bind]; exact E.
Qed.

(** ** Round trip *)

Definition av_words (s t c p : list bytes) : list bytes :=
  set_words s ++ set_words t ++ set_words c ++ set_words p.
Definition xav_words (s t c : list bytes) (p : list Xperm) : list bytes :=
  set_words s ++ set_words t ++ set_words c ++
  bs "ioctl" :: xperms_words (default false (reset <$> head p)) p.

(** A statement for each method call. *)
Definition call_words (c : Call) : list bytes :=
  match c with
  | allow s t c p => bs "allow" :: av_words s t c p
  | deny s t c p => bs "deny" :: av_words s t c p
  | auditallow s t c p => bs "auditallow" :: av_words s t c p
  | dontaudit s t c p => bs "dontaudit" :: av_words s t c p
  | allowxperm s t c p => bs "allowxperm" :: xav_words s t c p
  | auditallowxperm s t c p => bs "auditallowxperm" :: xav_words s t c p
  | dontauditxperm s t c p => bs "dontauditxperm" :: xav_words s t c p
  | permissive t => bs "permissive" :: set_words t
  | enforce t => bs "enforce" :: set_words t
  | typeattribute t a => bs "typeattribute" :: list_words t ++ list_words a
  | type_ t [] => [bs "type"; t]
  | type_ t a => [bs "type"; t] ++ list_words a
  | attribute t => [bs "attribute"; t]
  | type_transition s t c d o =>
      [bs "type_transition"; s; t; c; d] ++ if bool_decide (o = []) then [] else [o]
  | type_change s t c d => [bs "type_change"; s; t; c; d]
  | type_member s t c d => [bs "type_member"; s; t; c; d]
  | genfscon s t c => [bs "genfscon"; s; t; c]
  end.

Definition statement_of (c : Call) : bytes := join (bs " ") (call_words c).

Definition ids (l : list bytes) : Prop := Forall id_ok l.
(** One list is plain or complemented as a whole; 0 is not a permission. *)
Definition xperms_ok (p : list Xperm) : Prop :=
  p ≠ [] ∧ Forall (λ x, high x ≠ 0) p ∧ ∃ r, Forall (λ x, xperm_ok x ∧ reset x = r) p.

(** Calls whose arguments the documented grammar can express: its lists have at least one
    name, and the empty one stands for [*] where that is allowed. *)
Definition call_ok (c : Call) : Prop :=
  match c with
  | allow s t c p | deny s t c p | auditallow s t c p | dontaudit s t c p =>
      ids s ∧ ids t ∧ ids c ∧ ids p
  | allowxperm s t c p | auditallowxperm s t c p | dontauditxperm s t c p =>
      ids s ∧ ids t ∧ ids c ∧ xperms_ok p
  | permissive t | enforce t => ids t
  | typeattribute t a => t ≠ [] ∧ a ≠ [] ∧ ids t ∧ ids a
  | type_ t a => id_ok t ∧ ids a
  | attribute t => id_ok t
  | type_transition s t c d o => ids [s; t; c; d] ∧ (o = [] ∨ id_ok o)
  | type_change s t c d | type_member s t c d => ids [s; t; c; d]
  | genfscon s t c => ids [s; t; c]
  end.

Definition av_tokens (s t c p : list bytes) : list Token :=
  set_tokens s ++ set_tokens t ++ set_tokens c ++ set_tokens p ++ [].
Definition xav_tokens (s t c : list bytes) (p : list Xperm) : list Token :=
  set_tokens s ++ set_tokens t ++ set_tokens c ++
  ID (bs "ioctl") :: xperms_tokens (default false (reset <$> head p)) p ++ [].

Lemma toks_av s t c p : ids s → ids t → ids c → ids p → toks (av_words s t c p) (av_tokens s t c p).
Proof.
  intros. unfold av_words, av_tokens. rewrite app_nil_r. repeat apply toks_app; by apply toks_set.
Qed.

Lemma xperms_reset p : xperms_ok p →
  Forall (λ x, xperm_ok x ∧ reset x = default false (reset <$> head p)) p.
Proof.
  intros (Hne & _ & r & Hr). destruct p as [|x p]; [done|]. cbn. 
  pose proof (Forall_inv Hr) as [_ ->]. exact Hr.
Qed.

Lemma toks_xav s t c p : ids s → ids t → ids c → xperms_ok p → toks (xav_words s t c p) (xav_tokens s t c p).
Proof.
  intros Hs Ht Hc Hp%xperms_reset. unfold xav_words, xav_tokens. rewrite app_nil_r.
  do 3 (apply toks_app; [by apply toks_set|]). apply (toks_cons _ _ [ID (bs "ioctl")]); [lit|].
  apply toks_xperms. eapply Forall_impl; [exact Hp|]. by intros x [].
Qed.

Definition call_tokens (c : Call) : list Token :=
  match c with
  | allow s t c p => AL :: av_tokens s t c p
  | deny s t c p => DN :: av_tokens s t c p
  | auditallow s t c p => AA :: av_tokens s t c p
  | dontaudit s t c p => DA :: av_tokens s t c p
  | allowxperm s t c p => AX :: xav_tokens s t c p
  | auditallowxperm s t c p => AY :: xav_tokens s t c p
  | dontauditxperm s t c p => DX :: xav_tokens s t c p
  | permissive t => PM :: set_tokens t ++ []
  | enforce t => EF :: set_tokens t ++ []
  | typeattribute t a => TA :: list_tokens t ++ list_tokens a ++ []
  | type_ t [] => [TY; ID t]
  | type_ t a => TY :: ID t :: list_tokens a ++ []
  | attribute t => [AT; ID t]
  | type_transition s t c d o =>
      [TT; ID s; ID t; ID c; ID d] ++ if bool_decide (o = []) then [] else [ID o]
  | type_change s t c d => [TC; ID s; ID t; ID c; ID d]
  | type_member s t c d => [TM; ID s; ID t; ID c; ID d]
  | genfscon s t c => [GF; ID s; ID t; ID c]
  end.

Lemma toks_keyword w t ws ts : toks [w] [t] → toks ws ts → toks (w :: ws) (t :: ts).
Proof. apply (toks_cons w ws [t]). Qed.

Lemma toks_list l : ids l → toks (list_words l) (list_tokens l).
Proof. intros. by apply toks_braces, toks_ids. Qed.

Lemma toks_call c : call_ok c → toks (call_words c) (call_tokens c).
Proof.
  destruct c; cbn [call_ok call_words call_tokens]; intros H.
  1-4: destruct H as (? & ? & ? & ?); apply toks_keyword; [lit|by apply toks_av].
  1-3: destruct H as (? & ? & ? & ?); apply toks_keyword; [lit|by apply toks_xav].
  1-2: rewrite app_nil_r; apply toks_keyword; [lit|by apply toks_set].
  - destruct H as (_ & _ & ? & ?). rewrite app_nil_r. apply toks_keyword; [lit|].
    apply toks_app; by apply toks_list.
  - destruct H as [Ht Ha]. destruct a as [|x a].
    + apply toks_keyword; [lit|]. by apply toks_id.
    + rewrite app_nil_r. apply toks_keyword; [lit|]. apply toks_keyword; [by apply toks_id|].
      by apply toks_list.
  - apply toks_keyword; [lit|by apply toks_id].
  - destruct H as [H Ho]. apply toks_keyword; [lit|]. apply (toks_app [s; t; c; d] _ (map ID [s; t; c; d])).
    + by apply toks_ids.
    + case_bool_decide; [apply toks_nil|]. destruct Ho; [done|]. by apply toks_id.
  - apply toks_keyword; [lit|]. by apply (toks_ids [s; t; c; d]).
  - apply toks_keyword; [lit|]. by apply (toks_ids [s; t; c; d]).
  - apply toks_keyword; [lit|]. by apply (toks_ids [s; t; c]).
Qed.

Lemma exec_av s t c p a :
  a = AL ∨ a = DN ∨ a = AA ∨ a = DA →
  exec_statement (a :: av_tokens s t c p) =
  Ok (match a with AL => allow s t c p | DN => deny s t c p | AA => auditallow s t c p
      | _ => dontaudit s t c p end).
Proof.
  unfold av_tokens. intros [-> | [-> | [-> | ->]]]; unfold exec_statement;
    rewrite parse_sterm_set; cbn [mbind res_bind]; rewrite parse_sterm_set; cbn [mbind res_bind];
    rewrite parse_sterm_set; cbn [mbind res_bind]; rewrite parse_sterm_set; done.
Qed.

Lemma exec_xav s t c p a : xperms_ok p →
  a = AX ∨ a = AY ∨ a = DX →
  exec_statement (a :: xav_tokens s t c p) =
  Ok (match a with AX => allowxperm s t c p | AY => auditallowxperm s t c p
      | _ => dontauditxperm s t c p end).
Proof.
  intros Hp Ha. pose proof (xperms_reset p Hp) as Hr. destruct Hp as [Hne _].
  pose proof (parse_xperms_tokens _ p [] Hne Hr) as E.
  unfold xav_tokens. destruct Ha as [-> | [-> | ->]]; unfold exec_statement;
    rewrite parse_sterm_set; cbn [mbind res_bind]; rewrite parse_sterm_set; cbn [mbind res_bind];
    rewrite parse_sterm_set; cbn [mbind res_bind match_string];
    rewrite bool_decide_true by done; cbn [mbind res_bind]; rewrite E; done.
Qed.

Lemma exec_call c : call_ok c → exec_statement (call_tokens c) = Ok c.
Proof.
  destruct c; cbn [call_ok call_tokens]; intros H.
  1-4: rewrite exec_av by tauto; done.
  1-3: rewrite exec_xav by tauto; done.
  1-2: unfold exec_statement; by rewrite parse_sterm_set.
  - unfold exec_statement. rewrite parse_term_list. cbn [mbind res_bind].
    by rewrite parse_term_list.
  - destruct a as [|x a]; [done|]. unfold exec_statement. cbn [parse_id mbind res_bind].
    pose proof (parse_term_list (x :: a) []) as E.
    change (list_tokens (x :: a) ++ []) with (LB :: (map ID (x :: a) ++ [RB]) ++ []) in *.
    by rewrite E.
  - done.
  - by case_bool_decide; subst.
  - done.
  - done.
  - done.
Qed.

Lemma call_words_head c : ∃ w ws, call_words c = w :: ws ∧ starts_with (bs "#") w = false ∧
  strip_prefix (bs "#") w = None.
Proof. destruct c; cbn [call_words]; try destruct a; do 2 eexists; done. Qed.

(** C13: every method of the policy can be reached: writing a call in the documented
    grammar, with names, sets in braces or [*], and hexadecimal permissions single
    or as ranges, plain or complemented, and parsing the statement makes exactly
    that call.  Names are plain words that are no keywords, permissions are not 0, and a
    list in braces is not empty ([empty_braces_match_all] and [xperm_zero_allows_all] are about what
    the parser does with those). *)
Theorem statement_roundtrip sepol c :
  call_ok c → parse_statement sepol (statement_of c) = (sepol ++ [c], None).
Proof.
  intros Hc. destruct (toks_call c Hc) as [Hw He]. unfold parse_statement, statement_of.
  destruct (call_words_head c) as (w & ws & E & Hh & _). rewrite E in *.
  rewrite trim_join by done.
  destruct (join_words_shape w ws Hw) as [(b & s & Ej & _ & w' & ->) _].
  rewrite bool_decide_false by (by rewrite Ej).
  assert (starts_with (bs "#") (join (bs " ") ((b :: w') :: ws)) = false) as ->.
  { rewrite Ej. revert Hh. unfold starts_with. change (bs "#") with [Byte.x23].
    cbn [strip_prefix]. by case_bool_decide. }
  cbn [orb]. unfold tokenize_statement. rewrite split_whitespace_join, He by done.
  by rewrite exec_call.
Qed.

Lemma join_app_tail ws w vs : ws ≠ [] →
  join (bs " ") (ws ++ w :: vs) = join (bs " ") ws ++ bs " " ++ join (bs " ") (w :: vs).
Proof.
  intros Hne. induction ws as [|x ws IH]; [done|]. destruct ws as [|y ws]; [done|].
  cbn [app join] in *. rewrite IH by done. by rewrite <- !app_assoc.
Qed.

(** A permission printed by [xperm_to_string] reads back as the same permission. *)
Theorem xperm_roundtrip x rest : xperm_ok x →
  ∃ ts, tokenize_statement (xperm_to_string x) = Ok ts ∧ parse_xperms (ts ++ rest) = Ok ([x], rest).
Proof.
  intros Hx. exists (xperms_tokens (reset x) [x]). split.
  - destruct (toks_xperms (reset x) [x]) as [Hw He]; [by constructor|].
    assert (xperm_to_string x = join (bs " ") (xperms_words (reset x) [x])) as ->.
    { unfold xperm_to_string, xperms_words, xperm_word. cbn [map app join].
      destruct (reset x), (low x =? high x); rewrite <- ?app_assoc; done. }
    unfold tokenize_statement. by rewrite split_whitespace_join.
  - apply parse_xperms_tokens; [done|]. by constructor.
Qed.

(** Statements behind a keyword, by their words. *)
Lemma parse_words sepol w ws ts c :
  toks (w :: ws) ts → strip_prefix (bs "#") w = None → exec_statement ts = Ok c →
  parse_statement sepol (join (bs " ") (w :: ws)) = (sepol ++ [c], None).
Proof.
  intros [Hw He] Hh Hc. unfold parse_statement. rewrite trim_join by done.
  destruct (join_words_shape w ws Hw) as [(b & s & Ej & _ & w' & ->) _].
  rewrite bool_decide_false by (by rewrite Ej).
  assert (starts_with (bs "#") (join (bs " ") ((b :: w') :: ws)) = false) as ->.
  { rewrite Ej. revert Hh. unfold starts_with. change (bs "#") with [Byte.x23].
    cbn [strip_prefix]. by case_bool_decide. }
  cbn [orb]. unfold tokenize_statement. rewrite split_whitespace_join, He by done. by rewrite Hc.
Qed.

Definition xav_prefix (s t c : list bytes) : list bytes :=
  bs "allowxperm" :: set_words s ++ set_words t ++ set_words c ++ [bs "ioctl"].

(** The value [0x0] does not clear anything: [ioctl 0x0] makes the same call as
    [ioctl *], an allow rule for every ioctl command. *)
Theorem xperm_zero_allows_all sepol s t c : ids s → ids t → ids c →
  let all := allowxperm s t c [mkXperm 0 0xFFFF false] in
  parse_statement sepol (join (bs " ") (xav_prefix s t c ++ [bs "0x0"])) = (sepol ++ [all], None) ∧
  parse_statement sepol (join (bs " ") (xav_prefix s t c ++ [bs "*"])) = (sepol ++ [all], None).
Proof.
  intros Hs Ht Hc all.
  assert (∀ w tk, toks [w] [tk] → parse_xperms [tk] = Ok ([mkXperm 0 0xFFFF false], []) →
    parse_statement sepol (join (bs " ") (xav_prefix s t c ++ [w])) = (sepol ++ [all], None)) as H.
  { intros w tk Hw Hp. unfold xav_prefix. cbn [app]. rewrite <- !app_assoc.
    apply (parse_words _ _ _ (AX :: set_tokens s ++ set_tokens t ++ set_tokens c ++
      [ID (bs "ioctl"); tk])).
    - apply toks_keyword; [lit|]. do 3 (apply toks_app; [by apply toks_set|]).
      apply toks_keyword; [lit|done].
    - done.
    - unfold exec_statement. rewrite parse_sterm_set. cbn [mbind res_bind].
      rewrite parse_sterm_set. cbn [mbind res_bind]. rewrite parse_sterm_set.
      cbn [mbind res_bind match_string]. rewrite bool_decide_true by done.
      cbn [mbind res_bind]. by rewrite Hp. }
  split; [apply (H _ (HX 0))|apply (H _ ST)]; try done; lit.
Qed.

(** Empty braces are accepted and mean everything: as the source of a rule they
    make the same call as [*]. *)
Theorem empty_braces_match_all sepol t c p : ids t → ids c → ids p →
  let rest := set_words t ++ set_words c ++ set_words p in
  parse_statement sepol (join (bs " ") (bs "allow" :: bs "{" :: bs "}" :: rest)) =
    (sepol ++ [allow [] t c p], None) ∧
  parse_statement sepol (join (bs " ") (bs "allow" :: bs "*" :: rest)) =
    (sepol ++ [allow [] t c p], None).
Proof.
  intros Ht Hc Hp rest.
  assert (toks rest (set_tokens t ++ set_tokens c ++ set_tokens p ++ [])) as Hr.
  { unfold rest. rewrite app_nil_r. repeat apply toks_app; by apply toks_set. }
  assert (∀ u, parse_sterm (set_tokens t ++ u) = Ok (t, u)) as Et by (intros; apply parse_sterm_set).
  split.
  - apply (parse_words _ _ _ (AL :: LB :: RB :: set_tokens t ++ set_tokens c ++ set_tokens p ++ []));
      [repeat (apply toks_keyword; [lit|]); done|done|].
    unfold exec_statement. cbn [parse_sterm sterm_names default mbind res_bind].
    rewrite Et. cbn [mbind res_bind]. rewrite parse_sterm_set. cbn [mbind res_bind].
    by rewrite parse_sterm_set.
  - apply (parse_words _ _ _ (AL :: ST :: set_tokens t ++ set_tokens c ++ set_tokens p ++ []));
      [repeat (apply toks_keyword; [lit|]); done|done|].
    unfold exec_statement. cbn [parse_sterm mbind res_bind].
    rewrite Et. cbn [mbind res_bind]. rewrite parse_sterm_set. cbn [mbind res_bind].
    by rewrite parse_sterm_set.
Qed.

(** ** The built-in rules *)

Definition SEPOL_PROC_DOMAIN : bytes := bs "magisk".
Definition SEPOL_FILE_TYPE : bytes := bs "magisk_file".
Definition SEPOL_LOG_TYPE : bytes := bs "magisk_log_file".

Definition magisk_rules : list Call :=
  let proc := SEPOL_PROC_DOMAIN in
  let file := SEPOL_FILE_TYPE in
  let log := SEPOL_LOG_TYPE in
  let all := [] in
  let xall := [mkXperm 0x0000 0xFFFF false] in
  let svcmgr := [bs "servicemanager"; bs "vndservicemanager"; bs "hwservicemanager"] in
  [ deny all [bs "kernel"] [bs "security"] [bs "load_policy"];
    type_ proc [bs "domain"];
    typeattribute [proc] [bs "mlstrustedsubject"; bs "netdomain"; bs "appdomain"];
    type_ file [bs "file_type"];
    typeattribute [file] [bs "mlstrustedobject"];
    type_ log [bs "file_type"];
    typeattribute [log] [bs "mlstrustedobject"];
    allow [bs "domain"] [file]
      [bs "file"; bs "dir"; bs "fifo_file"; bs "chr_file"; bs "lnk_file"; bs "sock_file"] all;
    allow [bs "zygote"] [log] [bs "fifo_file"] [bs "open"; bs "read"];
    allow [bs "domain"] [log] [bs "fifo_file"] [bs "write"];
    allow [proc] [bs "fs_type"; bs "dev_type"; bs "file_type"; bs "domain";
                  bs "service_manager_type"; bs "hwservice_manager_type"; bs "vndservice_manager_type";
                  bs "port_type"; bs "node_type"; bs "property_type"] all all;
    permissive [proc];
    allowxperm [proc] [bs "fs_type"; bs "dev_type"; bs "file_type"; bs "domain"]
      [bs "blk_file"; bs "fifo_file"; bs "chr_file"] xall;
    allowxperm [proc] [proc] [bs "tcp_socket"; bs "udp_socket"; bs "rawip_socket"] xall;
    allow svcmgr [proc] [bs "dir"] [bs "search"];
    allow svcmgr [proc] [bs "file"] [bs "open"; bs "read"; bs "map"];
    allow svcmgr [proc] [bs "process"] [bs "getattr"];
    allow [bs "domain"] [proc] [bs "binder"] [bs "call"; bs "transfer"];
    allow [bs "domain"] [proc] [bs "process"] [bs "sigchld"];
    allow [bs "domain"] [proc] [bs "fd"] [bs "use"];
    allow [bs "domain"] [proc] [bs "fifo_file"] [bs "write"; bs "read"; bs "open"; bs "getattr"];
    allow [bs "zygote"; bs "shell"; bs "platform_app"; bs "system_app"; bs "priv_app";
           bs "untrusted_app"; bs "untrusted_app_all"]
      [proc] [bs "unix_stream_socket"] [bs "connectto"; bs "getopt"];
    allow [bs "init"; bs "zygote"; bs "shell"] [bs "tmpfs"] [bs "file"] all;
    allow [bs "kernel"] [bs "rootfs"; bs "tmpfs"] [bs "chr_file"] [bs "write"];
    allow [bs "kernel"] [bs "tmpfs"] [bs "fifo_file"] [bs "open"; bs "read"; bs "write"];
    allow [bs "rootfs"] [bs "labeledfs"; bs "tmpfs"] [bs "filesystem"] [bs "associate"];
    allow [file] [bs "pipefs"; bs "devpts"] [bs "filesystem"] [bs "associate"];
    allow [bs "kernel"] all [bs "file"] [bs "relabelto"];
    allow [bs "kernel"] [bs "tmpfs"] [bs "file"] [bs "relabelfrom"];
    allow [bs "kernel"] [bs "kernel"] [bs "process"] [bs "setcurrent"];
    allow [bs "kernel"] [proc] [bs "process"] [bs "dyntransition"];
    allow [bs "init"] [proc] [bs "process"] all;
    allow [bs "zygote"] [bs "zygote"] [bs "process"] [bs "execmem"];
    allow [bs "zygote"] [bs "fs_type"] [bs "filesystem"] [bs "unmount"];
    allow [bs "system_server"] [bs "system_server"] [bs "process"] [bs "execmem"];
    dontaudit [bs "llkd"] [proc] [bs "process"] [bs "ptrace"];
    deny [bs "init"] [bs "adb_data_file"] [bs "dir"] [bs "search"];
    deny [bs "vendor_init"] [bs "adb_data_file"] [bs "dir"] [bs "search"] ].

(** The types a call mentions as source or target. *)
Definition mentions (c : Call) : list bytes :=
  match c with
  | allow s t _ _ | deny s t _ _ | auditallow s t _ _ | dontaudit s t _ _ => s ++ t
  | allowxperm s t _ _ | auditallowxperm s t _ _ | dontauditxperm s t _ _ => s ++ t
  | permissive t | enforce t | typeattribute t _ => t
  | _ => []
  end.

Definition magisk_types : list bytes := [SEPOL_PROC_DOMAIN; SEPOL_FILE_TYPE; SEPOL_LOG_TYPE].

Definition declares (ty : bytes) (c : Call) : bool :=
  match c with type_ t _ => bool_decide (t = ty) | _ => false end.

(** Every mention of one of Magisk's types stands behind its declaration. *)
Fixpoint declared_first (pre cs : list Call) : bool :=
  match cs with
  | [] => true
  | c :: cs =>
      forallb (λ ty, negb (bool_decide (ty ∈ mentions c)) || existsb (declares ty) pre) magisk_types
      && declared_first (pre ++ [c]) cs
  end.

Lemma declared_first_ok pre0 cs pre c post ty :
  declared_first pre0 cs = true → cs = pre ++ c :: post → ty ∈ magisk_types → ty ∈ mentions c →
  ∃ attrs, type_ ty attrs ∈ pre0 ++ pre.
Proof.
  revert pre0 cs. induction pre as [|d pre IH]; intros pre0 cs Hd -> Hty Hm;
    cbn [app declared_first] in Hd; apply andb_true_iff in Hd as [H1 H2].
  - rewrite app_nil_r. rewrite forallb_forall in H1. specialize (H1 ty).
    rewrite bool_decide_true in H1 by done. cbn [negb orb] in H1.
    assert (existsb (declares ty) pre0 = true) as [x [Hin Hx]]%existsb_exists
      by (apply H1; by apply list_elem_of_In).
    destruct x; try done. cbn [declares] in Hx. apply bool_decide_eq_true_1 in Hx as <-.
    exists a. by apply list_elem_of_In.
  - destruct (IH _ _ H2 eq_refl Hty Hm) as [attrs Ha]. rewrite <- app_assoc in Ha. eauto.
Qed.

(** The built-in rules only use Magisk's own three types after declaring them,
    can all be written as statements, and loading these statements from a rule file
    makes the same calls in the same order. *)
Theorem magisk_rules_ok :
  (∀ pre c post ty, magisk_rules = pre ++ c :: post →
     ty ∈ magisk_types → ty ∈ mentions c →
     ∃ attrs, type_ ty attrs ∈ pre) ∧
  load_rules [] (concat (map (λ c, statement_of c ++ [LF]) magisk_rules)) = magisk_rules.
Proof.
  split; [|vm_compute; reflexivity].
  intros pre c post ty E Hty Hm. apply (declared_first_ok [] magisk_rules pre c post ty); try done.
Qed.

(** *** Instances *)

Definition dom : list bytes := [bs "untrusted_app"].
Definition range_perm : Xperm := mkXperm 0x8910 0x8926 true.

Lemma statement_roundtrip_witness :
  parse_statement [] (statement_of (allowxperm dom [] [bs "a"; bs "b"]
    [range_perm; mkXperm 0x10 0x10 true])) =
  ([allowxperm dom [] [bs "a"; bs "b"] [range_perm; mkXperm 0x10 0x10 true]], None).
Proof.
  apply (statement_roundtrip [] (allowxperm dom [] [bs "a"; bs "b"]
    [range_perm; mkXperm 0x10 0x10 true])).
  split_and!; [by_compute..|]. split_and!; [done|by_compute|]. exists true. by_compute.
Defined.

Lemma xperm_roundtrip_witness :
  ∃ ts, tokenize_statement (xperm_to_string range_perm) = Ok ts ∧
        parse_xperms (ts ++ [RB]) = Ok ([range_perm], [RB]).
Proof. apply (xperm_roundtrip range_perm [RB]). by_compute. Defined.

Lemma xperm_zero_allows_all_witness :
  parse_statement [] (bs "allowxperm untrusted_app * tcp_socket ioctl 0x0") =
  ([allowxperm dom [] [bs "tcp_socket"] [mkXperm 0 0xFFFF false]], None).
Proof.
  pose proof (xperm_zero_allows_all [] dom [] [bs "tcp_socket"] ltac:(by_compute) ltac:(by_compute)
    ltac:(by_compute)) as [H _]. exact H.
Defined.

Lemma empty_braces_match_all_witness :
  parse_statement [] (bs "allow { } untrusted_app file *") =
  ([allow [] dom [bs "file"] []], None).
Proof.
  pose proof (empty_braces_match_all [] dom [bs "file"] [] ltac:(by_compute) ltac:(by_compute)
    ltac:(by_compute)) as [H _]. exact H.
Defined.

Lemma magisk_rules_ok_witness :
  ∃ attrs, type_ SEPOL_PROC_DOMAIN attrs ∈ take 2 magisk_rules.
Proof.
  destruct magisk_rules_ok as [H _].
  apply (H (take 2 magisk_rules)
           (typeattribute [SEPOL_PROC_DOMAIN] [bs "mlstrustedsubject"; bs "netdomain"; bs "appdomain"])
           (drop 3 magisk_rules) SEPOL_PROC_DOMAIN); [reflexivity|by_compute|by_compute].
Defined.
