(* ===== verification/PolicyCli.v ===== *)
(** PolicyCli: the [magiskpolicy] command, [native/src/sepolicy/cli.rs].

    [run] is the closure of [main] after argument parsing.  Loading a policy and
    writing it to a file are C++ ([load_policy], [to_file]); a loaded policy is
    represented by the calls made on it since, so a fresh one is empty.  The
    events are what the command does to the outside, in order. *)

From S2P Require Import Prelude Text Statement.

Record Cli := mkCli {
  live : bool; magisk : bool; compile_split : bool; load_split : bool; print_rules : bool;
  load : option bytes; save : option bytes; apply_ : list bytes; polices : list bytes }.

Inductive Source := FromFile (f : bytes) | FromSplit | CompileSplit.

Inductive Event :=
  | Printed (sepol : SePolicy)
  | Written (file : bytes) (sepol : SePolicy).

Section Cli.
Context (load_policy : Source → bool) (to_file : SePolicy → bytes → bool).
(** The rule files that can be opened. *)
Context (read_file : bytes → option bytes).

Definition source (cli : Cli) : LoggedResult Source :=
  match load cli, load_split cli, compile_split cli with
  | Some file, false, false => Ok (FromFile file)
  | None, true, false => Ok FromSplit
  | None, false, true => Ok CompileSplit
  | None, false, false => Ok (FromFile (bs "/sys/fs/selinux/policy"))
  | _, _, _ => Err tt
  end.

(** The policy after the rules, the files and the statements. *)
Definition patched (cli : Cli) : SePolicy :=
  let sepol := [] in
  let sepol := if magisk cli then sepol ++ magisk_rules else sepol in
  let sepol := foldl (λ sepol f, load_rule_file sepol (read_file f)) sepol (apply_ cli) in
  foldl load_rules sepol (polices cli).

(** What was done, and whether the command succeeded. *)
Definition run (cli : Cli) : list Event * LoggedResult unit :=
  match source cli with
  | Ok src =>
      if negb (load_policy src) then ([], Err tt)
      else if print_rules cli then
        if magisk cli || negb (bool_decide (apply_ cli = [])) || negb (bool_decide (polices cli = []))
           || live cli || bool_decide (is_Some (save cli))
        then ([], Err tt)
        else ([Printed []], Ok tt)
      else
        let sepol := patched cli in
        let live_file := bs "/sys/fs/selinux/load" in
        let ev := if live cli then [Written live_file sepol] else [] in
        if live cli && negb (to_file sepol live_file) then (ev, Err tt)
        else match save cli with
             | None => (ev, Ok tt)
             | Some file =>
                 (ev ++ [Written file sepol], if to_file sepol file then Ok tt else Err tt)
             end
  | Err e => ([], Err e)
  | Panic => ([], Panic)
  | NoFuel => ([], NoFuel)
  end.

(** [main]: the exit code; [None] are arguments that were not parsed. *)
Definition main (argc : Z) (cli : option Cli) : list Event * Z :=
  if argc <? 2 then ([], 1)
  else match cli with
       | None => ([], 1)
       | Some cli => let '(ev, r) := run cli in (ev, if is_ok r then 0 else 1)
       end.

(** [magiskpolicy] exits with 0 exactly when it did everything asked: with
    [--print-rules] it only prints an unmodified policy, otherwise it writes the
    policy with the built-in rules, the rule files and the statements applied in
    this order, to the kernel first and then to the file, and nothing else. *)
Theorem main_success argc cli ev :
  2 ≤ argc → main argc (Some cli) = (ev, 0) →
  ∃ src, source cli = Ok src ∧ load_policy src = true ∧
  if print_rules cli
  then ev = [Printed []] ∧ magisk cli = false ∧ apply_ cli = [] ∧ polices cli = [] ∧
       live cli = false ∧ save cli = None
  else ev = map (λ f, Written f (patched cli))
              ((if live cli then [bs "/sys/fs/selinux/load"] else []) ++
               match save cli with Some f => [f] | None => [] end) ∧
       Forall (λ e, match e with Written f p => to_file p f = true | _ => False end) ev.
Proof.
  intros Hargc. unfold main. destruct (Z.ltb_spec argc 2); [lia|].
  unfold run. destruct (source cli) as [src|[]| |]; try done.
  destruct (load_policy src) eqn:Hl; [|done]. intros HR. exists src. do 2 (split; [done|]).
  cbn [negb] in HR. destruct (print_rules cli).
  - destruct (magisk cli), (live cli); cbn [orb] in HR; rewrite ?orb_true_r in HR; try done.
    repeat case_bool_decide; try done. cbn in HR. injection HR as <-.
    repeat split; try done. by apply eq_None_not_Some.
  - destruct (live cli) eqn:Hlive; cbn [andb app map] in *.
    + destruct (to_file (patched cli) _) eqn:Ht; [|done]. cbn [negb] in HR.
      destruct (save cli) as [f|]; [destruct (to_file (patched cli) f) eqn:Hf; [|done]|];
        injection HR as <-; split; repeat constructor; done.
    + destruct (save cli) as [f|]; [destruct (to_file (patched cli) f) eqn:Hf; [|done]|];
        injection HR as <-; split; repeat constructor; done.
Qed.
End Cli.

Definition cli_sample : Cli :=
  mkCli true true false true false None (Some (bs "out")) [] [bs "permissive su"].

Lemma main_success_witness :
  ∃ src, source cli_sample = Ok src ∧ (λ _ : Source, true) src = true ∧
  [Written (bs "/sys/fs/selinux/load") (patched (λ _, None) cli_sample);
   Written (bs "out") (patched (λ _, None) cli_sample)] =
  map (λ f, Written f (patched (λ _, None) cli_sample)) [bs "/sys/fs/selinux/load"; bs "out"] ∧
  Forall (λ e, match e with Written f p => true = true | _ => False end)
    [Written (bs "/sys/fs/selinux/load") (patched (λ _, None) cli_sample);
     Written (bs "out") (patched (λ _, None) cli_sample)].
Proof.
  apply (main_success (λ _, true) (λ _ _, true) (λ _, None) 3 cli_sample); [lia|reflexivity].
Defined.
