(* ===== verification/Io.v ===== *)
(** Io: sequences of operating-system calls.

    A computation [Io Op A] extends the trace of the calls made so far and ends in
    an outcome.  Whether a call succeeds is decided by the environment, which sees
    the trace before it ([Env]); theorems hold for every environment.  [call],
    [ignore] ([.ok()], [.log_ok()]) and [for_each] are the ways the program
    strings calls together. *)

From S2P Require Import Prelude.

Definition Io (Op A : Type) : Type := list Op → list Op * LoggedResult A.

#[global] Instance io_ret Op : MRet (Io Op) := fun A a h => (h, Ok a).
#[global] Instance io_bind Op : MBind (Io Op) := fun A B f m h =>
  match m h with
  | (h, Ok a) => f a h
  | (h, Err e) => (h, Err e)
  | (h, Panic) => (h, Panic)
  | (h, NoFuel) => (h, NoFuel)
  end.

(** The environment: does this call succeed after that trace? *)
Definition Env (Op : Type) : Type := list Op → Op → bool.

Section Io.
Context {Op : Type}.

Definition call (env : Env Op) (o : Op) : Io Op unit :=
  λ h, (h ++ [o], if env h o then Ok tt else Err tt).

(** A pure outcome. *)
Definition lift {A} (r : LoggedResult A) : Io Op A := λ h, (h, r).

Definition fail {A} : Io Op A := lift (Err tt).

(** The trace so far, for questions to the environment. *)
Definition history : Io Op (list Op) := λ h, (h, Ok h).

(** The error is dropped, a panic is not. *)
Definition ignore {A} (m : Io Op A) : Io Op unit := λ h,
  match m h with
  | (h, Ok _) | (h, Err _) => (h, Ok tt)
  | (h, Panic) => (h, Panic)
  | (h, NoFuel) => (h, NoFuel)
  end.

(** Whether it succeeded. *)
Definition succeeds {A} (m : Io Op A) : Io Op bool := λ h,
  match m h with
  | (h, Ok _) => (h, Ok true)
  | (h, Err _) => (h, Ok false)
  | (h, Panic) => (h, Panic)
  | (h, NoFuel) => (h, NoFuel)
  end.

(** A [for] loop whose body may return early with [?]. *)
Fixpoint for_each {A} (f : A → Io Op unit) (l : list A) : Io Op unit :=
  match l with
  | [] => mret tt
  | a :: l => _ ← f a; for_each f l
  end.

Definition when (b : bool) (m : Io Op unit) : Io Op unit := if b then m else mret tt.

(** The calls a computation makes from the empty trace. *)
Definition trace {A} (m : Io Op A) : list Op := (m []).1.
Definition outcome {A} (m : Io Op A) : LoggedResult A := (m []).2.

(** ** Traces only grow *)

Definition extends {A} (m : Io Op A) : Prop := ∀ h, ∃ t, (m h).1 = h ++ t.

Lemma extends_ret {A} (a : A) : extends (mret a).
Proof. intros h. exists []. by rewrite app_nil_r. Qed.

Lemma extends_lift {A} (r : LoggedResult A) : extends (lift r).
Proof. intros h. exists []. by rewrite app_nil_r. Qed.

Lemma extends_call env o : extends (call env o).
Proof. intros h. by exists [o]. Qed.

Lemma extends_bind {A B} (m : Io Op A) (f : A → Io Op B) :
  extends m → (∀ a, extends (f a)) → extends (mbind f m).
Proof.
  intros Hm Hf h. unfold mbind, io_bind. destruct (Hm h) as [t Ht].
  destruct (m h) as [h' [a| | |]]; simpl in *; subst; eauto.
  destruct (Hf a (h ++ t)) as [u Hu]. exists (t ++ u). by rewrite app_assoc.
Qed.

Lemma extends_ignore {A} (m : Io Op A) : extends m → extends (ignore m).
Proof.
  intros Hm h. destruct (Hm h) as [t Ht]. unfold ignore. exists t.
  by destruct (m h) as [h' [a| | |]].
Qed.

Lemma extends_for_each {A} (f : A → Io Op unit) l :
  (∀ a, extends (f a)) → extends (for_each f l).
Proof.
  intros Hf. induction l as [|a l IH]; [apply extends_ret|]. by apply extends_bind.
Qed.

(** ** Loops *)

Lemma for_each_app {A} (f : A → Io Op unit) l k h :
  for_each f (l ++ k) h =
  match for_each f l h with
  | (h', Ok _) => for_each f k h'
  | r => r
  end.
Proof.
  revert h. induction l as [|a l IH]; intros h; [done|]. cbn [app for_each].
  unfold mbind, io_bind. by destruct (f a h) as [h' [[]| | |]].
Qed.

(** A loop whose body makes one call that does not matter. *)
Lemma for_each_calls {A} (f : A → Io Op unit) (g : A → list Op) l h :
  (∀ a h, f a h = (h ++ g a, Ok tt)) → for_each f l h = (h ++ flat_map g l, Ok tt).
Proof.
  intros Hf. revert h. induction l as [|a l IH]; intros h; cbn [for_each flat_map].
  - by rewrite app_nil_r.
  - unfold mbind, io_bind. rewrite Hf, IH. by rewrite app_assoc.
Qed.

(** ** What a computation leaves behind

    [makes view m P]: [m] succeeds after every trace, and the calls it adds, seen
    through [view], are those of [P]. *)

Definition views {X} (view : Op → option X) (tr : list Op) (x : X) : Prop :=
  ∃ o, o ∈ tr ∧ view o = Some x.

Definition makes {X} (view : Op → option X) (m : Io Op unit) (P : X → Prop) : Prop :=
  ∀ h, ∃ tr, m h = (h ++ tr, Ok tt) ∧ ∀ x, views view tr x ↔ P x.

Lemma views_app {X} (view : Op → option X) t u x :
  views view (t ++ u) x ↔ views view t x ∨ views view u x.
Proof. unfold views. setoid_rewrite elem_of_app. naive_solver. Qed.

Lemma views_nil {X} (view : Op → option X) x : views view [] x ↔ False.
Proof. unfold views. split; [|done]. by intros (o & []%not_elem_of_nil & _). Qed.

Lemma views_one {X} (view : Op → option X) o x : views view [o] x ↔ view o = Some x.
Proof. unfold views. setoid_rewrite list_elem_of_singleton. naive_solver. Qed.

Lemma makes_iff {X} (view : Op → option X) m P Q :
  makes view m P → (∀ x, P x ↔ Q x) → makes view m Q.
Proof. intros Hm HPQ h. destruct (Hm h) as (tr & E & H). exists tr. split; [done|]. naive_solver. Qed.

Lemma makes_ret {X} (view : Op → option X) : makes view (mret tt) (λ _, False).
Proof. intros h. exists []. rewrite app_nil_r. split; [done|]. apply views_nil. Qed.

Lemma makes_call {X} (view : Op → option X) env o :
  (∀ h o, env h o = true) → makes view (call env o) (λ x, view o = Some x).
Proof. intros He h. exists [o]. unfold call. rewrite He. split; [done|]. apply views_one. Qed.

Lemma makes_ignore {X} (view : Op → option X) m P : makes view m P → makes view (ignore m) P.
Proof. intros Hm h. destruct (Hm h) as (tr & E & H). exists tr. unfold ignore. by rewrite E. Qed.

Lemma makes_bind {X} (view : Op → option X) m k P Q :
  makes view m P → makes view (k tt) Q → makes view (mbind k m) (λ x, P x ∨ Q x).
Proof.
  intros Hm Hk h. destruct (Hm h) as (t & E & H). destruct (Hk (h ++ t)) as (u & E' & H').
  exists (t ++ u). unfold mbind, io_bind. rewrite E, E', app_assoc. split; [done|].
  intros x. rewrite views_app. naive_solver.
Qed.

Lemma makes_for_each {X A} (view : Op → option X) (f : A → Io Op unit) l (P : A → X → Prop) :
  (∀ a, a ∈ l → makes view (f a) (P a)) → makes view (for_each f l) (λ x, ∃ a, a ∈ l ∧ P a x).
Proof.
  induction l as [|a l IH]; intros Hf.
  - eapply makes_iff; [apply makes_ret|]. set_solver.
  - eapply makes_iff; [apply makes_bind; [apply Hf; by left|apply IH; intros b Hb; apply Hf; by right]|].
    intros x. setoid_rewrite elem_of_cons. naive_solver.
Qed.

(** [stays Q m]: every call [m] makes satisfies [Q], whatever the environment. *)
Definition stays {A} (Q : Op → Prop) (m : Io Op A) : Prop :=
  ∀ h, ∃ tr, (m h).1 = h ++ tr ∧ Forall Q tr.

Lemma stays_ret {A} Q (a : A) : stays Q (mret a).
Proof. intros h. exists []. by rewrite app_nil_r. Qed.

Lemma stays_lift {A} Q (r : LoggedResult A) : stays Q (lift r).
Proof. intros h. exists []. by rewrite app_nil_r. Qed.

Lemma stays_call (Q : Op → Prop) env o : Q o → stays Q (call env o).
Proof. intros HQ h. exists [o]. split; [done|]. by constructor. Qed.

Lemma stays_bind {A B} Q (m : Io Op A) (f : A → Io Op B) :
  stays Q m → (∀ a, stays Q (f a)) → stays Q (mbind f m).
Proof.
  intros Hm Hf h. unfold mbind, io_bind. destruct (Hm h) as (t & E & Ht).
  destruct (m h) as [h' [a| | |]]; cbn in E; subst; try (by exists t).
  destruct (Hf a (h ++ t)) as (u & -> & Hu). exists (t ++ u). rewrite app_assoc. split; [done|].
  by apply Forall_app.
Qed.

Lemma stays_ignore {A} Q (m : Io Op A) : stays Q m → stays Q (ignore m).
Proof.
  intros Hm h. destruct (Hm h) as (t & E & Ht). exists t. unfold ignore.
  by destruct (m h) as [h' [a| | |]].
Qed.

Lemma stays_succeeds {A} Q (m : Io Op A) : stays Q m → stays Q (succeeds m).
Proof.
  intros Hm h. destruct (Hm h) as (t & E & Ht). exists t. unfold succeeds.
  by destruct (m h) as [h' [a| | |]].
Qed.

Lemma stays_for_each {A} Q (f : A → Io Op unit) l :
  (∀ a, a ∈ l → stays Q (f a)) → stays Q (for_each f l).
Proof.
  induction l as [|a l IH]; intros Hf; [apply stays_ret|].
  apply stays_bind; [apply Hf; by left|]. intros _. apply IH. intros b Hb. apply Hf. by right.
Qed.

Lemma stays_impl {A} (Q R : Op → Prop) (m : Io Op A) : (∀ o, Q o → R o) → stays Q m → stays R m.
Proof. intros HQ Hm h. destruct (Hm h) as (t & E & Ht). exists t. split; [done|]. by eapply Forall_impl. Qed.
End Io.

#[export] Hint Resolve stays_ret stays_lift stays_call stays_bind stays_ignore stays_succeeds
  stays_for_each : magisk.
#[export] Hint Resolve makes_ret makes_call makes_ignore makes_bind makes_for_each : magisk.
#[export] Hint Resolve extends_ret extends_lift extends_call extends_bind extends_ignore
  extends_for_each : magisk.
