(* ===== verification/Sys.v ===== *)
(** Sys: programs that change a piece of the system's state.

    A computation [Sys W Op A] passes on a state [W] and the trace of the calls made,
    and ends in an outcome.  A call [do_ env o ok ko] asks the environment, which sees
    the trace, and changes the state by [ok] or by [ko].  Theorems hold for every
    environment, or for those that let every call succeed ([all_succeed]). *)

From S2P Require Import Prelude Io.

Definition Sys (W Op A : Type) : Type := W → list Op → W * list Op * LoggedResult A.

#[global] Instance sys_ret W Op : MRet (Sys W Op) := fun A a w h => (w, h, Ok a).
#[global] Instance sys_bind W Op : MBind (Sys W Op) := fun A B f m w h =>
  match m w h with
  | (w, h, Ok a) => f a w h
  | (w, h, Err e) => (w, h, Err e)
  | (w, h, Panic) => (w, h, Panic)
  | (w, h, NoFuel) => (w, h, NoFuel)
  end.

Definition all_succeed {Op} (env : Env Op) : Prop := ∀ h o, env h o = true.

Section Sys.
Context {W Op : Type}.

(** A call with its effect when it succeeds and when it fails. *)
Definition do_ (env : Env Op) (o : Op) (ok ko : W → W) : Sys W Op unit := λ w h,
  if env h o then (ok w, h ++ [o], Ok tt) else (ko w, h ++ [o], Err tt).

(** A call that changes nothing of the state. *)
Definition ask (env : Env Op) (o : Op) : Sys W Op unit := do_ env o (λ w, w) (λ w, w).

(** The answer of a call that cannot fail. *)
Definition test (env : Env Op) (o : Op) : Sys W Op bool := λ w h, (w, h ++ [o], Ok (env h o)).

Definition read {A} (f : W → A) : Sys W Op A := λ w h, (w, h, Ok (f w)).
Definition modify (f : W → W) : Sys W Op unit := λ w h, (f w, h, Ok tt).
Definition throw {A} : Sys W Op A := λ w h, (w, h, Err tt).

(** The error is dropped. *)
Definition ok_ {A} (m : Sys W Op A) : Sys W Op unit := λ w h,
  match m w h with
  | (w, h, Ok _) | (w, h, Err _) => (w, h, Ok tt)
  | (w, h, Panic) => (w, h, Panic)
  | (w, h, NoFuel) => (w, h, NoFuel)
  end.

(** The value, if it succeeded ([ok]). *)
Definition try_ {A} (m : Sys W Op A) : Sys W Op (option A) := λ w h,
  match m w h with
  | (w, h, Ok a) => (w, h, Ok (Some a))
  | (w, h, Err _) => (w, h, Ok None)
  | (w, h, Panic) => (w, h, Panic)
  | (w, h, NoFuel) => (w, h, NoFuel)
  end.

(** An outcome computed without calls. *)
Definition lift_ {A} (f : W → LoggedResult A) : Sys W Op A := λ w h, (w, h, f w).

(** Whether it succeeded ([is_ok]). *)
Definition is_ok_ {A} (m : Sys W Op A) : Sys W Op bool := λ w h,
  match m w h with
  | (w, h, Ok _) => (w, h, Ok true)
  | (w, h, Err _) => (w, h, Ok false)
  | (w, h, Panic) => (w, h, Panic)
  | (w, h, NoFuel) => (w, h, NoFuel)
  end.

Fixpoint each {A} (f : A → Sys W Op unit) (l : list A) : Sys W Op unit :=
  match l with
  | [] => mret tt
  | a :: l => _ ← f a; each f l
  end.

(** A program on a part of the state, whose calls are some of ours. *)
Definition embed {W' Op' A} (get : W → W') (put : W' → W → W) (inj : Op' → Op)
    (m : Env Op' → Sys W' Op' A) (env : Env Op) : Sys W Op A := λ w h,
  let '(w', t, r) := m (λ t o, env (h ++ map inj t) (inj o)) (get w) [] in (put w' w, h ++ map inj t, r).

(** The state, the trace and the outcome of a run. *)
Definition state {A} (r : W * list Op * LoggedResult A) : W := r.1.1.
Definition calls {A} (r : W * list Op * LoggedResult A) : list Op := r.1.2.
Definition result {A} (r : W * list Op * LoggedResult A) : LoggedResult A := r.2.

(** ** Weakest preconditions

    [wp m Q E w]: run from [w], [m] does not panic, and ends in a value and a state of
    [Q] or in an error and a state of [E]. *)

Definition wp {A} (m : Sys W Op A) (Q : A → W → Prop) (E : W → Prop) (w : W) : Prop :=
  ∀ h, match m w h with
       | (w', _, Ok a) => Q a w'
       | (w', _, Err _) => E w'
       | _ => False
       end.

Lemma wp_ret {A} (a : A) Q E w : Q a w → wp (mret a) Q E w.
Proof. by intros H h. Qed.

Lemma wp_throw {A} Q (E : W → Prop) w : E w → wp (throw (A:=A)) Q E w.
Proof. by intros H h. Qed.

Lemma wp_read {A} (f : W → A) Q E w : Q (f w) w → wp (read f) Q E w.
Proof. by intros H h. Qed.

Lemma wp_modify f Q E w : Q tt (f w) → wp (modify f) Q E w.
Proof. by intros H h. Qed.

Lemma wp_test env o Q E w : (∀ b, Q b w) → wp (test env o) Q E w.
Proof. intros H h. apply H. Qed.

Lemma wp_do env o ok ko (Q : unit → W → Prop) (E : W → Prop) w :
  Q tt (ok w) → (¬ all_succeed env → E (ko w)) → wp (do_ env o ok ko) Q E w.
Proof.
  intros HQ HE h. unfold do_. destruct (env h o) eqn:Eo; [done|]. apply HE. intros Ha.
  by rewrite Ha in Eo.
Qed.

Lemma wp_do_ok env o ok ko (Q : unit → W → Prop) (E : W → Prop) w :
  all_succeed env → Q tt (ok w) → wp (do_ env o ok ko) Q E w.
Proof. intros He HQ h. unfold do_. by rewrite He. Qed.

Lemma wp_ask env o (Q : unit → W → Prop) (E : W → Prop) w :
  Q tt w → (¬ all_succeed env → E w) → wp (ask env o) Q E w.
Proof. intros. by apply wp_do. Qed.

Lemma wp_ask_ok env o (Q : unit → W → Prop) (E : W → Prop) w :
  all_succeed env → Q tt w → wp (ask env o) Q E w.
Proof. intros. by apply wp_do_ok. Qed.

Lemma wp_bind {A B} (m : Sys W Op A) (f : A → Sys W Op B) Q E w :
  wp m (λ a, wp (f a) Q E) E w → wp (mbind f m) Q E w.
Proof.
  intros H h. specialize (H h). unfold mbind, sys_bind.
  destruct (m w h) as [[w' h'] [a| | |]]; [apply H|exact H..].
Qed.

Lemma wp_mono {A} (m : Sys W Op A) (Q Q' : A → W → Prop) (E E' : W → Prop) w :
  wp m Q E w → (∀ a w, Q a w → Q' a w) → (∀ w, E w → E' w) → wp m Q' E' w.
Proof. intros H HQ HE h. specialize (H h). destruct (m w h) as [[w' h'] [a| | |]]; auto. Qed.

Lemma wp_ok {A} (m : Sys W Op A) (Q : unit → W → Prop) (E : W → Prop) w :
  wp m (λ _, Q tt) (Q tt) w → wp (ok_ m) Q E w.
Proof.
  intros H h. specialize (H h). unfold ok_. by destruct (m w h) as [[w' h'] [a| | |]].
Qed.

Lemma wp_try {A} (m : Sys W Op A) (Q : option A → W → Prop) (E : W → Prop) w :
  wp m (λ a, Q (Some a)) (Q None) w → wp (try_ m) Q E w.
Proof.
  intros H h. specialize (H h). unfold try_. by destruct (m w h) as [[w' h'] [a| | |]].
Qed.

Lemma wp_is_ok {A} (m : Sys W Op A) (Q : bool → W → Prop) (E : W → Prop) w :
  wp m (λ _, Q true) (Q false) w → wp (is_ok_ m) Q E w.
Proof.
  intros H h. specialize (H h). unfold is_ok_. by destruct (m w h) as [[w' h'] [a| | |]].
Qed.

(** A loop with an invariant on the part of the list that is left. *)
Lemma wp_each {A} (f : A → Sys W Op unit) (I : list A → W → Prop) (Q : unit → W → Prop) (E : W → Prop) l w :
  (∀ a l w, I (a :: l) w → wp (f a) (λ _, I l) E w) → (∀ w, I [] w → Q tt w) →
  I l w → wp (each f l) Q E w.
Proof.
  intros Hf HQ. revert w. induction l as [|a l IH]; intros w Hw; cbn [each].
  - apply wp_ret. by apply HQ.
  - apply wp_bind. eapply wp_mono; [by apply Hf| |done]. intros [] w'. apply IH.
Qed.

Lemma wp_run {A} (m : Sys W Op A) Q E w h : wp m Q E w →
  match result (m w h) with Ok a => Q a (state (m w h)) | Err _ => E (state (m w h)) | _ => False end.
Proof. intros H. specialize (H h). by destruct (m w h) as [[w' h'] [a| | |]]. Qed.

(** ** Runs that succeed

    [gives m a f]: from every state and after every trace, [m] ends in [a] and changes the
    state by [f]. *)

Definition gives {A} (m : Sys W Op A) (a : A) (f : W → W) : Prop :=
  ∀ w h, ∃ t, m w h = (f w, h ++ t, Ok a).

Lemma gives_ret {A} (a : A) : gives (mret a) a (λ w, w).
Proof. intros w h. exists []. by rewrite app_nil_r. Qed.

Lemma gives_modify f : gives (modify f) tt f.
Proof. intros w h. exists []. by rewrite app_nil_r. Qed.

Lemma gives_do (env : Env Op) o ok ko : (∀ h, env h o = true) → gives (do_ env o ok ko) tt ok.
Proof. intros He w h. exists [o]. unfold do_. by rewrite He. Qed.

Lemma gives_test (env : Env Op) o b : (∀ h, env h o = b) → gives (test env o) b (λ w, w).
Proof. intros He w h. exists [o]. unfold test. by rewrite He. Qed.

Lemma gives_bind {A B} (m : Sys W Op A) (k : A → Sys W Op B) a b f g :
  gives m a f → gives (k a) b g → gives (mbind k m) b (λ w, g (f w)).
Proof.
  intros Hm Hk w h. destruct (Hm w h) as [t Et]. destruct (Hk (f w) (h ++ t)) as [u Eu].
  exists (t ++ u). unfold mbind, sys_bind. by rewrite Et, Eu, app_assoc.
Qed.

Lemma gives_ok {A} (m : Sys W Op A) a f : gives m a f → gives (ok_ m) tt f.
Proof. intros Hm w h. destruct (Hm w h) as [t Et]. exists t. unfold ok_. by rewrite Et. Qed.

Lemma gives_eq {A} (m : Sys W Op A) a f g : gives m a f → (∀ w, f w = g w) → gives m a g.
Proof. intros Hm Hf w h. destruct (Hm w h) as [t Et]. exists t. by rewrite Et, Hf. Qed.

(** ** What holds of the trace

    [after m Q E h]: run after the trace [h], [m] does not panic and ends in a value with a
    trace of [Q], or in an error or without fuel with a trace of [E]. *)

Definition after {A} (m : Sys W Op A) (Q : A → list Op → Prop) (E : list Op → Prop) (h : list Op) : Prop :=
  ∀ w, match m w h with
       | (_, h', Ok a) => Q a h'
       | (_, h', Err _) | (_, h', NoFuel) => E h'
       | (_, _, Panic) => False
       end.

Lemma after_ret {A} (a : A) (Q : A → list Op → Prop) E h : Q a h → after (mret a) Q E h.
Proof. by intros H w. Qed.

Lemma after_throw {A} Q (E : list Op → Prop) h : E h → after (throw (A:=A)) Q E h.
Proof. by intros H w. Qed.

Lemma after_modify f (Q : unit → list Op → Prop) E h : Q tt h → after (modify f) Q E h.
Proof. by intros H w. Qed.

Lemma after_read {A} (f : W → A) (Q : A → list Op → Prop) E h : (∀ w, Q (f w) h) → after (read f) Q E h.
Proof. intros H w. apply H. Qed.

Lemma after_do (env : Env Op) o ok ko (Q : unit → list Op → Prop) (E : list Op → Prop) h :
  (env h o = true → Q tt (h ++ [o])) → (env h o = false → E (h ++ [o])) → after (do_ env o ok ko) Q E h.
Proof. intros HQ HE w. unfold do_. destruct (env h o); auto. Qed.

Lemma after_test (env : Env Op) o (Q : bool → list Op → Prop) E h :
  (∀ b, Q b (h ++ [o])) → after (test env o) Q E h.
Proof. intros H w. apply H. Qed.

Lemma after_bind {A B} (m : Sys W Op A) (k : A → Sys W Op B) Q E h :
  after m (λ a, after (k a) Q E) E h → after (mbind k m) Q E h.
Proof.
  intros H w. specialize (H w). unfold mbind, sys_bind.
  destruct (m w h) as [[w' h'] [a|e| |]]; [apply H|exact H..].
Qed.

Lemma after_mono {A} (m : Sys W Op A) (Q Q' : A → list Op → Prop) (E E' : list Op → Prop) h :
  after m Q E h → (∀ a h, Q a h → Q' a h) → (∀ h, E h → E' h) → after m Q' E' h.
Proof. intros H HQ HE w. specialize (H w). destruct (m w h) as [[w' h'] [a|e| |]]; auto. Qed.

Lemma after_ok {A} (m : Sys W Op A) (Q : unit → list Op → Prop) (E : list Op → Prop) h :
  after m (λ _, Q tt) (λ h, Q tt h ∧ E h) h → after (ok_ m) Q E h.
Proof.
  intros H w. specialize (H w). unfold ok_. destruct (m w h) as [[w' h'] [a|e| |]]; naive_solver.
Qed.

Lemma after_each {A} (f : A → Sys W Op unit) (P E : list Op → Prop) l h :
  (∀ a h, P h → after (f a) (λ _, P) E h) → P h → after (each f l) (λ _, P) E h.
Proof.
  intros Hf. revert h. induction l as [|a l IH]; intros h Hh; cbn [each].
  - by apply after_ret.
  - apply after_bind. eapply after_mono; [by apply Hf| |done]. intros [] h'. apply IH.
Qed.
End Sys.

(** One step of a straight-line program. *)
Ltac wp_step :=
  first
  [ apply wp_bind | apply wp_ret | apply wp_throw | apply wp_read | apply wp_modify
  | apply wp_test; intros ?
  | apply wp_ask_ok; [assumption|] | apply wp_do_ok; [assumption|]
  | apply wp_ask; [|intros ?] | apply wp_do; [|intros ?] | apply wp_ok | apply wp_is_ok | apply wp_try ].
