(* ===== verification/Mount.v ===== *)
(** Mount: mount tables and what the program does with them:
    [parse_mount_info_line] of [native/src/base/files.rs], the pre-init partition
    choice and [revert_unmount] of [native/src/core/mount.rs], and [switch_root] of
    [native/src/init/mount.rs].

    The kernel's mount table is a parameter (the lines of [mountinfo]); [makedev] and
    [major] are libc's.  File-system calls are [Io] calls. *)

From S2P Require Import Prelude Text Cstr Io.

Record MountInfo := mkInfo {
  id : Z; parent : Z; device : Z; root : bytes; target : bytes; vfs_option : bytes;
  shared : Z; master : Z; propagation_from : Z; unbindable : bool;
  fs_type : bytes; source : bytes; fs_option : bytes }.

#[global] Instance MountInfo_eq_dec : EqDecision MountInfo.
Proof. solve_decision. Defined.

(** ** Parsing *)

Section Parse.
Context (makedev : Z → Z → Z).

(** The optional fields, up to the separator. *)
Record Optional := mkOpt { o_shared : Z; o_master : Z; o_prop : Z; o_unb : bool }.

Definition optional_field (o : Optional) (f : bytes) : option Optional :=
  match strip_prefix (bs "master:") f with
  | Some peer => (λ n, mkOpt (o_shared o) n (o_prop o) (o_unb o)) <$> parse_u 32 peer
  | None =>
  match strip_prefix (bs "shared:") f with
  | Some peer => (λ n, mkOpt n (o_master o) (o_prop o) (o_unb o)) <$> parse_u 32 peer
  | None =>
  match strip_prefix (bs "propagate_from:") f with
  | Some peer => (λ n, mkOpt (o_shared o) (o_master o) n (o_unb o)) <$> parse_u 32 peer
  | None =>
  if bool_decide (f = bs "unbindable") then Some (mkOpt (o_shared o) (o_master o) (o_prop o) true)
  else Some o
  end end end.

Fixpoint optional_fields (o : Optional) (iter : list bytes) : option (Optional * list bytes) :=
  match iter with
  | [] => None
  | f :: iter =>
      if bool_decide (f = bs "-") then Some (o, iter)
      else match optional_field o f with
           | Some o => optional_fields o iter
           | None => None
           end
  end.

Definition parse_mount_info_line (line : bytes) : option MountInfo :=
  match split_whitespace line with
  | id :: parent :: dev :: root :: target :: vfs :: iter =>
      i ← parse_u 32 id;
      p ← parse_u 32 parent;
      '(maj, min) ← split_once Byte.x3a dev;
      maj ← parse_u 32 maj;
      min ← parse_u 32 min;
      '(o, iter) ← optional_fields (mkOpt 0 0 0 false) iter;
      match iter with
      | fs :: src :: opt :: _ =>
          Some (mkInfo i p (makedev maj min) root target vfs (o_shared o) (o_master o) (o_prop o)
                  (o_unb o) fs src opt)
      | _ => None
      end
  | _ => None
  end.

(** The table read until a line does not parse; [None] is a file that cannot be opened. *)
Definition parse_mount_info (mountinfo : option bytes) : list MountInfo :=
  match mountinfo with
  | None => []
  | Some data =>
      for_each_line (λ res line,
        match parse_mount_info_line line with
        | Some info => (res ++ [info], true)
        | None => (res, false)
        end) [] data
  end.
End Parse.

(** ** The pre-init partition *)

Inductive PartId := Data | Cache | Klogdump | Metadata | Persist.
Inductive EncryptType := ENone | EBlock | EFile | EMetadata.

Definition part_num (p : PartId) : Z :=
  match p with Data => 0 | Cache => 1 | Klogdump => 2 | Metadata => 3 | Persist => 4 end.
Definition part_cmp (p q : PartId) : comparison := part_num p ?= part_num q.

#[global] Instance PartId_eq_dec : EqDecision PartId.
Proof. solve_decision. Defined.

Definition encrypt_type (get_prop : bytes → bytes) : EncryptType :=
  if bool_decide (get_prop (bs "ro.crypto.state") ≠ bs "encrypted") then ENone
  else if bool_decide (get_prop (bs "ro.crypto.type") = bs "block") then EBlock
  else if bool_decide (get_prop (bs "ro.crypto.metadata.enabled") = bs "true") then EMetadata
  else EFile.

Definition DYNAMIC_MAJOR_MIN : Z := 240.
Definition DYNAMIC_MAJOR_MAX : Z := 254.

(** [fs_option.split(',').any(|s| s == "rw")]. *)
Definition is_rw (info : MountInfo) : bool :=
  bool_decide (bs "rw" ∈ split_on Byte.x2c (fs_option info)).

Definition contains_str (needle hay : bytes) : bool :=
  existsb (λ k, starts_with needle (drop k hay)) (seq 0 (S (length hay))).

(** The closure of [filter_map]. *)
Definition preinit_candidate (major : Z → Z) (enc : EncryptType) (info : MountInfo) :
    option (PartId * MountInfo) :=
  if bool_decide (root info ≠ bs "/") || negb (starts_with (bs "/") (source info))
     || contains_str (bs "/dm-") (source info) then None
  else if negb (bool_decide (fs_type info = bs "ext4") || bool_decide (fs_type info = bs "f2fs"))
  then None
  else if negb (is_rw info) then None
  else
    match Path.parent_dir (source info) with
    | None => None
    | Some path =>
        let base := last (Path.parts path).2 in
        if negb (bool_decide (base = Some (bs "by-name"))) && negb (bool_decide (base = Some (bs "block")))
        then None
        else
          let maj := major (device info) in
          if (DYNAMIC_MAJOR_MIN <=? maj) && (maj <=? DYNAMIC_MAJOR_MAX)
             && negb (contains_str (bs "/vd") (source info))
             && negb (contains_str (bs "/by-name/") (source info)) then None
          else
            let t := target info in
            if bool_decide (t = bs "/persist") || bool_decide (t = bs "/mnt/vendor/persist")
            then Some (Persist, info)
            else if bool_decide (t = bs "/metadata") then Some (Metadata, info)
            else if bool_decide (t = bs "/klogdump") then Some (Klogdump, info)
            else if bool_decide (t = bs "/cache") then Some (Cache, info)
            else if bool_decide (t = bs "/data") then
              match enc with ENone | EFile => Some (Data, info) | _ => None end
            else None
    end.

(** The comparator of [select_nth_unstable_by]. *)
Definition preinit_cmp (a b : PartId * MountInfo) : comparison :=
  let ae := bool_decide (fs_type a.2 = bs "ext4") in
  let be := bool_decide (fs_type b.2 = bs "ext4") in
  match a.1, b.1, ae, be with
  | Metadata, _, _, true | _, Metadata, true, _ => part_cmp a.1 b.1
  | _, _, true, false => Lt
  | _, _, false, true => Gt
  | _, _, _, _ => part_cmp a.1 b.1
  end.

(** ** Unmounting *)

(** [Path::starts_with]: by components. *)
Definition path_starts_with (p prefix : bytes) : bool :=
  bool_decide ((Path.parts p).1 = (Path.parts prefix).1) &&
  bool_decide (take (length (filter (λ x, Path.skipped x = false) (Path.parts prefix).2))
                    (filter (λ x, Path.skipped x = false) (Path.parts p).2)
               = filter (λ x, Path.skipped x = false) (Path.parts prefix).2).

Definition is_magisk_mount (info : MountInfo) : bool :=
  bool_decide (source info = bs "magisk") || starts_with (bs "/adb/modules") (root info).

(** [targets.retain(..)] with [prev] as its state. *)
Fixpoint retain_roots (prev : option bytes) (targets : list bytes) : list bytes :=
  match targets with
  | [] => []
  | t :: ts =>
      if match prev with Some p => path_starts_with t p | None => false end
      then retain_roots prev ts
      else t :: retain_roots (Some t) ts
  end.

(** The targets [revert_unmount] unmounts, in order. *)
Definition unmount_targets (infos : list MountInfo) : list bytes :=
  retain_roots None (merge_sort bytes_le (map target (List.filter is_magisk_mount infos))).

(** ** Moving all mounts *)

Inductive MountOp :=
  | OpenRootfs
  | ExecInit
  | Mkdirs (path : bytes)
  | MoveMount (from to : bytes)
  | Chdir (path : bytes)
  | Chroot
  | RemoveRootfs
  | Unmount (path : bytes).

(** [mounts.range((Unbounded, Excluded(target))).last()]. *)
Definition last_below (mounts : list bytes) (target : bytes) : option bytes :=
  last (List.filter (λ m, bool_decide (bytes_lt m target)) (merge_sort bytes_le mounts)).

Fixpoint trim_start_slashes (s : bytes) : bytes :=
  match s with
  | b :: s' => if bool_decide (b = Byte.x2f) then trim_start_slashes s' else s
  | [] => []
  end.

Definition join_paths (ps : list bytes) : bytes :=
  Buf.as_str (foldl Buf.append_path (Buf.new 4096) ps).

Section SwitchRoot.
Context (env : Env MountOp).

Fixpoint move_mounts (path : bytes) (mounts : list bytes) (infos : list MountInfo) :
    Io MountOp unit :=
  match infos with
  | [] => mret tt
  | info :: infos =>
      let t := target info in
      if bool_decide (t = bs "/") || bool_decide (t = path) then move_mounts path mounts infos
      else if match last_below mounts t with
              | Some m => starts_with (m ++ bs "/") t
              | None => false
              end
      then move_mounts path mounts infos
      else
        let new_path := join_paths [path; trim_start_slashes t] in
        _ ← ignore (call env (Mkdirs new_path));
        _ ← call env (MoveMount t new_path);
        move_mounts path (t :: mounts) infos
  end.

Definition switch_root (path : bytes) (infos : list MountInfo) : Io MountOp unit :=
  ignore (
    _ ← call env OpenRootfs;
    _ ← move_mounts path [] infos;
    _ ← call env (Chdir path);
    _ ← call env (MoveMount path (bs "/"));
    _ ← call env Chroot;
    call env RemoveRootfs).

(** [exec_init]: the mounts are undone in reverse order before the real init runs. *)
Definition exec_init (mount_list : list bytes) : Io MountOp unit :=
  _ ← for_each (λ path, ignore (call env (Unmount path))) (rev mount_list);
  ignore (call env ExecInit).

(** [revert_unmount] in the current namespace. *)
Definition revert_unmount (infos : list MountInfo) : Io MountOp unit :=
  for_each (λ t, ignore (call env (Unmount t))) (unmount_targets infos).
End SwitchRoot.

Definition is_device_mounted (infos : list MountInfo) (dev : Z) : option bytes :=
  target <$> List.find (λ m, bool_decide (root m = bs "/") && (device m =? dev)) infos.

(** ** Parsing what the kernel prints *)

(** A line of [mountinfo], as proc(5) documents it. *)
Definition info_words (maj min : Z) (m : MountInfo) : list bytes :=
  [fmt_dec (id m); fmt_dec (parent m); fmt_dec maj ++ bs ":" ++ fmt_dec min;
   root m; target m; vfs_option m] ++
  (if shared m =? 0 then [] else [bs "shared:" ++ fmt_dec (shared m)]) ++
  (if master m =? 0 then [] else [bs "master:" ++ fmt_dec (master m)]) ++
  (if propagation_from m =? 0 then [] else [bs "propagate_from:" ++ fmt_dec (propagation_from m)]) ++
  (if unbindable m then [bs "unbindable"] else []) ++
  [bs "-"; fs_type m; source m; fs_option m].

Definition word (s : bytes) : Prop := no_ws s ∧ s ≠ [].
#[global] Instance word_dec s : Decision (word s).
Proof. unfold word. apply _. Defined.
Definition u32_ok (z : Z) : Prop := 0 ≤ z < 2 ^ 32.
#[global] Instance u32_ok_dec z : Decision (u32_ok z).
Proof. unfold u32_ok. apply _. Defined.

Definition info_ok (m : MountInfo) : Prop :=
  u32_ok (id m) ∧ u32_ok (parent m) ∧ u32_ok (shared m) ∧ u32_ok (master m) ∧
  u32_ok (propagation_from m) ∧
  word (root m) ∧ word (target m) ∧ word (vfs_option m) ∧ word (fs_type m) ∧ word (source m) ∧
  word (fs_option m).
#[global] Instance info_ok_dec m : Decision (info_ok m).
Proof. unfold info_ok. apply _. Defined.

Lemma fmt_dec_word z : 0 ≤ z → word (fmt_dec z).
Proof.
  intros Hz. split; [|apply fmt_dec_nonempty].
  eapply Forall_impl; [by apply fmt_dec_digits|]. simpl. lia.
Qed.

Lemma word_app s t : word s → no_ws t → word (s ++ t).
Proof. intros [H Hn] Ht. split; [by apply Forall_app|]. by destruct s. Qed.

Lemma dec_no_colon z : 0 ≤ z → Byte.x3a ∉ fmt_dec z.
Proof.
  intros Hz Hin. pose proof (fmt_dec_digits z Hz) as H. rewrite Forall_forall in H.
  apply H in Hin. vm_compute in Hin. intuition congruence.
Qed.

Lemma info_words_ok maj min m : info_ok m → u32_ok maj → u32_ok min → Forall word (info_words maj min m).
Proof.
  intros (? & ? & ? & ? & ? & ? & ? & ? & ? & ? & ?) Hmaj Hmin.
  assert (∀ z, u32_ok z → word (fmt_dec z)) as Hd by (intros z Hz; apply fmt_dec_word, Hz).
  assert (∀ p z, word p → u32_ok z → word (p ++ fmt_dec z)) as Hp
    by (intros p z Hw Hz; apply word_app; [done|apply Hd, Hz]).
  unfold info_words. repeat first [apply Forall_app; split | apply Forall_cons; split | apply Forall_nil_2].
  all: repeat match goal with |- Forall _ (if ?b then _ else _) => destruct b end.
  all: repeat first [apply Forall_cons; split | apply Forall_nil_2]; auto.
  all: try match goal with
    | |- word (bs _ ++ fmt_dec _) => apply Hp; [by_compute|done]
    | |- word (bs _) => by_compute
    end.
  apply word_app; [by apply Hd|]. apply Forall_app. split; [by_compute|]. by apply Hd.
Qed.

Lemma optional_step o f iter o' :
  f ≠ bs "-" → optional_field o f = Some o' →
  optional_fields o (f :: iter) = optional_fields o' iter.
Proof. intros Hf Ho. cbn [optional_fields]. rewrite bool_decide_false by done. by rewrite Ho. Qed.

Lemma optional_shared n ma pr ub rest : u32_ok n →
  optional_fields (mkOpt 0 ma pr ub) ((if n =? 0 then [] else [bs "shared:" ++ fmt_dec n]) ++ rest) =
  optional_fields (mkOpt n ma pr ub) rest.
Proof.
  intros Hn. destruct (Z.eqb_spec n 0) as [->|]; [done|]. apply optional_step; [done|].
  unfold optional_field. change (strip_prefix (bs "master:") (bs "shared:" ++ ?x)) with (@None bytes).
  rewrite strip_prefix_app. unfold parse_u. by rewrite parse_fmt_dec.
Qed.

Lemma optional_master n sh pr ub rest : u32_ok n →
  optional_fields (mkOpt sh 0 pr ub) ((if n =? 0 then [] else [bs "master:" ++ fmt_dec n]) ++ rest) =
  optional_fields (mkOpt sh n pr ub) rest.
Proof.
  intros Hn. destruct (Z.eqb_spec n 0) as [->|]; [done|]. apply optional_step; [done|].
  unfold optional_field. rewrite strip_prefix_app. unfold parse_u. by rewrite parse_fmt_dec.
Qed.

Lemma optional_prop n sh ma ub rest : u32_ok n →
  optional_fields (mkOpt sh ma 0 ub)
    ((if n =? 0 then [] else [bs "propagate_from:" ++ fmt_dec n]) ++ rest) =
  optional_fields (mkOpt sh ma n ub) rest.
Proof.
  intros Hn. destruct (Z.eqb_spec n 0) as [->|]; [done|]. apply optional_step; [done|].
  unfold optional_field.
  change (strip_prefix (bs "master:") (bs "propagate_from:" ++ ?x)) with (@None bytes).
  change (strip_prefix (bs "shared:") (bs "propagate_from:" ++ ?x)) with (@None bytes).
  rewrite strip_prefix_app. unfold parse_u. by rewrite parse_fmt_dec.
Qed.

Lemma optional_unb sh ma pr (ub : bool) rest :
  optional_fields (mkOpt sh ma pr false) ((if ub then [bs "unbindable"] else []) ++ rest) =
  optional_fields (mkOpt sh ma pr ub) rest.
Proof. by destruct ub. Qed.

(** A mount table line written as the kernel documents it is read back field by
    field, whichever optional fields it has. *)
Theorem mount_info_roundtrip makedev maj min m :
  info_ok m → u32_ok maj → u32_ok min → device m = makedev maj min →
  parse_mount_info_line makedev (join (bs " ") (info_words maj min m)) = Some m.
Proof.
  intros Hm Hmaj Hmin Hdev. unfold parse_mount_info_line.
  rewrite split_whitespace_join by (by apply info_words_ok).
  destruct Hm as (H1 & H2 & H3 & H4 & H5 & _).
  unfold info_words. cbn [app]. unfold parse_u. rewrite !parse_fmt_dec by done.
  cbn [mbind option_bind]. change (bs ":" ++ fmt_dec min) with (Byte.x3a :: fmt_dec min).
  rewrite split_once_app by (apply dec_no_colon, Hmaj). cbn [mbind option_bind].
  rewrite !parse_fmt_dec by done. cbn [mbind option_bind].
  rewrite optional_shared, optional_master, optional_prop, optional_unb by done.
  change (optional_fields ?o (bs "-" :: ?iter)) with (Some (o, iter)). cbn [mbind option_bind].
  rewrite <- Hdev. by destruct m.
Qed.

(** ** The choice of a partition *)

(** The comparator of the pre-init partition is not an order: an f2fs /data is
    preferred to an f2fs /metadata, that to an ext4 /persist, and that to the f2fs
    /data, whatever else the mounts are. *)
Theorem preinit_cmp_cycle a b c :
  a.1 = Data → b.1 = Metadata → c.1 = Persist →
  fs_type a.2 ≠ bs "ext4" → fs_type b.2 ≠ bs "ext4" → fs_type c.2 = bs "ext4" →
  preinit_cmp a b = Lt ∧ preinit_cmp b c = Lt ∧ preinit_cmp c a = Lt.
Proof.
  unfold preinit_cmp. intros -> -> -> Ha Hb ->.
  rewrite (bool_decide_false (fs_type a.2 = _)), (bool_decide_false (fs_type b.2 = _)) by done. done.
Qed.

(** The order meant: ext4 first, then by partition. *)
Definition preinit_rank (a : PartId * MountInfo) : Z :=
  (if bool_decide (fs_type a.2 = bs "ext4") then 0 else 10) + part_num a.1.

(** Without /metadata among the candidates the comparator is the order of a rank,
    ext4 partitions first and then data, cache, klogdump, persist. *)
Theorem preinit_cmp_rank a b :
  a.1 ≠ Metadata → b.1 ≠ Metadata → preinit_cmp a b = (preinit_rank a ?= preinit_rank b).
Proof.
  intros Ha Hb. unfold preinit_cmp, preinit_rank, part_cmp.
  destruct (bool_decide (fs_type a.2 = bs "ext4")), (bool_decide (fs_type b.2 = bs "ext4"));
    destruct (a.1), (b.1); done.
Qed.

(** ** Unmounting *)

Lemma path_starts_with_refl p : path_starts_with p p = true.
Proof.
  unfold path_starts_with. rewrite !bool_decide_true; [done| |done]. by rewrite take_ge.
Qed.

Lemma retain_roots_covers prev ts t :
  t ∈ ts → (∃ r, r ∈ retain_roots prev ts ∧ path_starts_with t r = true) ∨
           (∃ p, prev = Some p ∧ path_starts_with t p = true).
Proof.
  revert prev. induction ts as [|u ts IH]; intros prev Ht; [by apply not_elem_of_nil in Ht|].
  cbn [retain_roots]. apply elem_of_cons in Ht as [->|Ht].
  - destruct prev as [p|].
    + destruct (path_starts_with u p) eqn:E; [right; eauto|left].
      exists u. split; [by left|]. apply path_starts_with_refl.
    + left. exists u. split; [by left|]. apply path_starts_with_refl.
  - destruct (match prev with Some p => path_starts_with u p | None => false end) eqn:E.
    + by apply IH.
    + destruct (IH (Some u) Ht) as [(r & Hr & Hs)|(p & [= <-] & Hs)].
      * left. exists r. split; [by right|done].
      * left. exists u. split; [by left|done].
Qed.

Lemma retain_roots_sub prev ts t : t ∈ retain_roots prev ts → t ∈ ts.
Proof.
  revert prev. induction ts as [|u ts IH]; intros prev; [done|]. cbn [retain_roots].
  destruct (match prev with Some p => path_starts_with u p | None => false end).
  - intros H. right. by eapply IH.
  - intros [->|H]%elem_of_cons; [by left|]. right. by eapply IH.
Qed.

(** Every mount of Magisk's is at or below a target that [revert_unmount]
    unmounts, and only targets of Magisk's mounts are unmounted. *)
Theorem unmount_covers env infos :
  let '(ops, r) := revert_unmount env infos [] in
  r = Ok tt ∧
  (∀ i, i ∈ infos → is_magisk_mount i = true →
     ∃ p, Unmount p ∈ ops ∧ path_starts_with (target i) p = true) ∧
  (∀ o, o ∈ ops → ∃ i, o = Unmount (target i) ∧ i ∈ infos ∧ is_magisk_mount i = true).
Proof.
  unfold revert_unmount. rewrite (for_each_calls _ (λ t, [Unmount t])).
  2: { intros t h. unfold ignore, call. by destruct (env h (Unmount t)). }
  cbn [app]. split_and!; [done| |].
  - intros i Hi Hm. destruct (retain_roots_covers None (merge_sort bytes_le
      (map target (List.filter is_magisk_mount infos))) (target i)) as [(r & Hr & Hs)|(p & [=] & _)].
    + rewrite merge_sort_Permutation. apply list_elem_of_fmap. exists i. split; [done|].
      apply list_elem_of_In, filter_In. split; [by apply list_elem_of_In|done].
    + exists r. split; [|done]. apply list_elem_of_In, in_flat_map. exists r.
      split; [by apply list_elem_of_In|by left].
  - intros o Ho. apply list_elem_of_In, in_flat_map in Ho as (t & Ht & [<-|[]]).
    apply list_elem_of_In, retain_roots_sub in Ht. rewrite merge_sort_Permutation in Ht.
    apply list_elem_of_fmap in Ht as (i & -> & Hi).
    apply list_elem_of_In, filter_In in Hi as [Hi Hm]. exists i. split_and!; try done.
    by apply list_elem_of_In.
Qed.

(** Only the target before it in string order is looked at, so a mount below
    another one stays in the list when a sibling whose name continues the parent's
    sorts between them: it is unmounted a second time after its parent. *)
Theorem retain_keeps_nested a x y :
  let sibling := a ++ bs "-" ++ x in
  let nested := a ++ bs "/" ++ y in
  path_starts_with sibling a = false → path_starts_with nested sibling = false →
  retain_roots None (merge_sort bytes_le [nested; a; sibling]) = [a; sibling; nested].
Proof.
  intros sibling nested H1 H2.
  assert (merge_sort bytes_le [nested; a; sibling] = [a; sibling; nested]) as ->.
  { apply (Sorted_unique bytes_le).
    - apply (Sorted_merge_sort bytes_le).
    - assert (bytes_le a sibling) by (apply bytes_lt_le; by apply bytes_lt_prefix).
      assert (bytes_le sibling nested) by (apply bytes_lt_le; by apply bytes_lt_app).
      repeat constructor; done.
    - rewrite merge_sort_Permutation. by rewrite Permutation_cons_append. }
  cbn [retain_roots]. by rewrite H1, H2.
Qed.


(** ** Moving mounts *)

Lemma last_below_in mounts t m : last_below mounts t = Some m → m ∈ mounts.
Proof.
  unfold last_below. intros H%last_Some_elem_of. apply list_elem_of_In, filter_In in H as [H _].
  apply list_elem_of_In in H. by rewrite merge_sort_Permutation in H.
Qed.

Section Moves.
Context (env : Env MountOp) (env_ok : ∀ h o, env h o = true).

(** A mount that was moved, alone or with a parent. *)
Definition moved (ops : list MountOp) (t : bytes) : Prop :=
  ∃ m new, MoveMount m new ∈ ops ∧ (m = t ∨ starts_with (m ++ bs "/") t = true).

Lemma moved_app ops ops' t : moved ops t → moved (ops ++ ops') t.
Proof. intros (m & new & Hin & H). exists m, new. split; [|done]. apply elem_of_app. by left. Qed.

Lemma move_mounts_moved path mounts infos h :
  (∀ m, m ∈ mounts → ∃ new, MoveMount m new ∈ h) →
  ∃ t, move_mounts env path mounts infos h = (h ++ t, Ok tt) ∧
  ∀ i, i ∈ infos → target i ≠ bs "/" → target i ≠ path → moved (h ++ t) (target i).
Proof.
  revert mounts h. induction infos as [|i infos IH]; intros mounts h Hm.
  { exists []. rewrite app_nil_r. split; [done|]. by intros i ?%not_elem_of_nil. }
  cbn [move_mounts]. destruct (_ || _) eqn:Es.
  { destruct (IH mounts h Hm) as (t & Ht & Hc). exists t. split; [done|].
    intros j [->|Hj]%elem_of_cons H1 H2; [|by apply Hc].
    apply orb_true_iff in Es as [E|E]; by apply bool_decide_eq_true_1 in E. }
  destruct (match last_below mounts (target i) with Some m => _ | None => false end) eqn:El.
  - destruct (IH mounts h Hm) as (t & Ht & Hc). exists t. split; [done|].
    intros j [->|Hj]%elem_of_cons H1 H2; [|by apply Hc].
    destruct (last_below mounts (target i)) as [m|] eqn:E; [|done].
    apply last_below_in, Hm in E as [new E]. exists m, new.
    split; [apply elem_of_app; by left|by right].
  - set (new := join_paths _). unfold mbind, io_bind, ignore, call. rewrite !env_ok.
    destruct (IH (target i :: mounts) ((h ++ [Mkdirs new]) ++ [MoveMount (target i) new]))
      as (t & Ht & Hc).
    { intros m [->|H]%elem_of_cons.
      - exists new. apply elem_of_app. right. by left.
      - destruct (Hm m H) as [n Hn]. exists n. rewrite !elem_of_app. tauto. }
    exists ([Mkdirs new; MoveMount (target i) new] ++ t).
    rewrite Ht. rewrite <- !app_assoc in *. cbn [app] in *. split; [done|].
    intros j [->|Hj]%elem_of_cons H1 H2; [|by apply Hc].
    exists (target i), new. split; [|by left]. apply elem_of_app. right. right. by left.
Qed.

(** When the calls succeed, [switch_root] moves every mount but / and the new
    root, by itself or with a mount above it. *)
Theorem switch_root_covers path infos i :
  i ∈ infos → target i ≠ bs "/" → target i ≠ path → moved (switch_root env path infos []).1 (target i).
Proof.
  intros Hi H1 H2. unfold switch_root, ignore, mbind, io_bind, call. rewrite env_ok. cbn [app].
  destruct (move_mounts_moved path [] infos [OpenRootfs]) as (t & -> & Hc);
    [by intros m ?%not_elem_of_nil|].
  rewrite !env_ok. cbn [fst]. rewrite <- !app_assoc. rewrite (app_assoc [OpenRootfs]).
  apply moved_app. by apply Hc.
Qed.
End Moves.

(** *** Instances *)

Definition info_at (t : string) : MountInfo :=
  mkInfo 1 2 0x10020 (bs "/adb/modules/x") (bs t) (bs "ro,relatime") 7 0 3 true (bs "ext4")
         (bs "/dev/block/dm-1") (bs "rw,seclabel").

Lemma mount_info_roundtrip_witness :
  parse_mount_info_line (λ a b, a * 0x10000 + b)
    (bs "1 2 1:32 /adb/modules/x /system/app ro,relatime shared:7 propagate_from:3 unbindable - ext4 /dev/block/dm-1 rw,seclabel")
  = Some (info_at "/system/app").
Proof.
  apply (mount_info_roundtrip (λ a b, a * 0x10000 + b) 1 32 (info_at "/system/app")); by_compute.
Defined.

Lemma preinit_cmp_cycle_witness :
  let m fs := mkInfo 0 0 0 [] [] [] 0 0 0 false (bs fs) [] [] in
  preinit_cmp (Data, m "f2fs"%string) (Metadata, m "f2fs"%string) = Lt ∧
  preinit_cmp (Metadata, m "f2fs"%string) (Persist, m "ext4"%string) = Lt ∧
  preinit_cmp (Persist, m "ext4"%string) (Data, m "f2fs"%string) = Lt.
Proof. intros m. apply (preinit_cmp_cycle (Data, m "f2fs"%string)); done. Defined.

Lemma preinit_cmp_rank_witness :
  preinit_cmp (Data, info_at "/data") (Persist, info_at "/persist") = Lt.
Proof.
  pose proof (preinit_cmp_rank (Data, info_at "/data") (Persist, info_at "/persist")
    ltac:(done) ltac:(done)) as H. rewrite H. reflexivity.
Defined.

Lemma retain_keeps_nested_witness :
  retain_roots None (merge_sort bytes_le [bs "/system/a"; bs "/system"; bs "/system-ext"]) =
  [bs "/system"; bs "/system-ext"; bs "/system/a"].
Proof. apply (retain_keeps_nested (bs "/system") (bs "ext") (bs "a")); reflexivity. Defined.

Lemma switch_root_covers_witness :
  moved (switch_root (λ _ _, true) (bs "/data") [info_at "/sys"; info_at "/sys/fs"] []).1 (bs "/sys/fs").
Proof.
  apply (switch_root_covers (λ _ _, true) (λ _ _, eq_refl) (bs "/data")
    [info_at "/sys"; info_at "/sys/fs"] (info_at "/sys/fs")); by_compute.
Defined.

Lemma unmount_covers_witness :
  ∃ p, Unmount p ∈ (revert_unmount (λ _ _, false) [info_at "/system/app"] []).1 ∧
       path_starts_with (bs "/system/app") p = true.
Proof.
  pose proof (unmount_covers (λ _ _, false) [info_at "/system/app"]) as H.
  destruct (revert_unmount (λ _ _, false) [info_at "/system/app"] []) as [ops r].
  destruct H as (_ & H & _). apply (H (info_at "/system/app")); by_compute.
Defined.
