(* ===== verification/Preinit.v ===== *)
(** Preinit: the directory that survives until the next boot, and Magisk's own mounts,
    [native/src/core/mount.rs].

    The state is what is at a path where Magisk makes something (a directory, a link, a
    block device), and the bind mounts.  The mount table is a list ([Mount]);
    [resolve_preinit_dir] is C++. *)

From S2P Require Import Prelude Text Cstr Io Sys Mount.

Inductive Entry := Dir | Link (target : bytes) | Block (dev : Z).

Inductive PreOp :=
  | GetAttr (p : bytes)
  | MkDir (p : bytes)
  | MkDirs (p : bytes)
  | Remove (p : bytes)
  | Symlink (p target : bytes)
  | Bind (from to : bytes)
  | ReadOnly (p : bytes)
  | Private (p : bytes)
  | Unmount (p : bytes)
  | MkNod (p : bytes) (dev : Z)
  | Info (msg : bytes)
  | Warn (msg : bytes).

Record Here := mkHere { entries : gmap bytes Entry; binds : list (bytes * bytes); read_only : list bytes }.
Abbreviation S := (Sys Here PreOp).

Definition with_entries (f : gmap bytes Entry → gmap bytes Entry) (w : Here) : Here :=
  mkHere (f (entries w)) (binds w) (read_only w).

(** A directory that is there is left as it is. *)
Definition made (p : bytes) (m : gmap bytes Entry) : gmap bytes Entry :=
  match m !! p with None => <[p := Dir]> m | _ => m end.

Definition PREINITMIRR : bytes := bs ".magisk/preinit".
Definition PREINITDEV : bytes := bs ".magisk/device/preinit".
Definition MODULEMNT : bytes := bs ".magisk/modules".
Definition WORKERDIR : bytes := bs ".magisk/worker".
Definition MODULEROOT : bytes := bs "/data/adb/modules".

Section Calls.
Context (env : Env PreOp).
(** The mount table and the C++ function. *)
Context (infos : list MountInfo) (resolve_preinit_dir : bytes → bytes).
Context (magisk_tmp : bytes).

Definition note (o : PreOp) : S unit := λ w h, (w, h ++ [o], Ok tt).

Definition mkdir (p : bytes) : S unit :=
  do_ env (MkDir p) (with_entries (made p)) (λ w, w).
Definition mkdirs (p : bytes) : S unit :=
  do_ env (MkDirs p) (with_entries (made p)) (λ w, w).
Definition remove (p : bytes) : S unit := do_ env (Remove p) (with_entries (delete p)) (λ w, w).

(** What is to be made must not be there. *)
Definition make (o : PreOp) (p : bytes) (e : Entry) : S unit := λ w h,
  if env h o && bool_decide (entries w !! p = None) then (with_entries <[p := e]> w, h ++ [o], Ok tt)
  else (w, h ++ [o], Err tt).
Definition create_symlink_to (p target : bytes) : S unit := make (Symlink p target) p (Link target).

Definition unmount (p : bytes) : S unit :=
  do_ env (Unmount p)
    (λ w, mkHere (entries w) (List.filter (λ b, bool_decide (b.2 ≠ p)) (binds w)) (List.filter (λ q, bool_decide (q ≠ p)) (read_only w)))
    (λ w, w).

Definition S_IFMT : Z := 0xf000.
Definition S_IFBLK : Z := 0x6000.
Definition S_IFDIR : Z := 0x4000.
Definition S_IFLNK : Z := 0xa000.

(** The mode and the device number, links not followed. *)
Definition attr_of (e : Entry) : Z * Z :=
  match e with Dir => (Z.lor S_IFDIR 0x1c0, 0) | Link _ => (Z.lor S_IFLNK 0x1ff, 0) | Block dev => (Z.lor S_IFBLK 0x180, dev) end.
Definition get_attr (p : bytes) : S (Z * Z) := λ w h,
  match entries w !! p with
  | Some e => if env h (GetAttr p) then (w, h ++ [GetAttr p], Ok (attr_of e)) else (w, h ++ [GetAttr p], Err tt)
  | None => (w, h ++ [GetAttr p], Err tt)
  end.

(** ** [setup_preinit_dir] *)

Definition link_preinit (preinit_dir mnt_path : bytes) : S unit :=
  _ ← mkdir preinit_dir;
  _ ← mkdirs mnt_path;
  _ ← ok_ (remove mnt_path);
  create_symlink_to mnt_path preinit_dir.

(** Mounts of the whole device that can be written, until one works. *)
Fixpoint try_mounts (dev : Z) (mnt_path : bytes) (infos : list MountInfo) : S bool :=
  match infos with
  | [] => mret false
  | info :: infos =>
      if bool_decide (root info = bs "/") && (device info =? dev) then
        if negb (is_rw info) then try_mounts dev mnt_path infos
        else
          let preinit_dir := resolve_preinit_dir (target info) in
          r ← is_ok_ (link_preinit preinit_dir mnt_path);
          if r : bool then _ ← note (Info (bs "* Found preinit dir: " ++ preinit_dir)); mret true
          else try_mounts dev mnt_path infos
      else try_mounts dev mnt_path infos
  end.

Definition join2 (cap : nat) (a b : bytes) : bytes :=
  Buf.as_str (Buf.append_path (Buf.append_path (Buf.new cap) a) b).

Definition setup_preinit_dir : S unit :=
  let dev_path := join2 64 magisk_tmp PREINITDEV in
  attr ← try_ (get_attr dev_path);
  found ← (match attr with
           | Some (st_mode, st_rdev) =>
               if Z.land st_mode S_IFMT =? S_IFBLK then try_mounts st_rdev (join2 4096 magisk_tmp PREINITMIRR) infos
               else mret false
           | None => mret false
           end);
  if found : bool then mret tt else note (Warn (bs "mount: preinit dir not found")).

(** ** Magisk's mounts *)

Definition setup_module_mount : S unit :=
  let module_mnt := join2 4096 magisk_tmp MODULEMNT in
  ok_ (_ ← mkdir module_mnt;
       _ ← do_ env (Bind MODULEROOT module_mnt)
             (λ w, mkHere (entries w) (binds w ++ [(MODULEROOT, module_mnt)]) (read_only w)) (λ w, w);
       do_ env (ReadOnly module_mnt) (λ w, mkHere (entries w) (binds w) (read_only w ++ [module_mnt])) (λ w, w)).

Definition clean_mounts : S unit :=
  _ ← ok_ (unmount (join2 4096 magisk_tmp MODULEMNT));
  let worker_dir := join2 4096 magisk_tmp WORKERDIR in
  ok_ (_ ← ask env (Private worker_dir); unmount worker_dir).

(** ** [find_preinit_device] *)

(** [select_nth_unstable_by] at 0: one pass that keeps the lesser element. *)
Definition select_first (l : list (PartId * MountInfo)) : option (PartId * MountInfo) :=
  match l with
  | [] => None
  | a :: l => Some (foldl (λ acc t, match preinit_cmp t acc with Lt => t | _ => acc end) a l)
  end.

Definition preinit_candidates (major : Z → Z) (enc : EncryptType) : list (PartId * MountInfo) :=
  omap (preinit_candidate major enc) infos.

Definition link_mirror (preinit_dir mirror_dir : bytes) : S unit :=
  _ ← mkdirs preinit_dir;
  _ ← mkdirs mirror_dir;
  _ ← ok_ (unmount mirror_dir);
  _ ← ok_ (remove mirror_dir);
  create_symlink_to mirror_dir preinit_dir.

(** [tmp]: the variable MAGISKTMP; [makedev]: whether MAKEDEV is set. *)
Definition find_preinit_device (major : Z → Z) (enc : EncryptType) (is_root : bool) (tmp : option bytes) (makedev : bool) :
    S bytes :=
  match select_first (preinit_candidates major enc) with
  | None => mret []
  | Some (_, info) =>
      let preinit_dir := resolve_preinit_dir (target info) in
      _ ← (match tmp with
           | Some tmp =>
               if is_root && negb (bool_decide (tmp = [])) then
                 let mirror_dir := join2 4096 tmp PREINITMIRR in
                 _ ← ok_ (link_mirror preinit_dir mirror_dir);
                 if makedev : bool then
                   let dev_path := join2 4096 tmp PREINITDEV in
                   ok_ (make (MkNod dev_path (device info)) dev_path (Block (device info)))
                 else mret tt
               else mret tt
           | None => mret tt
           end);
      mret (default [] (Path.file_name (source info)))
  end.
End Calls.

(** ** What is chosen *)

Lemma fold_least a l :
  let r := foldl (λ acc t, match preinit_cmp t acc with Lt => t | _ => acc end) a l in
  r ∈ a :: l ∧
  (Forall (λ x, x.1 ≠ Metadata) (a :: l) → ∀ b, b ∈ a :: l → preinit_rank r ≤ preinit_rank b).
Proof.
  cbn zeta. revert a. induction l as [|t l IH]; intros a; cbn [foldl].
  - split; [by left|]. intros _ b ->%list_elem_of_singleton. lia.
  - destruct (IH (match preinit_cmp t a with Lt => t | _ => a end)) as [Hin Hle].
    split; [destruct (preinit_cmp t a); set_solver|].
    intros [Ha [Ht Hl]%Forall_cons]%Forall_cons b Hb.
    rewrite preinit_cmp_rank in * by done.
    destruct (Z.compare_spec (preinit_rank t) (preinit_rank a)) as [E|E|E].
    + pose proof (Hle ltac:(by constructor) a ltac:(by left)).
      apply elem_of_cons in Hb as [->|[->|Hb]%elem_of_cons]; [lia..|]. apply Hle; [by constructor|by right].
    + pose proof (Hle ltac:(by constructor) t ltac:(by left)).
      apply elem_of_cons in Hb as [->|[->|Hb]%elem_of_cons]; [lia..|]. apply Hle; [by constructor|by right].
    + pose proof (Hle ltac:(by constructor) a ltac:(by left)).
      apply elem_of_cons in Hb as [->|[->|Hb]%elem_of_cons]; [lia..|]. apply Hle; [by constructor|by right].
Qed.

(** The choice is one of the candidates, and unless one of them is /metadata the best by
    the rank: ext4 first, then by the kind of partition. *)
Lemma select_first_least l a : select_first l = Some a →
  a ∈ l ∧ (Forall (λ x, x.1 ≠ Metadata) l → ∀ b, b ∈ l → preinit_rank a ≤ preinit_rank b).
Proof. destruct l as [|x l]; [done|]. intros [= <-]. apply fold_least. Qed.

Lemma preinit_candidate_info major enc i p j : preinit_candidate major enc i = Some (p, j) →
  j = i ∧ root i = bs "/" ∧ is_rw i = true.
Proof.
  unfold preinit_candidate. repeat case_match; try done; intros; simplify_eq;
    repeat match goal with
    | H : _ || _ = false |- _ => apply orb_false_iff in H as [? ?]
    | H : negb _ = false |- _ => apply negb_false_iff in H
    | H : bool_decide (_ ≠ _) = false |- _ => apply bool_decide_eq_false, dec_stable in H
    end; done.
Qed.

(** The mounts [setup_preinit_dir] can use. *)
Definition usable (dev : Z) (i : MountInfo) : bool :=
  bool_decide (root i = bs "/") && (device i =? dev) && is_rw i.

Lemma candidate_usable major enc infos p i :
  select_first (preinit_candidates infos major enc) = Some (p, i) → i ∈ infos ∧ usable (device i) i = true.
Proof.
  intros [Hin _]%select_first_least. apply list_elem_of_omap in Hin as (j & Hj & Hc).
  destruct (preinit_candidate_info _ _ _ _ _ Hc) as (-> & Hr & Hw). split; [done|].
  unfold usable. by rewrite Hr, Hw, Z.eqb_refl.
Qed.

(** ** What is linked *)

(** The link to a directory, whatever was there. *)
Definition linked (dir mnt : bytes) : Here → Here :=
  with_entries (λ m, <[mnt := Link dir]> (delete mnt (made mnt (made dir m)))).

Lemma linked_there dir mnt w : entries (linked dir mnt w) !! mnt = Some (Link dir).
Proof. cbn. apply lookup_insert_eq. Qed.

Lemma linked_else dir mnt w p : p ≠ mnt → p ≠ dir → entries (linked dir mnt w) !! p = entries w !! p.
Proof.
  intros Hm Hd. cbn. rewrite lookup_insert_ne, lookup_delete_ne by done. unfold made.
  repeat case_match; by rewrite ?lookup_insert_ne by done.
Qed.

Lemma linked_kept dir mnt w p e : p ≠ mnt → entries w !! p = Some e → entries (linked dir mnt w) !! p = Some e.
Proof.
  intros Hm He. cbn. rewrite lookup_insert_ne, lookup_delete_ne by done.
  assert (∀ q m, m !! p = Some e → made q m !! p = Some e) as H.
  { intros q m Hq. unfold made. case_match eqn:E; [done|]. rewrite lookup_insert_ne; [done|]. intros ->. congruence. }
  by apply H, H.
Qed.

Section Setup.
Context (env : Env PreOp) (infos : list MountInfo) (resolve_preinit_dir : bytes → bytes) (magisk_tmp : bytes).
Context (He : all_succeed env).
Abbreviation mirror := (join2 4096 magisk_tmp PREINITMIRR).
Abbreviation dev_path := (join2 64 magisk_tmp PREINITDEV).

Lemma link_run dir mnt w h : ∃ t, link_preinit env dir mnt w h = (linked dir mnt w, h ++ t, Ok tt).
Proof.
  exists [MkDir dir; MkDirs mnt; Remove mnt; Symlink mnt dir].
  unfold link_preinit, mkdir, mkdirs, remove, create_symlink_to, make, ok_, do_, mbind, sys_bind.
  rewrite !He. cbn [andb]. rewrite bool_decide_eq_true_2; [by rewrite <- !app_assoc|].
  cbn. apply lookup_delete_eq.
Qed.

Lemma try_mounts_run dev l w h :
  ∃ t, try_mounts env resolve_preinit_dir dev mirror l w h =
    (match List.find (usable dev) l with Some i => linked (resolve_preinit_dir (target i)) mirror w | None => w end,
     h ++ t, Ok (match List.find (usable dev) l with Some _ => true | None => false end)).
Proof.
  revert h. induction l as [|i l IH]; intros h; cbn [try_mounts List.find].
  - exists []. by rewrite app_nil_r.
  - change (usable dev i) with (bool_decide (root i = bs "/") && (device i =? dev) && is_rw i).
    destruct (bool_decide (root i = bs "/") && (device i =? dev)); cbn [andb]; [|apply IH].
    destruct (is_rw i); cbn [negb]; [|apply IH].
    destruct (link_run (resolve_preinit_dir (target i)) mirror w h) as [t E].
    exists (t ++ [Info (bs "* Found preinit dir: " ++ resolve_preinit_dir (target i))]).
    unfold mbind, sys_bind, is_ok_ at 1. rewrite E. unfold note.
    by rewrite <- app_assoc.
Qed.

(** Where nothing fails, the first mount of the device that can be written gives the link. *)
Lemma setup_links dev w h : entries w !! dev_path = Some (Block dev) →
  ∃ t, setup_preinit_dir env infos resolve_preinit_dir magisk_tmp w h =
    (match List.find (usable dev) infos with Some i => linked (resolve_preinit_dir (target i)) mirror w | None => w end,
     h ++ t, Ok tt).
Proof.
  intros Hdev. unfold setup_preinit_dir. unfold mbind, sys_bind at 1. unfold try_, get_attr. rewrite Hdev, He.
  cbn [attr_of]. change (Z.land (Z.lor S_IFBLK 384) S_IFMT =? S_IFBLK) with true. cbn iota.
  unfold sys_bind. destruct (try_mounts_run dev infos w (h ++ [GetAttr dev_path])) as [t E]. rewrite E.
  destruct (List.find (usable dev) infos); cbn.
  - exists (GetAttr dev_path :: t). by rewrite <- app_assoc.
  - exists (GetAttr dev_path :: t ++ [Warn (bs "mount: preinit dir not found")]). unfold note. by rewrite <- !app_assoc.
Qed.
End Setup.

(** ** What was installed is found again *)

Lemma find_usable dev infos i : i ∈ infos → usable dev i = true →
  ∃ j, List.find (usable dev) infos = Some j ∧ j ∈ infos ∧ usable dev j = true.
Proof.
  induction infos as [|x infos IH]; intros Hin Hu; [set_solver|]. cbn [List.find].
  destruct (usable dev x) eqn:E; [exists x; set_solver|].
  apply elem_of_cons in Hin as [->|Hin]; [congruence|]. destruct (IH Hin Hu) as (j & ? & ? & ?). set_solver.
Qed.

Lemma made_none (p q : bytes) (m : gmap bytes Entry) : p ≠ q → m !! p = None → made q m !! p = None.
Proof. intros Hn Hp. unfold made. case_match; [done|]. by rewrite lookup_insert_ne. Qed.

Lemma find_run env infos resolve major enc tmp p i w h :
  let dev := join2 4096 tmp PREINITDEV in let mirr := join2 4096 tmp PREINITMIRR in
  all_succeed env → tmp ≠ [] → dev ≠ mirr → resolve (target i) ≠ dev →
  select_first (preinit_candidates infos major enc) = Some (p, i) → entries w !! dev = None →
  ∃ w1 t1,
    find_preinit_device env infos resolve major enc true (Some tmp) true w h =
      (w1, h ++ t1, Ok (default [] (Path.file_name (source i)))) ∧
    entries w1 = <[dev := Block (device i)]> (entries (linked (resolve (target i)) mirr w)).
Proof.
  cbn zeta. intros He Htmp Hne Hdir Hsel Hnone. set (dev := join2 4096 tmp PREINITDEV) in *. set (mirr := join2 4096 tmp PREINITMIRR) in *.
  unfold find_preinit_device. rewrite Hsel, bool_decide_eq_false_2 by done. cbn [andb negb]. fold dev mirr.
  set (dir := resolve (target i)) in *.
  assert (∃ w0 t, ok_ (link_mirror env dir mirr) w h = (w0, h ++ t, Ok tt) ∧ entries w0 = entries (linked dir mirr w)) as (w0 & t & E & Hw0).
  { unfold link_mirror, mkdirs, unmount, remove, create_symlink_to, make, ok_, do_, mbind, sys_bind. rewrite !He. cbn [andb].
    rewrite bool_decide_eq_true_2 by apply lookup_delete_eq. eexists _, _. split; [by rewrite <- !app_assoc|done]. }
  exists (with_entries <[dev := Block (device i)]> w0), (t ++ [MkNod dev (device i)]).
  unfold mbind, sys_bind. rewrite E. unfold ok_, make. rewrite He. cbn [andb].
  rewrite bool_decide_eq_true_2; [by rewrite <- app_assoc; cbn; rewrite Hw0|].
  rewrite Hw0. cbn. rewrite lookup_insert_ne, lookup_delete_ne by done. by repeat apply made_none.
Qed.

(** The device that the installation chose and made a node for is the one the daemon
    finds: with the same mounts, [setup_preinit_dir] links the directory on the first
    writable mount of that very device, whatever the link was before. *)
Theorem preinit_found_again env infos resolve major enc tmp p i w h :
  all_succeed env → tmp ≠ [] → join2 64 tmp PREINITDEV = join2 4096 tmp PREINITDEV →
  join2 4096 tmp PREINITDEV ≠ join2 4096 tmp PREINITMIRR → resolve (target i) ≠ join2 4096 tmp PREINITDEV →
  select_first (preinit_candidates infos major enc) = Some (p, i) →
  entries w !! join2 4096 tmp PREINITDEV = None →
  ∃ w1 t1 w2 t2 j,
    find_preinit_device env infos resolve major enc true (Some tmp) true w h = (w1, h ++ t1, Ok (default [] (Path.file_name (source i)))) ∧
    setup_preinit_dir env infos resolve tmp w1 (h ++ t1) = (w2, h ++ t2, Ok tt) ∧
    j ∈ infos ∧ device j = device i ∧ is_rw j = true ∧
    entries w2 !! join2 4096 tmp PREINITMIRR = Some (Link (resolve (target j))).
Proof.
  intros He Htmp Hpath Hne Hdir Hsel Hnone. unfold find_preinit_device. rewrite Hsel.
  set (dev := join2 4096 tmp PREINITDEV) in *. set (mirr := join2 4096 tmp PREINITMIRR) in *.
  destruct (find_run env infos resolve major enc tmp p i w h) as (w1 & t1 & E1 & Hw1); [done..|].
  unfold find_preinit_device in E1. rewrite Hsel in E1.
  destruct (candidate_usable _ _ _ _ _ Hsel) as [Hin Hu]. destruct (find_usable _ _ _ Hin Hu) as (j & Ej & Hj & Huj).
  destruct (setup_links env infos resolve tmp He (device i) w1 (h ++ t1)) as [t2 E2]; [rewrite Hpath, Hw1; apply lookup_insert_eq|]. rewrite Ej in E2.
  exists w1, t1, (linked (resolve (target j)) mirr w1), (t1 ++ t2), j. rewrite E2, app_assoc.
  unfold usable in Huj. apply andb_true_iff in Huj as [[_ Hd%Z.eqb_eq]%andb_true_iff Hrw].
  split_and!; try done. apply linked_there.
Qed.

Definition data_mount : MountInfo :=
  mkInfo 25 1 66309 (bs "/") (bs "/data") (bs "rw") 0 0 0 false (bs "f2fs") (bs "/dev/block/by-name/userdata") (bs "rw,lazytime").

Lemma preinit_found_again_witness :
  let dir t := t ++ bs "/unencrypted/magisk" in
  ∃ w1 t1 w2 t2 j,
    find_preinit_device (λ _ _, true) [data_mount] dir (λ d, Z.shiftr d 8) ENone true (Some (bs "/sbin")) true (mkHere ∅ [] []) [] =
      (w1, t1, Ok (bs "userdata")) ∧
    setup_preinit_dir (λ _ _, true) [data_mount] dir (bs "/sbin") w1 t1 = (w2, t2, Ok tt) ∧
    j ∈ [data_mount] ∧ device j = 66309 ∧ is_rw j = true ∧
    entries w2 !! bs "/sbin/.magisk/preinit" = Some (Link (dir (target j))).
Proof.
  apply (preinit_found_again (λ _ _, true) [data_mount] (λ t, t ++ bs "/unencrypted/magisk") (λ d, Z.shiftr d 8) ENone (bs "/sbin")
    Data data_mount (mkHere ∅ [] []) []); first [done | vm_compute; done].
Defined.

(** The modules are mounted read-only, and unmounting them leaves what was there. *)
Lemma filter_keeps {A} (f : A → bool) l : Forall (λ x, f x = true) l → List.filter f l = l.
Proof. induction 1 as [|x l Hx _ IH]; [done|]. cbn [List.filter]. by rewrite Hx, IH. Qed.

Lemma clean_undoes_setup env tmp w h :
  let module_mnt := join2 4096 tmp MODULEMNT in let worker_dir := join2 4096 tmp WORKERDIR in
  all_succeed env → Forall (λ b : bytes * bytes, b.2 ≠ module_mnt ∧ b.2 ≠ worker_dir) (binds w) →
  Forall (λ p, p ≠ module_mnt ∧ p ≠ worker_dir) (read_only w) →
  let '(w1, t1, _) := setup_module_mount env tmp w h in
  let '(w2, _, _) := clean_mounts env tmp w1 t1 in
  binds w1 = binds w ++ [(MODULEROOT, module_mnt)] ∧ module_mnt ∈ read_only w1 ∧
  binds w2 = binds w ∧ read_only w2 = read_only w.
Proof.
  cbn zeta. intros He Hb Hr.
  unfold setup_module_mount, clean_mounts, mkdir, unmount, ask, ok_, do_, mbind, sys_bind. rewrite !He.
  cbn [binds read_only with_entries]. split; [done|]. split; [set_solver|].
  rewrite !List.filter_app. cbn [List.filter snd]. rewrite !(bool_decide_eq_false_2 (join2 4096 tmp MODULEMNT ≠ _)) by auto.
  cbn [List.filter]. rewrite !app_nil_r.
  assert (∀ p, p = join2 4096 tmp MODULEMNT ∨ p = join2 4096 tmp WORKERDIR →
    List.filter (λ b : bytes * bytes, bool_decide (b.2 ≠ p)) (binds w) = binds w ∧
    List.filter (λ q, bool_decide (q ≠ p)) (read_only w) = read_only w) as H.
  { intros p Hp. split; apply filter_keeps.
    - eapply Forall_impl; [exact Hb|]. intros b [H1 H2]. apply bool_decide_eq_true_2. destruct Hp; congruence.
    - eapply Forall_impl; [exact Hr|]. intros b [H1 H2]. apply bool_decide_eq_true_2. destruct Hp; congruence. }
  destruct (H _ (or_introl eq_refl)) as [-> ->]. destruct (H _ (or_intror eq_refl)) as [E1 E2]. by rewrite ?E1, ?E2.
Qed.
