(* ===== verification/ModuleTree.v ===== *)
(** ModuleTree: the virtual file tree of the modules and its mounting,
    [native/src/core/module.rs] ([FsNode], [collect], [commit], [commit_tmpfs]).

    A [FsNodeMap] is its entries in key order ([NodeMap]).  The trees of the modules
    ([MTree]) and of the device ([RTree]) are data of the environment; a device node
    carries the entries its path opens to, so a symlink to a directory carries those
    of its target.  Mounting is a sequence of [Io] calls.  [commit] and
    [commit_tmpfs] descend both trees at once, with the larger of their heights as
    fuel ([commit_tmpfs_overlay]).  A path is the string in the
    [PathTracker]; leaving its scope restores it, so a path is an argument. *)

From S2P Require Import Prelude Cstr Io.

(** ** Trees *)

Inductive FsNode :=
  | Directory (children : list (bytes * FsNode))
  | File (src : bytes)
  | Symlink (target : bytes)
  | MagiskLink
  | Whiteout.

Abbreviation FsNodeMap := (list (bytes * FsNode)).

(** A module's file tree, entries in directory order. *)
Inductive MTree :=
  | MDir (entries : list (bytes * MTree))
  | MLink (target : bytes)
  | MChar (whiteout : bool)
  | MFile.

(** The device's file tree. *)
Inductive RKind := RDir | RLink (target : bytes) | RFile | ROther.
Inductive RTree := RNode (kind : RKind) (entries : list (bytes * RTree)).

Definition r_kind (t : RTree) : RKind := let 'RNode k _ := t in k.
Definition r_entries (t : RTree) : list (bytes * RTree) := let 'RNode _ es := t in es.

(** [exists] is an [lstat]: symlinks are not followed. *)
Definition r_exists (rt : option RTree) : bool :=
  match rt with Some _ => true | None => false end.

(** What stands at a name below an existing path. *)
Fixpoint r_find (name : bytes) (es : list (bytes * RTree)) : option RTree :=
  match es with
  | [] => None
  | (n, t) :: es => if bool_decide (n = name) then Some t else r_find name es
  end.
Definition r_child (rt : option RTree) (name : bytes) : option RTree :=
  match rt with Some t => r_find name (r_entries t) | None => None end.

Definition new_dir : FsNode := Directory [].

(** [BTreeMap]: lookup, insertion in key order, removal. *)
Fixpoint get (k : bytes) (m : FsNodeMap) : option FsNode :=
  match m with
  | [] => None
  | (n, v) :: m => if bool_decide (n = k) then Some v else get k m
  end.

Fixpoint put (k : bytes) (v : FsNode) (m : FsNodeMap) : FsNodeMap :=
  match m with
  | [] => [(k, v)]
  | (n, w) :: m' =>
      match bytes_cmp k n with
      | Lt => (k, v) :: m
      | Eq => (k, v) :: m'
      | Gt => (n, w) :: put k v m'
      end
  end.

Definition del (k : bytes) (m : FsNodeMap) : FsNodeMap :=
  List.filter (λ p, negb (bool_decide (p.1 = k))) m.

Definition has (k : bytes) (m : FsNodeMap) : bool :=
  match get k m with Some _ => true | None => false end.

(** [m.entry(k).or_insert_with(v)]. *)
Definition or_insert (k : bytes) (v : FsNode) (m : FsNodeMap) : FsNodeMap :=
  if has k m then m else put k v m.

(** [path.append_path(name)] on a growable string. *)
Definition append_path (path name : bytes) : bytes :=
  (if starts_with (bs "/") name then [] else path ++ Buf.path_sep path) ++ name.

(** ** Calls *)

Inductive Op :=
  | Mkdirs (p : bytes)
  | Mkdir (p : bytes)
  | Create (p : bytes)
  | BindMount (src dest : bytes) (rec : bool)
  | RemountRo (p : bytes)
  | CloneAttr (a b : bytes)
  | CreateSymlink (p target : bytes)
  | LoadPropFile (p : bytes)
  | ZygiskSetProp.

Section Tree.
Context (env : Env Op).

(** ** Collecting *)

(** The three paths of [ModulePaths]. *)
Record ModulePaths := mkPaths { real : bytes; module : bytes; module_mnt : bytes }.

Definition append (p : ModulePaths) (name : bytes) : ModulePaths :=
  mkPaths (append_path (real p) name) (append_path (module p) name)
          (append_path (module_mnt p) name).

(** What the union keeps of an entry that is not a directory. *)
Definition leaf (t : MTree) (paths : ModulePaths) : FsNode :=
  match t with
  | MLink target => Symlink target
  | MChar true => Whiteout
  | _ => File (module_mnt paths)
  end.

(** [collect] on a directory of a module: the trace, the node, and whether the walk
    went to its end; what was collected before an error stays. *)
Fixpoint collect (t : MTree) (paths : ModulePaths) (rt : option RTree) (node : FsNode)
    (h : list Op) {struct t} : list Op * FsNode * bool :=
  match node, t with
  | Directory children, MDir entries =>
      let '(h, children, ok) :=
        (fix go (es : list (bytes * MTree)) (children : FsNodeMap) (h : list Op) :=
          match es with
          | [] => (h, children, true)
          | (name, t) :: es =>
              let entry_paths := append paths name in
              let real_entry := r_child rt name in
              match t with
              | MDir _ =>
                  let children := or_insert name new_dir children in
                  let '(h, node, ok) :=
                    collect t entry_paths real_entry (default new_dir (get name children)) h in
                  let children := put name node children in
                  if ok then go es children h else (h, children, false)
              | MLink _ | MChar true =>
                  go es (or_insert name (leaf t entry_paths) children) h
              | _ =>
                  let '(h, ok) :=
                    if r_exists real_entry
                    then (h ++ [CloneAttr (real entry_paths) (module entry_paths)],
                          env h (CloneAttr (real entry_paths) (module entry_paths)))
                    else (h, true) in
                  if ok : bool
                  then go es (or_insert name (leaf t entry_paths) children) h
                  else (h, children, false)
              end
          end) entries children h in
      (h, Directory children, ok)
  | Directory _, _ => (h, node, false)
  | _, _ => (h, node, true)
  end.

(** ** Mounting *)

Definition bind_mount (src dest : bytes) (rec : bool) : Io Op unit :=
  _ ← ignore (call env (BindMount src dest rec));
  ignore (call env (RemountRo dest)).

Definition mount_dummy (src dest : bytes) (is_dir : bool) : Io Op unit :=
  _ ← call env (if is_dir then Mkdir dest else Create dest);
  bind_mount src dest false.

Definition is_symlink (t : RTree) : bool :=
  match r_kind t with RLink _ => true | _ => false end.

Definition parent_should_be_tmpfs (node : FsNode) (target : option RTree) : bool :=
  match node with
  | Directory _ | File _ => match target with Some t => is_symlink t | None => true end
  | _ => true
  end.

Definition REPLACE : bytes := bs ".replace".
Definition priority : bytes := bs "framework".

(** The children with the one committed first in front, the others in order. *)
Definition by_priority (children : FsNodeMap) : FsNodeMap :=
  match get priority children with
  | Some node => [(priority, node)]
  | None => []
  end ++ del priority children.

(** The directory [.replace] stands in, when it is a file of a module. *)
Definition replace_dir (children : FsNodeMap) : option bytes :=
  match get REPLACE children with
  | Some (File src) => Path.parent_dir src
  | _ => None
  end.

(** [clone_attr] from the real path, or from the parent of the worker directory. *)
Definition clone_dir_attr (real worker : bytes) (rt : option RTree) : Io Op unit :=
  if r_exists rt then call env (CloneAttr real worker)
  else match Path.parent_dir worker with
       | Some p => call env (CloneAttr p worker)
       | None => mret tt
       end.

Definition magisk_link (real : bytes) : bytes :=
  if bool_decide (Path.file_name real = Some (bs "supolicy"))
  then bs "./magiskpolicy" else bs "./magisk".

Fixpoint commit_tmpfs (fuel : nat) (node : FsNode) (real worker : bytes) (rt : option RTree) :
    Io Op unit :=
  match fuel with
  | O => lift NoFuel
  | S fuel =>
      match node with
      | Directory children =>
          _ ← call env (Mkdirs worker);
          _ ← clone_dir_attr real worker rt;
          let rest := del REPLACE children in
          match replace_dir children with
          | Some dir =>
              for_each (λ p,
                let '(name, child) := p in
                match child with
                | Directory _ => mount_dummy (append_path dir name) (append_path worker name) true
                | _ => commit_tmpfs fuel child (append_path real name) (append_path worker name)
                         (r_child rt name)
                end) rest
          | None =>
              _ ← for_each (λ p,
                    let '(name, t) := p in
                    if has name rest then mret tt
                    else
                      let real := append_path real name in
                      let worker := append_path worker name in
                      match r_kind t with
                      | RDir => commit_tmpfs fuel new_dir real worker (Some t)
                      | RLink target => commit_tmpfs fuel (Symlink target) real worker (Some t)
                      | _ => mount_dummy real worker false
                      end) (match rt with Some t => r_entries t | None => [] end);
              for_each (λ p,
                let '(name, child) := p in
                commit_tmpfs fuel child (append_path real name) (append_path worker name)
                  (r_child rt name)) (by_priority rest)
          end
      | File src => mount_dummy src worker false
      | Symlink target =>
          _ ← call env (CreateSymlink worker target);
          if r_exists rt then call env (CloneAttr real worker) else mret tt
      | MagiskLink => call env (CreateSymlink worker (magisk_link real))
      | Whiteout => mret tt
      end
  end.

(** The closure of [children.retain]: whether the child stays, and whether it asks
    for a tmpfs. *)
Definition keep (is_root_dir : bool) (rt : option RTree) (p : bytes * FsNode) : bool * bool :=
  if bool_decide (p.1 = REPLACE) then if is_root_dir then (false, false) else (true, true)
  else if parent_should_be_tmpfs p.2 (r_child rt p.1)
  then if is_root_dir then (false, false) else (true, true)
  else (true, false).

Fixpoint commit (fuel : nat) (node : FsNode) (real worker : bytes) (rt : option RTree)
    (is_root_dir : bool) : Io Op unit :=
  match fuel with
  | O => lift NoFuel
  | S fuel =>
      match node with
      | Directory children =>
          let kept := List.filter (λ p, (keep is_root_dir rt p).1) children in
          let is_tmpfs := existsb (λ p, (keep is_root_dir rt p).2) children in
          if is_tmpfs then
            _ ← commit_tmpfs (S fuel) (Directory kept) real worker rt;
            bind_mount worker real true
          else
            for_each (λ p,
              let '(name, child) := p in
              commit fuel child (append_path real name) (append_path worker name)
                (r_child rt name) false) (by_priority kept)
      | File src => bind_mount src real false
      | _ => mret tt
      end
  end.
End Tree.

(** ** Induction on trees *)

Lemma FsNode_ind' (P : FsNode → Prop) :
  (∀ ch, Forall (λ p, P p.2) ch → P (Directory ch)) → (∀ s, P (File s)) → (∀ t, P (Symlink t)) →
  P MagiskLink → P Whiteout → ∀ n, P n.
Proof.
  intros HD HF HS HM HW. fix IH 1. intros [ch|s|t| |]; [|apply HF|apply HS|exact HM|exact HW]. apply HD.
  induction ch as [|[k n] ch IHch]; [constructor|]. constructor; [apply IH|exact IHch].
Qed.

Lemma RTree_ind' (P : RTree → Prop) :
  (∀ k es, Forall (λ p, P p.2) es → P (RNode k es)) → ∀ t, P t.
Proof.
  intros H. fix IH 1. intros [k es]. apply H.
  induction es as [|[n t] es IHes]; [constructor|]. constructor; [apply IH|exact IHes].
Qed.

Lemma MTree_ind' (P : MTree → Prop) :
  (∀ es, Forall (λ p, P p.2) es → P (MDir es)) → (∀ t, P (MLink t)) → (∀ b, P (MChar b)) →
  P MFile → ∀ t, P t.
Proof.
  intros HD HL HC HF. fix IH 1. intros [es|t|b|]; [|apply HL|apply HC|exact HF]. apply HD.
  induction es as [|[n t] es IHes]; [constructor|]. constructor; [apply IH|exact IHes].
Qed.

(** ** The ordered map *)

Lemma get_put k j v m : get j (put k v m) = if bool_decide (k = j) then Some v else get j m.
Proof.
  induction m as [|[n w] m IH]; cbn [put get]; [done|].
  destruct (bytes_cmp k n) eqn:E; cbn [get].
  - apply bytes_cmp_eq in E as ->. by case_bool_decide.
  - done.
  - rewrite IH. repeat case_bool_decide; subst; try done.
    rewrite (proj2 (bytes_cmp_eq j j) eq_refl) in E. done.
Qed.

Lemma get_Some_In k v m : get k m = Some v → (k, v) ∈ m.
Proof.
  induction m as [|[n w] m IH]; [done|]. cbn [get]. case_bool_decide.
  - intros [= <-]. subst. by left.
  - intros H'. right. auto.
Qed.

Lemma get_or_insert k j v m :
  get j (or_insert k v m) = if bool_decide (k = j) then Some (default v (get k m)) else get j m.
Proof.
  unfold or_insert, has. destruct (get k m) as [w|] eqn:E.
  - case_bool_decide; subst; done.
  - rewrite get_put. by case_bool_decide.
Qed.

(** ** What is collected *)

(** [collect] without its calls, when none of them fails. *)
Fixpoint union (t : MTree) (paths : ModulePaths) (node : FsNode) {struct t} : FsNode :=
  match node, t with
  | Directory children, MDir entries =>
      Directory
        ((fix go (es : list (bytes * MTree)) (children : FsNodeMap) :=
          match es with
          | [] => children
          | (name, t) :: es =>
              let entry_paths := append paths name in
              match t with
              | MDir _ =>
                  let children := or_insert name new_dir children in
                  go es (put name (union t entry_paths (default new_dir (get name children)))
                           children)
              | _ => go es (or_insert name (leaf t entry_paths) children)
              end
          end) entries children)
  | _, _ => node
  end.

(** The entries of a directory, one by one. *)
Definition add_entry (paths : ModulePaths) (children : FsNodeMap) (e : bytes * MTree) : FsNodeMap :=
  let '(name, t) := e in
  let entry_paths := append paths name in
  match t with
  | MDir _ =>
      let children := or_insert name new_dir children in
      put name (union t entry_paths (default new_dir (get name children))) children
  | _ => or_insert name (leaf t entry_paths) children
  end.

Lemma union_dir es paths children :
  union (MDir es) paths (Directory children) = Directory (foldl (add_entry paths) children es).
Proof.
  cbn [union]. f_equal. revert children. induction es as [|[n t] es IH]; intros children; [done|].
  destruct t; cbn [foldl add_entry]; apply IH.
Qed.

Section Collected.
Context (env : Env Op) (env_ok : ∀ h o, env h o = true).

(** The entries of a directory, as [collect] goes through them. *)
Fixpoint collect_entries (paths : ModulePaths) (rt : option RTree) (es : list (bytes * MTree))
    (children : FsNodeMap) (h : list Op) : list Op * FsNodeMap * bool :=
  match es with
  | [] => (h, children, true)
  | (name, t) :: es =>
      match t with
      | MDir _ =>
          let children := or_insert name new_dir children in
          let '(h, node, ok) := collect env t (append paths name) (r_child rt name)
                                  (default new_dir (get name children)) h in
          let children := put name node children in
          if ok then collect_entries paths rt es children h else (h, children, false)
      | MLink _ | MChar true =>
          collect_entries paths rt es (or_insert name (leaf t (append paths name)) children) h
      | _ =>
          let o := CloneAttr (real (append paths name)) (module (append paths name)) in
          let '(h, ok) := if r_exists (r_child rt name) then (h ++ [o], env h o) else (h, true) in
          if ok : bool
          then collect_entries paths rt es (or_insert name (leaf t (append paths name)) children) h
          else (h, children, false)
      end
  end.

Lemma collect_dir es paths rt children h :
  collect env (MDir es) paths rt (Directory children) h =
  let '(h, children, ok) := collect_entries paths rt es children h in (h, Directory children, ok).
Proof.
  cbn [collect].
  match goal with |- match ?x with _ => _ end = match ?y with _ => _ end => enough (x = y) as -> by done end.
  revert children h. induction es as [|[n t] es IH]; intros children h; [done|].
  destruct t as [es'|tg|[|]|]; cbn [collect_entries]; try apply IH.
  - destruct (collect env _ _ _ _ h) as [[h' nd] [|]]; [apply IH|done].
  - destruct (r_exists (r_child rt n)); cbn -[collect]; [destruct (env h _)|]; try apply IH; done.
  - destruct (r_exists (r_child rt n)); cbn -[collect]; [destruct (env h _)|]; try apply IH; done.
Qed.

Lemma collect_union t : ∀ paths rt node h, (∃ es, t = MDir es) →
  ∃ tr, collect env t paths rt node h = (h ++ tr, union t paths node, true).
Proof.
  induction t as [es IH| | |] using MTree_ind'; intros paths rt node h [es' E]; try discriminate E.
  clear E es'. destruct node as [children| | | |]; try (exists []; by rewrite app_nil_r).
  rewrite union_dir, collect_dir.
  enough (∃ tr, collect_entries paths rt es children h = (h ++ tr, foldl (add_entry paths) children es, true))
    as [tr ->] by by exists tr.
  revert children h. induction IH as [|[n t] es Ht _ IHes]; intros children h.
  { exists []. cbn. by rewrite app_nil_r. }
  cbn [snd] in Ht.
  assert (∀ t children h tr, ∃ tr', collect_entries paths rt es (or_insert n (leaf t (append paths n)) children) (h ++ tr)
    = (h ++ tr', foldl (add_entry paths) (or_insert n (leaf t (append paths n)) children) es, true)) as Hleaf.
  { intros t' ch h' tr. destruct (IHes (or_insert n (leaf t' (append paths n)) ch) (h' ++ tr)) as [tr' ->].
    eexists. by rewrite <- app_assoc. }
  cbn [collect_entries foldl add_entry]. destruct t as [es'|tg|[|]|].
  - edestruct Ht as [tr ->]; [by eexists|]. edestruct IHes as [tr' ->]. eexists. by rewrite <- app_assoc.
  - destruct (Hleaf (MLink tg) children h []) as [tr' E]. rewrite app_nil_r in E. by eexists.
  - destruct (Hleaf (MChar true) children h []) as [tr' E]. rewrite app_nil_r in E. by eexists.
  - destruct (r_exists (r_child rt n)); [rewrite env_ok; apply (Hleaf (MChar false))|].
    destruct (Hleaf (MChar false) children h []) as [tr' E]. rewrite app_nil_r in E. by eexists.
  - destruct (r_exists (r_child rt n)); [rewrite env_ok; apply (Hleaf MFile)|].
    destruct (Hleaf MFile children h []) as [tr' E]. rewrite app_nil_r in E. by eexists.
Qed.
End Collected.

(** *** The union, name by name *)

(** What a name holds after a module that has [t] there. *)
Definition merge (o : option FsNode) (t : MTree) (paths : ModulePaths) : FsNode :=
  match t with
  | MDir _ => union t paths (default new_dir o)
  | _ => default (leaf t paths) o
  end.

Fixpoint m_find (name : bytes) (es : list (bytes * MTree)) : option MTree :=
  match es with
  | [] => None
  | (n, t) :: es => if bool_decide (n = name) then Some t else m_find name es
  end.

Lemma m_find_None name es : name ∉ es.*1 → m_find name es = None.
Proof.
  induction es as [|[n t] es IH]; [done|]. cbn [fmap list_fmap m_find fst].
  rewrite not_elem_of_cons. intros [H1 H2]. rewrite bool_decide_false by done. auto.
Qed.

Lemma get_add_entry paths children n t k :
  get k (add_entry paths children (n, t)) =
  if bool_decide (n = k) then Some (merge (get k children) t (append paths k)) else get k children.
Proof.
  destruct t; cbn [add_entry merge]; rewrite ?get_put, !get_or_insert;
    repeat case_bool_decide; subst; done.
Qed.

Lemma get_entries paths es children k : NoDup es.*1 →
  get k (foldl (add_entry paths) children es) =
  match m_find k es with
  | Some t => Some (merge (get k children) t (append paths k))
  | None => get k children
  end.
Proof.
  revert children. induction es as [|[n t] es IH]; intros children; [done|].
  cbn [fmap list_fmap fst foldl m_find]. intros [Hn Hd]%NoDup_cons.
  rewrite IH by done. rewrite get_add_entry. case_bool_decide; [subst|done].
  by rewrite m_find_None.
Qed.

(** ** The first module with a name decides *)

Fixpoint walk (node : FsNode) (p : list bytes) : option FsNode :=
  match p with
  | [] => Some node
  | k :: p =>
      match node with
      | Directory children => match get k children with Some n => walk n p | None => None end
      | _ => None
      end
  end.

(** A node without what is below it. *)
Definition shape (n : FsNode) : FsNode :=
  match n with Directory _ => new_dir | n => n end.

Definition is_mdir (t : MTree) : bool := match t with MDir _ => true | _ => false end.
Definition m_entries (t : MTree) : list (bytes * MTree) := match t with MDir es => es | _ => [] end.

(** The modules that have a name, in their order. *)
Definition having (k : bytes) (mods : list (MTree * ModulePaths)) : list (MTree * ModulePaths) :=
  omap (λ m, (λ t, (t, append m.2 k)) <$> m_find k (m_entries m.1)) mods.

(** What the modules put at a path: the first one that has the next name decides; if
    it has a directory there, all the directories of that name are merged, otherwise
    it hides everything below. *)
Fixpoint provided (mods : list (MTree * ModulePaths)) (p : list bytes) : option FsNode :=
  match p with
  | [] => Some new_dir
  | k :: p =>
      match having k mods with
      | [] => None
      | (t, paths) :: _ =>
          if is_mdir t then provided (List.filter (λ m, is_mdir m.1) (having k mods)) p
          else match p with [] => Some (leaf t paths) | _ => None end
      end
  end.

(** Directory entries have distinct names. *)
Fixpoint wf_mtree (t : MTree) : Prop :=
  match t with
  | MDir es => NoDup es.*1 ∧ foldr (λ p P, wf_mtree p.2 ∧ P) True es
  | _ => True
  end.

Definition union_all (mods : list (MTree * ModulePaths)) (node : FsNode) : FsNode :=
  foldl (λ node m, union m.1 m.2 node) node mods.

Lemma m_find_wf k es t : foldr (λ p P, wf_mtree p.2 ∧ P) True es → m_find k es = Some t → wf_mtree t.
Proof.
  induction es as [|[n u] es IH]; cbn [foldr m_find snd]; [done|]. intros [Hu Hes].
  case_bool_decide; [by intros [= <-]|auto].
Qed.

Definition merges (o : option FsNode) (ms : list (MTree * ModulePaths)) : option FsNode :=
  foldl (λ o m, Some (merge o m.1 m.2)) o ms.

Abbreviation good m := (is_mdir m.1 = true ∧ wf_mtree m.1).

Lemma union_all_get mods : Forall (λ m, good m) mods → ∀ children,
  ∃ children', union_all mods (Directory children) = Directory children' ∧
    ∀ k, get k children' = merges (get k children) (having k mods).
Proof.
  induction 1 as [|[t pa] mods [Hd Hw] _ IH]; intros children; [by exists children|].
  destruct t as [es| | |]; try done. cbn in Hw. destruct Hw as [Hn Hw].
  unfold union_all. cbn [foldl fst snd]. rewrite union_dir.
  destruct (IH (foldl (add_entry pa) children es)) as (ch & E & Hget).
  exists ch. split; [exact E|]. intros k. rewrite Hget, get_entries by done.
  unfold having. cbn [omap list_omap fst snd m_entries]. by destruct (m_find k es).
Qed.


Definition is_dir (n : FsNode) : bool := match n with Directory _ => true | _ => false end.

Lemma merges_leaf n ms : is_dir n = false → merges (Some n) ms = Some n.
Proof.
  intros Hn. induction ms as [|[t pa] ms IH]; [done|]. unfold merges in *. cbn [foldl fst snd].
  replace (merge (Some n) t pa) with n; [exact IH|]. by destruct t, n.
Qed.

Lemma union_is_dir t pa n : is_dir n = true → is_dir (union t pa n) = true.
Proof. by destruct t, n. Qed.

Lemma merges_dir n ms : is_dir n = true →
  merges (Some n) ms = Some (union_all (List.filter (λ m, is_mdir m.1) ms) n).
Proof.
  revert n. induction ms as [|[t pa] ms IH]; intros n Hn; [done|].
  unfold merges in *. cbn [foldl fst snd List.filter]. rewrite IH.
  - by destruct t.
  - destruct t; cbn [merge default]; by rewrite ?union_is_dir.
Qed.

Lemma having_wf k mods : Forall (λ m, good m) mods → Forall (λ m, wf_mtree m.1) (having k mods).
Proof.
  induction 1 as [|[t pa] mods [Hd Hw] _ IH]; [constructor|]. unfold having.
  cbn [omap list_omap fst snd]. destruct t as [es| | |]; try done. cbn in Hw.
  destruct (m_find k es) eqn:E; cbn [fmap option_fmap option_map m_entries]; rewrite E; [|exact IH].
  constructor; [|exact IH]. cbn. eapply m_find_wf; [apply Hw|exact E].
Qed.

Lemma filter_good ms : Forall (λ m, wf_mtree m.1) ms →
  Forall (λ m, good m) (List.filter (λ m : MTree * ModulePaths, is_mdir m.1) ms).
Proof.
  induction 1 as [|[t pa] ms Hw _ IH]; [constructor|]. cbn [List.filter fst].
  destruct (is_mdir t) eqn:E; [|exact IH]. by constructor.
Qed.

Lemma leaf_shape t pa : is_mdir t = false → shape (leaf t pa) = leaf t pa ∧ is_dir (leaf t pa) = false.
Proof. by destruct t as [|?|[]|]. Qed.

Lemma walk_union mods p : Forall (λ m, good m) mods →
  shape <$> walk (union_all mods new_dir) p = provided mods p.
Proof.
  revert mods. induction p as [|k p IH]; intros mods Hg;
    destruct (union_all_get mods Hg []) as (ch & E & Hget);
    change (Directory []) with new_dir in E; rewrite E; [done|].
  cbn [walk provided]. rewrite Hget. cbn [get].
  pose proof (having_wf k mods Hg) as Hw. destruct (having k mods) as [|[t pa] ms]; [done|].
  inversion Hw as [|? ? Ht Hms]; subst. destruct (is_mdir t) eqn:Ed.
  - unfold merges. cbn [foldl fst snd]. fold (merges (Some (merge None t pa)) ms).
    destruct t as [es| | |]; try done. cbn [merge default].
    rewrite merges_dir by by apply union_is_dir.
    cbn [List.filter fst is_mdir]. rewrite <- IH; [done|].
    constructor; [done|]. by apply filter_good.
  - destruct (leaf_shape t pa Ed) as [Hs Hl].
    unfold merges. cbn [foldl fst snd]. fold (merges (Some (merge None t pa)) ms).
    replace (merge None t pa) with (leaf t pa) by by destruct t.
    rewrite merges_leaf by done. destruct p as [|k' p]; cbn [walk]; [by rewrite <- Hs at 2|].
    by destruct (leaf t pa).
Qed.

(** ** What a tmpfs directory shows *)

Inductive Item := IDir | IMount (src : bytes) | ILink (target : bytes).

(** What a call puts at a path of the worker directory. *)
Definition created (o : Op) : option (bytes * Item) :=
  match o with
  | Mkdirs p => Some (p, IDir)
  | BindMount src dest false => Some (dest, IMount src)
  | CreateSymlink p target => Some (p, ILink target)
  | _ => None
  end.

(** What the device has below a mirrored entry. *)
Fixpoint mirror (t : RTree) (real : bytes) (p : list bytes) : option Item :=
  match r_kind t, p with
  | RDir, [] => Some IDir
  | RLink target, [] => Some (ILink target)
  | RFile, [] | ROther, [] => Some (IMount real)
  | RDir, k :: p =>
      match r_find k (r_entries t) with
      | Some t => mirror t (append_path real k) p
      | None => None
      end
  | _, _ => None
  end.

(** What the tmpfs shows at a path: the node of the virtual tree when there is one,
    otherwise what the device has, unless the directory replaces it. *)
Fixpoint overlay (node : FsNode) (real : bytes) (rt : option RTree) (p : list bytes) : option Item :=
  match node, p with
  | Directory _, [] => Some IDir
  | File src, [] => Some (IMount src)
  | Symlink target, [] => Some (ILink target)
  | MagiskLink, [] => Some (ILink (magisk_link real))
  | Directory children, k :: p =>
      match get k (del REPLACE children), replace_dir children with
      | Some (Directory _), Some dir =>
          match p with [] => Some (IMount (append_path dir k)) | _ => None end
      | Some n, _ => overlay n (append_path real k) (r_child rt k) p
      | None, Some _ => None
      | None, None =>
          match r_child rt k with
          | Some t => mirror t (append_path real k) p
          | None => None
          end
      end
  | _, _ => None
  end.

Definition at_path (worker : bytes) (p : list bytes) : bytes := foldl append_path worker p.

Fixpoint nheight (n : FsNode) : nat :=
  match n with
  | Directory ch => foldr (λ p m, S (nheight p.2) `max` m)%nat O ch
  | _ => O
  end.
Fixpoint rheight (t : RTree) : nat :=
  match t with RNode _ es => foldr (λ p m, S (rheight p.2) `max` m)%nat O es end.
Definition oheight (rt : option RTree) : nat := match rt with Some t => rheight t | None => O end.

Fixpoint wf_node (n : FsNode) : Prop :=
  match n with
  | Directory ch => NoDup ch.*1 ∧ foldr (λ p P, wf_node p.2 ∧ P) True ch
  | _ => True
  end.
Fixpoint wf_rtree (t : RTree) : Prop :=
  match t with RNode _ es => NoDup es.*1 ∧ foldr (λ p P, wf_rtree p.2 ∧ P) True es end.
Definition wf_rt (rt : option RTree) : Prop := match rt with Some t => wf_rtree t | None => True end.

Lemma get_elem k n ch : NoDup ch.*1 → get k ch = Some n ↔ (k, n) ∈ ch.
Proof.
  induction ch as [|[j m] ch IH]; cbn [get fmap list_fmap fst]; intros Hd.
  { split; [done|]. by intros ?%not_elem_of_nil. }
  apply NoDup_cons in Hd as [Hj Hd]. rewrite elem_of_cons. case_bool_decide.
  - subst. split; [intros [= <-]; by left|]. intros [[= ->]|H]; [done|].
    destruct Hj. apply list_elem_of_fmap. by exists (k, n).
  - rewrite IH by done. naive_solver.
Qed.

Lemma r_find_elem k t es : NoDup es.*1 → r_find k es = Some t ↔ (k, t) ∈ es.
Proof.
  induction es as [|[j m] ch IH]; cbn [r_find fmap list_fmap fst]; intros Hd.
  { split; [done|]. by intros ?%not_elem_of_nil. }
  apply NoDup_cons in Hd as [Hj Hd]. rewrite elem_of_cons. case_bool_decide.
  - subst. split; [intros [= <-]; by left|]. intros [[= ->]|H]; [done|].
    destruct Hj. apply list_elem_of_fmap. by exists (k, t).
  - rewrite IH by done. naive_solver.
Qed.

Lemma elem_del k x ch : x ∈ del k ch ↔ x ∈ ch ∧ x.1 ≠ k.
Proof.
  unfold del. rewrite !list_elem_of_In, filter_In, negb_true_iff, bool_decide_eq_false. done.
Qed.

Lemma NoDup_del k ch : NoDup ch.*1 → NoDup (del k ch).*1.
Proof.
  induction ch as [|[j m] ch IH]; [done|]. cbn [fmap list_fmap fst]. intros [Hj Hd]%NoDup_cons.
  unfold del. cbn [List.filter fst]. fold (del k ch). destruct (negb _); [|by apply IH].
  cbn [fmap list_fmap fst]. constructor; [|by apply IH]. intros Hin. apply Hj.
  apply list_elem_of_fmap in Hin as (x & -> & Hx). apply elem_del in Hx as [Hx _].
  apply list_elem_of_fmap. eauto.
Qed.

Lemma elem_by_priority x ch : NoDup ch.*1 → x ∈ by_priority ch ↔ x ∈ ch.
Proof.
  intros Hd. unfold by_priority. rewrite elem_of_app, elem_del. destruct x as [k n]. cbn [fst].
  destruct (get priority ch) as [m|] eqn:E.
  - apply get_elem in E as Hm; [|done]. rewrite list_elem_of_singleton.
    destruct (decide (k = priority)) as [->|]; [|naive_solver].
    rewrite <- get_elem, E by done. naive_solver.
  - split; [intros [?%not_elem_of_nil|[]]; done|]. intros H. right. split; [done|]. intros ->.
    apply get_elem in H; [|done]. congruence.
Qed.

Lemma by_priority_In x ch : x ∈ by_priority ch → x ∈ ch.
Proof.
  unfold by_priority. intros [Hin|[Hin _]%elem_del]%elem_of_app; [|exact Hin].
  destruct (get priority _) eqn:Eg; [|by apply not_elem_of_nil in Hin].
  apply list_elem_of_singleton in Hin as ->. by apply get_Some_In.
Qed.

Lemma nheight_child k n ch : (k, n) ∈ ch → (nheight n < nheight (Directory ch))%nat.
Proof.
  cbn [nheight]. induction ch as [|[j m] ch IH]; [by intros ?%not_elem_of_nil|].
  cbn [foldr snd]. intros [[= -> ->]|H]%elem_of_cons; [lia|]. specialize (IH H). lia.
Qed.

Lemma rheight_child k t kd es : (k, t) ∈ es → (rheight t < rheight (RNode kd es))%nat.
Proof.
  cbn [rheight]. induction es as [|[j m] ch IH]; [by intros ?%not_elem_of_nil|].
  cbn [foldr snd]. intros [[= -> ->]|H]%elem_of_cons; [lia|]. specialize (IH H). lia.
Qed.

Lemma wf_node_child k n ch : wf_node (Directory ch) → (k, n) ∈ ch → wf_node n.
Proof.
  cbn [wf_node]. intros [_ H]. induction ch as [|[j m] ch IH]; [by intros ?%not_elem_of_nil|].
  cbn [foldr snd] in H. destruct H. intros [[= -> ->]|Hin]%elem_of_cons; auto.
Qed.

Lemma wf_rtree_child k t kd es : wf_rtree (RNode kd es) → (k, t) ∈ es → wf_rtree t.
Proof.
  cbn [wf_rtree]. intros [_ H]. induction es as [|[j m] ch IH]; [by intros ?%not_elem_of_nil|].
  cbn [foldr snd] in H. destruct H. intros [[= -> ->]|Hin]%elem_of_cons; auto.
Qed.

Lemma r_child_elem kd es k t : wf_rtree (RNode kd es) → r_child (Some (RNode kd es)) k = Some t ↔ (k, t) ∈ es.
Proof. intros [Hd _]. by apply r_find_elem. Qed.

Lemma r_child_wf rt k : wf_rt rt → wf_rt (r_child rt k) ∧ (oheight (r_child rt k) ≤ pred (oheight rt))%nat.
Proof.
  destruct rt as [[kd es]|]; [|by cbn]. intros Hw. destruct (r_child _ k) as [t|] eqn:E; [|cbn; lia].
  apply r_child_elem in E; [|done]. split; [exact (wf_rtree_child k t kd es Hw E)|].
  pose proof (rheight_child k t kd es E). cbn [oheight]. lia.
Qed.

Lemma wf_del k ch : wf_node (Directory ch) → wf_node (Directory (del k ch)).
Proof.
  intros [Hd Hw]. split; [by apply NoDup_del|]. clear Hd. induction ch as [|[j m] ch IH]; [done|].
  cbn [foldr snd] in Hw. destruct Hw as [Hm Hw]. unfold del. cbn [List.filter fst]. fold (del k ch).
  destruct (negb _); [|by apply IH]. cbn [foldr snd]. auto.
Qed.

(** The items a tmpfs at [worker] shows for a node. *)
Definition shows (node : FsNode) (real worker : bytes) (rt : option RTree) (x : bytes * Item) : Prop :=
  ∃ p i, overlay node real rt p = Some i ∧ x = (at_path worker p, i).

Definition mirrors (t : RTree) (real worker : bytes) (x : bytes * Item) : Prop :=
  ∃ p i, mirror t real p = Some i ∧ x = (at_path worker p, i).

Lemma overlay_mirror es real p :
  overlay new_dir real (Some (RNode RDir es)) p = mirror (RNode RDir es) real p.
Proof. by destruct p. Qed.

Lemma shows_leaf node real worker rt x : is_dir node = false →
  shows node real worker rt x ↔ ∃ i, overlay node real rt [] = Some i ∧ x = (worker, i).
Proof.
  intros Hn. unfold shows. split.
  - intros ([|k p] & i & Hi & ->); [by exists i|]. by destruct node.
  - intros (i & Hi & ->). by exists [], i.
Qed.

Section Overlay.
Context (env : Env Op) (env_ok : ∀ h o, env h o = true).

Lemma makes_mount src dest dir :
  makes created (mount_dummy env src dest dir) (λ x, x = (dest, IMount src)).
Proof.
  destruct dir; (eapply makes_iff; [apply makes_bind; [by apply makes_call|];
    apply makes_bind; apply makes_ignore; by apply makes_call|]); cbn; naive_solver.
Qed.

Lemma makes_clone real worker rt : makes created (clone_dir_attr env real worker rt) (λ _, False).
Proof.
  unfold clone_dir_attr.
  destruct (r_exists rt); [|destruct (Path.parent_dir worker)];
    (eapply makes_iff; [first [by apply makes_call|apply makes_ret]|]); naive_solver.
Qed.

(** The entries a directory with [.replace] gets. *)
Definition replaced real worker rt dir (e : bytes * FsNode) (x : bytes * Item) : Prop :=
  match e.2 with
  | Directory _ => x = (append_path worker e.1, IMount (append_path dir e.1))
  | n => shows n (append_path real e.1) (append_path worker e.1) (r_child rt e.1) x
  end.

Lemma shows_replaced ch real worker rt dir x : wf_node (Directory ch) → replace_dir ch = Some dir →
  shows (Directory ch) real worker rt x ↔
  x = (worker, IDir) ∨ ∃ e, e ∈ del REPLACE ch ∧ replaced real worker rt dir e x.
Proof.
  intros Hw E. apply (wf_del REPLACE) in Hw as [Hd _]. unfold shows at 1. split.
  - intros ([|k p] & i & Hi & ->); cbn [overlay] in Hi.
    { injection Hi as <-. by left. }
    rewrite E in Hi. destruct (get k (del REPLACE ch)) as [n|] eqn:Eg; [|done]. right. exists (k, n).
    apply get_elem in Eg; [|done]. split; [done|]. unfold replaced. cbn [fst snd].
    destruct n; try (by exists p, i). destruct p; [|done]. by injection Hi as <-.
  - intros [->|([k n] & Hin & Hx)]; [by exists [], IDir|]. apply get_elem in Hin; [|done].
    unfold replaced in Hx. cbn [fst snd] in Hx. destruct n as [ch'|src|tg| |];
      try (destruct Hx as (p & i & Hi & ->); exists (k :: p), i; cbn [overlay]; by rewrite Hin).
    subst. exists [k], (IMount (append_path dir k)). cbn [overlay]. by rewrite Hin, E.
Qed.

(** The entries the device has and the virtual tree does not. *)
Definition mirrored real worker ch (e : bytes * RTree) (x : bytes * Item) : Prop :=
  has e.1 (del REPLACE ch) = false ∧ mirrors e.2 (append_path real e.1) (append_path worker e.1) x.

Lemma shows_merged ch real worker rt x : wf_node (Directory ch) → wf_rt rt → replace_dir ch = None →
  shows (Directory ch) real worker rt x ↔
  x = (worker, IDir) ∨
  (∃ e, e ∈ match rt with Some t => r_entries t | None => [] end ∧ mirrored real worker ch e x) ∨
  ∃ e, e ∈ by_priority (del REPLACE ch) ∧
    shows e.2 (append_path real e.1) (append_path worker e.1) (r_child rt e.1) x.
Proof.
  intros Hw Hr E. apply (wf_del REPLACE) in Hw as [Hd _]. unfold shows at 1. split.
  - intros ([|k p] & i & Hi & ->); cbn [overlay] in Hi.
    { injection Hi as <-. by left. }
    right. destruct (get k (del REPLACE ch)) as [n|] eqn:Eg.
    + right. exists (k, n). split; [by apply elem_by_priority, get_elem|].
      exists p, i. rewrite E in Hi. by destruct n.
    + left. rewrite E in Hi. destruct (r_child rt k) as [t|] eqn:Er; [|done]. exists (k, t).
      destruct rt as [[kd es]|]; [|done]. apply r_child_elem in Er; [|done]. split; [done|].
      split; [cbn [fst]; unfold has; by rewrite Eg|]. by exists p, i.
  - intros [->|[([k t] & Hin & Hk & p & i & Hi & ->)|([k n] & Hin & p & i & Hi & ->)]];
      [by exists [], IDir| |]; exists (k :: p), i; cbn [overlay fst snd] in *.
    + unfold has in Hk. destruct (get k _); [done|]. rewrite E. destruct rt as [[kd es]|];
        [|by apply not_elem_of_nil in Hin]. apply (proj2 (r_child_elem kd es k t Hr)) in Hin. by rewrite Hin.
    + rewrite elem_by_priority, <- get_elem in Hin by done. rewrite Hin, E. by destruct n.
Qed.

(** The loops of a directory, when its children do what they should. *)
Definition children_show ch real worker rt (x : bytes * Item) : Prop :=
  match replace_dir ch with
  | Some dir => ∃ e, e ∈ del REPLACE ch ∧ replaced real worker rt dir e x
  | None =>
      (∃ e, e ∈ match rt with Some t => r_entries t | None => [] end ∧ mirrored real worker ch e x) ∨
      ∃ e, e ∈ by_priority (del REPLACE ch) ∧
        shows e.2 (append_path real e.1) (append_path worker e.1) (r_child rt e.1) x
  end.

Lemma shows_dir ch real worker rt x : wf_node (Directory ch) → wf_rt rt →
  shows (Directory ch) real worker rt x ↔ x = (worker, IDir) ∨ children_show ch real worker rt x.
Proof.
  intros Hw Hr. unfold children_show. destruct (replace_dir ch) eqn:E;
    [by apply shows_replaced|by apply shows_merged].
Qed.

(** The mirror of one entry of the device. *)
Lemma mirror_file_makes k es real worker : k = RFile ∨ k = ROther →
  makes created (mount_dummy env real worker false) (mirrors (RNode k es) real worker).
Proof.
  intros Hk. eapply makes_iff; [apply makes_mount|]. intros x. unfold mirrors.
  split; destruct Hk as [->| ->].
  1, 2: intros ->; by exists [], (IMount real).
  all: intros ([|k' p] & i & Hi & ->); [by injection Hi as <-|done].
Qed.

Lemma mirror_makes fuel t real worker :
  (∀ node rt, wf_node node → oheight rt = rheight t → rt = Some t → nheight node = 0%nat →
     makes created (commit_tmpfs env fuel node real worker rt) (shows node real worker rt)) →
  makes created
    match r_kind t with
    | RDir => commit_tmpfs env fuel new_dir real worker (Some t)
    | RLink target => commit_tmpfs env fuel (Symlink target) real worker (Some t)
    | _ => mount_dummy env real worker false
    end (mirrors t real worker).
Proof.
  intros H. destruct t as [[|tg| |] es]; cbn [r_kind].
  - eapply makes_iff; [apply H; [by split; [constructor|]|done..]|]. intros x. unfold shows, mirrors.
    by setoid_rewrite overlay_mirror.
  - eapply makes_iff; [by apply H|]. intros x. rewrite shows_leaf by done. unfold mirrors. split.
    + intros (i & Hi & ->). by exists [], i.
    + intros ([|k p] & i & Hi & ->); [by exists i|done].
  - apply mirror_file_makes. by left.
  - apply mirror_file_makes. by right.
Qed.

Lemma children_makes fuel ch real worker rt :
  (∀ k n, (k, n) ∈ del REPLACE ch → makes created
    (commit_tmpfs env fuel n (append_path real k) (append_path worker k) (r_child rt k))
    (shows n (append_path real k) (append_path worker k) (r_child rt k))) →
  (∀ k t, (k, t) ∈ match rt with Some t => r_entries t | None => [] end → makes created
    match r_kind t with
    | RDir => commit_tmpfs env fuel new_dir (append_path real k) (append_path worker k) (Some t)
    | RLink target => commit_tmpfs env fuel (Symlink target) (append_path real k) (append_path worker k) (Some t)
    | _ => mount_dummy env (append_path real k) (append_path worker k) false
    end (mirrors t (append_path real k) (append_path worker k))) →
  wf_node (Directory ch) → wf_rt rt →
  makes created (commit_tmpfs env (S fuel) (Directory ch) real worker rt)
    (shows (Directory ch) real worker rt).
Proof.
  intros Hch Hm Hw Hr. eapply makes_iff; [|intros x; symmetry; by apply shows_dir].
  apply (wf_del REPLACE) in Hw as [Hd _]. cbn [commit_tmpfs]. unfold children_show.
  eapply makes_iff.
  - apply makes_bind; [by apply makes_call|]. apply makes_bind; [apply makes_clone|].
    instantiate (1 := children_show ch real worker rt). unfold children_show.
    destruct (replace_dir ch) as [dir|].
    + apply makes_for_each. intros [k n] Hin. unfold replaced. cbn [fst snd].
      destruct n; try (by apply Hch). apply makes_mount.
    + apply makes_bind; apply makes_for_each.
      * intros [k t] Hin. unfold mirrored. cbn [fst snd]. destruct (has k _).
        -- eapply makes_iff; [apply makes_ret|]. naive_solver.
        -- eapply makes_iff; [by apply Hm|]. naive_solver.
      * intros [k n] Hin. rewrite elem_by_priority in Hin by done. by apply Hch.
  - intros x. unfold children_show. cbn. naive_solver.
Qed.

Lemma r_entry_wf rt k t : wf_rt rt →
  (k, t) ∈ match rt with Some t => r_entries t | None => [] end →
  wf_rtree t ∧ (rheight t < oheight rt)%nat.
Proof.
  destruct rt as [[kd es]|]; [|by intros _ ?%not_elem_of_nil]. cbn [r_entries]. intros Hw Hin.
  split; [exact (wf_rtree_child k t kd es Hw Hin)|]. exact (rheight_child k t kd es Hin).
Qed.

Lemma tmpfs_makes fuel : ∀ node real worker rt, wf_node node → wf_rt rt →
  (nheight node `max` oheight rt < fuel)%nat →
  makes created (commit_tmpfs env fuel node real worker rt) (shows node real worker rt).
Proof.
  induction fuel as [|fuel IH]; [lia|]. intros node real worker rt Hn Hr Hf.
  destruct node as [ch|src|tg| |]; cbn [commit_tmpfs].
  - assert (∀ k n, (k, n) ∈ del REPLACE ch → makes created
        (commit_tmpfs env fuel n (append_path real k) (append_path worker k) (r_child rt k))
        (shows n (append_path real k) (append_path worker k) (r_child rt k))) as Hch.
    { intros k n [Hin _]%elem_del. destruct (r_child_wf rt k Hr) as [Hr' Ho].
      pose proof (nheight_child k n ch Hin). apply IH; [exact (wf_node_child k n ch Hn Hin)|done|lia]. }
    apply children_makes; [exact Hch| |done|done].
    intros k t Hin. destruct (r_entry_wf rt k t Hr Hin) as [Ht Ho].
    apply mirror_makes. intros node rt' Hn' E -> H0. apply IH; [done|done|]. lia.
  - eapply makes_iff; [apply makes_mount|]. intros x. rewrite shows_leaf by done. cbn. naive_solver.
  - eapply makes_iff; [apply makes_bind; [by apply makes_call|]|].
    + instantiate (1 := λ _, False). destruct (r_exists rt); [|apply makes_ret].
      eapply makes_iff; [by apply makes_call|]. naive_solver.
    + intros x. rewrite shows_leaf by done. cbn. naive_solver.
  - eapply makes_iff; [by apply makes_call|]. intros x. rewrite shows_leaf by done. cbn. naive_solver.
  - eapply makes_iff; [apply makes_ret|]. intros x. rewrite shows_leaf by done. cbn. naive_solver.
Qed.
End Overlay.

(** ** Where mounts go *)

(** The device node at a path. *)
Definition r_walk (rt : option RTree) (p : list bytes) : option RTree := foldl r_child rt p.

(** A bind mount goes to the worker directory, or to something the device has that
    is not a symlink. *)
Definition mounts_ok (real worker : bytes) (rt : option RTree) (o : Op) : Prop :=
  match o with
  | BindMount _ d _ =>
      (∃ p, d = at_path worker p) ∨
      (∃ p t, d = at_path real p ∧ r_walk rt p = Some t ∧ is_symlink t = false)
  | _ => True
  end.

Definition in_worker (worker : bytes) (o : Op) : Prop :=
  match o with BindMount _ d _ => ∃ p, d = at_path worker p | _ => True end.

Section Safety.
Context (env : Env Op).

Lemma in_worker_child worker k o : in_worker (append_path worker k) o → in_worker worker o.
Proof. destruct o; cbn; try done. intros [p ->]. by exists (k :: p). Qed.

Lemma stays_mount src worker dir : stays (in_worker worker) (mount_dummy env src worker dir).
Proof.
  apply stays_bind; [destruct dir; by apply stays_call|]. intros _.
  apply stays_bind; [|intros _]; apply stays_ignore, stays_call; [by exists []|done].
Qed.

Lemma stays_mount_child src worker k dir :
  stays (in_worker worker) (mount_dummy env src (append_path worker k) dir).
Proof. eapply stays_impl; [apply in_worker_child|apply stays_mount]. Qed.

Lemma tmpfs_stays fuel : ∀ node real worker rt,
  stays (in_worker worker) (commit_tmpfs env fuel node real worker rt).
Proof.
  induction fuel as [|fuel IH]; intros node real worker rt; [apply stays_lift|].
  assert (∀ node real rt k, stays (in_worker worker)
    (commit_tmpfs env fuel node real (append_path worker k) rt)) as IH'.
  { intros. eapply stays_impl; [apply in_worker_child|apply IH]. }
  destruct node as [ch|src|tg| |]; cbn [commit_tmpfs].
  - apply stays_bind; [by apply stays_call|intros _]. apply stays_bind; [|intros _].
    { unfold clone_dir_attr. destruct (r_exists rt); [by apply stays_call|].
      destruct (Path.parent_dir worker); [by apply stays_call|apply stays_ret]. }
    destruct (replace_dir ch) as [dir|].
    + apply stays_for_each. intros [k []] _; (apply IH' || apply stays_mount_child).
    + apply stays_bind; [|intros _]; apply stays_for_each.
      * intros [k t] _. destruct (has k _); [apply stays_ret|].
        destruct (r_kind t); (apply IH' || apply stays_mount_child).
      * intros [k n] _. apply IH'.
  - apply stays_mount.
  - apply stays_bind; [by apply stays_call|intros _].
    destruct (r_exists rt); [by apply stays_call|apply stays_ret].
  - by apply stays_call.
  - apply stays_ret.
Qed.

Lemma mounts_child real worker rt k o :
  mounts_ok (append_path real k) (append_path worker k) (r_child rt k) o → mounts_ok real worker rt o.
Proof.
  destruct o; cbn; try done. intros [[p ->]|(p & t & -> & Hw & Hs)]; [by left; exists (k :: p)|].
  right. by exists (k :: p), t.
Qed.

(** A child that is committed without a tmpfs stands on a device node. *)
Lemma kept_on_device root rt ch k n :
  existsb (λ p, (keep root rt p).2) ch = false → (k, n) ∈ List.filter (λ p, (keep root rt p).1) ch →
  ∃ t, r_child rt k = Some t ∧ is_symlink t = false.
Proof.
  intros He Hin. rewrite list_elem_of_In, filter_In in Hin. destruct Hin as [Hin Hk].
  assert ((keep root rt (k, n)).2 = false) as H2.
  { destruct ((keep root rt (k, n)).2) eqn:E; [|done]. rewrite <- He. symmetry.
    apply existsb_exists. by exists (k, n). }
  unfold keep in *. cbn [fst snd] in *. case_bool_decide; [by destruct root|].
  destruct (parent_should_be_tmpfs n (r_child rt k)) eqn:E; [by destruct root|].
  unfold parent_should_be_tmpfs in E. destruct n, (r_child rt k); try done; eauto.
Qed.

Lemma commit_stays fuel : ∀ node real worker rt root,
  (∃ t, rt = Some t ∧ is_symlink t = false) →
  stays (mounts_ok real worker rt) (commit env fuel node real worker rt root).
Proof.
  induction fuel as [|fuel IH]; intros node real worker rt root (t & -> & Ht); [apply stays_lift|].
  assert (∀ s r, mounts_ok real worker (Some t) (BindMount s real r)) as Hreal.
  { intros. right. by exists [], t. }
  destruct node as [ch|src|tg| |]; cbn [commit]; try apply stays_ret.
  - destruct (existsb _ ch) eqn:He.
    + apply stays_bind; [|intros _].
      * eapply stays_impl; [|apply tmpfs_stays]. intros []; cbn; try done. by left.
      * apply stays_bind; [|intros _]; apply stays_ignore, stays_call; [apply Hreal|done].
    + apply stays_for_each. intros [k n] Hin. eapply stays_impl; [apply mounts_child|].
      apply IH. eapply kept_on_device; [exact He|]. by apply by_priority_In in Hin.
  - apply stays_bind; [|intros _]; apply stays_ignore, stays_call; [apply Hreal|done].
Qed.

(** A partition root never asks for a tmpfs. *)
Lemma root_no_tmpfs rt ch : existsb (λ p, (keep true rt p).2) ch = false.
Proof.
  induction ch as [|p ch IH]; [done|]. cbn [existsb]. rewrite IH. unfold keep.
  case_bool_decide; [done|]. by destruct (parent_should_be_tmpfs _ _).
Qed.

(** Strictly below the root of a partition. *)
Definition mounts_below (real worker : bytes) (rt : option RTree) (o : Op) : Prop :=
  match o with
  | BindMount _ d _ =>
      (∃ p, d = at_path worker p) ∨
      (∃ k p t, d = at_path real (k :: p) ∧ r_walk rt (k :: p) = Some t ∧ is_symlink t = false)
  | _ => True
  end.

Lemma commit_root_stays fuel ch real worker rt :
  stays (mounts_below real worker rt) (commit env fuel (Directory ch) real worker rt true).
Proof.
  destruct fuel as [|fuel]; [apply stays_lift|]. cbn [commit]. rewrite root_no_tmpfs.
  apply stays_for_each. intros [k n] Hin. eapply stays_impl; [|apply commit_stays].
  - intros []; cbn; try done. intros [[p ->]|(p & t & -> & Hw & Hs)]; [left; by exists (k :: p)|].
    right. by exists k, p, t.
  - eapply kept_on_device; [apply root_no_tmpfs|]. by apply by_priority_In in Hin.
Qed.
End Safety.

(** ** Properties *)

Lemma stays_trace {Op'} (Q : Op' → Prop) (m : Io Op' unit) o : stays Q m → o ∈ trace m → Q o.
Proof.
  intros Hm Hin. destruct (Hm []) as (tr & E & Ht). unfold trace in Hin. rewrite E in Hin.
  by eapply Forall_forall in Ht.
Qed.

(** [commit] on the root of a partition, whatever calls fail and however deep it
    goes: every bind mount goes to the worker directory, or to a path strictly below
    the partition where the device has something that is not a symlink; the
    partition itself is never mounted over. *)
Theorem commit_mounts_safe env fuel ch real worker rt s d rec :
  BindMount s d rec ∈ trace (commit env fuel (Directory ch) real worker rt true) →
  (∃ p, d = at_path worker p) ∨
  (∃ k p t, d = at_path real (k :: p) ∧ r_walk rt (k :: p) = Some t ∧ is_symlink t = false).
Proof. intros Hin. exact (stays_trace _ _ _ (commit_root_stays env fuel ch real worker rt) Hin). Qed.

(** A device with [bin] (a file, a symlink) and [etc], and a tree that adds a file to
    [bin] and replaces [etc/hosts]. *)
Definition sample_rt : RTree :=
  RNode RDir
    [(bs "bin", RNode RDir [(bs "sh", RNode ROther []); (bs "ls", RNode (RLink (bs "toybox")) [])]);
     (bs "etc", RNode RDir [(bs "hosts", RNode ROther [])])].
Definition sample_tree : FsNodeMap :=
  [(bs "bin", Directory [(bs "su", MagiskLink); (bs "tool", File (bs "/m/a/system/bin/tool"))]);
   (bs "etc", Directory [(bs "hosts", File (bs "/m/a/system/etc/hosts"))])].
Definition all_ok : Env Op := λ _ _, true.

Lemma commit_mounts_safe_witness :
  BindMount (bs "/w/system/bin") (bs "/system/bin") true ∈
    trace (commit all_ok 3 (Directory sample_tree) (bs "/system") (bs "/w/system") (Some sample_rt) true) ∧
  ((∃ p, bs "/system/bin" = at_path (bs "/w/system") p) ∨
   (∃ k p t, bs "/system/bin" = at_path (bs "/system") (k :: p) ∧
      r_walk (Some sample_rt) (k :: p) = Some t ∧ is_symlink t = false)).
Proof.
  split; [apply list_elem_of_In; vm_compute; tauto|].
  eapply (commit_mounts_safe all_ok 3 sample_tree (bs "/system") (bs "/w/system") (Some sample_rt)
    (bs "/w/system/bin") _ true).
  apply list_elem_of_In. vm_compute. tauto.
Defined.

(** C1: [commit_tmpfs] ends, with the larger of the two heights as fuel, and when the
    calls succeed the worker directory shows exactly the overlay: at each path the
    node of the virtual tree when it has one, otherwise the mirrored entry of the
    device, and nothing of the device where [.replace] stands. *)
Theorem commit_tmpfs_overlay env fuel node real worker rt :
  (∀ h o, env h o = true) → wf_node node → wf_rt rt → (nheight node `max` oheight rt < fuel)%nat →
  outcome (commit_tmpfs env fuel node real worker rt) = Ok tt ∧
  ∀ d i, (∃ o, o ∈ trace (commit_tmpfs env fuel node real worker rt) ∧ created o = Some (d, i)) ↔
         ∃ p, d = at_path worker p ∧ overlay node real rt p = Some i.
Proof.
  intros He Hn Hr Hf. destruct (tmpfs_makes env He fuel node real worker rt Hn Hr Hf []) as (tr & E & H).
  unfold outcome, trace. rewrite E. split; [done|]. intros d i. specialize (H (d, i)).
  unfold views in H. cbn [app fst]. rewrite H. unfold shows. naive_solver.
Qed.

Lemma commit_tmpfs_overlay_witness :
  overlay (Directory sample_tree) (bs "/system") (Some sample_rt) [bs "bin"; bs "ls"] = Some (ILink (bs "toybox")) ∧
  overlay (Directory sample_tree) (bs "/system") (Some sample_rt) [bs "bin"; bs "su"] = Some (ILink (bs "./magisk")) ∧
  ∃ o, o ∈ trace (commit_tmpfs all_ok 3 (Directory sample_tree) (bs "/system") (bs "/w") (Some sample_rt)) ∧
    created o = Some (bs "/w/bin/ls", ILink (bs "toybox")).
Proof.
  split; [reflexivity|]. split; [reflexivity|].
  apply (proj2 (commit_tmpfs_overlay all_ok 3 (Directory sample_tree) (bs "/system") (bs "/w")
    (Some sample_rt) (λ _ _, eq_refl)
    ltac:(repeat split; try by_compute) ltac:(repeat split; try by_compute)
    ltac:(vm_compute; lia))).
  by exists [bs "bin"; bs "ls"].
Defined.
