(* ===== verification/ModuleApply.v ===== *)
(** ModuleApply: from the list of active modules to mounts,
    [native/src/core/module.rs] ([inject_magisk_bins], [inject_zygisk_bins],
    [MagiskD::apply_modules]).

    What the code asks of the device is a record ([Device]); the files of a module
    are a record per name ([ModuleFs]).  The trace of calls is that of
    [ModuleTree]. *)

From S2P Require Import Prelude Cstr Io ModuleTree.

Definition MODULEROOT : bytes := bs "/data/adb/modules".
Definition MODULEMNT : bytes := bs ".magisk/modules".
Definition WORKERDIR : bytes := bs ".magisk/worker".

Definition MAGISK_BIN_INJECT_PARTITIONS : list bytes :=
  [bs "/system/"; bs "/vendor/"; bs "/product/"; bs "/system_ext/"].
Definition SECONDARY_READ_ONLY_PARTITIONS : list bytes :=
  [bs "vendor"; bs "product"; bs "system_ext"].

(** What is asked of the device: the tmpfs path, [PATH], existence and mode of a
    path, the tree a directory opens to and whether a walk over it meets an error,
    the root directory, and the pointer width. *)
Record Device := mkDevice {
  magisk_tmp : bytes;
  path_env : bytes;
  exists_ : bytes → bool;
  st_mode : bytes → option Z;
  open_dir : bytes → option RTree;
  walk_fails : bytes → bool;
  rootdir : RTree;
  is_64 : bool
}.

Section Apply.
Context (dev : Device).

(** ** Injecting *)

Definition bins : list (bytes * FsNode) :=
  [(bs "magisk", File (append_path (magisk_tmp dev) (bs "magisk")));
   (bs "magiskpolicy", File (append_path (magisk_tmp dev) (bs "magiskpolicy")));
   (bs "su", MagiskLink);
   (bs "resetprop", MagiskLink);
   (bs "supolicy", MagiskLink)].

Definition inject (children : FsNodeMap) : FsNodeMap :=
  foldl (λ m p, put p.1 p.2 m) children bins.

Definition strip_system_prefix (orig_item : bytes) : bytes :=
  match strip_prefix (bs "/system/") orig_item with
  | Some rest => bs "/" ++ rest
  | None => orig_item
  end.

(** The regular files [pre_order_walk] visits. *)
Fixpoint count_files (t : RTree) : Z :=
  match t with
  | RNode _ es =>
      foldr (λ p n, match r_kind p.2 with
                    | RFile => 1 + n
                    | RDir => count_files p.2 + n
                    | _ => n
                    end) 0 es
  end.

(** The directories of [PATH] that can take the binaries, with their sizes. *)
Fixpoint candidates (is_emulator : bool) (items : list bytes) : list (bytes * Z) :=
  match items with
  | [] => []
  | orig_item :: items =>
      if negb (existsb (λ p, starts_with p orig_item) MAGISK_BIN_INJECT_PARTITIONS)
      then candidates is_emulator items
      else if starts_with (bs "/system/apex/") orig_item then candidates is_emulator items
      else if is_emulator && starts_with (bs "/system/xbin") orig_item
      then candidates is_emulator items
      else if exists_ dev (orig_item ++ bs "/su") then [(strip_system_prefix orig_item, 0)]
      else
        match st_mode dev orig_item, open_dir dev orig_item with
        | Some mode, Some t =>
            if negb (Z.land mode 1 =? 0) && negb (walk_fails dev orig_item)
            then (strip_system_prefix orig_item, count_files t) :: candidates is_emulator items
            else candidates is_emulator items
        | _, _ => candidates is_emulator items
        end
  end.

(** [sort_by_key] on the count, stable. *)
Fixpoint insert_by_count (c : bytes * Z) (l : list (bytes * Z)) : list (bytes * Z) :=
  match l with
  | [] => [c]
  | d :: l' => if c.2 <=? d.2 then c :: l else d :: insert_by_count c l'
  end.
Definition sort_by_count (l : list (bytes * Z)) : list (bytes * Z) := foldr insert_by_count [] l.

(** The [Normal] components of a path. *)
Definition components (path : bytes) : list bytes :=
  List.filter (λ c, nonempty c && negb (bool_decide (c = bs "."))
                    && negb (bool_decide (c = bs ".."))) (split_on Byte.x2f path).

(** Down a path, making directories, and [inject] there; [false] when something on
    the way is not a directory. *)
Fixpoint inject_at (dirs : list bytes) (children : FsNodeMap) : FsNodeMap * bool :=
  match dirs with
  | [] => (inject children, true)
  | dir :: dirs =>
      let children := or_insert dir new_dir children in
      match get dir children with
      | Some (Directory ch) =>
          let '(ch, ok) := inject_at dirs ch in (put dir (Directory ch) children, ok)
      | _ => (children, false)
      end
  end.

Fixpoint path_loop (cands : list (list bytes)) (children : FsNodeMap) : FsNodeMap :=
  match cands with
  | [] => (inject_at [bs "bin"] children).1
  | c :: cands =>
      let '(children, ok) := inject_at c children in
      if ok then children else path_loop cands children
  end.

Definition inject_magisk_bins (system : FsNode) (is_emulator : bool) : FsNode :=
  match system with
  | Directory children =>
      Directory (path_loop
        (map (λ c, components c.1)
          (sort_by_count (candidates is_emulator (split_on Byte.x3a (path_env dev))))) children)
  | n => n
  end.

(** The library [name] under [lib], when [src] is given. *)
Definition inject_lib (lib name : bytes) (src : option bytes) (children : FsNodeMap) : FsNodeMap :=
  let children := or_insert lib new_dir children in
  match get lib children, src with
  | Some (Directory ch), Some src => put lib (Directory (put name (File src) ch)) children
  | _, _ => children
  end.

Definition inject_zygisk_bins (name : bytes) (system : FsNode) : FsNode :=
  match system with
  | Directory children =>
      let children :=
        if negb (is_64 dev) || exists_ dev (bs "/system/bin/linker") then
          let bin_path := append_path (magisk_tmp dev) (if is_64 dev then bs "magisk32" else bs "magisk") in
          inject_lib (bs "lib") name (if exists_ dev bin_path then Some bin_path else None) children
        else children in
      let children :=
        if is_64 dev && exists_ dev (bs "/system/bin/linker64") then
          inject_lib (bs "lib64") name (Some (append_path (magisk_tmp dev) (bs "magisk"))) children
        else children in
      Directory children
  | n => n
  end.

(** ** Applying *)

(** What a module holds. *)
Record ModuleFs := mkModuleFs { has_prop : bool; skip_mount : bool; sys : option MTree }.

Context (env : Env Op) (files : bytes → ModuleFs).

(** [ModulePaths::new] and [set_module]. *)
Definition paths_new : ModulePaths :=
  mkPaths (bs "/") MODULEROOT (append_path (magisk_tmp dev) MODULEMNT).
Definition set_module (p : ModulePaths) (name : bytes) : ModulePaths :=
  mkPaths (real p) (append_path (module p) name) (append_path (module_mnt p) name).

(** Step 1 for one module. *)
Definition load_module (s : list Op * FsNode) (name : bytes) : list Op * FsNode :=
  let '(h, system) := s in
  let paths := set_module paths_new name in
  let fs := files name in
  let h := if has_prop fs then h ++ [LoadPropFile (module (append paths (bs "system.prop")))] else h in
  if skip_mount fs then (h, system)
  else
    match sys fs with
    | Some t =>
        let '(h, system, _) :=
          collect env t (append paths (bs "system")) (r_child (Some (rootdir dev)) (bs "system"))
            system h in
        (h, system)
    | None => (h, system)
    end.

Definition load_modules (module_list : list bytes) (h : list Op) : list Op * FsNode :=
  foldl load_module (h, new_dir) module_list.

(** Step 3: the trees of the partitions, in the order of their names. *)
Definition extract_root (s : FsNodeMap * FsNodeMap) (name : bytes) : FsNodeMap * FsNodeMap :=
  let '(children, roots) := s in
  match r_child (Some (rootdir dev)) name with
  | Some (RNode RDir _) =>
      match get name children with
      | Some root => (del name children, put name root roots)
      | None => s
      end
  | _ => s
  end.

Definition extract_roots (system : FsNode) : FsNodeMap :=
  match system with
  | Directory children =>
      let '(children, roots) := foldl extract_root (children, []) SECONDARY_READ_ONLY_PARTITIONS in
      put (bs "system") (Directory children) roots
  | n => [(bs "system", n)]
  end.

(** Step 4 for one tree; an error is logged. *)
Definition commit_root (p : bytes * FsNode) : Io Op unit :=
  let '(dir, root) := p in
  let rt := r_child (Some (rootdir dev)) dir in
  ignore (commit env (S (nheight root `max` oheight rt)) root (append_path (bs "/") dir)
            (append_path (append_path (magisk_tmp dev) WORKERDIR) dir) rt true).

(** [zygisk] is the library name when zygisk is enabled. *)
Definition apply_modules (is_emulator : bool) (zygisk : option bytes) (module_list : list bytes) :
    Io Op unit := λ h,
  let '(h, system) := load_modules module_list h in
  let system :=
    if negb (bool_decide (magisk_tmp dev = bs "/sbin"))
       || forallb (λ s, negb (bool_decide (s = bs "/sbin"))) (split_on Byte.x3a (path_env dev))
    then inject_magisk_bins system is_emulator else system in
  let '(h, system) :=
    match zygisk with
    | Some lib_name => (h ++ [ZygiskSetProp], inject_zygisk_bins lib_name system)
    | None => (h, system)
    end in
  for_each commit_root (extract_roots system) h.
End Apply.

(** ** Loading *)

(** The trees that are loaded. *)
Definition active (dev : Device) (files : bytes → ModuleFs) (module_list : list bytes) :
    list (MTree * ModulePaths) :=
  omap (λ name,
    match files name with
    | mkModuleFs _ false (Some (MDir es)) =>
        Some (MDir es, append (set_module (paths_new dev) name) (bs "system"))
    | _ => None
    end) module_list.

Lemma load_modules_union dev env files module_list : (∀ h o, env h o = true) → ∀ h node,
  is_dir node = true →
  (foldl (load_module dev env files) (h, node) module_list).2
  = union_all (active dev files module_list) node.
Proof.
  intros He. induction module_list as [|name names IH]; intros h node Hd; [done|].
  cbn [foldl]. destruct (load_module dev env files (h, node) name) as [h' node'] eqn:E.
  assert (is_dir node' = true ∧ node' = union_all (active dev files [name]) node) as [Hd' En].
  { unfold load_module in E. unfold active. cbn [omap list_omap].
    destruct (files name) as [hp sk [t|]]; cbn [has_prop skip_mount sys] in E;
      destruct sk; try (injection E as <- <-; by cbn).
    destruct t as [es| | |].
    - set (h0 := if hp then _ else h) in E.
      edestruct (collect_union env He (MDir es)) as [tr Et]; [by eexists|].
      rewrite Et in E.
      assert (node' = union (MDir es) (append (set_module (paths_new dev) name) (bs "system")) node)
        as -> by congruence. split; [by apply union_is_dir|done].
    - destruct node; [|done..]. injection E as <- <-. by cbn.
    - destruct node; [|done..]. injection E as <- <-. by cbn.
    - destruct node; [|done..]. injection E as <- <-. by cbn. }
  rewrite IH by done. rewrite En. unfold active. cbn [omap list_omap].
  destruct (files name) as [hp [] [[]|]]; done.
Qed.

Lemma active_dirs dev files module_list :
  Forall (λ m : MTree * ModulePaths, is_mdir m.1 = true) (active dev files module_list).
Proof.
  unfold active. induction module_list as [|n l IH]; [constructor|]. cbn [omap list_omap].
  destruct (files n) as [? [] [[]|]]; try exact IH. by constructor.
Qed.

(** C2: loading the modules, when the calls succeed: at every path the virtual tree
    has what the first module with that path has, directories of the same name are
    merged, and a file, symlink or whiteout of an earlier module hides everything
    later modules have there and below.  Modules with [skip_mount] take no part. *)
Theorem modules_first_wins dev env files module_list h p :
  (∀ h o, env h o = true) →
  Forall (λ m, wf_mtree m.1) (active dev files module_list) →
  shape <$> walk (load_modules dev env files module_list h).2 p
  = provided (active dev files module_list) p.
Proof.
  intros He Hw. unfold load_modules. rewrite load_modules_union by done. apply walk_union.
  apply Forall_and. split; [|exact Hw]. apply active_dirs.
Qed.

Definition sample_device : Device :=
  mkDevice (bs "/dev/x") (bs "/system/xbin:/system/bin:/sbin") (λ _, false) (λ _, Some 493)
    (λ p, if bool_decide (p = bs "/system/bin") then r_child (Some sample_rt) (bs "bin") else None)
    (λ _, false)
    (RNode RDir [(bs "system", sample_rt); (bs "vendor", RNode RDir [(bs "lib", RNode RDir [])])])
    true.
Definition sample_files (name : bytes) : ModuleFs :=
  if bool_decide (name = bs "a")
  then mkModuleFs true false
         (Some (MDir [(bs "etc", MDir [(bs "hosts", MFile)]); (bs "app", MChar true);
                      (bs "vendor", MDir [(bs "lib", MDir [(bs "x.so", MFile)])])]))
  else if bool_decide (name = bs "b")
  then mkModuleFs false false
         (Some (MDir [(bs "etc", MDir [(bs "hosts", MFile); (bs "conf", MFile)]);
                      (bs "app", MDir [(bs "y.apk", MFile)])]))
  else mkModuleFs false true (Some MFile).

Lemma modules_first_wins_witness :
  Forall (λ m, wf_mtree m.1) (active sample_device sample_files [bs "a"; bs "c"; bs "b"]) ∧
  shape <$> walk (load_modules sample_device all_ok sample_files [bs "a"; bs "c"; bs "b"] []).2
    [bs "etc"; bs "conf"] = Some (File (bs "/dev/x/.magisk/modules/b/system/etc/conf")) ∧
  shape <$> walk (load_modules sample_device all_ok sample_files [bs "a"; bs "c"; bs "b"] []).2
    [bs "app"; bs "y.apk"] = None.
Proof.
  assert (Forall (λ m, wf_mtree m.1) (active sample_device sample_files [bs "a"; bs "c"; bs "b"])) as H.
  { repeat constructor; try by_compute. }
  split; [exact H|]. split.
  - rewrite (modules_first_wins sample_device all_ok sample_files [bs "a"; bs "c"; bs "b"] []
      [bs "etc"; bs "conf"] (λ _ _, eq_refl) H). reflexivity.
  - rewrite (modules_first_wins sample_device all_ok sample_files [bs "a"; bs "c"; bs "b"] []
      [bs "app"; bs "y.apk"] (λ _ _, eq_refl) H). reflexivity.
Defined.

(** ** Where the binaries go *)

Definition look (ch : FsNodeMap) (q : list bytes) : option FsNode := shape <$> walk (Directory ch) q.

Lemma look_cons ch k q : look ch (k :: q) =
  match get k ch with
  | Some (Directory sub) => look sub q
  | Some n => match q with [] => Some n | _ => None end
  | None => None
  end.
Proof. unfold look. cbn [walk]. destruct (get k ch) as [[]|]; by destruct q. Qed.

Section Inject.
Context (dev : Device).

Lemma get_inject_other k ch : k ∉ (bins dev).*1 → get k (inject dev ch) = get k ch.
Proof.
  intros Hk. unfold inject. cbn [foldl bins fst snd]. cbn [bins fmap list_fmap fst] in Hk.
  repeat (apply not_elem_of_cons in Hk as [? Hk]). rewrite !get_put, !bool_decide_false; congruence.
Qed.

Lemma get_inject_bin name n ch : (name, n) ∈ bins dev → get name (inject dev ch) = Some n.
Proof.
  unfold inject, bins. cbn [foldl fst snd]. rewrite !elem_of_cons, !get_put.
  intros [[= -> ->]|[[= -> ->]|[[= -> ->]|[[= -> ->]|[[= -> ->]|[]%not_elem_of_nil]]]]];
    reflexivity.
Qed.

Lemma inject_at_empty ds : (inject_at dev ds []).2 = true.
Proof.
  induction ds as [|d ds IH]; [done|]. cbn [inject_at]. rewrite get_or_insert, bool_decide_true by done.
  cbn [get default id]. unfold new_dir. destruct (inject_at dev ds []) as [ch ok]. done.
Qed.

(** A path that cannot be entered leaves the tree as it was. *)
Lemma inject_at_false ds ch ch' : inject_at dev ds ch = (ch', false) → ∀ q, look ch' q = look ch q.
Proof.
  revert ch ch'. induction ds as [|d ds IH]; intros ch ch'; [done|]. cbn [inject_at].
  rewrite get_or_insert, bool_decide_true by done. destruct (get d ch) as [n|] eqn:E; cbn [default id].
  - destruct n as [sub| | | |].
    { destruct (inject_at dev ds sub) as [sub' ok] eqn:Es. cbv beta iota. intros E' [|k q]; [done|]. injection E' as <- ->.
      rewrite !look_cons, get_put, get_or_insert. case_bool_decide; [|done]. subst k.
      rewrite E. by apply IH. }
    all: intros E' [|k q]; [done|]; injection E' as <-; rewrite !look_cons, get_or_insert;
      case_bool_decide; [subst k; by rewrite E|done].
  - unfold new_dir. pose proof (inject_at_empty ds) as Hs.
    destruct (inject_at dev ds []) as [sub' ok]. cbn in Hs. subst. done.
Qed.

(** What a path that was entered holds, and what it kept. *)
Lemma inject_at_true ds ch ch' : inject_at dev ds ch = (ch', true) →
  (∀ name n, (name, n) ∈ bins dev → look ch' (ds ++ [name]) = Some n) ∧
  ∀ q n, look ch q = Some n → is_dir n = false →
    (∃ name, name ∈ (bins dev).*1 ∧ (ds ++ [name]) `prefix_of` q) ∨ look ch' q = Some n.
Proof.
  revert ch ch'. induction ds as [|d ds IH]; intros ch ch'; cbn [inject_at].
  - intros [= <-]. split.
    + intros name n Hin. cbn [app]. rewrite look_cons, (get_inject_bin name n) by done.
      unfold bins in Hin. rewrite !elem_of_cons in Hin.
      by destruct Hin as [[= -> ->]|[[= -> ->]|[[= -> ->]|[[= -> ->]|[[= -> ->]|[]%not_elem_of_nil]]]]].
    + intros [|k q] n; [by intros [= <-]|]. intros Hq Hn.
      destruct (decide (k ∈ (bins dev).*1)) as [Hk|Hk].
      * left. exists k. split; [done|]. by exists q.
      * right. rewrite look_cons, get_inject_other by done. by rewrite look_cons in Hq.
  - rewrite get_or_insert, bool_decide_true by done.
    destruct (default new_dir (get d ch)) as [sub| | | |] eqn:Ed; try done.
    destruct (inject_at dev ds sub) as [sub' ok] eqn:Es. cbv beta iota. intros [= <- ->].
    destruct (IH _ _ Es) as [H1 H2]. split.
    + intros name n Hin. cbn [app]. rewrite look_cons, get_put, bool_decide_true by done. by apply H1.
    + intros [|k q] n; [by intros [= <-]|]. rewrite look_cons. intros Hq Hn.
      rewrite look_cons, get_put, get_or_insert. case_bool_decide; [|by right]. subst k.
      destruct (get d ch) as [m|]; [|done]. cbn [default id] in Ed. subst m.
      destruct (H2 q n Hq Hn) as [(name & Hb & r & ->)|Hr]; [|by right].
      left. exists name. split; [done|]. by exists r.
Qed.

Lemma path_loop_spec cands ch :
  (∀ n, look ch [bs "bin"] = Some n → is_dir n = true) →
  ∃ ds, ds ∈ cands ++ [[bs "bin"]] ∧
    (∀ name n, (name, n) ∈ bins dev → look (path_loop dev cands ch) (ds ++ [name]) = Some n) ∧
    ∀ q n, look ch q = Some n → is_dir n = false →
      (∃ name, name ∈ (bins dev).*1 ∧ (ds ++ [name]) `prefix_of` q) ∨
      look (path_loop dev cands ch) q = Some n.
Proof.
  revert ch. induction cands as [|c cands IH]; intros ch Hb; cbn [path_loop].
  - exists [bs "bin"]. split; [by left|]. apply inject_at_true.
    cbn [inject_at]. rewrite get_or_insert, bool_decide_true by done. rewrite look_cons in Hb.
    destruct (get (bs "bin") ch) as [[]|]; try done; by specialize (Hb _ eq_refl).
  - destruct (inject_at dev c ch) as [ch' []] eqn:E.
    + exists c. split; [by left|]. by apply inject_at_true.
    + pose proof (inject_at_false c ch ch' E) as Hs. destruct (IH ch') as (ds & Hin & H1 & H2).
      { intros n. rewrite Hs. apply Hb. }
      exists ds. split; [by right|]. split; [exact H1|]. intros q n Hq. apply H2. by rewrite Hs.
Qed.
End Inject.

Lemma elem_insert_by_count c d l : c ∈ insert_by_count d l ↔ c = d ∨ c ∈ l.
Proof.
  induction l as [|e l IH]; cbn [insert_by_count]; [set_solver|].
  destruct (d.2 <=? e.2); rewrite !elem_of_cons, ?IH; naive_solver.
Qed.

Lemma elem_sort_by_count c l : c ∈ sort_by_count l ↔ c ∈ l.
Proof.
  induction l as [|d l IH]; [done|]. cbn [sort_by_count foldr]. fold (sort_by_count l).
  by rewrite elem_insert_by_count, elem_of_cons, IH.
Qed.

(** [inject_magisk_bins], when no module puts something else than a directory at
    [bin]: there is a directory, [bin] or a candidate of [PATH], that has all five
    binaries and links afterwards, and every other file, symlink and whiteout the
    modules brought is still where it was. *)
Theorem inject_magisk_bins_spec dev ch is_emulator :
  (∀ n, get (bs "bin") ch = Some n → is_dir n = true) →
  ∃ ch' ds, inject_magisk_bins dev (Directory ch) is_emulator = Directory ch' ∧
    (ds = [bs "bin"] ∨
     ∃ c, c ∈ candidates dev is_emulator (split_on Byte.x3a (path_env dev)) ∧ ds = components c.1) ∧
    (∀ name n, (name, n) ∈ bins dev → look ch' (ds ++ [name]) = Some n) ∧
    ∀ q n, look ch q = Some n → is_dir n = false →
      (∃ name, name ∈ (bins dev).*1 ∧ (ds ++ [name]) `prefix_of` q) ∨ look ch' q = Some n.
Proof.
  intros Hb. cbn [inject_magisk_bins]. eexists.
  destruct (path_loop_spec dev (map (λ c, components c.1)
    (sort_by_count (candidates dev is_emulator (split_on Byte.x3a (path_env dev))))) ch)
    as (ds & Hin & H1 & H2).
  { intros n. rewrite look_cons. destruct (get (bs "bin") ch) as [m|]; [|done].
    specialize (Hb m eq_refl). destruct m; try done. by intros [= <-]. }
  exists ds. split; [done|]. split; [|by split].
  apply elem_of_app in Hin as [Hin|Hin%list_elem_of_singleton]; [right|by left].
  apply list_elem_of_In, in_map_iff in Hin as (c & <- & Hc). exists c.
  by rewrite <- list_elem_of_In, elem_sort_by_count in Hc.
Qed.

Lemma inject_magisk_bins_spec_witness :
  ∃ ch' ds, inject_magisk_bins sample_device (Directory sample_tree) false = Directory ch' ∧
    look ch' (ds ++ [bs "su"]) = Some MagiskLink.
Proof.
  destruct (inject_magisk_bins_spec sample_device sample_tree false) as (ch' & ds & E & _ & H & _).
  - intros n Hn. vm_compute in Hn. by injection Hn as <-.
  - exists ch', ds. split; [exact E|]. apply H. apply list_elem_of_In. right. right. by left.
Defined.

(** ** The partitions *)

Definition is_partition (dev : Device) (k : bytes) : bool :=
  bool_decide (k ∈ SECONDARY_READ_ONLY_PARTITIONS) &&
  match r_child (Some (rootdir dev)) k with Some (RNode RDir _) => true | _ => false end.

Lemma get_del k n ch : get k (del n ch) = if bool_decide (n = k) then None else get k ch.
Proof.
  induction ch as [|[j m] ch IH]; [by case_bool_decide|]. unfold del in *. cbn [List.filter fst get].
  destruct (decide (j = n)) as [->|Hj].
  - rewrite (bool_decide_true (n = n)) by done. cbn [negb]. rewrite IH. by repeat case_bool_decide.
  - rewrite (bool_decide_false (j = n)) by done. cbn [negb get]. rewrite IH.
    repeat case_bool_decide; subst; done.
Qed.

Lemma extract_root_get dev ch roots n ch' roots' k :
  extract_root dev (ch, roots) n = (ch', roots') →
  let b := bool_decide (n = k) && match r_child (Some (rootdir dev)) n with
                                  | Some (RNode RDir _) => true | _ => false end in
  get k ch' = (if b then None else get k ch) ∧
  get k roots' = (if b then match get k ch with Some r => Some r | None => get k roots end
                  else get k roots).
Proof.
  unfold extract_root. intros E.
  destruct (r_child _ n) as [[[] es]|]; try (injection E as <- <-; by rewrite andb_false_r).
  rewrite andb_true_r. cbv zeta. destruct (get n ch) as [r|] eqn:En; injection E as <- <-.
  - rewrite get_del, get_put. case_bool_decide; [subst; by rewrite En|done].
  - case_bool_decide; [subst; by rewrite En|done].
Qed.

Lemma extract_fold dev ns ch roots ch' roots' k : NoDup ns →
  foldl (extract_root dev) (ch, roots) ns = (ch', roots') →
  let b := bool_decide (k ∈ ns) && match r_child (Some (rootdir dev)) k with
                                   | Some (RNode RDir _) => true | _ => false end in
  get k ch' = (if b then None else get k ch) ∧
  get k roots' = (if b then match get k ch with Some r => Some r | None => get k roots end
                  else get k roots).
Proof.
  intros Hd. revert ch roots. induction Hd as [|n ns Hn Hd IH]; intros ch roots; cbn [foldl].
  { intros [= <- <-]. by rewrite bool_decide_false by apply not_elem_of_nil. }
  destruct (extract_root dev (ch, roots) n) as [ch1 roots1] eqn:E. intros E'.
  destruct (extract_root_get _ _ _ _ _ _ k E) as [H1 H2]. destruct (IH _ _ E') as [H3 H4].
  cbv zeta in *. rewrite H3, H4, H1, H2. clear IH E E' H1 H2 H3 H4.
  destruct (decide (n = k)) as [->|Hk].
  - rewrite (bool_decide_true (k = k)), (bool_decide_true (k ∈ k :: ns)), (bool_decide_false (k ∈ ns))
      by (done || by left). done.
  - rewrite (bool_decide_false (n = k)) by done.
    rewrite (bool_decide_ext (k ∈ n :: ns) (k ∈ ns)) by (rewrite elem_of_cons; naive_solver). done.
Qed.

Lemma extract_roots_get dev ch : ∃ sub, get (bs "system") (extract_roots dev (Directory ch)) = Some (Directory sub) ∧
  ∀ k, get k sub = (if is_partition dev k then None else get k ch) ∧
    (k ≠ bs "system" →
     get k (extract_roots dev (Directory ch)) = if is_partition dev k then get k ch else None).
Proof.
  cbn [extract_roots].
  destruct (foldl (extract_root dev) (ch, []) SECONDARY_READ_ONLY_PARTITIONS) as [sub roots] eqn:E.
  exists sub. split; [by rewrite get_put, bool_decide_true|]. intros k.
  assert (NoDup SECONDARY_READ_ONLY_PARTITIONS) as Hd by by_compute.
  destruct (extract_fold _ _ _ _ _ _ k Hd E) as [H1 H2]. cbv zeta in *. fold (is_partition dev k) in *.
  split; [exact H1|]. intros Hk. rewrite get_put, bool_decide_false, H2 by congruence.
  destruct (is_partition dev k); [|done]. by destruct (get k ch).
Qed.

Lemma partition_not_system dev k : is_partition dev k = true → k ≠ bs "system".
Proof.
  unfold is_partition. intros [Hk _]%andb_prop ->. revert Hk. apply not_true_iff_false. reflexivity.
Qed.

Lemma put_In x k v m : x ∈ put k v m → x = (k, v) ∨ x ∈ m.
Proof.
  induction m as [|[j w] m IH]; cbn [put]; [rewrite list_elem_of_singleton; by left|].
  destruct (bytes_cmp k j); rewrite !elem_of_cons; naive_solver.
Qed.

Lemma extract_fold_elem dev ns ch roots ch' roots' x :
  foldl (extract_root dev) (ch, roots) ns = (ch', roots') → x ∈ roots' →
  x ∈ roots ∨ (x.1 ∈ ns ∧ match r_child (Some (rootdir dev)) x.1 with
                          | Some (RNode RDir _) => true | _ => false end = true).
Proof.
  revert ch roots. induction ns as [|n ns IH]; intros ch roots; cbn [foldl].
  { intros [= <- <-]. by left. }
  destruct (extract_root dev (ch, roots) n) as [ch1 roots1] eqn:E. intros E' Hx.
  destruct (IH _ _ E' Hx) as [H|[H H']]; [|right; split; [by right|done]].
  unfold extract_root in E. destruct (r_child _ n) as [[[] es]|] eqn:Er; try (injection E as <- <-; by left).
  destruct (get n ch); injection E as <- <-; [|by left].
  apply put_In in H as [->|H]; [|by left]. right. cbn [fst]. split; [by left|]. by rewrite Er.
Qed.

Lemma extract_roots_elem dev ch k n : (k, n) ∈ extract_roots dev (Directory ch) →
  (∃ sub, k = bs "system" ∧ n = Directory sub) ∨ is_partition dev k = true.
Proof.
  cbn [extract_roots].
  destruct (foldl (extract_root dev) (ch, []) SECONDARY_READ_ONLY_PARTITIONS) as [sub roots] eqn:E.
  intros [[= -> ->]|H]%put_In; [left; by eexists|]. right.
  destruct (extract_fold_elem _ _ _ _ _ _ _ E H) as [?%not_elem_of_nil|[H1 H2]]; [done|].
  unfold is_partition. rewrite bool_decide_true by done. exact H2.
Qed.

(** Splitting the tree by partition loses nothing and duplicates nothing: the
    node at a path is in the tree of its partition, when the device has that
    partition as a directory of its own, and in the tree of [system] otherwise. *)
Theorem extract_roots_partition dev ch k p :
  walk (Directory ch) (k :: p) =
  if is_partition dev k
  then get k (extract_roots dev (Directory ch)) ≫= λ root, walk root p
  else get (bs "system") (extract_roots dev (Directory ch)) ≫= λ root, walk root (k :: p).
Proof.
  destruct (extract_roots_get dev ch) as (sub & Hs & Hget). destruct (Hget k) as [H1 H2].
  rewrite Hs. destruct (is_partition dev k) eqn:Ep; cbn [walk mbind option_bind].
  - rewrite H2; [by destruct (get k ch)|]. by apply partition_not_system in Ep.
  - by rewrite H1.
Qed.

(** ** Where mounts go *)

Definition no_mount (o : Op) : Prop := match o with BindMount _ _ _ => False | _ => True end.

Section Mounts.
Context (dev : Device) (env : Env Op) (files : bytes → ModuleFs).

Lemma collect_no_mount t : ∀ paths rt node h,
  ∃ tr, (collect env t paths rt node h).1.1 = h ++ tr ∧ Forall no_mount tr.
Proof.
  assert (∀ h : list Op, ∃ tr, h = h ++ tr ∧ Forall no_mount tr) as Hnil.
  { intros h. exists []. by rewrite app_nil_r. }
  induction t as [es IH| | |] using MTree_ind'; intros paths rt node h;
    destruct node as [children| | | |]; try apply Hnil.
  rewrite collect_dir. revert children h. induction IH as [|[n t] es Ht _ IHes]; intros children h.
  { apply Hnil. }
  assert (∀ ch h tr, Forall no_mount tr → ∃ tr',
    (let '(h, c, ok) := collect_entries env paths rt es ch (h ++ tr) in (h, Directory c, ok)).1.1
      = h ++ tr' ∧ Forall no_mount tr') as Hgo.
  { intros ch h' tr Htr. destruct (IHes ch (h' ++ tr)) as (tr' & -> & Htr'). exists (tr ++ tr').
    rewrite app_assoc. split; [done|]. by apply Forall_app. }
  cbn [collect_entries snd] in *. destruct t as [es'|tg|[|]|].
  - set (nd := default new_dir _). destruct (Ht (append paths n) (r_child rt n) nd h) as (tr & E & Htr).
    destruct (collect env (MDir es') _ _ nd h) as [[h' nd'] [|]]; cbn [fst] in E; subst h';
      [by apply Hgo|]. by exists tr.
  - apply IHes.
  - apply IHes.
  - destruct (r_exists _); [|apply IHes]. destruct (env h _); [apply Hgo; by repeat constructor|].
    eexists. split; [done|]. by repeat constructor.
  - destruct (r_exists _); [|apply IHes]. destruct (env h _); [apply Hgo; by repeat constructor|].
    eexists. split; [done|]. by repeat constructor.
Qed.

Lemma collect_is_dir t paths rt node h : is_dir node = true → is_dir (collect env t paths rt node h).1.2 = true.
Proof.
  destruct node; [|done..]. intros _. destruct t; try done. rewrite collect_dir.
  by destruct (collect_entries env paths rt entries children h) as [[? ?] ?].
Qed.

Lemma load_module_ok h node name : is_dir node = true →
  ∃ tr, (load_module dev env files (h, node) name).1 = h ++ tr ∧ Forall no_mount tr ∧
    is_dir (load_module dev env files (h, node) name).2 = true.
Proof.
  intros Hd. unfold load_module.
  set (h1 := if has_prop _ then _ else h).
  assert (∃ t, h1 = h ++ t ∧ Forall no_mount t) as (t1 & -> & Ht1).
  { subst h1. destruct (has_prop _); [eexists; split; [done|by repeat constructor]|].
    exists []. by rewrite app_nil_r. }
  destruct (skip_mount _); [by exists t1|]. destruct (sys _) as [t|]; [|by exists t1].
  set (rt := r_child _ _). set (paths := append _ _).
  destruct (collect_no_mount t paths rt node (h ++ t1)) as (tr & E & Htr).
  pose proof (collect_is_dir t paths rt node (h ++ t1) Hd) as Hd'.
  destruct (collect env t paths rt node (h ++ t1)) as [[h' nd] ok]. cbn [fst snd] in *. subst h'.
  exists (t1 ++ tr). rewrite app_assoc. split_and!; [done| |done]. by apply Forall_app.
Qed.

Lemma load_modules_ok mods h node : is_dir node = true →
  ∃ tr, (foldl (load_module dev env files) (h, node) mods).1 = h ++ tr ∧ Forall no_mount tr ∧
    is_dir (foldl (load_module dev env files) (h, node) mods).2 = true.
Proof.
  revert h node. induction mods as [|m mods IH]; intros h node Hd; cbn [foldl].
  { exists []. rewrite app_nil_r. by split_and!. }
  destruct (load_module_ok h node m Hd) as (t & E & Ht & Hd').
  destruct (load_module dev env files (h, node) m) as [h' node']. cbn [fst snd] in *. subst h'.
  destruct (IH (h ++ t) node' Hd') as (u & -> & Hu & Hd''). exists (t ++ u). rewrite app_assoc.
  split_and!; [done| |done]. by apply Forall_app.
Qed.

(** A mount of the whole step. *)
Definition apply_ok (o : Op) : Prop :=
  match o with
  | BindMount _ d _ =>
      (∃ p, d = at_path (append_path (magisk_tmp dev) WORKERDIR) p) ∨
      (∃ k p t, k ∈ bs "system" :: SECONDARY_READ_ONLY_PARTITIONS ∧ d = at_path (bs "/") (k :: p) ∧
         r_walk (Some (rootdir dev)) (k :: p) = Some t ∧ is_symlink t = false)
  | _ => True
  end.

Lemma commit_root_ok k n ch : (k, n) ∈ extract_roots dev (Directory ch) →
  stays apply_ok (commit_root dev env (k, n)).
Proof.
  intros Hin. apply stays_ignore. set (rt := r_child _ k).
  destruct (decide (k = bs "system")) as [->|Hk].
  - assert (∃ sub, n = Directory sub) as [sub ->].
    { apply extract_roots_elem in Hin as [(sub & _ & ->)|Hs]; [by eexists|].
      by apply partition_not_system in Hs. }
    eapply stays_impl; [|apply commit_root_stays]. intros []; cbn -[at_path]; try done.
    intros [[p ->]|(j & p & t & -> & Hw & Hs)]; [left; by exists (bs "system" :: p)|].
    right. exists (bs "system"), (j :: p), t. split; [by left|]. by split_and!.
  - apply extract_roots_elem in Hin as [(sub & -> & _)|Hp]; [done|].
    apply andb_prop in Hp as [Hp Hr]. apply bool_decide_eq_true in Hp. fold rt in Hr.
    destruct rt as [[[] es]|] eqn:Ert; try done.
    eapply stays_impl; [|apply commit_stays; eexists; split; [done|done]].
    intros []; cbn -[at_path]; try done.
    intros [[p ->]|(p & t & -> & Hw & Hs)]; [left; by exists (k :: p)|].
    right. exists k, p, t. split; [by right|]. split_and!; [done| |done].
    change (r_walk rt p = Some t). by rewrite Ert.
Qed.
End Mounts.

Lemma inject_magisk_is_dir dev n e : is_dir n = true → is_dir (inject_magisk_bins dev n e) = true.
Proof. by destruct n. Qed.

Lemma inject_zygisk_is_dir dev name n : is_dir n = true → is_dir (inject_zygisk_bins dev name n) = true.
Proof. by destruct n. Qed.

Lemma apply_modules_stays dev env files is_emulator zygisk module_list :
  stays (apply_ok dev) (apply_modules dev env files is_emulator zygisk module_list).
Proof.
  intros h. unfold apply_modules, load_modules.
  destruct (load_modules_ok dev env files module_list h new_dir eq_refl) as (t & E & Ht & Hd).
  destruct (foldl (load_module dev env files) (h, new_dir) module_list) as [h' system]. cbn [fst snd] in *. subst h'.
  set (system1 := if negb _ || _ then _ else system).
  assert (is_dir system1 = true) as Hd1.
  { subst system1. destruct (_ || _); [by apply inject_magisk_is_dir|done]. }
  assert (∃ u system2, match zygisk with
    | Some lib_name => ((h ++ t) ++ [ZygiskSetProp], inject_zygisk_bins dev lib_name system1)
    | None => (h ++ t, system1) end = (h ++ u, system2) ∧ Forall no_mount u ∧ is_dir system2 = true)
    as (u & system2 & -> & Hu & Hd2).
  { destruct zygisk as [lib|]; [|by exists t, system1].
    exists (t ++ [ZygiskSetProp]), (inject_zygisk_bins dev lib system1). rewrite app_assoc.
    split_and!; [done| |by apply inject_zygisk_is_dir]. apply Forall_app. split; [done|by repeat constructor]. }
  destruct system2 as [ch| | | |]; try done.
  destruct (stays_for_each (apply_ok dev) (commit_root dev env) (extract_roots dev (Directory ch))
    (λ '(k, n) Hin, commit_root_ok dev env k n ch Hin) (h ++ u)) as (v & -> & Hv).
  exists (u ++ v). rewrite app_assoc. split; [done|]. apply Forall_app. split; [|done].
  eapply Forall_impl; [exact Hu|]. by intros [].
Qed.

(** C14: [apply_modules], whatever the modules contain and whichever calls fail: every
    bind mount goes to the worker directory, or to a path of [/system] or of a
    secondary partition where the device has something that is not a symlink. *)
Theorem apply_mounts_safe dev env files is_emulator zygisk module_list s d rec :
  BindMount s d rec ∈ trace (apply_modules dev env files is_emulator zygisk module_list) →
  (∃ p, d = at_path (append_path (magisk_tmp dev) WORKERDIR) p) ∨
  (∃ k p t, k ∈ bs "system" :: SECONDARY_READ_ONLY_PARTITIONS ∧ d = at_path (bs "/") (k :: p) ∧
     r_walk (Some (rootdir dev)) (k :: p) = Some t ∧ is_symlink t = false).
Proof. intros Hin. exact (stays_trace _ _ _ (apply_modules_stays dev env files is_emulator zygisk module_list) Hin). Qed.

Lemma apply_mounts_safe_witness :
  BindMount (bs "/dev/x/.magisk/worker/system/bin") (bs "/system/bin") true ∈
    trace (apply_modules sample_device all_ok sample_files false None [bs "a"; bs "b"]) ∧
  ((∃ p, bs "/system/bin" = at_path (append_path (magisk_tmp sample_device) WORKERDIR) p) ∨
   (∃ k p t, k ∈ bs "system" :: SECONDARY_READ_ONLY_PARTITIONS ∧ bs "/system/bin" = at_path (bs "/") (k :: p) ∧
     r_walk (Some (rootdir sample_device)) (k :: p) = Some t ∧ is_symlink t = false)).
Proof.
  assert (BindMount (bs "/dev/x/.magisk/worker/system/bin") (bs "/system/bin") true ∈
    trace (apply_modules sample_device all_ok sample_files false None [bs "a"; bs "b"])) as H.
  { apply list_elem_of_In. vm_compute. tauto. }
  split; [exact H|].
  exact (apply_mounts_safe sample_device all_ok sample_files false None [bs "a"; bs "b"] _ _ _ H).
Defined.
