(* ===== verification/ModuleStore.v ===== *)
(** ModuleStore: the directory of installed modules, [native/src/core/module.rs]
    ([upgrade_modules], [for_each_module], [disable_modules], [remove_modules],
    [collect_modules], [MagiskD::handle_modules]).

    The state is the module root and the upgrade directory, each as its entries in
    directory order; a module is the set of the paths it contains.  A failing call
    leaves the state alone, but for [remove_all], which may have removed some paths
    ([partial], [partial_dir]).  Scripts and [apply_modules] are calls. *)

From S2P Require Import Prelude Cstr Io Sys.
From S2P Require Import ModuleTree.

Abbreviation Content := (gset bytes).
Inductive Entry := EDir (c : Content) | EOther.
Abbreviation Entries := (list (bytes * Entry)).

Record ModuleInfo := mkInfo { name : bytes; z32 : Z; z64 : Z }.

Record Store := mkStore {
  root : Entries;
  upgrade : option Entries;
  modules : list ModuleInfo
}.

Inductive StoreOp :=
  | OpenRoot | OpenUpgrade | ReadDir | OpenModule (n : bytes)
  | RemoveAll (n : bytes) | UnlinkDir (n : bytes) | Unlink (n path : bytes)
  | Rename (n : bytes) | CreateFile (n path : bytes)
  | OpenLib (n path : bytes) | MemfdCreate | Sendfile (memfd fd : Z) | Close (fd : Z)
  | RemoveUpgradeAll | RemoveUpgrade | RemoveRootAll
  | ExecScript (path : bytes) | ExecModuleScripts (stage : bytes) (ms : list ModuleInfo)
  | SetupModuleMount | ApplyModules (ms : list ModuleInfo).

(** Entries by name. *)
Fixpoint find (n : bytes) (es : Entries) : option Entry :=
  match es with
  | [] => None
  | (m, e) :: es => if bool_decide (m = n) then Some e else find n es
  end.
Fixpoint set (n : bytes) (e : Entry) (es : Entries) : Entries :=
  match es with
  | [] => [(n, e)]
  | (m, d) :: es => if bool_decide (m = n) then (m, e) :: es else (m, d) :: set n e es
  end.
Definition drop_entry (n : bytes) (es : Entries) : Entries :=
  List.filter (λ p, negb (bool_decide (p.1 = n))) es.

Definition with_root (f : Entries → Entries) (w : Store) : Store :=
  mkStore (f (root w)) (upgrade w) (modules w).

(** Change the paths of a module. *)
Definition update (f : Content → Content) (n : bytes) (es : Entries) : Entries :=
  match find n es with
  | Some (EDir c) => set n (EDir (f c)) es
  | _ => es
  end.

Definition contains_path (n path : bytes) (w : Store) : bool :=
  match find n (root w) with
  | Some (EDir c) => bool_decide (path ∈ c)
  | _ => false
  end.

Definition is_dir_entry (n : bytes) (w : Store) : bool :=
  match find n (root w) with Some (EDir _) => true | _ => false end.

Definition DISABLE : bytes := bs "disable".
Definition REMOVE : bytes := bs "remove".
Definition UPDATE : bytes := bs "update".
Definition UNINSTALL : bytes := bs "uninstall.sh".
Definition ZYGISK : bytes := bs "zygisk".
Definition RIRU : bytes := bs "riru".

Section Store.
Context (env : Env StoreOp).
(** What a failing [remove_all] leaves. *)
Context (partial : Content → Content) (partial_dir : Entries → Entries).
(** The descriptor an open or [memfd_create] returns after a trace. *)
Context (new_fd : list StoreOp → Z).
(** The libraries of the architecture, 32 and 64 bit. *)
Context (lib32 lib64 : option bytes).

Abbreviation M := (Sys Store StoreOp).

Definition open_module (n : bytes) : M unit :=
  _ ← ask env (OpenModule n);
  b ← read (is_dir_entry n);
  if b : bool then mret tt else throw.

Definition remove_all (n : bytes) : M unit :=
  do_ env (RemoveAll n) (with_root (update (λ _, ∅) n)) (with_root (update partial n)).

(** ** Upgrading *)

(** The entry moves from the upgrade directory to the root. *)
Definition rename_to (n : bytes) (c : Content) (w : Store) : Store :=
  mkStore (set n (EDir c) (root w)) (drop_entry n <$> upgrade w) (modules w).

Definition upgrade_module (p : bytes * Entry) : M unit :=
  _ ← ask env ReadDir;
  let '(n, e) := p in
  match e with
  | EOther => mret tt
  | EDir c =>
      present ← read (λ w, match find n (root w) with Some _ => true | None => false end);
      disable ← (if present : bool then
          _ ← open_module n;
          disable ← read (contains_path n DISABLE);
          _ ← remove_all n;
          _ ← do_ env (UnlinkDir n) (with_root (drop_entry n)) (λ w, w);
          mret disable
        else mret false);
      _ ← do_ env (Rename n) (rename_to n c) (λ w, w);
      if disable : bool then
        do_ env (CreateFile n DISABLE) (with_root (update (λ c, c ∪ {[DISABLE]}) n)) (λ w, w)
      else mret tt
  end.

Definition upgrade_modules : M unit :=
  _ ← ask env OpenUpgrade;
  es ← read upgrade;
  match es with
  | None => throw
  | Some es =>
      _ ← ask env OpenRoot;
      _ ← each upgrade_module es;
      _ ← ask env ReadDir;
      _ ← do_ env RemoveUpgradeAll (λ w, mkStore (root w) (Some []) (modules w))
             (λ w, mkStore (root w) (partial_dir <$> upgrade w) (modules w));
      do_ env RemoveUpgrade (λ w, mkStore (root w) None (modules w)) (λ w, w)
  end.

(** ** Going through the modules *)

Definition for_each_module (func : bytes → M unit) : M unit :=
  _ ← ask env OpenRoot;
  es ← read root;
  _ ← each (λ p : bytes * Entry,
        _ ← ask env ReadDir;
        match p.2 with
        | EDir _ => if bool_decide (p.1 = bs ".core") then mret tt else func p.1
        | EOther => mret tt
        end) es;
  ask env ReadDir.

Definition disable_modules : M unit :=
  ok_ (for_each_module (λ n,
    _ ← open_module n;
    do_ env (CreateFile n DISABLE) (with_root (update (λ c, c ∪ {[DISABLE]}) n)) (λ w, w))).

Definition run_uninstall_script (n : bytes) : M unit :=
  _ ← test env (ExecScript (append_path (append_path (bs "/data/adb/modules") n) UNINSTALL));
  mret tt.

Definition uninstall (n : bytes) : M unit :=
  b ← read (contains_path n UNINSTALL);
  if b : bool then run_uninstall_script n else mret tt.

Definition remove_modules : M unit :=
  _ ← ok_ (for_each_module (λ n, _ ← open_module n; uninstall n));
  ok_ (do_ env RemoveRootAll (λ w, mkStore [] (upgrade w) (modules w)) (with_root partial_dir)).

(** ** Collecting the active modules *)

Definition open_fd_safe (n : bytes) (lib : option bytes) : M Z := λ w h,
  match lib with
  | None => (w, h, Ok (-1))
  | Some l => (w, h ++ [OpenLib n l], Ok (if env h (OpenLib n l) then new_fd h else -1))
  end.

Definition push (m : ModuleInfo) (w : Store) : Store :=
  mkStore (root w) (upgrade w) (modules w ++ [m]).

Definition unlink (n path : bytes) : M unit :=
  ok_ (do_ env (Unlink n path) (with_root (update (λ c, c ∖ {[path]}) n)) (λ w, w)).

Definition collect_module (zygisk_enabled open_zygisk : bool) (n : bytes) : M unit :=
  _ ← open_module n;
  remove ← read (contains_path n REMOVE);
  if remove : bool then
    _ ← uninstall n;
    _ ← remove_all n;
    do_ env (UnlinkDir n) (with_root (drop_entry n)) (λ w, w)
  else
    _ ← unlink n UPDATE;
    disable ← read (contains_path n DISABLE);
    if disable : bool then mret tt
    else
      is_zygisk ← read (contains_path n ZYGISK);
      riru ← read (contains_path n RIRU);
      if zygisk_enabled then
        if bool_decide (n = bs "riru-core") || riru then mret tt
        else if open_zygisk && is_zygisk then
          z32 ← open_fd_safe n lib32;
          z64 ← open_fd_safe n lib64;
          _ ← unlink n (bs "zygisk/unloaded");
          modify (push (mkInfo n z32 z64))
        else modify (push (mkInfo n (-1) (-1)))
      else if is_zygisk : bool then mret tt
      else modify (push (mkInfo n (-1) (-1))).

(** The closure: [use_memfd] and the descriptor to use. *)
Definition convert_to_memfd (use_memfd : bool) (fd : Z) : M (bool * Z) := λ w h,
  if fd <? 0 then (w, h, Ok (use_memfd, fd))
  else if use_memfd then
    let memfd := new_fd h in
    let h1 := h ++ [MemfdCreate] in
    if env h MemfdCreate then
      let h2 := h1 ++ [Sendfile memfd fd] in
      if env h1 (Sendfile memfd fd) then (w, h2 ++ [Close fd], Ok (true, memfd))
      else (w, h2 ++ [Close memfd], Ok (false, fd))
    else (w, h1, Ok (false, fd))
  else (w, h, Ok (false, fd)).

Fixpoint convert_all (use_memfd : bool) (ms : list ModuleInfo) : M (list ModuleInfo) :=
  match ms with
  | [] => mret []
  | m :: ms =>
      '(use_memfd, fd32) ← convert_to_memfd use_memfd (z32 m);
      '(use_memfd, fd64) ← convert_to_memfd use_memfd (z64 m);
      ms ← convert_all use_memfd ms;
      mret (mkInfo (name m) fd32 fd64 :: ms)
  end.

Definition collect_modules (zygisk_enabled open_zygisk : bool) : M (list ModuleInfo) :=
  _ ← modify (λ w, mkStore (root w) (upgrade w) []);
  _ ← ok_ (for_each_module (collect_module zygisk_enabled open_zygisk));
  ms ← read modules;
  if zygisk_enabled && open_zygisk then convert_all true ms else mret ms.

(** Returns the list [module_list] is set to. *)
Definition handle_modules (zygisk : bool) : M (list ModuleInfo) :=
  _ ← test env SetupModuleMount;
  _ ← ok_ upgrade_modules;
  ms ← collect_modules zygisk false;
  _ ← test env (ExecModuleScripts (bs "post-fs-data") ms);
  ms ← collect_modules zygisk true;
  _ ← test env (ApplyModules ms);
  mret ms.
End Store.

(** ** Entries *)

Lemma find_set n m e es : find m (set n e es) = if bool_decide (n = m) then Some e else find m es.
Proof.
  induction es as [|[j d] es IH]; cbn [set find]; [done|].
  destruct (decide (j = n)) as [->|Hj].
  - rewrite (bool_decide_true (n = n)) by done. cbn [find]. by case_bool_decide.
  - rewrite (bool_decide_false (j = n)) by done. cbn [find]. rewrite IH.
    repeat case_bool_decide; subst; done.
Qed.

Lemma find_drop n m es : find m (drop_entry n es) = if bool_decide (n = m) then None else find m es.
Proof.
  induction es as [|[j d] es IH]; [by case_bool_decide|]. unfold drop_entry in *.
  cbn [List.filter fst find]. destruct (decide (j = n)) as [->|Hj].
  - rewrite (bool_decide_true (n = n)) by done. cbn [negb]. rewrite IH. by case_bool_decide.
  - rewrite (bool_decide_false (j = n)) by done. cbn [negb find]. rewrite IH.
    repeat case_bool_decide; subst; done.
Qed.

Lemma find_update f n m es : find m (update f n es) =
  if bool_decide (n = m)
  then match find m es with Some (EDir c) => Some (EDir (f c)) | o => o end else find m es.
Proof.
  unfold update. destruct (find n es) as [[c|]|] eqn:E; rewrite ?find_set; case_bool_decide; subst;
    rewrite ?E; done.
Qed.

Lemma find_In n e es : find n es = Some e → n ∈ es.*1.
Proof.
  induction es as [|[j d] es IH]; cbn [find fmap list_fmap fst]; [done|].
  case_bool_decide; [subst; by left|]. intros H'. right. auto.
Qed.

Lemma find_elem n e es : NoDup es.*1 → (n, e) ∈ es → find n es = Some e.
Proof.
  induction es as [|[j d] es IH]; cbn [find fmap list_fmap fst]; [by intros _ ?%not_elem_of_nil|].
  intros [Hj Hd]%NoDup_cons [[= -> ->]|Hin]%elem_of_cons; [by rewrite bool_decide_true|].
  case_bool_decide as H; [|by apply IH]. destruct Hj. rewrite H. apply list_elem_of_fmap. by exists (n, e).
Qed.

(** ** Upgrading *)

Section Upgrade.
Context (env : Env StoreOp) (partial : Content → Content) (partial_dir : Entries → Entries).

(** What an upgrade makes of an entry of the root. *)
Definition upgraded (old : option Entry) (c : Content) : Entry :=
  match old with
  | Some (EDir d) => EDir (if bool_decide (DISABLE ∈ d) then c ∪ {[DISABLE]} else c)
  | _ => EDir c
  end.

Lemma upgrade_module_ok p Q w :
  all_succeed env →
  (match p.2 with EDir _ => find p.1 (root w) ≠ Some EOther | EOther => True end) →
  (∀ w', (∀ m, find m (root w') =
            match p.2 with
            | EDir c => if bool_decide (p.1 = m) then Some (upgraded (find m (root w)) c) else find m (root w)
            | EOther => find m (root w)
            end) → Q tt w') →
  wp (upgrade_module env partial p) Q (λ _, False) w.
Proof.
  destruct p as [n [c|]]; cbn [fst snd]; intros He Hn HQ; unfold upgrade_module; [|by repeat wp_step; apply HQ].
  do 4 wp_step. destruct (find n (root w)) as [e|] eqn:En.
  - destruct e as [d|]; [|done]. unfold open_module. repeat wp_step.
    unfold is_dir_entry. rewrite En. repeat wp_step. unfold contains_path. rewrite En.
    case_bool_decide as Hd; repeat wp_step; apply HQ; intros m; cbn [root with_root rename_to];
      rewrite ?find_update, !find_set, !find_drop, !find_update; unfold upgraded;
      repeat case_bool_decide; subst; rewrite ?En, ?bool_decide_true by done; try done.
    by rewrite bool_decide_false.
  - repeat wp_step. apply HQ. intros m. cbn [root rename_to]. rewrite find_set.
    case_bool_decide; [subst; by rewrite En|done].
Qed.

(** Another module is not touched, whatever fails. *)
Lemma upgrade_module_frame p n e Q w :
  (∀ c, p ≠ (n, EDir c)) → find n (root w) = e → (∀ w', find n (root w') = e → Q tt w') →
  wp (upgrade_module env partial p) Q (λ w', find n (root w') = e) w.
Proof.
  destruct p as [m [c|]]; intros Hp He HQ; unfold upgrade_module; [|by repeat wp_step; auto].
  assert (m ≠ n) as Hm by (intros ->; by destruct (Hp c)).
  assert (∀ f w, find n (root (with_root (update f m) w)) = find n (root w)) as Hu.
  { intros. cbn [root with_root]. by rewrite find_update, bool_decide_false. }
  assert (∀ w, find n (root (with_root (drop_entry m) w)) = find n (root w)) as Hdr.
  { intros. cbn [root with_root]. by rewrite find_drop, bool_decide_false. }
  assert (∀ w, find n (root (rename_to m c w)) = find n (root w)) as Hr.
  { intros. cbn [root rename_to]. by rewrite find_set, bool_decide_false. }
  do 2 wp_step; [|done]. do 3 wp_step.
  destruct (find m (root w)); unfold open_module, remove_all; repeat wp_step;
    repeat match goal with
    | |- wp (if ?b then _ else _) _ _ _ => destruct b; repeat wp_step
    | |- Q tt _ => apply HQ
    end; repeat (rewrite Hu || rewrite Hdr || rewrite Hr); done.
Qed.
End Upgrade.

(** C16: [upgrade_modules], when the calls succeed: every module of the upgrade
    directory replaces the installed one of its name and stays disabled when that
    one was, all other installed modules are as they were, and the upgrade directory
    is gone. *)
Theorem upgrade_modules_spec env partial partial_dir w h es :
  all_succeed env → upgrade w = Some es → NoDup es.*1 →
  (∀ n c, (n, EDir c) ∈ es → find n (root w) ≠ Some EOther) →
  let r := upgrade_modules env partial partial_dir w h in
  result r = Ok tt ∧ upgrade (state r) = None ∧
  ∀ n, find n (root (state r)) =
       match find n es with
       | Some (EDir c) => Some (upgraded (find n (root w)) c)
       | _ => find n (root w)
       end.
Proof.
  intros He Hu Hd Ho r.
  assert (wp (upgrade_modules env partial partial_dir) (λ _ w', upgrade w' = None ∧
    ∀ n, find n (root w') = match find n es with
       | Some (EDir c) => Some (upgraded (find n (root w)) c) | _ => find n (root w) end)
    (λ _, False) w) as H.
  2: { apply (wp_run _ _ _ _ h) in H. fold r in H. by destruct (result r) as [[]| | |]. }
  unfold upgrade_modules. do 4 wp_step. rewrite Hu. do 3 wp_step.
  apply (wp_each _ (λ l w', NoDup l.*1 ∧ (∀ x, x ∈ l → x ∈ es) ∧ ∀ n, find n (root w') =
    if bool_decide (n ∈ l.*1) then find n (root w) else
    match find n es with
       | Some (EDir c) => Some (upgraded (find n (root w)) c) | _ => find n (root w) end)).
  - intros [m e] l w' (Hdl & Hsub & Hf). cbn [fmap list_fmap fst] in Hdl, Hf.
    apply NoDup_cons in Hdl as [Hm Hdl].
    assert (find m (root w') = find m (root w)) as Hfm by (rewrite Hf, bool_decide_true; [done|by left]).
    assert (find m es = Some e) as Hme by (apply find_elem; [done|apply Hsub; by left]).
    apply upgrade_module_ok; cbn [fst snd]; [done| |].
    { destruct e as [c|]; [|done]. rewrite Hfm. apply (Ho m c), Hsub. by left. }
    intros w'' Hf''. split_and!; [done|intros x Hx; apply Hsub; by right|]. intros n. rewrite Hf''.
    destruct (decide (m = n)) as [->|Hmn].
    + rewrite (bool_decide_false (n ∈ l.*1)), Hme by done. destruct e as [c|]; [|by rewrite Hfm].
      by rewrite bool_decide_true, Hfm.
    + rewrite (bool_decide_false (m = n)), Hf by done.
      rewrite (bool_decide_ext (n ∈ m :: l.*1) (n ∈ l.*1)) by (rewrite elem_of_cons; naive_solver).
      by destruct e.
  - intros w' (_ & _ & Hf). repeat wp_step. split; [done|]. intros n. cbn [root]. rewrite Hf.
    by rewrite bool_decide_false by apply not_elem_of_nil.
  - split_and!; [done|done|]. intros n. case_bool_decide as Hn; [done|].
    destruct (find n es) eqn:E; [|done]. by apply find_In in E.
Qed.

(** [upgrade_modules], whichever calls fail: an installed module that has no
    directory of its name in the upgrade directory is as it was. *)
Theorem upgrade_modules_frame env partial partial_dir w h es n :
  upgrade w = Some es → (∀ c, (n, EDir c) ∉ es) →
  find n (root (state (upgrade_modules env partial partial_dir w h))) = find n (root w).
Proof.
  intros Hu Hn.
  assert (wp (upgrade_modules env partial partial_dir) (λ _ w', find n (root w') = find n (root w))
    (λ w', find n (root w') = find n (root w)) w) as H.
  2: { apply (wp_run _ _ _ _ h) in H. by destruct (result _) as [[]| | |]. }
  unfold upgrade_modules. do 2 wp_step; [|done]. do 2 wp_step. rewrite Hu. do 2 wp_step; [|done]. wp_step.
  apply (wp_each _ (λ l w', (∀ x, x ∈ l → x ∈ es) ∧ find n (root w') = find n (root w))).
  - intros p l w' [Hsub Hw]. apply upgrade_module_frame; [|done|].
    + intros c ->. apply (Hn c), Hsub. by left.
    + intros w'' Hw''. split; [|done]. intros x Hx. apply Hsub. by right.
  - intros w' [_ Hw]. repeat wp_step; done.
  - done.
Qed.

Definition sample_store : Store :=
  mkStore [(bs "a", EDir {[DISABLE; bs "old"]}); (bs "b", EDir {[UPDATE; bs "system"]}); (bs "note", EOther);
           (bs "d", EDir {[REMOVE]}); (bs "e", EDir {[ZYGISK]})]
    (Some [(bs "a", EDir {[bs "new"]}); (bs "junk", EOther); (bs "c", EDir {[bs "new"]})]) [].

Lemma upgrade_modules_spec_witness :
  result (upgrade_modules (λ _ _, true) (λ c, c) (λ e, e) sample_store []) = Ok tt ∧
  find (bs "a") (root (state (upgrade_modules (λ _ _, true) (λ c, c) (λ e, e) sample_store [])))
  = Some (upgraded (find (bs "a") (root sample_store)) {[bs "new"]}).
Proof.
  destruct (upgrade_modules_spec (λ _ _, true) (λ c, c) (λ e, e) sample_store []
    [(bs "a", EDir {[bs "new"]}); (bs "junk", EOther); (bs "c", EDir {[bs "new"]})]) as (H1 & _ & H2).
  - done.
  - done.
  - by_compute.
  - intros n c Hin. rewrite !elem_of_cons in Hin.
    destruct Hin as [[= -> _]|[[=]|[[= -> _]|[]%not_elem_of_nil]]]; by cbn.
  - split; [exact H1|]. rewrite H2. reflexivity.
Defined.

Lemma upgrade_modules_frame_witness :
  find (bs "b") (root (state (upgrade_modules (λ h _, bool_decide (length h = 3%nat)) (λ c, c) (λ e, e) sample_store [])))
  = find (bs "b") (root sample_store).
Proof.
  apply (upgrade_modules_frame (λ h _, bool_decide (length h = 3%nat)) (λ c, c) (λ e, e) sample_store []
    [(bs "a", EDir {[bs "new"]}); (bs "junk", EOther); (bs "c", EDir {[bs "new"]})] (bs "b")).
  - done.
  - intros c Hin. rewrite !elem_of_cons in Hin.
    destruct Hin as [[=]|[[=]|[[=]|[]%not_elem_of_nil]]].
Defined.

(** ** Collecting *)

(** A module that takes part. *)
Definition selected (zygisk_enabled : bool) (n : bytes) (c : Content) : bool :=
  negb (bool_decide (n = bs ".core")) &&
  negb (bool_decide (REMOVE ∈ c)) && negb (bool_decide (DISABLE ∈ c)) &&
  if zygisk_enabled then negb (bool_decide (n = bs "riru-core") || bool_decide (RIRU ∈ c))
  else negb (bool_decide (ZYGISK ∈ c)).

Definition active_names (zygisk_enabled : bool) (es : Entries) : list bytes :=
  flat_map (λ p, match p.2 with
                 | EDir c => if selected zygisk_enabled p.1 c then [p.1] else []
                 | EOther => []
                 end) es.

Section Collect.
Context (env : Env StoreOp) (partial : Content → Content) (partial_dir : Entries → Entries).
Context (new_fd : list StoreOp → Z) (lib32 lib64 : option bytes).

(** Only the entry [n] may differ. *)
Definition frame (n : bytes) (w w' : Store) : Prop := ∀ m, m ≠ n → find m (root w') = find m (root w).

Lemma frame_root n f w : (∀ m es, m ≠ n → find m (f es) = find m es) → frame n w (with_root f w).
Proof. intros H m Hm. by apply H. Qed.

Lemma frame_update n f w : frame n w (with_root (update f n) w).
Proof. apply frame_root. intros. by rewrite find_update, bool_decide_false. Qed.

Lemma frame_trans n w1 w2 w3 : frame n w1 w2 → frame n w2 w3 → frame n w1 w3.
Proof. intros H1 H2 m Hm. by rewrite H2, H1. Qed.

Lemma wp_uninstall n (Q : unit → Store → Prop) E w : Q tt w → wp (uninstall env n) Q E w.
Proof.
  intros HQ. unfold uninstall, run_uninstall_script. do 2 wp_step.
  destruct (contains_path _ _ _); repeat wp_step; done.
Qed.

Lemma wp_open_module n c (Q : unit → Store → Prop) (E : Store → Prop) w :
  find n (root w) = Some (EDir c) → Q tt w → (¬ all_succeed env → E w) → wp (open_module env n) Q E w.
Proof.
  intros Hn HQ HE. unfold open_module. wp_step. apply wp_ask; [|done]. repeat wp_step.
  unfold is_dir_entry. rewrite Hn. by wp_step.
Qed.

(** Unlinking a file leaves the other paths of the module. *)
Lemma wp_unlink n path c (Q : unit → Store → Prop) (E : Store → Prop) w :
  find n (root w) = Some (EDir c) →
  (∀ w' c', frame n w w' → modules w' = modules w → find n (root w') = Some (EDir c') →
     (∀ q, q ≠ path → q ∈ c' ↔ q ∈ c) → Q tt w') →
  wp (unlink env n path) Q E w.
Proof.
  intros Hn HQ. unfold unlink. wp_step. apply wp_do.
  - apply (HQ _ (c ∖ {[path]})); [apply frame_update|done| |set_solver].
    cbn [root with_root]. by rewrite find_update, bool_decide_true, Hn.
  - intros _. by apply (HQ w c).
Qed.

Lemma wp_fd n lib (Q : Z → Store → Prop) E w : (∀ z, Q z w) → wp (open_fd_safe env new_fd n lib) Q E w.
Proof. intros HQ h. unfold open_fd_safe. destruct lib; apply HQ. Qed.

Lemma collect_module_wp zyg op n c w : find n (root w) = Some (EDir c) → n ≠ bs ".core" →
  wp (collect_module env partial new_fd lib32 lib64 zyg op n)
    (λ _ w', frame n w w' ∧
       map name (modules w') = map name (modules w) ++ (if selected zyg n c then [n] else []))
    (λ w', frame n w w' ∧ map name (modules w') = map name (modules w) ∧ ¬ all_succeed env) w.
Proof.
  intros Hn Hcore. unfold collect_module. wp_step. eapply wp_open_module; [done| |done]. do 2 wp_step.
  assert (selected zyg n c = negb (bool_decide (REMOVE ∈ c)) && negb (bool_decide (DISABLE ∈ c)) &&
    if zyg then negb (bool_decide (n = bs "riru-core") || bool_decide (RIRU ∈ c))
    else negb (bool_decide (ZYGISK ∈ c))) as -> by (unfold selected; by rewrite bool_decide_false).
  unfold contains_path at 1. rewrite Hn. case_bool_decide as Hrm; cbn [negb andb].
  { wp_step. apply wp_uninstall. unfold remove_all. repeat wp_step.
    - split; [|by rewrite app_nil_r]. eapply frame_trans; [apply frame_update|].
      apply frame_root. intros. by rewrite find_drop, bool_decide_false.
    - split; [apply frame_update|done].
    - split; [apply frame_update|done]. }
  wp_step. eapply wp_unlink; [done|]. intros w1 c1 Hf1 Hm1 Hn1 Hc1.
  assert (∀ q, q ≠ UPDATE → contains_path n q w1 = bool_decide (q ∈ c)) as Hcp.
  { intros q Hq. unfold contains_path. rewrite Hn1. apply bool_decide_ext. by apply Hc1. }
  do 2 wp_step. rewrite Hcp by by_compute. case_bool_decide as Hdis; cbn [negb andb].
  { wp_step. rewrite app_nil_r. by rewrite Hm1. }
  do 4 wp_step. rewrite !Hcp by by_compute.
  assert (∀ z z', frame n w (push (mkInfo n z z') w1) ∧
    map name (modules (push (mkInfo n z z') w1)) = map name (modules w) ++ [n]) as Hpush.
  { intros z z'. split; [done|]. cbn [modules push]. by rewrite map_app, Hm1. }
  assert (frame n w w1 ∧ map name (modules w1) = map name (modules w) ++ []) as Hsame
    by by rewrite app_nil_r, Hm1.
  destruct zyg; [|by case_bool_decide; repeat wp_step].
  destruct (bool_decide (n = bs "riru-core") || bool_decide (RIRU ∈ c)); [by wp_step|].
  destruct (op && _); [|by wp_step]. wp_step. apply wp_fd. intros z. wp_step. apply wp_fd. intros z'.
  wp_step. eapply wp_unlink; [done|]. intros w2 c2 Hf2 Hm2 Hn2 _. wp_step.
  split; [exact (frame_trans n w w1 w2 Hf1 Hf2)|]. cbn [modules push]. by rewrite map_app, Hm2, Hm1.
Qed.

Lemma wp_convert_to_memfd b fd (Q : bool * Z → Store → Prop) E w :
  (∀ b fd, Q (b, fd) w) → wp (convert_to_memfd env new_fd b fd) Q E w.
Proof.
  intros HQ h. unfold convert_to_memfd. destruct (fd <? 0); [apply HQ|]. destruct b; [|apply HQ].
  destruct (env h _); [|apply HQ]. destruct (env _ _); apply HQ.
Qed.

Lemma wp_convert_all b ms (Q : list ModuleInfo → Store → Prop) E w :
  (∀ ms', map name ms' = map name ms → Q ms' w) → wp (convert_all env new_fd b ms) Q E w.
Proof.
  revert b Q. induction ms as [|m ms IH]; intros b Q HQ; cbn [convert_all]; [wp_step; by apply HQ|].
  wp_step. apply wp_convert_to_memfd. intros b1 fd1. wp_step. apply wp_convert_to_memfd. intros b2 fd2.
  wp_step. apply IH. intros ms' Hms'. wp_step. apply HQ. cbn [map name]. by rewrite Hms'.
Qed.

(** The loop over the modules lists a prefix of the active ones. *)
Definition listed (zyg : bool) (es : Entries) (w : Store) : Prop :=
  ∃ rest, active_names zyg es = map name (modules w) ++ rest ∧ (all_succeed env → rest = []).

Lemma collect_loop zyg op w : NoDup (root w).*1 → modules w = [] →
  wp (for_each_module env (collect_module env partial new_fd lib32 lib64 zyg op))
    (λ _, listed zyg (root w)) (listed zyg (root w)) w.
Proof.
  intros Hd Hm. unfold for_each_module. set (es := root w).
  assert (∀ w' rest, active_names zyg es = map name (modules w') ++ rest → ¬ all_succeed env →
    listed zyg es w') as Herr by (intros w' rest E Ha; by exists rest).
  wp_step. apply wp_ask; [|intros Ha; eapply Herr; [|done]; by rewrite Hm]. do 3 wp_step.
  apply (wp_each _ (λ l w', NoDup l.*1 ∧ (∀ n e, (n, e) ∈ l → find n (root w') = Some e) ∧
    active_names zyg es = map name (modules w') ++ active_names zyg l)).
  - intros [n e] l w' (Hdl & Hf & Ha). cbn [fmap list_fmap fst snd] in *.
    apply NoDup_cons in Hdl as [Hn Hdl].
    assert (∀ w'', frame n w' w'' → ∀ m d, (m, d) ∈ l → find m (root w'') = Some d) as Hf'.
    { intros w'' Hfr m d Hin. rewrite Hfr; [apply Hf; by right|]. intros ->. apply Hn.
      apply list_elem_of_fmap. by exists (n, d). }
    wp_step. apply wp_ask; [|intros; by eapply Herr].
    assert (active_names zyg ((n, e) :: l) = match e with EDir c => if selected zyg n c then [n] else []
      | EOther => [] end ++ active_names zyg l) as Hcons by by destruct e.
    rewrite Hcons in Ha. destruct e as [c|]; [|wp_step; split_and!; [done|by apply Hf'|done]].
    case_bool_decide as Hcore.
    { wp_step. split_and!; [done|by apply Hf'|]. unfold selected in Ha.
      rewrite (bool_decide_true (n = bs ".core")) in Ha by done. exact Ha. }
    eapply wp_mono; [apply (collect_module_wp zyg op n c); [apply Hf; by left|done]| |].
    + intros [] w'' [Hfr Hms]. split_and!; [done|by apply Hf'|]. by rewrite Hms, <- app_assoc.
    + intros w'' (Hfr & Hms & Hna). eapply Herr; [|done]. by rewrite Hms.
  - intros w' (_ & _ & Ha). apply wp_ask; [|intros; by eapply Herr]. by exists [].
  - split_and!; [done|intros n e Hin; by apply find_elem|by rewrite Hm].
Qed.
End Collect.

(** C17: [collect_modules] always returns, and lists the modules that are directories,
    not marked for removal, not disabled, and compatible with the zygisk setting, in
    directory order, up to the first module a call fails on; when no call fails it
    lists them all.  So a disabled or removed module is never active. *)
Theorem collect_modules_active env partial new_fd lib32 lib64 zyg op w h :
  NoDup (root w).*1 →
  ∃ ms rest, result (collect_modules env partial new_fd lib32 lib64 zyg op w h) = Ok ms ∧
    active_names zyg (root w) = map name ms ++ rest ∧ (all_succeed env → rest = []).
Proof.
  intros Hd.
  assert (wp (collect_modules env partial new_fd lib32 lib64 zyg op)
    (λ ms _, ∃ rest, active_names zyg (root w) = map name ms ++ rest ∧ (all_succeed env → rest = []))
    (λ _, False) w) as H.
  2: { apply (wp_run _ _ _ _ h) in H. destruct (result _) as [ms| | |]; try done.
       destruct H as (rest & H). by exists ms, rest. }
  unfold collect_modules. do 4 wp_step. set (w0 := mkStore (root w) (upgrade w) []).
  assert (∀ w', listed env zyg (root w0) w' → wp (ms ← read modules;
      if zyg && op then convert_all env new_fd true ms else mret ms)
    (λ ms _, ∃ rest, active_names zyg (root w) = map name ms ++ rest ∧ (all_succeed env → rest = []))
    (λ _, False) w') as Hk.
  { intros w' (rest & Ha & Hr). do 2 wp_step. destruct (zyg && op); [|wp_step; by exists rest].
    apply wp_convert_all. intros ms' ->. by exists rest. }
  eapply wp_mono; [by apply collect_loop| |]; auto.
Qed.

Lemma collect_modules_active_witness :
  NoDup (root sample_store).*1 ∧
  ∃ ms rest, result (collect_modules (λ _ _, true) (λ c, c) (λ _, 5) None (Some (bs "zygisk/arm64-v8a.so"))
      false true sample_store []) = Ok ms ∧ [bs "b"] = map name ms ++ rest ∧ rest = [].
Proof.
  assert (NoDup (root sample_store).*1) as Hd by by_compute. split; [exact Hd|].
  destruct (collect_modules_active (λ _ _, true) (λ c, c) (λ _, 5) None (Some (bs "zygisk/arm64-v8a.so"))
    false true sample_store [] Hd) as (ms & rest & H1 & H2 & H3).
  exists ms, rest. split; [exact H1|]. split; [exact H2|]. by apply H3.
Defined.
