(* ===== verification/Argh.v ===== *)
(** Argh: command-line parsing, [native/src/base/argh.rs] ([parse_struct_args] and
    what it calls, [MissingRequirements]).

    The slots a derived parser hands over are data: a flag ([FlagV]), or a value
    slot of one of the three shapes with its parse function ([ValueSlot]).  Values of
    all types live in one type [V].  The parser of the chosen subcommand is a
    function of the command path and the arguments left. *)

From S2P Require Import Prelude Text.

(** [EarlyExit]. *)
Record EarlyExit := mkExit { output : bytes; is_help : bool }.
Definition early (msg : bytes) : EarlyExit := mkExit msg false.

Record CommandInfo := mkCommand { cmd_name_ : bytes; description : bytes }.

(** ** Flags and slots *)

(** The types that implement [Flag]; an integer comes with its largest value. *)
Inductive FlagV := FBool (b : bool) | FOpt (b : option bool) | FInt (max n : Z).

Definition set_flag (f : FlagV) : FlagV :=
  match f with
  | FBool _ => FBool true
  | FOpt _ => FOpt (Some true)
  | FInt max n => FInt max (Z.min max (n + 1))
  end.

Section Argh.
Context {V : Type}.

Inductive SlotV := One (o : option V) | Many (l : list V) | OptMany (o : option (list V)).

(** [ParseValueSlotTy]. *)
Record ValueSlot := mkSlot { slot : SlotV; parse_func : bytes → bytes → res bytes V }.

Definition with_slot (s : ValueSlot) (v : SlotV) : ValueSlot := mkSlot v (parse_func s).

Definition fill_slot (s : ValueSlot) (arg value : bytes) : res bytes ValueSlot :=
  match slot s with
  | One (Some _) => Err (bs "duplicate values provided")
  | One None => v ← parse_func s arg value; Ok (with_slot s (One (Some v)))
  | Many l => v ← parse_func s arg value; Ok (with_slot s (Many (l ++ [v])))
  | OptMany o => v ← parse_func s arg value; Ok (with_slot s (OptMany (Some (default [] o ++ [v]))))
  end.

(** [ParseStructOption]. *)
Inductive OptSlot := Flag (f : FlagV) | Value (s : ValueSlot).

(** The tables of a derived parser. *)
Record Spec := mkSpec {
  arg_to_slot : list (bytes * nat);
  help_triggers : list bytes;
  positional_names : list bytes;
  last_is_repeating : bool;
  last_is_greedy : bool;
  subcommands : option (list CommandInfo);
  sub_parse : list bytes → list bytes → res EarlyExit unit
}.

(** What parsing changes: option slots, positional slots, the index of the next
    positional, [help], [options_ended], and the subcommand that was run. *)
Record Parse := mkParse {
  slots : list OptSlot;
  positionals : list ValueSlot;
  index : nat;
  help : bool;
  options_ended : bool;
  chosen : option (list bytes * list bytes)
}.

Context (spec : Spec).

Fixpoint find_pos (arg : bytes) (table : list (bytes * nat)) : option nat :=
  match table with
  | [] => None
  | (name, pos) :: table => if bool_decide (name = arg) then Some pos else find_pos arg table
  end.

Definition quote : byte := Byte.x22.
Definition nl : bytes := [LF].

Definition unrecognized_argument (given : bytes) : bytes :=
  if bool_decide (map fst (arg_to_slot spec) ++ help_triggers spec = [])
  then bs "Unrecognized argument: " ++ [quote] ++ given ++ [quote] ++ nl
  else bs "Unrecognized argument: " ++ given ++ nl.

Definition unrecognized_arg (arg : bytes) : bytes := bs "Unrecognized argument: " ++ arg ++ nl.

(** [r.map_err(f)]. *)
Definition map_err {E F A} (f : E → F) (r : res E A) : res F A :=
  match r with
  | Ok a => Ok a
  | Err e => Err (f e)
  | Panic => Panic
  | NoFuel => NoFuel
  end.

(** [ParseStructOptions::parse]: the slots and the arguments left. *)
Definition parse_option (sl : list OptSlot) (arg : bytes) (remaining : list bytes) :
    res bytes (list OptSlot * list bytes) :=
  match find_pos arg (arg_to_slot spec) with
  | None => Err (unrecognized_argument arg)
  | Some pos =>
      match sl !! pos with
      | None => Panic
      | Some (Flag f) => Ok (<[pos := Flag (set_flag f)]> sl, remaining)
      | Some (Value s) =>
          match remaining with
          | [] => Err (bs "No value provided for option '" ++ arg ++ bs "'." ++ nl)
          | value :: remaining =>
              s ← map_err (λ e, bs "Error parsing option '" ++ arg ++ bs "' with value '" ++ value
                                ++ bs "': " ++ e ++ nl) (fill_slot s arg value);
              Ok (<[pos := Value s]> sl, remaining)
          end
      end
  end.

(** [ParseStructPositionals::parse]: the slots, the index and whether options end. *)
Definition parse_positional (ps : list ValueSlot) (index : nat) (arg : bytes) :
    res EarlyExit (list ValueSlot * nat * bool) :=
  match ps !! index with
  | Some s =>
      s ← map_err (λ e, early (bs "Error parsing positional argument '"
                               ++ default [] (positional_names spec !! index)
                               ++ bs "' with value '" ++ arg ++ bs "': " ++ e ++ nl))
            (fill_slot s [] arg);
      let ps := <[index := s]> ps in
      if last_is_repeating spec && bool_decide (index = length ps - 1)%nat
      then Ok (ps, index, last_is_greedy spec)
      else Ok (ps, S index, false)
  | None => Err (early (unrecognized_arg arg))
  end.

Definition prepend_help (args : list bytes) : list bytes := bs "help" :: args.

(** [ParseStructSubCommand::parse]: the command path and arguments it ran with. *)
Definition parse_subcommand (help : bool) (cmd_name : list bytes) (arg : bytes) (remaining : list bytes) :
    res EarlyExit (option (list bytes * list bytes)) :=
  match subcommands spec with
  | Some cmds =>
      if existsb (λ c, bool_decide (cmd_name_ c = arg)) cmds then
        let command := cmd_name ++ [arg] in
        let remaining := if help then prepend_help remaining else remaining in
        _ ← sub_parse spec command remaining;
        Ok (Some (command, remaining))
      else Ok None
  | None => Ok None
  end.

Definition help_exit : EarlyExit := mkExit [] true.
Definition trailing : EarlyExit := early (bs "Trailing arguments are not allowed after `help`.").

Definition finish_parse (p : Parse) : res EarlyExit Parse := if help p then Err help_exit else Ok p.

Fixpoint parse_args (fuel : nat) (cmd_name args : list bytes) (p : Parse) : res EarlyExit Parse :=
  match fuel with
  | O => NoFuel
  | S fuel =>
      match args with
      | [] => finish_parse p
      | next_arg :: remaining =>
          if bool_decide (next_arg ∈ help_triggers spec) && negb (options_ended p) then
            parse_args fuel cmd_name remaining
              (mkParse (slots p) (positionals p) (index p) true (options_ended p) (chosen p))
          else if starts_with (bs "-") next_arg && negb (options_ended p) then
            if bool_decide (next_arg = bs "--") then
              parse_args fuel cmd_name remaining
                (mkParse (slots p) (positionals p) (index p) (help p) true (chosen p))
            else if help p then Err trailing
            else
              '(sl, remaining) ← map_err early (parse_option (slots p) next_arg remaining);
              parse_args fuel cmd_name remaining
                (mkParse sl (positionals p) (index p) (help p) (options_ended p) (chosen p))
          else
            sub ← parse_subcommand (help p) cmd_name next_arg remaining;
            match sub with
            | Some run => Ok (mkParse (slots p) (positionals p) (index p) false (options_ended p) (Some run))
            | None =>
                '(ps, index, ended) ← parse_positional (positionals p) (index p) next_arg;
                parse_args fuel cmd_name remaining
                  (mkParse (slots p) ps index (help p) (options_ended p || ended) (chosen p))
            end
      end
  end.

Definition parse_struct_args (cmd_name args : list bytes) (sl : list OptSlot) (ps : list ValueSlot) :
    res EarlyExit Parse :=
  parse_args (S (length args)) cmd_name args (mkParse sl ps 0 false false None).
End Argh.
Arguments OptSlot : clear implicits.
Arguments ValueSlot : clear implicits.
Arguments SlotV : clear implicits.
Arguments Parse : clear implicits.

(** ** Missing arguments *)

Record MissingRequirements := mkMissing {
  m_options : list bytes;
  m_subcommands : option (list CommandInfo);
  m_positional_args : list bytes
}.

Definition NEWLINE_INDENT : bytes := LF :: bs "    ".

Definition indented (names : list bytes) : bytes := flat_map (λ n, NEWLINE_INDENT ++ n) names.

Definition err_on_any (m : MissingRequirements) : res bytes unit :=
  match m_options m, m_subcommands m, m_positional_args m with
  | [], None, [] => Ok tt
  | opts, subs, poss =>
      Err ((if nonempty_list poss
            then bs "Required positional arguments not provided:" ++ indented poss else [])
        ++ (if nonempty_list opts
            then (if nonempty_list poss then [LF] else []) ++ bs "Required options not provided:" ++ indented opts
            else [])
        ++ match subs with
           | Some cmds =>
               (if nonempty_list opts then [LF] else [])
               ++ bs "One of the following subcommands must be present:"
               ++ NEWLINE_INDENT ++ bs "help" ++ indented (map cmd_name_ cmds)
           | None => []
           end
        ++ [LF])
  end.

(** ** Command lines

    A command line as a list of options and positionals. *)

Inductive Item := IFlag (name : bytes) | IOption (name value : bytes) | IPos (value : bytes).

Definition render (i : Item) : list bytes :=
  match i with
  | IFlag n => [n]
  | IOption n v => [n; v]
  | IPos v => [v]
  end.

Definition pos_values (items : list Item) : list bytes :=
  omap (λ i, match i with IPos v => Some v | _ => None end) items.

Section Lines.
Context {V : Type} (spec : Spec).

(** A name that is parsed as an option. *)
Definition option_name (n : bytes) : bool :=
  starts_with (bs "-") n && negb (bool_decide (n = bs "--")) && negb (bool_decide (n ∈ help_triggers spec)).
(** A word that is parsed as a positional. *)
Definition plain (v : bytes) : bool :=
  negb (starts_with (bs "-") v) && negb (bool_decide (v ∈ help_triggers spec)).

(** Options are known, values parse, and a slot for one value gets at most one. *)
Fixpoint valid (items : list Item) (sl : list (OptSlot V)) : bool :=
  match items with
  | [] => true
  | IPos v :: items => plain v && valid items sl
  | IFlag n :: items =>
      option_name n &&
      match find_pos n (arg_to_slot spec) with
      | Some pos =>
          match sl !! pos with
          | Some (Flag f) => valid items (<[pos := Flag (set_flag f)]> sl)
          | _ => false
          end
      | None => false
      end
  | IOption n v :: items =>
      option_name n &&
      match find_pos n (arg_to_slot spec) with
      | Some pos =>
          match sl !! pos with
          | Some (Value s) =>
              match fill_slot s n v with
              | Ok s => valid items (<[pos := Value s]> sl)
              | _ => false
              end
          | _ => false
          end
      | None => false
      end
  end.

(** The occurrences of a slot's options, in order. *)
Definition names_slot (pos : nat) (i : Item) : bool :=
  match i with
  | IFlag n | IOption n _ => bool_decide (find_pos n (arg_to_slot spec) = Some pos)
  | IPos _ => false
  end.

Definition push_value (x : V) (s : SlotV V) : SlotV V :=
  match s with
  | One _ => One (Some x)
  | Many l => Many (l ++ [x])
  | OptMany o => OptMany (Some (default [] o ++ [x]))
  end.

(** A slot after one occurrence. *)
Definition give (s : OptSlot V) (i : Item) : OptSlot V :=
  match s, i with
  | Flag f, IFlag _ => Flag (set_flag f)
  | Value s, IOption n v =>
      match parse_func s n v with
      | Ok x => Value (with_slot s (push_value x (slot s)))
      | _ => Value s
      end
  | s, _ => s
  end.

(** Every slot holds the values of its options. *)
Definition given (items : list Item) (sl : list (OptSlot V)) : list (OptSlot V) :=
  imap (λ pos s, foldl give s (List.filter (names_slot pos) items)) sl.

(** The positionals one after the other. *)
Fixpoint parse_positionals (ps : list (ValueSlot V)) (index : nat) (vs : list bytes) :
    res EarlyExit (list (ValueSlot V) * nat) :=
  match vs with
  | [] => Ok (ps, index)
  | v :: vs =>
      '(ps, index, _) ← parse_positional spec ps index v;
      parse_positionals ps index vs
  end.

Lemma given_cons i items sl pos s : names_slot pos i = true → (∀ q, q ≠ pos → names_slot q i = false) →
  sl !! pos = Some s → given (i :: items) sl = given items (<[pos := give s i]> sl).
Proof.
  intros Hn Hq Hs. apply list_eq. intros q. unfold given. rewrite !list_lookup_imap. cbn [List.filter].
  destruct (decide (q = pos)) as [->|Hqp].
  - rewrite Hn. cbn [foldl]. rewrite list_lookup_insert_eq by by eapply lookup_lt_Some. by rewrite Hs.
  - rewrite Hq by done. by rewrite list_lookup_insert_ne.
Qed.

Lemma names_slot_unique n pos : find_pos n (arg_to_slot spec) = Some pos →
  bool_decide (find_pos n (arg_to_slot spec) = Some pos) = true ∧
  ∀ q, q ≠ pos → bool_decide (find_pos n (arg_to_slot spec) = Some q) = false.
Proof.
  intros E. rewrite E. split; [by apply bool_decide_true|]. intros q Hq. apply bool_decide_false. congruence.
Qed.

Lemma fill_slot_push s n v s' : fill_slot (V:=V) s n v = Ok s' →
  ∃ x, parse_func s n v = Ok x ∧ s' = with_slot s (push_value x (slot s)).
Proof.
  unfold fill_slot. destruct s as [[[y|]|l|o] pf]; cbn [slot parse_func]; intros E;
    [done|..]; inv_bind; eexists; (split; [done|]); by simplify_eq.
Qed.

Lemma parse_option_flag sl n remaining pos f : find_pos n (arg_to_slot spec) = Some pos →
  sl !! pos = Some (Flag f) → parse_option spec sl n remaining = Ok (<[pos := Flag (V:=V) (set_flag f)]> sl, remaining).
Proof. intros E Es. unfold parse_option. by rewrite E, Es. Qed.

Lemma parse_option_value sl n v remaining pos s s' : find_pos n (arg_to_slot spec) = Some pos →
  sl !! pos = Some (Value s) → fill_slot s n v = Ok s' →
  parse_option spec sl n (v :: remaining) = Ok (<[pos := Value (V:=V) s']> sl, remaining).
Proof. intros E Es Ef. unfold parse_option. by rewrite E, Es, Ef. Qed.

Lemma parse_option_len sl arg remaining sl' rem :
  parse_option (V:=V) spec sl arg remaining = Ok (sl', rem) → (length rem ≤ length remaining)%nat.
Proof.
  unfold parse_option. destruct (find_pos arg _) as [pos|]; [|done].
  destruct (sl !! pos) as [[f|s]|]; [|destruct remaining as [|v remaining]|]; intros E; try done.
  - by simplify_eq.
  - inv_bind. simplify_eq. cbn. lia.
Qed.

(** More fuel changes nothing. *)
Lemma parse_args_mono fuel fuel' cmd args p : (length args < fuel)%nat → (length args < fuel')%nat →
  parse_args (V:=V) spec fuel cmd args p = parse_args spec fuel' cmd args p.
Proof.
  revert fuel' args p. induction fuel as [|fuel IH]; intros [|fuel'] args p H H'; try lia.
  destruct args as [|a args]; [done|]. cbn [length] in *. cbn [parse_args].
  destruct (_ && _); [apply IH; lia|]. destruct (_ && _).
  - case_bool_decide; [apply IH; lia|]. destruct (help p); [done|].
    destruct (parse_option spec (slots p) a args) as [[sl rem]| | |] eqn:E; try done. cbn [map_err mbind res_bind].
    apply parse_option_len in E. apply IH; lia.
  - destruct (parse_subcommand spec (help p) cmd a args) as [[r|]| | |]; try done. cbn [mbind res_bind].
    destruct (parse_positional spec _ _ a) as [[[ps i] e]| | |]; try done. apply IH; lia.
Qed.

Definition run (cmd args : list bytes) (p : Parse V) : res EarlyExit (Parse V) :=
  parse_args spec (S (length args)) cmd args p.

Lemma run_option cmd sl ps i n remaining sl' rem :
  option_name n = true → parse_option spec sl n remaining = Ok (sl', rem) →
  run cmd (n :: remaining) (mkParse sl ps i false false None) = run cmd rem (mkParse sl' ps i false false None).
Proof.
  unfold option_name. intros [[H1 H2]%andb_prop H3]%andb_prop E. unfold run at 1.
  remember (length (n :: remaining)) as k eqn:Hk. cbn [length] in Hk. apply negb_true_iff in H2, H3. cbn [parse_args slots positionals index help options_ended chosen].
  rewrite H3, H1, H2, E. cbn [andb negb map_err mbind res_bind].
  apply parse_option_len in E. unfold run. apply parse_args_mono; lia.
Qed.

Lemma run_pos cmd sl ps i v remaining :
  plain v = true → last_is_greedy spec = false → subcommands spec = None →
  run cmd (v :: remaining) (mkParse sl ps i false false None) =
  '(ps, i, _) ← parse_positional spec ps i v;
  run cmd remaining (mkParse sl ps i false false None).
Proof.
  unfold plain. intros [H1 H2]%andb_prop Hg Hs. unfold run at 1.
  remember (length (v :: remaining)) as k eqn:Hk. cbn [length] in Hk. apply negb_true_iff in H1, H2. cbn [parse_args slots positionals index help options_ended chosen].
  rewrite H2, H1. cbn [andb]. unfold parse_subcommand. rewrite Hs. cbn [mbind res_bind].
  destruct (parse_positional spec ps i v) as [[[ps' i'] e]| | |] eqn:E; [|done..].
  cbn [mbind res_bind orb]. replace e with false; [unfold run; apply parse_args_mono; lia|]. unfold parse_positional in E.
  destruct (ps !! i); [|done]. inv_bind. destruct (_ && _); by simplify_eq.
Qed.

Lemma given_nil sl : given [] sl = sl.
Proof. apply list_eq. intros q. unfold given. rewrite list_lookup_imap. by destruct (sl !! q). Qed.

Lemma run_items items rest cmd sl ps i :
  last_is_greedy spec = false → subcommands spec = None → valid items sl = true →
  run cmd (flat_map render items ++ rest) (mkParse sl ps i false false None) =
  '(ps, i) ← parse_positionals ps i (pos_values items);
  run cmd rest (mkParse (given items sl) ps i false false None).
Proof.
  intros Hg Hs. revert sl ps i. induction items as [|it items IH]; intros sl ps i Hv.
  { rewrite given_nil. done. }
  destruct it as [n|n v|v]; cbn [flat_map render app valid pos_values omap list_omap parse_positionals] in *;
    apply andb_prop in Hv as [Ho Hv].
  - destruct (find_pos n _) as [pos|] eqn:E; [|done]. destruct (sl !! pos) as [[f|]|] eqn:Es; try done.
    rewrite (run_option _ _ _ _ _ _ _ _ Ho (parse_option_flag _ _ _ _ _ E Es)), IH by done.
    destruct (names_slot_unique n pos E). rewrite (given_cons (IFlag n) items sl pos (Flag f)) by done. done.
  - destruct (find_pos n _) as [pos|] eqn:E; [|done]. destruct (sl !! pos) as [[|s]|] eqn:Es; try done.
    destruct (fill_slot s n v) as [s'| | |] eqn:Ef; try done.
    rewrite (run_option _ _ _ _ _ _ _ _ Ho (parse_option_value _ _ _ _ _ _ _ E Es Ef)), IH by done.
    destruct (names_slot_unique n pos E). destruct (fill_slot_push _ _ _ _ Ef) as (x & Ex & ->).
    rewrite (given_cons (IOption n v) items sl pos (Value s)) by done. cbn [give]. by rewrite Ex.
  - rewrite run_pos by done. fold (pos_values items). 
    destruct (parse_positional spec ps i v) as [[[ps' i'] e]| | |]; [|done..]. cbn [mbind res_bind].
    by rewrite IH.
Qed.

Lemma parse_positionals_app ps i vs ws :
  parse_positionals ps i (vs ++ ws) =
  '(ps, i) ← parse_positionals ps i vs; parse_positionals ps i ws.
Proof.
  revert ps i. induction vs as [|v vs IH]; intros ps i; [done|]. cbn [app parse_positionals].
  destruct (parse_positional spec ps i v) as [[[ps' i'] e]| | |]; [|done..]. apply IH.
Qed.

Lemma run_dashes rest cmd sl ps i : bs "--" ∉ help_triggers spec →
  run cmd (bs "--" :: rest) (mkParse sl ps i false false None) = run cmd rest (mkParse sl ps i false true None).
Proof.
  intros Hh. unfold run at 1. remember (length (bs "--" :: rest)) as k eqn:Hk. cbn [length] in Hk.
  cbn [parse_args slots positionals index help options_ended chosen].
  rewrite (bool_decide_false (bs "--" ∈ help_triggers spec)) by done. cbn [andb]. subst k. done.
Qed.

(** After [--] everything is positional. *)
Lemma run_rest rest cmd sl ps i : subcommands spec = None →
  run cmd rest (mkParse sl ps i false true None) =
  '(ps, i) ← parse_positionals ps i rest; Ok (mkParse sl ps i false true None).
Proof.
  intros Hs. revert ps i. induction rest as [|v rest IH]; intros ps i; [done|]. unfold run in *.
  cbn [length]. remember (S (length rest)) as k eqn:Hk.
  cbn [parse_args slots positionals index help options_ended chosen parse_positionals].
  rewrite !andb_false_r. unfold parse_subcommand. rewrite Hs. cbn [mbind res_bind].
  destruct (parse_positional spec ps i v) as [[[ps' i'] e]| | |]; [|done..]. cbn [mbind res_bind orb]. apply IH.
Qed.
End Lines.

(** A command line of known options with values that parse, and of words, in any
    order, and optionally a part after [--]: parsing never runs out of arguments; each
    option slot holds the values its options gave, in order; and the positional slots
    are those of the words alone, so options and words do not disturb one another. *)
Theorem parse_struct_args_collects {V} (spec : Spec) cmd items rest (sl : list (OptSlot V)) ps :
  last_is_greedy spec = false → subcommands spec = None → valid spec items sl = true →
  bs "--" ∉ help_triggers spec →
  parse_struct_args spec cmd (flat_map render items ++ bs "--" :: rest) sl ps =
  ('(ps, i) ← parse_positionals spec ps 0 (pos_values items ++ rest);
   Ok (mkParse (given spec items sl) ps i false true None)) ∧
  parse_struct_args spec cmd (flat_map render items) sl ps =
  ('(ps, i) ← parse_positionals spec ps 0 (pos_values items);
   Ok (mkParse (given spec items sl) ps i false false None)).
Proof.
  intros Hg Hs Hv Hh. unfold parse_struct_args.
  fold (run spec cmd (flat_map render items ++ bs "--" :: rest) (mkParse sl ps 0 false false None)).
  fold (run spec cmd (flat_map render items) (mkParse sl ps 0 false false None)).
  rewrite <- (app_nil_r (flat_map render items)) at 2. rewrite !run_items by done. split.
  - rewrite parse_positionals_app. destruct (parse_positionals spec ps 0 (pos_values items)) as [[ps' i']| | |]; [|done..].
    cbn [mbind res_bind]. rewrite run_dashes by done. by apply run_rest.
  - done.
Qed.

(** Two options and a list of words. *)
Definition sample_spec : Spec :=
  mkSpec [(bs "--live", 0%nat); (bs "--load", 1%nat); (bs "-l", 1%nat); (bs "--apply", 2%nat)]
    [bs "-h"; bs "--help"] [bs "rules"] true false None (λ _ _, Ok tt).
Definition sample_slots : list (OptSlot bytes) :=
  [Flag (FBool false); Value (mkSlot (One None) (λ _ v, Ok v)); Value (mkSlot (Many []) (λ _ v, Ok v))].

Lemma parse_struct_args_collects_witness :
  ∃ p, parse_struct_args sample_spec [] [bs "--apply"; bs "x"; bs "r1"; bs "-l"; bs "f"; bs "--live"; bs "--apply";
      bs "y"; bs "--"; bs "-r2"] sample_slots [mkSlot (Many []) (λ _ v, Ok v)] = Ok p ∧
    map (λ s, match s with Value s => slot s | Flag _ => Many [] end) (slots p)
      = [Many []; One (Some (bs "f")); Many [bs "x"; bs "y"]] ∧
    map slot (positionals p) = [Many [bs "r1"; bs "-r2"]].
Proof.
  destruct (parse_struct_args_collects sample_spec []
    [IOption (bs "--apply") (bs "x"); IPos (bs "r1"); IOption (bs "-l") (bs "f"); IFlag (bs "--live");
     IOption (bs "--apply") (bs "y")] [bs "-r2"] sample_slots [mkSlot (Many []) (λ _ v, Ok v)]) as [H _].
  - reflexivity.
  - reflexivity.
  - reflexivity.
  - by_compute.
  - eexists. split; [etransitivity; [exact H|]; reflexivity|]. by split.
Defined.

(** Missing positionals and subcommands without a missing option: the two headings
    run together on one line. *)
Theorem err_on_any_runs_together p cs :
  ∃ tail, err_on_any (mkMissing [] (Some cs) [p]) =
    Err (bs "Required positional arguments not provided:" ++ NEWLINE_INDENT ++ p
         ++ bs "One of the following subcommands must be present:" ++ tail).
Proof.
  eexists. cbn [err_on_any m_options m_subcommands m_positional_args nonempty_list indented flat_map].
  rewrite app_nil_r, !app_nil_l, <- !app_assoc. reflexivity.
Qed.
