(* ===== verification/Help.v ===== *)
(** Help: the list of subcommands with their descriptions, [print_subcommands] and
    [write_description] of [native/src/base/argh.rs]. *)

From S2P Require Import Prelude Text Argh.

Definition INDENT : bytes := bs "  ".
Definition DESCRIPTION_INDENT : nat := 20.
Definition WRAP_WIDTH : nat := 80.

(** The characters of a string: its bytes that do not continue one. *)
Definition char_len (s : bytes) : nat := length (List.filter (λ b, negb (is_cont b)) s).

(** The line is ended and begun anew. *)
Definition new_line (current_line out : bytes) : bytes * bytes := ([], out ++ LF :: current_line).

Definition spaces (n : nat) : bytes := replicate n Byte.x20.
Definition indent_description (line : bytes) : bytes * bool :=
  let cur_len := char_len line in
  if (cur_len <? DESCRIPTION_INDENT)%nat then (line ++ spaces (DESCRIPTION_INDENT - cur_len), true)
  else (line, false).

(** The rest of the words, after the first one of a line was pushed. *)
Fixpoint push_words (words : list bytes) (current_line out : bytes) : bytes :=
  match words with
  | [] => (new_line current_line out).2
  | word :: words =>
      if (WRAP_WIDTH <? char_len current_line + char_len word + 1)%nat then
        let '(current_line, out) := new_line current_line out in
        push_words words ((indent_description current_line).1 ++ word) out
      else push_words words (current_line ++ bs " " ++ word) out
  end.

Definition write_description (out : bytes) (cmd : CommandInfo) : bytes :=
  let current_line := INDENT ++ cmd_name_ cmd in
  if bool_decide (description cmd = []) then (new_line current_line out).2
  else
    let '(current_line, indented) := indent_description current_line in
    let '(current_line, out) := if indented then (current_line, out) else new_line current_line out in
    match split_on Byte.x20 (description cmd) with
    | first_word :: words => push_words words ((indent_description current_line).1 ++ first_word) out
    | [] => (new_line current_line out).2
    end.

Definition print_subcommands (commands : list CommandInfo) : bytes := foldl write_description [] commands.

Example wrapped :
  write_description [] (mkCommand (bs "add") (bs "Add a file to the archive, the mode given in octal digits as in chmod and the rest unchanged")) =
  [LF] ++ bs "  add               Add a file to the archive, the mode given in octal digits as" ++
  [LF] ++ bs "                    in chmod and the rest unchanged".
Proof. vm_compute. reflexivity. Qed.

(** ** Wrapping *)

Lemma char_len_app s t : char_len (s ++ t) = (char_len s + char_len t)%nat.
Proof. unfold char_len. by rewrite List.filter_app, length_app. Qed.

Lemma char_len_spaces n : char_len (spaces n) = n.
Proof. unfold char_len, spaces. induction n as [|n IH]; [done|]. cbn. by rewrite IH. Qed.

(** The lines of a text: words side by side, behind something or behind the margin. *)
Definition margin : bytes := spaces DESCRIPTION_INDENT.
Definition line_of (pre : bytes) (g : list bytes) : bytes := pre ++ join (bs " ") g.

(** A line is within the width, unless it has one word only. *)
Definition within (pre : bytes) (g : list bytes) : Prop :=
  g ≠ [] ∧ ((2 ≤ length g)%nat → (char_len (line_of pre g) ≤ WRAP_WIDTH)%nat).

(** No word would have fitted on the line before. *)
Fixpoint tight (pre : bytes) (g : list bytes) (gs : list (list bytes)) : Prop :=
  match gs with
  | [] => True
  | g' :: gs =>
      (WRAP_WIDTH < char_len (line_of pre g) + char_len (hd [] g') + 1)%nat ∧ tight margin g' gs
  end.

Definition text_lines (pre : bytes) (g : list bytes) (gs : list (list bytes)) : bytes :=
  LF :: line_of pre g ++ flat_map (λ g, LF :: line_of margin g) gs.

Lemma join_word_snoc g w : g ≠ [] → join (bs " ") (g ++ [w]) = join (bs " ") g ++ bs " " ++ w.
Proof.
  induction g as [|x [|y g] IH]; intros Hg; [done|done|].
  change (join (bs " ") ((x :: y :: g) ++ [w])) with (x ++ bs " " ++ join (bs " ") ((y :: g) ++ [w])).
  rewrite IH by done. change (join (bs " ") (x :: y :: g)) with (x ++ bs " " ++ join (bs " ") (y :: g)).
  by rewrite <- !app_assoc.
Qed.

Lemma push_words_wraps words pre g out : within pre g →
  ∃ g' gs, g ++ words = g' ++ concat gs ∧
    push_words words (line_of pre g) out = out ++ text_lines pre g' gs ∧
    within pre g' ∧ Forall (within margin) gs ∧ tight pre g' gs ∧ hd [] g' = hd [] g.
Proof.
  revert pre g out. induction words as [|w words IH]; intros pre g out Hg; cbn [push_words].
  - exists g, []. unfold text_lines. cbn. rewrite !app_nil_r. done.
  - destruct (Nat.ltb_spec WRAP_WIDTH (char_len (line_of pre g) + char_len w + 1)) as [Hlong|Hfit].
    + cbn [new_line]. change ((indent_description []).1 ++ w) with (line_of margin [w]).
      destruct (IH margin [w] (out ++ LF :: line_of pre g)) as (g' & gs & E & -> & Hw & Hgs & Ht & Hh).
      { split; [done|]. cbn. lia. }
      exists g, (g' :: gs). cbn [concat flat_map tight]. rewrite <- E. cbn [app]. split; [done|]. split; [|split_and!].
      * unfold text_lines. cbn [flat_map]. by rewrite <- !app_assoc.
      * done.
      * by constructor.
      * rewrite Hh. cbn [hd]. lia.
      * done.
      * done.
    + assert (line_of pre g ++ bs " " ++ w = line_of pre (g ++ [w])) as ->.
      { unfold line_of. rewrite join_word_snoc by apply Hg. by rewrite <- !app_assoc. }
      destruct (IH pre (g ++ [w]) out) as (g' & gs & E & -> & Hw & Hgs & Ht & Hh).
      { split; [by destruct g|]. intros _. unfold line_of in *. rewrite join_word_snoc by apply Hg.
        rewrite !char_len_app in *. cbn [char_len List.filter] in *.
        change (char_len (bs " ")) with 1%nat. lia. }
      exists g', gs. rewrite <- E, <- app_assoc. split_and!; try done.
      rewrite Hh. by destruct g; [destruct Hg|].
Qed.

(** Where the text of a command begins: beside a short name, below a long one. *)
Definition beside (name : bytes) : bool := (char_len (INDENT ++ name) <? DESCRIPTION_INDENT)%nat.
Definition first_margin (name : bytes) : bytes :=
  if beside name then INDENT ++ name ++ spaces (DESCRIPTION_INDENT - char_len (INDENT ++ name)) else margin.

Lemma first_margin_width name : char_len (first_margin name) = DESCRIPTION_INDENT.
Proof.
  unfold first_margin, beside. destruct (Nat.ltb_spec (char_len (INDENT ++ name)) DESCRIPTION_INDENT) as [H|H].
  - rewrite app_assoc, char_len_app, char_len_spaces. unfold DESCRIPTION_INDENT in *. lia.
  - apply char_len_spaces.
Qed.

Lemma indent_idle line : char_len line = DESCRIPTION_INDENT → (indent_description line).1 = line.
Proof. intros H. unfold indent_description. rewrite H. by rewrite (proj2 (Nat.ltb_ge _ _)). Qed.

(** The words of a description come out in order, spaces and all, on lines that begin at
    the margin; no line is wider than the terminal unless a single word is, and none is ended
    before a word that would have fitted; a name that reaches the margin has a line of its own. *)
Theorem description_wrapped out cmd :
  description cmd ≠ [] →
  ∃ g gs,
    join (bs " ") (concat (g :: gs)) = description cmd ∧
    write_description out cmd =
      out ++ (if beside (cmd_name_ cmd) then [] else LF :: INDENT ++ cmd_name_ cmd) ++
      text_lines (first_margin (cmd_name_ cmd)) g gs ∧
    within (first_margin (cmd_name_ cmd)) g ∧ Forall (within margin) gs ∧ tight (first_margin (cmd_name_ cmd)) g gs.
Proof.
  intros Hd. set (name := cmd_name_ cmd). pose proof (first_margin_width name) as Hwidth.
  unfold write_description. rewrite bool_decide_false by done. fold name.
  destruct (split_on Byte.x20 (description cmd)) as [|w words] eqn:Es; [by apply split_on_nonempty in Es|].
  assert (∀ out, ∃ g gs, join (bs " ") (concat (g :: gs)) = description cmd ∧
      push_words words (first_margin name ++ w) out = out ++ text_lines (first_margin name) g gs ∧
      within (first_margin name) g ∧ Forall (within margin) gs ∧ tight (first_margin name) g gs) as Hrest.
  { intros out'. destruct (push_words_wraps words (first_margin name) [w] out') as (g & gs & E & Ep & Hw & Hgs & Ht & _).
    { split; [done|]. cbn. lia. }
    exists g, gs. cbn [concat]. rewrite <- E. cbn [app]. rewrite <- Es. split_and!; try done. apply join_split_on. }
  unfold indent_description at 1. unfold beside at 1.
  destruct (Nat.ltb_spec (char_len (INDENT ++ name)) DESCRIPTION_INDENT) as [Hs|Hs]; cbn [new_line].
  - assert ((INDENT ++ name) ++ spaces (DESCRIPTION_INDENT - char_len (INDENT ++ name)) = first_margin name) as ->.
    { unfold first_margin, beside. rewrite (proj2 (Nat.ltb_lt _ _)) by done. by rewrite <- app_assoc. }
    rewrite indent_idle by done. apply Hrest.
  - assert ((indent_description []).1 = first_margin name) as ->.
    { unfold first_margin, beside. by rewrite (proj2 (Nat.ltb_ge _ _)) by done. }
    destruct (Hrest (out ++ LF :: INDENT ++ name)) as (g & gs & Hj & Ep & Hw & Hgs & Ht).
    exists g, gs. split_and!; try done. rewrite Ep. by rewrite <- !app_assoc.
Qed.

Lemma description_wrapped_witness :
  ∃ g gs,
    join (bs " ") (concat (g :: gs)) = bs "Print the version" ∧
    write_description [] (mkCommand (bs "-v") (bs "Print the version")) = text_lines (bs "  -v                ") g gs ∧
    within (bs "  -v                ") g ∧ Forall (within margin) gs ∧ tight (bs "  -v                ") g gs.
Proof. exact (description_wrapped [] (mkCommand (bs "-v") (bs "Print the version")) ltac:(discriminate)). Defined.
