(* ===== verification/Derive.v ===== *)
(** Derive: the [FromArgs] derive macro, [native/src/base/derive/argh/] ([parse_attrs.rs],
    [errors.rs], [mod.rs]).

    The macro runs on a syntax tree and emits an implementation of [FromArgs]; both
    halves are modelled.  The syntax tree ([Meta], [Attribute], [Ty], [RawField]) is what
    the parser package hands over, without its spans.  Errors are collected as messages;
    any of them fails the build.  The emitted [from_args] is a function of the fields
    ([from_args]), built on the parser of [Argh].

    What depends on Unicode tables ([is_lowercase], [is_alphanumeric] of a character
    beyond ASCII) is a parameter, and so is the message of the parser package for a
    list that is not two arguments, and whether a [default] string lexes. *)

From S2P Require Import Prelude Text Argh.

(** ** Syntax *)

Inductive Lit :=
  | LStr (s : bytes)
  | LChar (c : bytes)
  | LInt (digits : bytes)
  | LOther (kind : bytes).

Inductive Expr := ELit (l : Lit) | EPath (ident : bytes) | EOther.

(** [syn::Meta]; of a list the arguments, as expressions and as the path of a function,
    or the message of the parser package. *)
Inductive Meta :=
  | Path (name : bytes)
  | MList (name : bytes) (args : bytes + list Expr) (as_path : bytes + bytes)
  | NameValue (name : bytes) (value : Expr).

Definition meta_name (m : Meta) : bytes :=
  match m with Path n => n | MList n _ _ => n | NameValue n _ => n end.

(** An attribute: a doc comment line, or [#[argh(...)]] with its items or the message of
    the parser package; [#[doc]] and [#[argh]] of another form, with the form's name. *)
Inductive Attribute :=
  | Doc (value : Expr)
  | DocNoValue (kind : bytes)
  | Argh (metas : bytes + list Meta)
  | ArghNoList (kind : bytes)
  | OtherAttr.

(** A path: each segment with its arguments in angle brackets, if it has any; an argument
    that is not a type is [None]. *)
Inductive Ty := TPath (qself : bool) (segments : list (bytes * option (list (option Ty)))) | TOther.

(** ** Errors: [errors.rs]

    A run of the macro: the errors so far; a panic of the macro fails the build too. *)

Definition M (A : Type) : Type := list bytes → list bytes * LoggedResult A.
#[global] Instance M_ret : MRet M := λ A a es, (es, Ok a).
#[global] Instance M_bind : MBind M := λ A B f m es,
  match m es with
  | (es, Ok a) => f a es
  | (es, Err e) => (es, Err e)
  | (es, Panic) => (es, Panic)
  | (es, NoFuel) => (es, NoFuel)
  end.

Definition err (msg : bytes) : M unit := λ es, (es ++ [msg], Ok tt).
Definition panic {A} : M A := λ es, (es, Panic).

Definition duplicate_attrs (kind : bytes) : M unit :=
  _ ← err (bs "Duplicate " ++ kind ++ bs " attribute");
  err (bs "First " ++ kind ++ bs " attribute here").

Definition lit_kind (l : Lit) : bytes :=
  match l with
  | LStr _ => bs "string" | LChar _ => bs "character" | LInt _ => bs "integer" | LOther k => k
  end.

Definition unexpected_lit (expected : bytes) (found : Expr) : M unit :=
  match found with
  | ELit l => err (bs "Expected " ++ expected ++ bs " literal, found " ++ lit_kind l ++ bs " literal")
  | _ => err (bs "Expected " ++ expected ++ bs " literal, found non-literal expression.")
  end.

Definition expect_lit_str (e : Expr) : M (option bytes) :=
  match e with
  | ELit (LStr s) => mret (Some s)
  | _ => _ ← unexpected_lit (bs "string") e; mret None
  end.
Definition expect_lit_char (e : Expr) : M (option bytes) :=
  match e with
  | ELit (LChar c) => mret (Some c)
  | _ => _ ← unexpected_lit (bs "character") e; mret None
  end.
Definition expect_lit_int (e : Expr) : M (option bytes) :=
  match e with
  | ELit (LInt d) => mret (Some d)
  | _ => _ ← unexpected_lit (bs "integer") e; mret None
  end.

Definition meta_kind (m : Meta) : bytes :=
  match m with Path _ => bs "path" | MList _ _ _ => bs "list" | NameValue _ _ => bs "name-value pair" end.

Definition unexpected_meta (expected : bytes) (found : bytes) : M unit :=
  err (bs "Expected " ++ expected ++ bs " attribute, found " ++ found ++ bs " attribute").

Definition expect_meta_word (m : Meta) : M (option bytes) :=
  match m with
  | Path n => mret (Some n)
  | _ => _ ← unexpected_meta (bs "path") (meta_kind m); mret None
  end.
Definition expect_meta_list (m : Meta) : M (option ((bytes + list Expr) * (bytes + bytes))) :=
  match m with
  | MList _ args p => mret (Some (args, p))
  | _ => _ ← unexpected_meta (bs "list") (meta_kind m); mret None
  end.
Definition expect_meta_name_value (m : Meta) : M (option Expr) :=
  match m with
  | NameValue _ e => mret (Some e)
  | _ => _ ← unexpected_meta (bs "name-value pair") (meta_kind m); mret None
  end.

(** [if let Some(x) = m { f(x) }]. *)
Definition on_some {A S} (s : S) (m : M (option A)) (f : A → M S) : M S :=
  o ← m; match o with Some a => f a | None => mret s end.

(** ** Characters *)

(** The characters of a string, each as its bytes. *)
Fixpoint chars_from (cur : bytes) (s : bytes) : list bytes :=
  match s with
  | [] => match cur with [] => [] | _ => [cur] end
  | b :: s => if is_cont b then chars_from (cur ++ [b]) s
              else match cur with [] => chars_from [b] s | _ => cur :: chars_from [b] s end
  end.
Definition chars (s : bytes) : list bytes := chars_from [] s.

Definition ascii_lower (c : bytes) : bool := match c with [b] => in_range 0x61 0x7A b | _ => false end.
Definition ascii_upper (c : bytes) : bool := match c with [b] => in_range 0x41 0x5A b | _ => false end.
Definition ascii_digit (c : bytes) : bool := match c with [b] => in_range 0x30 0x39 b | _ => false end.
Definition ascii_char (c : bytes) : bool := match c with [b] => u8 b <? 0x80 | _ => false end.
Definition ascii_punctuation (c : bytes) : bool :=
  match c with
  | [b] => in_range 0x21 0x2F b || in_range 0x3A 0x40 b || in_range 0x5B 0x60 b || in_range 0x7B 0x7E b
  | _ => false
  end.
Definition to_ascii_lower (b : byte) : byte := if in_range 0x41 0x5A b then byte_of (u8 b + 0x20) else b.

(** Replaces the escapes of doc comments, and doubles braces. *)
Fixpoint unescape_chars (cs : list bytes) : bytes :=
  match cs with
  | [] => []
  | c :: cs =>
      let one := λ c : bytes, (if bool_decide (c = bs "{") || bool_decide (c = bs "}") then c else []) ++ c in
      match cs with
      | n :: cs' => if bool_decide (c = bs "\") && ascii_punctuation n then one n ++ unescape_chars cs'
                    else one c ++ unescape_chars cs
      | [] => one c
      end
  end.
Definition unescape_doc (s : bytes) : bytes := unescape_chars (chars s).

Section Derive.
Context (lower_beyond alnum_beyond : bytes → bool) (not_two_args : list Expr → bytes) (lexes : bytes → bool).

Definition is_lowercase (c : bytes) : bool := ascii_lower c || (negb (ascii_char c) && lower_beyond c).
Definition is_alphanumeric (c : bytes) : bool :=
  ascii_lower c || ascii_upper c || ascii_digit c || (negb (ascii_char c) && alnum_beyond c).

(** ** Field attributes: [parse_attrs.rs] *)

Inductive FieldKind := Switch | Option_ | SubCommand | Positional.
#[global] Instance field_kind_eq : EqDecision FieldKind.
Proof. solve_decision. Defined.

Record Description := mkDescription { explicit : bool; content : bytes }.

Record FieldAttrs := mkFieldAttrs {
  default_ : option bytes;
  fa_description : option Description;
  from_str_fn : option bytes;
  field_type : option FieldKind;
  long : option (option bytes);
  short : option bytes;
  arg_name : option bytes;
  greedy : bool;
  hidden_help : bool
}.
Definition no_attrs : FieldAttrs := mkFieldAttrs None None None None None None None false false.

Definition set_default f x := mkFieldAttrs x (fa_description f) (from_str_fn f) (field_type f) (long f) (short f) (arg_name f) (greedy f) (hidden_help f).
Definition set_fa_description f x := mkFieldAttrs (default_ f) x (from_str_fn f) (field_type f) (long f) (short f) (arg_name f) (greedy f) (hidden_help f).
Definition set_from_str_fn f x := mkFieldAttrs (default_ f) (fa_description f) x (field_type f) (long f) (short f) (arg_name f) (greedy f) (hidden_help f).
Definition set_field_type f x := mkFieldAttrs (default_ f) (fa_description f) (from_str_fn f) x (long f) (short f) (arg_name f) (greedy f) (hidden_help f).
Definition set_long f x := mkFieldAttrs (default_ f) (fa_description f) (from_str_fn f) (field_type f) x (short f) (arg_name f) (greedy f) (hidden_help f).
Definition set_short f x := mkFieldAttrs (default_ f) (fa_description f) (from_str_fn f) (field_type f) (long f) x (arg_name f) (greedy f) (hidden_help f).
Definition set_arg_name f x := mkFieldAttrs (default_ f) (fa_description f) (from_str_fn f) (field_type f) (long f) (short f) x (greedy f) (hidden_help f).
Definition set_greedy f := mkFieldAttrs (default_ f) (fa_description f) (from_str_fn f) (field_type f) (long f) (short f) (arg_name f) true (hidden_help f).
Definition set_hidden f := mkFieldAttrs (default_ f) (fa_description f) (from_str_fn f) (field_type f) (long f) (short f) (arg_name f) (greedy f) true.

Definition parse_attr_single_string (e : Expr) (name : bytes) (slot : option bytes) : M (option bytes) :=
  match slot with
  | Some _ => _ ← duplicate_attrs name; mret slot
  | None => on_some slot (expect_lit_str e) (λ s, mret (Some s))
  end.

Definition parse_attr_multi_string (e : Expr) (l : list bytes) : M (list bytes) :=
  on_some l (expect_lit_str e) (λ s, mret (l ++ [s])).

Definition parse_attr_doc (value : Expr) (slot : option Description) : M (option Description) :=
  match slot with
  | Some (mkDescription true _) => mret slot
  | _ =>
      on_some slot (expect_lit_str value) (λ s,
        mret (Some (mkDescription false
          (match slot with Some previous => content previous ++ unescape_doc s | None => unescape_doc s end))))
  end.

Definition parse_attr_description (e : Expr) (slot : option Description) : M (option Description) :=
  on_some slot (expect_lit_str e) (λ s,
    _ ← match slot with
        | Some (mkDescription true _) => duplicate_attrs (bs "description")
        | _ => mret tt
        end;
    mret (Some (mkDescription true s))).

(** [Errors::ok]. *)
Definition ok {A} (r : bytes + A) : M (option A) :=
  match r with
  | inr a => mret (Some a)
  | inl e => _ ← err e; mret None
  end.

Definition parse_attr_fn_name (p : bytes + bytes) (name : bytes) (slot : option bytes) : M (option bytes) :=
  _ ← match slot with Some _ => duplicate_attrs name | None => mret tt end;
  ok p.

Definition parse_attr_field_type (m : Meta) (kind : FieldKind) (slot : option FieldKind) : M (option FieldKind) :=
  on_some slot (expect_meta_word m) (λ _,
    match slot with
    | Some _ => _ ← duplicate_attrs (bs "field kind"); mret slot
    | None => mret (Some kind)
    end).

Definition check_long_name (value : bytes) : M unit :=
  _ ← (if is_ascii value then mret tt else err (bs "Long names must be ASCII"));
  if forallb (λ c, is_lowercase c || bool_decide (c = bs "-") || ascii_digit c) (chars value) then mret tt
  else err (bs "Long names may only contain lowercase letters, digits, and dashes").

Definition parse_attr_long (e : Expr) (slot : option (option bytes)) : M (option (option bytes)) :=
  slot ← match slot, e with
         | Some _, _ => _ ← duplicate_attrs (bs "long"); mret slot
         | None, EPath ident =>
             if bool_decide (map to_ascii_lower ident = bs "none") then mret (Some None)
             else on_some None (expect_lit_str e) (λ s, mret (Some (Some s)))
         | None, _ => on_some None (expect_lit_str e) (λ s, mret (Some (Some s)))
         end;
  _ ← match slot with Some (Some l) => check_long_name l | _ => mret tt end;
  mret slot.

Definition parse_attr_short (e : Expr) (slot : option bytes) : M (option bytes) :=
  match slot with
  | Some _ => _ ← duplicate_attrs (bs "short"); mret slot
  | None =>
      on_some slot (expect_lit_char e) (λ c,
        _ ← (if is_ascii c then mret tt else err (bs "Short names must be ASCII"));
        mret (Some c))
  end.

Definition check_option_description (desc : bytes) : M unit :=
  match chars (trim desc) with
  | x :: rest =>
      if is_lowercase x then mret tt
      else match rest with
           | y :: _ => if is_alphanumeric y && negb (is_lowercase y) then mret tt
                       else err (bs "Descriptions must begin with a lowercase letter")
           | [] => err (bs "Descriptions must begin with a lowercase letter")
           end
  | [] => err (bs "Descriptions must begin with a lowercase letter")
  end.

Definition field_attr_names : bytes :=
  bs "`arg_name`, `default`, `description`, `from_str_fn`, `greedy`, " ++
  bs "`long`, `option`, `short`, `subcommand`, `switch`, `hidden_help`".

Definition is_name (m : Meta) (n : string) : bool := bool_decide (meta_name m = bs n).

(** One item of [#[argh(...)]] on a field. *)
Definition field_meta (f : FieldAttrs) (m : Meta) : M FieldAttrs :=
  if is_name m "arg_name" then
    on_some f (expect_meta_name_value m) (λ e, s ← parse_attr_single_string e (bs "arg_name") (arg_name f); mret (set_arg_name f s))
  else if is_name m "default" then
    on_some f (expect_meta_name_value m) (λ e, s ← parse_attr_single_string e (bs "default") (default_ f); mret (set_default f s))
  else if is_name m "description" then
    on_some f (expect_meta_name_value m) (λ e, d ← parse_attr_description e (fa_description f); mret (set_fa_description f d))
  else if is_name m "from_str_fn" then
    on_some f (expect_meta_list m) (λ p, s ← parse_attr_fn_name p.2 (bs "from_str_fn") (from_str_fn f); mret (set_from_str_fn f s))
  else if is_name m "long" then
    on_some f (expect_meta_name_value m) (λ e, l ← parse_attr_long e (long f); mret (set_long f l))
  else if is_name m "option" then
    k ← parse_attr_field_type m Option_ (field_type f); mret (set_field_type f k)
  else if is_name m "short" then
    on_some f (expect_meta_name_value m) (λ e, s ← parse_attr_short e (short f); mret (set_short f s))
  else if is_name m "subcommand" then
    k ← parse_attr_field_type m SubCommand (field_type f); mret (set_field_type f k)
  else if is_name m "switch" then
    k ← parse_attr_field_type m Switch (field_type f); mret (set_field_type f k)
  else if is_name m "positional" then
    k ← parse_attr_field_type m Positional (field_type f); mret (set_field_type f k)
  else if is_name m "greedy" then mret (set_greedy f)
  else if is_name m "hidden_help" then mret (set_hidden f)
  else _ ← err (bs "Invalid field-level `argh` attribute" ++ [LF] ++ bs "Expected one of: " ++ field_attr_names); mret f.

(** [for x in l { s = f(s, x) }]. *)
Fixpoint for_each {A S} (f : S → A → M S) (s : S) (l : list A) : M S :=
  match l with
  | [] => mret s
  | a :: l => s ← f s a; for_each f s l
  end.

Definition field_attr (f : FieldAttrs) (a : Attribute) : M FieldAttrs :=
  match a with
  | Doc e => d ← parse_attr_doc e (fa_description f); mret (set_fa_description f d)
  | DocNoValue kind => _ ← unexpected_meta (bs "name-value pair") kind; mret f
  | Argh r => on_some f (ok r) (for_each field_meta f)
  | ArghNoList kind => _ ← unexpected_meta (bs "list") kind; mret f
  | OtherAttr => mret f
  end.

(** [FieldAttrs::parse]. *)
Definition parse_field_attrs (attrs : list Attribute) : M FieldAttrs :=
  f ← for_each field_attr no_attrs attrs;
  _ ← match default_ f, field_type f with
      | Some _, Some (SubCommand | Switch) =>
          err (bs "`default` may only be specified on `#[argh(option)]` or `#[argh(positional)]` fields")
      | _, _ => mret tt
      end;
  _ ← match greedy f, field_type f with
      | true, Some Positional => mret tt
      | true, Some _ => err (bs "`greedy` may only be specified on `#[argh(positional)]` fields")
      | _, _ => mret tt
      end;
  _ ← match fa_description f with
      | Some d => check_option_description (trim (content d))
      | None => mret tt
      end;
  mret f.

(** ** Type attributes *)

Record TypeAttrs := mkTypeAttrs {
  is_subcommand : option bytes;
  type_name : option bytes;
  ta_description : option Description;
  examples : list bytes;
  notes : list bytes;
  error_codes : list (bytes * bytes);
  help_triggers_ : option (list bytes)
}.
Definition no_type_attrs : TypeAttrs := mkTypeAttrs None None None [] [] [] None.

Definition set_subcommand t x := mkTypeAttrs x (type_name t) (ta_description t) (examples t) (notes t) (error_codes t) (help_triggers_ t).
Definition set_type_name t x := mkTypeAttrs (is_subcommand t) x (ta_description t) (examples t) (notes t) (error_codes t) (help_triggers_ t).
Definition set_ta_description t x := mkTypeAttrs (is_subcommand t) (type_name t) x (examples t) (notes t) (error_codes t) (help_triggers_ t).
Definition set_examples t x := mkTypeAttrs (is_subcommand t) (type_name t) (ta_description t) x (notes t) (error_codes t) (help_triggers_ t).
Definition set_notes t x := mkTypeAttrs (is_subcommand t) (type_name t) (ta_description t) (examples t) x (error_codes t) (help_triggers_ t).
Definition set_error_codes t x := mkTypeAttrs (is_subcommand t) (type_name t) (ta_description t) (examples t) (notes t) x (help_triggers_ t).
Definition set_help_triggers t x := mkTypeAttrs (is_subcommand t) (type_name t) (ta_description t) (examples t) (notes t) (error_codes t) x.

Definition parse_attr_name (e : Expr) (t : TypeAttrs) : M TypeAttrs :=
  n ← parse_attr_single_string e (bs "name") (type_name t);
  _ ← match n with
      | Some n => if bool_decide (n = bs "help") then err (bs "Custom `help` commands are not supported.") else mret tt
      | None => mret tt
      end;
  mret (set_type_name t n).

Definition parse_attr_subcommand (ident : bytes) (t : TypeAttrs) : M TypeAttrs :=
  match is_subcommand t with
  | Some _ => _ ← duplicate_attrs (bs "subcommand"); mret t
  | None => mret (set_subcommand t (Some ident))
  end.

(** [error_code(1, "text")]: two arguments, then the end. *)
Definition parse_attr_error_code (args : bytes + list Expr) (t : TypeAttrs) : M TypeAttrs :=
  match args with
  | inr [code; msg] =>
      code ← expect_lit_int code;
      msg ← expect_lit_str msg;
      mret (match code, msg with
            | Some c, Some m => set_error_codes t (error_codes t ++ [(c, m)])
            | _, _ => t
            end)
  | inr es => _ ← err (not_two_args es); mret t
  | inl e => _ ← err e; mret t
  end.

Definition str_lits (es : list Expr) : list bytes := omap (λ e, match e with ELit (LStr s) => Some s | _ => None end) es.

Definition parse_help_triggers (args : bytes + list Expr) (t : TypeAttrs) : M TypeAttrs :=
  match args with
  | inr es => mret (set_help_triggers t (Some (str_lits es)))
  | inl e => _ ← err e; mret t
  end.

Definition type_meta (t : TypeAttrs) (m : Meta) : M TypeAttrs :=
  if is_name m "description" then
    on_some t (expect_meta_name_value m) (λ e, d ← parse_attr_description e (ta_description t); mret (set_ta_description t d))
  else if is_name m "error_code" then on_some t (expect_meta_list m) (λ a, parse_attr_error_code a.1 t)
  else if is_name m "example" then
    on_some t (expect_meta_name_value m) (λ e, l ← parse_attr_multi_string e (examples t); mret (set_examples t l))
  else if is_name m "name" then on_some t (expect_meta_name_value m) (λ e, parse_attr_name e t)
  else if is_name m "note" then
    on_some t (expect_meta_name_value m) (λ e, l ← parse_attr_multi_string e (notes t); mret (set_notes t l))
  else if is_name m "subcommand" then on_some t (expect_meta_word m) (λ i, parse_attr_subcommand i t)
  else if is_name m "help_triggers" then on_some t (expect_meta_list m) (λ a, parse_help_triggers a.1 t)
  else _ ← err (bs "Invalid type-level `argh` attribute" ++ [LF] ++ bs "Expected one of: `description`, `error_code`, `example`, `name`, "
                ++ bs "`note`, `subcommand`, `help_triggers`"); mret t.

Definition type_attr (t : TypeAttrs) (a : Attribute) : M TypeAttrs :=
  match a with
  | Doc e => d ← parse_attr_doc e (ta_description t); mret (set_ta_description t d)
  | DocNoValue kind => _ ← unexpected_meta (bs "name-value pair") kind; mret t
  | Argh r => on_some t (ok r) (λ ml,
      t ← for_each type_meta t ml;
      match is_subcommand t, help_triggers_ t with
      | Some _, Some _ =>
          (* the attribute is looked up in this list to point at it *)
          if existsb (λ m, is_name m "help_triggers") ml
          then _ ← err (bs "Cannot use `help_triggers` on a subcommand"); mret t
          else panic
      | _, _ => mret t
      end)
  | ArghNoList kind => _ ← unexpected_meta (bs "list") kind; mret t
  | OtherAttr => mret t
  end.

(** The map from an error code to where it was defined first: codes seen so far. *)
Fixpoint check_error_codes (seen : list Z) (codes : list (bytes * bytes)) : M unit :=
  match codes with
  | [] => mret tt
  | (digits, _) :: codes =>
      match from_str_radix_u 64 10 digits with
      | None => _ ← err (bs "number too large to fit in target type"); check_error_codes seen codes
      | Some value =>
          _ ← (if 2 ^ 31 - 1 <? value then err (bs "Error code out of range for `i32`") else mret tt);
          if bool_decide (value ∈ seen) then
            _ ← err (bs "Duplicate error code " ++ fmt_dec value);
            _ ← err (bs "Error code " ++ fmt_dec value ++ bs " previously defined here");
            check_error_codes seen codes
          else check_error_codes (value :: seen) codes
      end
  end.

(** [TypeAttrs::parse]. *)
Definition parse_type_attrs (attrs : list Attribute) : M TypeAttrs :=
  t ← for_each type_attr no_type_attrs attrs;
  _ ← check_error_codes [] (error_codes t);
  mret t.

Definition unused_enum_attr : M unit :=
  err (bs "Unused `argh` attribute on `#![derive(FromArgs)]` enum. "
       ++ bs "Such `enum`s can only be used to dispatch to subcommands, "
       ++ bs "and should only contain the #[argh(subcommand)] attribute.").

(** [check_enum_type_attrs]: only [#[argh(subcommand)]] is allowed, and it is required. *)
Definition check_enum_type_attrs (t : TypeAttrs) : M unit :=
  let report (b : bool) : M unit := if b then unused_enum_attr else mret tt in
  _ ← match is_subcommand t with
      | None => err (bs "`#![derive(FromArgs)]` on `enum`s can only be used to enumerate subcommands." ++ [LF]
                     ++ bs "Consider adding `#[argh(subcommand)]` to the `enum` declaration.")
      | Some _ => mret tt
      end;
  _ ← report (match type_name t with Some _ => true | None => false end);
  _ ← report (match ta_description t with Some d => explicit d | None => false end);
  _ ← report (nonempty_list (examples t));
  _ ← report (nonempty_list (notes t));
  _ ← report (nonempty_list (error_codes t));
  report (match help_triggers_ t with Some l => nonempty_list l | None => false end).

(** The attributes of an enum variant, and of its fields: whether it is [dynamic]. *)
Definition variant_meta (dynamic : option bytes) (m : Meta) : M (option bytes) :=
  if is_name m "dynamic" then
    match dynamic with
    | Some _ => _ ← duplicate_attrs (bs "dynamic"); mret dynamic
    | None => expect_meta_word m
    end
  else _ ← err (bs "Invalid variant-level `argh` attribute" ++ [LF] ++ bs "Variants can only have the #[argh(dynamic)] attribute.");
       mret dynamic.

Definition is_argh_attr (a : Attribute) : bool :=
  match a with Argh _ | ArghNoList _ => true | _ => false end.

Definition variant_attr (dynamic : option bytes) (a : Attribute) : M (option bytes) :=
  match a with
  | Argh r => on_some dynamic (ok r) (for_each variant_meta dynamic)
  | ArghNoList kind => _ ← unexpected_meta (bs "list") kind; mret dynamic
  | _ => mret dynamic
  end.

Definition parse_variant_attrs (field_attrs attrs : list Attribute) : M bool :=
  _ ← for_each (λ _ a, if is_argh_attr a then unused_enum_attr else mret tt) tt field_attrs;
  d ← for_each variant_attr None attrs;
  mret (match d with Some _ => true | None => false end).

(** ** Struct fields: [mod.rs] *)

Inductive Optionality :=
  | Required
  | Defaulted (tokens : bytes)
  | Optional
  | Repeating
  | DefaultedRepeating (tokens : bytes).

Definition is_required (o : Optionality) : bool := match o with Required => true | _ => false end.

(** A field as it is written. *)
Record RawField := mkRaw { r_ident : bytes; r_attrs : list Attribute; r_ty : Ty }.

Record StructField := mkField {
  f_ident : bytes;
  f_ty : Ty;
  attrs : FieldAttrs;
  kind : FieldKind;
  ty_without_wrapper : Ty;
  optionality : Optionality;
  long_name : option bytes
}.

Definition int_names : list bytes :=
  [bs "bool"; bs "u8"; bs "u16"; bs "u32"; bs "u64"; bs "u128"; bs "i8"; bs "i16"; bs "i32"; bs "i64"; bs "i128"].

Definition ty_can_be_switch (ty : Ty) : M bool :=
  match ty with
  | TPath true _ => mret false
  | TPath false [(ident, args)] =>
      let plain := mret (existsb (λ n, bool_decide (ident = n)) int_names) in
      if bool_decide (ident = bs "Option") then
        match args with
        | Some [] => panic
        | Some (Some (TPath _ ((i, _) :: _)) :: _) => if bool_decide (i = bs "bool") then mret true else plain
        | _ => plain
        end
      else plain
  | _ => mret false
  end.

Definition ty_expect_switch (ty : Ty) : M bool :=
  res ← ty_can_be_switch ty;
  _ ← (if res : bool then mret tt else err (bs "switches must be of type `bool`, `Option<bool>`, or integer type"));
  mret res.

(** [T] of [wrapper<T>]. *)
Definition ty_inner (wrapper : bytes) (ty : Ty) : option Ty :=
  match ty with
  | TPath false segments =>
      '(ident, args) ← last segments;
      if bool_decide (ident = wrapper) then args ← args; a ← head args; a else None
  | _ => None
  end.

Definition UNDERSCORE : byte := Byte.x5f.

Definition to_kebab_case (s : bytes) : bytes :=
  foldl (λ res word, (if nonempty res then res ++ bs "-" else res) ++ word) []
    (List.filter nonempty (split_on UNDERSCORE s)).

(** [Ident::unraw]. *)
Definition unraw (ident : bytes) : bytes := default ident (strip_prefix (bs "r#") ident).

(** The optionality of an option or positional, and its type without a wrapper. *)
Definition field_optionality (r : RawField) (a : FieldAttrs) : M (option (Optionality * Ty)) :=
  match default_ a with
  | Some tokens =>
      if lexes tokens then
        mret (Some match ty_inner (bs "Vec") (r_ty r) with
                   | Some x => (DefaultedRepeating tokens, x)
                   | None => (Defaulted tokens, r_ty r)
                   end)
      else _ ← err (bs "Invalid tokens: unable to lex `default` value"); mret None
  | None =>
      mret (Some match ty_inner (bs "Option") (r_ty r) with
                 | Some x => (Optional, x)
                 | None => match ty_inner (bs "Vec") (r_ty r) with
                           | Some x => (Repeating, x)
                           | None => (Required, r_ty r)
                           end
                 end)
  end.

Definition field_long_name (r : RawField) (a : FieldAttrs) : M (option bytes) :=
  name ← match long a with
         | None => let kebab := to_kebab_case (unraw (r_ident r)) in _ ← check_long_name kebab; mret (Some kebab)
         | Some l => mret l
         end;
  l ← match name with
      | Some n =>
          _ ← (if bool_decide (n = bs "help") then err (bs "Custom `--help` flags are not supported.") else mret tt);
          mret (Some (bs "--" ++ n))
      | None => mret None
      end;
  _ ← match short a, l with
      | None, None => err (bs "At least one of `short` or `long` has to be set.")
      | _, _ => mret tt
      end;
  mret l.

(** [StructField::new]. *)
Definition struct_field_new (r : RawField) (a : FieldAttrs) : M (option StructField) :=
  match field_type a with
  | None =>
      _ ← err (bs "Missing `argh` field kind attribute." ++ [LF]
               ++ bs "Expected one of: `switch`, `option`, `remaining`, `subcommand`, `positional`");
      mret None
  | Some k =>
      o ← match k with
          | Switch => ok ← ty_expect_switch (r_ty r); mret (if ok : bool then Some (Optional, r_ty r) else None)
          | Option_ | Positional => field_optionality r a
          | SubCommand =>
              mret (Some match ty_inner (bs "Option") (r_ty r) with
                         | Some x => (Optional, x)
                         | None => (Required, r_ty r)
                         end)
          end;
      match o with
      | None => mret None
      | Some (opt, inner) =>
          l ← match k with
              | Switch | Option_ => field_long_name r a
              | _ => mret None
              end;
          mret (Some (mkField (r_ident r) (r_ty r) a k inner opt l))
      end
  end.

Fixpoint trim_start_c (c : byte) (s : bytes) : bytes :=
  match s with
  | b :: t => if bool_decide (b = c) then trim_start_c c t else s
  | [] => []
  end.
Definition trim_matches (c : byte) (s : bytes) : bytes := rev (trim_start_c c (rev (trim_start_c c s))).

Definition positional_arg_name (f : StructField) : bytes :=
  match arg_name (attrs f) with
  | Some n => n
  | None => trim_matches UNDERSCORE (f_ident f)
  end.

Definition option_arg_name (f : StructField) : bytes :=
  match short (attrs f), long_name f with
  | Some s, None => bs "-" ++ s
  | None, Some l => l
  | Some s, Some l => bs "-" ++ s ++ bs "," ++ l
  | None, None => []
  end.

(** ** Checks on all fields *)

Definition name_used (n : bytes) (seen : list bytes) : bool := bool_decide (n ∈ seen).

Fixpoint ensure_unique_names (shorts longs : list bytes) (fs : list StructField) : M unit :=
  match fs with
  | [] => mret tt
  | f :: fs =>
      _ ← match short (attrs f) with
          | Some s =>
              if name_used s shorts
              then _ ← err (bs "The short name of " ++ [Byte.x22] ++ bs "-" ++ s ++ [Byte.x22] ++ bs " was already used here.");
                   err (bs "Later usage here.")
              else mret tt
          | None => mret tt
          end;
      _ ← match long_name f with
          | Some l =>
              if name_used l longs
              then _ ← err (bs "The long name of " ++ [Byte.x22] ++ l ++ [Byte.x22] ++ bs " was already used here.");
                   err (bs "Later usage here.")
              else mret tt
          | None => mret tt
          end;
      ensure_unique_names (option_list (short (attrs f)) ++ shorts) (option_list (long_name f) ++ longs) fs
  end.

Fixpoint ensure_only_trailing_positionals_are_optional (non_required : bool) (fs : list StructField) : M unit :=
  match fs with
  | [] => mret tt
  | f :: fs =>
      if bool_decide (kind f = Positional) then
        if non_required && is_required (optionality f) then
          _ ← err (bs "Only trailing positional arguments may be `Option`, `Vec`, or defaulted.");
          err (bs "Later non-optional positional argument declared here.")
        else ensure_only_trailing_positionals_are_optional (non_required || negb (is_required (optionality f))) fs
      else ensure_only_trailing_positionals_are_optional non_required fs
  end.

Definition of_kind (k : FieldKind) (fs : list StructField) : list StructField :=
  List.filter (λ f, bool_decide (kind f = k)) fs.

Definition check_single_subcommand (fs : list StructField) : M unit :=
  match of_kind SubCommand fs with
  | [] => mret tt
  | _ :: dups => for_each (λ _ _, duplicate_attrs (bs "subcommand")) tt dups
  end.

Fixpoint collect_fields (rs : list RawField) : M (list StructField) :=
  match rs with
  | [] => mret []
  | r :: rs =>
      a ← parse_field_attrs (r_attrs r);
      f ← struct_field_new r a;
      fs ← collect_fields rs;
      mret (option_list f ++ fs)
  end.

(** [top_or_sub_cmd_impl]: the name of a subcommand. *)
Definition sub_cmd_name (t : TypeAttrs) : M (option bytes) :=
  match is_subcommand t with
  | None => mret None
  | Some _ =>
      match type_name t with
      | Some n => mret (Some n)
      | None => _ ← err (bs "`#[argh(name = " ++ [Byte.x22] ++ bs "..." ++ [Byte.x22] ++ bs ")]` attribute is required for subcommands");
                mret (Some [])
      end
  end.

Definition get_help_triggers (t : TypeAttrs) : list bytes :=
  match is_subcommand t with
  | Some _ => []
  | None =>
      match help_triggers_ t with
      | None => [bs "-h"; bs "--help"]
      | Some l => List.filter nonempty (map trim l)
      end
  end.

(** ** [impl_from_args] *)

Inductive Fields := Named (fs : list RawField) | Unnamed (fs : list (list Attribute * Ty)) | Unit.

Record Variant := mkVariant { v_ident : bytes; v_attrs : list Attribute; v_fields : Fields }.

Inductive Data := Struct (fs : Fields) | Enum (vs : list Variant) | Union.

(** What is emitted: for a struct its attributes, fields and command name; for an enum
    the variants with their types, and the dynamic one. *)
Inductive Emitted :=
  | EmitStruct (t : TypeAttrs) (fs : list StructField) (name : option bytes)
  | EmitEnum (vs : list (bytes * Ty)) (dynamic : option (bytes * Ty))
  | EmitNothing.

Definition impl_from_args_struct (t : TypeAttrs) (fs : Fields) : M Emitted :=
  match fs with
  | Unnamed _ => _ ← err (bs "`#![derive(FromArgs)]` is not currently supported on tuple structs"); mret EmitNothing
  | Unit => _ ← err (bs "#![derive(FromArgs)]` cannot be applied to unit structs"); mret EmitNothing
  | Named rs =>
      fs ← collect_fields rs;
      _ ← ensure_unique_names [] [] fs;
      _ ← ensure_only_trailing_positionals_are_optional false fs;
      _ ← check_single_subcommand fs;
      n ← sub_cmd_name t;
      mret (EmitStruct t fs n)
  end.

Definition enum_suggestion (text : bytes) : bytes :=
  text ++ [LF] ++ bs "Instead, use a variant with a single unnamed field for each subcommand:" ++ [LF]
  ++ bs "    enum MyCommandEnum {" ++ [LF] ++ bs "        SubCommandOne(SubCommandOne)," ++ [LF]
  ++ bs "        SubCommandTwo(SubCommandTwo)," ++ [LF] ++ bs "    }".

Definition enum_only_single_field_unnamed_variants (fs : Fields) : M (option Ty) :=
  match fs with
  | Named _ => _ ← err (enum_suggestion (bs "`#![derive(FromArgs)]` `enum`s do not support variants with named fields.")); mret None
  | Unit => _ ← err (enum_suggestion (bs "`#![derive(FromArgs)]` does not support `enum`s with no variants.")); mret None
  | Unnamed [(_, ty)] => mret (Some ty)
  | Unnamed _ => _ ← err (enum_suggestion (bs "`#![derive(FromArgs)]` `enum` variants must only contain one field.")); mret None
  end.

Definition all_field_attrs (fs : Fields) : list Attribute :=
  match fs with
  | Named rs => flat_map r_attrs rs
  | Unnamed fs => flat_map fst fs
  | Unit => []
  end.

Definition enum_variant (acc : list (bytes * Ty) * option (bytes * Ty)) (v : Variant) :
    M (list (bytes * Ty) * option (bytes * Ty)) :=
  ty ← enum_only_single_field_unnamed_variants (v_fields v);
  match ty with
  | None => mret acc
  | Some ty =>
      dynamic ← parse_variant_attrs (all_field_attrs (v_fields v)) (v_attrs v);
      if dynamic : bool then
        _ ← match acc.2 with
            | Some _ => err (bs "Only one variant can have the `dynamic` attribute")
            | None => mret tt
            end;
        mret (acc.1, Some (v_ident v, ty))
      else mret (acc.1 ++ [(v_ident v, ty)], acc.2)
  end.

Definition impl_from_args_enum (t : TypeAttrs) (vs : list Variant) : M Emitted :=
  _ ← check_enum_type_attrs t;
  '(vs, dynamic) ← for_each enum_variant ([], None) vs;
  mret (EmitEnum vs dynamic).

Definition impl_from_args (attributes : list Attribute) (d : Data) : M Emitted :=
  t ← parse_type_attrs attributes;
  match d with
  | Struct fs => impl_from_args_struct t fs
  | Enum vs => impl_from_args_enum t vs
  | Union => _ ← err (bs "`#[derive(FromArgs)]` cannot be applied to unions"); mret EmitNothing
  end.

(** The build: what is emitted when there is no error. *)
Definition derive (attributes : list Attribute) (d : Data) : list bytes + Emitted :=
  match impl_from_args attributes d [] with
  | ([], Ok e) => inr e
  | (es, Ok _) => inl es
  | (es, _) => inl (es ++ [bs "proc-macro derive panicked"])
  end.
End Derive.

(** ** The emitted parser

    Values of options and positionals live in [V], of subcommands in [W]; the parse
    function of a field is what its type or its [from_str_fn] denotes. *)

Section Emitted.
Context {V W : Type}.
Context (parse_value : StructField → bytes → res bytes V).
Context (default_value : bytes → V) (default_values : bytes → list V).
(** The type of the subcommand field: its commands and its parser. *)
Context (commands : list CommandInfo) (sub_from_args : list bytes → list bytes → res EarlyExit W).

Inductive FieldValue := FFlag (f : FlagV) | FOne (v : V) | FOptional (o : option V) | FMany (l : list V)
  | FSub (w : W) | FOptSub (o : option W).

(** [Flag::default()] of the types a switch can have. *)
Definition int_max (ident : bytes) : Z :=
  match ident with
  | sign :: digits =>
      let bits := default 0 (parse_u 64 digits) in
      if bool_decide (sign = Byte.x75) then 2 ^ bits - 1 else 2 ^ (bits - 1) - 1
  | [] => 0
  end.

Definition flag_default (ty : Ty) : FlagV :=
  match ty with
  | TPath _ [(ident, _)] =>
      if bool_decide (ident = bs "bool") then FBool false
      else if bool_decide (ident = bs "Option") then FOpt None
      else FInt (int_max ident) 0
  | _ => FBool false
  end.

Definition init_slot (f : StructField) : ValueSlot V :=
  mkSlot (match optionality f with
          | Optional | Required | Defaulted _ => One None
          | Repeating => Many []
          | DefaultedRepeating _ => OptMany None
          end) (λ _ value, parse_value f value).

(** [slots]: one for each option and switch. *)
Definition flag_output_table (fs : list StructField) : list (OptSlot V) :=
  omap (λ f, match kind f with
             | Option_ => Some (Value (init_slot f))
             | Switch => Some (Flag (flag_default (f_ty f)))
             | _ => None
             end) fs.

(** The names of a field. *)
Definition field_names (f : StructField) : list bytes :=
  (match short (attrs f) with Some s => [bs "-" ++ s] | None => [] end) ++ option_list (long_name f).

(** [arg_to_slot]: the names with the index of their field among all fields. *)
Definition flag_str_to_output_table_map_entries (fs : list StructField) : list (bytes * nat) :=
  mjoin (imap (λ i f, map (λ n, (n, i)) (field_names f)) fs).

Definition positional_table (fs : list StructField) : list (ValueSlot V) := map init_slot (of_kind Positional fs).

Definition subcommand_field (fs : list StructField) : option StructField := head (of_kind SubCommand fs).

Definition spec_of (triggers : list bytes) (fs : list StructField) : Spec :=
  mkSpec (flag_str_to_output_table_map_entries fs) triggers
    (map f_ident (of_kind Positional fs))
    (match last (of_kind Positional fs) with
     | Some f => match optionality f with Repeating => true | _ => false end
     | None => false
     end)
    (match last (of_kind Positional fs) with Some f => greedy (attrs f) | None => false end)
    (match subcommand_field fs with Some _ => Some commands | None => None end)
    (λ cmd args, _ ← sub_from_args cmd args; Ok tt).

(** The local of a field after parsing. *)
Inductive Local := LFlag (f : FlagV) | LSlot (s : SlotV V) | LSub (o : option W) | LNone.

Fixpoint locals (fs : list StructField) (sl : list (OptSlot V)) (ps : list (ValueSlot V)) (sub : option W) : list Local :=
  match fs with
  | [] => []
  | f :: fs =>
      match kind f, sl, ps with
      | Switch, Flag v :: sl, ps => LFlag v :: locals fs sl ps sub
      | Option_, Value s :: sl, ps => LSlot (slot s) :: locals fs sl ps sub
      | Positional, sl, s :: ps => LSlot (slot s) :: locals fs sl ps sub
      | SubCommand, sl, ps => LSub sub :: locals fs sl ps sub
      | _, _, _ => LNone :: locals fs sl ps sub
      end
  end.

(** [slot.is_none()] *)
Definition is_none (l : Local) : bool :=
  match l with LSlot (One None) | LSub None => true | _ => false end.

Fixpoint append_missing_requirements (fs : list StructField) (ls : list Local) (m : MissingRequirements) :
    MissingRequirements :=
  match fs, ls with
  | f :: fs, l :: ls =>
      append_missing_requirements fs ls
        (if is_required (optionality f) && is_none l then
           match kind f with
           | Positional => mkMissing (m_options m) (m_subcommands m) (m_positional_args m ++ [positional_arg_name f])
           | Option_ => mkMissing (m_options m ++ [option_arg_name f]) (m_subcommands m) (m_positional_args m)
           | SubCommand => mkMissing (m_options m) (Some commands) (m_positional_args m)
           | Switch => m
           end
         else m)
  | _, _ => m
  end.

(** The field of the struct that is returned; an [unwrap] of nothing panics. *)
Definition unwrap_field (f : StructField) (l : Local) : res EarlyExit FieldValue :=
  match l, optionality f with
  | LFlag v, _ => Ok (FFlag v)
  | LSlot (One (Some v)), Required => Ok (FOne v)
  | LSlot (One o), Optional => Ok (FOptional o)
  | LSlot (Many l), Repeating => Ok (FMany l)
  | LSlot (One o), Defaulted tokens => Ok (FOne (default (default_value tokens) o))
  | LSlot (OptMany o), DefaultedRepeating tokens => Ok (FMany (default (default_values tokens) o))
  | LSub (Some w), Required => Ok (FSub w)
  | LSub o, Optional => Ok (FOptSub o)
  | _, _ => Panic
  end.

Fixpoint unwrap_fields (fs : list StructField) (ls : list Local) : res EarlyExit (list FieldValue) :=
  match fs, ls with
  | f :: fs, l :: ls => v ← unwrap_field f l; vs ← unwrap_fields fs ls; Ok (v :: vs)
  | _, _ => Ok []
  end.

Definition from_args (t : TypeAttrs) (fs : list StructField) (cmd_name args : list bytes) :
    res EarlyExit (list FieldValue) :=
  p ← parse_struct_args (spec_of (get_help_triggers t) fs) cmd_name args (flag_output_table fs) (positional_table fs);
  sub ← match chosen p with
        | Some (cmd, rest) => w ← sub_from_args cmd rest; Ok (Some w)
        | None => Ok None
        end;
  let ls := locals fs (slots p) (positionals p) sub in
  _ ← map_err early (err_on_any (append_missing_requirements fs ls (mkMissing [] None [])));
  unwrap_fields fs ls.
End Emitted.
Arguments FieldValue : clear implicits.
Arguments Local : clear implicits.

(** [from_args] of an enum: the variant whose command has the last name; its index and
    value, of the dynamic one the index behind the others. *)
Definition from_args_enum {W} (variants : list (bytes * (list bytes → list bytes → res EarlyExit W)))
    (dynamic : option (list bytes → list bytes → option (res EarlyExit W)))
    (command_name args : list bytes) : res EarlyExit (nat * W) :=
  match last command_name with
  | None => Err (early (bs "no subcommand name"))
  | Some name =>
      (fix go (i : nat) vs :=
         match vs with
         | (n, f) :: vs => if bool_decide (name = n) then w ← f command_name args; Ok (i, w) else go (S i) vs
         | [] =>
             match dynamic with
             | Some try_from_args =>
                 match try_from_args command_name args with
                 | Some r => w ← r; Ok (i, w)
                 | None => Err (early (bs "no subcommand matched"))
                 end
             | None => Err (early (bs "no subcommand matched"))
             end
         end) O variants
  end.

(** ** The table of names *)

Fixpoint entries_from (k : nat) (fs : list StructField) : list (bytes * nat) :=
  match fs with
  | [] => []
  | f :: fs => map (λ n, (n, k)) (field_names f) ++ entries_from (S k) fs
  end.

Lemma entries_eq fs : flag_str_to_output_table_map_entries fs = entries_from 0 fs.
Proof.
  unfold flag_str_to_output_table_map_entries.
  enough (∀ k, mjoin (imap (λ i f, map (λ n, (n, (k + i)%nat)) (field_names f)) fs) = entries_from k fs) as H by exact (H O).
  induction fs as [|f fs IH]; intros k; [done|]. cbn [imap mjoin list_join entries_from]. rewrite Nat.add_0_r.
  f_equal. rewrite <- IH. f_equal. apply imap_ext. intros i g _. unfold compose.
  by replace (k + S i)%nat with (S k + i)%nat by lia.
Qed.

Lemma find_pos_app n a b : find_pos n (a ++ b) = match find_pos n a with Some i => Some i | None => find_pos n b end.
Proof. induction a as [|[m i] a IH]; [done|]. cbn. by case_bool_decide. Qed.

Lemma find_pos_map n ns k : find_pos n (map (λ n, (n, k)) ns) = if bool_decide (n ∈ ns) then Some k else None.
Proof.
  induction ns as [|m ns IH]; [done|]. cbn [map find_pos]. rewrite IH.
  destruct (decide (m = n)) as [->|Hne]; [by rewrite !bool_decide_true by (done || by left)|].
  rewrite (bool_decide_false (m = n)) by done.
  by rewrite (bool_decide_ext (n ∈ m :: ns) (n ∈ ns)) by (rewrite elem_of_cons; naive_solver).
Qed.

Lemma find_pos_entries fs k i f n : NoDup (flat_map field_names fs) → fs !! i = Some f → n ∈ field_names f →
  find_pos n (entries_from k fs) = Some (k + i)%nat.
Proof.
  revert k i. induction fs as [|g fs IH]; intros k i Hnd Hi Hn; [done|]. cbn [flat_map entries_from] in *.
  apply NoDup_app in Hnd as (_ & Hdis & Hnd). rewrite find_pos_app, find_pos_map. destruct i as [|i]; cbn in Hi.
  - simplify_eq. rewrite bool_decide_true by done. f_equal. lia.
  - rewrite bool_decide_false; [rewrite (IH (S k) i) by done; f_equal; lia|].
    intros Hg. apply (Hdis _ Hg). apply list_elem_of_In, in_flat_map. exists f. split; apply list_elem_of_In; [|done].
    by eapply list_elem_of_lookup_2.
Qed.

(** ** Parsing what a value renders to *)

Section RoundTrip.
Context {V W : Type}.
Context (parse_value : StructField → bytes → res bytes V).
Context (default_value : bytes → V) (default_values : bytes → list V).
Context (commands : list CommandInfo) (sub_from_args : list bytes → list bytes → res EarlyExit W).

(** What a command line gives a field: a number of flags, or texts with their values. *)
Inductive Given := GFlag (n : nat) | GVals (l : list (bytes * V)).

Definition is_option (f : StructField) : bool :=
  match kind f with Switch | Option_ => true | _ => false end.

Definition count_ok (o : Optionality) (n : nat) : Prop :=
  match o with
  | Required => n = 1%nat
  | Optional | Defaulted _ => (n ≤ 1)%nat
  | Repeating | DefaultedRepeating _ => True
  end.

(** The given texts parse, and there are as many as the field takes. *)
Definition given_ok (p : StructField * Given) : Prop :=
  match p.2 with
  | GFlag _ => kind p.1 = Switch
  | GVals l => (kind p.1 = Option_ ∨ kind p.1 = Positional) ∧ count_ok (optionality p.1) (length l) ∧
      Forall (λ tv, parse_value p.1 tv.1 = Ok tv.2) l
  end.

Definition items_of (p : StructField * Given) : list Item :=
  match field_names p.1, p.2 with
  | nm :: _, GFlag n => replicate n (IFlag nm)
  | nm :: _, GVals l => map (λ tv, IOption nm tv.1) l
  | [], _ => []
  end.

Definition texts_of (p : StructField * Given) : list bytes :=
  match p.2 with GVals l => l.*1 | GFlag _ => [] end.

(** Words go to the positionals one by one; the last takes more when it repeats. *)
Fixpoint pos_ok (l : list (StructField * Given)) : Prop :=
  match l with
  | [] => True
  | p :: rest =>
      match rest with
      | [] => match optionality p.1 with Repeating => True | _ => (length (texts_of p) ≤ 1)%nat end
      | _ => (length (texts_of p) = 1%nat ∧ pos_ok rest) ∨ Forall (λ q, texts_of q = []) (p :: rest)
      end
  end.

Definition value_of (p : StructField * Given) : FieldValue V W :=
  match p.2 with
  | GFlag n => FFlag (Nat.iter n set_flag (flag_default (f_ty p.1)))
  | GVals l =>
      match optionality p.1 with
      | Required => match l with (_, v) :: _ => FOne v | [] => FMany [] end
      | Optional => FOptional (head l.*2)
      | Repeating => FMany l.*2
      | Defaulted tokens => FOne (default (default_value tokens) (head l.*2))
      | DefaultedRepeating tokens => FMany (match l with [] => default_values tokens | _ => l.*2 end)
      end
  end.

Definition cmdline (opts poss : list (StructField * Given)) : list bytes :=
  flat_map (λ p, flat_map render (items_of p)) opts ++ bs "--" :: flat_map texts_of poss.

(** *** Options *)

Definition opt_slot (f : StructField) : OptSlot V :=
  match kind f with
  | Switch => Flag (flag_default (f_ty f))
  | _ => Value (init_slot parse_value f)
  end.

Definition push_all (s : SlotV V) (vs : list V) : SlotV V := foldl (λ s v, push_value v s) s vs.

Definition given_slot (p : StructField * Given) : OptSlot V :=
  match p.2 with
  | GFlag n => Flag (Nat.iter n set_flag (flag_default (f_ty p.1)))
  | GVals l => Value (with_slot (init_slot parse_value p.1) (push_all (slot (init_slot parse_value p.1)) l.*2))
  end.

(** A slot that takes [n] more values. *)
Definition takes (s : SlotV V) (n : nat) : Prop :=
  match s with One None => (n ≤ 1)%nat | One (Some _) => n = O | _ => True end.

Lemma takes_init f n : count_ok (optionality f) n → takes (slot (init_slot parse_value f)) n.
Proof. unfold init_slot, count_ok. destruct (optionality f); cbn; lia || done. Qed.

Lemma fill_push f s arg text v : takes s 1 → parse_value f text = Ok v →
  fill_slot (with_slot (init_slot parse_value f) s) arg text = Ok (with_slot (init_slot parse_value f) (push_value v s)).
Proof.
  intros Hs Hp. unfold fill_slot. destruct s as [[x|]|l|o]; cbn in *; [lia|..]; rewrite Hp; done.
Qed.

Lemma takes_push s v n : takes s (S n) → takes s 1 ∧ takes (push_value v s) n.
Proof. destruct s as [[x|]|l|o]; cbn; try done; lia. Qed.

Section Run.
Context (spec : Spec).

Lemma run_flags nm i n sl ps v rest cmd : option_name spec nm = true → find_pos nm (arg_to_slot spec) = Some i →
  sl !! i = Some (Flag v) →
  run spec cmd (flat_map render (replicate n (IFlag nm)) ++ rest) (mkParse sl ps 0 false false None) =
  run spec cmd rest (mkParse (<[i := Flag (V:=V) (Nat.iter n set_flag v)]> sl) ps 0 false false None).
Proof.
  intros Hn Hf. revert sl v. induction n as [|n IH]; intros sl v Hs; cbn [replicate flat_map render app].
  { cbn. by rewrite list_insert_id. }
  rewrite (run_option spec _ _ _ _ _ _ _ _ Hn (parse_option_flag spec _ _ _ _ _ Hf Hs)).
  rewrite (IH _ (set_flag v)) by (apply list_lookup_insert_eq; by eapply lookup_lt_Some).
  by rewrite list_insert_insert_eq, Nat.iter_succ_r.
Qed.

Lemma run_values nm i f l s sl ps rest cmd : option_name spec nm = true → find_pos nm (arg_to_slot spec) = Some i →
  sl !! i = Some (Value (with_slot (init_slot parse_value f) s)) → takes s (length l) →
  Forall (λ tv, parse_value f tv.1 = Ok tv.2) l →
  run spec cmd (flat_map render (map (λ tv, IOption nm tv.1) l) ++ rest) (mkParse sl ps 0 false false None) =
  run spec cmd rest
    (mkParse (<[i := Value (with_slot (init_slot parse_value f) (push_all s l.*2))]> sl) ps 0 false false None).
Proof.
  intros Hn Hf. revert sl s. induction l as [|[t v] l IH]; intros sl s Hs Ht Hp; cbn [map flat_map render app].
  { cbn. by rewrite list_insert_id. }
  inversion Hp as [|? ? Hv Hp']; subst. destruct (takes_push s v _ Ht) as [H1 H2].
  rewrite (run_option spec _ _ _ _ _ _ _ _ Hn (parse_option_value spec _ _ _ _ _ _ _ Hf Hs (fill_push f s nm t v H1 Hv))).
  rewrite (IH _ (push_value v s)) by first [done | apply list_lookup_insert_eq; by eapply lookup_lt_Some].
  by rewrite list_insert_insert_eq.
Qed.

Lemma run_given p i sl ps rest cmd : given_ok p → field_names p.1 ≠ [] →
  Forall (λ n, option_name spec n = true) (field_names p.1) →
  (∀ n, n ∈ field_names p.1 → find_pos n (arg_to_slot spec) = Some i) → sl !! i = Some (opt_slot p.1) →
  is_option p.1 = true →
  run spec cmd (flat_map render (items_of p) ++ rest) (mkParse sl ps 0 false false None) =
  run spec cmd rest (mkParse (<[i := given_slot p]> sl) ps 0 false false None).
Proof.
  destruct p as [f g]. cbn [fst]. intros Hg Hne Hon Hf Hs Ho. unfold items_of, given_slot. cbn [fst snd].
  destruct (field_names f) as [|nm ns]; [done|]. inversion Hon as [|? ? Hn _]; subst.
  specialize (Hf nm ltac:(by left)). unfold given_ok in Hg. cbn [fst snd] in Hg. unfold opt_slot in Hs.
  destruct g as [n|l].
  - rewrite Hg in Hs. by apply run_flags.
  - destruct Hg as (Hk & Hc & Hp). unfold is_option in Ho.
    assert (kind f = Option_) as Hkf by (destruct Hk as [E|E]; [done|rewrite E in Ho; done]). rewrite Hkf in Hs.
    apply run_values; try done. apply takes_init. done.
Qed.

(** *** Positionals *)

Lemma parse_positional_step ps (index : nat) s w s' :
  ps !! index = Some s → fill_slot s [] w = Ok s' →
  parse_positional (V:=V) spec ps index w =
    Ok (if last_is_repeating spec && bool_decide (index = length ps - 1)%nat
        then (<[index := s']> ps, index, last_is_greedy spec) else (<[index := s']> ps, S index, false)).
Proof.
  intros Hs Hf. unfold parse_positional. rewrite Hs, Hf. cbn [map_err mbind res_bind].
  rewrite length_insert. by destruct (_ && _).
Qed.

(** The last positional takes every word that is left. *)
Lemma parse_positionals_last f l s ps : last_is_repeating spec = true →
  takes s (length l) → Forall (λ tv, parse_value f tv.1 = Ok tv.2) l →
  parse_positionals spec (ps ++ [with_slot (init_slot parse_value f) s]) (length ps) l.*1 =
  Ok (ps ++ [with_slot (init_slot parse_value f) (push_all s l.*2)], length ps).
Proof.
  intros Hr. revert s. induction l as [|[t v] l IH]; intros s Ht Hp; [done|]. cbn [fmap list_fmap fst parse_positionals].
  inversion Hp as [|? ? Hv Hp']; subst. destruct (takes_push s v _ Ht) as [H1 H2].
  rewrite (parse_positional_step _ _ (with_slot (init_slot parse_value f) s) t (with_slot (init_slot parse_value f) (push_value v s)));
    [|by rewrite lookup_app_r, Nat.sub_diag by lia|by apply fill_push].
  rewrite Hr, bool_decide_true by (rewrite length_app; cbn; lia). cbn [andb mbind res_bind].
  rewrite insert_app_r_alt, Nat.sub_diag by lia. cbn [insert list_insert]. by apply IH.
Qed.

Definition pos_slot (p : StructField * Given) : ValueSlot V :=
  match p.2 with
  | GVals l => with_slot (init_slot parse_value p.1) (push_all (slot (init_slot parse_value p.1)) l.*2)
  | GFlag _ => init_slot parse_value p.1
  end.

Lemma no_texts_slot p : given_ok p → texts_of p = [] → pos_slot p = init_slot parse_value p.1.
Proof.
  destruct p as [f [n|[|x l]]]; unfold texts_of, pos_slot; cbn [fst snd]; done.
Qed.

Lemma no_texts_slots l : Forall given_ok l → Forall (λ q, texts_of q = []) l →
  map pos_slot l = map (init_slot parse_value) l.*1 ∧ flat_map texts_of l = [].
Proof.
  induction l as [|p l IH]; intros Hg Ht; [done|]. inversion Hg; inversion Ht; subst.
  destruct IH as [IH1 IH2]; [done..|]. cbn. rewrite IH1, IH2, no_texts_slot by done. rewrite app_nil_r. done.
Qed.

Lemma parse_positionals_given l ps : Forall (λ p, given_ok p ∧ kind p.1 = Positional) l → pos_ok l →
  (l ≠ [] → last_is_repeating spec = match last l with Some p => match optionality p.1 with Repeating => true | _ => false end | None => false end) →
  ∃ i, parse_positionals spec (ps ++ map (init_slot parse_value) l.*1) (length ps) (flat_map texts_of l) =
    Ok (ps ++ map pos_slot l, i).
Proof.
  revert ps. induction l as [|p l IH]; intros ps Hg Hok Hr; [by eexists|].
  assert (Hg' : Forall given_ok (p :: l)) by (eapply Forall_impl; [exact Hg|]; by intros ? []).
  inversion Hg as [|? ? [Hgp Hk] Hgl]; subst. specialize (Hr ltac:(done)).
  assert (Hnone : Forall (λ q, texts_of q = []) (p :: l) →
    ∃ i, parse_positionals spec (ps ++ map (init_slot parse_value) (p :: l).*1) (length ps) (flat_map texts_of (p :: l)) =
      Ok (ps ++ map pos_slot (p :: l), i)).
  { intros Ht. destruct (no_texts_slots _ Hg' Ht) as [-> ->]. by eexists. }
  destruct p as [f g]. unfold given_ok in Hgp. cbn [fst snd] in *.
  destruct g as [n|ts]; [congruence|]. destruct Hgp as (_ & Hc & Hp).
  assert (Hone : ∀ t v, ts = [(t, v)] → (l = [] → last_is_repeating spec = false) → pos_ok l →
    ∃ i, parse_positionals spec (ps ++ map (init_slot parse_value) ((f, GVals ts) :: l).*1) (length ps)
        (flat_map texts_of ((f, GVals ts) :: l)) = Ok (ps ++ map pos_slot ((f, GVals ts) :: l), i)).
  { intros t v -> Hlast Hokl. cbn [fmap list_fmap fst snd map flat_map texts_of app parse_positionals].
    inversion Hp as [|? ? Hv _]; subst. cbn [fst snd] in Hv.
    rewrite (parse_positional_step _ _ (init_slot parse_value f) t
      (with_slot (init_slot parse_value f) (push_value v (slot (init_slot parse_value f)))));
      [|by rewrite lookup_app_r, Nat.sub_diag by lia|].
    2:{ rewrite <- (fill_push f _ [] t v); [by destruct (init_slot parse_value f)|by apply takes_init|done]. }
    assert (last_is_repeating spec && bool_decide (length ps = length (ps ++ init_slot parse_value f :: map (init_slot parse_value) l.*1) - 1)%nat = false) as ->.
    { destruct l as [|q l']; [by rewrite Hlast|]. rewrite bool_decide_false, andb_false_r; [done|].
      rewrite length_app. cbn. lia. }
    cbn [mbind res_bind]. rewrite insert_app_r_alt, Nat.sub_diag by lia. cbn [insert list_insert].
    destruct (IH (ps ++ [with_slot (init_slot parse_value f) (push_value v (slot (init_slot parse_value f)))])) as [i Hi]; [done|done| |].
    { intros Hl. rewrite Hr. by destruct l. }
    rewrite length_app, Nat.add_1_r, <- !app_assoc in Hi. cbn [app] in Hi. exists i. rewrite Hi. done. }
  destruct l as [|q l'].
  - cbn [pos_ok fst snd] in Hok. cbn [last] in Hr. cbn [fst] in Hr.
    destruct (optionality f) eqn:Eo; cbn [texts_of snd] in Hok; rewrite ?length_fmap in Hok.
    4:{ exists (length ps). cbn [fmap list_fmap fst map flat_map texts_of snd]. rewrite app_nil_r.
        pose proof (parse_positionals_last f ts (slot (init_slot parse_value f)) ps Hr) as Hl.
        replace (with_slot (init_slot parse_value f) (slot (init_slot parse_value f))) with (init_slot parse_value f) in Hl by done.
        rewrite Hl; [done| |done]. apply takes_init. by rewrite Eo. }
    all: destruct ts as [|[t v] [|]]; [apply Hnone; by repeat constructor|by eapply Hone|cbn in Hok; lia].
  - cbn [pos_ok] in Hok. destruct Hok as [[H1 Hok]|Hok]; [|by apply Hnone].
    cbn [texts_of snd] in H1. rewrite length_fmap in H1. destruct ts as [|[t v] [|]]; try done.
    by eapply Hone.
Qed.
End Run.

(** *** The whole command line *)

Lemma run_options spec opts dn rest cmd ps :
  Forall (λ p, given_ok p ∧ is_option p.1 = true ∧ field_names p.1 ≠ []) opts →
  Forall (λ p, Forall (λ n, option_name spec n = true) (field_names p.1)) opts →
  (∀ i p n, opts !! i = Some p → n ∈ field_names p.1 → find_pos n (arg_to_slot spec) = Some (length dn + i)%nat) →
  run spec cmd (flat_map (λ p, flat_map render (items_of p)) opts ++ rest)
    (mkParse (dn ++ map opt_slot opts.*1) ps 0 false false None) =
  run spec cmd rest (mkParse (dn ++ map given_slot opts) ps 0 false false None).
Proof.
  revert dn. induction opts as [|p opts IH]; intros dn Hg Hn Hf; [done|].
  inversion Hg as [|? ? (Hgp & Ho & Hne) Hg']; inversion Hn as [|? ? Hnp Hn']; subst.
  cbn [flat_map]. rewrite <- app_assoc.
  rewrite (run_given spec p (length dn)); [|done|done|done| | |done].
  - rewrite insert_app_r_alt, Nat.sub_diag by lia. cbn [fmap list_fmap map insert list_insert].
    specialize (IH (dn ++ [given_slot p]) Hg' Hn'). rewrite <- !app_assoc in IH. apply IH.
    intros i q n Hi Hin. rewrite (Hf (S i) q n Hi Hin), length_app. cbn. f_equal. lia.
  - intros n Hin. rewrite (Hf O p n eq_refl Hin). f_equal. lia.
  - rewrite lookup_app_r, Nat.sub_diag by lia. done.
Qed.

Lemma of_kind_app k a b : of_kind k (a ++ b) = of_kind k a ++ of_kind k b.
Proof. unfold of_kind. by rewrite List.filter_app. Qed.

Lemma of_kind_none k fs : Forall (λ f, kind f ≠ k) fs → of_kind k fs = [].
Proof. induction 1 as [|f fs Hf _ IH]; [done|]. unfold of_kind in *. cbn. by rewrite bool_decide_false. Qed.

Lemma of_kind_all k fs : Forall (λ f, kind f = k) fs → of_kind k fs = fs.
Proof. induction 1 as [|f fs Hf _ IH]; [done|]. unfold of_kind in *. cbn. by rewrite bool_decide_true, IH. Qed.

Lemma is_option_kind f k : is_option f = true → k = Positional ∨ k = SubCommand → kind f ≠ k.
Proof. unfold is_option. intros Ho [-> | ->] E; by rewrite E in Ho. Qed.

Lemma table_opts opts poss : Forall (λ f, is_option f = true) opts → Forall (λ f, kind f = Positional) poss →
  flag_output_table parse_value (opts ++ poss) = map opt_slot opts.
Proof.
  intros Ho Hp. induction Ho as [|f opts Hf _ IH]; cbn [app map].
  - induction Hp as [|f poss Hf _ IH]; [done|]. unfold flag_output_table in *. cbn. by rewrite Hf.
  - unfold flag_output_table in *. rewrite <- IH. unfold is_option in Hf. unfold opt_slot. cbn. by destruct (kind f).
Qed.

Definition local_of (p : StructField * Given) : Local V W :=
  match p.2 with
  | GFlag n => LFlag (Nat.iter n set_flag (flag_default (f_ty p.1)))
  | GVals l => LSlot (push_all (slot (init_slot parse_value p.1)) l.*2)
  end.

Lemma locals_given opts poss :
  Forall (λ p, given_ok p ∧ is_option p.1 = true) opts → Forall (λ p, given_ok p ∧ kind p.1 = Positional) poss →
  locals (opts ++ poss).*1 (map given_slot opts) (map pos_slot poss) None = map local_of (opts ++ poss).
Proof.
  intros Ho Hp. induction Ho as [|[f g] opts [Hg Hf] _ IH]; cbn [app fmap list_fmap map fst locals].
  - induction Hp as [|[f g] poss [Hg Hf] _ IH]; [done|]. cbn [fmap list_fmap map fst locals] in *. rewrite Hf.
    unfold given_ok, pos_slot, local_of in *. cbn [fst snd] in *. destruct g as [n|l]; [congruence|].
    cbn [map] in IH. by rewrite IH.
  - unfold given_ok, is_option, given_slot, local_of in *. cbn [fst snd] in *. destruct g as [n|l].
    + rewrite Hg. by rewrite IH.
    + destruct Hg as ([E|E] & _); rewrite E in *; [|done]. by rewrite IH.
Qed.

Lemma push_all_many (l vs : list V) : push_all (Many l) vs = Many (l ++ vs).
Proof. revert l. induction vs as [|v vs IH]; intros l; cbn; [by rewrite app_nil_r|]. unfold push_all in IH. by rewrite IH, <- app_assoc. Qed.

Lemma push_all_opt_many (o : option (list V)) (vs : list V) :
  push_all (OptMany o) vs = OptMany (match vs with [] => o | _ => Some (default [] o ++ vs) end).
Proof.
  revert o. induction vs as [|v vs IH]; intros o; [done|]. cbn. unfold push_all in IH. rewrite IH.
  destruct vs as [|w vs]; [done|]. cbn. by rewrite <- app_assoc.
Qed.

Lemma unwrap_given p : given_ok p →
  unwrap_field default_value default_values p.1 (local_of p) = Ok (value_of p) ∧
  is_required (optionality p.1) && is_none (local_of p) = false.
Proof.
  destruct p as [f [n|l]]; unfold given_ok, local_of, value_of; cbn [fst snd].
  { intros _. split; [done|by rewrite andb_false_r]. }
  intros (_ & Hc & _). unfold init_slot, count_ok in *. cbn [slot].
  destruct (optionality f) as [|d| | |d] eqn:Eo; cbn [is_required andb unwrap_field];
    rewrite ?Eo, ?push_all_many, ?push_all_opt_many;
    destruct l as [|[t v] [|]]; cbn in Hc |- *; rewrite ?Eo; first [done|lia].
Qed.

Lemma unwrap_all ps : Forall given_ok ps →
  unwrap_fields default_value default_values ps.*1 (map local_of ps) = Ok (map value_of ps) ∧
  ∀ m, append_missing_requirements commands ps.*1 (map local_of ps) m = m.
Proof.
  induction 1 as [|p ps Hp _ [IH1 IH2]]; [done|]. destruct (unwrap_given p Hp) as [H1 H2].
  cbn [fmap list_fmap map unwrap_fields append_missing_requirements]. split.
  - by rewrite H1, IH1.
  - intros m. by rewrite H2, IH2.
Qed.

Lemma from_args_given t cmd opts poss :
  Forall (λ p, given_ok p ∧ is_option p.1 = true ∧ field_names p.1 ≠ []) opts →
  Forall (λ p, given_ok p ∧ kind p.1 = Positional ∧ field_names p.1 = []) poss →
  NoDup (flat_map field_names opts.*1) →
  Forall (λ p, Forall (λ n, starts_with (bs "-") n = true ∧ n ≠ bs "--" ∧ n ∉ get_help_triggers t) (field_names p.1)) opts →
  bs "--" ∉ get_help_triggers t → pos_ok poss →
  from_args parse_value default_value default_values commands sub_from_args t (opts ++ poss).*1 cmd (cmdline opts poss) =
    Ok (map value_of (opts ++ poss)).
Proof.
  intros Ho Hp Hnd Hnames Hdash Hpos.
  assert (Hof : Forall (λ f, is_option f = true) opts.*1) by (apply Forall_fmap; eapply Forall_impl; [exact Ho|]; cbn; tauto).
  assert (Hpf : Forall (λ f, kind f = Positional) poss.*1) by (apply Forall_fmap; eapply Forall_impl; [exact Hp|]; cbn; tauto).
  assert (Hopk : ∀ k, k = Positional ∨ k = SubCommand → of_kind k opts.*1 = []).
  { intros k Hk. apply of_kind_none. eapply Forall_impl; [exact Hof|]. intros f Hf. by apply is_option_kind. }
  assert (Hsub : subcommand_field (opts ++ poss).*1 = None).
  { unfold subcommand_field. rewrite fmap_app, of_kind_app, Hopk by tauto. rewrite of_kind_none; [done|].
    eapply Forall_impl; [exact Hpf|]. intros f E. by rewrite E. }
  assert (Hposk : of_kind Positional (opts ++ poss).*1 = poss.*1).
  { rewrite fmap_app, of_kind_app, Hopk by tauto. by rewrite of_kind_all. }
  unfold from_args, parse_struct_args.
  set (spec := spec_of commands sub_from_args (get_help_triggers t) (opts ++ poss).*1).
  fold (run spec cmd (cmdline opts poss) (mkParse (flag_output_table parse_value (opts ++ poss).*1)
    (positional_table parse_value (opts ++ poss).*1) 0 false false None)).
  unfold positional_table. rewrite Hposk. rewrite fmap_app, table_opts by done. unfold cmdline.
  change (map opt_slot opts.*1) with ([] ++ map opt_slot opts.*1). rewrite (run_options spec opts []).
  2:{ exact Ho. }
  2:{ eapply Forall_impl; [exact Hnames|]. intros p Hpn. cbn beta in Hpn. eapply Forall_impl; [exact Hpn|]. cbn beta.
      intros n (H1 & H2 & H3). unfold option_name. by rewrite H1, !bool_decide_false. }
  2:{ intros i p n Hi Hn. cbn [length Nat.add]. unfold spec, spec_of. cbn [arg_to_slot]. rewrite entries_eq.
      rewrite (find_pos_entries _ 0 i p.1 n); [done| | |done].
      - rewrite fmap_app, flat_map_app. replace (flat_map field_names poss.*1) with (@nil bytes); [by rewrite app_nil_r|].
        clear -Hp. induction Hp as [|q l (_ & _ & Hq) _ IH]; [done|]. cbn. by rewrite Hq.
      - rewrite fmap_app. apply lookup_app_l_Some. by rewrite list_lookup_fmap, Hi. }
  cbn [app]. rewrite run_dashes by done. rewrite run_rest by (unfold spec, spec_of; cbn [subcommands]; by rewrite Hsub).
  destruct (parse_positionals_given spec poss []) as [i Hi]; [|done| |].
  { eapply Forall_impl; [exact Hp|]. by intros p (? & ? & _). }
  { intros _. unfold spec, spec_of. cbn [last_is_repeating]. rewrite Hposk, fmap_last. by destruct (last poss). }
  cbn [app length] in Hi. rewrite Hi. cbn [mbind res_bind chosen slots positionals].
  rewrite <- fmap_app, locals_given.
  2:{ eapply Forall_impl; [exact Ho|]. by intros p (? & ? & _). }
  2:{ eapply Forall_impl; [exact Hp|]. by intros p (? & ? & _). }
  destruct (unwrap_all (opts ++ poss)) as [Hu Hm].
  { apply Forall_app. split; [eapply Forall_impl; [exact Ho|]|eapply Forall_impl; [exact Hp|]]; by intros p []. }
  rewrite Hm. cbn [err_on_any m_options m_subcommands m_positional_args map_err mbind res_bind]. exact Hu.
Qed.

(** C35: the derived parser reads back what a value renders to.  Let the options and
    switches of a struct without a subcommand come before its positionals, with names that are
    all different and look like options (an option behind a positional panics, see
    [switch_behind_positional_panics]).  Give every field texts that parse, as many as it takes, and
    every switch a number of occurrences; write the options one after the other, [--],
    and the positionals.  Then [from_args] returns exactly these values: integers count
    their switch, repeated options keep their order, absent fields get their defaults. *)
Theorem from_args_roundtrip t cmd opts poss :
  Forall (λ p, given_ok p ∧ is_option p.1 = true ∧ field_names p.1 ≠ []) opts →
  Forall (λ p, given_ok p ∧ kind p.1 = Positional ∧ field_names p.1 = []) poss →
  NoDup (flat_map field_names opts.*1) →
  Forall (λ p, Forall (λ n, starts_with (bs "-") n = true ∧ n ≠ bs "--" ∧ n ∉ get_help_triggers t) (field_names p.1)) opts →
  bs "--" ∉ get_help_triggers t → pos_ok poss →
  from_args parse_value default_value default_values commands sub_from_args t (opts ++ poss).*1 cmd (cmdline opts poss) =
    Ok (map value_of (opts ++ poss)).
Proof. exact (from_args_given t cmd opts poss). Qed.
End RoundTrip.

(** ** A check that computes

    The first [k] fields of a struct are options with usable names, the others
    positionals; what is given fits their numbers. *)

Definition struct_check (s : TypeAttrs * list StructField) (k : nat) : bool :=
  forallb (λ f, is_option f && bool_decide (field_names f ≠ []) &&
    forallb (λ n, starts_with (bs "-") n && bool_decide (n ≠ bs "--") && bool_decide (n ∉ get_help_triggers s.1))
      (field_names f)) (take k s.2) &&
  forallb (λ f, bool_decide (kind f = Positional) && bool_decide (field_names f = [])) (drop k s.2) &&
  bool_decide (NoDup (flat_map field_names (take k s.2))) &&
  bool_decide (bs "--" ∉ get_help_triggers s.1).

Definition count_check (o : Optionality) (n : nat) : bool :=
  match o with
  | Required => (n =? 1)%nat
  | Optional | Defaulted _ => (n <=? 1)%nat
  | Repeating | DefaultedRepeating _ => true
  end.

Section Check.
Context {V : Type} (parse_value : StructField → bytes → res bytes V).

Definition arg_check (p : StructField * Given (V := V)) : bool :=
  match p.2 with
  | GFlag _ => bool_decide (kind p.1 = Switch)
  | GVals l => bool_decide (kind p.1 = Option_ ∨ kind p.1 = Positional) && count_check (optionality p.1) (length l)
  end.

Definition no_words (p : StructField * Given (V := V)) : bool := match p.2 with GVals (_ :: _) => false | _ => true end.

Fixpoint pos_check (l : list (StructField * Given (V := V))) : bool :=
  match l with
  | [] => true
  | p :: rest =>
      match rest with
      | [] => match optionality p.1, p.2 with
              | Repeating, _ | _, GFlag _ => true
              | _, GVals l => (length l <=? 1)%nat
              end
      | _ => match p.2 with GVals l => (length l =? 1)%nat && pos_check rest | GFlag _ => false end
             || forallb no_words (p :: rest)
      end
  end.

(** The texts that are given parse to the values that go with them. *)
Definition parses (p : StructField * Given (V := V)) : Prop :=
  match p.2 with GVals l => Forall (λ tv, parse_value p.1 tv.1 = Ok tv.2) l | GFlag _ => True end.

Lemma count_check_ok o n : count_check o n = true → count_ok o n.
Proof.
  destruct o; cbn; [by intros ?%Nat.eqb_eq|by intros ?%Nat.leb_le|by intros ?%Nat.leb_le|done|done].
Qed.

Lemma arg_check_ok l : forallb arg_check l = true → Forall parses l → Forall (given_ok parse_value) l.
Proof.
  intros Hl Hp. induction Hp as [|[f [n|vs]] l Hp _ IH]; [constructor|..]; cbn [forallb] in Hl;
    apply andb_prop in Hl as [Ha Hl]; (constructor; [|by apply IH]); unfold arg_check in Ha; cbn [fst snd] in *.
  - by apply bool_decide_eq_true in Ha.
  - apply andb_prop in Ha as [Hk%bool_decide_eq_true Hc]. split_and!; [exact Hk|by apply count_check_ok|exact Hp].
Qed.

Lemma length_texts f (l : list (bytes * V)) : length (texts_of (f, GVals l)) = length l.
Proof. unfold texts_of. cbn. by rewrite length_fmap. Qed.

Lemma no_words_ok l : forallb no_words l = true → Forall (λ q, texts_of q = []) l.
Proof.
  induction l as [|[f [b|[|w ws]]] l IH]; [constructor|..]; cbn [forallb no_words snd];
    intros [Ha Hl]%andb_prop; (constructor; [done|by apply IH]) || done.
Qed.

Lemma pos_check_ok l : pos_check l = true → pos_ok l.
Proof.
  induction l as [|[f a] [|q rest] IH]; [done|..]; intros Hc.
  - cbn [pos_check fst snd] in Hc. cbn [pos_ok fst snd]. destruct (optionality f); try done;
      (destruct a as [b|ws]; [cbn; lia|]; apply Nat.leb_le in Hc; by rewrite length_texts).
  - change (pos_ok ((f, a) :: q :: rest)) with ((length (texts_of (f, a)) = 1%nat ∧ pos_ok (q :: rest)) ∨
      Forall (λ q, texts_of q = []) ((f, a) :: q :: rest)). cbn [pos_check] in Hc. apply orb_prop in Hc as [Hc|Hc].
    + left. destruct a as [b|ws]; [done|]. cbn [snd] in Hc. apply andb_prop in Hc as [H1%Nat.eqb_eq H2].
      rewrite length_texts. split; [done|by apply IH].
    + right. by apply no_words_ok.
Qed.

Definition args_check (s : TypeAttrs * list StructField) (k : nat) (opts poss : list (Given (V := V))) : bool :=
  struct_check s k && (length opts =? length (take k s.2))%nat && (length poss =? length (drop k s.2))%nat &&
  forallb arg_check (zip (take k s.2) opts) && forallb arg_check (zip (drop k s.2) poss) &&
  pos_check (zip (drop k s.2) poss).

Lemma Forall_zip_l {A B} (P : A → Prop) (l : list A) (k : list B) : Forall P l → Forall (λ p, P p.1) (zip l k).
Proof. intros Hl. revert k. induction Hl as [|a l Ha _ IH]; intros [|b k]; constructor; auto. Qed.

Lemma from_args_checked {W} default_value default_values commands (sub : list bytes → list bytes → res EarlyExit W)
    s k opts poss cmd :
  args_check s k opts poss = true →
  Forall parses (zip (take k s.2) opts) → Forall parses (zip (drop k s.2) poss) →
  from_args parse_value default_value default_values commands sub s.1 s.2 cmd
    (cmdline (zip (take k s.2) opts) (zip (drop k s.2) poss)) =
  Ok (map (value_of default_value default_values) (zip (take k s.2) opts ++ zip (drop k s.2) poss)).
Proof.
  unfold args_check, struct_check.
  intros [[[[[[[[Hopts Hposs]%andb_prop Hnd]%andb_prop Hdash]%andb_prop Hlo%Nat.eqb_eq]%andb_prop Hlp%Nat.eqb_eq]%andb_prop
    Hao]%andb_prop Hap]%andb_prop Hpc%pos_check_ok]%andb_prop Hpo Hpp.
  apply arg_check_ok in Hao; [|done]. apply arg_check_ok in Hap; [|done].
  apply bool_decide_eq_true in Hnd, Hdash. rewrite forallb_forall in Hopts, Hposs.
  assert (Hfs : s.2 = (zip (take k s.2) opts ++ zip (drop k s.2) poss).*1).
  { rewrite fmap_app, !fst_zip, take_drop by lia. done. }
  rewrite Hfs at 1. apply from_args_given.
  - apply Forall_and. split; [exact Hao|]. apply (Forall_zip_l (λ f, is_option f = true ∧ field_names f ≠ [])).
    apply Forall_forall. intros f Hf%list_elem_of_In%Hopts. apply andb_prop in Hf as [[H1 H2]%andb_prop _].
    by apply bool_decide_eq_true in H2.
  - apply Forall_and. split; [exact Hap|]. apply (Forall_zip_l (λ f, kind f = Positional ∧ field_names f = [])).
    apply Forall_forall. intros f Hf%list_elem_of_In%Hposs. apply andb_prop in Hf as [H1 H2].
    by apply bool_decide_eq_true in H1, H2.
  - rewrite fst_zip by lia. exact Hnd.
  - apply (Forall_zip_l (λ f, Forall (λ n, starts_with (bs "-") n = true ∧ n ≠ bs "--" ∧ n ∉ get_help_triggers s.1) (field_names f))).
    apply Forall_forall. intros f Hf%list_elem_of_In%Hopts. apply andb_prop in Hf as [_ Hf].
    rewrite forallb_forall in Hf. apply Forall_forall. intros n Hn%list_elem_of_In%Hf.
    apply andb_prop in Hn as [[H1 H2]%andb_prop H3]. by apply bool_decide_eq_true in H2, H3.
  - exact Hdash.
  - exact Hpc.
Qed.
End Check.

(** A struct that is one required subcommand hands everything to it; behind [--] the name
    may look like an option. *)
Lemma from_args_subcommand_at {V W} (parse_value : StructField → bytes → res bytes V)
    default_value default_values commands (sub_from_args : list bytes → list bytes → res EarlyExit W) t f cmd
    (dashes : bool) name rest :
  kind f = SubCommand → optionality f = Required → is_subcommand t = None → help_triggers_ t = None →
  dashes || negb (starts_with (bs "-") name) = true →
  existsb (λ c, bool_decide (cmd_name_ c = name)) commands = true →
  from_args parse_value default_value default_values commands sub_from_args t [f] cmd
    ((if dashes then [bs "--"] else []) ++ name :: rest) =
    (w ← sub_from_args (cmd ++ [name]) rest; Ok [FSub w]).
Proof.
  intros Hk Ho Ht Hh Hn He. unfold from_args, parse_struct_args.
  set (spec := spec_of commands sub_from_args (get_help_triggers t) [f]).
  assert (Hf : ∀ k, k ≠ SubCommand → of_kind k [f] = []).
  { intros k Hne. apply of_kind_none. constructor; [by rewrite Hk|constructor]. }
  assert (Hsub : parse_subcommand spec false cmd name rest =
    (w ← sub_from_args (cmd ++ [name]) rest; Ok (Some (cmd ++ [name], rest)))).
  { unfold parse_subcommand.
    assert (Hc : subcommands spec = Some commands).
    { unfold spec, spec_of, subcommand_field. cbn [subcommands]. by rewrite of_kind_all by (by repeat constructor). }
    rewrite Hc, He. change (sub_parse spec (cmd ++ [name]) rest) with (_ ← sub_from_args (cmd ++ [name]) rest; Ok tt).
    by destruct (sub_from_args (cmd ++ [name]) rest). }
  assert (Htr : help_triggers spec = [bs "-h"; bs "--help"]).
  { unfold spec, spec_of, get_help_triggers. cbn [help_triggers]. by rewrite Ht, Hh. }
  assert (Hstep : ∀ fuel (sl : list (OptSlot V)) (ps : list (ValueSlot V)),
    parse_args spec (S fuel) cmd (name :: rest) (mkParse sl ps 0 false dashes None) =
    (w ← sub_from_args (cmd ++ [name]) rest; Ok (mkParse sl ps 0 false dashes (Some (cmd ++ [name], rest))))).
  { intros fuel sl ps. cbn [parse_args slots positionals index help options_ended chosen]. rewrite Hsub.
    assert (bool_decide (name ∈ help_triggers spec) && negb dashes = false ∧
            starts_with (bs "-") name && negb dashes = false) as [-> ->].
    { destruct dashes; [by rewrite !andb_false_r|]. apply negb_true_iff in Hn. rewrite Hn. split; [|done].
      rewrite bool_decide_false; [done|]. rewrite Htr.
      intros [->|[->|Hin%not_elem_of_nil]%elem_of_cons]%elem_of_cons; done. }
    by destruct (sub_from_args (cmd ++ [name]) rest). }
  assert (Hrun : ∀ (sl : list (OptSlot V)) (ps : list (ValueSlot V)),
    parse_args spec (S (length ((if dashes then [bs "--"] else []) ++ name :: rest))) cmd
      ((if dashes then [bs "--"] else []) ++ name :: rest) (mkParse sl ps 0 false false None) =
    (w ← sub_from_args (cmd ++ [name]) rest; Ok (mkParse sl ps 0 false dashes (Some (cmd ++ [name], rest))))).
  { intros sl ps. destruct dashes; [|by cbn [app length]; rewrite Hstep].
    cbn [app length]. rewrite <- (Hstep (S (length rest)) sl ps).
    remember (S (S (length rest))) as k. cbn [parse_args slots positionals index help options_ended chosen].
    rewrite (bool_decide_false (bs "--" ∈ help_triggers spec)) by (rewrite Htr; by_compute). 
    reflexivity. }
  rewrite Hrun.
  destruct (sub_from_args (cmd ++ [name]) rest) as [w|e| |] eqn:Ew; [|done..].
  cbn [mbind res_bind chosen slots positionals]. rewrite Ew. cbn [mbind res_bind].
  replace (locals [f] _ _ (Some w)) with [LSub (V := V) (Some w)] by (cbn; by rewrite Hk).
  cbn [append_missing_requirements is_none]. rewrite andb_false_r.
  cbn [err_on_any m_options m_subcommands m_positional_args map_err mbind res_bind unwrap_fields unwrap_field].
  by rewrite Ho.
Qed.

Lemma from_args_subcommand {V W} (parse_value : StructField → bytes → res bytes V)
    default_value default_values commands (sub_from_args : list bytes → list bytes → res EarlyExit W) t f cmd name rest :
  kind f = SubCommand → optionality f = Required → is_subcommand t = None → help_triggers_ t = None →
  starts_with (bs "-") name = false → existsb (λ c, bool_decide (cmd_name_ c = name)) commands = true →
  from_args parse_value default_value default_values commands sub_from_args t [f] cmd (name :: rest) =
    (w ← sub_from_args (cmd ++ [name]) rest; Ok [FSub w]).
Proof.
  intros Hk Ho Ht Hh Hn He.
  apply (from_args_subcommand_at parse_value default_value default_values commands sub_from_args t f cmd false); try done.
  by rewrite Hn.
Qed.

(** An enum runs the first variant of that name. *)
Fixpoint find_variant {P} (name : bytes) (i : nat) (vs : list (bytes * P)) : option (nat * P) :=
  match vs with
  | [] => None
  | (n, f) :: vs => if bool_decide (name = n) then Some (i, f) else find_variant name (S i) vs
  end.

Lemma from_args_enum_find {W} (variants : list (bytes * (list bytes → list bytes → res EarlyExit W))) cmd name args i f :
  find_variant name 0 variants = Some (i, f) →
  from_args_enum variants None (cmd ++ [name]) args = (w ← f (cmd ++ [name]) args; Ok (i, w)).
Proof.
  unfold from_args_enum. rewrite last_snoc. generalize (cmd ++ [name]). intros command. generalize O.
  induction variants as [|[n g] vs IH]; intros k; [done|]. cbn [find_variant].
  case_bool_decide; [|apply IH]. intros E. by simplify_eq.
Qed.

(** ** What the macro accepts *)

(** A run that only adds errors. *)
Definition grows {A} (m : M A) : Prop := ∀ es, ∃ es', (m es).1 = es ++ es'.

Lemma grows_ret {A} (a : A) : grows (mret a).
Proof. intros es. exists []. by rewrite app_nil_r. Qed.
Lemma grows_err msg : grows (err msg).
Proof. intros es. by exists [msg]. Qed.
Lemma grows_panic {A} : grows (panic (A := A)).
Proof. intros es. exists []. by rewrite app_nil_r. Qed.

Lemma grows_bind {A B} (m : M A) (f : A → M B) : grows m → (∀ a, grows (f a)) → grows (m ≫= f).
Proof.
  intros Hm Hf es. destruct (Hm es) as [es1 H1]. cbn. unfold mbind, M_bind.
  destruct (m es) as [es' [a|e| |]]; cbn in *; subst; try by exists es1.
  destruct (Hf a (es ++ es1)) as [es2 H2]. exists (es1 ++ es2). by rewrite H2, <- app_assoc.
Qed.

Lemma grows_on_some {A S} (s : S) m (f : A → M S) : grows m → (∀ a, grows (f a)) → grows (on_some s m f).
Proof. intros Hm Hf. apply grows_bind; [done|]. intros [a|]; [apply Hf|apply grows_ret]. Qed.

Lemma grows_for_each {A S} (f : S → A → M S) s l : (∀ s a, grows (f s a)) → grows (for_each f s l).
Proof. intros Hf. revert s. induction l as [|a l IH]; intros s; [apply grows_ret|]. apply grows_bind; auto. Qed.

#[local] Hint Resolve grows_ret grows_err grows_panic : magisk.

(** A run is taken apart at its head, and its cases one by one. *)
Ltac grows :=
  lazymatch goal with
  | |- grows (mbind _ _) => apply grows_bind; [grows|intros ?; grows]
  | |- grows (on_some _ _ _) => apply grows_on_some; [grows|intros ?; grows]
  | |- grows (for_each _ _ _) => apply grows_for_each; intros ? ?; grows
  | |- grows (match ?x with _ => _ end) => destruct x; grows
  | |- grows (let _ := _ in _) => cbv zeta; grows
  | |- ∀ _, _ => intros ?; grows
  | _ => auto with magisk
  end.

Lemma grows_duplicate k : grows (duplicate_attrs k).
Proof. unfold duplicate_attrs. grows. Qed.
Lemma grows_lit e x : grows (unexpected_lit e x).
Proof. unfold unexpected_lit. grows. Qed.
Lemma grows_meta e x : grows (unexpected_meta e x).
Proof. unfold unexpected_meta. grows. Qed.
#[local] Hint Resolve grows_duplicate grows_lit grows_meta : magisk.
Lemma grows_str e : grows (expect_lit_str e).
Proof. unfold expect_lit_str. grows. Qed.
Lemma grows_char e : grows (expect_lit_char e).
Proof. unfold expect_lit_char. grows. Qed.
Lemma grows_word m : grows (expect_meta_word m).
Proof. unfold expect_meta_word. grows. Qed.
Lemma grows_list m : grows (expect_meta_list m).
Proof. unfold expect_meta_list. grows. Qed.
Lemma grows_nv m : grows (expect_meta_name_value m).
Proof. unfold expect_meta_name_value. grows. Qed.
Lemma grows_ok {A} (r : bytes + A) : grows (ok r).
Proof. unfold ok. grows. Qed.
#[local] Hint Resolve grows_str grows_char grows_word grows_list grows_nv grows_ok : magisk.

(** A run without errors: each of its parts had none. *)
Lemma bind_clean {A B} (m : M A) (f : A → M B) b : grows m → (∀ a, grows (f a)) →
  (m ≫= f) [] = ([], Ok b) → ∃ a, m [] = ([], Ok a) ∧ f a [] = ([], Ok b).
Proof.
  intros Hm Hf. unfold mbind, M_bind. destruct (Hm []) as [es1 H1].
  destruct (m []) as [es [a|e| |]]; cbn in H1; subst; intros E; try congruence.
  destruct (Hf a es1) as [es2 H2]. rewrite E in H2. cbn in H2. symmetry in H2. apply app_eq_nil in H2 as [-> ->].
  eauto.
Qed.

Section Accepted.
Context (lower_beyond alnum_beyond : bytes → bool) (lexes : bytes → bool).

Lemma grows_long_name v : grows (check_long_name lower_beyond v).
Proof. unfold check_long_name. grows. Qed.
#[local] Hint Resolve grows_long_name : magisk.

Lemma grows_field_meta f m : grows (field_meta lower_beyond f m).
Proof.
  unfold field_meta, parse_attr_single_string, parse_attr_description, parse_attr_fn_name, parse_attr_field_type,
    parse_attr_long, parse_attr_short. grows.
Qed.
#[local] Hint Resolve grows_field_meta : magisk.

Lemma grows_field_attrs l : grows (parse_field_attrs lower_beyond alnum_beyond l).
Proof.
  unfold parse_field_attrs, field_attr, parse_attr_doc, check_option_description. grows.
Qed.

Lemma grows_field_long r a : grows (field_long_name lower_beyond r a).
Proof. unfold field_long_name. grows. Qed.
#[local] Hint Resolve grows_field_attrs grows_field_long : magisk.

Lemma grows_field_new r a : grows (struct_field_new lower_beyond lexes r a).
Proof. unfold struct_field_new, ty_expect_switch, ty_can_be_switch, field_optionality. grows. Qed.
#[local] Hint Resolve grows_field_new : magisk.

Lemma grows_unique s l fs : grows (ensure_unique_names s l fs).
Proof. revert s l. induction fs as [|f fs IH]; intros s l; cbn [ensure_unique_names]; grows. Qed.
Lemma grows_trailing b fs : grows (ensure_only_trailing_positionals_are_optional b fs).
Proof. revert b. induction fs as [|f fs IH]; intros b; cbn [ensure_only_trailing_positionals_are_optional]; grows. Qed.
Lemma grows_single fs : grows (check_single_subcommand fs).
Proof. unfold check_single_subcommand. grows. Qed.
Lemma grows_sub t : grows (sub_cmd_name t).
Proof. unfold sub_cmd_name. grows. Qed.
Lemma grows_collect rs : grows (collect_fields lower_beyond alnum_beyond lexes rs).
Proof. induction rs as [|r rs IH]; cbn [collect_fields]; grows. Qed.
#[local] Hint Resolve grows_unique grows_trailing grows_single grows_sub grows_collect : magisk.

Lemma clean_err {A} msg (m : M A) b : grows m → (_ ← err msg; m) [] = ([], Ok b) → False.
Proof.
  intros Hm E. apply bind_clean in E as (a & E & _); [done|apply grows_err|auto].
Qed.

(** Names behind which the macro lets a struct pass. *)
Lemma unique_names shorts longs fs u : ensure_unique_names shorts longs fs [] = ([], Ok u) →
  NoDup (omap (short ∘ attrs) fs) ∧ (∀ s, s ∈ shorts → s ∉ omap (short ∘ attrs) fs) ∧
  NoDup (omap long_name fs) ∧ (∀ s, s ∈ longs → s ∉ omap long_name fs).
Proof.
  revert shorts longs. induction fs as [|f fs IH]; intros shorts longs E.
  { split_and!; try constructor; by intros s _ ?%not_elem_of_nil. }
  cbn [ensure_unique_names] in E. apply bind_clean in E as ([] & Es & E); [|grows..].
  apply bind_clean in E as ([] & El & E); [|grows..]. specialize (IH _ _ E). destruct IH as (H1 & H2 & H3 & H4).
  assert (Hs : ∀ s, short (attrs f) = Some s → s ∉ shorts).
  { intros s Hs Hin. rewrite Hs in Es. unfold name_used in Es. rewrite bool_decide_true in Es by done.
    by apply clean_err in Es; [|grows]. }
  assert (Hl : ∀ l, long_name f = Some l → l ∉ longs).
  { intros l Hl Hin. rewrite Hl in El. unfold name_used in El. rewrite bool_decide_true in El by done.
    by apply clean_err in El; [|grows]. }
  split_and!.
  - cbn. destruct (short (attrs f)) as [s|]; [|done]. constructor; [|done]. apply H2. cbn. by left.
  - intros s Hin. cbn. destruct (short (attrs f)) as [s'|].
    + intros [->|Hin']%elem_of_cons; [by apply (Hs s')|]. apply (H2 s); [|done]. cbn. by right.
    + apply H2. done.
  - cbn. destruct (long_name f) as [s|]; [|done]. constructor; [|done]. apply H4. cbn. by left.
  - intros s Hin. cbn. destruct (long_name f) as [s'|].
    + intros [->|Hin']%elem_of_cons; [by apply (Hl s')|]. apply (H4 s); [|done]. cbn. by right.
    + apply H4. done.
Qed.

(** No required positional behind one that is not. *)
Fixpoint trailing_ok (non_required : bool) (fs : list StructField) : bool :=
  match fs with
  | [] => true
  | f :: fs =>
      negb (non_required && is_required (optionality f)) &&
      trailing_ok (non_required || negb (is_required (optionality f))) fs
  end.

Lemma trailing_clean b fs u : ensure_only_trailing_positionals_are_optional b fs [] = ([], Ok u) →
  trailing_ok b (of_kind Positional fs) = true.
Proof.
  revert b. induction fs as [|f fs IH]; intros b E; [done|].
  cbn [ensure_only_trailing_positionals_are_optional] in E. unfold of_kind. cbn [List.filter].
  destruct (bool_decide (kind f = Positional)); [|by apply IH]. cbn [trailing_ok].
  destruct (b && _); [by apply clean_err in E; [|grows]|]. by apply IH.
Qed.

(** What holds of one accepted field. *)
Definition field_wf (f : StructField) : Prop :=
  (is_option f = true → field_names f ≠ []) ∧
  (is_option f = false → long_name f = None) ∧
  (∀ l, long_name f = Some l → ∃ n, l = bs "--" ++ n ∧ n ≠ bs "help") ∧
  (kind f = Switch → optionality f = Optional) ∧
  (kind f = SubCommand → optionality f = Optional ∨ optionality f = Required).

Lemma field_new_wf r a f : struct_field_new lower_beyond lexes r a [] = ([], Ok (Some f)) → field_wf f.
Proof.
  unfold struct_field_new. destruct (field_type a) as [k|]; [|intros E; by apply clean_err in E; [|grows]].
  intros E. apply bind_clean in E as (o & Eo & E); [|unfold ty_expect_switch, ty_can_be_switch, field_optionality; grows|grows].
  destruct o as [[opt inner]|]; [|done]. apply bind_clean in E as (l & El & E); [|grows..].
  injection E as <-.
  assert (Hl : (k = Switch ∨ k = Option_ → (∀ l', l = Some l' → ∃ n, l' = bs "--" ++ n ∧ n ≠ bs "help") ∧ (short a ≠ None ∨ l ≠ None))).
  { intros Hk. assert (El' : field_long_name lower_beyond r a [] = ([], Ok l)) by (destruct Hk; subst; done). clear El.
    unfold field_long_name in El'. apply bind_clean in El' as (nm & _ & E); [|grows..].
    apply bind_clean in E as (l2 & E2 & E); [|grows..]. apply bind_clean in E as ([] & E3 & E); [|grows..].
    injection E as <-. split.
    - intros l' ->. destruct nm as [n|]; [|done]. apply bind_clean in E2 as ([] & E2 & E4); [|grows..].
      injection E4 as <-. exists n. split; [done|]. intros ->. rewrite bool_decide_true in E2 by done. done.
    - destruct (short a); [by left|]. destruct l2; [by right|]. done. }
  unfold field_wf, is_option, field_names. cbn [kind optionality long_name attrs].
  destruct k; cbn in El; split_and!; try done.
  all: try (destruct (Hl ltac:(tauto)) as [Hl1 Hl2]).
  all: try (by intros _; destruct (short a), l; cbn; destruct Hl2).
  all: try exact Hl1.
  all: try by injection El as <-.
  - intros _. apply bind_clean in Eo as (b & _ & Eo); [|unfold ty_expect_switch, ty_can_be_switch; grows|grows].
    unfold mret, M_ret in Eo. destruct b; by simplify_eq.
  - intros _. unfold mret, M_ret in Eo. destruct (ty_inner _ _); simplify_eq; tauto.
Qed.

Lemma collect_wf rs fs : collect_fields lower_beyond alnum_beyond lexes rs [] = ([], Ok fs) → Forall field_wf fs.
Proof.
  revert fs. induction rs as [|r rs IH]; intros fs E; cbn [collect_fields] in E; [by injection E as <-|].
  apply bind_clean in E as (a & _ & E); [|grows..]. apply bind_clean in E as (f & Ef & E); [|grows..].
  apply bind_clean in E as (fs' & Efs & E); [|grows..]. injection E as <-. apply Forall_app. split; [|by apply IH].
  destruct f as [f|]; [|constructor]. apply Forall_singleton. by apply (field_new_wf _ _ _ Ef).
Qed.

(** C34: a struct that the macro accepts is well formed: no two fields share a short name
    or a long one; every option and switch has a name; long names start with two dashes
    and none is [--help]; switches are never required; no required positional follows
    one that may be absent; and there is at most one subcommand. *)
Theorem accepted_struct_wf t rs fs n :
  impl_from_args_struct lower_beyond alnum_beyond lexes t (Named rs) [] = ([], Ok (EmitStruct t fs n)) →
  Forall field_wf fs ∧ NoDup (omap (short ∘ attrs) fs) ∧ NoDup (omap long_name fs) ∧
  trailing_ok false (of_kind Positional fs) = true ∧ (length (of_kind SubCommand fs) ≤ 1)%nat.
Proof.
  unfold impl_from_args_struct. intros E. apply bind_clean in E as (fs' & Efs & E); [|grows..].
  apply bind_clean in E as ([] & Eu & E); [|grows..]. apply bind_clean in E as ([] & Et & E); [|grows..].
  apply bind_clean in E as ([] & Es & E); [|grows..]. apply bind_clean in E as (n' & _ & E); [|grows..].
  injection E as -> ->. apply unique_names in Eu as (H1 & _ & H2 & _). split_and!; [by eapply collect_wf|done|done|by eapply trailing_clean|].
  unfold check_single_subcommand in Es. destruct (of_kind SubCommand fs) as [|f [|g l]]; cbn; [lia|lia|].
  exfalso. cbn [for_each] in Es. apply bind_clean in Es as (u & Es & _); [|grows..].
  unfold duplicate_attrs in Es. by apply clean_err in Es; [|grows].
Qed.
End Accepted.

(** ** Options behind other fields *)

(** The index of an option counts all fields, the table of slots only options and
    switches: a switch declared behind a positional has an index behind the table, and
    giving it panics. *)
Theorem switch_behind_positional_panics {V W} (parse_value : StructField → bytes → res bytes V)
    default_value default_values commands (sub_from_args : list bytes → list bytes → res EarlyExit W) t f g nm cmd rest :
  kind f = Positional → kind g = Switch → field_names f = [] → nm ∈ field_names g → NoDup (field_names g) →
  starts_with (bs "-") nm = true → nm ≠ bs "--" → nm ∉ get_help_triggers t →
  from_args parse_value default_value default_values commands sub_from_args t [f; g] cmd (nm :: rest) = Panic.
Proof.
  intros Hf Hg Hn Hin Hnd H1 H2 H3. unfold from_args, parse_struct_args.
  set (spec := spec_of commands sub_from_args (get_help_triggers t) [f; g]).
  assert (Hpos : find_pos nm (arg_to_slot spec) = Some 1%nat).
  { unfold spec, spec_of. cbn [arg_to_slot]. rewrite entries_eq. apply (find_pos_entries _ 0 1 g); [|done|done].
    cbn [flat_map]. rewrite Hn, app_nil_r. exact Hnd. }
  assert (Hsl : flag_output_table parse_value [f; g] = [Flag (flag_default (f_ty g))]).
  { unfold flag_output_table. cbn. by rewrite Hf, Hg. }
  remember (length (nm :: rest)) as k eqn:Hk. cbn [parse_args slots positionals index help options_ended chosen].
  rewrite (bool_decide_false (nm ∈ help_triggers spec)) by done. rewrite H1, (bool_decide_false (nm = bs "--")) by done.
  cbn [andb negb]. unfold parse_option. rewrite Hpos, Hsl. done.
Qed.

(** ** The struct of [magiskboot unpack] *)

Definition path (n : bytes) : Ty := TPath false [(n, None)].
Definition opt_of (t : Ty) : Ty := TPath false [(bs "Option", Some [Some t])].
Definition vec_of (t : Ty) : Ty := TPath false [(bs "Vec", Some [Some t])].
Definition field (ident : string) (ms : list Meta) (ty : Ty) : RawField := mkRaw (bs ident) [Argh (inr ms)] ty.
Definition switch_meta (c : string) : list Meta :=
  [Path (bs "switch"); NameValue (bs "short") (ELit (LChar (bs c))); NameValue (bs "long") (EPath (bs "none"))].
Definition positional_meta : list Meta := [Path (bs "positional")].
Definition subcommand_attr (name : string) : Attribute :=
  Argh (inr [Path (bs "subcommand"); NameValue (bs "name") (ELit (LStr (bs name)))]).

Definition unpack_fields : list RawField :=
  [field "no_decompress" (switch_meta "n") (path (bs "bool"));
   field "dump_header" (switch_meta "h") (path (bs "bool"));
   field "img" positional_meta (path (bs "Utf8CString"))].

(** A run with no letters beyond ASCII. *)
Definition ascii_derive : list Attribute → Data → list bytes + Emitted :=
  derive (λ _, false) (λ _, false) (λ _, []) (λ _, true).

Definition emitted_struct (r : list bytes + Emitted) : TypeAttrs * list StructField :=
  match r with inr (EmitStruct t fs _) => (t, fs) | _ => (no_type_attrs, []) end.

Definition unpack_struct : TypeAttrs * list StructField :=
  emitted_struct (ascii_derive [subcommand_attr "unpack"] (Struct (Named unpack_fields))).

Lemma accepted_struct_wf_witness : ∃ t fs n,
  impl_from_args_struct (λ _, false) (λ _, false) (λ _, true) t (Named unpack_fields) [] = ([], Ok (EmitStruct t fs n)) ∧
  length fs = 3%nat ∧ NoDup (omap (short ∘ attrs) fs).
Proof.
  destruct (impl_from_args_struct (λ _, false) (λ _, false) (λ _, true) unpack_struct.1 (Named unpack_fields) [])
    as [es [[t fs n| |]|e| |]] eqn:E; try (exfalso; vm_compute in E; discriminate E).
  assert (es = [] ∧ t = unpack_struct.1 ∧ length fs = 3%nat) as (-> & -> & Hl).
  { vm_compute in E. injection E as <- <- <- _. split_and!; vm_compute; reflexivity. }
  destruct (accepted_struct_wf (λ _, false) (λ _, false) (λ _, true) unpack_struct.1 unpack_fields fs n E) as (_ & H & _).
  exists unpack_struct.1, fs, n. split_and!; [exact E|exact Hl|exact H].
Defined.

Definition parse_text (f : StructField) (s : bytes) : res bytes bytes := Ok s.
Definition no_sub (cmd args : list bytes) : res EarlyExit unit := Ok tt.

Lemma from_args_roundtrip_witness :
  from_args parse_text id (λ _, []) [] no_sub unpack_struct.1 unpack_struct.2 [bs "unpack"] [bs "-n"; bs "--"; bs "-boot.img"] =
    Ok [FFlag (FBool true); FFlag (FBool false); FOne (bs "-boot.img")].
Proof.
  pose (f0 := default (mkField [] TOther no_attrs Switch TOther Optional None) (unpack_struct.2 !! 0%nat)).
  pose (f1 := default f0 (unpack_struct.2 !! 1%nat)). pose (f2 := default f0 (unpack_struct.2 !! 2%nat)).
  etransitivity; [|etransitivity; [apply (from_args_roundtrip parse_text id (λ _, []) [] no_sub unpack_struct.1 [bs "unpack"]
    [(f0, GFlag 1); (f1, GFlag 0)] [(f2, GVals [(bs "-boot.img", bs "-boot.img")])])|]].
  - vm_compute. reflexivity.
  - repeat constructor; vm_compute; discriminate.
  - apply Forall_singleton. split; [|split; reflexivity].
    split; [right; reflexivity|split; [reflexivity|by repeat constructor]].
  - by_compute.
  - repeat constructor; vm_compute; first [reflexivity|discriminate|by intros ?%not_elem_of_nil].
  - by_compute.
  - vm_compute. constructor.
  - vm_compute. reflexivity.
Defined.

(** ** Derived parsers *)

(** The struct behind a subcommand name. *)
Definition sub_struct (name : string) (fs : list RawField) : TypeAttrs * list StructField :=
  emitted_struct (ascii_derive [subcommand_attr name] (Struct (Named fs))).

(** A derived parser, with what the fields make of the values. *)
Definition derived_parser {V W A} (parse_value : StructField → bytes → res bytes V) (default_value : bytes → V)
    (s : TypeAttrs * list StructField) (commands : list CommandInfo)
    (sub : list bytes → list bytes → res EarlyExit W) (make : list (FieldValue V W) → option A)
    (cmd args : list bytes) : res EarlyExit A :=
  vs ← from_args parse_value default_value (λ _, []) commands sub s.1 s.2 cmd args;
  match make vs with Some a => Ok a | None => Panic end.

Definition command (name : string) : CommandInfo := mkCommand (bs name) [].

(** A command line that [from_args_checked] understands. *)
Lemma derived_given {V W A} parse_value (default_value : bytes → V) s commands (sub : list bytes → list bytes → res EarlyExit W)
    (make : list (FieldValue V W) → option A) k opts poss cmd args a :
  args_check s k opts poss = true →
  Forall (parses parse_value) (zip (take k s.2) opts) → Forall (parses parse_value) (zip (drop k s.2) poss) →
  args = cmdline (zip (take k s.2) opts) (zip (drop k s.2) poss) →
  make (map (value_of default_value (λ _, [])) (zip (take k s.2) opts ++ zip (drop k s.2) poss)) = Some a →
  derived_parser parse_value default_value s commands sub make cmd args = Ok a.
Proof.
  intros Hc Ho Hp -> Hm. unfold derived_parser. rewrite from_args_checked by done. cbn [mbind res_bind]. by rewrite Hm.
Qed.

(** A parser whose only field is a subcommand runs the variant of that name. *)
Lemma derived_subcommand_at {V W A} parse_value (default_value : bytes → V) s f variants (pick : nat * W → A)
    make cmd (dashes : bool) name rest i g :
  s.2 = [f] → kind f = SubCommand → optionality f = Required → is_subcommand s.1 = None → help_triggers_ s.1 = None →
  dashes || negb (starts_with (bs "-") name) = true → find_variant name 0 variants = Some (i, g) →
  (∀ w : A, make [FSub w] = Some w) →
  derived_parser parse_value default_value s (map (λ v, mkCommand v.1 []) variants)
    (λ cmd args, x ← from_args_enum variants None cmd args; Ok (pick x)) make cmd
    ((if dashes then [bs "--"] else []) ++ name :: rest) =
  (w ← g (cmd ++ [name]) rest; Ok (pick (i, w))).
Proof.
  intros Hs Hk Ho Ht Hh Hn Hv Hm. unfold derived_parser. rewrite Hs.
  rewrite from_args_subcommand_at; try done.
  - rewrite (from_args_enum_find variants cmd name rest i g Hv). cbn [mbind res_bind].
    destruct (g (cmd ++ [name]) rest); cbn; by rewrite ?Hm.
  - clear - Hv. revert Hv. generalize O. induction variants as [|[n h] vs IH]; intros k; [done|]. cbn [find_variant map existsb cmd_name_].
    case_bool_decide as E; [by rewrite bool_decide_true|]. intros H%IH. by rewrite H, orb_true_r.
Qed.

Lemma derived_subcommand {V W A} parse_value (default_value : bytes → V) s f variants (pick : nat * W → A)
    make cmd name rest i g :
  s.2 = [f] → kind f = SubCommand → optionality f = Required → is_subcommand s.1 = None → help_triggers_ s.1 = None →
  starts_with (bs "-") name = false → find_variant name 0 variants = Some (i, g) →
  (∀ w : A, make [FSub w] = Some w) →
  derived_parser parse_value default_value s (map (λ v, mkCommand v.1 []) variants)
    (λ cmd args, x ← from_args_enum variants None cmd args; Ok (pick x)) make cmd (name :: rest) =
  (w ← g (cmd ++ [name]) rest; Ok (pick (i, w))).
Proof.
  intros Hs Hk Ho Ht Hh Hn Hv Hm.
  apply (derived_subcommand_at parse_value default_value s f variants pick make cmd false); try done. by rewrite Hn.
Qed.
