(* ===== verification/Words.v ===== *)
(** Words: derived parsers whose values are plain strings, shared by the command lines of
    magiskboot and magisk.

    A switch or a list of words is given to each field ([flag], [words]); [plain_given] is
    the round trip of [Derive] for such structs. *)

From S2P Require Import Prelude Argh Derive.

Definition utf8_ty : Ty := path (bs "Utf8CString").
Definition switch (ident c : string) : RawField := field ident (switch_meta c) (path (bs "bool")).
Definition pos (ident : string) : RawField := field ident positional_meta utf8_ty.
Definition pos_opt (ident : string) : RawField := field ident positional_meta (opt_of utf8_ty).
Definition subcommand_field (ident : string) (ty : string) : RawField :=
  field ident [Path (bs "subcommand")] (path (bs ty)).

(** A derived parser of strings. *)
Definition parser {W A} (s : TypeAttrs * list StructField) (commands : list CommandInfo)
    (sub : list bytes → list bytes → res EarlyExit W) (make : list (FieldValue bytes W) → option A) :
    list bytes → list bytes → res EarlyExit A :=
  derived_parser parse_text id s commands sub make.

Definition plain_parser {A} (name : string) (fs : list RawField) (make : list (FieldValue bytes unit) → option A) :
    list bytes → list bytes → res EarlyExit A :=
  parser (sub_struct name fs) [] no_sub make.

(** ** What is given *)

Definition words (ws : list bytes) : Given (V := bytes) := GVals (map (λ w, (w, w)) ws).
Definition flag (b : bool) : Given (V := bytes) := GFlag (if b then 1 else 0).

Lemma words_parse p : (∃ b, p.2 = flag b) ∨ (∃ ws, p.2 = words ws) → parses parse_text p.
Proof.
  destruct p as [f g]. unfold parses. cbn [fst snd]. intros [[b ->]|[ws ->]]; [done|]. cbn.
  induction ws; by constructor.
Qed.

Lemma texts_words f ws : texts_of (f, words ws) = ws.
Proof. unfold texts_of. cbn. induction ws as [|w ws IH]; [done|]. cbn. by rewrite IH. Qed.

Lemma zip_words fs gs : Forall (λ g, (∃ b, g = flag b) ∨ (∃ ws, g = words ws)) gs →
  Forall (parses parse_text) (zip fs gs).
Proof.
  intros Hg. revert fs. induction Hg as [|g gs Hg _ IH]; intros [|f fs]; constructor; [by apply words_parse|apply IH].
Qed.

Lemma plain_given {A} k opts poss name fs (make : list (FieldValue bytes unit) → option A) cmd args (a : A) :
  Forall (λ g, (∃ b, g = flag b) ∨ (∃ ws, g = words ws)) (opts ++ poss) →
  args_check (sub_struct name fs) k opts poss = true →
  args = cmdline (zip (take k (sub_struct name fs).2) opts) (zip (drop k (sub_struct name fs).2) poss) →
  make (map (value_of id (λ _, [])) (zip (take k (sub_struct name fs).2) opts ++ zip (drop k (sub_struct name fs).2) poss)) = Some a →
  plain_parser name fs make cmd args = Ok a.
Proof.
  intros [Ho Hp]%Forall_app Hc Ha Hm. apply (derived_given _ _ _ _ _ _ k opts poss); try done; by apply zip_words.
Qed.

Ltac give_shape :=
  cbn [app]; repeat (apply Forall_cons; split); try exact (Forall_nil_2 _);
  first [left; eexists; reflexivity|right; eexists; reflexivity].
Ltac give k o p := apply (plain_given k o p); [give_shape|vm_compute; reflexivity..].

