(* ===== verification/ResetProp.v ===== *)
(** ResetProp: system properties, [native/src/core/resetprop/] ([persist.rs], [cli.rs]).

    The property area is code outside the repository: a class of operations
    ([PropArea]) with what is documented of them ([PropLaws]); [gmap_area] is an
    implementation that satisfies the laws.  The generated reader and writer of the
    storage file are the parameters [from_reader] and [write_message], inverse to one
    another.  Storage calls go through [Sys]. *)

From S2P Require Import Prelude Io Text.
From S2P Require Import Sys.

Definition PROP_VALUE_MAX : Z := 92.

(** ** The property area *)

Class PropArea (S : Type) := {
  pa_find : S → bytes → option bytes;
  pa_is_long : S → bytes → bool;
  pa_update : S → bytes → bytes → S;
  pa_add : S → bytes → bytes → S;
  pa_set : S → bytes → bytes → S;
  pa_delete : S → bytes → bool → S * bool;
  pa_list : S → list (bytes * bytes);
  pa_context : bytes → bytes
}.

(** A value that is not too long for an ordinary property. *)
Definition short (val : bytes) : bool := len val <? PROP_VALUE_MAX.
Definition read_only (key : bytes) : bool := starts_with (bs "ro.") key.

Class PropLaws (S : Type) `{PropArea S} := {
  pl_update (s : S) k v : pa_find s k ≠ None → pa_is_long s k = false → short v = true →
    pa_find (pa_update s k v) k = Some v;
  pl_add (s : S) k v : pa_find s k = None → read_only k = true ∨ short v = true →
    pa_find (pa_add s k v) k = Some v;
  pl_delete (s : S) k b : pa_find (pa_delete s k b).1 k = None;
  pl_deleted (s : S) k b : (pa_delete s k b).2 = match pa_find s k with Some _ => true | None => false end;
  pl_update_ne (s : S) k j v : j ≠ k → pa_find (pa_update s k v) j = pa_find s j;
  pl_add_ne (s : S) k j v : j ≠ k → pa_find (pa_add s k v) j = pa_find s j;
  pl_delete_ne (s : S) k j b : j ≠ k → pa_find (pa_delete s k b).1 j = pa_find s j
}.

(** ** Persistent storage *)

Record PRecord := mkRec { p_name : option bytes; p_value : option bytes }.

(** The storage is the protobuf file when it exists, or one file per property; the temporary
    file of a write that failed is left out. *)
Inductive Storage := Proto (file : bytes) | Files (m : gmap bytes bytes).

Inductive PersistOp := OpenProp | MapFile | Mkstemp | WriteTmp | CloneAttrTmp | RenameTmp | RemoveProp | OpenDir.

(** [name.cmp]: [None] comes first. *)
Definition name_cmp (a b : option bytes) : comparison :=
  match a, b with
  | None, None => Eq
  | None, Some _ => Lt
  | Some _, None => Gt
  | Some a, Some b => bytes_cmp a b
  end.

Section Persist.
Context {S : Type} `{PropArea S}.
Context (from_reader : bytes → option (list PRecord)) (write_message : list PRecord → bytes).
Context (env : Env PersistOp).

Record World := mkWorld { area : S; storage : Storage }.
Abbreviation M := (Sys World PersistOp).

Definition set_storage (st : Storage) (w : World) : World := mkWorld (area w) st.

Fixpoint insert_record (r : PRecord) (l : list PRecord) : list PRecord :=
  match l with
  | [] => [r]
  | q :: l' => match name_cmp (p_name r) (p_name q) with
               | Gt => q :: insert_record r l'
               | _ => r :: l
               end
  end.
Definition sort_by_name (l : list PRecord) : list PRecord := foldr insert_record [] l.

(** [binary_search_by]: the index of the name, or where it would go. *)
Fixpoint find_index_from (i : nat) (l : list PRecord) (name : bytes) : nat + nat :=
  match l with
  | [] => inr i
  | r :: l => match name_cmp (p_name r) (Some name) with
              | Lt => find_index_from (1 + i) l name
              | Eq => inl i
              | Gt => inr i
              end
  end.
Definition find_index (l : list PRecord) (name : bytes) : nat + nat := find_index_from 0 l name.

Definition find_record (l : list PRecord) (name : bytes) : option PRecord :=
  match find_index l name with inl idx => l !! idx | inr _ => None end.

Definition check_proto (w : World) : bool :=
  match storage w with Proto _ => true | Files _ => false end.

Definition file_get_prop (name : bytes) : M bytes :=
  _ ← ask env OpenProp;
  st ← read storage;
  match st with
  | Files m => match m !! name with
               | Some v => if utf8_valid v then mret v else throw
               | None => throw
               end
  | Proto _ => throw
  end.

Definition on_files (f : gmap bytes bytes → gmap bytes bytes) (w : World) : World :=
  match storage w with Files m => set_storage (Files (f m)) w | Proto _ => w end.

Definition file_set_prop (name : bytes) (value : option bytes) : M unit :=
  match value with
  | Some value =>
      _ ← ask env Mkstemp;
      _ ← ask env WriteTmp;
      do_ env RenameTmp (on_files (<[name := value]>)) (λ w, w)
  | None =>
      st ← read storage;
      match st with
      | Files m => match m !! name with
                   | Some _ => do_ env RemoveProp (on_files (delete name)) (λ w, w)
                   | None => throw
                   end
      | Proto _ => throw
      end
  end.

Definition proto_read_props : M (list PRecord) :=
  _ ← ask env MapFile;
  st ← read storage;
  match st with
  | Proto [] => throw (* no bytes cannot be mapped *)
  | Proto m => match from_reader m with
               | Some props => mret (sort_by_name props)
               | None => throw
               end
  | Files _ => throw
  end.

Definition proto_write_props (props : list PRecord) : M unit :=
  _ ← ask env Mkstemp;
  _ ← ask env WriteTmp;
  _ ← ask env CloneAttrTmp;
  do_ env RenameTmp (set_storage (Proto (write_message props))) (λ w, w).

Definition persist_get_prop (key : bytes) : M bytes :=
  proto ← read check_proto;
  if proto : bool then
    props ← proto_read_props;
    match find_record props key with
    | Some (mkRec (Some _) (Some v)) => mret v
    | _ => throw
    end
  else file_get_prop key.

(** The files that can be read, of a directory. *)
Fixpoint read_files (names : list bytes) : M (list (bytes * bytes)) :=
  match names with
  | [] => mret []
  | n :: names =>
      if utf8_valid n then
        v ← try_ (file_get_prop n);
        l ← read_files names;
        mret (match v with Some v => (n, v) :: l | None => l end)
      else read_files names
  end.

(** The properties in storage, as [put_str] receives them. *)
Definition persist_get_all_props : M (list (bytes * bytes)) :=
  proto ← read check_proto;
  if proto : bool then
    props ← proto_read_props;
    mret (omap (λ r, match r with
                     | mkRec (Some n) (Some v) => Some (n, v)
                     | _ => None
                     end) props)
  else
    _ ← ask env OpenDir;
    names ← read (λ w, match storage w with Files m => (map_to_list m).*1 | Proto _ => [] end);
    read_files names.

Definition persist_delete_prop (key : bytes) : M unit :=
  proto ← read check_proto;
  if proto : bool then
    props ← proto_read_props;
    match find_index props key with
    | inl idx => proto_write_props (delete idx props)
    | inr _ => throw
    end
  else file_set_prop key None.

Definition persist_set_prop (key val : bytes) : M unit :=
  proto ← read check_proto;
  if proto : bool then
    props ← proto_read_props;
    proto_write_props
      match find_index props key with
      | inl idx => alter (λ r, mkRec (p_name r) (Some val)) idx props
      | inr idx => take idx props ++ mkRec (Some key) (Some val) :: drop idx props
      end
  else file_set_prop key (Some val).
End Persist.
Arguments World : clear implicits.

(** ** The command *)

Record ResetProp := mkResetProp {
  verbose : bool; wait_mode : bool; persist : bool; persist_only : bool; context : bool; skip_svc : bool;
  file : option bytes; delete_key : option bytes; args : list bytes
}.

Definition default_rp : ResetProp :=
  mkResetProp false false false false false false None None [].

Definition is_persist (key : bytes) : bool := starts_with (bs "persist.") key.

(** Properties of a file, in order. *)
Definition props_of (data : bytes) : list (bytes * bytes) :=
  for_each_prop (λ acc k v, (acc ++ [(k, v)], true)) [] data.

Section Cli.
Context {S : Type} `{PropArea S}.
Context (from_reader : bytes → option (list PRecord)) (write_message : list PRecord → bytes).
Context (env : Env PersistOp).
(** The contents of a readable file. *)
Context (open_file : bytes → option bytes).

Abbreviation W := (World S).
Abbreviation M := (Sys W PersistOp).

Definition on_area (f : S → S) (w : W) : W := mkWorld (f (area w)) (storage w).

Definition rp_get (self : ResetProp) (key : bytes) : M (option bytes) :=
  if context self then mret (Some (pa_context (S:=S) key))
  else
    val ← read (λ w : W, if persist_only self then None else pa_find (area w) key);
    match val with
    | Some v => mret (Some v)
    | None =>
        if (persist self || persist_only self) && is_persist key
        then try_ (persist_get_prop from_reader env key)
        else mret None
    end.

Definition rp_set (self : ResetProp) (key val : bytes) : M unit :=
  info ← read (λ w : W, match pa_find (area w) key with Some _ => true | None => false end);
  long ← read (λ w : W, pa_is_long (area w) key);
  let skip := read_only key || skip_svc self in
  let drop_it := read_only key && info && (long || (PROP_VALUE_MAX <=? len val)) in
  _ ← (if drop_it then modify (on_area (λ s, (pa_delete s key false).1)) else mret tt);
  _ ← modify (on_area (λ s,
        if skip then if info && negb drop_it then pa_update s key val else pa_add s key val
        else pa_set s key val));
  if skip && persist self && is_persist key
  then ok_ (persist_set_prop from_reader write_message env key val) else mret tt.

Definition rp_delete (self : ResetProp) (key : bytes) : M bool :=
  ret ← read (λ w : W, (pa_delete (area w) key true).2);
  _ ← modify (on_area (λ s, (pa_delete s key true).1));
  if persist self && is_persist key
  then ok ← is_ok_ (persist_delete_prop from_reader write_message env key); mret (ret || ok)
  else mret ret.

Definition load_file (self : ResetProp) (f : bytes) : M unit :=
  match open_file f with
  | None => throw
  | Some data => each (λ p, rp_set self p.1 p.2) (props_of data)
  end.

(** The lines printed. *)
Definition print_all (self : ResetProp) : M (list bytes) :=
  sys ← read (λ w : W, if persist_only self then [] else pa_list (area w));
  stored ← (if persist self || persist_only self
            then try_ (persist_get_all_props from_reader env)
            else mret None);
  let map := foldl (λ m p, <[p.1 := p.2]> m) (∅ : gmap bytes bytes) (sys ++ default [] stored) in
  mret (List.map (λ p, bs "[" ++ p.1 ++ bs "]: [" ++ (if context self then pa_context (S:=S) p.1 else p.2) ++ bs "]")
          (entries map)).

(** Waiting: the states of the area at the wakeups to come, and how the wait ends:
    after so many wakeups, or not within them. *)
Inductive Waited := Returned (wakeups : nat) | Blocked.

Fixpoint wait_exists (key : bytes) (s : S) (wakes : list S) (n : nat) : option (S * list S * nat) :=
  match pa_find s key with
  | Some _ => Some (s, wakes, n)
  | None => match wakes with
            | [] => None
            | s :: wakes => wait_exists key s wakes (1 + n)
            end
  end.

Fixpoint wait_change (key val : bytes) (s : S) (wakes : list S) (n : nat) : Waited :=
  if bool_decide (pa_find s key = Some val) then
    match wakes with
    | [] => Blocked
    | s :: wakes => wait_change key val s wakes (1 + n)
    end
  else Returned n.

Definition wait (self : ResetProp) (s : S) (wakes : list S) : LoggedResult Waited :=
  match args self with
  | [] => Panic
  | key :: rest =>
      Ok match wait_exists key s wakes 0 with
         | None => Blocked
         | Some (s, wakes, n) =>
             match rest with
             | [] => Returned n
             | val :: _ => wait_change key val s wakes n
             end
         end
  end.

(** The lines printed; [wakes] for the wait mode. *)
Definition run (self : ResetProp) (wakes : list S) : M (list bytes) :=
  if wait_mode self then
    lift_ (λ w : W, match wait self (area w) wakes with
                    | Ok (Returned _) => Ok []
                    | Ok Blocked => NoFuel
                    | Err e => Err e
                    | Panic => Panic
                    | NoFuel => NoFuel
                    end)
  else
    match file self, delete_key self, args self with
    | Some f, _, _ => _ ← load_file self f; mret []
    | None, Some key, _ => ok ← rp_delete self key; if ok : bool then mret [] else throw
    | None, None, [] => print_all self
    | None, None, [key] =>
        v ← rp_get self key;
        match v with Some v => mret [v] | None => throw end
    | None, None, [key; val] => _ ← rp_set self key val; mret []
    | _, _, _ => lift_ (λ _, Panic)
    end.

(** The checks of [resetprop_main] on the parsed options: the error, if any. *)
Definition check_cli (cli : ResetProp) : option bytes :=
  if wait_mode cli && bool_decide (args cli = []) then
    Some (bs "Required positional arguments not provided:" ++ LF :: bs "    NAME" ++ [LF])
  else if 1 <? (if wait_mode cli then 1 else 0) + (if file cli then 1 else 0) + (if delete_key cli then 1 else 0)
  then Some (bs "Multiple operation mode detected!" ++ [LF])
  else match args cli with
       | _ :: _ :: x :: _ => Some (bs "Unrecognized argument: " ++ x ++ [LF])
       | _ => None
       end.

(** The exit code, on options that parsed. *)
Definition resetprop_main (cli : ResetProp) (wakes : list S) (w : W) (h : list PersistOp) :
    LoggedResult Z :=
  match check_cli cli with
  | Some _ => Ok 1
  | None => match run cli wakes w h with
            | (_, _, Ok _) => Ok 0
            | (_, _, Err _) => Ok 1
            | (_, _, Panic) => Panic
            | (_, _, NoFuel) => NoFuel
            end
  end.

(** Magisk's own helpers. *)
Definition set_prop (key val : bytes) : M unit :=
  rp_set (mkResetProp false false false false false true None None []) key val.
Definition load_prop_file (f : bytes) : M unit :=
  ok_ (load_file (mkResetProp false false false false false true None None []) f).
Definition get_prop (key : bytes) : M bytes :=
  v ← rp_get (mkResetProp false false (is_persist key) false false false None None []) key;
  mret (default [] v).
End Cli.

(** ** Setting properties *)

Section SetProps.
Context {S : Type} `{PropLaws S}.
Context (from_reader : bytes → option (list PRecord)) (write_message : list PRecord → bytes).
Context (env : Env PersistOp).

Lemma wp_proto_read (Q : list PRecord → World S → Prop) (E : World S → Prop) w :
  (∀ props, Q props w) → E w → wp (proto_read_props from_reader env) Q E w.
Proof.
  intros HQ HE. unfold proto_read_props. do 2 wp_step; [|done]. do 2 wp_step.
  destruct (storage w) as [[|b m]|m]; [by wp_step| |by wp_step]. destruct (from_reader (b :: m)); by wp_step.
Qed.

(** Storage calls do not touch the area. *)
Lemma wp_persist_set key val (Q : unit → World S → Prop) w :
  (∀ w', area w' = area w → Q tt w') →
  wp (ok_ (persist_set_prop from_reader write_message env key val)) Q (λ _, False) w.
Proof.
  intros HQ. wp_step. unfold persist_set_prop. do 2 wp_step. destruct (check_proto w).
  - wp_step. apply wp_proto_read; [|by apply HQ]. intros props. unfold proto_write_props.
    repeat wp_step; by apply HQ.
  - unfold file_set_prop, on_files. repeat wp_step; try by apply HQ. destruct (storage w); by apply HQ.
Qed.

Lemma rp_set_area self key val w :
  read_only key || skip_svc self = true →
  read_only key = true ∨ (short val = true ∧ pa_is_long (area w) key = false) →
  wp (rp_set from_reader write_message env self key val)
    (λ _ w', pa_find (area w') key = Some val ∧ ∀ j, j ≠ key → pa_find (area w') j = pa_find (area w) j)
    (λ _, False) w.
Proof.
  intros Hs Hk. unfold rp_set. do 5 wp_step. rewrite Hs. cbn [andb].
  set (info := match pa_find (area w) key with Some _ => true | None => false end).
  set (drop_it := read_only key && info && (pa_is_long (area w) key || (PROP_VALUE_MAX <=? len val))).
  assert (∀ w', (pa_find (area w') key = Some val ∧ ∀ j, j ≠ key → pa_find (area w') j = pa_find (area w) j) →
    wp (if persist self && is_persist key then ok_ (persist_set_prop from_reader write_message env key val)
        else mret ())
    (λ _ w', pa_find (area w') key = Some val ∧ ∀ j, j ≠ key → pa_find (area w') j = pa_find (area w) j)
    (λ _, False) w') as Hend.
  { intros w' Hw'. destruct (persist self && is_persist key); [|by wp_step]. apply wp_persist_set. intros w'' ->. exact Hw'. }
  destruct drop_it eqn:Ed; repeat wp_step; apply Hend; cbn [area on_area negb]; rewrite ?andb_false_r, ?andb_true_r.
  - apply andb_prop in Ed as [[Hro _]%andb_prop _]. split; [apply pl_add; [apply pl_delete|by left]|].
    intros j Hj. by rewrite pl_add_ne, pl_delete_ne.
  - destruct info eqn:Ei; unfold info in Ei.
    + split; [|intros j Hj; by apply pl_update_ne]. apply pl_update; [by destruct (pa_find _ _)| |].
      * destruct Hk as [Hro|[_ Hl]]; [|done]. unfold drop_it in Ed. rewrite Hro in Ed. cbn in Ed.
        by apply orb_false_elim in Ed as [? _].
      * destruct Hk as [Hro|[Hl _]]; [|done]. unfold drop_it in Ed. rewrite Hro in Ed. cbn [andb] in Ed.
        apply orb_false_elim in Ed as [_ Ed]. unfold short. lia.
    + split; [|intros j Hj; by apply pl_add_ne]. apply pl_add; [by destruct (pa_find _ _)|]. naive_solver.
Qed.
End SetProps.

Lemma set_then_get_area {S} `{PropLaws S} from_reader write_message env self key val (w : World S) h :
  read_only key || skip_svc self = true →
  read_only key = true ∨ (short val = true ∧ pa_is_long (area w) key = false) →
  pa_find (area (state (rp_set from_reader write_message env self key val w h))) key = Some val ∧
  ∀ j, j ≠ key →
    pa_find (area (state (rp_set from_reader write_message env self key val w h))) j = pa_find (area w) j.
Proof.
  intros Hs Hk. pose proof (rp_set_area from_reader write_message env self key val w Hs Hk) as Hw.
  apply (wp_run _ _ _ _ h) in Hw. by destruct (result _) as [[]| | |].
Qed.

(** Setting a property without the property service, whatever the storage does:
    it succeeds, the property has the value afterwards and no other property changed.
    This holds for every read-only property, whose old or new value may be long, and
    for other properties with short values. *)
Theorem set_then_get {S} `{PropLaws S} from_reader write_message env self key val (w : World S) h :
  read_only key || skip_svc self = true →
  read_only key = true ∨ (short val = true ∧ pa_is_long (area w) key = false) →
  let r := rp_set from_reader write_message env self key val w h in
  result r = Ok tt ∧ pa_find (area (state r)) key = Some val ∧
  ∀ j, j ≠ key → pa_find (area (state r)) j = pa_find (area w) j.
Proof.
  intros Hs Hk r. pose proof (rp_set_area from_reader write_message env self key val w Hs Hk) as Hw.
  apply (wp_run _ _ _ _ h) in Hw. fold r in Hw. by destruct (result r) as [[]| | |].
Qed.

(** A map as a property area: the flag says that the value is stored as a long one. *)
Abbreviation GArea := (gmap bytes (bytes * bool)).

#[global] Instance gmap_area : PropArea GArea := {
  pa_find s k := fst <$> s !! k;
  pa_is_long s k := match s !! k with Some (_, l) => l | None => false end;
  pa_update s k v := match s !! k with
                     | Some (_, false) => if short v then <[k := (v, false)]> s else s
                     | _ => s
                     end;
  pa_add s k v := if short v then <[k := (v, false)]> s
                  else if read_only k then <[k := (v, true)]> s else s;
  pa_set s k v := if short v && negb (read_only k) then <[k := (v, false)]> s else s;
  pa_delete s k _ := (delete k s, match s !! k with Some _ => true | None => false end);
  pa_list s := (λ p, (p.1, p.2.1)) <$> map_to_list s;
  pa_context _ := bs "u:object_r:default_prop:s0"
}.

#[global] Instance gmap_laws : PropLaws GArea.
Proof.
  split; cbn [pa_find pa_is_long pa_update pa_add pa_delete gmap_area fst snd].
  - intros s k v Hf Hl Hs. destruct (s !! k) as [[u []]|]; try done. rewrite Hs. by rewrite lookup_insert_eq.
  - intros s k v Hf [Hr|Hs].
    + destruct (short v); [|rewrite Hr]; by rewrite lookup_insert_eq.
    + rewrite Hs. by rewrite lookup_insert_eq.
  - intros s k b. by rewrite lookup_delete_eq.
  - intros s k b. by destruct (s !! k).
  - intros s k j v Hj. destruct (s !! k) as [[u []]|]; try done. destruct (short v); [|done].
    by rewrite lookup_insert_ne.
  - intros s k j v Hj. destruct (short v); [|destruct (read_only k); [|done]]; by rewrite lookup_insert_ne.
  - intros s k j b Hj. by rewrite lookup_delete_ne.
Qed.

Definition sample_world : World GArea :=
  mkWorld (<[bs "ro.x" := (replicate 100 Byte.x61, true)]> ∅) (Files {[ bs "persist.a" := bs "1" ]}).

Lemma set_then_get_witness :
  read_only (bs "ro.x") || skip_svc default_rp = true ∧
  pa_find (area (state (rp_set (λ _, None) (λ _, []) (λ _ _, true) default_rp (bs "ro.x") (bs "new") sample_world [])))
    (bs "ro.x") = Some (bs "new").
Proof.
  split; [reflexivity|].
  exact (proj1 (proj2 (set_then_get (λ _, None) (λ _, []) (λ _ _, true) default_rp (bs "ro.x") (bs "new")
    sample_world [] eq_refl (or_introl eq_refl)))).
Defined.

(** ** Storage as a map *)

Definition name_lt (a b : PRecord) : Prop := name_cmp (p_name a) (p_name b) = Lt.
Abbreviation by_name := (StronglySorted name_lt).

Lemma name_cmp_eq a b : name_cmp a b = Eq ↔ a = b.
Proof. destruct a, b; cbn; rewrite ?bytes_cmp_eq; split; congruence. Qed.

Lemma name_cmp_antisym a b : name_cmp b a = CompOpp (name_cmp a b).
Proof. destruct a, b; cbn; try done. apply bytes_cmp_antisym. Qed.

Lemma name_cmp_trans a b c : name_cmp a b = Lt → name_cmp b c = Lt → name_cmp a c = Lt.
Proof. destruct a, b, c; cbn; try done. apply bytes_lt_trans. Qed.

Lemma elem_insert_record r q l : q ∈ insert_record r l ↔ q = r ∨ q ∈ l.
Proof.
  induction l as [|x l IH]; cbn [insert_record]; [set_solver|].
  destruct (name_cmp (p_name r) (p_name x)); rewrite !elem_of_cons, ?IH; naive_solver.
Qed.

Lemma elem_sort_by_name q l : q ∈ sort_by_name l ↔ q ∈ l.
Proof.
  induction l as [|r l IH]; [done|]. cbn [sort_by_name foldr]. fold (sort_by_name l).
  by rewrite elem_insert_record, elem_of_cons, IH.
Qed.

Lemma insert_record_sorted r l : by_name l → (∀ q, q ∈ l → p_name q ≠ p_name r) → by_name (insert_record r l).
Proof.
  induction 1 as [|x l Hl IH Hx]; intros Hr; cbn [insert_record]; [by repeat constructor|].
  destruct (name_cmp (p_name r) (p_name x)) eqn:E.
  - apply name_cmp_eq in E. by destruct (Hr x); [left|].
  - constructor; [by constructor|]. constructor; [done|]. eapply Forall_impl; [exact Hx|].
    intros y Hy. by eapply name_cmp_trans.
  - constructor; [apply IH; intros q Hq; apply Hr; by right|]. apply Forall_forall.
    intros y [->|Hy]%elem_insert_record; [|by eapply Forall_forall in Hx].
    unfold name_lt. by rewrite name_cmp_antisym, E.
Qed.

Lemma sort_by_name_sorted l : NoDup (map p_name l) → by_name (sort_by_name l).
Proof.
  induction l as [|r l IH]; cbn [map]; [constructor|]. intros [Hr Hd]%NoDup_cons.
  cbn [sort_by_name foldr]. fold (sort_by_name l). apply insert_record_sorted; [by apply IH|].
  intros q Hq. rewrite elem_sort_by_name in Hq. intros E. apply Hr. rewrite <- E.
  apply list_elem_of_In, in_map, list_elem_of_In, Hq.
Qed.

Lemma by_name_NoDup l : by_name l → NoDup (map p_name l).
Proof.
  induction 1 as [|r l Hl IH Hr]; cbn [map]; constructor; [|done].
  rewrite list_elem_of_In, in_map_iff. intros (q & E & Hq%list_elem_of_In).
  eapply Forall_forall in Hr; [|exact Hq]. unfold name_lt in Hr. rewrite E in Hr.
  by rewrite (proj2 (name_cmp_eq (p_name r) _) eq_refl) in Hr.
Qed.

(** What the search finds in a sorted list. *)
Lemma find_index_from_spec i l k : by_name l →
  match find_index_from i l k with
  | inl n => ∃ m r, n = (i + m)%nat ∧ l !! m = Some r ∧ p_name r = Some k
  | inr n => ∃ m, n = (i + m)%nat ∧ (m ≤ length l)%nat ∧
      Forall (λ r, name_cmp (p_name r) (Some k) = Lt) (take m l) ∧
      Forall (λ r, name_cmp (Some k) (p_name r) = Lt) (drop m l)
  end.
Proof.
  intros Hl. revert i. induction Hl as [|r l Hl IH Hr]; intros i; cbn [find_index_from].
  { exists 0%nat. split; [lia|]. split; [lia|]. by split. }
  destruct (name_cmp (p_name r) (Some k)) eqn:E.
  - apply name_cmp_eq in E. exists 0%nat, r. split; [lia|]. done.
  - specialize (IH (1 + i)%nat). destruct (find_index_from (1 + i) l k) as [n|n].
    + destruct IH as (m & q & -> & Hm & Hq). exists (1 + m)%nat, q. split; [lia|]. done.
    + destruct IH as (m & -> & Hm & Ht & Hd). exists (1 + m)%nat. split; [lia|]. split; [cbn; lia|].
      cbn [Nat.add take drop]. split; [by constructor|done].
  - exists 0%nat. split; [lia|]. split; [lia|]. cbn [take drop]. split; [done|].
    assert (name_cmp (Some k) (p_name r) = Lt) as Hk by by rewrite name_cmp_antisym, E.
    constructor; [done|]. eapply Forall_impl; [exact Hr|]. intros q Hq. by eapply name_cmp_trans.
Qed.

Definition holds (l : list PRecord) (k v : bytes) : Prop := mkRec (Some k) (Some v) ∈ l.

Lemma by_name_unique l q r : by_name l → q ∈ l → r ∈ l → p_name q = p_name r → q = r.
Proof.
  induction 1 as [|x l Hl IH Hx]; [by intros ?%not_elem_of_nil|].
  rewrite Forall_forall in Hx. intros [->|Hq]%elem_of_cons [->|Hr]%elem_of_cons E; try done.
  - apply Hx in Hr. unfold name_lt in Hr. rewrite E, (proj2 (name_cmp_eq _ _) eq_refl) in Hr. done.
  - apply Hx in Hq. unfold name_lt in Hq. rewrite E, (proj2 (name_cmp_eq _ _) eq_refl) in Hq. done.
  - by apply IH.
Qed.

Lemma find_record_spec l k r : by_name l → find_record l k = Some r ↔ r ∈ l ∧ p_name r = Some k.
Proof.
  intros Hl. unfold find_record, find_index. pose proof (find_index_from_spec 0 l k Hl) as Hs.
  destruct (find_index_from 0 l k) as [n|n].
  - destruct Hs as (m & q & -> & Hm & Hq). cbn [Nat.add]. rewrite Hm. apply list_elem_of_lookup_2 in Hm. split.
    + by intros [= <-].
    + intros [Hr Er]. f_equal. apply (by_name_unique l); congruence.
  - destruct Hs as (m & -> & _ & Ht & Hd). split; [done|]. intros [Hr Er]. exfalso.
    rewrite <- (take_drop m l) in Hr. apply elem_of_app in Hr as [Hr|Hr].
    + eapply Forall_forall in Ht; [|exact Hr]. rewrite Er, (proj2 (name_cmp_eq _ _) eq_refl) in Ht. done.
    + eapply Forall_forall in Hd; [|exact Hr]. rewrite Er, (proj2 (name_cmp_eq _ _) eq_refl) in Hd. done.
Qed.

(** A sorted list around a name. *)
Record around (k : bytes) (t d : list PRecord) : Prop := {
  ar_before : Forall (λ r, name_cmp (p_name r) (Some k) = Lt) t;
  ar_after : Forall (λ r, name_cmp (Some k) (p_name r) = Lt) d;
  ar_left : by_name t;
  ar_right : by_name d
}.

Lemma find_index_split l k : by_name l → ∃ t d, around k t d ∧
  ((∃ r, find_index l k = inl (length t) ∧ l = t ++ r :: d ∧ p_name r = Some k) ∨
   (find_index l k = inr (length t) ∧ l = t ++ d)).
Proof.
  intros Hl. pose proof (find_index_from_spec 0 l k Hl) as Hs. unfold find_index.
  destruct (find_index_from 0 l k) as [n|n].
  - destruct Hs as (m & r & -> & Hm & Hr). cbn [Nat.add]. pose proof (take_drop_middle l m r Hm) as E.
    rewrite <- E in Hl. apply StronglySorted_app in Hl as (Hlt & Ht & Hd).
    apply StronglySorted_inv in Hd as [Hd Hrd].
    exists (take m l), (drop (S m) l). split; [split; [| |done|done]|left; exists r].
    + apply Forall_forall. intros q Hq. rewrite <- Hr. apply Hlt; [done|by left].
    + eapply Forall_impl; [exact Hrd|]. intros q Hq. by rewrite <- Hr.
    + rewrite length_take_le by (apply lookup_lt_Some in Hm; lia). done.
  - destruct Hs as (m & -> & Hm & Ht & Hd). cbn [Nat.add]. exists (take m l), (drop m l).
    rewrite <- (take_drop m l) in Hl. apply StronglySorted_app in Hl as (_ & H1 & H2).
    split; [done|]. right. by rewrite take_drop, length_take_le.
Qed.

(** With a record of that name in the middle. *)
Lemma around_sorted k t d r : around k t d → p_name r = Some k → by_name (t ++ r :: d).
Proof.
  intros [Ht Hd Hl Hr] Er. apply StronglySorted_app. split_and!; [|done|].
  - intros x y Hx [->|Hy]%elem_of_cons; eapply Forall_forall in Ht; try exact Hx; unfold name_lt.
    + by rewrite Er.
    + eapply Forall_forall in Hd; [|exact Hy]. by eapply name_cmp_trans.
  - constructor; [done|]. eapply Forall_impl; [exact Hd|]. intros q. unfold name_lt. by rewrite Er.
Qed.

Lemma around_sorted' k t d : around k t d → by_name (t ++ d).
Proof.
  intros [Ht Hd Hl Hr]. apply StronglySorted_app. split_and!; [|done|done].
  intros x y Hx Hy. eapply Forall_forall in Ht; [|exact Hx]. eapply Forall_forall in Hd; [|exact Hy].
  by eapply name_cmp_trans.
Qed.

(** The neighbours have other names. *)
Lemma around_other k t d u : around k t d → mkRec (Some k) u ∉ t ++ d.
Proof.
  intros [Ht Hd _ _] [H|H]%elem_of_app; [eapply Forall_forall in Ht; [|exact H]|eapply Forall_forall in Hd; [|exact H]].
  - cbn [p_name] in Ht. by rewrite (proj2 (name_cmp_eq _ _) eq_refl) in Ht.
  - cbn [p_name] in Hd. by rewrite (proj2 (name_cmp_eq _ _) eq_refl) in Hd.
Qed.

Definition set_record (l : list PRecord) (k v : bytes) : list PRecord :=
  match find_index l k with
  | inl idx => alter (λ r, mkRec (p_name r) (Some v)) idx l
  | inr idx => take idx l ++ mkRec (Some k) (Some v) :: drop idx l
  end.

Lemma alter_middle {A} (f : A → A) t r d : alter f (length t) (t ++ r :: d) = t ++ f r :: d.
Proof. induction t as [|x t IH]; [done|]. cbn. by f_equal. Qed.

Lemma set_record_spec l k v : by_name l → by_name (set_record l k v) ∧
  ∀ j u, holds (set_record l k v) j u ↔ (j = k ∧ u = v) ∨ (j ≠ k ∧ holds l j u).
Proof.
  intros Hl. destruct (find_index_split l k Hl) as (t & d & Ha & Hs). unfold set_record.
  assert (set_record l k v = t ++ mkRec (Some k) (Some v) :: d ∧ ∀ j u, j ≠ k → holds l j u ↔ mkRec (Some j) (Some u) ∈ t ++ d)
    as [E Ho].
  { unfold set_record, holds. destruct Hs as [(r & -> & -> & Er)|[-> ->]].
    - rewrite alter_middle, Er. split; [done|]. intros j u Hj. rewrite !elem_of_app, elem_of_cons.
      split; [|naive_solver]. intros [?|[<-|?]]; [by left| |by right]. cbn in Er. congruence.
    - rewrite take_app_length, drop_app_length. done. }
  fold (set_record l k v). rewrite E. split; [by apply (around_sorted k)|]. intros j u. unfold holds at 1.
  pose proof (around_other k t d) as Hn.
  destruct (decide (j = k)) as [->|Hj].
  - rewrite elem_of_app, elem_of_cons. split; [|naive_solver].
    intros [H|[[= ->]|H]]; [|by left|]; destruct (Hn (Some u) Ha); apply elem_of_app; [by left|by right].
  - rewrite Ho by done. rewrite !elem_of_app, elem_of_cons. naive_solver.
Qed.

Lemma delete_record_spec l k v : by_name l → holds l k v →
  ∃ idx, find_index l k = inl idx ∧ by_name (delete idx l) ∧
    ∀ j u, holds (delete idx l) j u ↔ j ≠ k ∧ holds l j u.
Proof.
  intros Hl Hk. destruct (find_index_split l k Hl) as (t & d & Ha & Hs).
  pose proof (around_other k t d) as Hn. unfold holds in *.
  destruct Hs as [(r & E & -> & Er)|[_ ->]]; [|by destruct (Hn (Some v) Ha)].
  exists (length t). split; [done|]. rewrite delete_middle. split; [by apply (around_sorted' k)|].
  intros j u. destruct (decide (j = k)) as [->|Hj].
  - split; [|naive_solver]. intros H. by destruct (Hn (Some u) Ha).
  - rewrite !elem_of_app, elem_of_cons. split; [naive_solver|]. intros [_ [?|[<-|?]]]; [by left| |by right].
    cbn in Er. congruence.
Qed.

(** A name that can be a file of its own. *)
Definition prop_key (k : bytes) : Prop :=
  is_persist k = true ∧ utf8_valid k = true ∧ Byte.x00 ∉ k ∧ Byte.x2f ∉ k ∧ (length k ≤ 255)%nat.

(** The storage represents a map. *)
Definition represents {S} (from_reader : bytes → option (list PRecord)) (w : World S) (m : gmap bytes bytes) : Prop :=
  match storage w with
  | Files f => f = m ∧ map_Forall (λ k v, utf8_valid k = true ∧ utf8_valid v = true) m
  | Proto f => f ≠ [] ∧ ∃ props, from_reader f = Some props ∧ NoDup (map p_name props) ∧
      ∀ k v, m !! k = Some v ↔ holds props k v
  end.

Section Refines.
Context {S : Type}.
Context (from_reader : bytes → option (list PRecord)) (write_message : list PRecord → bytes).
Context (env : Env PersistOp) (env_ok : all_succeed env).
(** The encoding; only the message without records has no bytes. *)
Context (codec : ∀ l, from_reader (write_message l) = Some l ∧ (write_message l = [] ↔ l = [])).

Lemma wp_read_sorted props f (Q : list PRecord → World S → Prop) E w :
  storage w = Proto f → f ≠ [] → from_reader f = Some props → Q (sort_by_name props) w →
  wp (proto_read_props from_reader env) Q E w.
Proof.
  intros Hf Hne Hp HQ. unfold proto_read_props. do 4 wp_step. rewrite Hf. destruct f as [|b f]; [done|].
  rewrite Hp. by wp_step.
Qed.

Lemma wp_write l (Q : unit → World S → Prop) E w :
  Q tt (set_storage (Proto (write_message l)) w) → wp (proto_write_props write_message env l) Q E w.
Proof. intros HQ. unfold proto_write_props. by repeat wp_step. Qed.

Lemma get_refines (w : World S) m k : represents from_reader w m →
  wp (persist_get_prop from_reader env k) (λ v w', m !! k = Some v ∧ w' = w) (λ w', m !! k = None ∧ w' = w) w.
Proof.
  intros Hm. unfold represents in Hm. unfold persist_get_prop, check_proto. do 2 wp_step.
  destruct (storage w) as [f|f] eqn:Ef.
  - destruct Hm as (Hne & props & Hp & Hd & Hm). wp_step. eapply wp_read_sorted; [done..|].
    pose proof (sort_by_name_sorted props Hd) as Hs.
    destruct (find_record (sort_by_name props) k) as [[n v]|] eqn:E.
    + apply find_record_spec in E as [Hin En]; [|done]. cbn in En. subst n. rewrite elem_sort_by_name in Hin.
      destruct v as [v|]; wp_step.
      * split; [|done]. by apply Hm.
      * split; [|done]. destruct (m !! k) as [v|] eqn:Ek; [|done]. exfalso. apply Hm in Ek.
        assert (mkRec (Some k) (Some v) = mkRec (Some k) None) as Eq; [|done].
        apply (by_name_unique (sort_by_name props)); [done|by apply elem_sort_by_name..|done].
    + wp_step. split; [|done]. destruct (m !! k) as [v|] eqn:Ek; [|done]. exfalso. apply Hm in Ek.
      assert (find_record (sort_by_name props) k = Some (mkRec (Some k) (Some v))) as E'; [|by rewrite E in E'].
      apply find_record_spec; [done|]. by rewrite elem_sort_by_name.
  - destruct Hm as [-> Hu]. unfold file_get_prop. do 4 wp_step. rewrite Ef.
    destruct (m !! k) as [v|] eqn:Ek; [|by wp_step]. rewrite (proj2 (Hu k v Ek)). by wp_step.
Qed.

Lemma elem_omap_record (l : list PRecord) j v :
  (j, v) ∈ omap (λ r, match r with mkRec (Some n) (Some v) => Some (n, v) | _ => None end) l ↔ holds l j v.
Proof.
  unfold holds. rewrite list_elem_of_omap. split.
  - intros ([[n|] [u|]] & Hin & E); simplify_eq; done.
  - intros Hin. by eexists.
Qed.

Lemma NoDup_omap_record (l : list PRecord) : NoDup (map p_name l) →
  NoDup (omap (λ r, match r with mkRec (Some n) (Some v) => Some (n, v) | _ => None end) l).*1.
Proof.
  induction l as [|[[n|] [v|]] l IH]; cbn [map]; intros Hd; [constructor|..]; apply NoDup_cons in Hd as [Hn Hd];
    cbn; try by apply IH. constructor; [|by apply IH].
  intros ([j u] & E & Hin)%list_elem_of_fmap. cbn in E. subst j. apply elem_omap_record in Hin.
  apply Hn. apply list_elem_of_In, (in_map p_name), list_elem_of_In in Hin. exact Hin.
Qed.

(** What reading the files one by one gives. *)
Lemma read_files_all (w : World S) m names : storage w = Files m →
  (∀ n, n ∈ names → ∃ v, m !! n = Some v ∧ utf8_valid n = true ∧ utf8_valid v = true) →
  wp (read_files env names) (λ l w', l.*1 = names ∧ (∀ j v, (j, v) ∈ l → m !! j = Some v) ∧ w' = w) (λ _, False) w.
Proof.
  intros Hw. induction names as [|n names IH]; intros Hn; cbn [read_files].
  - wp_step. split_and!; [done|by intros ? ? ?%not_elem_of_nil|done].
  - destruct (Hn n) as (v & Hv & Hu & Huv); [by left|]. rewrite Hu. wp_step. wp_step.
    unfold file_get_prop. do 4 wp_step. rewrite Hw, Hv, Huv. do 2 wp_step.
    eapply wp_mono; [apply IH; intros; apply Hn; by right| |done].
    intros l w' (E & Hl & ->). wp_step. split_and!; [cbn; by rewrite E| |done].
    intros j u [[= -> ->]|Hin]%elem_of_cons; [done|by apply Hl].
Qed.

Lemma get_all_refines (w : World S) m : represents from_reader w m →
  wp (persist_get_all_props from_reader env)
    (λ l w', NoDup l.*1 ∧ (∀ j v, (j, v) ∈ l ↔ m !! j = Some v) ∧ w' = w) (λ _, False) w.
Proof.
  intros Hm. unfold represents in Hm. unfold persist_get_all_props, check_proto. do 2 wp_step.
  destruct (storage w) as [f|f] eqn:Ef.
  - destruct Hm as (Hne & props & Hp & Hd & Hm). wp_step. eapply wp_read_sorted; [done..|]. wp_step.
    split_and!; [|intros j v|done].
    + by apply NoDup_omap_record, by_name_NoDup, sort_by_name_sorted.
    + rewrite elem_omap_record, Hm. unfold holds. by rewrite elem_sort_by_name.
  - destruct Hm as [-> Hu]. do 4 wp_step. rewrite Ef.
    eapply wp_mono; [apply (read_files_all w m); [done|]| |done].
    + intros n ([j v] & -> & Hin%elem_of_map_to_list)%list_elem_of_fmap. exists v. split; [done|].
      exact (Hu j v Hin).
    + intros l w' (E & Hl & ->). split_and!; [rewrite E; apply NoDup_fst_map_to_list| |done].
      intros j v. split; [apply Hl|]. intros Hj%elem_of_map_to_list.
      assert (j ∈ l.*1) as ([j' u] & -> & Hin)%list_elem_of_fmap
        by (rewrite E; apply list_elem_of_fmap; by exists (j, v)).
      pose proof (Hl _ _ Hin) as Hu'. apply elem_of_map_to_list in Hj. cbn in Hj. by simplify_eq.
Qed.

Lemma set_refines (w : World S) m k v : represents from_reader w m → utf8_valid k = true → utf8_valid v = true →
  wp (persist_set_prop from_reader write_message env k v)
    (λ _ w', represents from_reader w' (<[k := v]> m) ∧ area w' = area w) (λ _, False) w.
Proof.
  intros Hm Hk Hv. unfold represents in Hm. unfold persist_set_prop, check_proto. do 2 wp_step.
  destruct (storage w) as [f|f] eqn:Ef.
  - destruct Hm as (Hne & props & Hp & Hd & Hm). wp_step. eapply wp_read_sorted; [done..|].
    fold (set_record (sort_by_name props) k v). apply wp_write. split; [|done].
    destruct (set_record_spec (sort_by_name props) k v (sort_by_name_sorted props Hd)) as [Hs Hh].
    unfold represents. cbn [storage set_storage]. split.
    { rewrite (proj2 (codec _)). intros E. specialize (Hh k v). rewrite E in Hh. unfold holds in Hh.
      rewrite elem_of_nil in Hh. tauto. }
    eexists. split; [apply codec|].
    split; [by apply by_name_NoDup|]. intros j u. rewrite Hh. unfold holds. rewrite elem_sort_by_name.
    fold (holds props j u). rewrite <- Hm. destruct (decide (k = j)) as [->|Hj].
    + rewrite lookup_insert_eq. naive_solver.
    + rewrite lookup_insert_ne by done. naive_solver.
  - destruct Hm as [-> Hu]. unfold file_set_prop, on_files. repeat wp_step. rewrite Ef. split; [|done].
    unfold represents. cbn [storage set_storage]. split; [done|]. by apply map_Forall_insert_2.
Qed.

Lemma delete_refines (w : World S) m k v : represents from_reader w m → m !! k = Some v →
  wp (persist_delete_prop from_reader write_message env k)
    (λ _ w', (represents from_reader w' (delete k m) ∨ storage w' = Proto [] ∧ delete k m = ∅) ∧ area w' = area w)
    (λ _, False) w.
Proof.
  intros Hm Hk. unfold represents in Hm. unfold persist_delete_prop, check_proto. do 2 wp_step.
  destruct (storage w) as [f|f] eqn:Ef.
  - destruct Hm as (Hne & props & Hp & Hd & Hm). wp_step. eapply wp_read_sorted; [done..|].
    destruct (delete_record_spec (sort_by_name props) k v (sort_by_name_sorted props Hd)) as (idx & -> & Hs & Hh).
    { apply elem_sort_by_name. by apply Hm. }
    apply wp_write. split; [|done]. unfold represents. cbn [storage set_storage].
    assert (Hdel : ∀ j u, delete k m !! j = Some u ↔ holds (delete idx (sort_by_name props)) j u).
    { intros j u. rewrite Hh. unfold holds. rewrite elem_sort_by_name. fold (holds props j u).
      rewrite <- Hm, lookup_delete_Some. naive_solver. }
    destruct (decide (delete idx (sort_by_name props) = [])) as [E|E].
    + right. rewrite E in *. split; [f_equal; by apply codec|]. apply map_eq. intros j. rewrite lookup_empty.
      destruct (delete k m !! j) as [u|] eqn:Ej; [|done]. apply Hdel, not_elem_of_nil in Ej. done.
    + left. split; [by rewrite (proj2 (codec _))|]. eexists. split; [apply codec|]. by split; [apply by_name_NoDup|].
  - destruct Hm as [-> Hu]. unfold file_set_prop, on_files. do 2 wp_step. rewrite Ef, Hk. wp_step. rewrite Ef. split; [|done].
    left. unfold represents. cbn [storage set_storage]. split; [done|]. by apply map_Forall_delete.
Qed.
End Refines.

(** C15: the persistent storage implements a map, as a protobuf file and as a directory
    of files alike, when no call fails: reading a property gives the value of the map or an
    error, reading all of them gives exactly the pairs of the map, and setting and deleting
    are the map's.  The one exception is the last record of a protobuf file: deleting it leaves a
    file without bytes, which no call can read ([empty_storage_stuck]).  Keys are names of
    persistent properties that can be file names. *)
Theorem persist_refines_map {S} from_reader write_message env (w : World S) m k h :
  all_succeed env → (∀ l, from_reader (write_message l) = Some l ∧ (write_message l = [] ↔ l = [])) →
  represents from_reader w m → prop_key k →
  result (persist_get_prop from_reader env k w h) = of_option tt (m !! k) ∧
  (∃ l, result (persist_get_all_props from_reader env w h) = Ok l ∧ NoDup l.*1 ∧
     ∀ j v, (j, v) ∈ l ↔ m !! j = Some v) ∧
  (∀ v, utf8_valid v = true →
     let r := persist_set_prop from_reader write_message env k v w h in
     result r = Ok tt ∧ represents from_reader (state r) (<[k := v]> m)) ∧
  (∀ v, m !! k = Some v →
     let r := persist_delete_prop from_reader write_message env k w h in
     result r = Ok tt ∧
     (represents from_reader (state r) (delete k m) ∨ storage (state r) = Proto [] ∧ delete k m = ∅)).
Proof.
  intros He Hc Hm (_ & Hk & _). split_and!.
  - pose proof (get_refines from_reader env He w m k Hm) as Hw. apply (wp_run _ _ _ _ h) in Hw.
    destruct (result _) as [v|[]| |]; [|destruct Hw as [-> _]; done|done..]. by destruct Hw as [-> _].
  - pose proof (get_all_refines from_reader env He w m Hm) as Hw. apply (wp_run _ _ _ _ h) in Hw.
    destruct (result _) as [l| | |]; [|done..]. exists l. by destruct Hw as (? & ? & _).
  - intros v Hv r. pose proof (set_refines from_reader write_message env He Hc w m k v Hm Hk Hv) as Hw.
    apply (wp_run _ _ _ _ h) in Hw. fold r in Hw. destruct (result r) as [[]| | |]; try done. by destruct Hw.
  - intros v Hv r. pose proof (delete_refines from_reader write_message env He Hc w m k v Hm Hv) as Hw.
    apply (wp_run _ _ _ _ h) in Hw. fold r in Hw. destruct (result r) as [[]| | |]; try done. by destruct Hw.
Qed.

(** Once the protobuf file has no bytes, every call on the storage fails and leaves it so. *)
Theorem empty_storage_stuck {S} from_reader write_message env (w : World S) k v h : storage w = Proto [] →
  result (persist_get_prop from_reader env k w h) = Err tt ∧
  result (persist_get_all_props from_reader env w h) = Err tt ∧
  (let r := persist_set_prop from_reader write_message env k v w h in result r = Err tt ∧ state r = w) ∧
  (let r := persist_delete_prop from_reader write_message env k w h in result r = Err tt ∧ state r = w).
Proof.
  intros Hw. unfold persist_get_prop, persist_get_all_props, persist_set_prop, persist_delete_prop, proto_read_props,
    check_proto, ask, do_, read, mbind, sys_bind, result, state, throw.
  rewrite Hw. destruct (env h MapFile); cbn [fst snd]; by rewrite ?Hw.
Qed.

(** A concrete encoding of records. *)
#[global] Instance precord_eq_dec : EqDecision PRecord.
Proof. solve_decision. Defined.
#[global] Program Instance precord_countable : Countable PRecord :=
  inj_countable' (λ r, (p_name r, p_value r)) (λ p, mkRec p.1 p.2) _.
Next Obligation. by intros []. Qed.

Fixpoint bits_of (p : positive) : bytes :=
  match p with
  | xH => []
  | xO p => Byte.x00 :: bits_of p
  | xI p => Byte.x01 :: bits_of p
  end.
Fixpoint of_bits (b : bytes) : positive :=
  match b with
  | [] => xH
  | c :: b => if bool_decide (c = Byte.x00) then xO (of_bits b) else xI (of_bits b)
  end.

Lemma of_bits_of p : of_bits (bits_of p) = p.
Proof. induction p as [p IH|p IH|]; cbn; by rewrite ?IH. Qed.

Definition sample_reader (b : bytes) : option (list PRecord) :=
  match b with [] => Some [] | _ :: b => decode (of_bits b) end.
Definition sample_writer (l : list PRecord) : bytes :=
  match l with [] => [] | _ => Byte.x00 :: bits_of (encode l) end.

Lemma sample_codec l : sample_reader (sample_writer l) = Some l ∧ (sample_writer l = [] ↔ l = []).
Proof.
  unfold sample_reader, sample_writer. destruct l as [|r l]; [done|]. by rewrite of_bits_of, decode_encode.
Qed.

Lemma persist_refines_map_witness :
  let w := mkWorld (S:=GArea) ∅ (Proto (sample_writer [mkRec (Some (bs "persist.b")) (Some (bs "2"));
                                                         mkRec (Some (bs "persist.a")) (Some (bs "1"))])) in
  represents sample_reader w {[ bs "persist.a" := bs "1"; bs "persist.b" := bs "2" ]} ∧
  result (persist_get_prop sample_reader (λ _ _, true) (bs "persist.b") w []) = Ok (bs "2").
Proof.
  intros w.
  assert (represents sample_reader w {[ bs "persist.a" := bs "1"; bs "persist.b" := bs "2" ]}) as Hr.
  { unfold represents. cbn [storage w]. split; [done|]. eexists. split; [apply sample_codec|]. split; [by_compute|].
    intros k v. unfold holds. rewrite !elem_of_cons, lookup_insert_Some, lookup_singleton_Some.
    assert (bs "persist.a" ≠ bs "persist.b") by by_compute. pose proof (not_elem_of_nil (mkRec (Some k) (Some v))).
    naive_solver. }
  split; [exact Hr|].
  destruct (persist_refines_map sample_reader sample_writer (λ _ _, true) w _ (bs "persist.b") []
    (λ _ _, eq_refl) sample_codec Hr) as [-> _]; [|reflexivity]. by_compute.
Defined.

(** ** The command line *)

Section Main.
Context {S : Type} `{PropArea S}.
Context (from_reader : bytes → option (list PRecord)) (write_message : list PRecord → bytes).
Context (env : Env PersistOp) (open_file : bytes → option bytes).

Abbreviation no_panic m w := (wp m (λ _ _, True) (λ _, True) w).

Lemma set_no_panic self k v (w : World S) : no_panic (rp_set from_reader write_message env self k v) w.
Proof.
  unfold rp_set. do 5 wp_step. destruct (_ && _); repeat wp_step.
  all: destruct (_ && _); [|by wp_step].
  all: eapply wp_mono; [apply wp_persist_set with (Q := λ _ _, True); done|done|done].
Qed.

Lemma get_no_panic k (w : World S) : no_panic (persist_get_prop from_reader env k) w.
Proof.
  unfold persist_get_prop. do 2 wp_step. destruct (check_proto w).
  - wp_step. apply wp_proto_read; [|done]. intros props. destruct (find_record props k) as [[[] []]|]; by wp_step.
  - unfold file_get_prop. do 2 wp_step; [|done]. do 2 wp_step. destruct (storage w); [by wp_step|].
    destruct (m !! k) as [v|]; [|by wp_step]. destruct (utf8_valid v); by wp_step.
Qed.

Lemma get_all_no_panic (w : World S) : no_panic (persist_get_all_props from_reader env) w.
Proof.
  unfold persist_get_all_props. do 2 wp_step. destruct (check_proto w).
  { wp_step. apply wp_proto_read; [|done]. intros props. by wp_step. }
  do 2 wp_step; [|done]. do 2 wp_step. generalize (match storage w with Files m => (map_to_list m).*1 | Proto _ => [] end).
  intros names. revert w. induction names as [|n names IH]; intros w; cbn [read_files]; [by wp_step|].
  destruct (utf8_valid n); [|apply IH]. do 2 wp_step. unfold file_get_prop.
  assert (Hrest : ∀ v w', no_panic (l ← read_files (S := S) env names; mret (match v with Some v => (n, v) :: l | None => l end)) w').
  { intros v w'. wp_step. eapply wp_mono; [apply IH| |done]. intros; by wp_step. }
  do 2 wp_step; [|exact (Hrest None _)]. do 2 wp_step. destruct (storage w) as [?|m]; [wp_step; exact (Hrest None _)|].
  destruct (m !! n) as [v|]; [|wp_step; exact (Hrest None _)].
  destruct (utf8_valid v); wp_step; [exact (Hrest (Some v) _)|exact (Hrest None _)].
Qed.

Lemma delete_no_panic k (w : World S) : no_panic (persist_delete_prop from_reader write_message env k) w.
Proof.
  unfold persist_delete_prop. do 2 wp_step. destruct (check_proto w).
  - wp_step. apply wp_proto_read; [|done]. intros props. destruct (find_index props k); [|by wp_step].
    unfold proto_write_props. by repeat wp_step.
  - unfold file_set_prop. do 2 wp_step. destruct (storage w); [by wp_step|].
    destruct (m !! k); by repeat wp_step.
Qed.

Lemma run_no_panic self wakes (w : World S) : check_cli self = None → wait_mode self = false →
  no_panic (run from_reader write_message env open_file self wakes) w.
Proof.
  unfold check_cli, run. intros Hc Hw. rewrite Hw in *. cbn [andb] in Hc. destruct (file self) as [f|].
  { wp_step. unfold load_file. destruct (open_file f); [|by wp_step].
    apply (wp_each _ (λ _ _, True)); [|by intros; wp_step|done].
    intros p ps w' _. apply set_no_panic. }
  destruct (delete_key self) as [k|].
  { unfold rp_delete. do 5 wp_step. destruct (persist self && is_persist k).
    - wp_step. wp_step. eapply wp_mono; [apply delete_no_panic| |];
        intros; wp_step; destruct (_ || _); by wp_step.
    - wp_step. destruct (pa_delete _ _ _).2; by wp_step. }
  destruct (args self) as [|k [|v [|x l]]]; [| |by wp_step; eapply wp_mono; [apply set_no_panic|intros; by wp_step|done]|done].
  - unfold print_all. do 3 wp_step. destruct (persist self || persist_only self); [|by repeat wp_step].
    wp_step. eapply wp_mono; [apply get_all_no_panic| |]; intros; by wp_step.
  - wp_step. unfold rp_get. destruct (context self); [by repeat wp_step|]. do 2 wp_step.
    destruct (if persist_only self then _ else _) as [v|]; [by repeat wp_step|].
    destruct (_ && _); [|by repeat wp_step]. wp_step.
    eapply wp_mono; [apply get_no_panic| |]; intros; by wp_step.
Qed.
End Main.

(** On options that parsed, [resetprop_main] never panics: the [unreachable] arm
    and the indexing of the arguments are guarded by its checks.  It ends with exit
    code 0 or 1, or goes on waiting in wait mode. *)
Theorem resetprop_main_no_panic {S} `{PropArea S} from_reader write_message env open_file cli wakes (w : World S) h :
  let r := resetprop_main from_reader write_message env open_file cli wakes w h in
  r = Ok 0 ∨ r = Ok 1 ∨ (wait_mode cli = true ∧ r = NoFuel).
Proof.
  intros r. unfold r, resetprop_main. destruct (check_cli cli) eqn:Ec; [by right; left|].
  destruct (wait_mode cli) eqn:Ew.
  - unfold run. rewrite Ew. unfold lift_, wait. unfold check_cli in Ec. rewrite Ew in Ec. cbn [andb] in Ec.
    destruct (args cli) as [|k rest]; [done|].
    destruct (match wait_exists k (area w) wakes 0 with Some _ => _ | None => _ end); [by left|].
    right. by right.
  - pose proof (run_no_panic from_reader write_message env open_file cli wakes w Ec Ew h) as Hr.
    destruct (run _ _ _ _ cli wakes w h) as [[w' h'] [l| | |]]; try done; [by left|by right; left].
Qed.

(** ** Waiting *)

(** In wait mode with only a name, the command returns at once when the property
    exists, although its usage says that it waits until the property changes. *)
Theorem wait_returns_at_once {S} `{PropArea S} self key (s : S) wakes v :
  args self = [key] → pa_find s key = Some v → wait self s wakes = Ok (Returned 0).
Proof. intros Ha Hv. unfold wait. rewrite Ha. by destruct wakes; cbn; rewrite Hv. Qed.

Lemma wait_returns_at_once_witness :
  wait (mkResetProp false true false false false false None None [bs "x"])
    ({[ bs "x" := (bs "1", false) ]} : GArea) [] = Ok (Returned 0).
Proof. by apply (wait_returns_at_once _ (bs "x") _ [] (bs "1")). Defined.
