(* ===== verification/Socket.v ===== *)
(** Socket: the encoding of daemon messages, [native/src/core/socket.rs] and the
    derive macro in [native/src/base/derive/decodable.rs].

    A stream is the bytes still to be read.  [Codec] is the pair of traits
    [Encodable] and [Decodable]; [CodecOk] is the round trip, for the values [fits]
    admits.  Pointers are 64 bit. *)

From S2P Require Import Prelude.

Abbreviation IoResult := (res unit).

Class Codec (A : Type) := {
  encode : A → bytes;
  decode : bytes → IoResult (A * bytes);
  fits : A → Prop
}.

Class CodecOk (A : Type) `{Codec A} : Prop :=
  decode_encode (a : A) (rest : bytes) : fits a → decode (encode a ++ rest) = Ok (a, rest).

(** [read_exact] for [n] bytes. *)
Definition read_exact (n : nat) (s : bytes) : IoResult (bytes * bytes) :=
  if (n <=? length s)%nat then Ok (take n s, drop n s) else Err tt.

(** ** Plain data *)

(** The integer types, kept apart by their names. *)
Record u8_ := mk_u8 { u8_val : Z }.
Record u32_ := mk_u32 { u32_val : Z }.
Record i32_ := mk_i32 { i32_val : Z }.
Record usize_ := mk_usize { usize_val : Z }.

Definition read_pod (n : nat) (s : bytes) : IoResult (Z * bytes) :=
  '(b, s) ← read_exact n s; Ok (le_val b, s).

(** [write_pod]: the bytes of an unsigned integer. *)
Definition write_pod (n : nat) (z : Z) : bytes := le_bytes n z.

#[global] Instance u8_codec : Codec u8_ := {
  encode a := write_pod 1 (u8_val a);
  decode s := '(v, s) ← read_pod 1 s; Ok (mk_u8 v, s);
  fits a := 0 ≤ u8_val a < 2 ^ 8
}.
#[global] Instance u32_codec : Codec u32_ := {
  encode a := write_pod 4 (u32_val a);
  decode s := '(v, s) ← read_pod 4 s; Ok (mk_u32 v, s);
  fits a := 0 ≤ u32_val a < 2 ^ 32
}.
#[global] Instance i32_codec : Codec i32_ := {
  encode a := write_pod 4 (as_u32 (i32_val a));
  decode s := '(v, s) ← read_pod 4 s; Ok (mk_i32 (as_i32 v), s);
  fits a := - 2 ^ 31 ≤ i32_val a < 2 ^ 31
}.
#[global] Instance usize_codec : Codec usize_ := {
  encode a := write_pod 8 (usize_val a);
  decode s := '(v, s) ← read_pod 8 s; Ok (mk_usize v, s);
  fits a := 0 ≤ usize_val a < 2 ^ 64
}.

Definition encode_bool (b : bool) : bytes := encode (mk_u8 (if b then 1 else 0)).
Definition decode_bool (s : bytes) : IoResult (bool * bytes) :=
  '(v, s) ← decode (A:=u8_) s; Ok (negb (u8_val v =? 0), s).

#[global] Instance bool_codec : Codec bool := {
  encode := encode_bool; decode := decode_bool; fits _ := True
}.

(** ** Sequences *)

(** [with_capacity(len as usize)] for elements of a positive size panics when the
    capacity is more than [isize::MAX] bytes; a negative length is such a capacity. *)
Definition with_capacity (len : Z) : IoResult unit :=
  if len <? 0 then Panic else Ok tt.

Fixpoint decode_n {A} `{Codec A} (n : nat) (s : bytes) : IoResult (list A * bytes) :=
  match n with
  | O => Ok ([], s)
  | S n =>
      '(a, s) ← decode s;
      '(l, s) ← decode_n n s;
      Ok (a :: l, s)
  end.

Definition encode_vec {A} `{Codec A} (l : list A) : bytes :=
  encode (mk_i32 (as_i32 (len l))) ++ concat (map encode l).
Definition decode_vec {A} `{Codec A} (s : bytes) : IoResult (list A * bytes) :=
  '(n, s) ← decode (A:=i32_) s;
  _ ← with_capacity (i32_val n);
  decode_n (Z.to_nat (i32_val n)) s.

#[global] Instance list_codec {A} `{Codec A} : Codec (list A) := {
  encode := encode_vec; decode := decode_vec;
  fits l := len l < 2 ^ 31 ∧ Forall fits l
}.

(** Strings, apart from vectors of bytes. *)
Record str := mk_str { str_val : bytes }.

Definition encode_str (a : str) : bytes := encode (mk_i32 (as_i32 (len (str_val a)))) ++ str_val a.
Definition decode_str (s : bytes) : IoResult (str * bytes) :=
  '(n, s) ← decode (A:=i32_) s;
  _ ← with_capacity (i32_val n);
  let v := take (Z.to_nat (i32_val n)) s in
  if utf8_valid v then Ok (mk_str v, drop (Z.to_nat (i32_val n)) s) else Err tt.

#[global] Instance str_codec : Codec str := {
  encode := encode_str; decode := decode_str;
  fits a := len (str_val a) < 2 ^ 31 ∧ utf8_valid (str_val a) = true
}.

(** ** [SuRequest], with the derived encoding: the fields in order *)

Record SuRequest := mkSuRequest {
  target_uid : i32_; target_pid : i32_; login : bool; keep_env : bool; drop_cap : bool;
  shell : str; command : str; context : str; gids : list u32_
}.

Definition encode_request (r : SuRequest) : bytes :=
  encode (target_uid r) ++ encode (target_pid r) ++ encode (login r) ++ encode (keep_env r) ++
  encode (drop_cap r) ++ encode (shell r) ++ encode (command r) ++ encode (context r) ++ encode (gids r).
Definition decode_request (s : bytes) : IoResult (SuRequest * bytes) :=
  '(a, s) ← decode s; '(b, s) ← decode s; '(c, s) ← decode s; '(d, s) ← decode s; '(e, s) ← decode s;
  '(f, s) ← decode s; '(g, s) ← decode s; '(h, s) ← decode s; '(i, s) ← decode s;
  Ok (mkSuRequest a b c d e f g h i, s).

#[global] Instance su_request_codec : Codec SuRequest := {
  encode := encode_request; decode := decode_request;
  fits r :=
    fits (target_uid r) ∧ fits (target_pid r) ∧ fits (shell r) ∧ fits (command r) ∧ fits (context r) ∧
    fits (gids r)
}.

(** [SuRequest::default]. *)
Definition default_request : SuRequest :=
  mkSuRequest (mk_i32 0) (mk_i32 (-1)) false false false (mk_str (bs "/system/bin/sh")) (mk_str []) (mk_str []) [].

(** ** Round trips *)

Lemma read_pod_le n z s : 0 ≤ z < 256 ^ Z.of_nat n → read_pod n (write_pod n z ++ s) = Ok (z, s).
Proof.
  intros Hz. unfold read_pod, read_exact. unfold write_pod. rewrite length_app, length_le_bytes.
  rewrite (proj2 (Nat.leb_le _ _)) by lia.
  rewrite (take_app_length' (le_bytes n z)), (drop_app_length' (le_bytes n z)) by by rewrite length_le_bytes.
  cbn [mbind res_bind]. by rewrite le_val_bytes_small.
Qed.

#[global] Instance u8_ok : CodecOk u8_.
Proof. intros [v] rest Hf. cbn [encode decode u8_codec u8_val fits] in *. by rewrite read_pod_le. Qed.

#[global] Instance u32_ok : CodecOk u32_.
Proof. intros [v] rest Hf. cbn [encode decode u32_codec u32_val fits] in *. by rewrite read_pod_le. Qed.

#[global] Instance usize_ok : CodecOk usize_.
Proof. intros [v] rest Hf. cbn [encode decode usize_codec usize_val fits] in *. by rewrite read_pod_le. Qed.

#[global] Instance i32_ok : CodecOk i32_.
Proof.
  intros [v] rest Hf. cbn [encode decode i32_codec i32_val fits] in *.
  rewrite read_pod_le by (unfold as_u32; pose proof (Z.mod_pos_bound v (2 ^ 32)); lia).
  cbn [mbind res_bind]. by rewrite as_i32_u32, as_i32_small.
Qed.

#[global] Instance bool_ok : CodecOk bool.
Proof.
  intros b rest _. cbn [encode decode bool_codec]. unfold encode_bool, decode_bool. rewrite (decode_encode (A:=u8_)); [by destruct b|].
  cbn [fits u8_codec u8_val]. by destruct b.
Qed.

(** A length prefix reads back. *)
Lemma decode_len n rest : 0 ≤ n < 2 ^ 31 →
  decode (A:=i32_) (encode (mk_i32 (as_i32 n)) ++ rest) = Ok (mk_i32 n, rest).
Proof. intros Hn. rewrite as_i32_small by lia. apply decode_encode. cbn. lia. Qed.

Lemma decode_n_ok {A} `{CodecOk A} (l : list A) rest : Forall fits l →
  decode_n (length l) (concat (map encode l) ++ rest) = Ok (l, rest).
Proof.
  induction 1 as [|a l Ha _ IH]; [done|]. cbn [length decode_n map concat].
  rewrite <- app_assoc, decode_encode by done. cbn [mbind res_bind]. by rewrite IH.
Qed.

Lemma with_capacity_ok n : 0 ≤ n → with_capacity n = Ok tt.
Proof. intros Hn. unfold with_capacity. by rewrite (proj2 (Z.ltb_ge _ _)). Qed.

#[global] Instance list_ok {A} `{CodecOk A} : CodecOk (list A).
Proof.
  intros l rest [Hl Hf]. cbn [encode decode list_codec]. unfold encode_vec, decode_vec. pose proof (len_nonneg l).
  rewrite <- app_assoc, decode_len by lia. cbn [mbind res_bind i32_val].
  rewrite with_capacity_ok by done. cbn [mbind res_bind]. unfold len. rewrite Nat2Z.id. by apply decode_n_ok.
Qed.

#[global] Instance str_ok : CodecOk str.
Proof.
  intros [v] rest [Hl Hu]. cbn [encode decode str_codec]. unfold encode_str, decode_str. cbn [str_val] in *. pose proof (len_nonneg v).
  rewrite <- app_assoc, decode_len by lia. cbn [mbind res_bind i32_val].
  rewrite with_capacity_ok by done. cbn [mbind res_bind]. unfold len.
  rewrite Nat2Z.id, take_app_length, Hu, drop_app_length. done.
Qed.

(** C38: a request that was sent is received: decoding an encoded [SuRequest] gives it
    back and leaves the bytes behind it, for strings and lists shorter than 2 GiB. *)
Theorem su_request_roundtrip (r : SuRequest) rest :
  fits r → decode (encode r ++ rest) = Ok (r, rest).
Proof.
  destruct r. intros (H1 & H2 & H3 & H4 & H5 & H6).
  cbn [encode decode su_request_codec]. unfold encode_request, decode_request.
  cbn [target_uid target_pid login keep_env drop_cap shell command context gids] in *.
  rewrite <- !app_assoc. by repeat (rewrite decode_encode by done; cbn [mbind res_bind]).
Qed.

Lemma su_request_roundtrip_witness :
  decode (encode default_request ++ [Byte.x01]) = Ok (default_request, [Byte.x01]).
Proof. apply (su_request_roundtrip default_request). repeat split; try done; by constructor. Defined.

(** ** Malformed messages *)

(** A negative length makes the reader panic instead of reporting an error, for
    strings and for vectors alike; the daemon reads such lengths from its clients. *)
Theorem negative_length_panics {A} `{Codec A} n rest : - 2 ^ 31 ≤ n < 0 →
  decode (A:=str) (encode (mk_i32 n) ++ rest) = Panic ∧ decode (A:=list A) (encode (mk_i32 n) ++ rest) = Panic.
Proof.
  intros Hn. cbn [decode str_codec list_codec]. unfold decode_str, decode_vec. rewrite decode_encode by (cbn; lia).
  cbn [mbind res_bind i32_val]. unfold with_capacity. by rewrite (proj2 (Z.ltb_lt _ _)) by lia.
Qed.

Lemma negative_length_panics_witness :
  decode (A:=str) (encode (mk_i32 (-1)) ++ []) = Panic.
Proof. apply (negative_length_panics (A:=u8_) (-1) []). lia. Defined.

(** A string cut short by the end of the stream is accepted as it is. *)
Theorem truncated_string_accepted v n : utf8_valid v = true → len v < n < 2 ^ 31 →
  decode (A:=str) (encode (mk_i32 n) ++ v) = Ok (mk_str v, []).
Proof.
  intros Hv Hn. pose proof (len_nonneg v). cbn [decode str_codec]. unfold decode_str. rewrite decode_encode by (cbn; lia).
  cbn [mbind res_bind i32_val]. rewrite with_capacity_ok by lia. cbn [mbind res_bind].
  unfold len in *. by rewrite take_ge, drop_ge, Hv by lia.
Qed.
