(* ===== verification/Decodable.v ===== *)
(** Decodable: the derive macro for socket messages, [native/src/base/derive/decodable.rs].

    The macro's input is the shape of a type, its output a program: the statements that
    encode or decode the fields one by one.  Field types are codecs ([Socket]); the value of
    a struct is the tuple of its fields. *)

From S2P Require Import Prelude Socket.

(** A type with its codec and its law. *)
Record FieldTy := mkTy { ty : Type; ty_codec : Codec ty; ty_ok : @CodecOk ty ty_codec }.
#[global] Existing Instance ty_codec.
#[global] Existing Instance ty_ok.

(** [syn::Data] and [syn::Fields]. *)
Inductive Fields := Named (named : list (bytes * FieldTy)) | Unnamed (tys : list FieldTy) | Unit.
Inductive Data := Struct (fields : Fields) | Enum | Union.

(** The statements that are generated; the expression of the decoder is a struct literal,
    whose fields are evaluated in the order they are written. *)
Inductive Stmt := EncodeField (name : bytes) (t : FieldTy).
Inductive FieldInit := DecodeField (name : bytes) (t : FieldTy).

Definition gen_encode (data : Data) : res unit (list Stmt) :=
  match data with
  | Struct (Named named) => Ok (map (λ '(name, t), EncodeField name t) named)
  | Struct _ => Panic
  | Enum | Union => Panic
  end.
Definition gen_decode (data : Data) : res unit (list FieldInit) :=
  match data with
  | Struct (Named named) => Ok (map (λ '(name, t), DecodeField name t) named)
  | Struct _ => Panic
  | Enum | Union => Panic
  end.

(** Type parameters, each bound to be decodable. *)
Inductive GenericParam := TypeParam (name : bytes) (bounds : list bytes) | LifetimeParam (name : bytes) | ConstParam (name : bytes).
Definition add_bound (p : GenericParam) : GenericParam :=
  match p with
  | TypeParam name bounds => TypeParam name (bounds ++ [bs "crate::socket::Decodable"])
  | p => p
  end.

(** [Encodable] and [Decodable] are implemented with the same generics. *)
Record Derived := mkDerived { generics : list GenericParam; encode_body : list Stmt; decode_body : list FieldInit }.
Definition derive_decodable (params : list GenericParam) (data : Data) : res unit Derived :=
  let params := map add_bound params in
  e ← gen_encode data; d ← gen_decode data; Ok (mkDerived params e d).

(** ** What the generated code does *)

(** A struct is its fields by name; a statement finds its field. *)
Definition Value : Type := list (bytes * sigT ty).

Fixpoint field (v : Value) (name : bytes) : option (sigT ty) :=
  match v with
  | [] => None
  | (n, x) :: v => if bool_decide (n = name) then Some x else field v name
  end.

(** [self.name.encode(w)?], one after another. *)
Fixpoint run_encode (stmts : list Stmt) (v : Value) : bytes :=
  match stmts with
  | [] => []
  | EncodeField name _ :: stmts =>
      match field v name with Some (existT _ a) => encode a | None => [] end ++ run_encode stmts v
  end.

Fixpoint run_decode (inits : list FieldInit) (s : bytes) : IoResult (Value * bytes) :=
  match inits with
  | [] => Ok ([], s)
  | DecodeField name t :: inits =>
      '(a, s) ← decode (A:=ty t) s;
      '(v, s) ← run_decode inits s;
      Ok ((name, existT t a) :: v, s)
  end.

(** A value of the struct: its fields in order, of their types, and within what is encoded
    without loss. *)
Fixpoint value_of (named : list (bytes * FieldTy)) (v : Value) : Prop :=
  match named, v with
  | [], [] => True
  | (name, t) :: named, (n, existT t' a) :: v => n = name ∧ t' = t ∧ fits a ∧ value_of named v
  | _, _ => False
  end.

Lemma value_names named v : value_of named v → map fst v = map fst named.
Proof.
  revert v. induction named as [|[name t] named IH]; intros [|[n [t' a]] v]; cbn; try done.
  intros (-> & _ & _ & Hv). by rewrite (IH v Hv).
Qed.

Lemma field_app v w name : name ∉ map fst v → field (v ++ w) name = field w name.
Proof.
  induction v as [|[n x] v IH]; intros Hn; [done|]. cbn in *. rewrite bool_decide_false by set_solver.
  apply IH. set_solver.
Qed.

Lemma run_decode_encode named v pre rest :
  NoDup (map fst pre ++ map fst named) → value_of named v →
  run_decode (map (λ '(name, t), DecodeField name t) named)
    (run_encode (map (λ '(name, t), EncodeField name t) named) (pre ++ v) ++ rest) = Ok (v, rest).
Proof.
  revert v pre. induction named as [|[name t] named IH]; intros v pre Hd Hv; cbn [map run_encode run_decode].
  - by destruct v.
  - destruct v as [|[n [t' a]] v]; [done|]. destruct Hv as (-> & -> & Ha & Hv).
    cbn [map fst] in Hd. rewrite field_app; [|apply NoDup_app in Hd as (_ & Hd & _); intros Hin; by destruct (Hd _ Hin); left].
    cbn [field]. rewrite bool_decide_true by done. rewrite <- app_assoc.
    rewrite decode_encode by done. cbn [mbind res_bind].
    rewrite cons_middle, app_assoc, (IH v (pre ++ [(name, existT t a)])); [done| |done].
    rewrite map_app. cbn [map fst]. by rewrite <- app_assoc.
Qed.

(** For every struct with named fields whose types round-trip, the derived decoder gives
    back what the derived encoder wrote and leaves the rest of the stream; on anything else
    the macro fails at compile time. *)
Theorem derived_roundtrip params data v rest :
  match derive_decodable params data with
  | Ok d =>
      ∃ named, data = Struct (Named named) ∧
        (NoDup (map fst named) → value_of named v → run_decode (decode_body d) (run_encode (encode_body d) v ++ rest) = Ok (v, rest))
  | Panic => ∀ named, data ≠ Struct (Named named)
  | _ => False
  end.
Proof.
  destruct data as [[named|tys|]| |]; cbn; try done. exists named. split; [done|]. intros Hd Hv.
  by apply (run_decode_encode named v [] rest).
Qed.

(** ** [SuRequest] *)

Definition su_request_fields : list (bytes * FieldTy) :=
  [(bs "target_uid", mkTy i32_ _ _); (bs "target_pid", mkTy i32_ _ _); (bs "login", mkTy bool _ _);
   (bs "keep_env", mkTy bool _ _); (bs "drop_cap", mkTy bool _ _); (bs "shell", mkTy str _ _);
   (bs "command", mkTy str _ _); (bs "context", mkTy str _ _); (bs "gids", mkTy (list u32_) _ _)].

Definition su_request_value (r : SuRequest) : Value :=
  [(bs "target_uid", existT (mkTy i32_ _ _) (target_uid r)); (bs "target_pid", existT (mkTy i32_ _ _) (target_pid r));
   (bs "login", existT (mkTy bool _ _) (login r)); (bs "keep_env", existT (mkTy bool _ _) (keep_env r));
   (bs "drop_cap", existT (mkTy bool _ _) (drop_cap r)); (bs "shell", existT (mkTy str _ _) (shell r));
   (bs "command", existT (mkTy str _ _) (command r)); (bs "context", existT (mkTy str _ _) (context r));
   (bs "gids", existT (mkTy (list u32_) _ _) (gids r))].

(** What [Socket] takes as the codec of [SuRequest] is what the macro generates. *)
Lemma su_request_derived r :
  gen_encode (Struct (Named su_request_fields)) = Ok (map (λ '(name, t), EncodeField name t) su_request_fields) ∧
  encode r = run_encode (map (λ '(name, t), EncodeField name t) su_request_fields) (su_request_value r).
Proof. split; [done|]. cbn. unfold encode_request. by rewrite app_nil_r. Qed.
