(* ===== verification/Fds.v ===== *)
(** Fds: passing file descriptors over a socket, [native/src/core/socket.rs].

    A connection is the messages in flight: bytes, and the descriptors that come with them.
    The kernel's calls are an interface ([Kernel], [KernelOk]). *)

From S2P Require Import Prelude Socket.

Abbreviation Fd := Z.
Abbreviation Queue := (list (bytes * list Fd)).

(** [sendmsg], a [read], [recvmsg] and a peek of at most so many bytes; [None] is an error. *)
Class Kernel := {
  k_send : Queue → bytes → list Fd → option Queue;
  k_read : nat → Queue → option (bytes * Queue);
  k_recv : nat → Queue → option (bytes * list Fd * Queue);
  k_peek : nat → Queue → option bytes
}.

(** A message that is read with a buffer of its size comes whole and alone, with its
    descriptors if they are asked for. *)
Class KernelOk `{Kernel} : Prop := {
  send_law q b fds : k_send q b fds = Some (q ++ [(b, fds)]);
  read_law b q : b ≠ [] → k_read (length b) ((b, []) :: q) = Some (b, q);
  recv_law b fds q : b ≠ [] → k_recv (length b) ((b, fds) :: q) = Some (b, fds, q);
  peek_law b fds q : k_peek (length b) ((b, fds) :: q) = Some b
}.

Section Calls.
Context `{Kernel}.

(** [write_all] of a buffer: one write. *)
Definition write_pod_ (q : Queue) (v : Z) : res unit Queue := of_option tt (k_send q (write_pod 4 (as_u32 v)) []).

(** [SocketAncillary::add_fds]: the header and the descriptors, padded, must fit. *)
Definition add_fds (n : nat) : bool := (16 + 8 * ((4 * n + 7) / 8) <=? 4096)%nat.

Definition send_fds (q : Queue) (fds : list Fd) : res unit Queue :=
  match fds with
  | [] => write_pod_ q 0
  | _ =>
      if negb (add_fds (length fds)) then Err tt
      else of_option tt (k_send q (write_pod 4 (as_u32 (as_i32 (len fds)))) fds)
  end.

(** The integer whose first bytes were filled in. *)
Definition filled (b : bytes) : Z := as_i32 (le_val (b ++ drop (length b) (replicate 4 Byte.x00))).

(** [read_exact] of an integer. *)
Definition read_count (q : Queue) : res unit (Z * Queue) :=
  match k_read 4 q with
  | Some (b, q) => if (length b =? 4)%nat then Ok (filled b, q) else Err tt
  | None => Err tt
  end.

(** The first descriptor, the ones that were closed, and whether there was a warning. *)
Record Received := mkReceived { got : option Fd; closed : list Fd; warned : bool; left : Queue }.

Definition recv_fd (q : Queue) : res unit Received :=
  b ← of_option tt (k_peek 4 q);
  let fd_count := filled b in
  if fd_count <? 1 then
    '(_, q) ← read_count q;
    Ok (mkReceived None [] false q)
  else
    let warned := 1 <? fd_count in
    '(_, rights, q) ← of_option tt (k_recv 4 q);
    match rights with
    | [] => Ok (mkReceived None [] warned q)
    | fd :: rest => Ok (mkReceived (Some fd) rest warned q)
    end.

Definition recv_fds (q : Queue) : res unit (list Fd * bool * Queue) :=
  '(b, fds, q) ← of_option tt (k_recv 4 q);
  Ok (fds, negb (filled b =? len fds), q).

(** The functions for C++; the queue is what the failed call left, or was given. *)
Definition send_fd (q : Queue) (fd : Fd) : Queue * bool :=
  match send_fds q (if fd <? 0 then [] else [fd]) with Ok q => (q, true) | _ => (q, false) end.
Definition recv_fd_for_cxx (q : Queue) : Fd * list Fd * Queue :=
  match recv_fd q with
  | Ok r => (default (-1) (got r), closed r, left r)
  | _ => (-1, [], q)
  end.
Definition recv_fds_for_cxx (q : Queue) : list Fd * Queue :=
  match recv_fds q with Ok (fds, _, q) => (fds, q) | _ => ([], q) end.
End Calls.

(** ** What is sent is received *)

Section RoundTrip.
Context `{KernelOk}.

Lemma count_length n : length (write_pod 4 n) = 4%nat.
Proof. apply length_le_bytes. Qed.

Lemma count_nonempty n : write_pod 4 n ≠ [].
Proof. intros E. pose proof (count_length n) as Hl. by rewrite E in Hl. Qed.

Lemma filled_count n : 0 ≤ n < 2 ^ 31 → filled (write_pod 4 (as_u32 n)) = n.
Proof.
  intros Hn. unfold filled. rewrite count_length, drop_ge, app_nil_r by done.
  unfold write_pod. rewrite le_val_bytes_small by (unfold as_u32; pose proof (Z.mod_pos_bound n (2 ^ 32)); lia).
  by rewrite as_i32_u32, as_i32_small by lia.
Qed.

Lemma recv_count n fds q : k_recv 4 ((write_pod 4 n, fds) :: q) = Some (write_pod 4 n, fds, q).
Proof. rewrite <- (count_length n) at 1. apply recv_law, count_nonempty. Qed.

Lemma peek_count n fds q : k_peek 4 ((write_pod 4 n, fds) :: q) = Some (write_pod 4 n).
Proof. rewrite <- (count_length n) at 1. apply peek_law. Qed.

Lemma read_count_none n q : k_read 4 ((write_pod 4 n, []) :: q) = Some (write_pod 4 n, q).
Proof. rewrite <- (count_length n) at 1. apply read_law, count_nonempty. Qed.

(** The message for some descriptors. *)
Definition message (fds : list Fd) : bytes * list Fd := (write_pod 4 (as_u32 (len fds)), fds).

Lemma send_fds_sends q fds : len fds < 2 ^ 31 → fds = [] ∨ add_fds (length fds) = true →
  send_fds q fds = Ok (q ++ [message fds]).
Proof.
  intros Hl Hf. unfold send_fds, message. pose proof (len_nonneg fds). destruct fds as [|fd fds].
  - unfold write_pod_. by rewrite send_law.
  - destruct Hf as [| ->]; [done|]. cbn [negb]. rewrite as_i32_small by lia. by rewrite send_law.
Qed.

Lemma recv_fd_gets fds q : len fds < 2 ^ 31 →
  recv_fd (message fds :: q) = Ok (mkReceived (head fds) (tail fds) (1 <? len fds) q).
Proof.
  intros Hl. unfold recv_fd, message. pose proof (len_nonneg fds). rewrite peek_count. cbn [of_option mbind res_bind].
  rewrite filled_count by lia. destruct fds as [|fd fds].
  - cbn [len]. unfold read_count. change (len []) with 0. rewrite read_count_none, count_length. done.
  - destruct (Z.ltb_spec (len (fd :: fds)) 1) as [Hlt|_]; [rewrite len_cons in Hlt; pose proof (len_nonneg fds); lia|].
    rewrite recv_count. done.
Qed.

Lemma recv_fds_gets fds q : len fds < 2 ^ 31 → recv_fds (message fds :: q) = Ok (fds, false, q).
Proof.
  intros Hl. unfold recv_fds, message. pose proof (len_nonneg fds). rewrite recv_count. cbn [of_option mbind res_bind].
  rewrite filled_count by lia. by rewrite Z.eqb_refl.
Qed.

(** One descriptor after another; a negative one stands for none. *)
Fixpoint send_all (q : Queue) (fds : list Fd) : Queue * bool :=
  match fds with
  | [] => (q, true)
  | fd :: fds => let '(q, ok) := send_fd q fd in let '(q, ok') := send_all q fds in (q, ok && ok')
  end.
Fixpoint recv_all (n : nat) (q : Queue) : list Fd * list Fd * Queue :=
  match n with
  | O => ([], [], q)
  | Datatypes.S n =>
      let '(fd, c, q) := recv_fd_for_cxx q in
      let '(fds, c', q) := recv_all n q in (fd :: fds, c ++ c', q)
  end.

Definition one (fd : Fd) : list Fd := if fd <? 0 then [] else [fd].

Lemma send_all_sends fds q : send_all q fds = (q ++ map (λ fd, message (one fd)) fds, true).
Proof.
  revert q. induction fds as [|fd fds IH]; intros q; cbn [send_all map]; [by rewrite app_nil_r|].
  unfold send_fd. fold (one fd). rewrite send_fds_sends.
  - rewrite IH, <- app_assoc. done.
  - unfold one. by destruct (fd <? 0).
  - unfold one. destruct (fd <? 0); [by left|by right].
Qed.

Lemma recv_all_gets fds q :
  recv_all (length fds) (map (λ fd, message (one fd)) fds ++ q) = (map (λ fd, if fd <? 0 then -1 else fd) fds, [], q).
Proof.
  induction fds as [|fd fds IH]; [done|]. cbn [length recv_all map app]. unfold recv_fd_for_cxx.
  rewrite recv_fd_gets by (unfold one; by destruct (fd <? 0)). cbn [got closed left].
  rewrite IH. unfold one. by destruct (fd <? 0).
Qed.
End RoundTrip.

(** A kernel for a queue that is delivered message by message. *)
#[local] Instance fifo : Kernel := {
  k_send q b fds := Some (q ++ [(b, fds)]);
  k_read n q := match q with (b, _) :: q => Some (take n b, q) | [] => Some ([], []) end;
  k_recv n q := match q with (b, fds) :: q => Some (take n b, fds, q) | [] => Some ([], [], []) end;
  k_peek n q := match q with (b, _) :: _ => Some (take n b) | [] => Some [] end
}.

#[local] Instance fifo_ok : KernelOk.
Proof. constructor; intros; cbn; by rewrite ?firstn_all. Qed.

(** Descriptors that are sent arrive, in order and each as often as it was sent, a
    negative one as [-1]; nothing is left in the connection or closed. *)
Theorem fds_arrive `{KernelOk} fds :
  let '(q, sent) := send_all [] fds in
  sent = true ∧ recv_all (length fds) q = (map (λ fd, if fd <? 0 then -1 else fd) fds, [], []).
Proof.
  rewrite send_all_sends. split; [done|]. rewrite <- (app_nil_r (map _ fds)) at 1. apply (recv_all_gets fds []).
Qed.

Lemma fds_arrive_witness :
  let '(q, sent) := send_all [] [5; -3; 7] in sent = true ∧ recv_all 3 q = ([5; -1; 7], [], []).
Proof. exact (fds_arrive [5; -3; 7]). Defined.

(** A group arrives as a group; who expects one descriptor gets the first and closes the
    others, so that none is lost. *)
Lemma group_arrives `{KernelOk} fds : len fds < 2 ^ 31 → add_fds (length fds) = true →
  ∃ q, send_fds [] fds = Ok q ∧ recv_fds q = Ok (fds, false, []) ∧
    ∃ r, recv_fd q = Ok r ∧ (match got r with Some fd => fd :: closed r | None => closed r end) = fds.
Proof.
  intros Hl Ha. exists [message fds]. split; [apply send_fds_sends; auto|]. split; [by apply recv_fds_gets|].
  eexists. split; [by apply recv_fd_gets|]. by destruct fds.
Qed.
