(* ===== verification/Logging.v ===== *)
(** Logging: the logger of [native/src/base/logging.rs] and the log daemon of
    [native/src/core/logging.rs].

    A message goes through the logger to a writer; the writers of magiskd and zygote send it
    as a record through a pipe, at whose other end the log daemon formats it into a buffer
    or the log file.  The clock is a function of the number of the record ([Tick]), with
    the text [localtime_r] and [strftime] make of the time. *)

From S2P Require Import Prelude Cstr Socket Io Sys.

(** ** The logger *)

Inductive LogLevel := Error | Warn | Info | Debug.

(** [LogLevel::from_i32]. *)
Definition level_from_i32 (z : Z) : option LogLevel :=
  match z with 0 => Some Error | 1 => Some Warn | 2 => Some Info | 3 => Some Debug | _ => None end.

Definition as_disable_flag (l : LogLevel) : Z :=
  match l with
  | Error => Z.shiftl 1 0
  | Warn => Z.shiftl 1 1
  | Info => Z.shiftl 1 2
  | Debug => Z.shiftl 1 3
  end.
Definition EXIT_ON_ERROR : Z := Z.shiftl 1 4.

(** The functions installed as writers. *)
Inductive LogWriter := NoWrite | CmdlineWrite | AndroidWrite | MagiskWrite | ZygiskWrite.
#[global] Instance LogWriter_eq_dec : EqDecision LogWriter.
Proof. solve_decision. Defined.

Record Logger := mkLogger { write : LogWriter; flags : Z }.
Definition LOGGER : Logger := mkLogger NoWrite 0.

Definition flag_set (flags f : Z) (b : bool) : Z := if b then Z.lor flags f else Z.land flags (Z.lnot f).
Definition flag_contains (flags f : Z) : bool := Z.land flags f =? f.

Definition exit_on_error (b : bool) (l : Logger) : Logger := mkLogger (write l) (flag_set (flags l) EXIT_ON_ERROR b).
(** As written: the flag that disables a level is set when it is enabled. *)
Definition set_log_level_state (level : LogLevel) (enabled : bool) (l : Logger) : Logger :=
  mkLogger (write l) (flag_set (flags l) (as_disable_flag level) enabled).
Definition set_writer (w : LogWriter) (l : Logger) : Logger := mkLogger w (flags l).

(** The writer called, if any, and whether the process exits behind it. *)
Definition log_with_writer (l : Logger) (level : LogLevel) : option LogWriter * bool :=
  if flag_contains (flags l) (as_disable_flag level) then (None, false)
  else (Some (write l), match level with Error => flag_contains (flags l) EXIT_ON_ERROR | _ => false end).

Definition log_from_cxx (l : Logger) (level : Z) : option LogWriter * bool :=
  match level_from_i32 level with Some level => log_with_writer l level | None => (None, false) end.

(** [writeln!] into a buffer of 4096 bytes. *)
Definition log_text (text : bytes) : bytes :=
  Buf.as_str (Buf.push_str (Buf.new 4096) (text ++ [Byte.x0a])).1.
Definition log_with_formatter (l : Logger) (level : LogLevel) (text : bytes) : option (LogWriter * bytes) * bool :=
  let '(w, ex) := log_with_writer l level in ((λ w, (w, log_text text)) <$> w, ex).

(** Standard output is 1, standard error 2. *)
Definition cmdline_write (level : LogLevel) (msg : bytes) : Z * bytes :=
  (match level with Info => 1 | _ => 2 end, msg).

Definition android_logging : Logger → Logger := set_writer AndroidWrite.
Definition magisk_logging : Logger → Logger := set_writer MagiskWrite.
Definition zygisk_logging : Logger → Logger := set_writer ZygiskWrite.
Definition cmdline_logging : Logger → Logger := set_writer CmdlineWrite.

(** ** Records *)

(** [ALogPriority]. *)
Definition level_to_prio (l : LogLevel) : Z :=
  match l with Error => 6 | Warn => 5 | Info => 4 | Debug => 3 end.

Record LogMeta := mkMeta { prio : Z; len_ : Z; pid : Z; tid : Z }.

#[global] Instance meta_codec : Codec LogMeta := {
  encode m := encode (mk_i32 (prio m)) ++ encode (mk_i32 (len_ m)) ++ encode (mk_i32 (pid m)) ++ encode (mk_i32 (tid m));
  decode s :=
    '(a, s) ← decode (A:=i32_) s;
    '(b, s) ← decode (A:=i32_) s;
    '(c, s) ← decode (A:=i32_) s;
    '(d, s) ← decode (A:=i32_) s;
    Ok (mkMeta (i32_val a) (i32_val b) (i32_val c) (i32_val d), s);
  fits m := fits (mk_i32 (prio m)) ∧ fits (mk_i32 (len_ m)) ∧ fits (mk_i32 (pid m)) ∧ fits (mk_i32 (tid m))
}.

#[global] Instance meta_codec_ok : CodecOk LogMeta.
Proof.
  intros [p l i t] rest (Hp & Hl & Hi & Ht). cbn [encode decode meta_codec prio len_ pid tid] in *.
  rewrite <- !app_assoc. rewrite decode_encode by done. cbn [mbind res_bind].
  rewrite decode_encode by done. cbn [mbind res_bind]. rewrite decode_encode by done.
  cbn [mbind res_bind]. by rewrite decode_encode.
Qed.

Definition PIPE_BUF : nat := 4096.
Definition MAX_MSG_LEN : nat := PIPE_BUF - 16.

(** One [writev] of at most [PIPE_BUF] bytes: all of it or nothing. *)
Definition log_record (p : Z) (msg : bytes) (pid tid : Z) : bytes :=
  let msg := take (Nat.min MAX_MSG_LEN (length msg)) msg in
  encode (mkMeta p (len msg) pid tid) ++ msg.
Definition setup_record : bytes := encode (mkMeta (-1) 0 0 0).

(** ** The writing end in magiskd: [MAGISK_LOGD_FD] and what went through the pipe *)

Record Logd := mkLogd { logd_fd : bool; pipe : bytes }.

(** [ok]: the write succeeds. *)
Definition with_logd_fd (ok : bool) (record : bytes) (s : Logd) : Logd :=
  if logd_fd s then if ok then mkLogd true (pipe s ++ record) else mkLogd false (pipe s) else s.
Definition magisk_log_to_pipe (ok : bool) (p : Z) (msg : bytes) (pid tid : Z) : Logd → Logd :=
  with_logd_fd ok (log_record p msg pid tid).
Definition setup_logfile (ok : bool) : Logd → Logd := with_logd_fd ok setup_record.

(** ** The writing end in zygote: [ZYGISK_LOGD] *)

(** The calls on descriptors and signals. *)
Inductive FdOp := OpenFd (fd : Z) | CloseFd (fd : Z) | BlockPipe | WriteFd (fd : Z) | ConsumePipe | RestoreMask.

(** [opened]: the descriptor [open] returns; [masked], [written]: these calls succeed. *)
Record ZState := mkZ { zygisk_fd : Z; logger : Logger; ops : list FdOp }.
Definition zop (o : FdOp) (s : ZState) : ZState := mkZ (zygisk_fd s) (logger s) (ops s ++ [o]).
Definition zlog (f : Logger → Logger) (s : ZState) : ZState := mkZ (zygisk_fd s) (f (logger s)) (ops s).

(** [swap]s the descriptor and closes the old one. *)
Definition zswap (fd : Z) (s : ZState) : ZState := mkZ fd (logger s) (ops s ++ [CloseFd (zygisk_fd s)]).

Definition zygisk_close_logd (s : ZState) : ZState := zswap (-1) s.

Definition zygisk_get_logd (opened : option Z) (s : ZState) : ZState * Z :=
  if zygisk_fd s <? 0 then
    let s := zlog android_logging s in
    match opened with
    | Some fd => (zswap fd (zop (OpenFd fd) (zlog zygisk_logging s)), fd)
    | None => (s, -1)
    end
  else (s, zygisk_fd s).

Definition zygisk_log_to_pipe (opened : option Z) (masked written : bool) (s : ZState) : ZState :=
  let '(s, fd) := zygisk_get_logd opened s in
  if fd <? 0 then s
  else
    let s := zop (WriteFd fd) (zop BlockPipe s) in
    let s := if masked then zop RestoreMask (zop ConsumePipe s) else s in
    if written then s else zygisk_close_logd s.

(** ** The log daemon *)

(** The buffer, or that the file is written to; the log and the log of the last boot. *)
Inductive LogFile := Buffer (buf : bytes) | Actual.
Record Disk := mkDisk { logfile : LogFile; log : option bytes; bak : option bytes }.

(** [stamp]: the text of the local time, if there is one; [disk_ok]: the calls on the log
    file succeed. *)
Record Tick := mkTick { stamp : option bytes; millis : Z; disk_ok : bool }.

(** Numbers with a width: zeros or spaces on the left. *)
Definition fmt_int (z : Z) : bytes := if z <? 0 then bs "-" ++ fmt_dec (- z) else fmt_dec z.
Definition pad_left (c : byte) (w : nat) (s : bytes) : bytes := replicate (w - length s) c ++ s.

Definition prio_letter (p : Z) : option bytes :=
  match p with
  | 2 => Some (bs "V") | 3 => Some (bs "D") | 4 => Some (bs "I") | 5 => Some (bs "W") | 6 => Some (bs "E")
  | _ => None
  end.

(** What follows the time. *)
Definition log_info (ms : Z) (m : LogMeta) (letter : bytes) : bytes :=
  bs "." ++ pad_left Byte.x30 3 (fmt_int ms) ++ bs " " ++ pad_left Byte.x20 5 (fmt_int (pid m)) ++ bs " " ++
  pad_left Byte.x20 5 (fmt_int (tid m)) ++ bs " " ++ letter ++ bs " : ".

(** [aux] after [strftime], [rebuild] and [write!]. *)
Definition log_prefix (aux : Buf.Buf) (time : bytes) (info : bytes) : option bytes :=
  let '(aux, r) := Buf.rebuild (Buf.mk 0 (time ++ NUL :: drop (S (length time)) (Buf.buf aux))) in
  match r with Ok _ => Some (Buf.as_str (Buf.push_str aux info).1) | _ => None end.

(** The records are written to the buffer or behind what the file has. *)
Definition append_log (t : Tick) (line : bytes) (d : Disk) : Disk * IoResult unit :=
  match logfile d with
  | Buffer b => (mkDisk (Buffer (b ++ line)) (log d) (bak d), Ok tt)
  | Actual => if disk_ok t then (mkDisk Actual ((λ l, l ++ line) <$> log d) (bak d), Ok tt) else (d, Err tt)
  end.

(** From the buffer to a new file; the old one is kept. *)
Definition open_log (t : Tick) (d : Disk) : Disk * IoResult unit :=
  match logfile d with
  | Buffer b =>
      let d := match log d with Some l => mkDisk (Buffer b) None (Some l) | None => d end in
      if disk_ok t then (mkDisk Actual (Some b) (bak d), Ok tt) else (d, Err tt)
  | Actual => (d, Ok tt)
  end.

(** One record; the bytes of a message of a wrong length are not skipped. *)
Definition handle_record (t : Tick) (d : Disk) (s : bytes) : Disk * IoResult bytes :=
  match decode (A:=LogMeta) s with
  | Ok (m, s) =>
      if prio m <? 0 then let '(d, r) := open_log t d in (d, _ ← r; Ok s)
      else if (len_ m <? 0) || (Z.of_nat MAX_MSG_LEN <? len_ m) then (d, Ok s)
      else
        match read_exact (Z.to_nat (len_ m)) s with
        | Ok (msg, s) =>
            match prio_letter (prio m), stamp t with
            | Some c, Some time =>
                match log_prefix (Buf.new 64) time (log_info (millis t) m c) with
                | Some line => let '(d, r) := append_log t (line ++ msg) d in (d, _ ← r; Ok s)
                | None => (d, Ok s)
                end
            | _, _ => (d, Ok s)
            end
        | Err e => (d, Err e)
        | Panic => (d, Panic)
        | NoFuel => (d, NoFuel)
        end
  | Err e => (d, Err e)
  | Panic => (d, Panic)
  | NoFuel => (d, NoFuel)
  end.

(** The loop over the bytes that come through the pipe; it ends where they end. *)
Fixpoint record_loop (fuel : nat) (clock : nat → Tick) (n : nat) (d : Disk) (s : bytes) : Disk * IoResult unit :=
  match fuel with
  | O => (d, NoFuel)
  | S fuel =>
      match handle_record (clock n) d s with
      | (d, Ok s) => record_loop fuel clock (S n) d s
      | (d, Err e) => (d, Err e)
      | (d, Panic) => (d, Panic)
      | (d, NoFuel) => (d, NoFuel)
      end
  end.

(** Every record has 16 bytes. *)
Definition logfile_write_loop (clock : nat → Tick) (log bak : option bytes) (s : bytes) : Disk * IoResult unit :=
  record_loop (S (length s)) clock 0 (mkDisk (Buffer []) log bak) s.

(** ** The lengths of a prefix *)

Lemma length_dec_digits fuel k z : 0 ≤ z < 10 ^ Z.of_nat (S k) → (length (dec_digits fuel z) ≤ S k)%nat.
Proof.
  revert k z. induction fuel as [|fuel IH]; intros k z Hz; cbn [dec_digits]; [cbn; lia|].
  rewrite length_app. cbn [length]. destruct (Z.ltb_spec z 10); cbn [length]; [lia|].
  destruct k as [|k]; [cbn in Hz; lia|].
  assert (length (dec_digits fuel (z / 10)) ≤ S k)%nat; [|lia]. apply IH.
  rewrite (Nat2Z.inj_succ (S k)), Z.pow_succ_r in Hz by lia.
  split; [apply Z.div_pos; lia|apply Z.div_lt_upper_bound; lia].
Qed.

Lemma length_fmt_int z : - 2 ^ 31 ≤ z < 2 ^ 31 → (length (fmt_int z) ≤ 11)%nat.
Proof.
  intros Hz. unfold fmt_int, fmt_dec. destruct (Z.ltb_spec z 0).
  - rewrite length_app. change (length (bs "-")) with 1%nat.
    pose proof (length_dec_digits (S (Z.to_nat (Z.log2 (- z)))) 9 (- z)) as Hl.
    change (10 ^ Z.of_nat 10) with 10000000000 in Hl. lia.
  - pose proof (length_dec_digits (S (Z.to_nat (Z.log2 z))) 9 z) as Hl.
    change (10 ^ Z.of_nat 10) with 10000000000 in Hl. lia.
Qed.

Lemma length_fmt_millis z : 0 ≤ z < 1000 → (length (fmt_int z) ≤ 3)%nat.
Proof.
  intros Hz. unfold fmt_int, fmt_dec. destruct (Z.ltb_spec z 0); [lia|].
  apply (length_dec_digits _ 2). cbn. lia.
Qed.

Lemma length_pad_left c w s : length (pad_left c w s) = Nat.max w (length s).
Proof. unfold pad_left. rewrite length_app, length_replicate. lia. Qed.

Lemma length_log_info ms m letter :
  0 ≤ ms < 1000 → fits m → length letter = 1%nat → (length (log_info ms m letter) ≤ 33)%nat.
Proof.
  intros Hms (_ & _ & Hp & Ht) Hl. cbn in Hp, Ht. unfold log_info. rewrite !length_app, !length_pad_left, Hl.
  pose proof (length_fmt_millis ms Hms). pose proof (length_fmt_int (pid m) ltac:(lia)).
  pose proof (length_fmt_int (tid m) ltac:(lia)).
  change (length (bs ".")) with 1%nat. change (length (bs " ")) with 1%nat. change (length (bs " : ")) with 3%nat. lia.
Qed.

(** Nothing of the prefix is cut. *)
Lemma log_prefix_ok time info :
  NUL ∉ time → utf8_valid time = true → (length time ≤ 14)%nat → (length info ≤ 33)%nat →
  log_prefix (Buf.new 64) time info = Some (time ++ info).
Proof.
  intros Hn Hu Ht Hi. unfold log_prefix, Buf.rebuild, from_bytes_until_nul. cbn [Buf.buf].
  rewrite until_nul_app by done. unfold from_cstr. rewrite Hu. cbv beta iota zeta.
  set (b := Buf.mk (length time) (time ++ NUL :: drop (S (length time)) (Buf.buf (Buf.new 64)))).
  assert (Buf.wf b) as Hwf by (unfold Buf.wf, b; cbn [Buf.used Buf.buf]; by rewrite list_lookup_middle).
  destruct (Buf.push_str_ok b info Hwf) as (_ & _ & -> & _). f_equal. unfold Buf.bounded_push.
  assert (Buf.as_str b = time) as -> by (unfold Buf.as_str, b; cbn [Buf.used Buf.buf]; by rewrite take_app_length).
  assert (Buf.capacity b = 64%nat) as ->.
  { unfold Buf.capacity, b. cbn [Buf.buf]. rewrite length_app. cbn [length].
    rewrite length_drop. change (length (Buf.buf (Buf.new 64))) with 64%nat. lia. }
  by rewrite take_ge by lia.
Qed.

(** ** What is logged *)

Inductive Event := Say (l : LogLevel) (pid tid : Z) (msg : bytes) | Setup.

Definition event_ok (e : Event) : Prop :=
  match e with Say _ pid tid _ => - 2 ^ 31 ≤ pid < 2 ^ 31 ∧ - 2 ^ 31 ≤ tid < 2 ^ 31 | Setup => True end.

(** Every write succeeds. *)
Definition send (s : Logd) (e : Event) : Logd :=
  match e with
  | Say l pid tid msg => magisk_log_to_pipe true (level_to_prio l) msg pid tid s
  | Setup => setup_logfile true s
  end.

Definition level_letter (l : LogLevel) : bytes :=
  match l with Error => bs "E" | Warn => bs "W" | Info => bs "I" | Debug => bs "D" end.

(** The text of the events from the [n]-th on. *)
Fixpoint text_of (clock : nat → Tick) (n : nat) (evs : list Event) : bytes :=
  match evs with
  | [] => []
  | Say l pid tid msg :: evs =>
      default [] (stamp (clock n)) ++
      log_info (millis (clock n)) (mkMeta 0 0 pid tid) (level_letter l) ++ take MAX_MSG_LEN msg ++
      text_of clock (S n) evs
  | Setup :: evs => text_of clock (S n) evs
  end.

Definition is_setup (e : Event) : bool := match e with Setup => true | _ => false end.

(** A clock that gives times, and a disk that takes what is written. *)
Definition good_clock (clock : nat → Tick) : Prop :=
  ∀ n, disk_ok (clock n) = true ∧ 0 ≤ millis (clock n) < 1000 ∧
       ∃ time, stamp (clock n) = Some time ∧ NUL ∉ time ∧ utf8_valid time = true ∧ (length time ≤ 14)%nat.

Definition wire (e : Event) : bytes :=
  match e with Say l pid tid msg => log_record (level_to_prio l) msg pid tid | Setup => setup_record end.

Lemma send_all evs s : logd_fd s = true → foldl send s evs = mkLogd true (pipe s ++ flat_map wire evs).
Proof.
  revert s. induction evs as [|e evs IH]; intros [fd p] Hs; cbn in Hs; subst fd; cbn [foldl flat_map].
  - cbn. by rewrite app_nil_r.
  - rewrite IH by by destruct e. destruct e; cbn; by rewrite <- app_assoc.
Qed.

Lemma length_log_record p msg pid tid : (16 ≤ length (log_record p msg pid tid))%nat.
Proof.
  unfold log_record. rewrite length_app. cbn [encode meta_codec i32_codec]. unfold write_pod.
  rewrite !length_app, !length_le_bytes. lia.
Qed.

Section Deliver.
Context (clock : nat → Tick) (Hclock : good_clock clock).

Lemma read_exact_take (a s : bytes) : read_exact (length a) (a ++ s) = Ok (a, s).
Proof.
  unfold read_exact. rewrite (proj2 (Nat.leb_le _ _)) by (rewrite length_app; lia).
  by rewrite take_app_length, drop_app_length.
Qed.

(** A message comes through as its line. *)
Lemma handle_say n d l pid tid msg s :
  event_ok (Say l pid tid msg) →
  handle_record (clock n) d (wire (Say l pid tid msg) ++ s) =
  let '(d', r) := append_log (clock n) (text_of clock n [Say l pid tid msg]) d in (d', _ ← r; Ok s).
Proof.
  intros [Hp Ht]. destruct (Hclock n) as (_ & Hms & time & Htime & Hn & Hu & Hl).
  unfold handle_record, wire, log_record. set (m := take (Nat.min MAX_MSG_LEN (length msg)) msg).
  assert (m = take MAX_MSG_LEN msg) as Hm.
  { unfold m. destruct (decide (length msg ≤ MAX_MSG_LEN)%nat); [rewrite !take_ge by lia; done|].
    by rewrite Nat.min_l by lia. }
  assert (length m ≤ MAX_MSG_LEN)%nat as Hlen by (rewrite Hm, length_take; lia).
  assert (MAX_MSG_LEN = 4080%nat) as Hmax by reflexivity.
  assert (fits (mkMeta (level_to_prio l) (len m) pid tid)) as Hf.
  { clearbody m. split; [destruct l; cbn; lia|]. split; [change (- 2 ^ 31 ≤ Z.of_nat (length m) < 2 ^ 31); lia|]. split; [exact Hp|exact Ht]. }
  rewrite <- app_assoc, decode_encode by done.
  cbv beta iota zeta. cbn [prio len_]. 
  assert ((level_to_prio l <? 0) = false) as -> by by destruct l.
  unfold len. assert ((Z.of_nat (length m) <? 0) = false) as -> by lia.
  assert ((Z.of_nat MAX_MSG_LEN <? Z.of_nat (length m)) = false) as -> by lia. cbn [orb].
  rewrite Nat2Z.id, read_exact_take, Htime.
  assert (prio_letter (level_to_prio l) = Some (level_letter l)) as -> by by destruct l.
  assert (log_info (millis (clock n)) (mkMeta (level_to_prio l) (Z.of_nat (length m)) pid tid) (level_letter l) =
    log_info (millis (clock n)) (mkMeta 0 0 pid tid) (level_letter l)) as -> by done.
  rewrite log_prefix_ok; try done.
  - cbn [text_of]. rewrite Htime, Hm, app_nil_r. cbn [default]. by rewrite <- app_assoc.
  - apply length_log_info; [done|cbn; lia|by destruct l].
Qed.

Lemma handle_setup n d s :
  handle_record (clock n) d (wire Setup ++ s) = let '(d', r) := open_log (clock n) d in (d', _ ← r; Ok s).
Proof. unfold handle_record, wire, setup_record. by rewrite decode_encode by (cbn; lia). Qed.

(** Where the text ends up. *)
Definition delivered (n : nat) (evs : list Event) (d : Disk) : Disk :=
  let text := text_of clock n evs in
  match logfile d with
  | Buffer b =>
      if existsb is_setup evs
      then mkDisk Actual (Some (b ++ text)) (match log d with Some l => Some l | None => bak d end)
      else mkDisk (Buffer (b ++ text)) (log d) (bak d)
  | Actual => mkDisk Actual ((λ l, l ++ text) <$> log d) (bak d)
  end.

Lemma text_cons n e evs : text_of clock n (e :: evs) = text_of clock n [e] ++ text_of clock (S n) evs.
Proof. destruct e; cbn [text_of]; [|done]. by rewrite app_nil_r, <- !app_assoc. Qed.

Lemma write_loop_delivers fuel n d evs :
  Forall event_ok evs → (length evs < fuel)%nat →
  record_loop fuel clock n d (flat_map wire evs) = (delivered n evs d, Err tt).
Proof.
  revert fuel n d. induction evs as [|e evs IH]; intros fuel n d He Hf; (destruct fuel as [|fuel]; [cbn in Hf; lia|]).
  - destruct d as [[b|] l k]; cbn; unfold delivered; cbn; rewrite ?app_nil_r; [done|].
    destruct l; cbn; by rewrite ?app_nil_r.
  - apply Forall_cons in He as [He Hes]. cbn [length] in Hf. cbn [flat_map record_loop].
    destruct (Hclock n) as (Hd & _). destruct e as [l pid tid msg|].
    + rewrite handle_say by done. unfold append_log. rewrite Hd.
      destruct d as [[b|] k z]; cbn [logfile log bak mbind res_bind]; rewrite IH by (done || lia);
        f_equal; unfold delivered; cbn [logfile log bak existsb is_setup orb];
        rewrite (text_cons n _ evs), ?app_assoc; [done|].
      destruct k; cbn [fmap option_fmap option_map]; [by rewrite app_assoc|done].
    + rewrite handle_setup by done. unfold open_log. rewrite Hd.
      destruct d as [[b|] k z]; cbn [logfile log bak mbind res_bind]; [|rewrite IH by (done || lia)].
      * assert (∀ x y, record_loop fuel clock (S n) (mkDisk Actual (Some b) x) (flat_map wire evs) = (y, Err tt) →
          y = mkDisk Actual (Some (b ++ text_of clock (S n) evs)) x) as Hx.
        { intros x y E. rewrite IH in E by (done || lia). by injection E as <-. }
        destruct k as [k|]; cbn [logfile log bak]; rewrite IH by (done || lia); done.
      * done.
Qed.
End Deliver.

Lemma length_wire evs : (length evs ≤ length (flat_map wire evs))%nat.
Proof.
  induction evs as [|e evs IH]; [done|]. cbn [length flat_map]. rewrite length_app.
  assert (1 ≤ length (wire e))%nat; [|lia]. destruct e as [l p t m|]; [|cbn; lia].
  pose proof (length_log_record (level_to_prio l) m p t). cbn [wire]. lia.
Qed.

(** C22: what magiskd logs is in the log: when the writes succeed, the log daemon takes every
    record from the pipe and writes each message once, in order, behind its time, process
    and level, cut to what fits a pipe at once; what was logged before the log file was set
    up is at its start, the log of the last boot is kept, and the daemon does not panic. *)
Theorem log_delivered clock evs old bak0 :
  good_clock clock → Forall event_ok evs →
  logfile_write_loop clock old bak0 (pipe (foldl send (mkLogd true []) evs)) =
  (if existsb is_setup evs
   then mkDisk Actual (Some (text_of clock 0 evs)) (match old with Some l => Some l | None => bak0 end)
   else mkDisk (Buffer (text_of clock 0 evs)) old bak0, Err tt).
Proof.
  intros Hc He. rewrite send_all by done. cbn [pipe app]. unfold logfile_write_loop.
  rewrite write_loop_delivers; [done|done|done|]. pose proof (length_wire evs). lia.
Qed.

Definition clock_sample (n : nat) : Tick := mkTick (Some (bs "01-02 03:04:05")) (Z.of_nat n mod 1000) true.

Lemma log_delivered_witness :
  logfile_write_loop clock_sample (Some (bs "old")) None
    (pipe (foldl send (mkLogd true []) [Say Info 7 12345 (bs "hi"); Setup; Say Error 7 7 (bs "no")])) =
  (mkDisk Actual
     (Some (bs "01-02 03:04:05.000     7 12345 I : hi01-02 03:04:05.002     7     7 E : no")) (Some (bs "old")), Err tt).
Proof.
  etransitivity; [apply (log_delivered clock_sample _ (Some (bs "old")) None)|vm_compute; reflexivity].
  - intros n. split; [reflexivity|]. split; [apply Z.mod_pos_bound; lia|].
    exists (bs "01-02 03:04:05"). split; [reflexivity|]. split; [by_compute|]. split; [reflexivity|cbn; lia].
  - repeat constructor; lia.
Defined.

(** ** Shutting down *)

(** After a write that failed nothing is sent any more. *)
Lemma logd_shut ok record s : logd_fd s = false → with_logd_fd ok record s = s.
Proof. unfold with_logd_fd. by intros ->. Qed.

(** The descriptors that are open: those opened and not closed. *)
Fixpoint open_fds (l : list FdOp) (acc : list Z) : list Z :=
  match l with
  | [] => acc
  | OpenFd fd :: l => open_fds l (acc ++ [fd])
  | CloseFd fd :: l => open_fds l (List.filter (λ x, negb (x =? fd)) acc)
  | _ :: l => open_fds l acc
  end.

(** The descriptor in use is the only one open; without one, none is. *)
Definition one_fd (s : ZState) : Prop :=
  open_fds (ops s) [] = if zygisk_fd s <? 0 then [] else [zygisk_fd s].

Lemma open_fds_app l k acc : open_fds (l ++ k) acc = open_fds k (open_fds l acc).
Proof. revert acc. induction l as [|[] l IH]; intros acc; cbn; auto. Qed.

Lemma close_one_fd s : one_fd s → one_fd (zygisk_close_logd s).
Proof.
  unfold one_fd, zygisk_close_logd, zswap. cbn [ops zygisk_fd]. intros Hs. rewrite open_fds_app, Hs.
  cbn. destruct (zygisk_fd s <? 0); [done|]. cbn. by rewrite Z.eqb_refl.
Qed.

(** Logging in zygote never leaves more than one descriptor open, whatever fails: the pipe
    is closed when a write fails, and opened again by the next message. *)
Lemma zygisk_one_fd opened masked written s :
  one_fd s → match opened with Some fd => 0 ≤ fd | None => True end →
  one_fd (zygisk_log_to_pipe opened masked written s).
Proof.
  intros Hs Ho. unfold zygisk_log_to_pipe, zygisk_get_logd.
  assert (∀ s, one_fd s → one_fd (let s := zop (WriteFd (zygisk_fd s)) (zop BlockPipe s) in
      let s := if masked then zop RestoreMask (zop ConsumePipe s) else s in
      if written then s else zygisk_close_logd s)) as Hw.
  { clear. intros s Hs. cbv zeta.
    assert (one_fd (if masked then zop RestoreMask (zop ConsumePipe (zop (WriteFd (zygisk_fd s)) (zop BlockPipe s)))
                    else zop (WriteFd (zygisk_fd s)) (zop BlockPipe s))) as Hm.
    { unfold one_fd in *. destruct masked; cbn [ops zygisk_fd zop]; by rewrite !open_fds_app, Hs. }
    destruct written; [done|by apply close_one_fd]. }
  destruct (zygisk_fd s <? 0) eqn:E; [|rewrite E; by apply Hw].
  destruct opened as [fd|]; [|by cbn].
  assert ((fd <? 0) = false) as -> by lia.
  apply (Hw (zswap fd (zop (OpenFd fd) (zlog zygisk_logging (zlog android_logging s))))).
  unfold one_fd in *. cbn [ops zygisk_fd zop zswap zlog]. rewrite !open_fds_app, Hs, E. cbn.
  assert ((fd <? 0) = false) as -> by lia. by assert ((fd =? zygisk_fd s) = false) as -> by lia.
Qed.

(** ** Levels *)

(** Switching a level on, as the name says, sets the flag that silences it. *)
Lemma enabled_level_is_silent level l : log_with_writer (set_log_level_state level true l) level = (None, false).
Proof.
  unfold log_with_writer, set_log_level_state, flag_contains, flag_set. cbn [flags].
  assert (Z.land (Z.lor (flags l) (as_disable_flag level)) (as_disable_flag level) = as_disable_flag level) as ->.
  { apply Z.bits_inj'. intros n _. rewrite Z.land_spec, Z.lor_spec. by destruct (Z.testbit (flags l) n), (Z.testbit _ n). }
  by rewrite Z.eqb_refl.
Qed.

(** ** Any stream *)

Lemma read_pod_cases n s :
  read_pod n s = Err tt ∨ ∃ v s', read_pod n s = Ok (v, s') ∧ (length s = n + length s')%nat.
Proof.
  unfold read_pod, read_exact. destruct (Nat.leb_spec n (length s)); [right|by left].
  exists (le_val (take n s)), (drop n s). split; [done|]. rewrite length_drop. lia.
Qed.

Lemma decode_meta_cases s :
  decode (A:=LogMeta) s = Err tt ∨ ∃ m s', decode (A:=LogMeta) s = Ok (m, s') ∧ (length s = 16 + length s')%nat.
Proof.
  cbn [decode meta_codec i32_codec].
  destruct (read_pod_cases 4 s) as [->|(v & s1 & -> & H1)]; [by left|]. cbn [mbind res_bind].
  destruct (read_pod_cases 4 s1) as [->|(v2 & s2 & -> & H2)]; [by left|]. cbn [mbind res_bind].
  destruct (read_pod_cases 4 s2) as [->|(v3 & s3 & -> & H3)]; [by left|]. cbn [mbind res_bind].
  destruct (read_pod_cases 4 s3) as [->|(v4 & s4 & -> & H4)]; [by left|]. cbn [mbind res_bind].
  right. do 2 eexists. split; [done|]. lia.
Qed.

Lemma handle_record_cases t d s :
  (handle_record t d s).2 = Err tt ∨ ∃ s', (handle_record t d s).2 = Ok s' ∧ (length s' < length s)%nat.
Proof.
  unfold handle_record. destruct (decode_meta_cases s) as [->|(m & s1 & -> & H1)]; [by left|].
  destruct (prio m <? 0).
  { unfold open_log. destruct (logfile d); [destruct (disk_ok t)|]; cbn; eauto with lia. }
  destruct (_ || _); [cbn; eauto with lia|].
  unfold read_exact. destruct (_ <=? _)%nat; [|by left].
  assert (∀ n, length (drop n s1) < length s)%nat as Hd by (intros n; rewrite length_drop; lia).
  destruct (prio_letter (prio m)), (stamp t); cbn; eauto.
  destruct (log_prefix _ _ _); cbn; eauto. unfold append_log.
  destruct (logfile d); [|destruct (disk_ok t)]; cbn; eauto.
Qed.

(** Whatever bytes come through the pipe, the loop ends with them: no record panics, and
    the fuel is enough. *)
Lemma write_loop_ends clock log bak s : (logfile_write_loop clock log bak s).2 = Err tt.
Proof.
  unfold logfile_write_loop. generalize (mkDisk (Buffer []) log bak) as d, 0%nat as n, (S (length s)) as fuel,
    (Nat.lt_succ_diag_r (length s)). intros d n fuel. revert d n s.
  induction fuel as [|fuel IH]; intros d n s Hf; [lia|]. cbn [record_loop].
  destruct (handle_record (clock n) d s) as [d' r] eqn:E.
  destruct (handle_record_cases (clock n) d s) as [Hr|(s' & Hr & Hl)]; rewrite E in Hr; cbn in Hr; subst r; [done|].
  apply IH. lia.
Qed.
