(* ===== verification/Result.v ===== *)
(** Result: errors that are logged where they are consumed, [native/src/base/result.rs].

    A computation has the messages it logged beside its outcome.  An error that can be
    displayed is logged when it turns into a [LoggedError]; that one says nothing any more.
    [caller] is the location a debug build puts in front. *)

From S2P Require Import Prelude Text Logging.

(** The messages: a level and the line. *)
Definition Msgs : Type := list (LogLevel * bytes).
Definition Logged (A : Type) : Type := Msgs * LoggedResult A.

(** What a closure writes to a formatter, and whether it got to its end. *)
Definition Fmt : Type := bytes * bool.

Class Display (E : Type) := display : E → bytes.

(** ** Failed system calls *)

Record OsError := mkOs { errno : Z; name : bytes; arg1 : option bytes; arg2 : option bytes }.

Definition set_args (a b : option bytes) (e : OsError) : OsError := mkOs (errno e) (name e) a b.

Section Result.
(** The text of an error number, and the one a failed call leaves. *)
Context (strerror : Z → bytes).

#[local] Instance os_display : Display OsError := λ e,
  if bool_decide (name e = []) then strerror (errno e)
  else
    match arg1 e, arg2 e with
    | Some a, Some b => name e ++ bs " '" ++ a ++ bs "' '" ++ b ++ bs "': " ++ strerror (errno e)
    | Some a, None => name e ++ bs " '" ++ a ++ bs "': " ++ strerror (errno e)
    | None, _ => name e ++ bs ": " ++ strerror (errno e)
    end.

(** [check_err] of an integer and of a pointer, where null is 0. *)
Definition check_err (last v : Z) : res Z Z := if v <? 0 then Err last else Ok v.
Definition check_ptr (last p : Z) : res Z Z := if p =? 0 then Err last else Ok p.

Definition map_error {E F A} (f : E → F) (r : res E A) : res F A :=
  match r with Ok a => Ok a | Err e => Err (f e) | Panic => Panic | NoFuel => NoFuel end.

Definition into_os_result {A} (nm : bytes) (a b : option bytes) (r : res Z A) : res OsError A :=
  map_error (λ e, mkOs e nm a b) r.
Definition check_os_err {A} (nm : bytes) (a b : option bytes) (r : res Z A) : res OsError unit :=
  _ ← into_os_result nm a b r; Ok tt.

(** ** Logging *)

Context (caller : option (bytes * Z)).

Definition location : bytes :=
  match caller with
  | Some (file, line) => bs "[" ++ file ++ bs ":" ++ fmt_dec line ++ bs "] "
  | None => []
  end.

(** What is written before a closure that failed is logged all the same. *)
Definition then_fmt (s : bytes) (f : Fmt) (rest : bytes) : bytes := s ++ f.1 ++ (if f.2 then rest else []).

Section Error.
Context {E A : Type} `{!Display E}.

Definition do_log (level : LogLevel) (e : E) : Msgs := [(level, location ++ display e ++ [LF])].
Definition do_log_msg (level : LogLevel) (f : Fmt) (e : E) : Msgs :=
  [(level, then_fmt location f (bs ": " ++ display e ++ [LF]))].

Definition consume (msgs : E → Msgs) (r : res E A) : Logged A :=
  match r with
  | Ok a => ([], Ok a)
  | Err e => (msgs e, Err tt)
  | Panic => ([], Panic)
  | NoFuel => ([], NoFuel)
  end.

(** [log], [log_with_msg], [log_ok] and the conversion [?] makes. *)
Definition log (r : res E A) : Logged A := consume (do_log Error) r.
Definition log_with_msg (f : Fmt) (r : res E A) : Logged A := consume (do_log_msg Error f) r.
Definition log_ok (r : res E A) : Msgs := (log r).1.
Definition question (r : res E A) : Logged A := log r.
Definition silent (r : res E A) : Logged A := consume (λ _, []) r.
End Error.

(** [do_log_msg] without an error, [log_err!], and options. *)
Definition plain_msg (level : LogLevel) (f : Fmt) : Msgs := [(level, then_fmt location f [LF])].
Definition log_err {A} (text : option bytes) : Logged A :=
  (match text with Some t => [(Error, t ++ [LF])] | None => [] end, Err tt).
Definition ok_or_log {A} (o : option A) : Logged A := ([], of_option tt o).
Definition ok_or_log_msg {A} (f : Fmt) (o : option A) : Logged A :=
  match o with Some a => ([], Ok a) | None => (plain_msg Error f, Err tt) end.

(** On results whose error was logged before. *)
Definition relog {A} (x : Logged A) : Logged A := x.
Definition relog_ok {A} (x : Logged A) : Msgs := x.1.
Definition relog_with_msg {A} (f : Fmt) (x : Logged A) : Logged A :=
  match x.2 with Err e => (x.1 ++ plain_msg Error f, x.2) | _ => x end.

#[local] Instance logged_ret : MRet Logged := λ A a, ([], Ok a).
#[local] Instance logged_bind : MBind Logged := λ A B f m,
  match m with
  | (l, Ok a) => (l ++ (f a).1, (f a).2)
  | (l, Err e) => (l, Err e)
  | (l, Panic) => (l, Panic)
  | (l, NoFuel) => (l, NoFuel)
  end.

(** ** An error is logged once *)

(** A function body: system calls strung together by [?], and calls of such functions. *)
Inductive Body : Type :=
  | Done (v : Z)
  | Sys (nm : bytes) (a b : option bytes) (last v : Z) (k : Body)
  | Need (o : option Z) (f : Fmt) (k : Body)
  | Call (callee : Body) (k : Body)
  | Try (callee : Body) (k : Body).

(** [Call] passes the callee's error on by [?], [Try] drops it by [log_ok]. *)
Fixpoint run (b : Body) : Logged Z :=
  match b with
  | Done v => mret v
  | Sys nm a c last v k => _ ← question (into_os_result nm a c (check_err last v)); run k
  | Need o f k => _ ← ok_or_log_msg f o; run k
  | Call callee k => _ ← relog (run callee); run k
  | Try callee k => let l := relog_ok (run callee) in (l ++ (run k).1, (run k).2)
  end.

(** The failures on the way: those dropped, and the one that ends the body. *)
Fixpoint failures (b : Body) : nat * bool :=
  match b with
  | Done _ => (0%nat, false)
  | Sys _ _ _ _ v k => if v <? 0 then (1%nat, true) else failures k
  | Need o _ k => match o with None => (1%nat, true) | Some _ => failures k end
  | Call callee k =>
      let '(n, failed) := failures callee in
      if failed then (n, true) else let '(m, failed) := failures k in ((n + m)%nat, failed)
  | Try callee k =>
      let '(n, _) := failures callee in let '(m, failed) := failures k in ((n + m)%nat, failed)
  end.

(** However functions are nested, each failure is logged exactly once, where it first
    becomes a [LoggedError]: passing it on by [?] adds nothing and dropping it loses nothing;
    the body fails exactly if the last of them was not dropped. *)
Theorem failures_logged_once b :
  length (run b).1 = (failures b).1 ∧ Forall (λ m, m.1 = Error) (run b).1 ∧
  is_ok (run b).2 = negb (failures b).2 ∧ (run b).2 ≠ Panic ∧ (run b).2 ≠ NoFuel.
Proof.
  induction b as [v|nm a c last v k IH|o f k IH|callee IHc k IHk|callee IHc k IHk]; cbn [run failures].
  - by repeat split.
  - unfold check_err. destruct (v <? 0); cbn; [by repeat constructor|exact IH].
  - destruct o; cbn; [exact IH|by repeat constructor].
  - unfold relog. unfold mbind, logged_bind.
    destruct (run callee) as [l [x|[]| |]], (failures callee) as [n []]; cbn in IHc;
      destruct IHc as (Hl & Hf & Hk & Hp & Hn); try done.
    destruct (failures k) as [n' f']. cbn in *. destruct IHk as (Hl' & Hf' & Hk' & Hp' & Hn').
    rewrite length_app. repeat split; try done; [lia|]. by apply Forall_app.
  - unfold relog_ok. destruct (failures callee) as [n fc], (failures k) as [m fk]. cbn in *.
    destruct IHc as (Hl & Hf & _), IHk as (Hl' & Hf' & Hk' & Hp' & Hn').
    rewrite length_app. repeat split; try done; [lia|]. by apply Forall_app.
Qed.
End Result.

(** A message about a call names its arguments. *)
Example os_error_text :
  log (Display0 := os_display (λ _, bs "No such file")) None (check_os_err (A := Z) (bs "open") (Some (bs "/x")) None (Err 2)) =
  ([(Error, bs "open '/x': No such file" ++ [LF])], Err tt).
Proof. vm_compute. reflexivity. Qed.
