(* ===== verification/Zygisk.v ===== *)
(** Zygisk: the daemon side of zygisk, [native/src/core/zygisk/daemon.rs], with the
    root checks of [native/src/core/su/db.rs].

    System properties are an interface ([Props], with its laws [PropsOk]);
    [resetprop_props] is [native/src/core/resetprop/] behind it.  The denylist
    lookups are parameters. *)

From S2P Require Import Prelude Cstr Io Sys.
From S2P Require Import ResetProp ModuleTree ModuleStore.

(** ** Properties, as this component uses them *)

Class Props (P : Type) := {
  prop_get : P → bytes → bytes;
  prop_set : P → bytes → bytes → P
}.

(** Read-only properties can be set and read back. *)
Class PropsOk (P : Type) `{Props P} : Prop := {
  prop_get_set (p : P) k v : read_only k = true → prop_get (prop_set p k v) k = v;
  prop_get_set_ne (p : P) k j v : read_only k = true → read_only j = true → j ≠ k →
    prop_get (prop_set p k v) j = prop_get p j
}.

Section Resetprop.
Context {S : Type} `{PropLaws S}.
Context (from_reader : bytes → option (list PRecord)) (write_message : list PRecord → bytes).
Context (env : Env PersistOp).

(** [resetprop::get_prop] and [resetprop::set_prop]. *)
Definition resetprop_props : Props (World S) := {|
  prop_get w k := match get_prop from_reader env k w [] with (_, _, Ok v) => v | _ => [] end;
  prop_set w k v := state (set_prop from_reader write_message env k v w [])
|}.

Lemma read_only_not_persist k : read_only k = true → is_persist k = false.
Proof.
  unfold read_only, is_persist. intros (r & ->)%starts_with_spec. reflexivity.
Qed.

Lemma resetprop_get w k : read_only k = true →
  prop_get (Props := resetprop_props) w k = default [] (pa_find (area w) k).
Proof.
  intros Hk. cbn [prop_get resetprop_props]. unfold get_prop, rp_get. cbn [context persist_only persist orb].
  rewrite (read_only_not_persist k Hk). unfold mbind, sys_bind, read. by destruct (pa_find (area w) k).
Qed.

Lemma resetprop_props_ok : PropsOk (World S) (H := resetprop_props).
Proof.
  split; intros w k; intros.
  - rewrite resetprop_get by done. cbn [prop_set resetprop_props].
    destruct (set_then_get_area from_reader write_message env
      (mkResetProp false false false false false true None None []) k v w [] (orb_true_r _) (or_introl H1)) as [E _].
    unfold set_prop. by rewrite E.
  - rewrite !resetprop_get by done. cbn [prop_set resetprop_props].
    destruct (set_then_get_area from_reader write_message env
      (mkResetProp false false false false false true None None []) k v w [] (orb_true_r _) (or_introl H1)) as [_ E].
    unfold set_prop. by rewrite E.
Qed.
End Resetprop.

(** ** The state of zygisk *)

Definition NBPROP : bytes := bs "ro.dalvik.vm.native.bridge".
Definition MAPLE : bytes := bs "ro.maple.enable".
Definition ZYGISKLDR : bytes := bs "libzygisk.so".

Record ZygiskState := mkZygisk {
  lib_name : bytes;
  sockets : bool * bool;
  start_count : Z
}.

(** [ZygiskState::default]: no companion is connected. *)
Definition default_zygisk : ZygiskState := mkZygisk [] (false, false) 1.

Section State.
Context {P : Type} `{Props P}.

Definition z_set_prop (zp : ZygiskState * P) : ZygiskState * P :=
  let '(z, p) := zp in
  if nonempty (lib_name z) then (z, p)
  else
    let orig := prop_get p NBPROP in
    let lib := if bool_decide (orig = []) || bool_decide (orig = bs "0") then ZYGISKLDR else ZYGISKLDR ++ orig in
    let p := prop_set p NBPROP lib in
    let p := if bool_decide (prop_get p MAPLE = bs "1") then prop_set p MAPLE (bs "0") else p in
    (mkZygisk lib (sockets z) (start_count z), p).

Definition z_restore_prop (zp : ZygiskState * P) : ZygiskState * P :=
  let '(z, p) := zp in
  let orig := if len ZYGISKLDR <? len (lib_name z) then drop (length ZYGISKLDR) (lib_name z) else bs "0" in
  (mkZygisk [] (sockets z) (start_count z), prop_set p NBPROP orig).

Definition z_reset (restore : bool) (zp : ZygiskState * P) : ZygiskState * P :=
  let '(z, p) := zp in
  if restore then z_restore_prop (mkZygisk (lib_name z) (sockets z) 1, p)
  else
    let z := mkZygisk (lib_name z) (false, false) (as_u32 (start_count z + 1)) in
    if 3 <? start_count z then z_restore_prop (z, p) else z_set_prop (z, p).
End State.

(** ** Connecting to the companion *)

Inductive CompanionOp :=
  | ReadIs64 | Poll | SendClient | SocketPair | Fork | SendModules (fds : list Z) | ReadAck (is_64_bit : bool).

Section Companion.
Context (env : Env CompanionOp).

Definition socket_of (is_64_bit : bool) (z : ZygiskState) : bool :=
  if is_64_bit then (sockets z).2 else (sockets z).1.
Definition set_socket (is_64_bit b : bool) (z : ZygiskState) : ZygiskState :=
  mkZygisk (lib_name z) (if is_64_bit then ((sockets z).1, b) else (b, (sockets z).2)) (start_count z).

(** [is_64_bit] is what the client sends; [Poll] succeeds when the socket has no
    event; [module_fds] is [get_module_fds]. *)
Definition connect_zygiskd (is_64_bit : bool) (module_fds : bool → option (list Z)) :
    Sys ZygiskState CompanionOp unit :=
  _ ← ask env ReadIs64;
  have ← read (socket_of is_64_bit);
  alive ← (if have : bool then test env Poll else mret true);
  _ ← (if alive : bool then mret tt else modify (set_socket is_64_bit false));
  have ← read (socket_of is_64_bit);
  if have : bool then ask env SendClient
  else
    _ ← ask env SocketPair;
    _ ← test env Fork;
    _ ← match module_fds is_64_bit with
        | Some fds => ask env (SendModules fds)
        | None => mret tt
        end;
    _ ← ask env (ReadAck is_64_bit);
    _ ← ask env SendClient;
    modify (set_socket is_64_bit true).
End Companion.

(** ** Processes *)

Definition ProcessGrantedRoot : Z := 0x00000001.
Definition ProcessOnDenyList : Z := 0x00000002.
Definition RootHiderEnabled : Z := 0x00000004.
Definition DenyListEnforced : Z := 0x40000000.
Definition ProcessIsMagiskApp : Z := 0x80000000.
Definition UNMOUNT_MASK : Z := Z.lor ProcessOnDenyList DenyListEnforced.

Definition zygisk_should_load_module (flags : Z) : bool :=
  negb (Z.land flags UNMOUNT_MASK =? UNMOUNT_MASK) && (Z.land flags ProcessIsMagiskApp =? 0).

Definition AID_ROOT : Z := 0.
Definition AID_USER_OFFSET : Z := 100000.
Definition to_user_id (uid : Z) : Z := Z.quot uid AID_USER_OFFSET.

Section Process.
(** From the denylist: whether an app of the uid is on it, and the flags of a process. *)
Context (is_deny_target_uid : Z → bool) (update_deny_flags : Z → bytes → Z).
(** The owner of the manager's data directory for a user, or -1. *)
Context (get_manager_uid : Z → Z).
Context (module_list : option (list ModuleInfo)).

Definition uid_granted_root (uid : Z) : bool := bool_decide (uid = AID_ROOT) || negb (is_deny_target_uid uid).

(** [su::daemon::root_allowed]. *)
Definition root_allowed (uid : Z) : bool :=
  if bool_decide (uid = AID_ROOT) then true else if is_deny_target_uid uid then false else true.

Definition STDOUT_FILENO : Z := 1.

Definition get_module_fds (is_64_bit : bool) : option (list Z) :=
  (λ ms, map (λ fd, if fd <? 0 then STDOUT_FILENO else fd)
           (map (λ m, if is_64_bit then z64 m else z32 m) ms)) <$> module_list.

(** The flags and the descriptors sent for a process. *)
Definition process_flags (uid : Z) (process : bytes) : Z :=
  let flags := update_deny_flags uid process in
  let flags := if get_manager_uid (to_user_id uid) =? uid then Z.lor flags ProcessIsMagiskApp else flags in
  let flags := if uid_granted_root uid then Z.lor flags ProcessGrantedRoot else flags in
  if negb (Z.land flags DenyListEnforced =? 0) then Z.lor flags RootHiderEnabled else flags.

Definition process_fds (uid : Z) (process : bytes) (is_64_bit : bool) : option (list Z) :=
  if zygisk_should_load_module (process_flags uid process) then get_module_fds is_64_bit else None.

(** The modules [system_server] reports as failed, by name. *)
Definition failed_modules (failed_ids : list Z) : list bytes :=
  match module_list with
  | Some ms => omap (λ id, if id <? 0 then None else name <$> ms !! Z.to_nat id) failed_ids
  | None => []
  end.

(** What is sent or created for a process, when the client does not hang up;
    [failed_ids] is what [system_server] sends back. *)
Inductive Sent := SFlags (flags : Z) | SFds (fds : list Z) | SUnloaded (path : bytes).

Definition get_process_info (uid : Z) (process : bytes) (is_64_bit : bool) (failed_ids : list Z) : list Sent :=
  SFlags (process_flags uid process) ::
  match process_fds uid process is_64_bit with Some fds => [SFds fds] | None => [] end ++
  if bool_decide (uid = 1000) && bool_decide (process = bs "system_server")
  then map (λ n, SUnloaded (append_path (append_path (append_path (bs "/data/adb/modules") n) (bs "zygisk"))
                              (bs "unloaded"))) (failed_modules failed_ids)
  else [].

Definition get_mod_dir (id : Z) : option bytes :=
  if id <? 0 then None
  else ms ← module_list; m ← ms !! Z.to_nat id; Some (append_path (bs "/data/adb/modules") (name m)).
End Process.

(** ** The native bridge property *)

(** What the property is restored to. *)
Definition restored (orig : bytes) : bytes := if bool_decide (orig = []) then bs "0" else orig.

Section Bridge.
Context {P : Type} `{PropsOk P}.

Definition hidden (orig : bytes) : bytes :=
  if bool_decide (orig = []) || bool_decide (orig = bs "0") then ZYGISKLDR else ZYGISKLDR ++ orig.

(** Zygisk has taken the property over. *)
Definition hooked (orig : bytes) (zp : ZygiskState * P) : Prop :=
  lib_name zp.1 = hidden orig ∧ prop_get zp.2 NBPROP = hidden orig.

Lemma hidden_nonempty orig : nonempty (hidden orig) = true.
Proof. unfold hidden. by destruct (_ || _). Qed.

Lemma set_prop_hooks zp : lib_name zp.1 = [] → hooked (prop_get zp.2 NBPROP) (z_set_prop zp).
Proof.
  destruct zp as [z p]. cbn [fst snd]. intros El. unfold z_set_prop. rewrite El.
  change (nonempty []) with false. cbv iota zeta. unfold hooked. cbn [fst snd lib_name]. split; [done|].
  destruct (bool_decide (prop_get _ MAPLE = _)); rewrite ?prop_get_set_ne, prop_get_set by (done || by_compute); done.
Qed.

Lemma hooked_set orig zp : hooked orig zp → z_set_prop zp = zp.
Proof. destruct zp as [z p]. intros [El _]. cbn in El. unfold z_set_prop. by rewrite El, hidden_nonempty. Qed.

Lemma hooked_restore orig zp : hooked orig zp →
  lib_name (z_restore_prop zp).1 = [] ∧ prop_get (z_restore_prop zp).2 NBPROP = restored orig.
Proof.
  destruct zp as [z p]. intros [El _]. cbn [fst] in El. unfold z_restore_prop. rewrite El. cbn [fst snd lib_name].
  split; [done|]. rewrite prop_get_set by by_compute. unfold hidden, restored.
  destruct (decide (orig = [])) as [->|Ho]; [done|]. rewrite (bool_decide_false (orig = [])) by done. cbn [orb].
  case_bool_decide; [by subst|]. rewrite len_app, drop_app_length.
  rewrite (proj2 (Z.ltb_lt _ _)); [done|]. destruct orig; [done|]. rewrite len_cons. pose proof (len_nonneg orig). lia.
Qed.

Lemma empty_restore zp : lib_name zp.1 = [] →
  lib_name (z_restore_prop zp).1 = [] ∧ prop_get (z_restore_prop zp).2 NBPROP = bs "0".
Proof.
  destruct zp as [z p]. cbn [fst]. intros El. unfold z_restore_prop. rewrite El. cbn [fst snd lib_name].
  split; [done|]. by rewrite prop_get_set by by_compute.
Qed.

(** A zygote restart. *)
Abbreviation restart := (z_reset false).

Lemma start_count_set zp : start_count (z_set_prop zp).1 = start_count zp.1.
Proof. destruct zp as [z p]. unfold z_set_prop. by destruct (nonempty (lib_name z)). Qed.

Lemma start_count_restore zp : start_count (z_restore_prop zp).1 = start_count zp.1.
Proof. by destruct zp as [z p]. Qed.

Lemma restart_count zp : 0 ≤ start_count zp.1 < 10 → start_count (restart zp).1 = start_count zp.1 + 1.
Proof.
  destruct zp as [z p]. cbn [fst]. intros Hc. unfold z_reset. cbn [start_count].
  destruct (3 <? _); rewrite ?start_count_restore, ?start_count_set; cbn [fst start_count];
    unfold as_u32; rewrite Z.mod_small; lia.
Qed.

Lemma restart_hooked orig zp : 0 ≤ start_count zp.1 < 3 → hooked orig zp → hooked orig (restart zp).
Proof.
  destruct zp as [z p]. cbn [fst]. intros Hc Hh. unfold z_reset. cbn [start_count].
  assert (as_u32 (start_count z + 1) = start_count z + 1) as -> by (unfold as_u32; rewrite Z.mod_small; lia).
  rewrite (proj2 (Z.ltb_ge _ _)) by lia. by rewrite (hooked_set orig).
Qed.

Lemma restart_rolls_back zp : 3 ≤ start_count zp.1 < 10 →
  ∃ z, lib_name z = lib_name zp.1 ∧ restart zp = z_restore_prop (z, zp.2).
Proof.
  destruct zp as [z p]. cbn [fst snd]. intros Hc. unfold z_reset. cbn [start_count].
  assert (as_u32 (start_count z + 1) = start_count z + 1) as -> by (unfold as_u32; rewrite Z.mod_small; lia).
  rewrite (proj2 (Z.ltb_lt _ _)) by lia. eexists. by split; [|done].
Qed.
End Bridge.

Definition restarts {P} `{Props P} (n : nat) (zp : ZygiskState * P) : ZygiskState * P :=
  Nat.iter n (z_reset false) zp.

Lemma restarts_hooked {P} `{PropsOk P} n (p : P) : (n ≤ 2)%nat →
  hooked (prop_get p NBPROP) (restarts n (z_set_prop (default_zygisk, p))) ∧
  start_count (restarts n (z_set_prop (default_zygisk, p))).1 = 1 + Z.of_nat n.
Proof.
  induction n as [|n IH]; intros Hn.
  - change (restarts 0 ?x) with x. split; [by apply (set_prop_hooks (default_zygisk, p))|]. by rewrite start_count_set.
  - destruct IH as [Hh Hc]; [lia|]. change (restarts (S n) ?x) with (z_reset false (restarts n x)).
    split; [apply restart_hooked; [lia|done]|]. rewrite restart_count; lia.
Qed.

(** Zygisk takes the native bridge property over and gives it back: after up to
    two zygote restarts, completing the boot restores the original value, and so does
    the third restart by itself; an empty value becomes 0. *)
Theorem native_bridge_restored {P} `{PropsOk P} (p : P) n :
  (n ≤ 2)%nat →
  prop_get (z_reset true (restarts n (z_set_prop (default_zygisk, p)))).2 NBPROP = restored (prop_get p NBPROP) ∧
  prop_get (restarts 3 (z_set_prop (default_zygisk, p))).2 NBPROP = restored (prop_get p NBPROP).
Proof.
  intros Hn. split.
  - destruct (restarts_hooked n p Hn) as [[Hl Hp] _]. destruct (restarts n _) as [z q]. cbn [fst snd] in *.
    by apply (hooked_restore (prop_get p NBPROP) (mkZygisk (lib_name z) (sockets z) 1, q)).
  - destruct (restarts_hooked 2 p) as [[Hl Hp] Hc]; [lia|].
    change (restarts 3 ?x) with (z_reset false (restarts 2 x)).
    destruct (restart_rolls_back (restarts 2 (z_set_prop (default_zygisk, p)))) as (z & Ez & ->); [lia|].
    apply hooked_restore. by split; cbn [fst snd]; [rewrite Ez|].
Qed.

(** The value is lost when it is restored once more: by a fourth zygote restart, by
    completing the boot after the third, or by stopping the daemon after the boot
    completed, the property ends up as 0 whatever it was. *)
Theorem native_bridge_lost {P} `{PropsOk P} (p : P) :
  prop_get (restarts 4 (z_set_prop (default_zygisk, p))).2 NBPROP = bs "0" ∧
  prop_get (z_reset true (restarts 3 (z_set_prop (default_zygisk, p)))).2 NBPROP = bs "0" ∧
  prop_get (z_restore_prop (z_reset true (z_set_prop (default_zygisk, p)))).2 NBPROP = bs "0".
Proof.
  destruct (restarts_hooked 2 p) as [[Hl Hp] Hc]; [lia|].
  destruct (restart_rolls_back (restarts 2 (z_set_prop (default_zygisk, p)))) as (z & Ez & E3); [lia|].
  assert (lib_name (restarts 3 (z_set_prop (default_zygisk, p))).1 = []) as Hl3.
  { change (restarts 3 ?x) with (z_reset false (restarts 2 x)). by rewrite E3. }
  assert (start_count (restarts 3 (z_set_prop (default_zygisk, p))).1 = 4) as Hc3.
  { change (restarts 3 ?x) with (z_reset false (restarts 2 x)). rewrite restart_count; lia. }
  split_and!.
  - change (restarts 4 ?x) with (z_reset false (restarts 3 x)).
    destruct (restart_rolls_back (restarts 3 (z_set_prop (default_zygisk, p)))) as (z' & Ez' & ->); [lia|].
    apply empty_restore. cbn [fst]. by rewrite Ez', Hl3.
  - destruct (restarts 3 _) as [z3 p3]. cbn [fst] in *. by apply empty_restore.
  - by apply empty_restore; destruct (z_set_prop (default_zygisk, p)).
Qed.

#[global] Instance sample_props : Props (World GArea) :=
  resetprop_props (λ _, None) (λ _, []) (λ _ _, true).
#[global] Instance sample_props_ok : PropsOk (World GArea) := resetprop_props_ok (λ _, None) (λ _, []) (λ _ _, true).

Definition houdini : World GArea :=
  mkWorld {[ NBPROP := (bs "libhoudini.so", false) ]} (Files ∅).

Lemma native_bridge_restored_witness :
  prop_get (z_reset true (restarts 2 (z_set_prop (default_zygisk, houdini)))).2 NBPROP = bs "libhoudini.so".
Proof. exact (proj1 (native_bridge_restored houdini 2 ltac:(lia))). Defined.

Lemma native_bridge_lost_witness :
  prop_get (restarts 4 (z_set_prop (default_zygisk, houdini))).2 NBPROP = bs "0".
Proof. exact (proj1 (native_bridge_lost houdini)). Defined.

(** ** Flags *)

Lemma land_bit z n : 0 ≤ n → (Z.land z (2 ^ n) =? 0) = negb (Z.testbit z n).
Proof.
  intros Hn. destruct (Z.testbit z n) eqn:E; cbn [negb].
  - apply Z.eqb_neq. intros H0. assert (Z.testbit (Z.land z (2 ^ n)) n = true) as Ht; [|by rewrite H0, Z.bits_0 in Ht].
    by rewrite Z.land_spec, E, Z.pow2_bits_true.
  - apply Z.eqb_eq. apply Z.bits_inj'. intros m Hm. rewrite Z.land_spec, Z.bits_0.
    destruct (Z.eq_dec m n) as [->|Hmn]; [by rewrite E|]. by rewrite Z.pow2_bits_false, andb_false_r by done.
Qed.

Lemma unmount_bits z :
  (Z.land z UNMOUNT_MASK =? UNMOUNT_MASK) = Z.testbit z 1 && Z.testbit z 30.
Proof.
  change UNMOUNT_MASK with (Z.lor (2 ^ 1) (2 ^ 30)). rewrite Z.land_lor_distr_r.
  assert (∀ n, 0 ≤ n → Z.land z (2 ^ n) = if Z.testbit z n then 2 ^ n else 0) as Hb.
  { intros n Hn. apply Z.bits_inj'. intros m Hm. rewrite Z.land_spec.
    destruct (Z.eq_dec m n) as [->|Hmn].
    - rewrite Z.pow2_bits_true, andb_true_r by done. destruct (Z.testbit z n); [by rewrite Z.pow2_bits_true|by rewrite Z.bits_0].
    - rewrite Z.pow2_bits_false, andb_false_r by done. destruct (Z.testbit z n); [by rewrite Z.pow2_bits_false|by rewrite Z.bits_0]. }
  rewrite !Hb by lia. by destruct (Z.testbit z 1), (Z.testbit z 30).
Qed.

(** What a process is told agrees with the other gates of the daemon: it is marked
    as granted root exactly when [su] would let its uid in (or the denylist marked
    it), the root hider goes with an enforced denylist, and it gets the modules unless
    it is the Magisk app or on an enforced denylist. *)
Theorem process_info_consistent deny_uid deny_flags manager ms uid process is_64_bit :
  let flags := process_flags deny_uid deny_flags manager uid process in
  Z.testbit flags 0 = Z.testbit (deny_flags uid process) 0 || root_allowed deny_uid uid ∧
  Z.testbit flags 2 = Z.testbit (deny_flags uid process) 2 || Z.testbit flags 30 ∧
  process_fds deny_uid deny_flags manager ms uid process is_64_bit =
    (if Z.testbit flags 31 || (Z.testbit flags 1 && Z.testbit flags 30) then None else get_module_fds ms is_64_bit).
Proof.
  intros flags. split_and!.
  - unfold flags, process_flags, uid_granted_root, root_allowed.
    destruct (_ =? uid), (bool_decide (uid = AID_ROOT)), (deny_uid uid); cbn [orb negb];
      destruct (negb (Z.land _ _ =? 0)); rewrite ?Z.lor_spec; cbn [Z.testbit ProcessIsMagiskApp ProcessGrantedRoot RootHiderEnabled];
      rewrite ?orb_false_r, ?orb_true_r; done.
  - unfold flags, process_flags. set (f := if uid_granted_root deny_uid uid then _ else _).
    assert (Z.testbit f 2 = Z.testbit (deny_flags uid process) 2) as Hf.
    { unfold f. destruct (uid_granted_root _ _), (_ =? uid); rewrite ?Z.lor_spec; cbn; by rewrite ?orb_false_r. }
    change DenyListEnforced with (2 ^ 30). rewrite land_bit by lia. rewrite negb_involutive.
    destruct (Z.testbit f 30) eqn:E; rewrite ?Z.lor_spec, ?Hf, ?E; cbn [Z.testbit RootHiderEnabled]; by rewrite ?orb_true_r, ?orb_false_r.
  - unfold process_fds, zygisk_should_load_module. fold flags. rewrite unmount_bits.
    change ProcessIsMagiskApp with (2 ^ 31). rewrite land_bit by lia.
    by destruct (Z.testbit flags 31), (Z.testbit flags 1), (Z.testbit flags 30).
Qed.
