(* ===== verification/Companion.v ===== *)
(** Companion: requests of zygisk processes as they come over the socket, and the companion
    process, [native/src/core/zygisk/daemon.rs].

    [Zygisk] has the answers; here a request is the bytes of the client, decoded as
    [Socket] does, and the answer what was sent before the connection ended or failed. *)

From S2P Require Import Prelude Cstr Socket ModuleTree ModuleStore Zygisk.

Inductive ZygiskRequest := GetInfo | ConnectCompanion | GetModDir.
Definition request_of (repr : Z) : option ZygiskRequest :=
  if repr =? 0 then Some GetInfo else if repr =? 1 then Some ConnectCompanion
  else if repr =? 2 then Some GetModDir else None.

(** What a request comes to: messages to the client, a connection passed to the companion
    with what is left to read, or an open directory. *)
Inductive Answer :=
  | Told (sent : list Sent)
  | Connected (stream : bytes)
  | Directory_ (path : bytes)
  | Nothing.

Section Requests.
Context (is_deny_target_uid : Z → bool) (update_deny_flags : Z → bytes → Z) (get_manager_uid : Z → Z).
Context (module_list : option (list ModuleInfo)).

Definition info (uid : Z) (process : bytes) (is_64_bit : bool) (failed : list Z) : list Sent :=
  get_process_info is_deny_target_uid update_deny_flags get_manager_uid module_list uid process is_64_bit failed.

Definition read_process (s : bytes) : IoResult (Z * bytes * bool * bytes) :=
  '(uid, s) ← decode (A:=i32_) s; '(process, s) ← decode (A:=str) s; '(is_64_bit, s) ← decode (A:=bool) s;
  Ok (i32_val uid, str_val process, is_64_bit, s).

(** The flags and the modules are sent before [system_server]'s list is read. *)
Definition get_process_info_from (s : bytes) : list Sent * IoResult unit :=
  match read_process s with
  | Ok (uid, process, is_64_bit, s) =>
      if negb (uid =? 1000) || negb (bool_decide (process = bs "system_server")) then
        (info uid process is_64_bit [], Ok tt)
      else
        match decode (A:=list i32_) s with
        | Ok (failed, _) => (info uid process is_64_bit (map i32_val failed), Ok tt)
        | Err e => (info uid process is_64_bit [], Err e)
        | Panic => (info uid process is_64_bit [], Panic)
        | NoFuel => (info uid process is_64_bit [], NoFuel)
        end
  | Err e => ([], Err e)
  | Panic => ([], Panic)
  | NoFuel => ([], NoFuel)
  end.

Definition get_mod_dir_from (s : bytes) : IoResult (option bytes) :=
  '(id, _) ← decode (A:=i32_) s; Ok (get_mod_dir module_list (i32_val id)).

(** Errors are dropped, and what was sent stays sent. *)
Definition zygisk_handler (s : bytes) : res unit Answer :=
  match decode (A:=i32_) s with
  | Ok (code, s) =>
      match request_of (i32_val code) with
      | Some GetInfo =>
          match get_process_info_from s with
          | (sent, Ok _) | (sent, Err _) => Ok (Told sent)
          | (_, Panic) => Panic
          | (_, NoFuel) => NoFuel
          end
      | Some ConnectCompanion => Ok (Connected s)
      | Some GetModDir =>
          match get_mod_dir_from s with
          | Ok (Some dir) => Ok (Directory_ dir)
          | Ok None | Err _ => Ok Nothing
          | Panic => Panic
          | NoFuel => NoFuel
          end
      | None => Ok Nothing
      end
  | Err _ => Ok Nothing
  | Panic => Panic
  | NoFuel => NoFuel
  end.

(** ** The companion process *)

(** The program and the arguments, on a 64-bit build; the descriptor survives [exec]. *)
Definition exec_zygiskd (magisk_tmp : bytes) (is_64_bit : bool) (remote : Z) : bytes * list bytes :=
  let magisk := if is_64_bit then bs "magisk" else bs "magisk32" in
  let exe := Buf.append_path (Buf.append_path (Buf.new 64) magisk_tmp) magisk in
  let fd_str := (Buf.push_str (Buf.new 16) (fmt_dec remote)).1 in
  (Buf.as_str exe, [[]; bs "zygisk"; bs "companion"; Buf.as_str fd_str]).

(** ** Requests that were sent are answered *)

(** The bytes of a client that asks about a process. *)
Definition ask_info (uid : Z) (process : bytes) (is_64_bit : bool) : bytes :=
  encode (mk_i32 0) ++ encode (mk_i32 uid) ++ encode (mk_str process) ++ encode is_64_bit.

Lemma read_process_sent uid process is_64_bit rest :
  - 2 ^ 31 ≤ uid < 2 ^ 31 → len process < 2 ^ 31 → utf8_valid process = true →
  read_process (encode (mk_i32 uid) ++ encode (mk_str process) ++ encode is_64_bit ++ rest) =
    Ok (uid, process, is_64_bit, rest).
Proof.
  intros Hu Hl Hv. unfold read_process. rewrite decode_encode by done. cbn [mbind res_bind].
  rewrite decode_encode by done. cbn [mbind res_bind]. by rewrite decode_encode.
Qed.

Lemma decode_i32 z rest : - 2 ^ 31 ≤ z < 2 ^ 31 → decode (encode (mk_i32 z) ++ rest) = Ok (mk_i32 z, rest).
Proof. intros. by apply decode_encode. Qed.

(** Every process that asks gets exactly its flags and its modules; [system_server] is only
    listened to about modules after it got them, and what it cannot say changes nothing of that. *)
Theorem info_answered uid process is_64_bit :
  - 2 ^ 31 ≤ uid < 2 ^ 31 → len process < 2 ^ 31 → utf8_valid process = true →
  (∀ failed, Forall fits failed → len failed < 2 ^ 31 →
    zygisk_handler (ask_info uid process is_64_bit ++ encode failed) =
      Ok (Told (info uid process is_64_bit (map i32_val failed)))) ∧
  (uid ≠ 1000 ∨ process ≠ bs "system_server" → ∀ rest,
    zygisk_handler (ask_info uid process is_64_bit ++ rest) = Ok (Told (info uid process is_64_bit []))) ∧
  zygisk_handler (ask_info uid process is_64_bit) = Ok (Told (info uid process is_64_bit [])).
Proof.
  intros Hu Hl Hv.
  assert (E : ∀ rest, zygisk_handler (ask_info uid process is_64_bit ++ rest) =
    match get_process_info_from (encode (mk_i32 uid) ++ encode (mk_str process) ++ encode is_64_bit ++ rest) with
    | (sent, Ok _) | (sent, Err _) => Ok (Told sent)
    | (_, Panic) => Panic
    | (_, NoFuel) => NoFuel
    end).
  { intros rest. unfold zygisk_handler, ask_info. rewrite <- !app_assoc, decode_i32 by lia. done. }
  assert (Hother : uid ≠ 1000 ∨ process ≠ bs "system_server" →
    ∀ failed, info uid process is_64_bit failed = info uid process is_64_bit []).
  { intros Ho failed. unfold info, get_process_info. do 2 f_equal.
    assert (bool_decide (uid = 1000) && bool_decide (process = bs "system_server") = false) as ->; [|done].
    destruct Ho; [by rewrite bool_decide_false|]. by rewrite (bool_decide_false (process = _)), andb_false_r. }
  assert (Hgate : ∀ rest, uid ≠ 1000 ∨ process ≠ bs "system_server" →
    zygisk_handler (ask_info uid process is_64_bit ++ rest) = Ok (Told (info uid process is_64_bit []))).
  { intros rest Ho. rewrite E. unfold get_process_info_from. rewrite read_process_sent by done.
    assert (negb (uid =? 1000) || negb (bool_decide (process = bs "system_server")) = true) as ->; [|done].
    destruct Ho as [Ho|Ho]; [by rewrite (proj2 (Z.eqb_neq _ _) Ho)|by rewrite (bool_decide_false _ Ho), orb_true_r]. }
  assert (Hserver : ∀ rest, uid = 1000 → process = bs "system_server" →
    zygisk_handler (ask_info uid process is_64_bit ++ rest) =
      match decode (A:=list i32_) rest with
      | Ok (failed, _) => Ok (Told (info uid process is_64_bit (map i32_val failed)))
      | Err _ => Ok (Told (info uid process is_64_bit []))
      | Panic => Panic
      | NoFuel => NoFuel
      end).
  { intros rest -> ->. rewrite E. unfold get_process_info_from. rewrite read_process_sent by done.
    rewrite Z.eqb_refl, bool_decide_true by done. cbn [negb orb].
    by destruct (decode (A:=list i32_) rest) as [[f r]| | |]. }
  assert (Hdec : ∀ failed : list i32_, Forall fits failed → len failed < 2 ^ 31 →
    decode (A:=list i32_) (encode failed) = Ok (failed, [])).
  { intros failed Hf Hn. rewrite <- (app_nil_r (encode failed)). by apply decode_encode. }
  split_and!.
  - intros failed Hf Hn. destruct (decide (uid = 1000)) as [E1|Hne];
      [destruct (decide (process = bs "system_server")) as [E2|Hne]|]; [|rewrite Hgate by auto; symmetry; f_equal; f_equal; by apply Hother; auto..].
    by rewrite Hserver, Hdec by done.
  - intros Ho rest. by apply Hgate.
  - rewrite <- (app_nil_r (ask_info _ _ _)). destruct (decide (uid = 1000)) as [E1|Hne];
      [destruct (decide (process = bs "system_server")) as [E2|Hne]|]; [|by rewrite Hgate by auto..].
    by rewrite Hserver by done.
Qed.

(** A module's directory is opened for the index it has in the list, and for no other. *)
Theorem mod_dir_answered id rest : - 2 ^ 31 ≤ id < 2 ^ 31 →
  zygisk_handler (encode (mk_i32 2) ++ encode (mk_i32 id) ++ rest) =
    Ok match get_mod_dir module_list id with Some dir => Directory_ dir | None => Nothing end.
Proof.
  intros Hid. unfold zygisk_handler. rewrite decode_i32 by lia.
  change (request_of (i32_val (mk_i32 2))) with (Some GetModDir). unfold get_mod_dir_from.
  rewrite decode_i32 by done. cbn. by destruct (get_mod_dir module_list id).
Qed.
End Requests.

(** The program is the one in the temporary directory, and the companion gets its descriptor. *)
Example exec_zygiskd_args : exec_zygiskd (bs "/debug_ramdisk") false 12 =
  (bs "/debug_ramdisk/magisk32", [[]; bs "zygisk"; bs "companion"; bs "12"]).
Proof. vm_compute. reflexivity. Qed.

Lemma info_answered_witness :
  zygisk_handler (λ _, false) (λ _ _, 0) (λ _, -1) None (ask_info 10012 (bs "com.app") true ++ []) =
    Ok (Told [SFlags 1]).
Proof.
  refine (proj1 (proj2 (info_answered (λ _, false) (λ _ _, 0) (λ _, -1) None 10012 (bs "com.app") true _ _ _)) _ []);
    [lia|vm_compute; reflexivity|reflexivity|left; lia].
Defined.
