(* ===== verification/Daemon.v ===== *)
(** Daemon: requests to the daemon and the stages of a boot,
    [native/src/core/daemon.rs], [native/src/core/bootstages.rs],
    [native/src/core/db.rs] and [native/src/core/su/daemon.rs].

    The settings database is an interface ([SettingsDb]); what the daemon asks of the
    system is a record per call.  Everything a handler does is a list of events. *)

From S2P Require Import Prelude Cstr Io Text Mount.
From S2P Require Import ModuleTree Zygisk.

(** ** Requests *)

Definition START_DAEMON : Z := 0.
Definition CHECK_VERSION : Z := 1.
Definition CHECK_VERSION_CODE : Z := 2.
Definition STOP_DAEMON : Z := 3.
Definition SYNC_BARRIER : Z := 4.
Definition SUPERUSER : Z := 5.
Definition ZYGOTE_RESTART : Z := 6.
Definition DENYLIST : Z := 7.
Definition SQLITE_CMD : Z := 8.
Definition REMOVE_MODULES : Z := 9.
Definition ZYGISK_REQ : Z := 10.
Definition STAGE_BARRIER : Z := 11.
Definition POST_FS_DATA : Z := 12.
Definition LATE_START : Z := 13.
Definition BOOT_COMPLETE : Z := 14.
Definition REQUEST_END : Z := 15.

Inductive RespondCode := ERROR | OK | ROOT_REQUIRED | ACCESS_DENIED.
Definition respond_repr (r : RespondCode) : Z :=
  match r with ERROR => -1 | OK => 0 | ROOT_REQUIRED => 1 | ACCESS_DENIED => 2 end.

(** A connection: the peer's uid and context, whether its executable is the
    daemon's, the code it sends and whether it takes the answer. *)
Record Client := mkClient {
  cred : option Z;
  peer_context : bytes;
  same_exe : bool;
  sent_code : option Z;
  answer_ok : bool
}.

(** What becomes of a connection. *)
Inductive Outcome :=
  | Died
  | Respond (r : RespondCode)
  | Unknown
  | HungUp
  | Sync (code : Z)
  | Async (code : Z)
  | Stage (code : Z).

Section Requests.
(** The feature [check-client]. *)
Context (check_client : bool).

Definition is_client (c : Client) : bool := if check_client then same_exe c else true.

Definition needs_root (code : Z) : bool :=
  existsb (Z.eqb code)
    [POST_FS_DATA; LATE_START; BOOT_COMPLETE; ZYGOTE_RESTART; SQLITE_CMD; DENYLIST; STOP_DAEMON].

(** The permission checks. *)
Definition check_permission (is_root is_shell is_zygote : bool) (code : Z) : RespondCode :=
  if needs_root code then if is_root then OK else ROOT_REQUIRED
  else if code =? REMOVE_MODULES then if is_root || is_shell then OK else ACCESS_DENIED
  else if code =? ZYGISK_REQ then if is_zygote then OK else ACCESS_DENIED
  else OK.

Definition handle_requests (c : Client) : Outcome :=
  match cred c with
  | None => Died
  | Some uid =>
      let is_root := uid =? 0 in
      let is_shell := uid =? 2000 in
      let is_zygote := bool_decide (peer_context c = bs "u:r:zygote:s0") in
      if negb is_root && negb is_zygote && negb (is_client c) then Respond ACCESS_DENIED
      else
        let code := default (-1) (sent_code c) in
        if negb ((0 <=? code) && (code <? REQUEST_END)) || (code =? SYNC_BARRIER) || (code =? STAGE_BARRIER)
        then Unknown
        else
          match check_permission is_root is_shell is_zygote code with
          | OK =>
              if negb (answer_ok c) then HungUp
              else if code <? SYNC_BARRIER then Sync code
              else if code <? STAGE_BARRIER then Async code
              else Stage code
          | r => Respond r
          end
  end.
End Requests.

(** *** Handlers *)

Inductive DaemonOp :=
  | WriteStr (s : bytes) | WritePod (v : Z) | SetupLog | DenylistHandler (stop : bool) | RestoreProp | ExitDaemon
  | SuDaemonHandler | ScanDenyApps | ResetZygisk (restore : bool) | DbExecForCli | RemoveModules
  | Reboot (args : list bytes) | ZygiskHandler.

(** What the handlers read of the daemon and of the connection. *)
Record DaemonEnv := mkDaemonEnv {
  debug : bool;
  magisk_version : bytes;
  magisk_ver_code : Z;
  zygisk_on : bool;
  is_recovery : bool;
  do_reboot : option bool
}.

Section Handlers.
Context (d : DaemonEnv).

Definition handle_request_sync (code : Z) : list DaemonOp :=
  if code =? CHECK_VERSION then
    [WriteStr (magisk_version d ++ (if debug d then bs ":MAGISK:D" else bs ":MAGISK:R"))]
  else if code =? CHECK_VERSION_CODE then [WritePod (magisk_ver_code d)]
  else if code =? START_DAEMON then [SetupLog]
  else if code =? STOP_DAEMON then [DenylistHandler true; RestoreProp; WritePod 0; ExitDaemon]
  else [].

Definition reboot : list DaemonOp := [Reboot (if is_recovery d then [bs "recovery"] else [])].

Definition handle_request_async (code : Z) : list DaemonOp :=
  if code =? DENYLIST then [DenylistHandler false]
  else if code =? SUPERUSER then [SuDaemonHandler]
  else if code =? ZYGOTE_RESTART then
    ScanDenyApps :: (if zygisk_on d then [ResetZygisk false] else [])
  else if code =? SQLITE_CMD then [DbExecForCli]
  else if code =? REMOVE_MODULES then
    [RemoveModules; WritePod 0] ++ (if default false (do_reboot d) then reboot else [])
  else if code =? ZYGISK_REQ then [ZygiskHandler]
  else [].

(** What a connection makes the daemon do, the boot stages apart. *)
Definition serve (o : Outcome) : list DaemonOp :=
  match o with
  | Respond r => [WritePod (respond_repr r)]
  | Sync code => WritePod (respond_repr OK) :: handle_request_sync code
  | Async code => WritePod (respond_repr OK) :: handle_request_async code
  | Stage _ => [WritePod (respond_repr OK)]
  | Died | Unknown | HungUp => []
  end.
End Handlers.

(** *** The client's side *)

(** The answer, [-1] when there is none. *)
Definition send_request (answer : option Z) : LoggedResult unit :=
  if default (-1) answer =? respond_repr OK then Ok tt else Err tt.

(** [attempts] are the connections tried in turn, [None] for one that is refused; a
    daemon is started after the first.  The flag says whether one was. *)
Fixpoint retry_connect (attempts : list (option (option Z))) : LoggedResult unit :=
  match attempts with
  | [] => NoFuel
  | Some answer :: _ => send_request answer
  | None :: attempts => retry_connect attempts
  end.

Definition connect_daemon (create is_root : bool) (exe : option bytes) (magisk_tmp : bytes)
    (attempts : list (option (option Z))) : bool * LoggedResult unit :=
  match attempts with
  | [] => (false, NoFuel)
  | Some answer :: _ => (false, send_request answer)
  | None :: attempts =>
      if negb create || negb is_root then (false, Err tt)
      else
        match exe with
        | None => (false, Err tt)
        | Some exe =>
            if negb (starts_with magisk_tmp exe) then (false, Err tt)
            else (true, retry_connect attempts)
        end
  end.

(** ** Settings *)

Inductive DbEntryKey := SuMntNs | DenylistConfig | ZygiskConfig | BootloopCount.

Definition to_str (k : DbEntryKey) : bytes :=
  match k with
  | SuMntNs => bs "mnt_ns"
  | DenylistConfig => bs "denylist"
  | ZygiskConfig => bs "zygisk"
  | BootloopCount => bs "bootloop"
  end.

(** The table of settings: the rows of a key and the code of the query; the table and
    the code after an insertion. *)
Class SettingsDb (D : Type) := {
  db_rows : D → bytes → list Z * Z;
  db_insert : D → bytes → Z → D * Z
}.

(** What was written without an error is read back: values are of 32 bits. *)
Class SettingsOk (D : Type) `{SettingsDb D} : Prop := {
  insert_rows (d : D) k v : as_i32 v = v → (db_insert d k v).2 = 0 → db_rows (db_insert d k v).1 k = ([v], 0);
  insert_rows_ne (d : D) k j v : as_i32 v = v → j ≠ k → db_rows (db_insert d k v).1 j = db_rows d j
}.

Section Settings.
Context {D : Type} `{SettingsDb D}.

Definition db_default (is_emulator : bool) (key : DbEntryKey) : Z :=
  match key with
  | SuMntNs => 1
  | DenylistConfig => 0
  | ZygiskConfig => if is_emulator then 1 else 0
  | BootloopCount => 0
  end.

(** The last row wins; an error is logged and keeps the default or what was read. *)
Definition get_db_setting (is_emulator : bool) (d : D) (key : DbEntryKey) : Z :=
  foldl (λ _ v, v) (db_default is_emulator key) (db_rows d (to_str key)).1.

Definition set_db_setting (d : D) (key : DbEntryKey) (value : Z) : D * bool :=
  let '(d, code) := db_insert d (to_str key) value in (d, code =? 0).
End Settings.

(** The line [db_exec_for_cli] sends for a row. *)
Fixpoint row_line_from (first : bool) (columns values : list bytes) : bytes :=
  match columns, values with
  | c :: columns, v :: values =>
      (if first then [] else bs "|") ++ c ++ bs "=" ++ v ++ row_line_from false columns values
  | _, _ => []
  end.
Definition row_line : list bytes → list bytes → bytes := row_line_from true.

(** ** Stages *)

Definition PostFsDataDone : Z := 1.
Definition LateStartDone : Z := 2.
Definition BootComplete : Z := 4.
Definition SafeMode : Z := 8.

Definition contains (state flag : Z) : bool := Z.land state flag =? flag.
Definition insert_flag (state flag : Z) : Z := Z.lor state flag.

Inductive BootOp :=
  | SetupLogfile | Mkdir_ (p : bytes) | Chmod (p : bytes) (mode : Z) | RemoveAll_ (p : bytes)
  | CopyTo (a b : bytes) | Restorecon | Mkdirs_ (p : bytes) | InstallApplets (bb dir : bytes)
  | DisableModules | ExecCommonScripts (stage : bytes) | InitializeDenylist | HandleModules | CleanMounts
  | ExecModuleScripts_ (stage : bytes) | SetupPreinitDir | ZygiskReset.

(** What a stage asks of the system. *)
Record BootEnv := mkBootEnv {
  mounts : option bytes;
  crypto : bytes;
  vold : bytes;
  exists_path : bytes → bool;
  sdk_int : Z;
  is_emulator : bool;
  tmp : bytes;
  safemode_prop : bytes;
  ro_safemode_prop : bytes;
  key_combo : bool
}.

Section Boot.
Context {D : Type} `{SettingsDb D}.

Record Boot := mkBoot { flags : Z; db : D; zygisk_enabled : bool; module_list : bool; log : list BootOp }.

Definition emit (o : BootOp) (b : Boot) : Boot :=
  mkBoot (flags b) (db b) (zygisk_enabled b) (module_list b) (log b ++ [o]).
Definition set_db (d : D) (b : Boot) : Boot := mkBoot (flags b) d (zygisk_enabled b) (module_list b) (log b).
Definition with_flag (f : Z) (b : Boot) : Boot :=
  mkBoot (insert_flag (flags b) f) (db b) (zygisk_enabled b) (module_list b) (log b).

(** The modules are mounted and their list is kept ([ModuleStore], [ModuleApply]). *)
Definition handle_modules (b : Boot) : Boot :=
  let b := emit HandleModules b in
  mkBoot (flags b) (db b) (zygisk_enabled b) true (log b).

Context (e : BootEnv).

Definition check_data : bool :=
  match mounts e with
  | None => false
  | Some text =>
      let mnt := for_each_line (λ (mnt : bool) line,
        if contains_str (bs " /data ") line && negb (contains_str (bs "tmpfs") line)
        then (true, false) else (mnt, true)) false text in
      if negb mnt then false
      else if nonempty (crypto e) then
        if negb (bool_decide (crypto e = bs "encrypted")) then true else nonempty (vold e)
      else true
  end.

Definition app_data_dir : bytes := if 24 <=? sdk_int e then bs "/data/user_de" else bs "/data/user".
Definition DATABIN : bytes := bs "/data/adb/magisk".
Definition SECURE_DIR : bytes := bs "/data/adb".
Definition MODULEROOT : bytes := bs "/data/adb/modules".
Definition APP_PACKAGE_NAME : bytes := bs "pro.magisk".
Definition BBPATH : bytes := bs ".magisk/busybox".

(** The calls it makes, and whether busybox is there.  One path buffer serves every
    path: what it held is kept when the path appended to it is not absolute. *)
Definition setup_magisk_env : list BootOp * bool :=
  let buf := foldl Buf.append_path (Buf.new 4096) [app_data_dir; bs "0"; APP_PACKAGE_NAME; bs "install"] in
  let app_bin_dir := Buf.as_str buf in
  let ops :=
    flat_map (λ dir, if exists_path e dir
                     then [RemoveAll_ DATABIN; CopyTo dir DATABIN; RemoveAll_ dir] else [])
      [bs "/cache/data_adb/magisk"; bs "/data/magisk"; app_bin_dir]
    ++ [RemoveAll_ (bs "/cache/data_adb"); Chmod SECURE_DIR 448; Mkdir_ DATABIN; Mkdir_ MODULEROOT;
        Mkdir_ (SECURE_DIR ++ bs "/post-fs-data.d"); Mkdir_ (SECURE_DIR ++ bs "/service.d"); Restorecon] in
  let busybox := DATABIN ++ bs "/busybox" in
  if negb (exists_path e busybox) then (ops, false)
  else
    let buf := Buf.append_path (Buf.append_path buf (tmp e)) BBPATH in
    let ops := ops ++ [Mkdirs_ (Buf.as_str buf)] in
    let buf := Buf.append_path buf (bs "busybox") in
    let tmp_bb := Buf.as_str buf in
    let ops := ops ++ [CopyTo busybox tmp_bb; Chmod tmp_bb 493;
                       InstallApplets tmp_bb (default [] (Path.parent_dir tmp_bb))] in
    let copy name '(buf, ops) :=
      if exists_path e (DATABIN ++ bs "/" ++ name) then
        let buf := Buf.append_path (Buf.append_path buf (tmp e)) name in
        (buf, ops ++ [CopyTo (DATABIN ++ bs "/" ++ name) (Buf.as_str buf)])
      else (buf, ops) in
    ((copy (bs "magiskpolicy") (copy (bs "magisk32") (buf, ops))).2, true).

(** [true] when the boot goes on in safe mode or without Magisk. *)
Definition post_fs_data (b : Boot) : Boot * bool :=
  let b := emit SetupLogfile b in
  if negb (exists_path e SECURE_DIR) && negb (sdk_int e <? 24) then (b, true)
  else
    let b := if negb (exists_path e SECURE_DIR) then emit (Mkdir_ SECURE_DIR) b else b in
    let '(ops, ok) := setup_magisk_env in
    let b := foldl (λ b o, emit o b) b ops in
    if negb ok then (b, true)
    else
      let boot_cnt := get_db_setting (is_emulator e) (db b) BootloopCount in
      let b := set_db (set_db_setting (db b) BootloopCount (as_i32 (boot_cnt + 1))).1 b in
      let safe_mode := (2 <=? boot_cnt) || bool_decide (safemode_prop e = bs "1")
                       || bool_decide (ro_safemode_prop e = bs "1") || key_combo e in
      if safe_mode then
        let b := emit DisableModules b in
        (set_db (set_db_setting (db b) ZygiskConfig 0).1 b, true)
      else
        let b := emit (ExecCommonScripts (bs "post-fs-data")) b in
        let z := negb (get_db_setting (is_emulator e) (db b) ZygiskConfig =? 0) in
        let b := mkBoot (flags b) (db b) z (module_list b) (log b) in
        (emit CleanMounts (handle_modules (emit InitializeDenylist b)), false).

Definition late_start (b : Boot) : Boot :=
  let b := emit (ExecCommonScripts (bs "service")) (emit SetupLogfile b) in
  if module_list b then emit (ExecModuleScripts_ (bs "service")) b else b.

Definition boot_complete (b : Boot) : Boot :=
  let b := emit SetupLogfile b in
  let b := set_db (set_db_setting (db b) BootloopCount 0).1 b in
  let b := if negb (exists_path e SECURE_DIR) then emit (Mkdir_ SECURE_DIR) b else b in
  let b := emit SetupPreinitDir b in
  if zygisk_enabled b then emit ZygiskReset b else b.

(** One request, under the lock. *)
Definition boot_stage_handler (code : Z) (b : Boot) : Boot :=
  if code =? POST_FS_DATA then
    if check_data && negb (contains (flags b) PostFsDataDone) then
      let '(b, safe) := post_fs_data b in
      with_flag PostFsDataDone (if safe then with_flag SafeMode b else b)
    else b
  else if code =? LATE_START then
    if contains (flags b) PostFsDataDone && negb (contains (flags b) SafeMode)
    then with_flag LateStartDone (late_start b) else b
  else if code =? BOOT_COMPLETE then
    if contains (flags b) PostFsDataDone then boot_complete (with_flag BootComplete b) else b
  else b.
End Boot.
Arguments Boot : clear implicits.

(** ** Who may ask for what *)

(** The codes a peer may have served, from the comments and the permission checks. *)
Inductive authorised (uid : Z) (zygote : bool) : Z → Prop :=
  | auth_any code :
      code ∈ [START_DAEMON; CHECK_VERSION; CHECK_VERSION_CODE; SUPERUSER] → authorised uid zygote code
  | auth_root code :
      uid = 0 →
      code ∈ [STOP_DAEMON; ZYGOTE_RESTART; DENYLIST; SQLITE_CMD; POST_FS_DATA; LATE_START; BOOT_COMPLETE] →
      authorised uid zygote code
  | auth_remove : uid = 0 ∨ uid = 2000 → authorised uid zygote REMOVE_MODULES
  | auth_zygisk : zygote = true → authorised uid zygote ZYGISK_REQ.

(** The thread a code is served on. *)
Definition target (code : Z) : Outcome :=
  if code <? SYNC_BARRIER then Sync code else if code <? STAGE_BARRIER then Async code else Stage code.

Definition is_zygote (c : Client) : bool := bool_decide (peer_context c = bs "u:r:zygote:s0").

Lemma code_cases code : 0 ≤ code < REQUEST_END →
  code ∈ [0;1;2;3;4;5;6;7;8;9;10;11;12;13;14].
Proof.
  intros [H1 H2]. unfold REQUEST_END in H2.
  rewrite !elem_of_cons. lia.
Qed.

Lemma check_permission_ok uid z code : 0 ≤ code < REQUEST_END → code ≠ SYNC_BARRIER → code ≠ STAGE_BARRIER →
  check_permission (uid =? 0) (uid =? 2000) z code = OK ↔ authorised uid z code.
Proof.
  intros Hc Hs Ht. unfold check_permission, needs_root.
  assert (Hin : code ∈ [0;1;2;3;5;6;7;8;9;10;12;13;14]).
  { apply code_cases in Hc. unfold SYNC_BARRIER, STAGE_BARRIER in *. set_solver. }
  clear Hc Hs Ht. split.
  - intros H. set_unfold in Hin.
    destruct_or! Hin; subst code; try done;
      try (apply auth_any; set_solver);
      try (apply auth_root; [|set_solver]; destruct (Z.eqb_spec uid 0); done).
    + apply auth_remove. destruct (Z.eqb_spec uid 0); [by left|].
      destruct (Z.eqb_spec uid 2000); [by right|done].
    + apply auth_zygisk. by destruct z.
  - intros [code' H|code' -> H|H|H]; cbn.
    + set_unfold in H. by destruct_or! H; subst.
    + set_unfold in H. by destruct_or! H; subst.
    + by destruct H as [-> | ->].
    + by rewrite H.
Qed.

Lemma authorised_range uid z code : authorised uid z code →
  0 ≤ code < REQUEST_END ∧ code ≠ SYNC_BARRIER ∧ code ≠ STAGE_BARRIER.
Proof.
  intros [code' H|code' _ H|_|_]; [| |done|done]; set_unfold in H; by destruct_or! H; subst.
Qed.

Lemma target_inj a b : target a = target b → a = b.
Proof. unfold target. repeat case_match; congruence. Qed.

Lemma target_served code : target code ≠ Died ∧ target code ≠ Unknown ∧ target code ≠ HungUp ∧
  ∀ r, target code ≠ Respond r.
Proof. unfold target. repeat case_match; done. Qed.

(** The branches of [handle_requests] that serve a code. *)
Lemma handle_requests_served check_client c uid code :
  cred c = Some uid → sent_code c = Some code →
  handle_requests check_client c = target code ↔
  (uid = 0 ∨ is_zygote c = true ∨ is_client check_client c = true) ∧
  (0 ≤ code < REQUEST_END ∧ code ≠ SYNC_BARRIER ∧ code ≠ STAGE_BARRIER) ∧
  check_permission (uid =? 0) (uid =? 2000) (is_zygote c) code = OK ∧ answer_ok c = true.
Proof.
  intros Hu Hs. unfold handle_requests. fold (is_zygote c). rewrite Hu, Hs. cbn [default Datatypes.id].
  fold (target code). destruct (target_served code) as (Hd & Hk & Hh & Hr).
  destruct (Z.eqb_spec uid 0), (is_zygote c), (is_client check_client c); cbn [negb andb];
    try (split; [by intros E; edestruct Hr|naive_solver]).
  all: destruct (Z.leb_spec 0 code), (Z.ltb_spec code REQUEST_END), (Z.eqb_spec code SYNC_BARRIER),
         (Z.eqb_spec code STAGE_BARRIER); cbn [negb andb orb];
         try (split; [by intros E; destruct Hk|naive_solver lia]).
  all: destruct (check_permission _ _ _ _); try (split; [by intros E; edestruct Hr|naive_solver]).
  all: destruct (answer_ok c); cbn [negb];
    [split; [intros _; split_and!; auto|done]|split; [by intros E; destruct Hh|naive_solver]].
Qed.

(** C7: a request is served exactly when the peer is known (root, zygote, or an instance
    of the daemon's executable), its code is one its uid or its SELinux context is
    authorised to send, and it takes the answer; it is then served on the thread its
    code belongs to.  In particular no barrier and no unknown code is ever served, only
    root reaches the boot stages, the database, the deny list and the daemon's end, and
    only zygote reaches Zygisk. *)
Theorem handle_requests_access check_client c code :
  handle_requests check_client c = target code ↔
  ∃ uid, cred c = Some uid ∧ (uid = 0 ∨ is_zygote c = true ∨ is_client check_client c = true) ∧
         sent_code c = Some code ∧ authorised uid (is_zygote c) code ∧ answer_ok c = true.
Proof.
  split.
  - destruct (target_served code) as (Hd & Hk & _ & Hr).
    destruct (cred c) as [uid|] eqn:Hu; [|unfold handle_requests; rewrite Hu; by intros E; destruct Hd].
    destruct (sent_code c) as [k|] eqn:Hs; cycle 1.
    { unfold handle_requests. rewrite Hu, Hs. cbn -[target check_permission]. intros E.
      repeat case_match; try (by destruct Hk). by destruct (Hr ACCESS_DENIED). }
    intros E. assert (k = code) as ->.
    { apply target_inj. rewrite <- E. revert E. unfold handle_requests, target. rewrite Hu, Hs.
      cbn [default Datatypes.id]. by repeat case_match. }
    apply (handle_requests_served _ _ _ _ Hu Hs) in E as (Hc & Hrng & Hp & Ha).
    exists uid. split_and!; try done. by apply check_permission_ok in Hp; naive_solver.
  - intros (uid & Hu & Hc & Hs & Hauth & Ha).
    pose proof (authorised_range _ _ _ Hauth) as (Hr & H1 & H2).
    apply (handle_requests_served _ _ _ _ Hu Hs). split_and!; try done; try lia.
    by apply check_permission_ok.
Qed.

(** ** The stages of a boot *)

Lemma contains_bit x i : 0 ≤ i → contains x (2 ^ i) = Z.testbit x i.
Proof.
  intros Hi. unfold contains. destruct (Z.testbit x i) eqn:E.
  - apply Z.eqb_eq, Z.bits_inj'. intros j Hj. rewrite Z.land_spec, Z.pow2_bits_eqb by done.
    destruct (Z.eqb_spec i j) as [<-|]; [by rewrite E|by rewrite andb_false_r].
  - apply Z.eqb_neq. intros H%(f_equal (λ z, Z.testbit z i)).
    rewrite Z.land_spec, Z.pow2_bits_eqb, Z.eqb_refl, E in H by done. done.
Qed.

Lemma contains_insert x i j : 0 ≤ i → 0 ≤ j →
  contains (insert_flag x (2 ^ i)) (2 ^ j) = (i =? j) || contains x (2 ^ j).
Proof.
  intros Hi Hj. rewrite !contains_bit by done. unfold insert_flag.
  rewrite Z.lor_spec, Z.pow2_bits_eqb, orb_comm by done. done.
Qed.

(** What setting up the environment may do. *)
Definition env_op (o : BootOp) : bool :=
  match o with
  | SetupLogfile | Mkdir_ _ | Chmod _ _ | RemoveAll_ _ | CopyTo _ _ | Restorecon | Mkdirs_ _ | InstallApplets _ _ => true
  | _ => false
  end.

Lemma setup_magisk_env_ops e : Forall env_op (setup_magisk_env e).1.
Proof.
  unfold setup_magisk_env. set (buf := foldl _ _ _). clearbody buf. cbn [flat_map]. cbv zeta beta.
  repeat match goal with |- context [exists_path e ?p] => destruct (exists_path e p) end;
    cbn [negb fst snd]; repeat (rewrite Forall_app; split); repeat constructor.
Qed.

Section Stages.
Context {D : Type} `{SettingsDb D}.
Implicit Types (b : Boot D) (e : BootEnv).

Lemma emit_all ops b :
  foldl (λ b o, emit o b) b ops = mkBoot (flags b) (db b) (zygisk_enabled b) (module_list b) (log b ++ ops).
Proof.
  revert b. induction ops as [|o ops IH]; intros b; cbn [foldl].
  - rewrite app_nil_r. by destruct b.
  - rewrite IH. cbn. by rewrite <- app_assoc.
Qed.

(** Safe mode is asked for by the counter, a property or the keys. *)
Definition safe_mode e b : bool :=
  (2 <=? get_db_setting (is_emulator e) (db b) BootloopCount) || bool_decide (safemode_prop e = bs "1")
  || bool_decide (ro_safemode_prop e = bs "1") || key_combo e.

(** The environment can be set up. *)
Definition env_ready e : bool :=
  (exists_path e SECURE_DIR || (sdk_int e <? 24)) && exists_path e (DATABIN ++ bs "/busybox").

Lemma setup_magisk_env_ok e : (setup_magisk_env e).2 = exists_path e (DATABIN ++ bs "/busybox").
Proof. unfold setup_magisk_env. set (buf := foldl _ _ _). clearbody buf. cbv zeta. by destruct (exists_path e (DATABIN ++ _)). Qed.

Lemma post_fs_data_cases e b : ∃ l, Forall env_op l ∧
  post_fs_data e b =
    if negb (env_ready e) then (mkBoot (flags b) (db b) (zygisk_enabled b) (module_list b) (log b ++ l), true)
    else
      let d := (set_db_setting (db b) BootloopCount
                  (as_i32 (get_db_setting (is_emulator e) (db b) BootloopCount + 1))).1 in
      if safe_mode e b then
        (mkBoot (flags b) (set_db_setting d ZygiskConfig 0).1 (zygisk_enabled b) (module_list b)
           (log b ++ l ++ [DisableModules]), true)
      else
        (mkBoot (flags b) d (negb (get_db_setting (is_emulator e) d ZygiskConfig =? 0)) true
           (log b ++ l ++ [ExecCommonScripts (bs "post-fs-data"); InitializeDenylist; HandleModules; CleanMounts]),
         false).
Proof.
  unfold post_fs_data, env_ready, safe_mode. pose proof (setup_magisk_env_ops e) as Hops.
  rewrite <- setup_magisk_env_ok. destruct (setup_magisk_env e) as [ops ok]. cbn [fst snd] in *.
  rewrite !emit_all.
  destruct (exists_path e SECURE_DIR), (sdk_int e <? 24), ok; cbn -[get_db_setting set_db_setting as_i32 bs];
    [exists (SetupLogfile :: ops)|exists (SetupLogfile :: ops)|exists (SetupLogfile :: ops)|exists (SetupLogfile :: ops)
    |exists (SetupLogfile :: Mkdir_ SECURE_DIR :: ops)|exists (SetupLogfile :: Mkdir_ SECURE_DIR :: ops)
    |exists [SetupLogfile]|exists [SetupLogfile]];
    (split; [rewrite ?Forall_cons, ?Forall_nil; naive_solver|]); repeat case_match;
    unfold set_db, handle_modules, emit; cbn [flags db zygisk_enabled module_list log];
    by rewrite <- ?app_assoc.
Qed.

(** A boot of the daemon: the requests it serves, each with the system's answers. *)
Definition initial (d : D) : Boot D := mkBoot 0 d false false [].
Definition serve_stages (reqs : list (BootEnv * Z)) b : Boot D :=
  foldl (λ b '(e, code), boot_stage_handler e code b) b reqs.

Definition post_done b : bool := contains (flags b) PostFsDataDone.
Definition in_safe_mode b : bool := contains (flags b) SafeMode.
Definition module_op (o : BootOp) : bool :=
  match o with HandleModules | ExecModuleScripts_ _ => true | _ => false end.

Definition Service : BootOp := ExecCommonScripts (bs "service").

(** What the flags say of the log. *)
Definition stage_inv b : Prop :=
  if negb (post_done b) then b = initial (db b)
  else if in_safe_mode b then
    HandleModules ∉ log b ∧ Service ∉ log b ∧ (∀ s, ExecModuleScripts_ s ∉ log b) ∧ zygisk_enabled b = false
  else ∃ l1 l2, log b = l1 ++ HandleModules :: l2 ∧ HandleModules ∉ l1 ∧ HandleModules ∉ l2 ∧
         Service ∉ l1 ∧ (∀ s, ExecModuleScripts_ s ∉ l1) ∧ DisableModules ∉ log b.

Lemma env_op_not l o : Forall env_op l → env_op o = false → o ∉ l.
Proof. intros Hl Ho Hin. rewrite Forall_forall in Hl. specialize (Hl _ Hin). cbn in Hl. by rewrite Ho in Hl. Qed.

Lemma flags_insert x i j : 0 ≤ i → 0 ≤ j → i ≠ j →
  contains (insert_flag x (2 ^ i)) (2 ^ j) = contains x (2 ^ j).
Proof. intros Hi Hj Hne. rewrite contains_insert by done. by rewrite (proj2 (Z.eqb_neq i j)). Qed.

Lemma stage_inv_extend b b' l : post_done b = true → stage_inv b →
  post_done b' = true → in_safe_mode b' = in_safe_mode b → zygisk_enabled b' = zygisk_enabled b →
  log b' = log b ++ l → HandleModules ∉ l → DisableModules ∉ l →
  (in_safe_mode b = true → Service ∉ l ∧ ∀ s, ExecModuleScripts_ s ∉ l) → stage_inv b'.
Proof.
  unfold stage_inv. intros Hp Hinv Hp' Hs Hz Hlog Hh Hd Hsafe. rewrite Hp, Hp', Hs in *. cbn [negb] in *.
  destruct (in_safe_mode b).
  - destruct Hinv as (? & ? & ? & ?). destruct Hsafe as [? ?]; [done|].
    rewrite Hlog, Hz. setoid_rewrite elem_of_app. naive_solver.
  - destruct Hinv as (l1 & l2 & E & ? & ? & ? & ? & ?). exists l1, (l2 ++ l).
    rewrite Hlog. split; [by rewrite E, <- app_assoc|]. rewrite E in *.
    repeat setoid_rewrite elem_of_app. repeat setoid_rewrite elem_of_app in H4. naive_solver.
Qed.

Lemma post_fs_data_inv e b : post_done b = false → stage_inv b →
  stage_inv (boot_stage_handler e POST_FS_DATA b).
Proof.
  intros Hp Hinv. unfold boot_stage_handler. cbn [Z.eqb POST_FS_DATA Pos.eqb].
  fold (post_done b). rewrite Hp. unfold stage_inv in Hinv. rewrite Hp in Hinv. cbn [negb] in Hinv.
  destruct (check_data e); cbn [andb negb]; [|by rewrite Hinv].
  destruct (post_fs_data_cases e b) as (l & Hl & ->). rewrite Hinv.
  cbn [flags db zygisk_enabled module_list log initial].
  pose proof (env_op_not l HandleModules Hl eq_refl). pose proof (env_op_not l Service Hl eq_refl).
  pose proof (env_op_not l DisableModules Hl eq_refl).
  assert (∀ s, ExecModuleScripts_ s ∉ l) by (intros; by apply env_op_not).
  destruct (env_ready e); cbn [negb]; [destruct (safe_mode _ _)|];
    unfold stage_inv, post_done, in_safe_mode; cbn [flags log db zygisk_enabled with_flag];
    cbn [insert_flag contains Z.land Z.lor negb Z.eqb]; unfold Service; rewrite ?app_nil_l.
  - split_and!; try done; set_solver.
  - exists (l ++ [ExecCommonScripts (bs "post-fs-data"); InitializeDenylist]), [CleanMounts].
    rewrite <- app_assoc. unfold Service in *. split_and!; try done; set_solver.
  - by split_and!.
Qed.

Lemma late_start_log b : ∃ l, late_start b = mkBoot (flags b) (db b) (zygisk_enabled b) (module_list b) (log b ++ l) ∧
  HandleModules ∉ l ∧ DisableModules ∉ l.
Proof.
  unfold late_start, emit. cbn [flags db zygisk_enabled module_list log].
  destruct (module_list b); cbn [flags db zygisk_enabled module_list log]; rewrite <- !app_assoc;
    eexists; (split; [reflexivity|]); set_solver.
Qed.

Lemma boot_complete_log e b : ∃ l,
  boot_complete e b = mkBoot (flags b) (set_db_setting (db b) BootloopCount 0).1 (zygisk_enabled b) (module_list b)
                        (log b ++ l) ∧
  HandleModules ∉ l ∧ DisableModules ∉ l ∧ Service ∉ l ∧ ∀ s, ExecModuleScripts_ s ∉ l.
Proof.
  unfold boot_complete, emit, set_db. cbn [flags db zygisk_enabled module_list log].
  destruct (exists_path e SECURE_DIR), (zygisk_enabled b) eqn:E;
    cbn [negb flags db zygisk_enabled module_list log]; rewrite ?E, <- ?app_assoc;
    eexists; (split; [reflexivity|]); unfold Service; set_solver.
Qed.

Lemma boot_stage_handler_inv e code b : stage_inv b → stage_inv (boot_stage_handler e code b).
Proof.
  intros Hinv. destruct (Z.eq_dec code POST_FS_DATA) as [->|Hc].
  { destruct (post_done b) eqn:Hp; [|by apply post_fs_data_inv].
    unfold boot_stage_handler. cbn [Z.eqb POST_FS_DATA Pos.eqb]. fold (post_done b). rewrite Hp.
    by rewrite andb_false_r. }
  unfold boot_stage_handler. rewrite (proj2 (Z.eqb_neq _ _) Hc). fold (post_done b) (in_safe_mode b).
  destruct (code =? LATE_START); [|destruct (code =? BOOT_COMPLETE); [|done]].
  - destruct (post_done b) eqn:Hp, (in_safe_mode b) eqn:Hs; cbn [andb negb]; try done.
    destruct (late_start_log b) as (l & -> & ? & ?).
    eapply (stage_inv_extend b _ l); try done; unfold post_done, in_safe_mode, with_flag; cbn [flags];
      [by rewrite (flags_insert _ 1 0)|by rewrite (flags_insert _ 1 3)|fold (in_safe_mode b); congruence].
  - destruct (post_done b) eqn:Hp; [|done].
    destruct (boot_complete_log e (with_flag BootComplete b)) as (l & -> & ? & ? & ? & ?).
    eapply (stage_inv_extend b _ l); try done; unfold post_done, in_safe_mode, with_flag; cbn [flags];
      [by rewrite (flags_insert _ 2 0)|by rewrite (flags_insert _ 2 3)].
Qed.

Lemma serve_stages_inv reqs b : stage_inv b → stage_inv (serve_stages reqs b).
Proof.
  revert b. induction reqs as [|[e code] reqs IH]; intros b Hb; [done|].
  by apply IH, boot_stage_handler_inv.
Qed.

(** In a list with one pivot, what is not before the pivot has it before. *)
Lemma pivot_before {A} (x o : A) a c l1 l2 : a ++ x :: c = l1 ++ o :: l2 → o ≠ x → o ∉ a → x ∈ l1.
Proof.
  intros [(k & -> & E)|(k & -> & E)]%app_eq_inv Hne Ho; destruct k as [|y k]; simplify_eq/=; set_solver.
Qed.

Lemma pivot_unique {A} (x : A) a c l1 l2 : x ∉ a → x ∉ c → a ++ x :: c = l1 ++ x :: l2 → x ∉ l1 ∧ x ∉ l2.
Proof.
  intros Ha Hc [(k & -> & E)|(k & -> & E)]%app_eq_inv; destruct k as [|y k]; simplify_eq/=; set_solver.
Qed.

(** C12: whatever stage requests reach the daemon, in any order and any number, modules
    are handled at most once, and never in a boot that disabled them or aborted
    (safe mode); the service scripts and the modules' scripts of late start run only
    after the modules were handled, and never in safe mode. *)
Theorem boot_stages_safe reqs d :
  let b := serve_stages reqs (initial d) in
  (∀ l1 l2, log b = l1 ++ HandleModules :: l2 → HandleModules ∉ l1 ∧ HandleModules ∉ l2) ∧
  (∀ o l1 l2, log b = l1 ++ o :: l2 → o = Service ∨ (∃ s, o = ExecModuleScripts_ s) → HandleModules ∈ l1) ∧
  (in_safe_mode b = true → HandleModules ∉ log b ∧ Service ∉ log b) ∧
  (DisableModules ∈ log b → HandleModules ∉ log b).
Proof.
  intros b. assert (Hinv : stage_inv b) by (by apply serve_stages_inv).
  unfold stage_inv in Hinv. destruct (post_done b); cbn [negb] in Hinv; cycle 1.
  { rewrite Hinv. cbn [log initial]. split_and!; try (intros; by destruct l1 + set_solver). }
  destruct (in_safe_mode b).
  - destruct Hinv as (Hh & Hs & Hm & _). split_and!; try done.
    + intros l1 l2 E. rewrite E in Hh. set_solver.
    + intros o l1 l2 E [-> | [s ->]]; [rewrite E in Hs|specialize (Hm s); rewrite E in Hm]; set_solver.
  - destruct Hinv as (a & c & Hlog & Ha & Hc & Hs & Hm & Hd). rewrite Hlog in Hd |- *.
    split_and!; try done.
    + intros l1 l2. by apply pivot_unique.
    + intros o l1 l2 E Ho. eapply pivot_before; [exact E|..]; destruct Ho as [-> | [s ->]]; done.
Qed.

(** ** Boot loops *)

Context `{!SettingsOk D} (writable : ∀ (d : D) k v, (db_insert d k v).2 = 0).

Lemma to_str_inj k j : to_str k = to_str j → k = j.
Proof. destruct k, j; try done; intros E; vm_compute in E; discriminate E. Qed.

Lemma as_i32_twice z : as_i32 (as_i32 z) = as_i32 z.
Proof. apply as_i32_small. unfold as_i32. pose proof (Z.mod_pos_bound (z + 2 ^ 31) (2 ^ 32) ltac:(lia)). lia. Qed.

Lemma get_set em d k v : as_i32 v = v → get_db_setting em (set_db_setting d k v).1 k = v.
Proof.
  intros Hv. unfold get_db_setting, set_db_setting. pose proof (insert_rows d (to_str k) v Hv (writable _ _ _)) as Hr.
  destruct (db_insert d (to_str k) v). cbn [fst] in *. by rewrite Hr.
Qed.

Lemma get_set_ne em d k j v : as_i32 v = v → j ≠ k → get_db_setting em (set_db_setting d k v).1 j = get_db_setting em d j.
Proof.
  intros Hv Hne. unfold get_db_setting, set_db_setting.
  assert (Hs : to_str j ≠ to_str k) by (by intros ?%to_str_inj).
  pose proof (insert_rows_ne d (to_str k) (to_str j) v Hv Hs) as Hr.
  destruct (db_insert d (to_str k) v). cbn [fst] in *. by rewrite Hr.
Qed.

(** The boots counted since the last one that completed. *)
Definition boot_count d : Z := get_db_setting false d BootloopCount.

(** A daemon that serves only post-fs-data, and a row of such boots. *)
Definition boot_once d e : Boot D := boot_stage_handler e POST_FS_DATA (initial d).
Fixpoint boots d (es : list BootEnv) : list (Boot D) :=
  match es with
  | [] => []
  | e :: es => let b := boot_once d e in b :: boots (db b) es
  end.

Definition bootable e : Prop := check_data e = true ∧ env_ready e = true.

Lemma boot_once_cases d e : bootable e → ∃ l, Forall env_op l ∧
  boot_once d e =
    let d' := (set_db_setting d BootloopCount (as_i32 (boot_count d + 1))).1 in
    if safe_mode e (initial d) then
      mkBoot (Z.lor SafeMode PostFsDataDone) (set_db_setting d' ZygiskConfig 0).1 false false (l ++ [DisableModules])
    else
      mkBoot PostFsDataDone d' (negb (get_db_setting (is_emulator e) d' ZygiskConfig =? 0)) true
        (l ++ [ExecCommonScripts (bs "post-fs-data"); InitializeDenylist; HandleModules; CleanMounts]).
Proof.
  intros [Hd He]. unfold boot_once, boot_stage_handler. cbn [Z.eqb POST_FS_DATA Pos.eqb].
  rewrite Hd. cbn [andb contains flags initial Z.land PostFsDataDone Z.eqb negb].
  destruct (post_fs_data_cases e (initial d)) as (l & Hl & ->). rewrite He. cbn [negb].
  exists l. split; [done|]. cbv zeta. by destruct (safe_mode e (initial d)).
Qed.

Lemma boot_once_count d e : bootable e → 0 ≤ boot_count d < 2 ^ 31 - 1 →
  boot_count (db (boot_once d e)) = boot_count d + 1.
Proof.
  intros He Hc. destruct (boot_once_cases d e He) as (l & _ & ->). unfold boot_count at 1. cbv zeta.
  destruct (safe_mode _ _); cbn [db].
  - rewrite get_set_ne, get_set by (done || apply as_i32_twice). apply as_i32_small. lia.
  - rewrite get_set by apply as_i32_twice. apply as_i32_small. lia.
Qed.

Lemma boots_count d es i b : Forall bootable es → 0 ≤ boot_count d → boot_count d + Z.of_nat (length es) < 2 ^ 31 →
  boots d es !! i = Some b →
  ∃ d' e, bootable e ∧ b = boot_once d' e ∧ boot_count d' = boot_count d + Z.of_nat i.
Proof.
  revert d i. induction es as [|e es IH]; intros d i Hes H0 Hlen Hi; [done|].
  apply Forall_cons in Hes as [He Hes]. cbn [length] in Hlen. destruct i as [|i]; cbn [boots lookup list_lookup] in Hi; cbv zeta in Hi.
  - simplify_eq. exists d, e. split_and!; [done|done|lia].
  - pose proof (boot_once_count d e He ltac:(lia)) as Hb.
    apply IH in Hi as (d' & e' & ? & ? & Hc); [|done|lia..].
    exists d', e'. split_and!; [done|done|lia].
Qed.

(** C11: a device that keeps dying before boot-complete is rescued, provided its settings
    can be written ([writable]; a write that fails is logged and the boot goes on, see
    [unwritable_never_safe]) and are read back ([SettingsOk]): from the third boot on that gets to post-fs-data with /data
    and Magisk in place, and whatever the count was before, post-fs-data disables the
    modules and Zygisk and leaves the modules alone; and once boot-complete is reached
    after post-fs-data, the count starts again, so that the next boot is not in safe mode
    unless a property or the keys ask for it. *)
Theorem bootloop_protection d es :
  Forall bootable es → 0 ≤ boot_count d → boot_count d + Z.of_nat (length es) < 2 ^ 31 →
  (∀ i b, boots d es !! i = Some b → (2 ≤ i)%nat →
     in_safe_mode b = true ∧ DisableModules ∈ log b ∧ HandleModules ∉ log b ∧ zygisk_enabled b = false ∧
     ∀ em, get_db_setting em (db b) ZygiskConfig = 0) ∧
  (∀ b e e', post_done b = true → bootable e' → safemode_prop e' ≠ bs "1" → ro_safemode_prop e' ≠ bs "1" →
     key_combo e' = false →
     let b' := boot_once (db (boot_stage_handler e BOOT_COMPLETE b)) e' in
     in_safe_mode b' = false ∧ HandleModules ∈ log b').
Proof.
  intros Hes H0 Hlen. split.
  - intros i b Hi Hle. destruct (boots_count d es i b Hes H0 Hlen Hi) as (d' & e & He & -> & Hc).
    destruct (boot_once_cases d' e He) as (l & Hl & ->). unfold safe_mode. cbn [db initial].
    change (get_db_setting (is_emulator e) d' BootloopCount) with (boot_count d').
    rewrite (proj2 (Z.leb_le 2 (boot_count d'))) by lia. cbn [orb log zygisk_enabled db].
    pose proof (env_op_not l HandleModules Hl eq_refl). split_and!; try done; [set_solver..|].
    intros em. by rewrite get_set.
  - intros b e e' Hp He' H1 H2 H3 b'. subst b'. unfold boot_stage_handler at 1 2.
    cbn [Z.eqb POST_FS_DATA LATE_START BOOT_COMPLETE Pos.eqb]. fold (post_done b). rewrite Hp.
    destruct (boot_complete_log e (with_flag BootComplete b)) as (l0 & -> & _). cbn [db with_flag].
    set (d1 := (set_db_setting _ _ _).1).
    destruct (boot_once_cases d1 e' He') as (l & Hl & ->). unfold safe_mode. cbn [db initial].
    subst d1. rewrite get_set, H3, !bool_decide_eq_false_2 by done. cbn [orb Z.leb Z.compare].
    split; [done|]. cbn [log]. set_solver.
Qed.
End Stages.

(** A table with one row per key. *)
#[global] Instance gmap_settings : SettingsDb (gmap bytes Z) := {
  db_rows m k := (match m !! k with Some v => [v] | None => [] end, 0);
  db_insert m k v := (<[k := v]> m, 0)
}.

#[global] Instance gmap_settings_ok : SettingsOk (gmap bytes Z).
Proof.
  split.
  - intros d k v _ _. cbn [db_rows db_insert gmap_settings fst]. by rewrite lookup_insert_eq.
  - intros d k j v _ Hne. cbn [db_rows db_insert gmap_settings fst]. by rewrite lookup_insert_ne.
Qed.

(** A phone with [/data] on ext4, Magisk installed and nothing that asks for safe mode. *)
Definition a_phone : BootEnv :=
  mkBootEnv (Some (bs "/dev/block/dm-3 /data ext4 rw 0 0")) [] [] (λ _, true) 34 false (bs "/debug_ramdisk")
    [] [] false.

(** The third boot in a row of that phone. *)
Definition third_boot : option (Boot (gmap bytes Z)) := boots ∅ [a_phone; a_phone; a_phone] !! 2%nat.

Lemma bootloop_protection_witness :
  ∃ b, third_boot = Some b ∧ in_safe_mode b = true ∧ DisableModules ∈ log b.
Proof.
  assert (Hs : match third_boot with Some _ => true | None => false end = true) by (vm_compute; reflexivity).
  destruct third_boot as [b|] eqn:Hb; [exists b; split; [done|]|discriminate Hs].
  assert (Hp : bootable a_phone) by (split; vm_compute; reflexivity).
  assert (Hw : ∀ (d : gmap bytes Z) k v, (db_insert d k v).2 = 0) by done.
  destruct (bootloop_protection Hw ∅ [a_phone; a_phone; a_phone]) as [H _].
  - by repeat constructor.
  - vm_compute. discriminate.
  - vm_compute. reflexivity.
  - destruct (H 2%nat b Hb) as (? & ? & _); [lia|]. by split.
Defined.

(** The first two boots of that phone load its modules. *)
Example first_boots_load_modules :
  ((λ b : Boot (gmap bytes Z), in_safe_mode b) <$> boots ∅ [a_phone; a_phone; a_phone; a_phone]) =
  [false; false; true; true].
Proof. vm_compute. reflexivity. Qed.

(** A database that cannot be written to. *)
Section ReadOnly.
#[local] Instance read_only : SettingsDb (gmap bytes Z) := {
  db_rows m k := (match m !! k with Some v => [v] | None => [] end, 0);
  db_insert m k v := (m, 8)
}.

Example unwritable_never_safe :
  ((λ b : Boot (gmap bytes Z), in_safe_mode b) <$> boots ∅ (repeat a_phone 6)) = repeat false 6.
Proof. vm_compute. reflexivity. Qed.
End ReadOnly.

Definition is_service (o : BootOp) : bool :=
  match o with ExecCommonScripts s => bool_decide (s = bs "service") | _ => false end.
Definition count_occ_op {D} (b : Boot D) : nat := length (List.filter is_service (log b)).

(** Late start is not limited to one run: asked twice, it runs the service scripts twice. *)
Example late_start_twice :
  count_occ_op (serve_stages [(a_phone, POST_FS_DATA); (a_phone, LATE_START); (a_phone, LATE_START)]
                  (initial (∅ : gmap bytes Z))) = 2%nat.
Proof. vm_compute. reflexivity. Qed.
