(* ===== verification/Su.v ===== *)
(** Su: requests for root, [native/src/core/su/daemon.rs], and the manager's user id,
    [native/src/core/package.rs].

    The handler is the calls it makes after the request was read; [fork] is the result of
    the fork, so that 0 follows the child.  The denylist and the root shell are C++. *)

From S2P Require Import Prelude Cstr Socket Zygisk Daemon.

Inductive SuOp :=
  | SendCode (v : Z)
  | ForkShell
  | ExitOnError
  | ExecRootShell (pid : Z) (req : SuRequest) (mnt_ns : Z)
  | WaitShell.

(** [SuPolicy]. *)
Definition Allow : Z := 0.
Definition Deny : Z := 1.

Section Handler.
Context {D : Type} `{SettingsDb D} (is_emulator : bool) (db : D).
Context (is_deny_target_uid : Z → bool).
(** The result of [fork], and the exit status if the child could be waited for. *)
Context (fork : Z) (status : option Z).

Definition su_daemon_handler (uid : Z) (pid : option Z) (client : bytes) : res unit (list SuOp) :=
  match decode (A:=SuRequest) client with
  | Ok (req, _) =>
      if negb (root_allowed is_deny_target_uid uid) then Ok [SendCode Deny]
      else
        let mnt_ns := get_db_setting is_emulator db SuMntNs in
        if fork =? 0 then
          Ok [ForkShell; ExitOnError; SendCode 0; ExecRootShell (default (-1) pid) req mnt_ns]
        else if fork <? 0 then Ok [ForkShell]
        else Ok [ForkShell; WaitShell; SendCode (match status with Some s => Z.land (Z.shiftr s 8) 0xff | None => -1 end)]
  | Err _ => Ok [SendCode Deny]
  | Panic => Panic
  | NoFuel => NoFuel
  end.
End Handler.

(** A whole connection: the checks of [handle_requests], then the handler. *)
Definition su_connection {D : Type} `{SettingsDb D} (check_client is_emulator : bool) (db : D)
    (is_deny_target_uid : Z → bool) (fork : Z) (status : option Z) (c : Client) (pid : option Z) (stream : bytes) :
    res unit (list SuOp) :=
  match handle_requests check_client c, cred c with
  | Async code, Some uid =>
      if code =? SUPERUSER then su_daemon_handler is_emulator db is_deny_target_uid fork status uid pid stream
      else Ok []
  | _, _ => Ok []
  end.

(** ** The manager *)

(** [stat_uid]: the owner of a path that is there. *)
Definition get_package_uid (stat_uid : bytes → option Z) (sdk_int user : Z) (pkg : bytes) : Z :=
  let dir := if 24 <=? sdk_int then bs "/data/user_de" else bs "/data/user" in
  let path := Buf.append_path (Buf.append_path_fmt (Buf.append_path (Buf.new 4096) dir) (fmt_dec user)) pkg in
  default (-1) (stat_uid (Buf.as_str path)).
Definition manager_uid (stat_uid : bytes → option Z) (sdk_int user : Z) : Z :=
  get_package_uid stat_uid sdk_int user APP_PACKAGE_NAME.

(** ** Who gets a root shell *)

Lemma root_allowed_iff deny uid : root_allowed deny uid = true ↔ uid = 0 ∨ deny uid = false.
Proof.
  unfold root_allowed, AID_ROOT. case_bool_decide as E; [naive_solver|]. destruct (deny uid); naive_solver.
Qed.

(** The request code that passes the checks, and who sent it. *)
Lemma served_superuser check c :
  handle_requests check c = Async SUPERUSER →
  ∃ uid, cred c = Some uid ∧ sent_code c = Some SUPERUSER ∧
    (uid = 0 ∨ peer_context c = bs "u:r:zygote:s0" ∨ is_client check c = true).
Proof.
  unfold handle_requests. destruct (cred c) as [uid|]; [|done].
  destruct (negb (uid =? 0) && negb _ && negb (is_client check c)) eqn:Ea; [done|].
  destruct (sent_code c) as [code|]; [|done]. change (default (-1) (Some code)) with code.
  destruct (_ || _) eqn:Eu; [done|].
  destruct (check_permission _ _ _ code); try done. destruct (answer_ok c); cbn [negb]; [|done].
  destruct (code <? SYNC_BARRIER); [done|]. destruct (code <? STAGE_BARRIER); [|done]. intros [= ->].
  exists uid. split; [done|]. split; [done|].
  destruct (Z.eqb_spec uid 0); [by left|]. case_bool_decide; [by right; left|].
  destruct (is_client check c); [by right; right|done].
Qed.

(** C8: nobody on the denylist gets root: on whatever connection and with whatever bytes, a
    root shell is only run for a client that passed the daemon's checks, asked for it, and is
    root or not on the denylist; it is run with the request that was sent and the mount
    namespace of the settings, in a child that exits on errors and has told the client so. *)
Theorem root_shell_allowed {D : Type} `{SettingsDb D} check emu (db : D) deny fork status c pid stream ops p req mnt :
  su_connection check emu db deny fork status c pid stream = Ok ops → ExecRootShell p req mnt ∈ ops →
  (∃ uid, cred c = Some uid ∧ (uid = 0 ∨ deny uid = false) ∧
     (uid = 0 ∨ peer_context c = bs "u:r:zygote:s0" ∨ is_client check c = true)) ∧
  sent_code c = Some SUPERUSER ∧ fork = 0 ∧ (∃ rest, decode stream = Ok (req, rest)) ∧
  p = default (-1) pid ∧ mnt = get_db_setting emu db SuMntNs ∧
  ops = [ForkShell; ExitOnError; SendCode 0; ExecRootShell p req mnt].
Proof.
  unfold su_connection. destruct (handle_requests check c) as [| | | | |code|] eqn:Eh; try set_solver.
  destruct (cred c) as [uid|] eqn:Ec; [|set_solver].
  destruct (Z.eqb_spec code SUPERUSER) as [->|]; [|set_solver].
  destruct (served_superuser check c Eh) as (uid' & Eu & Hs & Hw). rewrite Ec in Eu. injection Eu as <-.
  unfold su_daemon_handler.
  destruct (decode stream) as [[r rest]|e| |]; [|set_solver|done|done].
  destruct (root_allowed deny uid) eqn:Ea; cbn [negb]; [|set_solver].
  destruct (Z.eqb_spec fork 0) as [->|]; [|destruct (fork <? 0); set_solver].
  intros [= <-] Hin. assert (ExecRootShell p req mnt = ExecRootShell (default (-1) pid) r (get_db_setting emu db SuMntNs))
    as [= -> -> ->] by set_solver.
  apply root_allowed_iff in Ea. split; [by exists uid|]. split; [done|]. split; [done|]. split; [by exists rest|done].
Qed.

#[local] Instance no_settings : SettingsDb unit := { db_rows _ _ := ([], 0); db_insert d _ _ := (d, 0) }.

Lemma root_shell_allowed_witness :
  let c := mkClient (Some 10057) (bs "u:r:untrusted_app:s0") true (Some SUPERUSER) true in
  (∃ uid, cred c = Some uid ∧ (uid = 0 ∨ (uid =? 10058) = false) ∧
     (uid = 0 ∨ peer_context c = bs "u:r:zygote:s0" ∨ is_client true c = true)) ∧
  sent_code c = Some SUPERUSER ∧ 0 = 0 ∧ (∃ rest, decode (encode default_request) = Ok (default_request, rest)) ∧
  77 = default (-1) (Some 77) ∧ 1 = get_db_setting false tt SuMntNs ∧
  [ForkShell; ExitOnError; SendCode 0; ExecRootShell 77 default_request 1] =
  [ForkShell; ExitOnError; SendCode 0; ExecRootShell 77 default_request 1].
Proof.
  apply (root_shell_allowed true false tt (λ uid, uid =? 10058) 0 None
    (mkClient (Some 10057) (bs "u:r:untrusted_app:s0") true (Some SUPERUSER) true) (Some 77)
    (encode default_request)); [vm_compute; reflexivity|do 3 right; left].
Defined.

(** An app that is denied, or that sent nothing readable, is told so, and nothing is run. *)
Lemma denied_is_told {D : Type} `{SettingsDb D} emu (db : D) deny fork status uid pid stream :
  uid ≠ 0 → deny uid = true → (∃ x, decode (A:=SuRequest) stream = Ok x) ∨ decode (A:=SuRequest) stream = Err tt →
  su_daemon_handler emu db deny fork status uid pid stream = Ok [SendCode Deny].
Proof.
  intros Hu Hd Hs. assert (root_allowed deny uid = false) as Ea.
  { destruct (root_allowed deny uid) eqn:E; [|done]. apply root_allowed_iff in E as [|]; congruence. }
  unfold su_daemon_handler. destruct Hs as [[[req rest] ->]| ->]; [|done]. by rewrite Ea.
Qed.

(** If the fork fails the client is never answered. *)
Lemma fork_failure_not_told {D : Type} `{SettingsDb D} emu (db : D) deny status uid pid req rest stream :
  decode stream = Ok (req, rest) → root_allowed deny uid = true →
  su_daemon_handler emu db deny (-1) status uid pid stream = Ok [ForkShell].
Proof. intros Hs Ha. unfold su_daemon_handler. by rewrite Hs, Ha. Qed.

Example manager_path : get_package_uid (λ p, if bool_decide (p = bs "/data/user_de/10/pro.magisk") then Some 1010123 else None) 30 10 APP_PACKAGE_NAME = 1010123.
Proof. vm_compute. reflexivity. Qed.
