(* ===== verification/Pts.v ===== *)
(** Pts: the terminal of an interactive root shell, [native/src/core/su/pts.rs].

    [magisk su] moves bytes between its own terminal and the master of the shell's
    pseudo-terminal.  The state is what waits on each side, what has arrived, the pipe
    [splice] goes through, and the settings and the size of the terminals; [printed] and
    [typed] are all that the shell and the user ever sent.  [env] decides which calls
    succeed and [count] how many bytes one moves.  A round is what happens until [poll]
    returns; after the last one [poll] fails. *)

From S2P Require Import Prelude Io Sys.

Inductive Fd : Type := Ptmx | Winch | Stdin.
Inductive Port : Type := FromStdin | FromPtmx | FromPipe | ToStdout | ToPtmx | ToPipe.
Inductive SetArg : Type := TCSAFLUSH | TCSADRAIN.

(** [others] is all but the output flags. *)
Record Termios := mkTermios { output_flags : Z; others : bytes }.

Inductive Op : Type :=
  | GetWinsize | SetWinsize | TcGetAttr | TcSetAttr (how : SetArg)
  | Splice (src dst : Port) (len : Z) | Read (src : Port) (len : Z) | WriteAll (dst : Port)
  | BlockWinch | SignalFd | Pipe2 | Poll | ReadSignal | RaiseWinch.

Record World := mkWorld {
  stdin : bytes; stdout : bytes;
  from_shell : bytes; to_shell : bytes;
  pipe : bytes;
  typed : bytes; printed : bytes;
  should_use_splice : bool;
  term : Termios;
  tty_size : Z * Z; pty_size : Z * Z }.

Definition waiting (p : Port) (w : World) : bytes :=
  match p with
  | FromStdin => stdin w
  | FromPtmx => from_shell w
  | FromPipe => pipe w
  | ToStdout => stdout w
  | ToPtmx => to_shell w
  | ToPipe => pipe w
  end.

Definition set_port (p : Port) (s : bytes) (w : World) : World :=
  let '(mkWorld i o f t q ty pr u tm a b) := w in
  match p with
  | FromStdin => mkWorld s o f t q ty pr u tm a b
  | FromPtmx => mkWorld i o s t q ty pr u tm a b
  | FromPipe | ToPipe => mkWorld i o f t s ty pr u tm a b
  | ToStdout => mkWorld i s f t q ty pr u tm a b
  | ToPtmx => mkWorld i o f s q ty pr u tm a b
  end.

Definition drop_port (p : Port) (n : Z) (w : World) : World := set_port p (drop (Z.to_nat n) (waiting p w)) w.
Definition write_port (p : Port) (s : bytes) (w : World) : World := set_port p (waiting p w ++ s) w.

Definition set_splice (u : bool) (w : World) : World :=
  let '(mkWorld i o f t q ty pr _ tm a b) := w in mkWorld i o f t q ty pr u tm a b.
Definition set_term (tm : Termios) (w : World) : World :=
  let '(mkWorld i o f t q ty pr u _ a b) := w in mkWorld i o f t q ty pr u tm a b.
Definition set_pipe (q : bytes) (w : World) : World := set_port ToPipe q w.
Definition copy_size (w : World) : World :=
  let '(mkWorld i o f t q ty pr u tm a _) := w in mkWorld i o f t q ty pr u tm a a.

(** What arrives on the two sides before [poll] returns, the size of the window by then,
    and the events reported for a descriptor ([None] for flags unknown to the library). *)
Record Round := mkRound {
  types : bytes; prints : bytes; resized : option (Z * Z); revents : World → Fd → option Z }.

Definition arrive (r : Round) (w : World) : World :=
  let '(mkWorld i o f t q ty pr u tm a b) := w in
  mkWorld (i ++ types r) o (f ++ prints r) t q (ty ++ types r) (pr ++ prints r) u tm
    (default a (resized r)) b.

Definition POLLIN : Z := 1.
Definition POLLERR : Z := 8.
Definition POLLHUP : Z := 16.
Definition POLLNVAL : Z := 32.
Definition stop_flags : Z := Z.lor (Z.lor POLLERR POLLHUP) POLLNVAL.

Definition all (ev : option Z) : bool :=
  match ev with Some f => Z.land f POLLIN =? POLLIN | None => false end.
Definition stops (ev : option Z) : bool :=
  negb (Z.land (default POLLHUP ev) stop_flags =? 0).

Section Pts.
Context (env : Env Op) (count : list Op → Op → Z) (cfmakeraw : Termios → Termios).
Abbreviation P := (Sys World Op).

(** [-1] if it fails. *)
Definition get_pty_num (num : option Z) : Z := default (-1) num.

Definition sync_winsize : P unit :=
  got ← (test env GetWinsize : P bool);
  if (got : bool) then ok_ (do_ env SetWinsize copy_size (λ w, w)) else mret tt.

(** How many bytes a call moves: some, at most as many as asked for and as there are. *)
Definition moved (o : Op) (len : Z) (src : Port) (w : World) (h : list Op) : Z :=
  Z.min (Z.max 0 (count h o)) (Z.min len (Z.of_nat (length (waiting src w)))).

Definition splice (src dst : Port) (len : Z) : P Z := λ w h,
  let o := Splice src dst len in
  if env h o then
    let k := moved o len src w h in
    (write_port dst (take (Z.to_nat k) (waiting src w)) (drop_port src k w), h ++ [o], Ok k)
  else (w, h ++ [o], Err tt).

Definition read_fd (src : Port) (len : Z) : P bytes := λ w h,
  let o := Read src len in
  if env h o then
    let k := moved o len src w h in
    (drop_port src k w, h ++ [o], Ok (take (Z.to_nat k) (waiting src w)))
  else (w, h ++ [o], Err tt).

(** [write_all] writes everything, or fails after a part of it. *)
Definition write_out (dst : Port) (s : bytes) : P unit := λ w h,
  let o := WriteAll dst in
  if env h o then (write_port dst s w, h ++ [o], Ok tt)
  else (write_port dst (take (Z.to_nat (count h o)) s) w, h ++ [o], Err tt).

Definition pump_via_copy (fd_in fd_out : Port) : P unit :=
  buf ← read_fd fd_in 4096;
  write_out fd_out buf.

Definition pump_via_splice (fd_in fd_out : Port) : P unit :=
  use ← Sys.read should_use_splice;
  if negb use then pump_via_copy fd_in fd_out
  else
    r ← try_ (splice fd_in ToPipe 65536);
    match r with
    | None => _ ← modify (set_splice false); pump_via_copy fd_in fd_out
    | Some len =>
        if len =? 0 then mret tt
        else
          r ← try_ (splice FromPipe fd_out len);
          match r with
          | None => _ ← modify (set_splice false); pump_via_copy FromPipe fd_out
          | Some _ => mret tt
          end
    end.

(** [tcsetattr], flushing or else draining. *)
Definition set_attr (tm : Termios) : P unit :=
  flushed ← is_ok_ (do_ env (TcSetAttr TCSAFLUSH) (set_term tm) (λ w, w));
  if (flushed : bool) then mret tt else do_ env (TcSetAttr TCSADRAIN) (set_term tm) (λ w, w).

Definition set_stdin_raw : P Termios :=
  _ ← ask env TcGetAttr;
  old_term ← Sys.read term;
  let raw := cfmakeraw old_term in
  let raw := mkTermios (output_flags old_term) (others raw) in
  _ ← set_attr raw;
  mret old_term.

Definition restore_stdin (tm : Termios) : P unit := set_attr tm.

(** One descriptor of the poll loop: whether the loop is left. *)
Definition visit (r : Round) (ready : World) (fd : Fd) : P bool :=
  let ev := revents r ready fd in
  if all ev then
    _ ← match fd with
        | Stdin => pump_via_splice FromStdin ToPtmx
        | Ptmx => pump_via_splice FromPtmx ToStdout
        | Winch => _ ← sync_winsize; ask env ReadSignal
        end;
    mret false
  else mret (stops ev).

Fixpoint visit_all (r : Round) (ready : World) (fds : list Fd) : P bool :=
  match fds with
  | [] => mret false
  | fd :: fds =>
      stop ← visit r ready fd;
      if (stop : bool) then mret true else visit_all r ready fds
  end.

Fixpoint poll_loop (fds : list Fd) (rounds : list Round) : P unit :=
  match rounds with
  | [] => throw
  | r :: rounds =>
      _ ← do_ env Poll (arrive r) (λ w, w);
      ready ← Sys.read (λ w, w);
      stop ← visit_all r ready fds;
      if (stop : bool) then mret tt else poll_loop fds rounds
  end.

Definition pump_tty_impl (pump_stdin : bool) (rounds : list Round) : P unit :=
  _ ← (if pump_stdin then _ ← ask env BlockWinch; ask env SignalFd else mret tt);
  let poll_fds := if pump_stdin then [Ptmx; Winch; Stdin] else [Ptmx] in
  _ ← do_ env Pipe2 (set_pipe []) (λ w, w);
  poll_loop poll_fds rounds.

Definition pump_tty (pump_stdin : bool) (rounds : list Round) : P unit :=
  old_term ← (if pump_stdin then _ ← sync_winsize; try_ set_stdin_raw else mret None);
  _ ← ok_ (pump_tty_impl pump_stdin rounds);
  _ ← match old_term with Some tm => ok_ (restore_stdin tm) | None => mret tt end;
  ok_ (ask env RaiseWinch).
End Pts.

(** ** What a pump moves *)

(** The streams a pump joins: what the user types goes to the shell, what the shell prints
    to the output. *)
Inductive Joined : Port → Port → Prop :=
  | joined_in : Joined FromStdin ToPtmx
  | joined_out : Joined FromPtmx ToStdout.

(** [k] bytes are taken from [a], and the first [j] of them get to [b]. *)
Definition moves (a b : Port) (j k : nat) (w w' : World) : Prop :=
  (j ≤ k ≤ length (waiting a w))%nat ∧
  ∃ u, w' = set_splice u (write_port b (take j (waiting a w)) (set_port a (drop k (waiting a w)) w)).

(** What was sent is at the other end or waits at this one, in order. *)
Definition Kept (w : World) : Prop :=
  printed w = stdout w ++ from_shell w ∧ typed w = to_shell w ++ stdin w ∧ pipe w = [].

(** What arrived is the beginning of what was sent. *)
Definition Faithful (w : World) : Prop :=
  stdout w `prefix_of` printed w ∧ to_shell w `prefix_of` typed w.

Lemma kept_faithful w : Kept w → Faithful w.
Proof. intros (Hp & Ht & _). by split; eexists. Qed.

Lemma kept_arrive r w : Kept w → Kept (arrive r w).
Proof. destruct w. intros (Hp & Ht & Hq). cbn in *. subst. unfold Kept. cbn. by rewrite !app_assoc. Qed.

Lemma kept_term tm w : Kept (set_term tm w) ↔ Kept w.
Proof. by destruct w. Qed.

Lemma kept_size w : Kept (copy_size w) ↔ Kept w.
Proof. by destruct w. Qed.

Lemma moves_kept a b k w w' : Joined a b → moves a b k k w w' → Kept w → Kept w'.
Proof.
  intros Hab [_ [u ->]]. destruct w as [i o f t q ty pr u0 tm x y]. intros (Hp & Ht & Hq). cbn in *. subst.
  destruct Hab; unfold Kept; cbn; by rewrite <- app_assoc, take_drop.
Qed.

Lemma moves_faithful a b j k w w' : Joined a b → moves a b j k w w' → Kept w → Faithful w'.
Proof.
  intros Hab [_ [u ->]]. destruct w as [i o f t q ty pr u0 tm x y]. intros (Hp & Ht & Hq). cbn in *. subst.
  assert (Ht : ∀ s x : bytes, (s ++ take j x) `prefix_of` (s ++ x)).
  { intros s x'. exists (drop j x'). by rewrite <- app_assoc, take_drop. }
  destruct Hab; unfold Faithful; cbn; split; try apply Ht; by eexists.
Qed.

Section Proofs.
Context (env : Env Op) (count : list Op → Op → Z) (cfmakeraw : Termios → Termios).

(** What [splice] put into the pipe it also gets out. *)
Definition pipe_drains : Prop := ∀ h dst len,
  env h (Splice FromPipe dst len) = true ∧ len ≤ count h (Splice FromPipe dst len).

Definition writes_succeed : Prop := ∀ h dst, env h (WriteAll dst) = true.

Lemma moved_bounds o len src w h : 0 ≤ len →
  0 ≤ moved count o len src w h ≤ Z.of_nat (length (waiting src w)) ∧ moved count o len src w h ≤ len.
Proof. unfold moved. lia. Qed.

(** A copy: what is read is written, or some of it if the write fails. *)
Lemma copy_moves a b w (E : World → Prop) : Joined a b →
  (∀ j k w', moves a b j k w w' → (writes_succeed → j = k) → ¬ all_succeed env → E w') →
  wp (pump_via_copy env count a b) (λ _ w', ∃ k, moves a b k k w w' ∧
     ((∀ h, 1 ≤ count h (Read a 4096)) → waiting a w ≠ [] → (0 < k)%nat)) E w.
Proof.
  intros Hab HE h. unfold pump_via_copy, mbind, sys_bind, read_fd.
  destruct (env h (Read a 4096)) eqn:Er; [|].
  - set (k := moved count (Read a 4096) 4096 a w h).
    assert (Hk := moved_bounds (Read a 4096) 4096 a w h). fold k in Hk.
    unfold write_out. destruct (env _ (WriteAll b)) eqn:Ew.
    + exists (Z.to_nat k). split.
      * split; [lia|]. exists (should_use_splice w). by destruct w, Hab.
      * intros Hc Hne. specialize (Hc h). destruct (waiting a w) eqn:Ea; [done|].
        subst k. unfold moved. rewrite Ea. cbn [length]. lia.
    + apply (HE (Nat.min (Z.to_nat (count (h ++ [Read a 4096]) (WriteAll b))) (Z.to_nat k)) (Z.to_nat k)).
      * split; [lia|]. exists (should_use_splice w). rewrite take_take. by destruct w, Hab.
      * intros Hw. by rewrite Hw in Ew.
      * intros Ha. by rewrite Ha in Ew.
  - apply (HE 0%nat 0%nat); [|done|by intros Ha; rewrite Ha in Er]. split; [lia|]. exists (should_use_splice w).
    by destruct w, Hab; cbn; rewrite app_nil_r.
Qed.

Lemma moves_set_splice a b j k u w w' : moves a b j k (set_splice u w) w' → moves a b j k w w'.
Proof. destruct w. intros [Hk [u' ->]]. split; [by destruct a|]. exists u'. by destruct a, b. Qed.

(** A call that finds bytes waiting moves at least one. *)
Definition progress (a : Port) : Prop := ∀ h,
  1 ≤ count h (Read a 4096) ∧ 1 ≤ count h (Splice a ToPipe 65536).

Lemma pump_moves a b w (E : World → Prop) : pipe_drains → Joined a b → pipe w = [] →
  (∀ j k w', moves a b j k w w' → (writes_succeed → j = k) → ¬ all_succeed env → E w') →
  wp (pump_via_splice env count a b) (λ _ w', ∃ k, moves a b k k w w' ∧
     (progress a → waiting a w ≠ [] → (0 < k)%nat)) E w.
Proof.
  intros Hd Hab Hq HE. unfold pump_via_splice. apply wp_bind, wp_read.
  assert (Hcopy : ∀ u, wp (pump_via_copy env count a b) (λ _ w', ∃ k, moves a b k k w w' ∧
     (progress a → waiting a w ≠ [] → (0 < k)%nat)) E (set_splice u w)).
  { intros u. eapply wp_mono; [eapply (copy_moves a b _ E Hab)| |done].
    - intros j k w' Hm. eapply HE, moves_set_splice, Hm.
    - intros _ w' (k & Hm & Hk). exists k. split; [by eapply moves_set_splice|].
      intros Hp Hne. apply Hk; [intros h; apply Hp|]. by destruct w, Hab. }
  destruct (should_use_splice w) eqn:Eu; cbn [negb]; [|specialize (Hcopy false); by destruct w; cbn in *; subst].
  assert (Hb := λ h, moved_bounds (Splice a ToPipe 65536) 65536 a w h).
  intros h. unfold mbind, sys_bind, try_ at 1. unfold splice at 1.
  destruct (env h (Splice a ToPipe 65536)); [|apply (wp_bind (modify (set_splice false)) _ _ _ _ (wp_modify _ _ _ _ (Hcopy false)))].
  specialize (Hb h). set (k := moved count _ 65536 a w h) in *.
  destruct (Z.eqb_spec k 0) as [Ek|Ek].
  { exists 0%nat. split; [split; [lia|]|].
    - exists true. rewrite Ek. destruct w, Hab; cbn in *; subst; by rewrite !app_nil_r.
    - intros Hp Hne. specialize (Hp h). destruct (waiting a w) eqn:Ea; [done|].
      subst k. unfold moved in Ek. rewrite Ea in Ek. cbn [length] in Ek. lia. }
  cbn [mbind sys_bind]. unfold try_, splice.
  destruct (Hd (h ++ [Splice a ToPipe 65536]) b k) as [-> Hc].
  exists (Z.to_nat k). split; [|lia]. split; [lia|]. exists true.
  set (w1 := write_port ToPipe _ _).
  assert (E1 : waiting FromPipe w1 = take (Z.to_nat k) (waiting a w)).
  { by destruct w, Hab; cbn in *; subst. }
  assert (Em : moved count (Splice FromPipe b k) k FromPipe w1 (h ++ [Splice a ToPipe 65536]) = k).
  { unfold moved. rewrite E1, length_take. lia. }
  rewrite Em, E1, (take_ge (take _ _)) by (rewrite length_take; lia).
  unfold drop_port at 1. rewrite E1, (drop_ge (take _ _)) by (rewrite length_take; lia).
  destruct w, Hab; cbn in *; subst; done.
Qed.

(** When a program gives up: what arrived is right, and unless a write failed nothing is lost. *)
Definition Stopped (w : World) : Prop := Faithful w ∧ (writes_succeed → Kept w).

Lemma kept_stopped w : Kept w → Stopped w.
Proof. intros H. by split; [apply kept_faithful|]. Qed.

Lemma pump_kept a b w : pipe_drains → Joined a b → Kept w →
  wp (pump_via_splice env count a b) (λ _ w', Kept w' ∧ ∃ k, moves a b k k w w' ∧
     (progress a → waiting a w ≠ [] → (0 < k)%nat)) (λ w', ¬ all_succeed env ∧ Stopped w') w.
Proof.
  intros Hd Hab Hk. eapply (wp_mono _ _ _ (λ w', ¬ all_succeed env ∧ Stopped w'));
    [apply pump_moves; [done|done|by destruct Hk as (_ & _ & ?)|]| |done].
  - intros j k w' Hm Hj Ha. split; [done|]. split; [by eapply moves_faithful|]. intros Hw. rewrite (Hj Hw) in Hm.
    by eapply moves_kept.
  - intros _ w' (k & Hm & Hp). split; [by eapply moves_kept|]. by exists k.
Qed.

Lemma winsize_kept (E : World → Prop) w (Q : World → Prop) : Q w → Q (copy_size w) →
  wp (sync_winsize env) (λ _, Q) E w.
Proof.
  intros H1 H2. unfold sync_winsize. apply wp_bind, wp_test. intros [].
  - apply wp_ok, wp_do; [done|]. by intros _.
  - by apply wp_ret.
Qed.

Lemma visit_kept r ready fd w : pipe_drains → Kept w →
  wp (visit env count r ready fd) (λ _, Kept) Stopped w.
Proof.
  intros Hd Hk. unfold visit. destruct (all _); [|by apply wp_ret].
  apply wp_bind. eapply (wp_mono _ (λ _, Kept)); [| |done]; [|intros [] w' ?; by apply wp_ret].
  destruct fd.
  - eapply wp_mono; [by apply pump_kept; [|constructor|]|by intros _ w' []|by intros w' []].
  - apply wp_bind, winsize_kept; [|apply (proj2 (kept_size w)) in Hk; revert Hk; generalize (copy_size w)];
      [|intros w' Hk']; (apply wp_ask; [done|]; intros _; by apply kept_stopped).
  - eapply wp_mono; [by apply pump_kept; [|constructor|]|by intros _ w' []|by intros w' []].
Qed.

Lemma visit_all_kept r ready fds w : pipe_drains → Kept w →
  wp (visit_all env count r ready fds) (λ _, Kept) Stopped w.
Proof.
  intros Hd. revert w. induction fds as [|fd fds IH]; intros w Hk; cbn [visit_all]; [by apply wp_ret|].
  apply wp_bind. eapply wp_mono; [by apply visit_kept| |done]. intros [] w' Hk'; [by apply wp_ret|by apply IH].
Qed.

Lemma loop_kept fds rounds w : pipe_drains → Kept w →
  wp (poll_loop env count fds rounds) (λ _, Kept) Stopped w.
Proof.
  intros Hd. revert w. induction rounds as [|r rounds IH]; intros w Hk; cbn [poll_loop].
  - by apply wp_throw, kept_stopped.
  - apply wp_bind, wp_do; [|intros _; by apply kept_stopped]. apply wp_bind, wp_read, wp_bind.
    eapply wp_mono; [apply visit_all_kept; [done|by apply kept_arrive]| |done].
    intros [] w' Hk'; [by apply wp_ret|by apply IH].
Qed.

Lemma attr_wp tm w (Q : World → Prop) : Q w → Q (set_term tm w) →
  wp (set_attr env tm) (λ _, Q) Q w.
Proof.
  intros H1 H2. unfold set_attr. apply wp_bind, wp_is_ok, wp_do.
  - by apply wp_ret.
  - intros _. cbn. by apply wp_do.
Qed.

(** C9: as long as the pipe drains, the bytes the user typed reach the shell and those the
    shell printed reach the output in order and unchanged, in any sequence of rounds, whether
    or not [splice] works; what has not arrived still waits at its source, unless a write failed. *)
Theorem terminal_in_order pump_stdin rounds w h : pipe_drains → Kept w →
  let w' := state (pump_tty env count cfmakeraw pump_stdin rounds w h) in
  result (pump_tty env count cfmakeraw pump_stdin rounds w h) = Ok tt ∧
  Faithful w' ∧ (writes_succeed → Kept w').
Proof.
  intros Hd Hk. assert (H : wp (pump_tty env count cfmakeraw pump_stdin rounds) (λ _, Stopped) (λ _, False) w).
  { unfold pump_tty. apply wp_bind.
    apply (wp_mono _ (λ _, Kept) _ (λ _, False)); [destruct pump_stdin| |done].
    - apply wp_bind. eapply wp_mono; [apply (winsize_kept (λ _, False) w Kept Hk); by apply kept_size| |done].
      intros [] w1 Hk1. apply wp_try. unfold set_stdin_raw. apply wp_bind, wp_ask; [|done].
      apply wp_bind, wp_read, wp_bind. eapply wp_mono; [apply attr_wp; [exact Hk1|by apply kept_term]| |done].
      intros [] w2 Hk2. by apply wp_ret.
    - by apply wp_ret.
    - intros old w1 Hk1. apply wp_bind, wp_ok.
      assert (Hr : ∀ w2, Stopped w2 → wp (_ ← match old with Some tm => ok_ (restore_stdin env tm) | None => mret tt end;
        ok_ (ask env RaiseWinch)) (λ _, Stopped) (λ _, False) w2).
      { intros w2 H2. apply wp_bind. apply (wp_mono _ (λ _, Stopped) _ (λ _, False)); [destruct old as [tm|]| |done].
        - apply wp_ok. apply attr_wp; [done|]. by destruct w2.
        - by apply wp_ret.
        - intros [] w3 H3. by apply wp_ok, wp_ask. }
      apply (wp_mono _ (λ _, Kept) _ Stopped); [|by intros [] w2 ?; apply Hr, kept_stopped|exact Hr].
      unfold pump_tty_impl. apply wp_bind. apply (wp_mono _ (λ _, Kept) _ Stopped); [destruct pump_stdin| |done].
      + apply wp_bind, wp_ask; [apply wp_ask; [done|]|]; intros _; by apply kept_stopped.
      + by apply wp_ret.
      + intros [] w2 Hk2. apply wp_bind, wp_do.
        * apply loop_kept; [done|]. destruct w2. by destruct Hk2 as (? & ? & ?).
        * intros _. by apply kept_stopped. }
  apply (wp_run _ _ _ _ h) in H. destruct (result _) as [[]| | |]; [|done..]. by destruct H.
Qed.

(** ** The end of a session *)

(** The master reports what there is to read, and nothing else ends the loop. *)
Definition reports (r : Round) : Prop := ∀ w,
  (from_shell w ≠ [] → all (revents r w Ptmx) = true) ∧
  stops (revents r w Winch) = false ∧ stops (revents r w Stdin) = false.

(** The shell has gone: it prints no more, and the master hangs up once it is read empty. *)
Definition hung_up (r : Round) : Prop := prints r = [] ∧ ∀ w, from_shell w = [] →
  all (revents r w Ptmx) = false ∧ stops (revents r w Ptmx) = true.

(** What [n] rounds after its start a session still has to read at most. *)
Definition left_to_print (w : World) (rounds : list Round) : nat :=
  (length (from_shell w) + length (concat (map prints rounds)))%nat.

Lemma moves_in_shell k w w' : moves FromStdin ToPtmx k k w w' → from_shell w' = from_shell w.
Proof. destruct w. by intros [_ [u ->]]. Qed.

Lemma moves_out_shell k w w' : moves FromPtmx ToStdout k k w w' → from_shell w' = drop k (from_shell w).
Proof. destruct w. by intros [_ [u ->]]. Qed.

(** A visit when every call succeeds. *)
Lemma visit_shell r ready fd w : all_succeed env → pipe_drains → Kept w → fd ≠ Ptmx → reports r →
  wp (visit env count r ready fd) (λ stop w', stop = false ∧ Kept w' ∧ from_shell w' = from_shell w)
    (λ _, False) w.
Proof.
  intros He Hd Hk Hfd Hr. destruct (Hr ready) as (_ & Hw & Hs). unfold visit.
  assert (Hpost : ∀ (Q : unit → World → Prop), (∀ w', Q tt w' → Kept w' ∧ from_shell w' = from_shell w) →
    ∀ w', Q tt w' → wp (mret (M:=Sys World Op) false)
      (λ stop w', stop = false ∧ Kept w' ∧ from_shell w' = from_shell w) (λ _, False) w').
  { intros Q HQ w' H. apply wp_ret. split; [done|by apply HQ]. }
  destruct (all _) eqn:Ea; [|apply wp_ret; by destruct fd].
  apply wp_bind. destruct fd; [done| |].
  - apply wp_bind, winsize_kept; (apply wp_ask_ok; [done|]; apply wp_ret; split; [done|]);
      [done|split; [by apply kept_size|by destruct w]].
  - eapply wp_mono; [by apply pump_kept; [|constructor|]| |by intros w' []].
    intros [] w' [Hk' (k & Hm & _)]. apply wp_ret. split; [done|]. split; [done|by eapply moves_in_shell].
Qed.

Lemma visit_all_shell r ready fds w : all_succeed env → pipe_drains → Kept w → Ptmx ∉ fds → reports r →
  wp (visit_all env count r ready fds)
    (λ stop w', stop = false ∧ Kept w' ∧ from_shell w' = from_shell w) (λ _, False) w.
Proof.
  intros He Hd Hk Hn Hr. revert w Hk. induction fds as [|fd fds IH]; intros w Hk; cbn [visit_all].
  - by apply wp_ret.
  - apply not_elem_of_cons in Hn as [Hn1 Hn2]. apply wp_bind.
    eapply wp_mono; [by apply visit_shell| |done]. intros ? w1 (-> & Hk1 & E1).
    rewrite <- E1. by apply IH.
Qed.

(** One round: the loop is left once the shell has hung up and nothing is left to read;
    otherwise what was left to read gets shorter. *)
Lemma round_shell r fds w : all_succeed env → pipe_drains → progress FromPtmx → Kept w → Ptmx ∉ fds → reports r →
  wp (visit_all env count r w (Ptmx :: fds)) (λ stop w', Kept w' ∧
      (from_shell w ≠ [] → (length (from_shell w') < length (from_shell w))%nat) ∧
      (from_shell w = [] → from_shell w' = []) ∧
      (stop = true → from_shell w' = []) ∧ (hung_up r → from_shell w = [] → stop = true))
    (λ _, False) w.
Proof.
  intros He Hd Hp Hk Hn Hr. destruct (Hr w) as (Hread & _). cbn [visit_all]. apply wp_bind. unfold visit.
  destruct (all (revents r w Ptmx)) eqn:Ea.
  - apply wp_bind. eapply wp_mono; [by apply pump_kept; [|constructor|]| |by intros w' []].
    intros [] w1 [Hk1 (k & Hm & Hpos)]. pose proof (proj1 Hm) as Hle. apply moves_out_shell in Hm. cbn in Hpos, Hle.
    apply wp_ret. eapply wp_mono; [by apply visit_all_shell| |done].
    intros ? w2 (-> & Hk2 & E2). rewrite E2, Hm, length_drop. split; [done|]. split; [|split; [|split]].
    + intros Hne. specialize (Hpos Hp Hne). lia.
    + intros ->. by rewrite drop_nil.
    + done.
    + intros [_ Hh] E. specialize (Hh w E). destruct Hh. congruence.
  - assert (E : from_shell w = []). { destruct (decide (from_shell w = [])) as [|Hne]; [done|]. apply Hread in Hne. congruence. }
    apply wp_ret. destruct (stops _) eqn:Es.
    + apply wp_ret. by rewrite E.
    + eapply wp_mono; [by apply visit_all_shell| |done]. intros ? w2 (-> & Hk2 & E2).
      rewrite E2, E. split; [done|]. do 3 (split; [done|]). intros [_ Hh] _. specialize (Hh w E). destruct Hh. congruence.
Qed.

Lemma shell_arrive r w : from_shell (arrive r w) = from_shell w ++ prints r.
Proof. by destruct w. Qed.

Lemma loop_drains fds rounds quiet w : all_succeed env → pipe_drains → progress FromPtmx → Kept w → Ptmx ∉ fds →
  Forall reports (rounds ++ quiet) → Forall hung_up quiet →
  (length (from_shell w) + length (concat (map prints rounds)) < length quiet)%nat →
  wp (poll_loop env count (Ptmx :: fds) (rounds ++ quiet)) (λ _ w', Kept w' ∧ from_shell w' = []) (λ _, False) w.
Proof.
  intros He Hd Hp Hk Hn Hr Hq Hlen. remember (rounds ++ quiet) as rs eqn:Ers.
  revert rounds quiet w Ers Hk Hr Hq Hlen.
  induction rs as [|r rs IH]; intros rounds quiet w Ers Hk Hr Hq Hlen.
  { symmetry in Ers. apply app_eq_nil in Ers as [-> ->]. cbn in Hlen. lia. }
  inversion Hr as [|? ? Hr1 Hr2]; subst. cbn [poll_loop].
  apply wp_bind, wp_do_ok; [done|]. apply wp_bind, wp_read, wp_bind.
  eapply wp_mono; [apply round_shell; try done; by apply kept_arrive| |done].
  intros stop w1 (Hk1 & Hlt & Hnil & Hst & Hhu). rewrite shell_arrive in *.
  destruct stop; [apply wp_ret; by split; [|apply Hst]|].
  destruct rounds as [|r' rounds]; cbn [app] in Ers.
  - subst quiet. inversion Hq as [|? ? Hh Hq2]; subst. rewrite (proj1 Hh), app_nil_r in *.
    apply (IH [] rs); [done..|]. cbn in *. destruct (from_shell w) as [|b s] eqn:Es.
    + by specialize (Hhu Hh eq_refl).
    + specialize (Hlt ltac:(done)). cbn in *. lia.
  - injection Ers as <- Ers. apply (IH rounds quiet); [done..|]. cbn [map concat] in Hlen. rewrite length_app in Hlen.
    destruct (decide (from_shell w ++ prints r = [])) as [E|E].
    + rewrite (Hnil E). cbn. apply app_eq_nil in E as [E1 E2]. rewrite E1, E2 in Hlen. cbn in Hlen. lia.
    + specialize (Hlt E). rewrite length_app in Hlt. lia.
Qed.


(** ** The settings of the terminal *)

(** [m] leaves the settings alone and ends in a value or an error. *)
Definition keeps_term {A} (m : Sys World Op A) : Prop := ∀ w h,
  term (state (m w h)) = term w ∧ match result (m w h) with Ok _ | Err _ => True | _ => False end.

Lemma keeps_ret {A} (a : A) : keeps_term (mret a).
Proof. by intros w h. Qed.

Lemma keeps_read {A} (f : World → A) : keeps_term (Sys.read f).
Proof. by intros w h. Qed.

Lemma keeps_bind {A B} (m : Sys World Op A) (k : A → Sys World Op B) :
  keeps_term m → (∀ a, keeps_term (k a)) → keeps_term (mbind k m).
Proof.
  intros Hm Hk w h. destruct (Hm w h) as [E R]. unfold mbind, sys_bind.
  destruct (m w h) as [[w' h'] [a| | |]]; [|done..]. cbn in E. rewrite <- E. apply Hk.
Qed.

Lemma keeps_do o f g : (∀ w, term (f w) = term w) → (∀ w, term (g w) = term w) → keeps_term (do_ env o f g).
Proof. intros Hf Hg w h. unfold do_. destruct (env h o); cbn; by rewrite ?Hf, ?Hg. Qed.

Lemma keeps_ask o : keeps_term (ask env o).
Proof. by apply keeps_do. Qed.

Lemma keeps_ok {A} (m : Sys World Op A) : keeps_term m → keeps_term (ok_ m).
Proof. intros H w h. destruct (H w h). unfold ok_. by destruct (m w h) as [[w' h'] [a| | |]]. Qed.

Lemma keeps_try {A} (m : Sys World Op A) : keeps_term m → keeps_term (try_ m).
Proof. intros H w h. destruct (H w h). unfold try_. by destruct (m w h) as [[w' h'] [a| | |]]. Qed.

Lemma term_port p s w : term (set_port p s w) = term w.
Proof. by destruct w, p. Qed.

Lemma term_splice u w : term (set_splice u w) = term w.
Proof. by destruct w. Qed.

Lemma keeps_copy a b : keeps_term (pump_via_copy env count a b).
Proof.
  apply keeps_bind.
  - intros w h. unfold read_fd. destruct (env h _); [|done]. by split; [apply term_port|].
  - intros s w h. unfold write_out. by destruct (env h _); (split; [apply term_port|]).
Qed.

Lemma keeps_splice a b len : keeps_term (splice env count a b len).
Proof.
  intros w h. unfold splice. destruct (env h _); [|done]. split; [|done].
  cbn. unfold write_port, drop_port. by rewrite !term_port.
Qed.

Lemma keeps_pump a b : keeps_term (pump_via_splice env count a b).
Proof.
  assert (Hf : ∀ c, keeps_term (_ ← modify (set_splice false); pump_via_copy env count c b)).
  { intros c. apply keeps_bind; [|intros []; apply keeps_copy]. intros w h. by split; [apply term_splice|]. }
  apply keeps_bind; [apply keeps_read|]. intros []; cbn [negb]; [|apply keeps_copy].
  apply keeps_bind; [apply keeps_try, keeps_splice|]. intros [len|]; [|apply Hf].
  destruct (len =? 0); [apply keeps_ret|].
  apply keeps_bind; [apply keeps_try, keeps_splice|]. intros [?|]; [apply keeps_ret|apply Hf].
Qed.

Lemma keeps_winsize : keeps_term (sync_winsize env).
Proof.
  apply keeps_bind; [by intros w h|]. intros []; [|apply keeps_ret]. apply keeps_ok, keeps_do; [|done].
  by intros [].
Qed.

Lemma keeps_visit_all r ready fds : keeps_term (visit_all env count r ready fds).
Proof.
  induction fds as [|fd fds IH]; [apply keeps_ret|]. apply keeps_bind; [|intros []; [apply keeps_ret|exact IH]].
  unfold visit. destruct (all _); [|apply keeps_ret]. apply keeps_bind; [|intros []; apply keeps_ret].
  destruct fd; [apply keeps_pump| |apply keeps_pump].
  apply keeps_bind; [apply keeps_winsize|]. intros []. apply keeps_ask.
Qed.

Lemma keeps_impl pump_stdin rounds : keeps_term (pump_tty_impl env count pump_stdin rounds).
Proof.
  unfold pump_tty_impl. apply keeps_bind.
  { destruct pump_stdin; [|apply keeps_ret]. apply keeps_bind; [apply keeps_ask|intros []; apply keeps_ask]. }
  intros []. apply keeps_bind; [apply keeps_do; [intros w; apply term_port|done]|]. intros [].
  generalize (if pump_stdin then [Ptmx; Winch; Stdin] else [Ptmx]). intros fds.
  induction rounds as [|r rounds IH]; [by intros w h|]. cbn [poll_loop].
  apply keeps_bind; [apply keeps_do; [by intros []|done]|]. intros []. apply keeps_bind; [apply keeps_read|].
  intros ready. apply keeps_bind; [apply keeps_visit_all|]. intros []; [apply keeps_ret|exact IH].
Qed.

(** The attributes can be set in one of the two ways. *)
Definition settable : Prop := ∀ h,
  env h (TcSetAttr TCSAFLUSH) = true ∨ env (h ++ [TcSetAttr TCSAFLUSH]) (TcSetAttr TCSADRAIN) = true.

Lemma set_attr_sets tm w h : settable →
  ∃ h', set_attr env tm w h = (set_term tm w, h', Ok tt).
Proof.
  intros Hs. unfold set_attr, mbind, sys_bind, is_ok_, do_. destruct (Hs h) as [E|E].
  - rewrite E. by eexists.
  - destruct (env h _); [by eexists|]. rewrite E. by eexists.
Qed.

(** The settings the session remembers are those it found. *)
Lemma raw_remembers w h : settable →
  ∃ w' h' old, try_ (set_stdin_raw env cfmakeraw) w h = (w', h', Ok old) ∧
    match old with Some tm => tm = term w | None => term w' = term w end.
Proof.
  intros Hs. unfold try_, set_stdin_raw, mbind, sys_bind, ask, do_. destruct (env h TcGetAttr); [|by repeat eexists].
  cbn [Sys.read]. destruct (set_attr_sets (mkTermios (output_flags (term w)) (others (cfmakeraw (term w)))) w
    (h ++ [TcGetAttr]) Hs) as [h' E].
  unfold Sys.read. rewrite E. by repeat eexists.
Qed.

(** Whatever happens in between, the terminal is as it was when the session ends, if
    its attributes can be set in one of the two ways; [SIGWINCH] is raised last. *)
Theorem terminal_restored pump_stdin rounds w h : settable →
  let run := pump_tty env count cfmakeraw pump_stdin rounds w h in
  term (state run) = term w ∧ result run = Ok tt ∧ last (calls run) = Some RaiseWinch.
Proof.
  intros Hs.
  assert (H : ∃ w' h', pump_tty env count cfmakeraw pump_stdin rounds w h = (w', h' ++ [RaiseWinch], Ok tt)
    ∧ term w' = term w);
    [|destruct H as (w' & h' & -> & Ht); cbn; split; [done|split; [done|apply last_snoc]]].
  assert (H1 : ∃ w1 h1 old, (if pump_stdin then _ ← sync_winsize env; try_ (set_stdin_raw env cfmakeraw) else mret None) w h
    = (w1, h1, Ok old) ∧ match old with Some tm => tm = term w | None => term w1 = term w end).
  { destruct pump_stdin; [|by repeat eexists]. unfold mbind, sys_bind at 1.
    destruct (keeps_winsize w h) as [E R]. assert (Hr : result (sync_winsize env w h) = Ok tt).
    { unfold sync_winsize, mbind, sys_bind, test, ok_, do_. destruct (env h GetWinsize); [|done].
      by destruct (env _ SetWinsize). }
    destruct (sync_winsize env w h) as [[w' h'] o]. cbn in E, Hr. rewrite Hr, <- E. by apply raw_remembers. }
  destruct H1 as (w1 & h1 & old & E1 & Hold). unfold pump_tty. unfold mbind at 1, sys_bind at 1.
  rewrite E1. clear E1. unfold mbind at 1, sys_bind at 1.
  destruct (keeps_ok _ (keeps_impl pump_stdin rounds) w1 h1) as [E2 _].
  assert (R2 : result (ok_ (pump_tty_impl env count pump_stdin rounds) w1 h1) = Ok tt).
  { destruct (keeps_impl pump_stdin rounds w1 h1) as [_ R]. unfold ok_.
    by destruct (pump_tty_impl env count pump_stdin rounds w1 h1) as [[? ?] [[]| | |]]. }
  destruct (ok_ (pump_tty_impl env count pump_stdin rounds) w1 h1) as [[w2 h2] o2]. cbn in E2, R2. subst o2.
  assert (H3 : ∃ w3 h3, match old with Some tm => ok_ (restore_stdin env tm) | None => mret tt end w2 h2
    = (w3, h3, Ok tt) ∧ term w3 = term w).
  { destruct old as [tm|].
    - unfold ok_, restore_stdin. destruct (set_attr_sets tm w2 h2 Hs) as [h' ->]. exists (set_term tm w2), h'.
      split; [done|]. rewrite <- Hold. by destruct w2.
    - exists w2, h2. split; [done|]. by rewrite E2. }
  destruct H3 as (w3 & h3 & E3 & Ht). unfold mbind, sys_bind. rewrite E3. unfold ok_, ask, do_.
  exists w3, h3. by destruct (env h3 RaiseWinch).
Qed.
End Proofs.

(** ** A session *)

Section Witnesses.
(** Every call succeeds and moves all it is asked to. *)
Definition fine : Env Op := λ _ _, true.
Definition whole (h : list Op) (o : Op) : Z :=
  match o with Splice _ _ len | Read _ len => len | _ => 0 end.

(** The master is readable while there is something to read, and then as [idle] says. *)
Definition polled (idle : Z) (w : World) (fd : Fd) : option Z :=
  match fd with
  | Ptmx => Some (if bool_decide (from_shell w = []) then idle else POLLIN)
  | Winch => Some 0
  | Stdin => Some (if bool_decide (stdin w = []) then 0 else POLLIN)
  end.

Definition at_start : World :=
  mkWorld [] [] (bs "$ ") [] [] [] (bs "$ ") true (mkTermios 5 (bs "cooked")) (24, 80) (0, 0).
Definition make_raw (tm : Termios) : Termios := mkTermios 0 (bs "raw").
Definition rounds_ls : list Round := [mkRound (bs "exit") [] None (polled 0); mkRound [] (bs "bye") None (polled 0)].
Definition rounds_end : list Round := repeat (mkRound [] [] None (polled POLLHUP)) 6.

Lemma polled_reports ty pr idle : reports (mkRound ty pr None (polled idle)).
Proof. intros w. split; [|split]; cbn; [intros H|done|]; by case_bool_decide. Qed.

Lemma whole_drains : pipe_drains fine whole.
Proof. by intros h dst len. Qed.

Lemma whole_progress a : progress whole a.
Proof. by intros h. Qed.

Lemma kept_start : Kept at_start.
Proof. by repeat split. Qed.

Lemma terminal_in_order_witness :
  let run := pump_tty fine whole make_raw true rounds_ls at_start [] in
  (result run = Ok tt ∧ Faithful (state run) ∧ (writes_succeed fine → Kept (state run))) ∧
  stdout (state run) = bs "$ bye" ∧ to_shell (state run) = bs "exit".
Proof.
  split; [apply terminal_in_order; [apply whole_drains|apply kept_start]|]. split; vm_compute; reflexivity.
Defined.


Lemma terminal_restored_witness :
  let run := pump_tty (λ _ o, match o with TcSetAttr TCSAFLUSH => false | _ => true end) whole make_raw
    true rounds_ls at_start [] in
  term (state run) = mkTermios 5 (bs "cooked") ∧ result run = Ok tt ∧ last (calls run) = Some RaiseWinch.
Proof. apply terminal_restored. intros h. by right. Defined.

(** Both directions go through one pipe: when [splice] moves out less than it moved in, what
    is left comes out on the other side, and the user's input appears as the shell's output. *)
Definition short (h : list Op) (o : Op) : Z :=
  match o with Splice FromPipe ToPtmx _ => 1 | _ => whole h o end.

Lemma partial_splice_crosses :
  let run := pump_tty_impl fine short true rounds_ls at_start [] in
  to_shell (state run) = bs "e" ∧ stdout (state run) = bs "$ xit" ∧ pipe (state run) = bs "bye".
Proof. vm_compute. repeat split. Qed.

(** When the second [splice] fails the copy takes 4096 bytes out of the pipe, and the
    rest of what was already read is never written. *)
Definition no_pipe_out : Env Op := λ _ o, match o with Splice FromPipe _ _ => false | _ => true end.

Lemma splice_fallback_truncates :
  let w := set_port FromPtmx (repeat (byte_of 97) 5000) at_start in
  let run := pump_via_splice no_pipe_out whole FromPtmx ToStdout w [] in
  result run = Ok tt ∧ length (stdout (state run)) = 4096%nat ∧ from_shell (state run) = [] ∧
  length (pipe (state run)) = 904%nat ∧ should_use_splice (state run) = false.
Proof. vm_compute. repeat split. Qed.
End Witnesses.
