(* ===== verification/ThreadPool.v ===== *)
(** ThreadPool: the daemon's pool of threads, [native/src/core/thread.rs].

    Each critical section of the code is a function on the pool; a run of the system is
    any interleaving of them ([step]), with the scheduler choosing which waiting thread
    a notification wakes, when a wait times out, when it wakes spuriously and whether a
    thread can be made. *)

From S2P Require Import Prelude.

Definition CORE_POOL_SIZE : Z := 3.

(** Where a thread of the pool is: before the lock, asleep, on its way back from the
    wait (notified or timed out) to the lock, running what it took, or gone. *)
Inductive Phase (T : Type) :=
  | Entering
  | Waiting
  | Woken
  | TimedOut
  | Running (task : option T)
  | Gone.
Arguments Entering {T}.
Arguments Waiting {T}.
Arguments Woken {T}.
Arguments TimedOut {T}.
Arguments Running {T} task.
Arguments Gone {T}.

Record Thread (T : Type) := mkThread { is_core_pool : bool; phase : Phase T }.
Arguments mkThread {T} is_core_pool phase.
Arguments is_core_pool {T} t.
Arguments phase {T} t.

Section Pool.
Context {T : Type}.
Implicit Types (t : T) (th : Thread T).

(** [PoolInfo], the threads, and, for the statements, what was posted and what was
    taken, in order, and how many threads could not be made. *)
Record Pool := mkPool {
  idle_threads : Z;
  total_threads : Z;
  task : option T;
  threads : list (Thread T);
  posted : list T;
  taken : list T;
  unmade : Z
}.
Implicit Types (s : Pool).

Definition empty_pool : Pool := mkPool 0 0 None [] [] [] 0.

Definition set_phase (i : nat) (p : Phase T) s : Pool :=
  mkPool (idle_threads s) (total_threads s) (task s)
    (alter (λ th, mkThread (is_core_pool th) p) i (threads s)) (posted s) (taken s) (unmade s).

(** [info.task.take()], then [idle_threads -= 1]; the thread runs what it took. *)
Definition take_task (i : nat) s : Pool :=
  set_phase i (Running (task s))
    (mkPool (idle_threads s - 1) (total_threads s) None (threads s) (posted s)
       (taken s ++ option_list (task s)) (unmade s)).

(** [pool_loop] up to the wait: the section ends there if there is no task. *)
Definition pool_enter (i : nat) s : Pool :=
  let s := mkPool (idle_threads s + 1) (total_threads s) (task s) (threads s) (posted s) (taken s) (unmade s) in
  match task s with
  | None => set_phase i Waiting s
  | Some _ => take_task i s
  end.

(** [pool_loop] after the wait. *)
Definition pool_resume (i : nat) s : Pool := take_task i s.

(** [pool_loop] after a wait that timed out: the thread ends. *)
Definition pool_expire (i : nat) s : Pool :=
  set_phase i Gone
    (mkPool (idle_threads s - 1) (total_threads s - 1) (task s) (threads s) (posted s) (taken s) (unmade s)).

(** [exec_task_impl] once no task is left; [who] is the thread that is notified, [made]
    whether a thread could be made: the answer of [new_daemon_thread] is not looked at. *)
Definition exec_task_impl (t : T) (who : option nat) (made : bool) s : Pool :=
  let s := mkPool (idle_threads s) (total_threads s) (Some t) (threads s) (posted s ++ [t]) (taken s) (unmade s) in
  if idle_threads s =? 0 then
    let total := total_threads s + 1 in
    let started := mkThread (total <=? CORE_POOL_SIZE) Entering in
    mkPool (idle_threads s) total (task s)
      (if made then threads s ++ [started] else threads s) (posted s) (taken s)
      (if made then unmade s else unmade s + 1)
  else
    match who with Some i => set_phase i Woken s | None => s end.

Definition at_phase (i : nat) (p : Phase T) s : Prop := ∃ core, threads s !! i = Some (mkThread core p).

(** [notify_one] wakes a waiting thread, if there is one. *)
Definition notifies (who : option nat) s : Prop :=
  match who with
  | Some i => at_phase i Waiting s
  | None => ∀ i, ~ at_phase i Waiting s
  end.

Inductive label := LPost (made : bool) | LPool.

Inductive step : label → Pool → Pool → Prop :=
  | step_enter i s : at_phase i Entering s → step LPool s (pool_enter i s)
  | step_spurious i s : at_phase i Waiting s → step LPool s (set_phase i Woken s)
  | step_timeout i s : threads s !! i = Some (mkThread false Waiting) → step LPool s (set_phase i TimedOut s)
  | step_resume i s : at_phase i Woken s → step LPool s (pool_resume i s)
  | step_expire i s : at_phase i TimedOut s → step LPool s (pool_expire i s)
  | step_finish i o s : at_phase i (Running o) s → step LPool s (set_phase i Entering s)
  | step_post t who made s : task s = None → notifies who s → step (LPost made) s (exec_task_impl t who made s).

Inductive reachable : Pool → Prop :=
  | reach_empty : reachable empty_pool
  | reach_step l s s' : reachable s → step l s s' → reachable s'.

(** The runs in which no task is posted while a thread that timed out is on its way out, and
    every thread that is asked for is made. *)
Inductive reachable_calm : Pool → Prop :=
  | calm_empty : reachable_calm empty_pool
  | calm_step l s s' : reachable_calm s → step l s s' →
      l ≠ LPost false → (l = LPost true → ∀ i, ~ at_phase i TimedOut s) → reachable_calm s'.

(** ** Counting threads *)

Definition b2z (b : bool) : Z := if b then 1 else 0.

Fixpoint count (f : Thread T → bool) (l : list (Thread T)) : Z :=
  match l with [] => 0 | th :: l => b2z (f th) + count f l end.

Definition asleep th : bool := match phase th with Waiting | Woken | TimedOut => true | _ => false end.
Definition live th : bool := match phase th with Gone => false | _ => true end.
Definition live_core th : bool := is_core_pool th && live th.

(** A thread that will look at the task without being notified again. *)
Definition taker th : bool := match phase th with Entering | Woken => true | _ => false end.

Lemma count_app f l k : count f (l ++ k) = count f l + count f k.
Proof. induction l as [|th l IH]; cbn; [done|rewrite IH; lia]. Qed.

Lemma count_nonneg f l : 0 ≤ count f l.
Proof. induction l as [|th l IH]; cbn; [done|destruct (f th); cbn; lia]. Qed.

Lemma count_alter f g l i th : l !! i = Some th →
  count f (alter g i l) = count f l - b2z (f th) + b2z (f (g th)).
Proof.
  revert i. induction l as [|th' l IH]; intros [|i] Hi; simplify_eq/=; [lia|].
  rewrite (IH i) by done. lia.
Qed.

Lemma count_pos f l : 0 < count f l ↔ ∃ i th, l !! i = Some th ∧ f th = true.
Proof.
  split.
  - induction l as [|th l IH]; cbn; [lia|]. destruct (f th) eqn:E; [by exists 0%nat, th|].
    cbn. intros (i & th' & ? & ?)%IH. by exists (S i), th'.
  - intros (i & th & Hi & Hf). revert i Hi. induction l as [|th' l IH]; intros [|i] Hi; simplify_eq/=.
    + rewrite Hf. pose proof (count_nonneg f l). cbn. lia.
    + apply IH in Hi. destruct (f th'); cbn; lia.
Qed.

(** ** The invariant *)

Record pool_inv s : Prop := {
  inv_tasks : posted s = taken s ++ option_list (task s);
  inv_idle : idle_threads s = count asleep (threads s);
  inv_total : total_threads s = count live (threads s) + unmade s;
  inv_unmade : 0 ≤ unmade s;
  inv_core : count live_core (threads s) ≤ CORE_POOL_SIZE
}.

Lemma live_core_le l : count live_core l ≤ count live l.
Proof.
  induction l as [|th l IH]; cbn [count]; [done|]. change (live_core th) with (is_core_pool th && live th).
  destruct (is_core_pool th), (live th); cbn [andb b2z]; lia.
Qed.

(** Rewrites the counts after one thread changed its phase. *)
Ltac count_phase :=
  match goal with
  | H : threads _ !! _ = Some _ |- _ =>
      repeat (rewrite (count_alter _ _ _ _ _ H)); unfold live_core, live, asleep, taker, b2z; cbn
  end.

Lemma set_phase_inv i p s : pool_inv s →
  (∃ th, threads s !! i = Some th ∧ asleep (mkThread (is_core_pool th) p) = asleep th ∧
         live th = true ∧ live (mkThread (is_core_pool th) p) = true) →
  pool_inv (set_phase i p s).
Proof.
  intros [Ht Hi Hn Hu Hc] (th & Hth & Ha & Hl & Hl'). split; cbn [set_phase posted taken task idle_threads total_threads threads unmade].
  - done.
  - rewrite (count_alter _ _ _ _ _ Hth), Ha. lia.
  - rewrite (count_alter _ _ _ _ _ Hth), Hl, Hl'. lia.
  - done.
  - rewrite (count_alter _ _ _ _ _ Hth). unfold live_core at 2 3. rewrite Hl, Hl'. cbn [is_core_pool]. lia.
Qed.

Lemma take_task_inv i s core : pool_inv s → threads s !! i = Some (mkThread core Woken) → pool_inv (take_task i s).
Proof.
  intros [Ht Hi Hn Hu Hc] Hth. unfold take_task, set_phase.
  split; cbn [posted taken task idle_threads total_threads threads unmade].
  - by rewrite Ht, app_nil_r.
  - rewrite Hi. count_phase. lia.
  - rewrite Hn. count_phase. lia.
  - done.
  - revert Hc. count_phase. destruct core; cbn; lia.
Qed.

Lemma pool_enter_inv i s core : pool_inv s → threads s !! i = Some (mkThread core Entering) → pool_inv (pool_enter i s).
Proof.
  intros [Ht Hi Hn Hu Hc] Hth. unfold pool_enter. cbn [task].
  destruct (task s) as [t|] eqn:Et; unfold take_task, set_phase;
    (split; cbn [posted taken task idle_threads total_threads threads unmade]; rewrite ?Et).
  1, 6: by rewrite Ht, ?app_nil_r.
  1, 5: rewrite Hi; count_phase; lia.
  1, 4: rewrite Hn; count_phase; lia.
  1, 3: done.
  all: revert Hc; count_phase; destruct core; cbn; lia.
Qed.

Lemma pool_expire_inv i s core : pool_inv s → threads s !! i = Some (mkThread core TimedOut) → pool_inv (pool_expire i s).
Proof.
  intros [Ht Hi Hn Hu Hc] Hth. unfold pool_expire, set_phase.
  split; cbn [posted taken task idle_threads total_threads threads unmade].
  - done.
  - rewrite Hi. count_phase. lia.
  - rewrite Hn. count_phase. lia.
  - done.
  - revert Hc. count_phase. destruct core; cbn; lia.
Qed.

Lemma exec_task_impl_inv t who made s : pool_inv s → task s = None → notifies who s → pool_inv (exec_task_impl t who made s).
Proof.
  intros Hinv Et Hw. unfold exec_task_impl. cbn [idle_threads].
  pose proof Hinv as [Ht Hi Hn Hu Hc]. rewrite Et in Ht. cbn [option_list] in Ht. rewrite app_nil_r in Ht.
  destruct (Z.eqb_spec (idle_threads s) 0) as [H0|H0].
  - destruct made;
      (split; cbn [posted taken task idle_threads total_threads threads unmade]; rewrite ?count_app; cbn -[Z.leb live_core]);
      try lia; try (by rewrite Ht).
    pose proof (live_core_le (threads s)). unfold live_core at 2. cbn -[Z.leb].
    destruct (Z.leb_spec (total_threads s + 1) CORE_POOL_SIZE); cbn; lia.
  - assert (Hinv' : pool_inv (mkPool (idle_threads s) (total_threads s) (Some t) (threads s) (posted s ++ [t]) (taken s) (unmade s)))
      by (split; cbn; try done; by rewrite Ht).
    destruct who as [i|]; [|done]. destruct Hw as [core Hw]. apply set_phase_inv; [done|]. by eexists.
Qed.

Lemma step_inv l s s' : pool_inv s → step l s s' → pool_inv s'.
Proof.
  intros Hinv Hs. revert Hinv.
  destruct Hs as [i ? [core H]|i ? [core H]|i ? H|i ? [core H]|i ? [core H]|i o ? [core H]|t who made ? Et H]; intros Hinv.
  - by eapply pool_enter_inv.
  - apply set_phase_inv; [done|]. by eexists.
  - apply set_phase_inv; [done|]. by eexists.
  - by eapply take_task_inv.
  - by eapply pool_expire_inv.
  - apply set_phase_inv; [done|]. by eexists.
  - by apply exec_task_impl_inv.
Qed.

(** In every interleaving, tasks are taken in the order they were posted, each
    exactly once, with at most the last one pending; the two counters count the threads
    that sleep, and the threads that live with those that could not be made; and at most [CORE_POOL_SIZE] threads are core
    threads. *)
Theorem pool_fifo s : reachable s →
  posted s = taken s ++ option_list (task s) ∧
  idle_threads s = count asleep (threads s) ∧ total_threads s = count live (threads s) + unmade s ∧
  count live_core (threads s) ≤ CORE_POOL_SIZE.
Proof.
  intros Hr. assert (Hinv : pool_inv s).
  { induction Hr as [|l s s' _ IH Hs]; [by split|by eapply step_inv]. }
  by destruct Hinv.
Qed.

(** ** A posted task is taken *)

(** While a task is pending some thread will look for it. *)
Definition has_taker s : Prop := task s ≠ None → 0 < count taker (threads s).

Lemma set_phase_taker i p s th : threads s !! i = Some th → b2z (taker th) ≤ b2z (taker (mkThread (is_core_pool th) p)) →
  has_taker s → has_taker (set_phase i p s).
Proof.
  intros Hth Hle Hs Ht. specialize (Hs Ht). cbn [set_phase threads].
  rewrite (count_alter _ _ _ _ _ Hth). lia.
Qed.

Lemma exec_task_impl_taker t who s : pool_inv s → notifies who s → (∀ i, ~ at_phase i TimedOut s) →
  has_taker (exec_task_impl t who true s).
Proof.
  intros Hinv Hw Hto _. unfold exec_task_impl. cbn [idle_threads].
  destruct (Z.eqb_spec (idle_threads s) 0) as [H0|H0].
  - cbn [threads]. rewrite count_app. pose proof (count_nonneg taker (threads s)). cbn. lia.
  - destruct who as [i|].
    + destruct Hw as [core Hw]. cbn [set_phase threads]. apply count_pos. exists i, (mkThread core Woken).
      split; [|done]. by rewrite list_lookup_alter_eq, Hw.
    + cbn [threads]. apply count_pos.
      assert (0 < count asleep (threads s)) as (i & [core p] & Hi & Ha)%count_pos.
      { rewrite <- (inv_idle _ Hinv). pose proof (count_nonneg asleep (threads s)).
        rewrite <- (inv_idle _ Hinv) in *. lia. }
      exists i, (mkThread core p). split; [done|]. unfold asleep, taker in *. cbn in *.
      destruct p; try done; exfalso; [apply (Hw i)|apply (Hto i)]; by exists core.
Qed.

Lemma step_taker l s s' : pool_inv s → l ≠ LPost false → (l = LPost true → ∀ i, ~ at_phase i TimedOut s) → step l s s' →
  has_taker s → has_taker s'.
Proof.
  intros Hinv Hmade Hto Hs. revert Hinv Hmade Hto.
  destruct Hs as [i ? [core H]|i ? [core H]|i ? H|i ? [core H]|i ? [core H]|i o ? [core H]|t who made ? Et H];
    intros Hinv Hmade Hto Ht.
  - unfold pool_enter. cbn [task]. destruct (task s) eqn:E; [by intros []|]. intros Hn. cbn in Hn. congruence.
  - by eapply set_phase_taker.
  - by eapply set_phase_taker.
  - by intros [].
  - intros Hn. specialize (Ht Hn). cbn [pool_expire set_phase threads]. rewrite (count_alter _ _ _ _ _ H). cbn. lia.
  - by eapply set_phase_taker.
  - destruct made; [|done]. apply exec_task_impl_taker; auto.
Qed.

Lemma calm_inv s : reachable_calm s → pool_inv s ∧ has_taker s.
Proof.
  induction 1 as [|l s s' _ [IH1 IH2] Hs Hm Hc]; [split; [by split|by intros []]|].
  split; [by eapply step_inv|by eapply step_taker].
Qed.

(** C39: when every thread that is asked for is made, and no task is posted while a thread
    that timed out is still on its way out, a pending task always has a thread that will
    take it: one that is about to enter the critical section or has been woken.  Entering
    or resuming then takes it.  Without the first condition a task can stay behind for
    ever ([unmade_thread_strands]), without the second until a running task ends
    ([task_can_be_stranded]). *)
Theorem pending_task_has_taker s t : reachable_calm s → task s = Some t →
  ∃ i, (at_phase i Entering s ∧ taken (pool_enter i s) = taken s ++ [t] ∧ task (pool_enter i s) = None) ∨
       (at_phase i Woken s ∧ taken (pool_resume i s) = taken s ++ [t] ∧ task (pool_resume i s) = None).
Proof.
  intros Hr Ht. assert (Hh : has_taker s) by (by apply calm_inv).
  assert (0 < count taker (threads s)) as (i & [core p] & Hi & Hp)%count_pos by (apply Hh; congruence).
  exists i. unfold taker in Hp. cbn in Hp. destruct p; try done; [left|right].
  - split; [by exists core|]. unfold pool_enter. cbn [task]. by rewrite Ht.
  - split; [by exists core|]. cbn. by rewrite Ht.
Qed.
End Pool.
Arguments Pool : clear implicits.

(** ** A task can be stranded *)

(** Three tasks that keep the core threads busy; a fourth thread, done with its task,
    times out; a task is posted before it is back; it goes. *)
Definition busy (i : nat) (s : Pool nat) : Pool nat := pool_enter i (exec_task_impl i None true s).
Definition before_timeout : Pool nat :=
  pool_enter 3 (set_phase 3 Entering (busy 3 (busy 2 (busy 1 (busy 0 empty_pool))))).
Definition stranded : Pool nat :=
  pool_expire 3 (exec_task_impl 4%nat None true (set_phase 3 TimedOut before_timeout)).

Lemma busy_reachable i s : reachable s → task s = None → idle_threads s = 0 → length (threads s) = i →
  (∀ j, ~ at_phase j Waiting s) → reachable (busy i s).
Proof.
  intros Hr Ht H0 Hlen Hw. unfold busy.
  apply (reach_step LPool (exec_task_impl i None true s)); [by apply (reach_step (LPost true) s); [|apply step_post]|].
  apply step_enter. eexists. unfold exec_task_impl. cbn [idle_threads]. rewrite H0. cbn [Z.eqb threads].
  rewrite lookup_app_r, Hlen, Nat.sub_diag by lia. done.
Qed.

Ltac no_thread := intros j [core Hj]; vm_compute in Hj; repeat (destruct j as [|j]; [done|]); done.

Lemma stranded_reachable : reachable stranded.
Proof.
  assert (H3 : reachable (busy 3 (busy 2 (busy 1 (busy 0 empty_pool))))).
  { repeat (apply busy_reachable; [|reflexivity|reflexivity|reflexivity|no_thread]). apply reach_empty. }
  assert (H4 : reachable before_timeout).
  { eapply reach_step; [eapply reach_step; [exact H3|]|].
    - apply (step_finish 3 (Some 3%nat)). eexists. vm_compute. reflexivity.
    - apply step_enter. eexists. vm_compute. reflexivity. }
  eapply reach_step; [eapply reach_step; [eapply reach_step; [exact H4|]|]|].
  - apply (step_timeout 3). vm_compute. reflexivity.
  - apply (step_post 4%nat None true); [reflexivity|no_thread].
  - apply step_expire. eexists. vm_compute. reflexivity.
Qed.

(** A thread whose wait times out while a task is being posted is still counted as
    idle, so that no thread is started for the task; the thread then leaves without
    looking at it.  The pool can reach a state with a pending task, no idle thread, and
    nothing that can happen before one of the three running tasks ends: the next
    [exec_task], which the daemon's accept loop calls, blocks. *)
Theorem task_can_be_stranded :
  ∃ s : Pool nat, reachable s ∧ task s = Some 4%nat ∧ idle_threads s = 0 ∧ total_threads s = 3 ∧
    ∀ l s', step l s s' → l = LPool ∧ ∃ i t, at_phase i (Running (Some t)) s ∧ s' = set_phase i Entering s.
Proof.
  exists stranded. split; [exact stranded_reachable|]. split_and!; [reflexivity..|].
  intros l s' Hs. remember stranded as s eqn:E.
  destruct Hs as [i s [core H]|i s [core H]|i s H|i s [core H]|i s [core H]|i o s H|t who made s Et H].
  1-5: exfalso; subst s; vm_compute in H; repeat (destruct i as [|i]; [done|]); done.
  - split; [done|]. destruct o as [t|]; [by exists i, t|].
    exfalso. destruct H as [core H]. subst s. vm_compute in H. repeat (destruct i as [|i]; [done|]); done.
  - subst s. vm_compute in Et. done.
Qed.

(** A thread that could not be made is still counted, and the task it was for stays: when it
    was the first, nothing can ever happen again, and the next [exec_task] blocks for good. *)
Theorem unmade_thread_strands :
  ∃ s : Pool nat, reachable s ∧ task s = Some 7%nat ∧ total_threads s = 1 ∧ threads s = [] ∧
    ∀ l s', ~ step l s s'.
Proof.
  exists (exec_task_impl 7%nat None false empty_pool). split.
  { eapply reach_step; [apply reach_empty|apply step_post; [reflexivity|no_thread]]. }
  split_and!; [reflexivity..|]. intros l s' Hs. remember (exec_task_impl _ _ _ _) as s eqn:E.
  destruct Hs as [i s [core H]|i s [core H]|i s H|i s [core H]|i s [core H]|i o s [core H]|t who made s Et H];
    subst s; [vm_compute in H; by destruct i..|done].
Qed.

(** A pool with one task posted and not yet taken. *)
Lemma one_task_calm : reachable_calm (exec_task_impl 7%nat None true empty_pool).
Proof. eapply calm_step; [apply calm_empty|apply step_post; [reflexivity|no_thread]|done|intros _; no_thread]. Qed.

Lemma pending_task_has_taker_witness :
  ∃ i, at_phase i Entering (exec_task_impl 7%nat None true empty_pool) ∨ at_phase i Woken (exec_task_impl 7%nat None true empty_pool).
Proof.
  destruct (pending_task_has_taker (exec_task_impl 7%nat None true empty_pool) 7%nat one_task_calm eq_refl)
    as (i & [[H _]|[H _]]); exists i; [by left|by right].
Defined.

Lemma pool_fifo_witness : posted stranded = [0; 1; 2; 3]%nat ++ [4]%nat.
Proof. exact (proj1 (pool_fifo stranded stranded_reachable)). Defined.
