(* ===== verification/Dir.v ===== *)
(** Dir: directories, [native/src/base/dir.rs], and the operations on whole files and
    trees of [native/src/base/files.rs].

    A directory is its entries in the order [readdir] lists them, with names that are UTF-8
    ([Directory::read] passes over any other); the data and the
    attributes of regular files are in a table indexed by inode, so that hard links and
    truncation through them are visible.  The system calls act on this state as Linux
    documents them, errors included; a call that would follow a symbolic link out of the
    tree, or that gets a path cut at the end of its buffer, stops with [Escapes]. *)

From S2P Require Import Prelude Cstr.

(** ** State *)

Record Attr := mkAttr { st_mode : Z; st_uid : Z; st_gid : Z; con : bytes }.

(** The type bits and the device number of a node that is not a file, directory or link. *)
Record Device := mkDev { dev_type : Z; rdev : Z }.

Inductive Node :=
  | Directory (a : Attr) (es : list (bytes * Node))
  | Regular (ino : Z)
  | Symlink (a : Attr) (target : bytes)
  | Special (a : Attr) (kind : Device).
Abbreviation Entries := (list (bytes * Node)).
Abbreviation Inodes := (gmap Z (Attr * bytes)).

#[global] Instance attr_eq_dec : EqDecision Attr.
Proof. solve_decision. Defined.

Inductive Fault := ENOENT | EEXIST | ENOTDIR | EISDIR | ENOTEMPTY | EINVAL | Escapes.

Definition is_dir (n : Node) : bool := match n with Directory _ _ => true | _ => false end.

Fixpoint assoc (name : bytes) (es : Entries) : option Node :=
  match es with
  | [] => None
  | (x, n) :: es => if bool_decide (x = name) then Some n else assoc name es
  end.

(** Replaces the entry of that name, or adds one at the end. *)
Fixpoint put (name : bytes) (n : Node) (es : Entries) : Entries :=
  match es with
  | [] => [(name, n)]
  | (x, m) :: es => if bool_decide (x = name) then (name, n) :: es else (x, m) :: put name n es
  end.

Fixpoint del (name : bytes) (es : Entries) : Entries :=
  match es with
  | [] => []
  | (x, m) :: es => if bool_decide (x = name) then es else (x, m) :: del name es
  end.

(** ** Operations on one directory

    [D S A]: a computation on the entries of a directory and a state [S], here the
    inodes. *)

Definition D (S A : Type) := S * Entries → (S * Entries) * res Fault A.
#[global] Instance D_ret S : MRet (D S) := λ A a w, (w, Ok a).
#[global] Instance D_bind S : MBind (D S) := λ A B f m w,
  match m w with
  | (w, Ok a) => f a w
  | (w, Err e) => (w, Err e)
  | (w, Panic) => (w, Panic)
  | (w, NoFuel) => (w, NoFuel)
  end.

Section Ops.
Context {S : Type}.

Definition fail {A} (e : Fault) : D S A := λ w, (w, Err e).

(** What is done with a directory opened at [name]: its entries change in place. *)
Definition in_dir {A} (name : bytes) (m : D S A) : D S A := λ w,
  match assoc name w.2 with
  | Some (Directory a es) =>
      let '(s, es, r) := m (w.1, es) in ((s, put name (Directory a es) w.2), r)
  | Some (Symlink _ _) => (w, Err Escapes)
  | Some _ => (w, Err ENOTDIR)
  | None => (w, Err ENOENT)
  end.

(** [unlinkat] with the flag [DirEntry::unlink] chooses. *)
Definition unlink_at (name : bytes) (remove_dir : bool) : D S unit := λ w,
  match assoc name w.2 with
  | None => (w, Err ENOENT)
  | Some (Directory _ es) =>
      if negb remove_dir then (w, Err EISDIR)
      else match es with
           | [] => ((w.1, del name w.2), Ok tt)
           | _ => (w, Err ENOTEMPTY)
           end
  | Some _ => if remove_dir then (w, Err ENOTDIR) else ((w.1, del name w.2), Ok tt)
  end.

Definition contains_path (name : bytes) (es : Entries) : bool :=
  match assoc name es with Some _ => true | None => false end.
End Ops.

Section Calls.
(** The attributes of what a call creates with a mode: the umask, the caller's ids and
    the policy decide. *)
Context (created : Z → Attr).

(** An existing entry is fine, whatever it is. *)
Definition mkdir_at (name : bytes) (mode : Z) : D Inodes unit := λ w,
  match assoc name w.2 with
  | Some _ => (w, Ok tt)
  | None => ((w.1, put name (Directory (created mode) []) w.2), Ok tt)
  end.

Definition create_symlink_at (name target : bytes) : D Inodes unit := λ w,
  if bool_decide (target = []) then (w, Err ENOENT)
  else match assoc name w.2 with
       | Some _ => (w, Err EEXIST)
       | None => ((w.1, put name (Symlink (created 0x1ff) target) w.2), Ok tt)
       end.

(** [O_WRONLY | O_CREAT | O_TRUNC]: the inode written to. *)
Definition open_trunc (name : bytes) (mode : Z) : D Inodes Z := λ w,
  match assoc name w.2 with
  | Some (Regular i) => ((alter (λ '(a, _), (a, [])) i w.1, w.2), Ok i)
  | Some (Directory _ _) => (w, Err EISDIR)
  | Some _ => (w, Err Escapes)
  | None =>
      let i := fresh (dom w.1) in
      ((<[i := (created mode, [])]> w.1, put name (Regular i) w.2), Ok i)
  end.

(** [linkat] of the node another directory has. *)
Definition link_at (n : Node) (name : bytes) : D Inodes unit := λ w,
  match assoc name w.2 with
  | Some _ => (w, Err EEXIST)
  | None => ((w.1, put name n w.2), Ok tt)
  end.

(** [get_attr]. *)
Definition attr_of (t : Inodes) (n : Node) : res Fault Attr :=
  match n with
  | Directory a _ | Symlink a _ | Special a _ => Ok a
  | Regular i => of_option ENOENT (fst <$> t !! i)
  end.

(** [fd_set_attr]: the permission bits, the owner and the group, and the context unless
    it is empty. *)
Definition with_attr (new old : Attr) : Attr :=
  mkAttr (Z.land (st_mode new) 0x1ff) (st_uid new) (st_gid new)
    (if bool_decide (con new = []) then con old else con new).

(** [set_attr] of a symbolic link keeps its mode. *)
Definition with_link_attr (new old : Attr) : Attr :=
  mkAttr (st_mode old) (st_uid new) (st_gid new) (if bool_decide (con new = []) then con old else con new).

Definition set_dir_attr (name : bytes) (a : Attr) : D Inodes unit := λ w,
  match assoc name w.2 with
  | Some (Directory b es) => ((w.1, put name (Directory (with_attr a b) es) w.2), Ok tt)
  | _ => (w, Err ENOENT)
  end.
Definition set_inode_attr (i : Z) (a : Attr) : D Inodes unit := λ w,
  ((alter (λ '(b, d), (with_attr a b, d)) i w.1, w.2), Ok tt).
Definition set_symlink_attr (name : bytes) (a : Attr) : D Inodes unit := λ w,
  match assoc name w.2 with
  | Some (Symlink b t) => ((w.1, put name (Symlink (with_link_attr a b) t) w.2), Ok tt)
  | _ => (w, Err ENOENT)
  end.

Definition get {A} (f : Inodes → res Fault A) : D Inodes A := λ w, (w, f w.1).

(** [io::copy] from one inode to another: the data read is what the source has now. *)
Definition copy_data (src dest : Z) : D Inodes unit := λ w,
  match w.1 !! src with
  | Some (_, d) => ((alter (λ '(a, _), (a, d)) dest w.1, w.2), Ok tt)
  | None => (w, Err ENOENT)
  end.

(** *** Copying and linking a directory into another

    [src] and [dest] are the paths the directories resolve to. *)

Definition join_dir (dir name : bytes) : bytes :=
  if ends_with (bs "/") dir then dir ++ name else dir ++ bs "/" ++ name.

(** [path_at] into a buffer of 4096 bytes. *)
Definition path_at (dir name : bytes) : bytes :=
  Buf.as_str (Buf.append_path (Buf.push_str (Buf.new 4096) dir).1 name).

(** What the buffer holds is the whole path. *)
Definition resolve_path (dir name : bytes) : D Inodes unit :=
  if bool_decide (path_at dir name = join_dir dir name) then mret tt else fail Escapes.

(** [read_link] into such a buffer: what fits of the target, and nothing when that is not
    UTF-8 ([rebuild().ok()]). *)
Definition read_target (target : bytes) : bytes :=
  let t := take 4095 target in if utf8_valid t then t else [].

(** One turn of [copy_into_impl]'s loop. *)
Fixpoint copy_entry (src dest name : bytes) (n : Node) : D Inodes unit :=
  _ ← resolve_path src name;
  attr ← get (λ t, attr_of t n);
  match n with
  | Directory _ es =>
      _ ← mkdir_at name 0x1ff;
      _ ← in_dir name
            ((fix go (es : Entries) : D Inodes unit :=
                match es with
                | [] => mret tt
                | (x, c) :: es => _ ← copy_entry (join_dir src name) (join_dir dest name) x c; go es
                end) es);
      set_dir_attr name attr
  | Regular i =>
      j ← open_trunc name 0x1ff;
      _ ← copy_data i j;
      set_inode_attr j attr
  | Symlink _ target =>
      _ ← create_symlink_at name (read_target target);
      _ ← resolve_path dest name;
      set_symlink_attr name attr
  | Special _ _ => mret tt
  end.

Definition copy_into (src dest : bytes) : Entries → D Inodes unit :=
  fix go es :=
    match es with
    | [] => mret tt
    | (x, n) :: es => _ ← copy_entry src dest x n; go es
    end.

(** One turn of [link_into_impl]'s loop. *)
Fixpoint link_entry (src name : bytes) (n : Node) : D Inodes unit :=
  match n with
  | Directory attr es =>
      _ ← mkdir_at name 0x1ff;
      _ ← resolve_path src name;
      _ ← in_dir name
            ((fix go (es : Entries) : D Inodes unit :=
                match es with
                | [] => mret tt
                | (x, c) :: es => _ ← link_entry (join_dir src name) x c; go es
                end) es);
      set_dir_attr name attr
  | _ => link_at n name
  end.

Definition link_into (src : bytes) : Entries → D Inodes unit :=
  fix go es :=
    match es with
    | [] => mret tt
    | (x, n) :: es => _ ← link_entry src x n; go es
    end.
End Calls.

(** *** Moving: the entries of two directories change *)

Definition rename_at (name : bytes) (src dest : Entries) : Entries * Entries * res Fault unit :=
  match assoc name src with
  | None => (src, dest, Err ENOENT)
  | Some n =>
      match assoc name dest with
      | None => (del name src, put name n dest, Ok tt)
      | Some (Directory _ ds) =>
          if is_dir n then
            match ds with
            | [] => (del name src, put name n dest, Ok tt)
            | _ => (src, dest, Err ENOTEMPTY)
            end
          else (src, dest, Err EISDIR)
      | Some m =>
          if is_dir n then (src, dest, Err ENOTDIR)
          else
            match n, m with
            | Regular i, Regular j =>
                (* two names of one file: nothing is renamed *)
                if i =? j then (src, dest, Ok tt) else (del name src, put name n dest, Ok tt)
            | _, _ => (del name src, put name n dest, Ok tt)
            end
      end
  end.

(** [move_into] of a directory: what is left in it, and what is in the other. *)
Fixpoint move_node (n : Node) (dest : Entries) : Entries * Entries * res Fault unit :=
  match n with
  | Directory _ es =>
      (fix go (es : Entries) (src dest : Entries) : Entries * Entries * res Fault unit :=
         match es with
         | [] => (src, dest, Ok tt)
         | (x, c) :: es =>
             if is_dir c && contains_path x dest then
               match assoc x dest with
               | Some (Directory b ds) =>
                   let '(cs, ds, r) := move_node c ds in
                   let dest := put x (Directory b ds) dest in
                   let src := match c with Directory a _ => put x (Directory a cs) src | _ => src end in
                   match r with
                   | Ok _ => let '(_, src, r) := unlink_at (S := unit) x true (tt, src) in (src, dest, r)
                   | r => (src, dest, r)
                   end
               | Some (Symlink _ _) => (src, dest, Err Escapes)
               | _ => (src, dest, Err ENOTDIR)
               end
             else
               match rename_at x src dest with
               | (src, dest, Ok _) => go es src dest
               | r => r
               end
         end) es es dest
  | _ => ([], dest, Err ENOTDIR)
  end.

(** *** Walks *)

Inductive WalkResult := Continue | Abort | Skip.

Section Walks.
Context {S : Type}.

(** What is called on an entry: the path of its directory, its name, and the node it was
    read as; it may change the directory. *)
Context (f : list bytes → bytes → Node → D S WalkResult).

(** [pre_order_walk_impl] on the directory [n]. *)
Fixpoint pre_order_node (path : list bytes) (n : Node) : D S WalkResult :=
  match n with
  | Directory _ es =>
      (fix go (es : Entries) : D S WalkResult :=
         match es with
         | [] => mret Continue
         | (x, c) :: es =>
             r ← f path x c;
             match r with
             | Abort => mret Abort
             | Skip => go es
             | Continue =>
                 if is_dir c then
                   r ← in_dir x (pre_order_node (path ++ [x]) c);
                   match r with Abort => mret Abort | _ => go es end
                 else go es
             end
         end) es
  | _ => fail ENOTDIR
  end.

(** [post_order_walk_impl]. *)
Fixpoint post_order_node (path : list bytes) (n : Node) : D S WalkResult :=
  match n with
  | Directory _ es =>
      (fix go (es : Entries) : D S WalkResult :=
         match es with
         | [] => mret Continue
         | (x, c) :: es =>
             r ← (if is_dir c then in_dir x (post_order_node (path ++ [x]) c) else mret Continue);
             match r with
             | Abort => mret Abort
             | _ =>
                 r ← f path x c;
                 match r with
                 | Abort => mret Abort
                 | Skip => mret Continue
                 | Continue => go es
                 end
             end
         end) es
  | _ => fail ENOTDIR
  end.
End Walks.

(** [Directory::remove_all] of the directory [n]. *)
Definition unlink_entry (path : list bytes) (x : bytes) (c : Node) : D unit WalkResult :=
  _ ← unlink_at x (is_dir c); mret Continue.
Definition remove_entries (n : Node) : D unit WalkResult := post_order_node unlink_entry [] n.

(** ** Induction on trees *)

Lemma node_ind_all (P : Node → Prop) :
  (∀ a es, Forall (λ e, P e.2) es → P (Directory a es)) → (∀ i, P (Regular i)) →
  (∀ a t, P (Symlink a t)) → (∀ a k, P (Special a k)) → ∀ n, P n.
Proof.
  intros Hd Hr Hl Hs. fix IH 1. intros [a es|i|a t|a k]; [|apply Hr|apply Hl|apply Hs].
  apply Hd. induction es as [|[x c] es IHes]; constructor; [apply IH|exact IHes].
Qed.

(** Names are unique in every directory. *)
Fixpoint wf_node (n : Node) : Prop :=
  match n with
  | Directory _ es =>
      NoDup es.*1 ∧
      (fix go (es : Entries) : Prop := match es with [] => True | (_, c) :: es => wf_node c ∧ go es end) es
  | _ => True
  end.

Lemma wf_dir a es : wf_node (Directory a es) ↔ NoDup es.*1 ∧ Forall (λ e, wf_node e.2) es.
Proof.
  cbn [wf_node]. apply and_iff_compat_l. induction es as [|[x c] es IH]; [done|].
  rewrite Forall_cons. cbn [snd]. by rewrite IH.
Qed.

(** *** Entries by name *)

Lemma assoc_put_eq x n es : assoc x (put x n es) = Some n.
Proof.
  induction es as [|[y m] es IH]; cbn.
  - by rewrite bool_decide_true.
  - destruct (decide (y = x)) as [->|Hne]; [rewrite bool_decide_true by done; cbn; by rewrite bool_decide_true|].
    rewrite bool_decide_false by done. cbn. by rewrite bool_decide_false.
Qed.

Lemma assoc_put_ne x y n es : x ≠ y → assoc x (put y n es) = assoc x es.
Proof.
  intros Hne. induction es as [|[z m] es IH]; cbn.
  - by rewrite bool_decide_false.
  - destruct (decide (z = y)) as [->|Hz]; [rewrite bool_decide_true by done|rewrite bool_decide_false by done]; cbn.
    + rewrite !bool_decide_false by done. done.
    + by rewrite IH.
Qed.

Lemma put_assoc x n es : assoc x es = Some n → put x n es = es.
Proof.
  induction es as [|[y m] es IH]; cbn; [done|].
  destruct (decide (y = x)) as [->|Hne].
  - rewrite bool_decide_true by done. congruence.
  - rewrite bool_decide_false by done. intros H. by rewrite IH.
Qed.

Lemma assoc_elem x n es : NoDup es.*1 → (x, n) ∈ es → assoc x es = Some n.
Proof.
  induction es as [|[y m] es IH]; cbn; intros Hnd Hin; [by apply elem_of_nil in Hin|].
  apply NoDup_cons in Hnd as [Hy Hnd]. apply elem_of_cons in Hin as [E|Hin].
  - simplify_eq. by rewrite bool_decide_true.
  - rewrite bool_decide_false; [by apply IH|]. intros ->. apply Hy, list_elem_of_fmap. by exists (x, n).
Qed.

Lemma assoc_None x es : x ∉ es.*1 → assoc x es = None.
Proof.
  induction es as [|[y m] es IH]; cbn; [done|]. intros [Hne Hn]%not_elem_of_cons.
  rewrite bool_decide_false by done. by apply IH.
Qed.

Lemma assoc_Some_elem x n es : assoc x es = Some n → (x, n) ∈ es.
Proof.
  induction es as [|[y m] es IH]; cbn; [done|]. case_bool_decide; intros E; simplify_eq; set_solver.
Qed.

(** *** Pre-order walks

    A reference: what a walk that changes nothing visits. *)

Section PreOrder.
Context (d : list bytes → Node → res Fault WalkResult).

(** Every entry in pre-order with its verdict, what is below a skipped entry left out. *)
Fixpoint pre_visits (path : list bytes) (n : Node) : list (list bytes * res Fault WalkResult) :=
  match n with
  | Directory _ es =>
      (fix go (es : Entries) :=
         match es with
         | [] => []
         | (x, c) :: es =>
             ((path ++ [x], d (path ++ [x]) c) ::
              match d (path ++ [x]) c with Ok Continue => pre_visits (path ++ [x]) c | _ => [] end) ++ go es
         end) es
  | _ => []
  end.

(** A walk stops after the first entry that aborts or fails. *)
Fixpoint upto_stop (l : list (list bytes * res Fault WalkResult)) : list (list bytes) * res Fault WalkResult :=
  match l with
  | [] => ([], Ok Continue)
  | (p, Ok Abort) :: _ => ([p], Ok Abort)
  | (p, Ok _) :: l => let '(v, r) := upto_stop l in (p :: v, r)
  | (p, r) :: _ => ([p], r)
  end.

(** A callback that records where it is called and decides by [d]. *)
Definition visit (path : list bytes) (x : bytes) (c : Node) : D (list (list bytes)) WalkResult := λ w,
  ((w.1 ++ [path ++ [x]], w.2), d (path ++ [x]) c).

Definition visits_list (path : list bytes) :=
  fix go (es : Entries) :=
    match es with
    | [] => []
    | (x, c) :: es =>
        ((path ++ [x], d (path ++ [x]) c) ::
         match d (path ++ [x]) c with Ok Continue => pre_visits (path ++ [x]) c | _ => [] end) ++ go es
    end.

Definition pre_order_list {S} (f : list bytes → bytes → Node → D S WalkResult) (path : list bytes) :=
  fix go (es : Entries) : D S WalkResult :=
    match es with
    | [] => mret Continue
    | (x, c) :: es =>
        r ← f path x c;
        match r with
        | Abort => mret Abort
        | Skip => go es
        | Continue =>
            if is_dir c then
              r ← in_dir x (pre_order_node f (path ++ [x]) c);
              match r with Abort => mret Abort | _ => go es end
            else go es
        end
    end.

Lemma upto_stop_app l k :
  upto_stop (l ++ k) =
    match (upto_stop l).2 with
    | Ok Continue => ((upto_stop l).1 ++ (upto_stop k).1, (upto_stop k).2)
    | r => ((upto_stop l).1, r)
    end.
Proof.
  induction l as [|[p r] l IH]; cbn; [by destruct (upto_stop k)|].
  destruct r as [[]| | |]; try done; rewrite IH; destruct (upto_stop l) as [v [[]| | |]]; try done.
Qed.

Lemma upto_stop_no_skip l : (upto_stop l).2 ≠ Ok Skip.
Proof. induction l as [|[p [[]| | |]] l IH]; cbn; try done; by destruct (upto_stop l). Qed.

Definition pre_order_ok (n : Node) : Prop :=
  match n with
  | Directory _ es => wf_node n → ∀ path log,
      pre_order_node visit path n (log, es) =
        ((log ++ (upto_stop (pre_visits path n)).1, es), (upto_stop (pre_visits path n)).2)
  | _ => True
  end.

Lemma in_dir_visit path x c cur log : pre_order_ok c → wf_node c → is_dir c = true → assoc x cur = Some c →
  in_dir x (pre_order_node visit path c) (log, cur) =
    ((log ++ (upto_stop (pre_visits path c)).1, cur), (upto_stop (pre_visits path c)).2).
Proof.
  intros Hok Hc Hd Hx. destruct c as [a ds| | |]; try done. unfold in_dir. cbn [fst snd]. rewrite Hx.
  rewrite Hok by done. by rewrite put_assoc.
Qed.

Lemma pre_order_list_spec path es cur log :
  Forall (λ e, pre_order_ok e.2) es → Forall (λ e, wf_node e.2) es → Forall (λ e, assoc e.1 cur = Some e.2) es →
  pre_order_list visit path es (log, cur) =
    ((log ++ (upto_stop (visits_list path es)).1, cur), (upto_stop (visits_list path es)).2).
Proof.
  intros IH. revert log. induction IH as [|[x c] es Hx _ IHes]; intros log Hwf Hcur; cbn -[upto_stop].
  - cbn. by rewrite app_nil_r.
  - apply Forall_cons in Hwf as [Hc Hwf]. apply Forall_cons in Hcur as [Hxc Hcur]. cbn [fst snd] in *.
    unfold mbind, D_bind, visit at 1. cbn [fst snd].
    change ((path ++ [x], ?r) :: ?l ++ ?k) with (((path ++ [x], r) :: l) ++ k). rewrite upto_stop_app.
    cbn [upto_stop]. specialize (λ log, IHes log Hwf Hcur).
    destruct (d (path ++ [x]) c) as [[]|e| |]; cbn [app fst snd upto_stop]; try done.
    + pose proof (upto_stop_no_skip (pre_visits (path ++ [x]) c)) as Hns.
      destruct (is_dir c) eqn:Hd.
      * rewrite in_dir_visit by done.
        destruct (upto_stop (pre_visits (path ++ [x]) c)) as [v [[]|e| |]]; try done; cbn [fst snd];
          rewrite ?IHes, <- ?app_assoc; done.
      * destruct c; try done; cbn [pre_visits upto_stop fst snd app]; rewrite IHes, <- ?app_assoc; done.
    + rewrite IHes, <- app_assoc. done.
Qed.

Lemma pre_order_node_ok n : pre_order_ok n.
Proof.
  induction n as [a es IH|i|a t|a k] using node_ind_all; try done.
  intros Hwf path log. apply wf_dir in Hwf as [Hnd Hwf].
  apply (pre_order_list_spec path es es log IH Hwf).
  apply Forall_forall. intros [x c] Hin. by apply assoc_elem.
Qed.

(** A pre-order walk whose callback only decides visits exactly the entries of the
    reference, in its order: those below a skipped entry are left out, nothing comes
    after the first entry that aborts or fails, its verdict is the walk's, and the
    directory is unchanged. *)
Theorem pre_order_walk_visits a es log : wf_node (Directory a es) →
  let v := upto_stop (pre_visits [] (Directory a es)) in
  pre_order_node visit [] (Directory a es) (log, es) = ((log ++ v.1, es), v.2).
Proof. intros Hwf v. exact (pre_order_node_ok (Directory a es) Hwf [] log). Qed.
End PreOrder.

(** *** Removal *)

Definition post_order_list {S} (f : list bytes → bytes → Node → D S WalkResult) (path : list bytes) :=
  fix go (es : Entries) : D S WalkResult :=
    match es with
    | [] => mret Continue
    | (x, c) :: es =>
        r ← (if is_dir c then in_dir x (post_order_node f (path ++ [x]) c) else mret Continue);
        match r with
        | Abort => mret Abort
        | _ =>
            r ← f path x c;
            match r with
            | Abort => mret Abort
            | Skip => mret Continue
            | Continue => go es
            end
        end
    end.

Definition empties (n : Node) : Prop :=
  match n with
  | Directory _ es => ∀ path, post_order_node unlink_entry path n (tt, es) = ((tt, []), Ok Continue)
  | _ => True
  end.

Lemma post_order_list_empties path es : Forall (λ e, empties e.2) es →
  post_order_list unlink_entry path es (tt, es) = ((tt, []), Ok Continue).
Proof.
  induction 1 as [|[x c] es Hc _ IH]; [done|]. cbn [snd] in Hc.
  cbn [post_order_list]. unfold mbind, D_bind, unlink_entry, mbind, D_bind.
  destruct c as [a ds|i|a t|a k]; cbn [is_dir].
  - unfold in_dir. cbn [fst snd assoc]. rewrite bool_decide_true, Hc by done. cbn [put].
    rewrite bool_decide_true by done. unfold unlink_at. cbn [fst snd assoc del negb].
    by rewrite !bool_decide_true by done.
  - cbn. unfold unlink_at. cbn. by rewrite !bool_decide_true by done.
  - cbn. unfold unlink_at. cbn. by rewrite !bool_decide_true by done.
  - cbn. unfold unlink_at. cbn. by rewrite !bool_decide_true by done.
Qed.

Lemma empties_all n : empties n.
Proof.
  induction n as [a es IH|i|a t|a k] using node_ind_all; try done.
  intros path. exact (post_order_list_empties path es IH).
Qed.

(** [Utf8CStr::remove_all] of what a path names. *)
Definition remove_all (slot : option Node) : option Node * res Fault unit :=
  match slot with
  | None => (None, Ok tt)
  | Some (Directory a es) =>
      match remove_entries (Directory a es) (tt, es) with
      | ((_, es), Ok _) =>
          match es with [] => (None, Ok tt) | _ => (Some (Directory a es), Err ENOTEMPTY) end
      | ((_, es), Err e) => (Some (Directory a es), Err e)
      | ((_, es), Panic) => (Some (Directory a es), Panic)
      | ((_, es), NoFuel) => (Some (Directory a es), NoFuel)
      end
  | Some _ => (None, Ok tt)
  end.

(** [remove_all] removes whatever a path names, a whole tree or nothing at all, and
    succeeds: the walk unlinks every directory after its entries. *)
Theorem remove_all_removes slot : remove_all slot = (None, Ok tt).
Proof.
  destruct slot as [[a es|i|a t|a k]|]; try done. unfold remove_all, remove_entries.
  by rewrite (empties_all (Directory a es) []).
Qed.

(** ** What a path names *)

Inductive Shape :=
  | SDir (a : Attr)
  | SFile (a : Attr) (data : bytes)
  | SLink (a : Attr) (target : bytes)
  | SSpecial (a : Attr) (kind : Device).

Definition shape (t : Inodes) (n : Node) : option Shape :=
  match n with
  | Directory a _ => Some (SDir a)
  | Regular i => (λ '(a, d), SFile a d) <$> t !! i
  | Symlink a l => Some (SLink a l)
  | Special a k => Some (SSpecial a k)
  end.

Fixpoint node_at (p : list bytes) (n : Node) : option Node :=
  match p with
  | [] => Some n
  | x :: p => match n with Directory _ es => assoc x es ≫= node_at p | _ => None end
  end.

Definition look_node (t : Inodes) (p : list bytes) (n : Node) : option Shape := node_at p n ≫= shape t.

(** The node an entry is, and what a path names in a directory. *)
Definition entry_at (p : list bytes) (es : Entries) : option Node :=
  match p with [] => None | x :: p => assoc x es ≫= node_at p end.
Definition look (t : Inodes) (p : list bytes) (es : Entries) : option Shape := entry_at p es ≫= shape t.

(** Every regular file has its inode in the table. *)
Definition closed_node (t : Inodes) (n : Node) : Prop :=
  ∀ p i, node_at p n = Some (Regular i) → is_Some (t !! i).
Definition closed (t : Inodes) (es : Entries) : Prop :=
  ∀ p i, entry_at p es = Some (Regular i) → is_Some (t !! i).

Lemma look_assoc t x p es : look t (x :: p) es = assoc x es ≫= look_node t p.
Proof. unfold look, look_node. cbn. by destruct (assoc x es). Qed.

Lemma look_dir t x p a es : look_node t (x :: p) (Directory a es) = look t (x :: p) es.
Proof. done. Qed.

Lemma closed_dir t a es : closed_node t (Directory a es) ↔ closed t es.
Proof.
  split; intros H p i Hp.
  - apply (H p). destruct p as [|x p]; [done|exact Hp].
  - apply (H p). destruct p as [|x p]; [done|exact Hp].
Qed.

Lemma closed_assoc t es x n : closed t es → assoc x es = Some n → closed_node t n.
Proof. intros H Hx p i Hp. apply (H (x :: p)). cbn. by rewrite Hx. Qed.

Lemma closed_intro t es : (∀ x n, assoc x es = Some n → closed_node t n) → closed t es.
Proof. intros H [|x p] i Hp; [done|]. cbn in Hp. destruct (assoc x es) as [n|] eqn:E; [|done]. by eapply H. Qed.

Lemma closed_node_mono t t' n : t ⊆ t' → closed_node t n → closed_node t' n.
Proof. intros Ht H p i [v Hv]%H. exists v. by eapply lookup_weaken. Qed.

Lemma closed_mono t t' es : t ⊆ t' → closed t es → closed t' es.
Proof. intros Ht H p i [v Hv]%H. exists v. by eapply lookup_weaken. Qed.

Lemma look_node_mono t t' p n : t ⊆ t' → closed_node t n → look_node t' p n = look_node t p n.
Proof.
  intros Ht Hc. unfold look_node. destruct (node_at p n) as [m|] eqn:E; [|done]. cbn.
  destruct m as [a es|i|a l|a k]; try done. cbn. destruct (Hc p i E) as [v Hv].
  rewrite Hv. by rewrite (lookup_weaken _ _ _ _ Hv Ht).
Qed.

Lemma look_mono t t' p es : t ⊆ t' → closed t es → look t' p es = look t p es.
Proof.
  intros Ht Hc. destruct p as [|x p]; [done|]. rewrite !look_assoc.
  destruct (assoc x es) as [n|] eqn:E; [|done]. cbn. apply look_node_mono; [done|by eapply closed_assoc].
Qed.

(** ** Copying *)

Section Copy.
Context (created : Z → Attr).

(** What a copy makes of the source's and the destination's entries of one path. *)
Definition merged (src old : option Shape) : option Shape :=
  match src with
  | Some (SDir a) => Some (SDir (with_attr a (match old with Some (SDir b) => b | _ => created 0x1ff end)))
  | Some (SFile a d) => Some (SFile (with_attr a (created 0x1ff)) d)
  | Some (SLink a l) => Some (SLink (with_link_attr a (created 0x1ff)) l)
  | Some (SSpecial _ _) | None => old
  end.

(** Files and links go where nothing is, directories also onto directories. *)
Definition compat (src old : option Shape) : Prop :=
  match src with
  | Some (SDir _) => old = None ∨ ∃ b, old = Some (SDir b)
  | Some (SFile _ _) | Some (SLink _ _) => old = None
  | Some (SSpecial _ _) | None => True
  end.

(** The paths down to an entry fit in the buffer. *)
Fixpoint within (dir : bytes) (p : list bytes) : Prop :=
  match p with
  | [] => True
  | x :: p => dir ≠ [] ∧ x ≠ [] ∧ Byte.x2f ∉ x ∧ (length (join_dir dir x) < 4096)%nat ∧ within (join_dir dir x) p
  end.

(** So does the target of a link, which is UTF-8; its new path is used too. *)
Definition fits (src dest : bytes) (p : list bytes) (s : option Shape) : Prop :=
  match s with
  | Some (SLink _ l) =>
      within src p ∧ within dest p ∧ l ≠ [] ∧ (length l < 4096)%nat ∧ utf8_valid l = true
  | Some _ => within src p
  | None => True
  end.

Lemma fits_within src dest p s : fits src dest p (Some s) → within src p.
Proof. destruct s; cbn; tauto. Qed.

Lemma fits_below src dest x p s : fits src dest (x :: p) s → fits (join_dir src x) (join_dir dest x) p s.
Proof. destruct s as [[]|]; cbn; tauto. Qed.

Lemma resolve_ok dir x p w : within dir (x :: p) → resolve_path dir x w = (w, Ok tt).
Proof.
  cbn [within]. intros (Hd & Hx & Hs & Hl & _). unfold resolve_path. rewrite bool_decide_true; [done|].
  assert (Hns : starts_with (bs "/") x = false).
  { destruct x as [|b x]; [done|]. unfold starts_with. cbn. case_bool_decide as E; [|done].
    destruct Hs. rewrite <- E. left. }
  assert (Hb : Buf.wf (Buf.new 4096)) by (apply Buf.wf_new_buf; lia).
  assert (Hc : Buf.capacity (Buf.new 4096) = 4096%nat) by apply length_replicate.
  assert (Hle : (length dir < length (join_dir dir x))%nat).
  { unfold join_dir. destruct (ends_with (bs "/") dir); rewrite !length_app; destruct x; cbn; try done; lia. }
  destruct (Buf.push_str_ok (Buf.new 4096) dir Hb) as (Hw1 & Hc1 & Hs1 & _).
  destruct (Buf.append_path_ok _ x Hw1) as (_ & _ & Hs2). unfold path_at. rewrite Hs2, Hc1, Hs1, Hc.
  change (Buf.as_str (Buf.new 4096)) with (@nil byte). rewrite Buf.bounded_push_nil by lia.
  cbn [Buf.spec_step]. rewrite Hns. unfold Buf.bounded_push, join_dir, Buf.path_sep, nonempty in *.
  rewrite (bool_decide_false (dir = [])) by done. clear - Hl.
  destruct (ends_with (bs "/") dir); cbn [andb negb app]; rewrite ?app_nil_r, <- ?app_assoc;
    apply take_ge; cbn [length] in *; lia.
Qed.

Lemma read_target_whole l : (length l < 4096)%nat → utf8_valid l = true → read_target l = l.
Proof. intros Hl Hu. unfold read_target. by rewrite take_ge, Hu by lia. Qed.

Definition copies (n : Node) : Prop := ∀ src dest name t cur,
  wf_node n → closed_node t n → closed t cur →
  (∀ q, compat (look_node t q n) (look t (name :: q) cur)) →
  (∀ q, fits src dest (name :: q) (look_node t q n)) →
  ∃ t' cur', copy_entry created src dest name n (t, cur) = ((t', cur'), Ok tt) ∧ t ⊆ t' ∧ closed t' cur' ∧
    (∀ x, x ≠ name → assoc x cur' = assoc x cur) ∧
    ∀ q, look t' (name :: q) cur' = merged (look_node t q n) (look t (name :: q) cur).

Lemma copy_into_list src dest es t cur :
  Forall (λ e, copies e.2) es → NoDup es.*1 → Forall (λ e, wf_node e.2) es →
  Forall (λ e, closed_node t e.2) es → closed t cur → (∀ p, compat (look t p es) (look t p cur)) →
  (∀ p, fits src dest p (look t p es)) →
  ∃ t' cur', copy_into created src dest es (t, cur) = ((t', cur'), Ok tt) ∧ t ⊆ t' ∧ closed t' cur' ∧
    ∀ p, look t' p cur' = merged (look t p es) (look t p cur).
Proof.
  intros Hall. revert t cur. induction Hall as [|[x n] es Hn _ IH]; intros t cur Hnd Hwf Hcl Hcur Hco Hfi.
  - exists t, cur. split_and!; try done. intros p. by destruct p.
  - apply NoDup_cons in Hnd as [Hx Hnd]. apply Forall_cons in Hwf as [Hwn Hwf].
    apply Forall_cons in Hcl as [Hcn Hcl]. cbn [fst snd] in *.
    destruct (Hn src dest x t cur Hwn Hcn Hcur) as (t1 & cur1 & E1 & Ht1 & Hc1 & Hne & Hq).
    { intros q. specialize (Hco (x :: q)). rewrite (look_assoc t x q ((x, n) :: es)) in Hco. cbn in Hco.
      by rewrite bool_decide_true in Hco by done. }
    { intros q. specialize (Hfi (x :: q)). rewrite look_assoc in Hfi. cbn [assoc] in Hfi.
      by rewrite bool_decide_true in Hfi by done. }
    assert (Hes : closed t es).
    { apply closed_intro. intros y m Hy%assoc_Some_elem. rewrite Forall_forall in Hcl. by apply (Hcl (y, m)). }
    destruct (IH t1 cur1 Hnd Hwf) as (t2 & cur2 & E2 & Ht2 & Hc2 & Hp2).
    { eapply Forall_impl; [exact Hcl|]. intros e. by apply closed_node_mono. }
    { done. }
    { intros [|y q]; [done|]. rewrite (look_mono t t1) by done.
      destruct (decide (y = x)) as [->|Hyx].
      - rewrite (look_assoc t x q es), assoc_None by done. done.
      - specialize (Hco (y :: q)). rewrite !(look_assoc t y) in Hco. cbn in Hco.
        rewrite bool_decide_false in Hco by done. rewrite (look_assoc t y), (look_assoc t1), Hne by done.
        rewrite <- !look_assoc, (look_mono t t1) by done. by rewrite !look_assoc. }
    { intros [|y q]; [done|]. rewrite (look_mono t t1) by done.
      destruct (decide (y = x)) as [->|Hyx].
      - by rewrite look_assoc, assoc_None by done.
      - specialize (Hfi (y :: q)). rewrite look_assoc in Hfi. cbn [assoc] in Hfi.
        rewrite bool_decide_false in Hfi by done. by rewrite look_assoc. }
    exists t2, cur2. split_and!; [|by etrans|done|].
    + cbn [copy_into]. unfold mbind, D_bind. by rewrite E1.
    + intros [|y q]; [done|]. rewrite Hp2, (look_mono t t1 _ es) by done.
      destruct (decide (y = x)) as [->|Hyx].
      * rewrite Hq, (look_assoc t x q es), (look_assoc t x q ((x, n) :: es)), (assoc_None x es) by done.
        cbn. by rewrite bool_decide_true.
      * rewrite (look_assoc t y q ((x, n) :: es)). cbn [assoc]. rewrite bool_decide_false by done.
        rewrite (look_assoc t y q es), (look_assoc t1 y), Hne by done.
        by rewrite <- !look_assoc, (look_mono t t1).
Qed.

(** *** One entry *)

Lemma closed_put t x n es : closed t es → closed_node t n → closed t (put x n es).
Proof.
  intros Hes Hn. apply closed_intro. intros y m Hy. destruct (decide (y = x)) as [->|Hne].
  - rewrite assoc_put_eq in Hy. by simplify_eq.
  - rewrite assoc_put_ne in Hy by done. by eapply closed_assoc.
Qed.

Lemma put_put x n m es : put x m (put x n es) = put x m es.
Proof.
  induction es as [|[y k] es IH]; cbn; [by rewrite bool_decide_true|].
  destruct (decide (y = x)) as [->|]; [rewrite !bool_decide_true by done; cbn; by rewrite bool_decide_true|].
  rewrite !bool_decide_false by done. cbn. rewrite bool_decide_false by done. by rewrite IH.
Qed.

Lemma look_put_eq t x n es q : look t (x :: q) (put x n es) = look_node t q n.
Proof. rewrite look_assoc, assoc_put_eq. done. Qed.

Lemma look_node_leaf t q n s : is_dir n = false → shape t n = Some s →
  look_node t q n = match q with [] => Some s | _ => None end.
Proof. intros Hd Hs. destruct q as [|x q]; [done|]. by destruct n. Qed.

Lemma copies_regular i : copies (Regular i).
Proof.
  intros src dest name t cur _ Hcn Hcl Hco Hfi. destruct (Hcn [] i eq_refl) as [[a d] Hi].
  assert (Hnone : assoc name cur = None).
  { specialize (Hco []). rewrite (look_node_leaf t [] _ (SFile a d)), look_assoc in Hco; [|done|by cbn; rewrite Hi].
    cbn in Hco. destruct (assoc name cur) as [[ | | | ]|] eqn:En; try done. cbn in Hco.
    destruct (closed_assoc _ _ _ _ Hcl En [] ino eq_refl) as [[b e] Hv]. by rewrite Hv in Hco. }
  set (j := fresh (dom t)).
  assert (Hj : t !! j = None) by (apply not_elem_of_dom, is_fresh).
  assert (Hij : i ≠ j) by congruence.
  set (v := (with_attr a (created 0x1ff), d)).
  exists (<[j := v]> t), (put name (Regular j) cur).
  assert (Ht : t ⊆ <[j := v]> t) by (by apply insert_subseteq).
  split_and!.
  - assert (Hr : within src [name]).
    { apply (fits_within src dest _ (SFile a d)). specialize (Hfi []). unfold look_node in Hfi. cbn in Hfi. by rewrite Hi in Hfi. }
    cbn [copy_entry]. unfold mbind, D_bind. rewrite (resolve_ok _ _ _ _ Hr). unfold get, attr_of. cbn [fst snd]. rewrite Hi. cbn [fmap option_fmap option_map of_option fst].
    unfold open_trunc. cbn [fst snd]. rewrite Hnone. fold j. unfold copy_data. cbn [fst snd].
    rewrite lookup_insert_ne, Hi by done. unfold set_inode_attr. cbn [fst snd].
    by rewrite !alter_insert_eq.
  - done.
  - apply closed_put; [by eapply closed_mono|]. intros [|x p] k Hk; [|done]. cbn in Hk. simplify_eq.
    rewrite lookup_insert_eq. by eexists.
  - intros x Hx. by apply assoc_put_ne.
  - intros q. rewrite look_put_eq, (look_node_leaf _ q _ (SFile (with_attr a (created 0x1ff)) d)); [|done|].
    + rewrite (look_node_leaf t q (Regular i) (SFile a d)); [|done|by cbn; rewrite Hi].
      rewrite look_assoc, Hnone. by destruct q.
    + cbn. by rewrite lookup_insert_eq.
Qed.

Lemma copies_symlink a l : copies (Symlink a l).
Proof.
  intros src dest name t cur _ Hcn Hcl Hco Hfi.
  assert (Hnone : assoc name cur = None).
  { specialize (Hco []). rewrite look_assoc in Hco. cbn in Hco.
    destruct (assoc name cur) as [[ | | | ]|] eqn:En; try done. cbn in Hco.
    destruct (closed_assoc _ _ _ _ Hcl En [] ino eq_refl) as [[b e] Hv]. by rewrite Hv in Hco. }
  exists t, (put name (Symlink (with_link_attr a (created 0x1ff)) l) cur). split_and!.
  - destruct (Hfi []) as (Hs & Hd & Hl & Hlen & Hu). cbn [copy_entry]. unfold mbind, D_bind.
    rewrite (resolve_ok _ _ _ _ Hs). unfold get, attr_of, create_symlink_at. cbn [fst snd].
    rewrite read_target_whole, bool_decide_false by done. cbn [fst snd].
    rewrite Hnone, (resolve_ok _ _ _ _ Hd). unfold set_symlink_attr. cbn [fst snd]. rewrite assoc_put_eq.
    by rewrite put_put.
  - done.
  - apply closed_put; [done|]. intros [|x p] i Hi; done.
  - intros x Hx. by apply assoc_put_ne.
  - intros q. rewrite look_put_eq, look_assoc, Hnone. destruct q as [|x q]; done.
Qed.

Lemma copies_special a k : copies (Special a k).
Proof.
  intros src dest name t cur _ _ Hcl _ Hfi. exists t, cur. split_and!; try done; [|by intros [|x q]].
  cbn [copy_entry]. unfold mbind, D_bind. by rewrite (resolve_ok _ _ _ _ (Hfi [] : within src [name])).
Qed.

Lemma copies_directory a es : Forall (λ e, copies e.2) es → copies (Directory a es).
Proof.
  intros IH src dest name t cur [Hnd Hwf]%wf_dir Hcn Hcl Hco Hfi.
  assert (Hes : closed t es) by (by apply (closed_dir t a)).
  assert (Hfor : Forall (λ e, closed_node t e.2) es).
  { apply Forall_forall. intros [x n] Hin. eapply closed_assoc; [exact Hes|]. by apply assoc_elem. }
  (* the directory the entries go to *)
  assert (∃ b ds, mkdir_at created name 0x1ff (t, cur) = ((t, put name (Directory b ds) cur), Ok tt) ∧
            closed t ds ∧ b = match look t [name] cur with Some (SDir b) => b | _ => created 0x1ff end ∧
            ∀ x q, look t (name :: x :: q) cur = look t (x :: q) ds) as (b & ds & Em & Hds & Hb & Hq).
  { specialize (Hco []). rewrite look_assoc in Hco. unfold mkdir_at. cbn [fst snd].
    destruct (assoc name cur) as [m|] eqn:En.
    - cbn in Hco. pose proof (closed_assoc _ _ _ _ Hcl En) as Hm.
      destruct m as [b ds|i|b l|b k]; cbn in Hco.
      + exists b, ds. rewrite put_assoc by done. split_and!; [done|by apply (closed_dir t b)|by rewrite look_assoc, En|].
        intros x q. rewrite look_assoc, En. done.
      + destruct (Hm [] i eq_refl) as [[? ?] Hv]. rewrite Hv in Hco. naive_solver.
      + naive_solver.
      + naive_solver.
    - exists (created 0x1ff), []. split_and!; [done|by intros [|x p]|by rewrite look_assoc, En|].
      intros x q. rewrite look_assoc, En. by rewrite look_assoc. }
  destruct (copy_into_list (join_dir src name) (join_dir dest name) es t ds IH Hnd Hwf Hfor Hds)
    as (t' & ds' & E & Ht & Hc' & Hp).
  { intros [|x q]; [done|]. specialize (Hco (x :: q)). by rewrite look_dir, Hq in Hco. }
  { intros [|x q]; [done|]. apply fits_below. specialize (Hfi (x :: q)). by rewrite look_dir in Hfi. }
  exists t', (put name (Directory (with_attr a b) ds') cur). split_and!.
  - cbn [copy_entry]. unfold mbind, D_bind. rewrite (resolve_ok _ _ _ _ (Hfi [] : within src [name])).
    unfold get, attr_of. cbn [fst snd]. rewrite Em. unfold in_dir. cbn [fst snd]. rewrite assoc_put_eq.
    match goal with |- context [(?g es) (t, ds)] =>
      change (g es (t, ds)) with (copy_into created (join_dir src name) (join_dir dest name) es (t, ds)) end.
    rewrite E. unfold set_dir_attr. cbn [fst snd]. by rewrite assoc_put_eq, !put_put.
  - done.
  - apply closed_put; [by eapply closed_mono|]. by apply closed_dir.
  - intros x Hx. by apply assoc_put_ne.
  - intros q. rewrite look_put_eq. destruct q as [|x q].
    + cbn. by rewrite Hb.
    + rewrite look_dir, Hp, Hq. done.
Qed.

Lemma copies_all n : copies n.
Proof.
  induction n as [a es IH|i|a t|a k] using node_ind_all;
    [by apply copies_directory|apply copies_regular|apply copies_symlink|apply copies_special].
Qed.
End Copy.


(** ** Linking *)

(** The tree with every directory made anew and every other node shared. *)
Fixpoint linked (created : Z → Attr) (n : Node) : Node :=
  match n with
  | Directory a es =>
      Directory (with_attr a (created 0x1ff))
        ((fix go (es : Entries) : Entries :=
            match es with [] => [] | (x, c) :: es => (x, linked created c) :: go es end) es)
  | _ => n
  end.

Lemma linked_dir created a es :
  linked created (Directory a es) =
    Directory (with_attr a (created 0x1ff)) ((λ e, (e.1, linked created e.2)) <$> es).
Proof. cbn [linked]. f_equal. induction es as [|[x c] es IH]; [done|]. cbn. by rewrite <- IH. Qed.

Lemma put_absent x n es : assoc x es = None → put x n es = es ++ [(x, n)].
Proof.
  induction es as [|[y m] es IH]; cbn; [done|]. case_bool_decide; [done|]. intros Hx. by rewrite IH.
Qed.

(** Every directory's path fits in the buffer. *)
Fixpoint dirs_fit (src name : bytes) (n : Node) : Prop :=
  match n with
  | Directory _ es =>
      within src [name] ∧
      (fix go (es : Entries) : Prop :=
         match es with [] => True | (x, c) :: es => dirs_fit (join_dir src name) x c ∧ go es end) es
  | _ => True
  end.

Lemma dirs_fit_dir src name a es :
  dirs_fit src name (Directory a es) ↔ within src [name] ∧ Forall (λ e, dirs_fit (join_dir src name) e.1 e.2) es.
Proof.
  cbn [dirs_fit]. apply and_iff_compat_l. induction es as [|[x c] es IH]; [done|].
  rewrite Forall_cons. cbn [fst snd]. by rewrite IH.
Qed.

Definition links created (n : Node) : Prop := ∀ src name t cur, wf_node n → dirs_fit src name n → assoc name cur = None →
  link_entry created src name n (t, cur) = ((t, cur ++ [(name, linked created n)]), Ok tt).

Lemma link_into_list created src es t cur : Forall (λ e, links created e.2) es → NoDup es.*1 →
  Forall (λ e, wf_node e.2) es → Forall (λ e, dirs_fit src e.1 e.2) es → (∀ x, x ∈ es.*1 → assoc x cur = None) →
  link_into created src es (t, cur) = ((t, cur ++ ((λ e, (e.1, linked created e.2)) <$> es)), Ok tt).
Proof.
  intros IH. revert cur. induction IH as [|[x n] es Hn _ IH]; intros cur Hnd Hwf Hfi Hcur; cbn [link_into fmap list_fmap].
  - by rewrite app_nil_r.
  - apply NoDup_cons in Hnd as [Hx Hnd]. apply Forall_cons in Hwf as [Hwn Hwf]. cbn [fst snd] in *.
    apply Forall_cons in Hfi as [Hfn Hfi]. cbn [fst snd] in Hfn.
    unfold mbind, D_bind. rewrite Hn; [|done|done|apply Hcur; left].
    rewrite IH, <- app_assoc; [done|done|done|done|].
    intros y Hy. rewrite <- put_absent by (apply Hcur; left).
    rewrite assoc_put_ne by (intros ->; done). apply Hcur. by right.
Qed.

Lemma links_all created n : links created n.
Proof.
  induction n as [a es IH|i|a l|a k] using node_ind_all; intros src name t cur Hwf Hfi Hname.
  - apply wf_dir in Hwf as [Hnd Hwf]. apply dirs_fit_dir in Hfi as [Hr Hfi].
    pose proof (link_into_list created (join_dir src name) es t [] IH Hnd Hwf Hfi (λ _ _, eq_refl)) as E.
    rewrite linked_dir. cbn [link_entry]. unfold mbind, D_bind, mkdir_at. cbn [fst snd]. rewrite Hname.
    rewrite (resolve_ok _ _ _ _ Hr). unfold in_dir. cbn [fst snd]. rewrite assoc_put_eq.
    match goal with |- context [(?g es) (t, [])] => change (g es (t, [])) with (link_into created (join_dir src name) es (t, [])) end.
    rewrite E. unfold set_dir_attr. cbn [fst snd]. rewrite assoc_put_eq, !put_put. by rewrite put_absent.
  - cbn. unfold link_at. cbn. by rewrite Hname, put_absent.
  - cbn. unfold link_at. cbn. by rewrite Hname, put_absent.
  - cbn. unfold link_at. cbn. by rewrite Hname, put_absent.
Qed.

(** Linking a directory into an empty one rebuilds its directories, each with the
    permission bits, owner and context it had, and shares every other node with it: the
    same inodes, no file created and none changed.  The paths of the directories have to
    fit in the buffer. *)
Theorem link_into_mirrors created src a es t : wf_node (Directory a es) →
  Forall (λ e, dirs_fit src e.1 e.2) es →
  link_into created src es (t, []) = ((t, (λ e, (e.1, linked created e.2)) <$> es), Ok tt).
Proof.
  intros [Hnd Hwf]%wf_dir Hfi. apply (link_into_list created src es t []); try done.
  apply Forall_forall. intros e _. apply links_all.
Qed.

(** ** Moving *)

Definition move_list :=
  fix go (es : Entries) (src dest : Entries) : Entries * Entries * res Fault unit :=
    match es with
    | [] => (src, dest, Ok tt)
    | (x, c) :: es =>
        if is_dir c && contains_path x dest then
          match assoc x dest with
          | Some (Directory b ds) =>
              let '(cs, ds, r) := move_node c ds in
              let dest := put x (Directory b ds) dest in
              let src := match c with Directory a _ => put x (Directory a cs) src | _ => src end in
              match r with
              | Ok _ => let '(_, src, r) := unlink_at (S := unit) x true (tt, src) in (src, dest, r)
              | r => (src, dest, r)
              end
          | Some (Symlink _ _) => (src, dest, Err Escapes)
          | _ => (src, dest, Err ENOTDIR)
          end
        else
          match rename_at x src dest with
          | (src, dest, Ok _) => go es src dest
          | r => r
          end
    end.

(** What can be renamed: nothing is there, or something that is not a directory takes
    the place of another file that is not one. *)
Definition movable (dest : Entries) (e : bytes * Node) : Prop :=
  match assoc e.1 dest with
  | None => True
  | Some m => is_dir e.2 = false ∧ is_dir m = false ∧ ∀ i, ~ (e.2 = Regular i ∧ m = Regular i)
  end.

Definition put_all (es dest : Entries) : Entries := foldl (λ d e, put e.1 e.2 d) dest es.

Lemma rename_movable x n src dest : movable dest (x, n) →
  rename_at x ((x, n) :: src) dest = (src, put x n dest, Ok tt).
Proof.
  unfold movable, rename_at. cbn. rewrite !bool_decide_true by done.
  destruct (assoc x dest) as [m|]; [|done]. intros (Hn & Hm & Hi).
  destruct m as [b ds|j|b l|b k]; try done; rewrite Hn; destruct n as [a es|i|a l'|a k']; try done.
  destruct (Z.eqb_spec i j) as [->|]; [|done]. exfalso. by apply (Hi j).
Qed.

Lemma move_list_app es tl dest : NoDup es.*1 → Forall (movable dest) es →
  move_list (es ++ tl) (es ++ tl) dest = move_list tl tl (put_all es dest).
Proof.
  revert dest. induction es as [|[x n] es IH]; intros dest Hnd Hmv; [done|].
  apply NoDup_cons in Hnd as [Hx Hnd]. apply Forall_cons in Hmv as [Hn Hmv]. cbn [fst] in Hx.
  cbn [app move_list put_all foldl fst snd].
  assert (is_dir n && contains_path x dest = false) as ->.
  { unfold movable, contains_path in *. cbn in Hn. destruct (assoc x dest); [|by rewrite andb_false_r].
    destruct Hn as [-> _]. done. }
  rewrite rename_movable by done. apply IH; [done|].
  apply Forall_forall. intros [y m] Hin. rewrite Forall_forall in Hmv. specialize (Hmv (y, m) Hin).
  unfold movable in *. cbn [fst snd] in *. rewrite assoc_put_ne; [done|].
  intros ->. apply Hx, list_elem_of_fmap. by exists (x, m).
Qed.

Lemma assoc_put_all es dest x : NoDup es.*1 →
  assoc x (put_all es dest) = match assoc x es with Some n => Some n | None => assoc x dest end.
Proof.
  revert dest. induction es as [|[y n] es IH]; intros dest Hnd; [done|].
  apply NoDup_cons in Hnd as [Hy Hnd]. cbn [put_all foldl fst snd assoc].
  fold (put_all es (put y n dest)). rewrite IH by done.
  destruct (decide (y = x)) as [->|Hne].
  - by rewrite bool_decide_true, assoc_None, assoc_put_eq by done.
  - by rewrite bool_decide_false, assoc_put_ne by done.
Qed.

(** Moving the entries of a directory into another one when every entry can be
    renamed leaves the first empty; in the second, every name of the first names its
    node and every other name is as it was. *)
Theorem move_into_moves a es dest : NoDup es.*1 → Forall (movable dest) es →
  move_node (Directory a es) dest = ([], put_all es dest, Ok tt) ∧
  ∀ x, assoc x (put_all es dest) = match assoc x es with Some n => Some n | None => assoc x dest end.
Proof.
  intros Hnd Hmv. split.
  - change (move_node (Directory a es) dest) with (move_list es es dest).
    pose proof (move_list_app es [] dest Hnd Hmv) as E. by rewrite app_nil_r in E.
  - intros x. by apply assoc_put_all.
Qed.

(** The first entry that is a directory the destination has too ends the move: it is
    merged and removed, and the entries after it stay where they were, although the
    call succeeds. *)
Theorem move_into_stops a pre x b cs post dest c ds :
  NoDup (pre ++ (x, Directory b cs) :: post).*1 → NoDup cs.*1 →
  Forall (movable dest) pre → Forall (movable ds) cs → assoc x dest = Some (Directory c ds) →
  move_node (Directory a (pre ++ (x, Directory b cs) :: post)) dest =
    (post, put x (Directory c (put_all cs ds)) (put_all pre dest), Ok tt).
Proof.
  intros Hnd Hcs Hpre Hmv Hx.
  rewrite fmap_app in Hnd. apply NoDup_app in Hnd as (Hnd & Hdis & _).
  change (move_node (Directory a (pre ++ (x, Directory b cs) :: post)) dest)
    with (move_list (pre ++ (x, Directory b cs) :: post) (pre ++ (x, Directory b cs) :: post) dest).
  rewrite move_list_app by done. cbn [move_list is_dir].
  assert (Hx' : assoc x (put_all pre dest) = Some (Directory c ds)).
  { rewrite assoc_put_all by done. rewrite assoc_None; [done|].
    intros Hin. apply (Hdis x Hin). left. }
  unfold contains_path. rewrite Hx'. cbn [andb].
  change (move_node (Directory b cs) ds) with (move_list cs cs ds).
  pose proof (move_list_app cs [] ds Hcs Hmv) as E. rewrite app_nil_r in E. rewrite E. cbn [move_list put].
  rewrite bool_decide_true by done. unfold unlink_at. cbn [fst snd assoc del negb].
  by rewrite !bool_decide_true by done.
Qed.

(** ** Witnesses *)

Definition attr0 : Attr := mkAttr 0x1ed 0 0 (bs "u:object_r:system_file:s0").
Definition sample_inodes : Inodes := {[ 1 := (mkAttr 0x9ed 0 2000 [], bs "elf") ]}.
Definition sample_src : Entries :=
  [(bs "bin", Directory attr0 [(bs "su", Symlink attr0 (bs "./magisk")); (bs "magisk", Regular 1)]);
   (bs "pipe", Special attr0 (mkDev 0x1000 0))].
Definition sample_dest : Entries := [(bs "bin", Directory attr0 [(bs "sh", Symlink attr0 (bs "mksh"))])].

Lemma sample_wf : wf_node (Directory attr0 sample_src).
Proof.
  apply wf_dir. split; [by_compute|]. apply Forall_forall. intros [x n] Hin. unfold sample_src in Hin.
  repeat (apply elem_of_cons in Hin as [E|Hin]; [simplify_eq; cbn [snd]|]);
    [apply wf_dir; split; [by_compute|by repeat constructor]|done|by apply elem_of_nil in Hin].
Qed.

(** A walk that skips what is in [bin] and aborts at the pipe. *)
Definition sample_decision (p : list bytes) (n : Node) : res Fault WalkResult :=
  match n with Directory _ _ => Ok Skip | Special _ _ => Ok Abort | _ => Ok Continue end.

Lemma pre_order_walk_visits_witness :
  pre_order_node (visit sample_decision) [] (Directory attr0 sample_src) ([], sample_src) =
    (([[bs "bin"]; [bs "pipe"]], sample_src), Ok Abort).
Proof. exact (pre_order_walk_visits sample_decision attr0 sample_src [] sample_wf). Defined.

Lemma closed_leaves t es : Forall (λ e, ∀ i, node_at [] e.2 = Some (Regular i) → is_Some (t !! i)) es →
  Forall (λ e, is_dir e.2 = false) es → closed t es.
Proof.
  intros Hi Hd. apply closed_intro. intros x n Hn%assoc_Some_elem [|y p] i Hp.
  - rewrite Forall_forall in Hi. by apply (Hi (x, n)).
  - rewrite Forall_forall in Hd. specialize (Hd _ Hn). by destruct n.
Qed.

Lemma sample_closed : closed sample_inodes sample_src ∧ closed sample_inodes sample_dest.
Proof.
  split; apply closed_intro; intros x n Hn%assoc_Some_elem; unfold sample_src, sample_dest in Hn;
    repeat (apply elem_of_cons in Hn as [E|Hn]; [simplify_eq|]); try by apply elem_of_nil in Hn.
  - apply closed_dir, closed_leaves; repeat constructor; cbn; intros; simplify_eq. by eexists.
  - intros [|y p] i Hi; done.
  - apply closed_dir, closed_leaves; repeat constructor; cbn; intros; simplify_eq.
Qed.

(** Only [bin] is in both, a directory. *)
Lemma sample_compat p : compat (look sample_inodes p sample_src) (look sample_inodes p sample_dest).
Proof.
  destruct p as [|x p]; [done|]. rewrite !look_assoc. unfold sample_src, sample_dest. cbn [assoc].
  case_bool_decide as Hb; [|case_bool_decide; [by destruct p|done]].
  destruct p as [|y p]; [right; by exists attr0|]. unfold look_node. cbn [mbind option_bind node_at assoc].
  case_bool_decide as H1; [subst y; rewrite bool_decide_false by done; by destruct p|].
  case_bool_decide as H2; [subst y; rewrite bool_decide_false by done; by destruct p|done].
Qed.

#[global] Instance within_dec dir p : Decision (within dir p).
Proof. revert dir. induction p; intros dir; cbn [within]; apply _. Defined.
#[global] Instance fits_dec src dest p s : Decision (fits src dest p s).
Proof. destruct s as [[]|]; cbn [fits]; apply _. Defined.

Definition from_path : bytes := bs "/data/module".
Definition to_path : bytes := bs "/data/copy".

Lemma sample_fits p : fits from_path to_path p (look sample_inodes p sample_src).
Proof.
  destruct p as [|x p]; [done|]. rewrite look_assoc. unfold sample_src. cbn [assoc].
  case_bool_decide; [subst x|case_bool_decide; [subst x; destruct p; [by_compute|done]|done]].
  destruct p as [|y p]; [by_compute|]. unfold look_node. cbn [mbind option_bind node_at assoc].
  case_bool_decide; [subst y; destruct p; [by_compute|done]|].
  case_bool_decide; [subst y; destruct p; [by_compute|done]|done].
Qed.


(** A move that leaves the second entry behind. *)
Example move_leaves_entries :
  move_node (Directory attr0 sample_src) sample_dest =
    ([(bs "pipe", Special attr0 (mkDev 0x1000 0))],
     [(bs "bin", Directory attr0 [(bs "sh", Symlink attr0 (bs "mksh")); (bs "su", Symlink attr0 (bs "./magisk"));
                                  (bs "magisk", Regular 1)])], Ok tt).
Proof. vm_compute. reflexivity. Qed.
