(* ===== verification/Restorecon.v ===== *)
(** Restorecon: the SELinux contexts of Magisk's files, [native/src/core/selinux.rs].

    The state is the contexts of the files by their full names.  The directories walked
    are [Dir]'s trees; the path is one fixed-size buffer that is cut and extended on the
    way, as in the code. *)

From S2P Require Import Prelude Cstr Io Sys.
From S2P Require Dir.

Inductive ConOp :=
  | GetCon (p : bytes)
  | SetCon (p con : bytes)
  | LChown (p : bytes)
  | OpenDir (p : bytes)
  | ReadDir (p : bytes)
  | ChmodTo (p : bytes) (mode : Z)
  | OpenContext
  | WriteContext (con : bytes).

Abbreviation Contexts := (gmap bytes bytes).
Abbreviation C := (Sys Contexts ConOp).

Definition UNLABEL_CON : bytes := bs "u:object_r:unlabeled:s0".
Definition SYSTEM_CON : bytes := bs "u:object_r:system_file:s0".
Definition ADB_CON : bytes := bs "u:object_r:adb_data_file:s0".
Definition ROOT_CON : bytes := bs "u:object_r:rootfs:s0".
Definition MAGISK_LOG_CON : bytes := bs "u:object_r:magisk_log_file:s0".

Section Calls.
Context (env : Env ConOp).

(** A file without a context has the empty one. *)
Definition get_secontext (p : bytes) : C bytes := λ m h,
  if env h (GetCon p) then (m, h ++ [GetCon p], Ok (default [] (m !! p))) else (m, h ++ [GetCon p], Err tt).
Definition set_secontext (p con : bytes) : C unit := do_ env (SetCon p con) (<[p := con]>) (λ m, m).

(** Files and links are treated alike, other entries left alone. *)
Definition file_or_link (n : Dir.Node) : bool := match n with Dir.Regular _ | Dir.Symlink _ _ => true | _ => false end.

Definition relabel (path : Buf.Buf) : C unit :=
  con ← try_ (get_secontext (Buf.as_str path));
  if bool_decide (con = Some UNLABEL_CON) then set_secontext (Buf.as_str path) SYSTEM_CON else mret tt.

Definition label (path : Buf.Buf) : C unit :=
  _ ← set_secontext (Buf.as_str path) SYSTEM_CON;
  ok_ (ask env (LChown (Buf.as_str path))).

(** The walk of both functions, which differ in what they do at a path.  The path is cut
    to the directory's before each name. *)
Fixpoint restore (act : Buf.Buf → C unit) (n : Dir.Node) (path : Buf.Buf) : C Buf.Buf :=
  match n with
  | Dir.Directory _ es =>
      _ ← act path;
      _ ← ask env (OpenDir (Buf.as_str path));
      (fix go (es : Dir.Entries) (dir : bytes) (dir_path_len : nat) (path : Buf.Buf) : C Buf.Buf :=
         _ ← ask env (ReadDir dir);
         match es with
         | [] => mret path
         | (name, c) :: es =>
             let path := Buf.append_path (Buf.truncate path dir_path_len) name in
             path ← (if Dir.is_dir c then restore act c path
                     else if file_or_link c then _ ← act path; mret path
                     else mret path);
             go es dir dir_path_len path
         end) es (Buf.as_str path) (Buf.used path) path
  | _ => _ ← act path; _ ← ask env (OpenDir (Buf.as_str path)); throw
  end.
Definition restore_syscon_from_unlabeled : Dir.Node → Buf.Buf → C Buf.Buf := restore relabel.
Definition restore_syscon : Dir.Node → Buf.Buf → C Buf.Buf := restore label.

Definition SECURE_DIR : bytes := bs "/data/adb".
Definition MODULEROOT : bytes := bs "/data/adb/modules".
Definition DATABIN : bytes := bs "/data/adb/magisk".
Definition MAGISKDB : bytes := bs "/data/adb/magisk.db".

(** [modules], [databin]: what is at these paths.  The root directory gets its context
    if the kernel knows that.  What the first walk left in the buffer is cleared. *)
Definition restorecon (modules databin : Dir.Node) : C unit :=
  known ← is_ok_ (_ ← ask env OpenContext; ask env (WriteContext ADB_CON));
  _ ← (if known : bool then ok_ (set_secontext SECURE_DIR ADB_CON) else mret tt);
  let path := (Buf.push_str (Buf.new 4096) MODULEROOT).1 in
  _ ← ok_ (set_secontext (Buf.as_str path) SYSTEM_CON);
  _ ← ok_ (restore_syscon_from_unlabeled modules path);
  let path := (Buf.push_str (Buf.clear path) DATABIN).1 in
  _ ← ok_ (restore_syscon databin path);
  ok_ (ask env (ChmodTo MAGISKDB 0)).

(** [names]: the entries of the directory with their kinds; [resolve_path] gives the name
    below it. *)
Definition restore_tmpcon (tmp : bytes) (es : Dir.Entries) : C unit :=
  _ ← (if bool_decide (tmp = bs "/sbin") then set_secontext tmp ROOT_CON
       else ok_ (ask env (ChmodTo tmp 0x1c9)));
  _ ← ask env (OpenDir tmp);
  _ ← (fix go (es : Dir.Entries) : C unit :=
         _ ← ask env (ReadDir tmp);
         match es with
         | [] => mret tt
         | (name, c) :: es =>
             _ ← (match c with
                  | Dir.Symlink _ _ => mret tt
                  | _ => ok_ (set_secontext (tmp ++ bs "/" ++ name) SYSTEM_CON)
                  end);
             go es
         end) es;
  set_secontext (Buf.as_str (Buf.append_path (Buf.append_path (Buf.clear (Buf.new 4096)) tmp) (bs ".magisk/device/log")))
    MAGISK_LOG_CON.

Definition lgetfilecon (p : bytes) : C bool := is_ok_ (get_secontext p).
(** [follow]: the file that a link leads to. *)
Definition setfilecon (follow : bytes → bytes) (p con : bytes) : C bool := is_ok_ (set_secontext (follow p) con).
End Calls.

(** ** Which contexts are set *)

Definition join (dir name : bytes) : bytes := dir ++ Buf.path_sep dir ++ name.

(** The paths an action is done at: the directory, and everything in it but devices and the
    like. *)
Fixpoint labelled (n : Dir.Node) (s : bytes) : list bytes :=
  match n with
  | Dir.Directory _ es =>
      s :: (fix go (es : Dir.Entries) : list bytes :=
              match es with
              | [] => []
              | (name, c) :: es =>
                  (if Dir.is_dir c then labelled c (join s name)
                   else if file_or_link c then [join s name] else []) ++ go es
              end) es
  | _ => []
  end.

(** Names as [readdir] gives them, and paths that fit the buffer. *)
Fixpoint fits (n : Dir.Node) (s : bytes) : Prop :=
  (length s < 4096)%nat ∧
  match n with
  | Dir.Directory _ es =>
      (fix go (es : Dir.Entries) : Prop :=
         match es with [] => True | (name, c) :: es => starts_with (bs "/") name = false ∧ fits c (join s name) ∧ go es end) es
  | _ => True
  end.

Definition at_path (b : Buf.Buf) (s : bytes) : Prop := Buf.wf b ∧ Buf.capacity b = 4096%nat ∧ Buf.as_str b = s.

Lemma at_append b s n name t :
  Buf.wf b → Buf.capacity b = 4096%nat → Buf.as_str b = s ++ t → n = length s →
  starts_with (bs "/") name = false → (length (join s name) < 4096)%nat →
  at_path (Buf.append_path (Buf.truncate b n) name) (join s name).
Proof.
  intros Hw Hc Hs -> Hn Hl. destruct (Buf.truncate_ok b (length s) Hw) as (Hw1 & Hc1 & Hs1).
  rewrite Hs, take_app_length in Hs1.
  destruct (Buf.append_path_ok (Buf.truncate b (length s)) name Hw1) as (Hw2 & Hc2 & Hs2).
  split; [done|]. rewrite Hc2, Hc1. split; [done|]. rewrite Hs2. cbn [Buf.spec_step]. rewrite Hs1, Hn, Hc1, Hc.
  unfold Buf.bounded_push. rewrite take_ge; [by rewrite <- app_assoc|].
  unfold join in Hl. rewrite app_assoc in Hl. cbn. lia.
Qed.

Section Walk.
Context (env : Env ConOp) (He : ∀ h o, env h o = true).
Context (act : Buf.Buf → C unit) (eff : bytes → Contexts → Contexts).
Context (Hact : ∀ b s, at_path b s → gives (act b) tt (eff s)).

(** Where a walk leaves the buffer: below the path it started at. *)
Definition below (s : bytes) (b : Buf.Buf) : Prop :=
  Buf.wf b ∧ Buf.capacity b = 4096%nat ∧ ∃ t, Buf.as_str b = s ++ t.

Lemma below_join s name b : below (join s name) b → below s b.
Proof. intros (Hw & Hc & t & Ht). split; [done|]. split; [done|]. unfold join in Ht. rewrite <- app_assoc in Ht. eauto. Qed.

Lemma at_below b s : at_path b s → below s b.
Proof. intros (Hw & Hc & Hs). split; [done|]. split; [done|]. exists []. by rewrite app_nil_r. Qed.

(** From [x], the walk does at the paths what the action would from [y] on. *)
Definition walks_from (m : C Buf.Buf) (s : bytes) (ps : list bytes) (x y : Contexts) : Prop :=
  ∀ h, ∃ b t, m x h = (foldl (λ x p, eff p x) y ps, h ++ t, Ok b) ∧ below s b.
Definition walks (m : C Buf.Buf) (s : bytes) (ps : list bytes) : Prop := ∀ x, walks_from m s ps x x.

Lemma walks_bind m k s ps qs :
  walks m s ps → (∀ b, below s b → walks (k b) s qs) → walks (mbind k m) s (ps ++ qs).
Proof.
  intros Hm Hk x h. destruct (Hm x h) as (b & t & E & Hb). destruct (Hk b Hb (foldl (λ x p, eff p x) x ps) (h ++ t)) as (b' & u & E' & Hb').
  exists b', (t ++ u). unfold mbind, sys_bind. rewrite E, E', foldl_app, app_assoc. done.
Qed.

Lemma walks_step (m : C unit) k f s ps x y : gives m tt f → walks_from (k tt) s ps (f x) y → walks_from (mbind k m) s ps x y.
Proof.
  intros Hm Hk h. destruct (Hm x h) as [t E]. destruct (Hk (h ++ t)) as (b & u & E' & Hb).
  exists b, (t ++ u). unfold mbind, sys_bind. rewrite E, E', app_assoc. done.
Qed.

Lemma gives_call o : gives (ask env o : C unit) tt (λ x, x).
Proof. by apply gives_do. Qed.

Lemma walks_ret b s : below s b → walks (mret b) s [].
Proof. intros Hb x h. exists b, []. by rewrite app_nil_r. Qed.

Lemma walks_here b s s' : at_path b s' → below s b → walks (_ ← act b; mret b) s [s'].
Proof.
  intros Ha Hb x. apply (walks_step _ _ (eff s')); [by apply Hact|]. exact (walks_ret b s Hb (eff s' x)).
Qed.

Lemma restore_walks n : ∀ b s, Dir.is_dir n = true → fits n s → at_path b s →
  walks (restore env act n b) s (labelled n s).
Proof.
  induction n as [a es IH|i|a t|a k] using Dir.node_ind_all; try done.
  intros b s _ [Hl Hfit] Hb x. cbn [restore labelled].
  apply (walks_step _ _ (eff s)); [by apply Hact|].
  apply (walks_step _ _ (λ x, x)); [apply gives_call|].
  match goal with |- walks_from ?m s (s :: ?ps) _ _ => change (walks_from m s ps (eff s x) (eff s x)) end.
  generalize (eff s x). clear x.
  assert (Buf.as_str b = s) as Es by apply Hb.
  assert (Buf.used b = length s) as -> by (rewrite <- Es; symmetry; apply Buf.length_as_str, Hb).
  generalize (Buf.as_str b) as dir. apply at_below in Hb. clear Es. revert b Hb Hfit.
  induction IH as [|[name c] es Hc _ IHes]; intros b Hb Hfit dir x;
    (apply (walks_step _ _ (λ x, x)); [apply gives_call|]); [by apply walks_ret|].
  destruct Hfit as (Hn & Hfc & Hfit). destruct Hb as (Hw & Hcap & t & Ht).
  assert (at_path (Buf.append_path (Buf.truncate b (length s)) name) (join s name)) as Hat.
  { eapply at_append; eauto. destruct c; apply Hfc. }
  cbn zeta. revert x. apply walks_bind; [|intros b' Hb' x; by apply IHes].
  destruct (Dir.is_dir c) eqn:Ed.
  - intros z k. destruct (Hc _ _ Ed Hfc Hat z k) as (b' & u & E & Hb'). exists b', u.
    split; [done|]. by eapply below_join.
  - pose proof (below_join _ _ _ (at_below _ _ Hat)) as Hbel.
    destruct (file_or_link c); [by apply walks_here|by apply walks_ret].
Qed.
End Walk.

(** ** What is set where nothing fails *)

Definition relabelled (s : bytes) (m : Contexts) : Contexts :=
  if bool_decide (default [] (m !! s) = UNLABEL_CON) then <[s := SYSTEM_CON]> m else m.

Lemma foldl_insert (ps : list bytes) (m : Contexts) p :
  foldl (λ m p, <[p := SYSTEM_CON]> m) m ps !! p = if decide (p ∈ ps) then Some SYSTEM_CON else m !! p.
Proof.
  revert m. induction ps as [|q ps IH]; intros m; cbn [foldl]; [by rewrite decide_False by set_solver|].
  rewrite IH. destruct (decide (p = q)) as [->|Hn].
  - rewrite lookup_insert_eq, (decide_True (P := q ∈ q :: ps)) by set_solver. by case_decide.
  - rewrite lookup_insert_ne by done. apply decide_ext. set_solver.
Qed.

Lemma relabelled_lookup s m p :
  relabelled s m !! p = if decide (p = s ∧ m !! p = Some UNLABEL_CON) then Some SYSTEM_CON else m !! p.
Proof.
  unfold relabelled. case_bool_decide as E; case_decide as D.
  - destruct D as [-> _]. apply lookup_insert_eq.
  - apply lookup_insert_ne. intros ->. apply D. split; [done|].
    destruct (m !! p) as [c|]; [cbn in E; by subst|done].
  - destruct D as [-> D]. by rewrite D in E.
  - done.
Qed.

Lemma foldl_relabelled (ps : list bytes) (m : Contexts) p :
  foldl (λ m p, relabelled p m) m ps !! p =
  if decide (p ∈ ps ∧ m !! p = Some UNLABEL_CON) then Some SYSTEM_CON else m !! p.
Proof.
  revert m. induction ps as [|q ps IH]; intros m; cbn [foldl]; [by rewrite decide_False by set_solver|].
  rewrite IH, relabelled_lookup. destruct (decide (p = q ∧ m !! p = Some UNLABEL_CON)) as [[-> E]|Hn].
  - rewrite decide_False by (by intros [_ [=]]). rewrite decide_True by set_solver. done.
  - apply decide_ext. set_solver.
Qed.

Section Success.
Context (env : Env ConOp) (He : ∀ h o, env h o = true).

Lemma gives_set p c : gives (set_secontext env p c) tt <[p := c]>.
Proof. by apply gives_do. Qed.

Lemma label_sets b s : at_path b s → gives (label env b) tt <[s := SYSTEM_CON]>.
Proof.
  intros (_ & _ & <-). eapply gives_eq; [eapply gives_bind; [apply gives_set|eapply gives_ok, gives_do; intros; apply He]|done].
Qed.

Lemma relabel_sets b s : at_path b s → gives (relabel env b) tt (relabelled s).
Proof.
  intros (_ & _ & <-) m h. unfold relabel, mbind, sys_bind, try_, get_secontext. rewrite He. cbn beta iota zeta.
  unfold relabelled. destruct (decide (default [] (m !! Buf.as_str b) = UNLABEL_CON)) as [->|Hn].
  - rewrite !bool_decide_eq_true_2 by done. unfold set_secontext, do_. rewrite He. eexists. by rewrite <- app_assoc.
  - rewrite !bool_decide_eq_false_2 by congruence. by eexists.
Qed.

(** A walk from the start of a directory, whose errors are only logged. *)
Lemma walk_sets act eff n b s :
  (∀ b s, at_path b s → gives (act b) tt (eff s)) → Dir.is_dir n = true → fits n s → at_path b s →
  gives (ok_ (restore env act n b)) tt (λ m, foldl (λ m p, eff p m) m (labelled n s)).
Proof.
  intros Ha Hd Hf Hb m h. destruct (restore_walks env He act eff Ha n b s Hd Hf Hb m h) as (b' & t & E & _).
  exists t. unfold ok_. by rewrite E.
Qed.
End Success.

Lemma path_at s : (length s < 4096)%nat → at_path (Buf.push_str (Buf.new 4096) s).1 s.
Proof.
  intros Hl. assert (Buf.wf (Buf.new 4096)) as Hw by (apply Buf.wf_new_buf; lia).
  assert (Buf.capacity (Buf.new 4096) = 4096%nat) as Hc by apply length_replicate.
  assert (Buf.as_str (Buf.new 4096) = []) as Hs by done.
  destruct (Buf.push_str_ok (Buf.new 4096) s Hw) as (Hw' & Hc' & Hs' & _).
  split; [done|]. rewrite Hc', Hc. split; [done|]. rewrite Hs', Hs, Hc. unfold Buf.bounded_push. cbn [length app].
  apply take_ge. lia.
Qed.

Lemma path_again b s : Buf.wf b → Buf.capacity b = 4096%nat → (length s < 4096)%nat →
  at_path (Buf.push_str (Buf.clear b) s).1 s.
Proof.
  intros Hw Hc Hl. destruct (Buf.clear_ok b Hw) as (Hw1 & Hc1 & Hs1).
  destruct (Buf.push_str_ok (Buf.clear b) s Hw1) as (Hw' & Hc' & Hs' & _).
  split; [done|]. rewrite Hc', Hc1, Hc. split; [done|]. rewrite Hs', Hs1, Hc1, Hc. unfold Buf.bounded_push. cbn [length app].
  apply take_ge. lia.
Qed.

(** The contexts after a boot. *)
Definition restored (modules databin : Dir.Node) (m m' : Contexts) : Prop := ∀ p,
  m' !! p =
  if decide (p ∈ labelled databin DATABIN) then Some SYSTEM_CON
  else if decide (p = MODULEROOT) then Some SYSTEM_CON
  else if decide (p = SECURE_DIR) then Some ADB_CON
  else if decide (p ∈ labelled modules MODULEROOT ∧ m !! p = Some UNLABEL_CON) then Some SYSTEM_CON
  else m !! p.

(** C24: where no call fails, every file and directory of the binaries has the system context
    after [restorecon], among the modules exactly the ones without a label have got it (their
    own contexts stay), [/data/adb] has its own, and no other file is touched. *)
Theorem restorecon_restores env modules databin m h :
  (∀ h o, env h o = true) → Dir.is_dir modules = true → Dir.is_dir databin = true →
  fits modules MODULEROOT → fits databin DATABIN →
  ∃ m' t, restorecon env modules databin m h = (m', h ++ t, Ok tt) ∧ restored modules databin m m'.
Proof.
  intros He Hm Hd Hfm Hfd.
  assert (at_path (Buf.push_str (Buf.new 4096) MODULEROOT).1 MODULEROOT) as Hp.
  { apply path_at. destruct modules; apply Hfm. }
  assert (gives (restorecon env modules databin) tt (λ m,
    foldl (λ m p, <[p := SYSTEM_CON]> m)
      (foldl (λ m p, relabelled p m) (<[MODULEROOT := SYSTEM_CON]> (<[SECURE_DIR := ADB_CON]> m))
         (labelled modules MODULEROOT)) (labelled databin DATABIN))) as Hg.
  { unfold restorecon. eapply gives_eq; [|].
    - eapply (gives_bind _ _ true).
      { intros x k. exists [OpenContext; WriteContext ADB_CON]. unfold is_ok_, ask, do_, mbind, sys_bind.
        rewrite !He, <- app_assoc. reflexivity. }
      eapply gives_bind; [eapply gives_ok, gives_set, He|].
      eapply gives_bind; [eapply gives_ok, gives_set, He|].
      eapply gives_bind; [eapply walk_sets; eauto using relabel_sets|].
      eapply gives_bind; [eapply (walk_sets _ He _ (λ s, <[s := SYSTEM_CON]>)); eauto using label_sets|].
      { apply path_again; [apply Hp..|]. destruct databin; apply Hfd. }
      eapply gives_ok, gives_do; intros; apply He.
    - intros w. cbn beta. by rewrite (proj2 (proj2 Hp)). }
  destruct (Hg m h) as [t E]. eexists _, t. split; [exact E|]. intros p.
  rewrite foldl_insert, foldl_relabelled. case_decide; [done|].
  destruct (decide (p = MODULEROOT)) as [->|]; [by rewrite lookup_insert_eq, decide_False by (by intros [_ [=]])|].
  rewrite lookup_insert_ne by done.
  destruct (decide (p = SECURE_DIR)) as [->|]; [by rewrite lookup_insert_eq, decide_False by (by intros [_ [=]])|].
  by rewrite lookup_insert_ne.
Qed.

Lemma restorecon_restores_witness :
  let dir := Dir.Directory (Dir.mkAttr 0 0 0 []) [(bs "a", Dir.Regular 1); (bs "b", Dir.Symlink (Dir.mkAttr 0 0 0 []) (bs "a"))] in
  let m := {[bs "/data/adb/modules/a" := UNLABEL_CON; bs "/data/adb/modules/b" := bs "u:object_r:system_lib_file:s0"]} in
  ∃ m' t, restorecon (λ _ _, true) dir dir m [] = (m', t, Ok tt) ∧ restored dir dir m m'.
Proof.
  apply (restorecon_restores (λ _ _, true) (Dir.Directory (Dir.mkAttr 0 0 0 []) [(bs "a", Dir.Regular 1); (bs "b", Dir.Symlink (Dir.mkAttr 0 0 0 []) (bs "a"))])
    (Dir.Directory (Dir.mkAttr 0 0 0 []) [(bs "a", Dir.Regular 1); (bs "b", Dir.Symlink (Dir.mkAttr 0 0 0 []) (bs "a"))])
    {[bs "/data/adb/modules/a" := UNLABEL_CON; bs "/data/adb/modules/b" := bs "u:object_r:system_lib_file:s0"]} []);
    [done|done|done|vm_compute; repeat split; lia..].
Defined.
