(* ===== verification/Files.v ===== *)
(** Files: streams, file attributes and the operations on paths of
    [native/src/base/files.rs].

    A stream that is read is the bytes left in it, one that is written the bytes so far;
    an operation on two paths is given the node each names ([None] for nothing) in the
    file system of [Dir]. *)

From S2P Require Import Prelude Cstr Dir.

(** ** Streams *)

Definition BUF_LEN : Z := 4096.

(** [read_exact] in pieces of the buffer's length. *)
Fixpoint skip_read (fuel : nat) (n : Z) (s : bytes) : res unit bytes :=
  match fuel with
  | O => NoFuel
  | S fuel =>
      if 0 <? n then
        let l := Z.min BUF_LEN n in
        if len s <? l then Err tt else skip_read fuel (n - l) (drop (Z.to_nat l) s)
      else Ok s
  end.

(** [ReadExt::skip]. *)
Definition skip (n : Z) (s : bytes) : res unit bytes := skip_read (S (Z.to_nat n)) n s.

(** [x as i64] of an [usize]. *)
Definition as_i64 (z : Z) : Z := (z + 2 ^ 63) mod 2 ^ 64 - 2 ^ 63.

(** [ReadSeekExt::skip]: the data, the position, and whether the file can seek; a seek
    may go past the end, and one to before the start fails and falls back to reading. *)
Definition skip_seek (can_seek : bool) (n : Z) (data : bytes) (pos : Z) : res unit Z :=
  if can_seek && (0 <=? pos + as_i64 n) then Ok (pos + as_i64 n)
  else rest ← skip n (drop (Z.to_nat pos) data); Ok (len data - len rest).

Fixpoint write_zeros_loop (fuel : nat) (n : Z) (out : bytes) : res unit bytes :=
  match fuel with
  | O => NoFuel
  | S fuel =>
      if 0 <? n then
        let l := Z.min BUF_LEN n in write_zeros_loop fuel (n - l) (out ++ zeros l)
      else Ok out
  end.

(** [WriteExt::write_zeros]. *)
Definition write_zeros (n : Z) (out : bytes) : res unit bytes := write_zeros_loop (S (Z.to_nat n)) n out.

(** ** File types *)

Definition S_IFMT : Z := 0xf000.
Definition S_IFSOCK : Z := 0xc000.
Definition S_IFLNK : Z := 0xa000.
Definition S_IFREG : Z := 0x8000.
Definition S_IFBLK : Z := 0x6000.
Definition S_IFDIR : Z := 0x4000.
Definition S_IFCHR : Z := 0x2000.
Definition S_IFIFO : Z := 0x1000.

(** [FileAttr::is]. *)
Definition is_type (mode kind : Z) : bool := Z.land mode S_IFMT =? kind.
Definition is_whiteout (mode rdev : Z) : bool := is_type mode S_IFCHR && (rdev =? 0).

(** The kind the predicates of [FileAttr] tell. *)
Inductive FileKind := KDir | KFile | KSymlink | KBlock | KChar | KFifo | KSocket.
Definition kind_bits (k : FileKind) : Z :=
  match k with
  | KDir => S_IFDIR | KFile => S_IFREG | KSymlink => S_IFLNK | KBlock => S_IFBLK
  | KChar => S_IFCHR | KFifo => S_IFIFO | KSocket => S_IFSOCK
  end.
Definition is_kind (k : FileKind) (mode : Z) : bool := is_type mode (kind_bits k).

(** ** Paths: making directories *)

Section Paths.
Context (created : Z → Attr).

Definition SLASH : byte := Byte.x2f.

(** [self.split('/').filter(|s| !s.is_empty())]. *)
Definition components (path : bytes) : list bytes := List.filter nonempty (split_on SLASH path).

Definition dots (x : bytes) : bool := bool_decide (x = bs ".") || bool_decide (x = bs "..").

(** A system call on a path, from the directory the path starts at; what stands above or
    beside that directory is out of the model.  [top] is the call on that directory
    itself. *)
Fixpoint at_comps {A} (top : D Inodes A) (call : bytes → D Inodes A) (comps : list bytes) : D Inodes A :=
  match comps with
  | [] => top
  | x :: comps =>
      if dots x then fail Escapes
      else match comps with
           | [] => call x
           | _ => in_dir x (at_comps top call comps)
           end
  end.

Definition mkdir_comps (mode : Z) (comps : list bytes) : D Inodes unit :=
  at_comps (mret tt) (λ x, mkdir_at created x mode) comps.

(** [Utf8CStr::mkdir]. *)
Definition mkdir (path : bytes) (mode : Z) : D Inodes unit := mkdir_comps mode (components path).

Fixpoint mkdirs_loop (mode : Z) (comps : list bytes) (path : Buf.Buf) : D Inodes unit :=
  match comps with
  | [] => mret tt
  | s :: comps =>
      let path := Buf.append_path path s in
      _ ← mkdir (Buf.as_str path) mode;
      mkdirs_loop mode comps path
  end.

(** [Utf8CStr::mkdirs], in the root directory for an absolute path and in the working
    directory for a relative one. *)
Definition mkdirs (self : bytes) (mode : Z) : D Inodes unit :=
  if bool_decide (self = []) then mret tt
  else
    let path := Buf.new 4096 in
    let path := if starts_with (bs "/") self then Buf.append_path path (bs "/") else path in
    mkdirs_loop mode (components self) path.

(** ** Two paths *)

(** The inodes and what the two paths name. *)
Record Pair := mkPair { inodes : Inodes; from_ : option Node; to_ : option Node }.

(** [copy_to], with the paths the directories resolve to.  A directory or a link at [path] is
    not followed ([Escapes]). *)
Definition copy_to (src dest : bytes) (p : Pair) : Pair * res Fault unit :=
  let t := inodes p in
  match from_ p with
  | None => (p, Err ENOENT)
  | Some (Directory a es) =>
      match to_ p with
      | None | Some (Directory _ _) =>
          let '(b, ds) := match to_ p with Some (Directory b ds) => (b, ds) | _ => (created 0x1ff, []) end in
          match copy_into created src dest es (t, ds) with
          | ((t, ds), Ok _) => (mkPair t (from_ p) (Some (Directory (with_attr a b) ds)), Ok tt)
          | ((t, ds), r) => (mkPair t (from_ p) (Some (Directory b ds)), r)
          end
      | Some (Symlink _ _) => (p, Err Escapes)
      | Some _ => (p, Err ENOTDIR)
      end
  | Some (Regular i) =>
      match t !! i with
      | None => (p, Err ENOENT)
      | Some (a, d) =>
          (* remove() takes an empty directory away too *)
          match to_ p with
          | Some (Directory _ (_ :: _)) => (p, Err EISDIR)
          | _ =>
              let j := fresh (dom t : gset Z) in
              (mkPair (<[j := (with_attr a (created 0x1ff), d)]> t) (from_ p) (Some (Regular j)), Ok tt)
          end
      end
  | Some (Symlink a l) =>
      let l := read_target l in
      match to_ p with
      | Some (Directory _ (_ :: _)) => (p, Err (if bool_decide (l = []) then ENOENT else EEXIST))
      | _ =>
          if bool_decide (l = []) then (mkPair t (from_ p) None, Err ENOENT)
          else (mkPair t (from_ p) (Some (Symlink (with_link_attr a (created 0x1ff)) l)), Ok tt)
      end
  | Some (Special a k) =>
      (* the destination is removed and nothing made: set_attr fails *)
      match to_ p with
      | Some (Directory b (e :: ds)) => (mkPair t (from_ p) (Some (Directory (with_attr a b) (e :: ds))), Ok tt)
      | _ => (mkPair t (from_ p) None, Err ENOENT)
      end
  end.

(** [move_to]: the destination is merged with, replaced or made. *)
Definition move_to (p : Pair) : Pair * res Fault unit :=
  match to_ p with
  | Some (Directory b ds) =>
      match from_ p with
      | Some (Directory a es) =>
          let '(es, ds, r) := move_node (Directory a es) ds in
          (mkPair (inodes p) (Some (Directory a es)) (Some (Directory b ds)), r)
      | Some (Symlink _ _) => (p, Err Escapes)
      | Some _ => (p, Err ENOTDIR)
      | None => (p, Err ENOENT)
      end
  | _ =>
      match from_ p with
      | None => (mkPair (inodes p) None None, Err ENOENT)
      | Some n => (mkPair (inodes p) None (Some n), Ok tt)
      end
  end.

(** [link_to]. *)
Definition link_to (src : bytes) (p : Pair) : Pair * res Fault unit :=
  match from_ p with
  | None => (p, Err ENOENT)
  | Some (Directory a es) =>
      match to_ p with
      | None | Some (Directory _ _) =>
          let '(b, ds) := match to_ p with Some (Directory b ds) => (b, ds) | _ => (created 0x1ff, []) end in
          let '((t, ds), r) := link_into created src es (inodes p, ds) in
          (mkPair t (from_ p) (Some (Directory (with_attr a b) ds)), r)
      | Some (Symlink _ _) => (p, Err Escapes)
      (* the attributes are set before the directory is opened *)
      | Some (Regular j) =>
          (mkPair (alter (λ '(b, d), (with_attr a b, d)) j (inodes p)) (from_ p) (to_ p), Err ENOTDIR)
      | Some (Special b k) => (mkPair (inodes p) (from_ p) (Some (Special (with_attr a b) k)), Err ENOTDIR)
      end
  | Some n =>
      match to_ p with
      | None => (mkPair (inodes p) (from_ p) (Some n), Ok tt)
      | Some _ => (p, Err EEXIST)
      end
  end.
End Paths.

(** ** Streams: exact lengths *)

Lemma skip_loop fuel n s : 0 ≤ n → (Z.to_nat n < fuel)%nat →
  skip_read fuel n s = if len s <? n then Err tt else Ok (drop (Z.to_nat n) s).
Proof.
  revert n s. induction fuel as [|fuel IH]; intros n s Hn Hf; [lia|]. cbn [skip_read].
  destruct (Z.ltb_spec 0 n) as [H0|H0].
  - set (l := Z.min BUF_LEN n). assert (Hl : 0 < l ≤ n) by (unfold l, BUF_LEN; lia).
    destruct (Z.ltb_spec (len s) l) as [H1|H1].
    + by rewrite (proj2 (Z.ltb_lt (len s) n)) by lia.
    + rewrite IH by lia. rewrite drop_drop.
      assert (len (drop (Z.to_nat l) s) = len s - l) as -> by (unfold len in *; rewrite length_drop; lia).
      replace (Z.to_nat l + Z.to_nat (n - l))%nat with (Z.to_nat n) by lia.
      destruct (Z.ltb_spec (len s - l) (n - l)), (Z.ltb_spec (len s) n); done || lia.
  - assert (n = 0) as -> by lia. pose proof (len_nonneg s). destruct (Z.ltb_spec (len s) 0); [lia|done].
Qed.

Lemma zeros_app a b : 0 ≤ a → 0 ≤ b → zeros a ++ zeros b = zeros (a + b).
Proof. intros. unfold zeros. rewrite <- replicate_add. f_equal. lia. Qed.

Lemma write_zeros_ok fuel n out : 0 ≤ n → (Z.to_nat n < fuel)%nat →
  write_zeros_loop fuel n out = Ok (out ++ zeros n).
Proof.
  revert n out. induction fuel as [|fuel IH]; intros n out Hn Hf; [lia|]. cbn [write_zeros_loop].
  destruct (Z.ltb_spec 0 n) as [H0|H0].
  - set (l := Z.min BUF_LEN n). assert (Hl : 0 < l ≤ n) by (unfold l, BUF_LEN; lia).
    rewrite IH, <- app_assoc, zeros_app by lia. do 3 f_equal. lia.
  - assert (n = 0) as -> by lia. by rewrite app_nil_r.
Qed.

(** Skipping in pieces skips exactly the length asked for, or fails when less is
    left; writing zeros writes exactly that many: both loops end, for every length. *)
Theorem skip_write_zeros_exact n s out : 0 ≤ n →
  skip n s = (if len s <? n then Err tt else Ok (drop (Z.to_nat n) s)) ∧
  write_zeros n out = Ok (out ++ zeros n).
Proof. intros Hn. split; [by apply skip_loop; lia|by apply write_zeros_ok; lia]. Qed.

Lemma skip_write_zeros_exact_witness :
  skip 5000 (zeros 4999) = Err tt ∧ write_zeros 5000 [] = Ok (zeros 5000).
Proof.
  destruct (skip_write_zeros_exact 5000 (zeros 4999) [] ltac:(lia)) as [E1 E2].
  rewrite E1, E2. split; [|done]. by vm_compute.
Defined.

(** The predicates exclude each other: a mode has at most one file type. *)
Theorem file_kinds_disjoint k1 k2 mode : is_kind k1 mode = true → is_kind k2 mode = true → k1 = k2.
Proof.
  unfold is_kind, is_type. intros H1%Z.eqb_eq H2%Z.eqb_eq. rewrite H1 in H2.
  by destruct k1, k2; vm_compute in H2.
Qed.

(** ** Making directories *)

Definition comp (x : bytes) : Prop := x ≠ [] ∧ SLASH ∉ x.

Lemma nonempty_true (x : bytes) : nonempty x = true ↔ x ≠ [].
Proof. unfold nonempty. by case_bool_decide. Qed.

Lemma components_comps path : Forall comp (components path).
Proof.
  apply Forall_forall. intros x Hx%list_elem_of_In. apply filter_In in Hx as [Hx Hn].
  split; [by apply nonempty_true|]. by apply list_elem_of_In, split_on_no_sep in Hx.
Qed.

Lemma components_join l : Forall comp l → components (join [SLASH] l) = l.
Proof.
  unfold components. induction 1 as [|x l [Hx Hs] Hl IH]; [done|].
  destruct l as [|y l]; cbn [join].
  - rewrite split_on_no_occ by done. cbn. by rewrite (proj2 (nonempty_true x)).
  - cbn [app]. rewrite split_on_app_sep by done. cbn [List.filter].
    rewrite (proj2 (nonempty_true x)) by done. f_equal. exact IH.
Qed.

Lemma components_abs l : Forall comp l → components (SLASH :: join [SLASH] l) = l.
Proof. intros Hl. unfold components. cbn [split_on]. rewrite bool_decide_true by done. by apply components_join. Qed.

Lemma join_snoc l x : l ≠ [] → join [SLASH] (l ++ [x]) = join [SLASH] l ++ [SLASH] ++ x.
Proof.
  induction l as [|y l IH]; [done|]. intros _. destruct l as [|z l]; [done|].
  cbn [app join] in *. rewrite IH by done. by rewrite <- !app_assoc.
Qed.

Lemma join_last l : l ≠ [] → Forall comp l → ∃ s b, join [SLASH] l = s ++ [b] ∧ b ≠ SLASH.
Proof.
  intros Hl Hc. destruct l as [|x l _] using rev_ind; [done|].
  apply Forall_app in Hc as [_ [[Hx Hs] _]%Forall_cons].
  destruct x as [|b x _] using rev_ind; [done|]. 
  assert (b ≠ SLASH) by (intros ->; apply Hs; set_solver).
  destruct l as [|y l].
  - by exists x, b.
  - rewrite join_snoc by done. rewrite !app_assoc. by eexists _, b.
Qed.

(** What the buffer holds after the components [l], from the root or not. *)
Definition path_of (abs : bool) (l : list bytes) : bytes := (if abs then [SLASH] else []) ++ join [SLASH] l.

Lemma components_path_of abs l : Forall comp l → components (path_of abs l) = l.
Proof. destruct abs; [apply components_abs|apply components_join]. Qed.

Lemma path_of_sep abs l x : Forall comp l →
  path_of abs l ++ Buf.path_sep (path_of abs l) ++ x = path_of abs (l ++ [x]).
Proof.
  intros Hl. unfold path_of, Buf.path_sep. destruct (decide (l = [])) as [->|Hne].
  - by destruct abs.
  - rewrite join_snoc by done. destruct (join_last l Hne Hl) as (s & b & -> & Hb).
    rewrite (proj2 (nonempty_true _)) by (destruct abs, s; done).
    assert (ends_with (bs "/") ((if abs then [SLASH] else []) ++ s ++ [b]) = false) as ->.
    { apply not_true_is_false. intros (r & E)%ends_with_spec.
      change (bs "/") with [SLASH] in E. rewrite app_assoc in E. by apply app_inj_2 in E as [_ [= ->]]. }
    cbn [negb andb]. change (bs "/") with [SLASH]. by rewrite <- !app_assoc.
Qed.

Lemma starts_slash_comp x : comp x → starts_with (bs "/") x = false.
Proof.
  intros [Hx Hs]. apply not_true_is_false. intros (r & ->)%starts_with_spec. apply Hs.
  change (bs "/") with [SLASH]. set_solver.
Qed.

(** Appending a component to a buffer with room for it. *)
Lemma append_comp b abs l x : Buf.wf b → Buf.capacity b = 4096%nat → Buf.as_str b = path_of abs l →
  Forall comp l → comp x → (length (path_of abs (l ++ [x])) < 4096)%nat →
  Buf.wf (Buf.append_path b x) ∧ Buf.capacity (Buf.append_path b x) = 4096%nat ∧
  Buf.as_str (Buf.append_path b x) = path_of abs (l ++ [x]).
Proof.
  intros Hwf Hcap Hs Hl Hx Hlen. destruct (Buf.append_path_ok b x Hwf) as (H1 & H2 & H3).
  split_and!; [done|congruence|]. rewrite H3. cbn [Buf.spec_step]. rewrite starts_slash_comp, Hs, <- app_assoc by done.
  rewrite path_of_sep by done. apply Buf.bounded_push_nil. by rewrite Hcap.
Qed.

Lemma path_of_prefix abs l k : (length (path_of abs l) ≤ length (path_of abs (l ++ k)))%nat.
Proof.
  unfold path_of. rewrite !length_app. apply Nat.add_le_mono_l.
  induction k as [|x k IH] using rev_ind; [by rewrite app_nil_r|].
  rewrite app_assoc. destruct (decide (l ++ k = [])) as [E|Hne].
  - rewrite E in *. cbn in *. lia.
  - rewrite join_snoc, !length_app by done. lia.
Qed.

(** A directory, or nothing. *)
Definition dir_or_none (s : option Shape) : Prop := s = None ∨ ∃ a, s = Some (SDir a).

Lemma look_closed_none t x es : closed t es → look t [x] es = None → assoc x es = None.
Proof.
  intros Hc. rewrite look_assoc. destruct (assoc x es) as [n|] eqn:E; [|done]. cbn.
  destruct n as [a ds|i|a l|a k]; try done. cbn.
  destruct (closed_assoc _ _ _ _ Hc E [] i eq_refl) as [v Hv]. by rewrite Hv.
Qed.

Lemma look_dir_assoc t x es a : look t [x] es = Some (SDir a) → ∃ ds, assoc x es = Some (Directory a ds).
Proof.
  rewrite look_assoc. destruct (assoc x es) as [[b ds|i|b l|b k]|]; cbn; try (intros; congruence).
  - intros E. simplify_eq. by exists ds.
  - destruct (t !! i) as [[? ?]|]; cbn; intros; congruence.
Qed.

(** A call on a path whose directories exist acts on the entries [ds] of the last of them;
    what is not below that directory stays. *)
Lemma at_comps_ok {A} top (call : bytes → D Inodes A) pre x t es :
  Forall (λ y, dots y = false) (pre ++ [x]) → closed t es →
  (∀ p, p ≠ [] → p `prefix_of` pre → ∃ a, look t p es = Some (SDir a)) →
  ∃ ds, closed t ds ∧ (∀ q, q ≠ [] → look t (pre ++ q) es = look t q ds) ∧
    ∀ t' ds' r, call x (t, ds) = ((t', ds'), r) → t ⊆ t' → closed t' ds' →
      ∃ es', at_comps top call (pre ++ [x]) (t, es) = ((t', es'), r) ∧ closed t' es' ∧
        (∀ q, q ≠ [] → look t' (pre ++ q) es' = look t' q ds') ∧
        ∀ p, (∀ q, q ≠ [] → p ≠ pre ++ q) → look t' p es' = look t p es.
Proof.
  revert es. induction pre as [|y pre IH]; intros es Hd Hc Hdir; cbn [app] in *.
  - apply Forall_cons in Hd as [Hx _]. exists es. split_and!; [done|done|]. intros t' ds' r E Ht Hc'.
    exists ds'. cbn [at_comps]. rewrite Hx. split_and!; [done..|].
    intros [|z p] Hp; [done|]. by destruct (Hp (z :: p)).
  - apply Forall_cons in Hd as [Hy Hd].
    destruct (Hdir [y]) as [a Ha]; [done|by exists pre|]. apply look_dir_assoc in Ha as [ds0 Ha].
    assert (Hcd : closed t ds0) by (by apply (closed_dir t a); eapply closed_assoc).
    assert (Hlook : ∀ q, q ≠ [] → look t (y :: q) es = look t q ds0).
    { intros q Hq. rewrite look_assoc, Ha. by destruct q. }
    destruct (IH ds0 Hd Hcd) as (ds & Hds & Hq & Hcall).
    { intros p Hp [k ->]. destruct (Hdir (y :: p)) as [b Hb]; [done|by exists k|].
      exists b. by rewrite <- Hlook. }
    exists ds. split_and!; [done| |].
    { intros q Hne. rewrite Hlook by (by destruct pre). by apply Hq. }
    intros t' ds' r E Ht Hc'. destruct (Hcall t' ds' r E Ht Hc') as (ds1 & E1 & Hc1 & Hq1 & Hp1).
    exists (put y (Directory a ds1) es). split_and!.
    + cbn [at_comps]. rewrite Hy. destruct (pre ++ [x]) eqn:Epre; [by destruct pre|].
      unfold in_dir. cbn [fst snd]. by rewrite Ha, E1.
    + apply closed_put; [by eapply closed_mono|]. by apply closed_dir.
    + intros q Hne. rewrite look_put_eq. destruct (pre ++ q) as [|w k] eqn:Ek; [by destruct pre|].
      rewrite look_dir, <- Ek. by apply Hq1.
    + intros [|z p] Hp; [done|]. destruct (decide (z = y)) as [->|Hz].
      * rewrite look_put_eq. destruct p as [|w p]; [by rewrite look_assoc, Ha|].
        rewrite look_dir, Hp1, Hlook; [done..|]. intros q Hne Hwp. apply (Hp q Hne). by f_equal.
      * rewrite look_assoc, assoc_put_ne, <- look_assoc by done. by apply look_mono.
Qed.

Lemma below_or_not (pre p : list bytes) : (∃ q, q ≠ [] ∧ p = pre ++ q) ∨ (∀ q, q ≠ [] → p ≠ pre ++ q).
Proof.
  destruct (decide (pre `prefix_of` p)) as [[q ->]|Hn].
  - destruct q as [|z q]; [right|left; by exists (z :: q)]. intros q Hq E.
    apply (f_equal length) in E. rewrite !length_app in E. destruct q; [done|]. cbn in E. lia.
  - right. intros q _ ->. apply Hn. by eexists.
Qed.

(** Nothing changed below a directory, nor beside it. *)
Lemma look_same pre t es ds es' :
  (∀ q, q ≠ [] → look t (pre ++ q) es = look t q ds) →
  (∀ q, q ≠ [] → look t (pre ++ q) es' = look t q ds) →
  (∀ p, (∀ q, q ≠ [] → p ≠ pre ++ q) → look t p es' = look t p es) →
  ∀ p, look t p es' = look t p es.
Proof.
  intros H1 H2 H3 p. destruct (below_or_not pre p) as [(q & Hq & ->)|Hn]; [by rewrite H2, H1|by apply H3].
Qed.

(** A call that adds an entry. *)
Lemma at_comps_put {A} top (call : bytes → D Inodes A) pre x t es t' n s r :
  Forall (λ y, dots y = false) (pre ++ [x]) → closed t es →
  (∀ p, p ≠ [] → p `prefix_of` pre → ∃ a, look t p es = Some (SDir a)) →
  look t (pre ++ [x]) es = None →
  (∀ ds, assoc x ds = None → call x (t, ds) = ((t', put x n ds), r)) →
  t ⊆ t' → closed_node t' n → (∀ q, look_node t' q n = match q with [] => Some s | _ => None end) →
  ∃ es', at_comps top call (pre ++ [x]) (t, es) = ((t', es'), r) ∧ closed t' es' ∧
    ∀ p, look t' p es' = if bool_decide (p = pre ++ [x]) then Some s else look t p es.
Proof.
  intros Hd Hc Hdir Hnone Hput Ht Hn Hs.
  destruct (at_comps_ok top call pre x t es Hd Hc Hdir) as (ds & Hds & Hq & Hcall).
  rewrite Hq in Hnone by done. apply look_closed_none in Hnone; [|done].
  destruct (Hcall t' _ r (Hput ds Hnone) Ht) as (es' & E & Hc' & Hq' & Hp').
  { apply closed_put; [by eapply closed_mono|done]. }
  exists es'. split_and!; [done..|]. intros p. destruct (below_or_not pre p) as [(q & Hqn & ->)|Hb].
  - rewrite Hq', Hq by done. destruct q as [|z q]; [done|]. destruct (decide (z = x)) as [->|Hz].
    + rewrite look_put_eq, Hs. rewrite look_assoc, Hnone. destruct q as [|w q]; [by rewrite bool_decide_true|].
      rewrite bool_decide_false; [done|]. intros Heq. by apply app_inj_1 in Heq as [_ [= ]].
    + rewrite bool_decide_false by (intros Heq; apply app_inj_1 in Heq as [_ [= ? ?]]; congruence).
      rewrite !look_assoc, assoc_put_ne by done. rewrite <- !look_assoc. by apply look_mono.
  - rewrite bool_decide_false; [by apply Hp'|]. intros ->. by apply (Hb [x]).
Qed.

Section Mkdirs.
Context (created : Z → Attr) (mode : Z).

(** [mkdir] of the components [done ++ [s]], [done ++ [s; s']], ... *)
Fixpoint mkdir_prefixes (l cs : list bytes) : D Inodes unit :=
  match cs with
  | [] => mret tt
  | s :: cs => _ ← mkdir_comps created mode (l ++ [s]); mkdir_prefixes (l ++ [s]) cs
  end.

Lemma mkdirs_loop_prefixes abs l cs b w : Buf.wf b → Buf.capacity b = 4096%nat → Buf.as_str b = path_of abs l →
  Forall comp l → Forall comp cs → (length (path_of abs (l ++ cs)) < 4096)%nat →
  mkdirs_loop created mode cs b w = mkdir_prefixes l cs w.
Proof.
  revert l b w. induction cs as [|s cs IH]; intros l b w Hwf Hcap Hs Hl Hcs Hlen; [done|].
  apply Forall_cons in Hcs as [Hc Hcs].
  assert (Hlen' : (length (path_of abs (l ++ [s])) < 4096)%nat).
  { pose proof (path_of_prefix abs (l ++ [s]) cs). rewrite <- app_assoc in *. cbn [app] in *. lia. }
  destruct (append_comp b abs l s Hwf Hcap Hs Hl Hc Hlen') as (H1 & H2 & H3).
  assert (Hl' : Forall comp (l ++ [s])) by (by apply Forall_app; split; [|apply Forall_singleton]).
  cbn [mkdirs_loop mkdir_prefixes]. unfold mbind, D_bind, mkdir. rewrite H3, components_path_of by done.
  destruct (mkdir_comps created mode (l ++ [s]) w) as [w' []]; try done.
  apply (IH (l ++ [s])); try done. by rewrite <- app_assoc.
Qed.

Lemma mkdir_comps_ok comps t es : comps ≠ [] → Forall (λ x, dots x = false) comps → closed t es →
  (∀ p q, comps = p ++ q → p ≠ [] → q ≠ [] → ∃ a, look t p es = Some (SDir a)) →
  ∃ es', mkdir_comps created mode comps (t, es) = ((t, es'), Ok tt) ∧ closed t es' ∧
    ∀ p, look t p es' = if bool_decide (p = comps ∧ look t p es = None) then Some (SDir (created mode)) else look t p es.
Proof.
  intros Hne Hd Hc Hdir. destruct comps as [|x pre _] using rev_ind; [done|].
  destruct (at_comps_ok (mret tt) (λ x, mkdir_at created x mode) pre x t es Hd Hc) as (ds & Hds & Hq & Hcall).
  { intros p Hp [k ->]. apply (Hdir p (k ++ [x])); [by rewrite app_assoc|done|by destruct k]. }
  destruct (assoc x ds) as [m|] eqn:E.
  - destruct (Hcall t ds (Ok tt)) as (es' & E1 & Hc1 & Hq1 & Hp1); [unfold mkdir_at; cbn; by rewrite E|done..|].
    exists es'. split_and!; [done..|]. intros p. rewrite (look_same _ _ _ _ _ Hq Hq1 Hp1).
    rewrite bool_decide_false; [done|]. intros [-> Hx]. rewrite Hq in Hx by done.
    apply look_closed_none in Hx; [congruence|done].
  - assert (Hnone : look t (pre ++ [x]) es = None) by (rewrite Hq, look_assoc, E by done; done).
    destruct (at_comps_put (mret tt) (λ x, mkdir_at created x mode) pre x t es t (Directory (created mode) [])
      (SDir (created mode)) (Ok tt)) as (es' & E1 & Hc1 & Hp1); try done.
    + intros p Hp [k ->]. apply (Hdir p (k ++ [x])); [by rewrite app_assoc|done|by destruct k].
    + intros ds' E'. unfold mkdir_at. cbn. by rewrite E'.
    + apply closed_dir. by intros [|z p] i Hi.
    + by intros [|z q].
    + exists es'. split_and!; [done..|]. intros p. rewrite Hp1. by rewrite (bool_decide_ext (p = pre ++ [x]) (p = pre ++ [x] ∧ look t p es = None)) by naive_solver.
Qed.

(** What is seen after the directories of [cs] were made in [es0]. *)
Definition made (t : Inodes) (cs : list bytes) (es0 es : Entries) : Prop := ∀ p,
  look t p es = if bool_decide (p ≠ [] ∧ p `prefix_of` cs ∧ look t p es0 = None)
                then Some (SDir (created mode)) else look t p es0.

Lemma made_dir t cs es0 es p : made t cs es0 es → p ≠ [] → p `prefix_of` cs → dir_or_none (look t p es0) →
  ∃ a, look t p es = Some (SDir a).
Proof.
  intros Hm Hp Hpre [Hn|[a Ha]]; rewrite Hm.
  - rewrite bool_decide_true by done. by eexists.
  - rewrite bool_decide_false; [by exists a|]. rewrite Ha. by intros (_ & _ & ?).
Qed.

Lemma mkdir_prefixes_ok cs l es0 es t : Forall (λ x, dots x = false) (l ++ cs) → closed t es →
  (∀ p, p ≠ [] → p `prefix_of` l ++ cs → dir_or_none (look t p es0)) → made t l es0 es →
  ∃ es', mkdir_prefixes l cs (t, es) = ((t, es'), Ok tt) ∧ closed t es' ∧ made t (l ++ cs) es0 es'.
Proof.
  revert l es. induction cs as [|s cs IH]; intros l es Hd Hc Hdir Hm; cbn [mkdir_prefixes].
  - exists es. by rewrite app_nil_r.
  - destruct (mkdir_comps_ok (l ++ [s]) t es) as (es1 & E & Hc1 & Hl1).
    + by destruct l.
    + rewrite cons_middle, app_assoc in Hd. by apply Forall_app in Hd as [? _].
    + done.
    + intros p q Hpq Hp Hq. assert (Hpre : p `prefix_of` l).
      { destruct q as [|z q _] using rev_ind; [done|]. rewrite app_assoc in Hpq.
        apply app_inj_2 in Hpq as [-> _]; [|done]. by exists q. }
      apply (made_dir t l es0 es p Hm Hp Hpre), Hdir; [done|]. by apply prefix_app_r.
    + unfold mbind, D_bind. rewrite E.
      destruct (IH (l ++ [s]) es1) as (es2 & E2 & Hc2 & Hm2); try by rewrite <- app_assoc.
      * done.
      * intros p. rewrite Hl1, Hm.
        assert (Hls : ~ l ++ [s] `prefix_of` l) by (intros H%prefix_length; rewrite length_app in H; cbn in H; lia).
        destruct (decide (p = l ++ [s])) as [->|Hne].
        -- rewrite (bool_decide_false (_ ∧ l ++ [s] `prefix_of` l ∧ _)) by naive_solver.
           erewrite bool_decide_ext; [reflexivity|]. split; [|naive_solver].
           intros [_ ?]. split_and!; [by destruct l|done|done].
        -- rewrite (bool_decide_false (p = _ ∧ _)) by naive_solver.
           erewrite bool_decide_ext; [reflexivity|].
           assert (p `prefix_of` l ++ [s] ↔ p `prefix_of` l) as ->; [|done].
           split; [|by apply prefix_app_r]. intros [k Hk].
           destruct k as [|z k _] using rev_ind; [by rewrite app_nil_r in Hk|].
           rewrite app_assoc in Hk. apply app_inj_2 in Hk as [-> _]; [|done]. by exists k.
      * exists es2. split_and!; [done..|]. by rewrite <- app_assoc in Hm2.
Qed.
End Mkdirs.

Lemma start_buf abs : let b := if abs : bool then Buf.append_path (Buf.new 4096) (bs "/") else Buf.new 4096 in
  Buf.wf b ∧ Buf.capacity b = 4096%nat ∧ Buf.as_str b = path_of abs [].
Proof.
  assert (Hw : Buf.wf (Buf.new 4096)) by (apply Buf.wf_new_buf; lia).
  assert (Hcap : Buf.capacity (Buf.new 4096) = 4096%nat) by apply length_replicate.
  destruct abs; [|done].
  destruct (Buf.append_path_ok (Buf.new 4096) (bs "/") Hw) as (H1 & H2 & H3). split_and!; [done|congruence|].
  rewrite H3, Hcap. reflexivity.
Qed.

Lemma mkdirs_ok created mode self t es :
  let cs := components self in
  (length (path_of (starts_with (bs "/") self) cs) < 4096)%nat →
  Forall (λ x, dots x = false) cs → closed t es →
  (∀ p, p ≠ [] → p `prefix_of` cs → dir_or_none (look t p es)) →
  ∃ es', mkdirs created self mode (t, es) = ((t, es'), Ok tt) ∧ closed t es' ∧
    ∀ p, look t p es' = if bool_decide (p ≠ [] ∧ p `prefix_of` cs ∧ look t p es = None)
                        then Some (SDir (created mode)) else look t p es.
Proof.
  intros cs Hlen Hd Hc Hdir.
  destruct (mkdir_prefixes_ok created mode cs [] es es t Hd Hc Hdir) as (es' & E & Hc' & Hm).
  { intros p. rewrite bool_decide_false; [done|]. by intros (? & ?%prefix_nil_inv & _). }
  exists es'. split_and!; [|exact Hc'|exact Hm]. unfold mkdirs. case_bool_decide as Hs.
  - subst cs. rewrite Hs in E. cbn in E. by rewrite <- E.
  - rewrite <- E. fold cs.
    pose proof (components_comps self) as Hcs. fold cs in Hcs.
    destruct (start_buf (starts_with (bs "/") self)) as (H1 & H2 & H3).
    by apply (mkdirs_loop_prefixes created mode (starts_with (bs "/") self) []).
Qed.

(** When no part of a path is anything but a directory, [mkdirs] succeeds, every part
    that was missing is a directory with the mode asked for, and nothing else changes;
    the path may have empty components and be absolute or not, up to the buffer's
    length. *)
Theorem mkdirs_creates created mode self t es :
  let cs := components self in
  (length (path_of (starts_with (bs "/") self) cs) < 4096)%nat →
  Forall (λ x, dots x = false) cs → closed t es →
  (∀ p, p ≠ [] → p `prefix_of` cs → dir_or_none (look t p es)) →
  ∃ es', mkdirs created self mode (t, es) = ((t, es'), Ok tt) ∧
    ∀ p, look t p es' = if bool_decide (p ≠ [] ∧ p `prefix_of` cs ∧ look t p es = None)
                        then Some (SDir (created mode)) else look t p es.
Proof.
  intros cs Hlen Hd Hc Hdir. destruct (mkdirs_ok created mode self t es Hlen Hd Hc Hdir) as (es' & E & _ & H).
  by exists es'.
Qed.

(** Two of the three directories are missing. *)
Definition plain_attr : Attr := mkAttr 0x1ed 0 0 [].
Definition some_tree : Entries := [(bs "data", Directory plain_attr [(bs "file", Symlink plain_attr (bs "x"))])].

Lemma mkdirs_creates_witness : ∃ es',
  mkdirs (λ _, plain_attr) (bs "/data//adb/modules/") 0x1ed (∅, some_tree) = ((∅, es'), Ok tt) ∧
  look ∅ [bs "data"; bs "adb"; bs "modules"] es' = Some (SDir plain_attr) ∧
  look ∅ [bs "data"; bs "file"] es' = Some (SLink plain_attr (bs "x")).
Proof.
  destruct (mkdirs_creates (λ _, plain_attr) 0x1ed (bs "/data//adb/modules/") ∅ some_tree) as (es' & E & H).
  - apply Nat.ltb_lt. vm_compute. reflexivity.
  - repeat constructor.
  - intros p i Hp. destruct p as [|x [|y [|z p]]]; cbn in Hp; repeat (case_match; cbn in Hp); simplify_eq; try done.
  - intros p Hp [k Hk].
    change (components (bs "/data//adb/modules/")) with [bs "data"; bs "adb"; bs "modules"] in Hk.
    destruct p as [|x [|y [|z p]]]; [done|injection Hk as <- _|injection Hk as <- <- _|injection Hk as <- <- <- Hk].
    + right. exists plain_attr. vm_compute. reflexivity.
    + left. vm_compute. reflexivity.
    + destruct p; [left; vm_compute; reflexivity|done].
  - exists es'. split_and!; [exact E|rewrite H; vm_compute; reflexivity|rewrite H; vm_compute; reflexivity].
Defined.

(** Skipping inside the data moves the position, whether the file can seek or not. *)
Lemma as_i64_small z : 0 ≤ z < 2 ^ 63 → as_i64 z = z.
Proof. intros H. unfold as_i64. rewrite Z.mod_small by lia. lia. Qed.

Lemma skip_seek_ok can_seek n data pos : 0 ≤ n < 2 ^ 63 → 0 ≤ pos → pos + n ≤ len data →
  skip_seek can_seek n data pos = Ok (pos + n).
Proof.
  intros Hn Hp Hl. unfold skip_seek. rewrite as_i64_small by done.
  destruct can_seek; cbn [andb].
  - by rewrite (proj2 (Z.leb_le 0 (pos + n))) by lia.
  - unfold skip. rewrite skip_loop by lia.
    assert (len (drop (Z.to_nat pos) data) = len data - pos) as Hd by (unfold len in *; rewrite length_drop; lia).
    rewrite Hd, (proj2 (Z.ltb_ge (len data - pos) n)) by lia. cbn. f_equal.
    assert (len (drop (Z.to_nat n) (drop (Z.to_nat pos) data)) = len data - pos - n) as ->; [|lia].
    unfold len in *. rewrite length_drop. lia.
Qed.
