(* ===== verification/Attrs.v ===== *)
(** Attrs: the calls on single files, [native/src/base/files.rs] and
    [native/src/base/dir.rs]: attributes, links, paths of descriptors, mapped files and the
    entries of a directory.

    The state is a table of inodes.  [resolve] is the kernel's path resolution, [link] what
    a link holds, and [fails] which calls fail, and how; a descriptor is the inode it is
    open on.  Errors are the records of [Result] that name the call and its arguments. *)

From S2P Require Import Prelude Cstr Result Files.

(** ** Inodes and system calls *)

Record Stat := mkStat {
  st_mode : Z; st_uid : Z; st_gid : Z; st_rdev : Z; st_dev : Z; st_ino : Z; st_size : Z }.

(** [xattr] is the value of [security.selinux], [blocks] the size of a block device. *)
Record Inode := mkInode { st : Stat; xattr : option bytes; content : bytes; blocks : Z }.
Abbreviation World := (gmap Z Inode).

Inductive Where := NoFollow (p : bytes) | Follow (p : bytes) | OnFd (fd : Z).

Inductive Call :=
  | CStat (x : Where) | CChmod (x : Where) | CChown (x : Where)
  | CGetXattr (x : Where) | CSetXattr (x : Where)
  | COpen (dirfd : Z) (p : bytes) | CReadLink (dirfd : Z) (p : bytes) | CMmap (fd : Z) | CIoctl (fd : Z)
  | CFdOpenDir (fd : Z).

Definition ENOENT : Z := 2.
Definition EBADF : Z := 9.
Definition ENOTDIR : Z := 20.
Definition EISDIR : Z := 21.
Definition EINVAL : Z := 22.
Definition ERANGE : Z := 34.
Definition ENODATA : Z := 61.
Definition AT_FDCWD : Z := -100.

(** A computation that changes the table. *)
Definition F (A : Type) : Type := World → World * res OsError A.
#[global] Instance F_ret : MRet F := λ A a w, (w, Ok a).
#[global] Instance F_bind : MBind F := λ A B f m w,
  match m w with
  | (w, Ok a) => f a w
  | (w, Err e) => (w, Err e)
  | (w, Panic) => (w, Panic)
  | (w, NoFuel) => (w, NoFuel)
  end.

Definition failing {A} (e : OsError) : F A := λ w, (w, Err e).

(** What only reads the table. *)
Definition reading {A} (f : World → res OsError A) : F A := λ w, (w, f w).

Definition set_st (s : Stat) (i : Inode) : Inode := mkInode s (xattr i) (content i) (blocks i).
Definition set_xattr (v : bytes) (i : Inode) : Inode := mkInode (st i) (Some v) (content i) (blocks i).

(** The permission bits, the special ones included. *)
Definition with_mode (m : Z) (i : Inode) : Inode :=
  let s := st i in
  set_st (mkStat (Z.lor (Z.ldiff (st_mode s) 0xfff) (Z.land m 0xfff)) (st_uid s) (st_gid s)
    (st_rdev s) (st_dev s) (st_ino s) (st_size s)) i.
Definition with_owner (u g : Z) (i : Inode) : Inode :=
  let s := st i in
  set_st (mkStat (st_mode s) u g (st_rdev s) (st_dev s) (st_ino s) (st_size s)) i.

Section Attrs.
Context (resolve : Z → bool → bytes → option Z) (link : Z → bytes → option bytes).
Context (fails : Call → option Z) (selinux : bool) (usize : Z).

Definition locate (x : Where) : option Z :=
  match x with
  | NoFollow p => resolve AT_FDCWD false p
  | Follow p => resolve AT_FDCWD true p
  | OnFd fd => Some fd
  end.

Definition missing (x : Where) : Z := match x with OnFd _ => EBADF | _ => ENOENT end.

(** The inode a call is about, or its error. *)
Definition found (o : Call) (x : Where) (w : World) : res Z (Z * Inode) :=
  match fails o with
  | Some e => Err e
  | None => of_option (missing x) (i ← locate x; n ← w !! i; Some (i, n))
  end.

Definition sys_stat (x : Where) (w : World) : res Z Stat := '(_, n) ← found (CStat x) x w; Ok (st n).

Definition sys_change (o : Call) (x : Where) (f : Inode → Inode) (w : World) : World * res Z unit :=
  match found o x w with
  | Ok (i, n) => (<[i := f n]> w, Ok tt)
  | Err e => (w, Err e)
  | Panic => (w, Panic)
  | NoFuel => (w, NoFuel)
  end.

Definition sys_chmod (x : Where) (m : Z) := sys_change (CChmod x) x (with_mode m).
Definition sys_chown (x : Where) (u g : Z) := sys_change (CChown x) x (with_owner u g).
Definition sys_setxattr (x : Where) (v : bytes) := sys_change (CSetXattr x) x (set_xattr v).

(** The whole value, if there is one and it fits. *)
Definition sys_getxattr (x : Where) (size : nat) (w : World) : res Z bytes :=
  '(_, n) ← found (CGetXattr x) x w;
  match xattr n with
  | None => Err ENODATA
  | Some v => if (size <? length v)%nat then Err ERANGE else Ok v
  end.

(** As much of the link as there is room for, and there must be some. *)
Definition sys_readlink (dirfd : Z) (p : bytes) (size : nat) : res Z bytes :=
  if (size =? 0)%nat then Err EINVAL
  else match fails (CReadLink dirfd p) with
  | Some e => Err e
  | None => t ← of_option ENOENT (link dirfd p); Ok (take size t)
  end.

Definition sys_open (dirfd : Z) (p : bytes) : res Z Z :=
  match fails (COpen dirfd p) with Some e => Err e | None => of_option ENOENT (resolve dirfd true p) end.

Definition os_change (nm : bytes) (a b : option bytes) (m : World → World * res Z unit) : F unit := λ w,
  let '(w, r) := m w in (w, check_os_err nm a b r).

(** ** Buffers the kernel writes to *)

(** [s] written at the start of the memory of [b]. *)
Definition fill (b : Buf.Buf) (s : bytes) : Buf.Buf :=
  Buf.mk (Buf.used b) (s ++ drop (length s) (Buf.buf b)).

Definition get_secontext_at (nm : bytes) (arg : option bytes) (x : Where) (con : Buf.Buf) (w : World)
    : Buf.Buf * res OsError unit :=
  let con := Buf.clear con in
  match sys_getxattr x (Buf.capacity con) w with
  | Ok v => ((Buf.rebuild (fill con v)).1, Ok tt)
  | Err e => (con, if e =? ENODATA then Ok tt else Err (mkOs e nm arg None))
  | Panic => (con, Panic)
  | NoFuel => (con, NoFuel)
  end.

Definition get_secontext (self : bytes) := get_secontext_at (bs "lgetxattr") (Some self) (NoFollow self).
Definition follow_get_secontext (self : bytes) := get_secontext_at (bs "getxattr") (Some self) (Follow self).
Definition fd_get_secontext (fd : Z) := get_secontext_at (bs "fgetxattr") None (OnFd fd).

(** The context goes with its null byte. *)
Definition set_secontext (self con : bytes) : F unit :=
  os_change (bs "lsetxattr") (Some self) (Some con) (sys_setxattr (NoFollow self) (as_bytes_with_nul con)).
Definition follow_set_secontext (self con : bytes) : F unit :=
  os_change (bs "setxattr") (Some self) (Some con) (sys_setxattr (Follow self) (as_bytes_with_nul con)).
Definition fd_set_secontext (fd : Z) (con : bytes) : F unit :=
  os_change (bs "fsetxattr") (Some con) None (sys_setxattr (OnFd fd) (as_bytes_with_nul con)).

(** ** Attributes *)

Record FileAttr := mkFileAttr { a_st : Stat; con : Buf.Buf }.

Definition no_stat : Stat := mkStat 0 0 0 0 0 0 0.
Definition new_attr : FileAttr := mkFileAttr no_stat (Buf.new 128).

Definition is_ (a : FileAttr) (k : FileKind) : bool := is_kind k (st_mode (a_st a)).
Definition attr_whiteout (a : FileAttr) : bool := is_whiteout (st_mode (a_st a)) (st_rdev (a_st a)).

Definition with_con (s : Stat) (get : Buf.Buf → World → Buf.Buf * res OsError unit) (w : World) : res OsError FileAttr :=
  if selinux then
    let '(con, r) := get (Buf.new 128) w in
    _ ← r; Ok (mkFileAttr s con)
  else Ok (mkFileAttr s (Buf.new 128)).

Definition get_attr (self : bytes) (w : World) : res OsError FileAttr :=
  s ← into_os_result (bs "lstat") (Some self) None (sys_stat (NoFollow self) w);
  with_con s (get_secontext self) w.
Definition follow_get_attr (self : bytes) (w : World) : res OsError FileAttr :=
  s ← into_os_result (bs "lstat") (Some self) None (sys_stat (Follow self) w);
  with_con s (follow_get_secontext self) w.
Definition fd_get_attr (fd : Z) (w : World) : res OsError FileAttr :=
  s ← into_os_result (bs "fstat") None None (sys_stat (OnFd fd) w);
  with_con s (fd_get_secontext fd) w.

Definition chmod (self : bytes) (mode : Z) : F unit :=
  os_change (bs "chmod") (Some self) None (sys_chmod (Follow self) mode).

Definition perm (a : FileAttr) : Z := Z.land (st_mode (a_st a)) 0x1ff.

Definition put_con (a : FileAttr) (set : bytes → F unit) : F unit :=
  if selinux && negb (Buf.is_empty (con a)) then set (Buf.as_str (con a)) else mret tt.

(** The mode goes through links; that it cannot be set on a link is no error. *)
Definition unless_link (self : bytes) (e : OsError) : F unit :=
  self_attr ← reading (get_attr self);
  if is_ self_attr KSymlink then mret tt else failing e.

Definition set_mode (self : bytes) (a : FileAttr) : F unit :=
  if is_ a KSymlink then mret tt
  else λ w, match chmod self (perm a) w with
            | (w, Err e) => unless_link self e w
            | r => r
            end.

Definition set_attr (self : bytes) (a : FileAttr) : F unit :=
  _ ← set_mode self a;
  _ ← os_change (bs "lchown") (Some self) None (sys_chown (NoFollow self) (st_uid (a_st a)) (st_gid (a_st a)));
  put_con a (set_secontext self).

Definition follow_set_attr (self : bytes) (a : FileAttr) : F unit :=
  _ ← chmod self (perm a);
  _ ← os_change (bs "chown") (Some self) None (sys_chown (Follow self) (st_uid (a_st a)) (st_gid (a_st a)));
  put_con a (follow_set_secontext self).

Definition fd_set_attr (fd : Z) (a : FileAttr) : F unit :=
  _ ← os_change (bs "fchmod") None None (sys_chmod (OnFd fd) (perm a));
  _ ← os_change (bs "fchown") None None (sys_chown (OnFd fd) (st_uid (a_st a)) (st_gid (a_st a)));
  put_con a (fd_set_secontext fd).

Definition map_err {A} (f : OsError → OsError) (m : F A) : F A := λ w, let '(w, r) := m w in (w, map_error f r).

Definition clone_attr (a b : bytes) : F unit :=
  attr ← map_err (set_args (Some a) None) (reading (get_attr a));
  map_err (set_args (Some b) None) (set_attr b attr).

Definition fclone_attr (a b : Z) : F unit :=
  attr ← reading (fd_get_attr a);
  map_err (set_args None None) (fd_set_attr b attr).

(** ** Links and paths *)

(** [read_link] keeps a byte for the null; the error of [rebuild] is dropped. *)
Definition read_link (self : bytes) (b : Buf.Buf) : Buf.Buf * res OsError unit :=
  let b := Buf.clear b in
  match into_os_result (bs "readlink") (Some self) None (sys_readlink AT_FDCWD self (Buf.capacity b - 1)) with
  | Ok t =>
      let b := fill b t in
      ((Buf.rebuild (Buf.mk (Buf.used b) (<[length t := NUL]> (Buf.buf b)))).1, Ok tt)
  | Err e => (b, Err e)
  | Panic => (b, Panic)
  | NoFuel => (b, NoFuel)
  end.

(** [readlinkat] of [cxx_extern.rs], on the memory it is given; on x86 it is zeroed and the
    length measured again. *)
Definition readlinkat (x86 : bool) (dirfd : Z) (path : bytes) (buf : bytes) : bytes * res Z nat :=
  let buf := if x86 then replicate (length buf) NUL else buf in
  match sys_readlink dirfd path (length buf - 1) with
  | Ok t =>
      let buf := t ++ drop (length t) buf in
      if x86 then (buf, Ok (length (default [] (until_nul buf))))
      else (<[length t := NUL]> buf, Ok (length t))
  | Err e => (buf, Err e)
  | Panic => (buf, Panic)
  | NoFuel => (buf, NoFuel)
  end.

Definition read_link_at (x86 : bool) (dirfd : Z) (name : bytes) (b : Buf.Buf) : Buf.Buf * res OsError unit :=
  let b := Buf.clear b in
  let '(m, r) := readlinkat x86 dirfd name (Buf.buf b) in
  match check_os_err (bs "readlinkat") (Some name) None r with
  | Ok _ => ((Buf.rebuild (Buf.mk (Buf.used b) m)).1, Ok tt)
  | r => (Buf.mk (Buf.used b) m, r)
  end.

Definition fd_path (fd : Z) (b : Buf.Buf) : Buf.Buf * res OsError unit :=
  let path := Buf.append_path_fmt (Buf.append_path (Buf.new 64) (bs "/proc/self/fd")) (fmt_dec fd) in
  let '(b, r) := read_link (Buf.as_str path) b in (b, map_error (set_args None None) r).

(** [path_at] of a directory. *)
Definition path_at (dirfd : Z) (name : bytes) (b : Buf.Buf) : Buf.Buf * res OsError unit :=
  match fd_path dirfd b with
  | (b, Ok _) => (Buf.append_path b name, Ok tt)
  | r => r
  end.

Definition realpath (self : bytes) (b : Buf.Buf) (w : World) : Buf.Buf * res OsError unit :=
  match into_os_result (bs "open") (Some self) None (sys_open AT_FDCWD self) with
  | Ok fd =>
      let st1 := sys_stat (OnFd fd) w in
      match fd_path fd b with
      | (b, Ok _) =>
          (b, st2 ← into_os_result (bs "stat") (Some self) None (sys_stat (Follow (Buf.as_str b)) w);
              match st1 with
              | Ok st1 =>
                  if (st_dev st2 =? st_dev st1) && (st_ino st2 =? st_ino st1) then Ok tt
                  else Err (mkOs ENOENT (bs "realpath") (Some self) None)
              | _ => Ok tt
              end)
      | r => r
      end
  | Err e => (b, Err e)
  | Panic => (b, Panic)
  | NoFuel => (b, NoFuel)
  end.

(** ** Mapped files *)

(** What a mapping shows, and whether writes to it reach the file. *)
Record MappedFile := mkMapped { bytes_of_map : bytes; shared : bool }.

Definition map_fd (fd sz : Z) (rw : bool) (w : World) : res OsError MappedFile :=
  into_os_result (bs "mmap") None None
    ('(_, n) ← found (CMmap fd) (OnFd fd) w;
     if sz =? 0 then Err EINVAL else Ok (mkMapped (take (Z.to_nat sz) (content n)) rw)).

(** [sz as usize] is [sz] modulo [2 ^ usize]. *)
Definition map_file_at (dirfd : Z) (path : bytes) (rw : bool) (w : World) : res OsError MappedFile :=
  fd ← into_os_result (bs "openat") (Some path) None (sys_open dirfd path);
  attr ← fd_get_attr fd w;
  sz ← (if is_ attr KBlock then
          '(_, n) ← into_os_result (bs "ioctl") (Some path) None (found (CIoctl fd) (OnFd fd) w);
          Ok (blocks n)
        else Ok (st_size (a_st attr)));
  map_error (set_args (Some path) None) (map_fd fd (sz mod 2 ^ usize) rw w).

Definition map_file (path : bytes) (rw : bool) := map_file_at AT_FDCWD path rw.

(** ** Single calls

    What the kernel answered, and the error a caller gets: it names the call and its paths. *)

Definition open_fd {A} (path : bytes) (r : res Z A) : res OsError A := into_os_result (bs "open") (Some path) None r.

(** [open] and [create] differ in the flags they pass. *)
Definition O_CREAT : Z := 0x40.
Definition open (path : bytes) (flags : Z) (sys : Z → Z → res Z Z) : res OsError Z := open_fd path (sys flags 0).
Definition create (path : bytes) (flags mode : Z) (sys : Z → Z → res Z Z) : res OsError Z :=
  open_fd path (sys (Z.lor O_CREAT flags) mode).

(** [lstat], and [access] through links. *)
Definition exists_ {A} (lstat : res Z A) : bool := is_ok lstat.
Definition follow_exists {A} (access : res Z A) : bool := is_ok access.

Definition rename_to {A} (self name : bytes) (r : res Z A) : res OsError unit :=
  check_os_err (bs "rename") (Some self) (Some name) r.
Definition remove {A} (self : bytes) (r : res Z A) : res OsError unit :=
  check_os_err (bs "remove") (Some self) None r.
Definition create_symlink_to {A} (self target : bytes) (r : res Z A) : res OsError unit :=
  check_os_err (bs "symlink") (Some target) (Some self) r.
Definition mkfifo {A} (self : bytes) (r : res Z A) : res OsError unit :=
  check_os_err (bs "mkfifo") (Some self) None r.

(** The directory [opendir] gives, unless it is null. *)
Definition open_directory (path : bytes) (errno_after dirp : Z) : res OsError Z :=
  into_os_result (bs "opendir") (Some path) None (check_ptr errno_after dirp).
Definition open_at {A} (name : bytes) (r : res Z A) : res OsError A := into_os_result (bs "openat") (Some name) None r.

(** ** Entries of a directory *)

Record DirEntry := mkEntry { d_name : bytes; d_type : Z }.

(** What [readdir] still has to give, and how it ends; a name is memory with its null. *)
Definition DirStream : Type := list DirEntry * option Z.

Definition DT_FIFO : Z := 1.
Definition DT_CHR : Z := 2.
Definition DT_DIR : Z := 4.
Definition DT_BLK : Z := 6.
Definition DT_REG : Z := 8.
Definition DT_LNK : Z := 10.
Definition DT_SOCK : Z := 12.

Definition entry_type (e : DirEntry) (k : FileKind) : bool :=
  d_type e =? match k with
              | KDir => DT_DIR | KFile => DT_REG | KSymlink => DT_LNK | KBlock => DT_BLK
              | KChar => DT_CHR | KFifo => DT_FIFO | KSocket => DT_SOCK
              end.

Fixpoint read_entry (l : list DirEntry) (end_ : option Z) : DirStream * res OsError (option (bytes * DirEntry)) :=
  match l with
  | [] => (([], end_), match end_ with Some e => Err (mkOs e (bs "readdir") None None) | None => Ok None end)
  | e :: l =>
      match from_ptr (Some (d_name e)) with
      | Ok name =>
          if bool_decide (name = bs ".") || bool_decide (name = bs "..") then read_entry l end_
          else ((l, end_), Ok (Some (name, e)))
      | _ => read_entry l end_
      end
  end.

Definition read (d : DirStream) := read_entry d.1 d.2.

Definition open_as_dir_at (dirfd : Z) (name : bytes) : res OsError Z :=
  fd ← into_os_result (bs "openat") (Some name) None (sys_open dirfd name);
  map_error (set_args (Some name) None)
    (into_os_result (bs "fdopendir") None None (match fails (CFdOpenDir fd) with Some e => Err e | None => Ok fd end)).

Definition open_as_dir (dirfd : Z) (name : bytes) (e : DirEntry) : res OsError Z :=
  if negb (entry_type e KDir) then Err (mkOs ENOTDIR (bs "fdopendir") (Some name) None)
  else open_as_dir_at dirfd name.

Definition open_as_file (dirfd : Z) (name : bytes) (e : DirEntry) : res OsError Z :=
  if entry_type e KDir then Err (mkOs EISDIR (bs "open_as_file") (Some name) None)
  else into_os_result (bs "openat") (Some name) None (sys_open dirfd name).

(** [while let Some(e) = dir.read()?]: the entries a loop over a directory sees, and how it ends. *)
Fixpoint entries (fuel : nat) (d : DirStream) : list bytes * res OsError unit :=
  match fuel with
  | O => ([], NoFuel)
  | S fuel =>
      match read d with
      | (_, Ok None) => ([], Ok tt)
      | (d, Ok (Some (name, _))) => let '(l, r) := entries fuel d in (name :: l, r)
      | (_, Err e) => ([], Err e)
      | (_, Panic) => ([], Panic)
      | (_, NoFuel) => ([], NoFuel)
      end
  end.
End Attrs.

(** ** Buffers *)

Lemma rebuild_found u m c r : m = c ++ NUL :: r → NUL ∉ c →
  Buf.rebuild (Buf.mk u m) =
    if utf8_valid c then (Buf.mk (length c) m, Ok tt) else (Buf.clear (Buf.mk u m), Err Utf8Error).
Proof.
  intros -> Hc. unfold Buf.rebuild, from_bytes_until_nul, from_cstr. cbn [Buf.buf].
  rewrite until_nul_app by done. by destruct (utf8_valid c).
Qed.

(** What a buffer holds after the kernel wrote [c] and a null to it. *)
Definition received (c : bytes) : bytes := if utf8_valid c then c else [].

Lemma rebuild_received u m c r : m = c ++ NUL :: r → NUL ∉ c →
  let b := (Buf.rebuild (Buf.mk u m)).1 in
  Buf.as_str b = received c ∧ Buf.wf b ∧ Buf.capacity b = length m.
Proof.
  intros Hm Hc. rewrite (rebuild_found _ _ _ _ Hm Hc). unfold received. destruct (utf8_valid c); cbn.
  - unfold Buf.as_str, Buf.wf, Buf.capacity. cbn. subst m. by rewrite take_app_length, list_lookup_middle.
  - unfold Buf.as_str, Buf.wf, Buf.capacity. cbn. rewrite length_insert. split; [done|]. split; [|done].
    apply list_lookup_insert_eq. subst m. rewrite length_app. cbn. lia.
Qed.

(** Whatever the kernel wrote, the buffer is a null-terminated string again. *)
Lemma rebuild_cstr u m : (0 < length m)%nat →
  let b := (Buf.rebuild (Buf.mk u m)).1 in
  until_nul (Buf.buf b) = Some (Buf.as_str b) ∧ length (Buf.as_str b) = Buf.used b.
Proof.
  intros Hm. assert (Hc : until_nul (<[0%nat := NUL]> m) = Some []) by (by destruct m; [cbn in Hm; lia|]).
  unfold Buf.rebuild, from_bytes_until_nul, from_cstr. cbn [Buf.buf].
  destruct (until_nul m) as [t|] eqn:E; [|done]. destruct (utf8_valid t); [|done].
  unfold Buf.as_str. cbn. pose proof E as E'. apply until_nul_Some in E' as (_ & r & ->).
  by rewrite take_app_length, E.
Qed.

Lemma as_str_clear b : Buf.as_str (Buf.clear b) = [].
Proof. done. Qed.

Lemma capacity_clear b : Buf.capacity (Buf.clear b) = Buf.capacity b.
Proof. unfold Buf.capacity, Buf.clear. cbn. by rewrite length_insert. Qed.

Lemma fill_fits b (s : bytes) : (length s ≤ Buf.capacity b)%nat → Buf.capacity (fill b s) = Buf.capacity b.
Proof. unfold Buf.capacity, fill. cbn. rewrite length_app, length_drop. lia. Qed.

Section Laws.
Context (resolve : Z → bool → bytes → option Z) (link : Z → bytes → option bytes).
Context (fails : Call → option Z) (selinux : bool) (usize : Z).

(** ** Contexts and attributes *)

Lemma found_ok o x (w : World) i n : fails o = None → locate resolve x = Some i → w !! i = Some n →
  found resolve fails o x w = Ok (i, n).
Proof. intros Hf Hl Hn. unfold found. rewrite Hf, Hl. cbn. by rewrite Hn. Qed.

Lemma getxattr_ok x (w : World) v size i n : fails (CGetXattr x) = None → locate resolve x = Some i →
  w !! i = Some n → xattr n = Some v → (length v ≤ size)%nat → sys_getxattr resolve fails x size w = Ok v.
Proof.
  intros Hf Hl Hn Hv Hs. unfold sys_getxattr. rewrite (found_ok _ _ _ _ _ Hf Hl Hn). cbn -[Nat.ltb]. rewrite Hv.
  by rewrite (proj2 (Nat.ltb_ge _ _)).
Qed.

Lemma get_secontext_value nm arg x b (w : World) c i n :
  fails (CGetXattr x) = None → locate resolve x = Some i → w !! i = Some n →
  xattr n = Some (as_bytes_with_nul c) → NUL ∉ c → (length c < Buf.capacity b)%nat →
  ∃ b', get_secontext_at resolve fails nm arg x b w = (b', Ok tt) ∧
    Buf.as_str b' = received c ∧ Buf.wf b' ∧ Buf.capacity b' = Buf.capacity b.
Proof.
  intros Hf Hl Hn Hv Hc Hlen. unfold get_secontext_at.
  rewrite (getxattr_ok _ _ _ _ _ _ Hf Hl Hn Hv) by (unfold as_bytes_with_nul; rewrite capacity_clear, length_app; cbn; lia).
  unfold as_bytes_with_nul. eexists. split; [done|].
  unfold fill. set (m := (c ++ [NUL]) ++ drop (length (c ++ [NUL])) (Buf.buf (Buf.clear b))).
  assert (Hm : m = c ++ NUL :: drop (length (c ++ [NUL])) (Buf.buf (Buf.clear b))) by (unfold m; by rewrite <- app_assoc).
  destruct (rebuild_received (Buf.used (Buf.clear b)) m c _ Hm Hc) as (H1 & H2 & H3).
  split; [exact H1|]. split; [exact H2|]. 
  transitivity (length m); [exact H3|]. pose proof (capacity_clear b) as Hcap. unfold m, Buf.capacity in *.
  rewrite !length_app, length_drop, ?length_app. cbn [length]. lia.
Qed.

Lemma sys_change_ok o x f w i n : fails o = None → locate resolve x = Some i → w !! i = Some n →
  sys_change resolve fails o x f w = (<[i := f n]> w, Ok tt).
Proof. intros Hf Hl Hn. unfold sys_change. by rewrite (found_ok _ _ _ _ _ Hf Hl Hn). Qed.

Lemma sys_change_inv o x f w w' : sys_change resolve fails o x f w = (w', Ok tt) →
  ∃ i n, locate resolve x = Some i ∧ w !! i = Some n ∧ w' = <[i := f n]> w.
Proof.
  unfold sys_change, found. destruct (fails o); [done|]. destruct (locate resolve x) as [i|]; [|done].
  cbn. destruct (w !! i) as [n|] eqn:E; [|done]. cbn. intros [= <-]. eauto.
Qed.

Lemma os_change_inv nm a b m w w' : os_change nm a b m w = (w', Ok tt) → m w = (w', Ok tt).
Proof. unfold os_change. destruct (m w) as [w1 [[]| | |]]; cbn; congruence. Qed.

Lemma set_get_at nm nm' a a' arg x c b w w' :
  os_change nm a a' (sys_setxattr resolve fails x (as_bytes_with_nul c)) w = (w', Ok tt) →
  fails (CGetXattr x) = None → NUL ∉ c → utf8_valid c = true → (length c < Buf.capacity b)%nat →
  ∃ b', get_secontext_at resolve fails nm' arg x b w' = (b', Ok tt) ∧ Buf.as_str b' = c ∧ Buf.wf b'.
Proof.
  intros Hs Hg Hc Hv Hlen. apply os_change_inv, sys_change_inv in Hs as (i & n & Hl & Hn & ->).
  destruct (get_secontext_value nm' arg x b (<[i:=set_xattr (as_bytes_with_nul c) n]> w) c i
    (set_xattr (as_bytes_with_nul c) n)) as (b' & E & H1 & H2 & _); try done.
  - by rewrite lookup_insert_eq.
  - exists b'. unfold received in H1. rewrite Hv in H1. done.
Qed.

(** The context that was set, on a path, through links or on a descriptor, is read back
    whole into any buffer that has room for it and its null, whatever the buffer held. *)
Theorem secontext_roundtrip self fd c b w : NUL ∉ c → utf8_valid c = true → (length c < Buf.capacity b)%nat →
  (∀ x, fails (CGetXattr x) = None) →
  (∀ w', set_secontext resolve fails self c w = (w', Ok tt) →
    ∃ b', get_secontext resolve fails self b w' = (b', Ok tt) ∧ Buf.as_str b' = c ∧ Buf.wf b') ∧
  (∀ w', follow_set_secontext resolve fails self c w = (w', Ok tt) →
    ∃ b', follow_get_secontext resolve fails self b w' = (b', Ok tt) ∧ Buf.as_str b' = c ∧ Buf.wf b') ∧
  (∀ w', fd_set_secontext resolve fails fd c w = (w', Ok tt) →
    ∃ b', fd_get_secontext resolve fails fd b w' = (b', Ok tt) ∧ Buf.as_str b' = c ∧ Buf.wf b').
Proof. intros Hc Hv Hlen Hf. split_and!; intros w' Hs; by eapply set_get_at. Qed.

(** [y] with the permissions, the owner and the context of [x]. *)
Definition cloned (x y : Inode) : Inode :=
  let s := st x in
  let y := with_owner (st_uid s) (st_gid s) (with_mode (Z.land (st_mode s) 0x1ff) y) in
  match xattr x with Some v => set_xattr v y | None => y end.

(** No context, or one that fits a [FileAttr]. *)
Definition con_fits (x : Inode) : Prop :=
  match xattr x with
  | Some v => ∃ c, v = as_bytes_with_nul c ∧ NUL ∉ c ∧ utf8_valid c = true ∧ (0 < length c < 128)%nat
  | None => True
  end.

Section Clone.
Context (Hfine : ∀ o, fails o = None) (Hselinux : selinux = true).

Lemma new_buf : Buf.is_empty (Buf.clear (Buf.new 128)) = true ∧ Buf.capacity (Buf.new 128) = 128%nat.
Proof. done. Qed.

(** What is read of an inode's attributes, whichever way it is reached. *)
Lemma with_con_ok nm arg x (w : World) i n : locate resolve x = Some i → w !! i = Some n → con_fits n →
  ∃ b, with_con selinux (st n) (get_secontext_at resolve fails nm arg x) w = Ok (mkFileAttr (st n) b) ∧
    match xattr n with
    | Some v => Buf.is_empty b = false ∧ as_bytes_with_nul (Buf.as_str b) = v
    | None => Buf.is_empty b = true
    end.
Proof.
  intros Hl Hn Hc. unfold with_con. rewrite Hselinux. unfold con_fits in Hc. destruct (xattr n) as [v|] eqn:Ev.
  - destruct Hc as (c & -> & Hnul & Hv & Hlen).
    destruct (get_secontext_value nm arg x (Buf.new 128) w c i n) as (b & -> & H1 & H2 & _); try done.
    { change (Buf.capacity (Buf.new 128)) with 128%nat. lia. }
    exists b. cbn. split; [done|]. unfold received in H1. rewrite Hv in H1. rewrite Buf.is_empty_ok, H1 by done.
    split; [|done]. apply bool_decide_false. intros ->. cbn in Hlen. lia.
  - unfold get_secontext_at, sys_getxattr. rewrite (found_ok _ _ _ _ _ (Hfine _) Hl Hn). cbn [mbind res_bind].
    rewrite Ev. exists (Buf.clear (Buf.new 128)). by split.
Qed.

Lemma change_ok o nm a b x f (w : World) i n : locate resolve x = Some i → w !! i = Some n →
  os_change nm a b (sys_change resolve fails o x f) w = (<[i := f n]> w, Ok tt).
Proof. intros Hl Hn. unfold os_change. by rewrite (sys_change_ok _ _ _ _ _ _ (Hfine _) Hl Hn). Qed.

Lemma put_con_ok a nm a1 a2 x (w : World) j y v :
  locate resolve x = Some j → w !! j = Some y →
  match v with
  | Some v => Buf.is_empty (con a) = false ∧ as_bytes_with_nul (Buf.as_str (con a)) = v
  | None => Buf.is_empty (con a) = true
  end →
  put_con selinux a (λ c, os_change nm (a1 c) (a2 c) (sys_setxattr resolve fails x (as_bytes_with_nul c))) w =
    (match v with Some v => <[j := set_xattr v y]> w | None => w end, Ok tt).
Proof.
  intros Hl Hy Hv. unfold put_con. rewrite Hselinux. destruct v as [v|].
  - destruct Hv as [-> <-]. cbn. by apply change_ok.
  - by rewrite Hv.
Qed.

Lemma clone_writes (put : F unit) nm1 nm2 a1 a2 x1 x2 (w : World) j m u g y v :
  locate resolve x1 = Some j → locate resolve x2 = Some j → w !! j = Some y →
  put (<[j := with_owner u g (with_mode m y)]> w) =
    (match v with Some v => <[j := set_xattr v (with_owner u g (with_mode m y))]> (<[j := with_owner u g (with_mode m y)]> w)
     | None => <[j := with_owner u g (with_mode m y)]> w end, Ok tt) →
  (_ ← os_change nm1 a1 None (sys_chmod resolve fails x1 m);
   _ ← os_change nm2 a2 None (sys_chown resolve fails x2 u g);
   put) w =
    (<[j := match v with Some v => set_xattr v (with_owner u g (with_mode m y)) | None => with_owner u g (with_mode m y) end]> w, Ok tt).
Proof.
  intros H1 H2 Hy Hp. unfold mbind, F_bind, sys_chmod, sys_chown.
  rewrite (change_ok _ _ _ _ _ _ _ _ _ H1 Hy), (change_ok _ _ _ _ _ _ _ _ _ H2 (lookup_insert_eq _ _ _)).
  rewrite insert_insert_eq, Hp. destruct v; by rewrite ?insert_insert_eq.
Qed.

Definition buf_holds (b : Buf.Buf) (v : option bytes) : Prop :=
  match v with
  | Some v => Buf.is_empty b = false ∧ as_bytes_with_nul (Buf.as_str b) = v
  | None => Buf.is_empty b = true
  end.

(** [y] with attributes that were read. *)
Definition attributed (s : Stat) (v : option bytes) (y : Inode) : Inode :=
  let y := with_owner (st_uid s) (st_gid s) (with_mode (Z.land (st_mode s) 0x1ff) y) in
  match v with Some v => set_xattr v y | None => y end.

Lemma set_attr_ok b s buf v (w : World) j y :
  resolve AT_FDCWD false b = Some j → resolve AT_FDCWD true b = Some j → w !! j = Some y →
  is_kind KSymlink (st_mode s) = false → buf_holds buf v →
  set_attr resolve fails selinux b (mkFileAttr s buf) w = (<[j := attributed s v y]> w, Ok tt).
Proof.
  intros H1 H2 Hy Hk Hv.
  pose proof (clone_writes (put_con selinux (mkFileAttr s buf) (set_secontext resolve fails b))
    (bs "chmod") (bs "lchown") (Some b) (Some b) (Follow b) (NoFollow b) w j (Z.land (st_mode s) 0x1ff)
    (st_uid s) (st_gid s) y v H2 H1 Hy) as Hw.
  assert (Em : set_mode resolve fails selinux b (mkFileAttr s buf) w =
    os_change (bs "chmod") (Some b) None (sys_chmod resolve fails (Follow b) (Z.land (st_mode s) 0x1ff)) w).
  { unfold set_mode, is_. cbn [a_st]. rewrite Hk. unfold chmod, perm, sys_chmod. cbn [a_st].
    by rewrite (change_ok _ _ _ _ (Follow b) _ _ _ _ H2 Hy). }
  transitivity ((_ ← os_change (bs "chmod") (Some b) None (sys_chmod resolve fails (Follow b) (Z.land (st_mode s) 0x1ff));
    _ ← os_change (bs "lchown") (Some b) None (sys_chown resolve fails (NoFollow b) (st_uid s) (st_gid s));
    put_con selinux (mkFileAttr s buf) (set_secontext resolve fails b)) w).
  - unfold set_attr, mbind, F_bind. by rewrite Em.
  - rewrite Hw; [by destruct v|].
    exact (put_con_ok (mkFileAttr s buf) (bs "lsetxattr") (λ _, Some b) Some (NoFollow b) _ _ _ v H1 (lookup_insert_eq _ _ _) Hv).
Qed.

Lemma fd_set_attr_ok s buf v (w : World) j y : w !! j = Some y → buf_holds buf v →
  fd_set_attr resolve fails selinux j (mkFileAttr s buf) w = (<[j := attributed s v y]> w, Ok tt).
Proof.
  intros Hy Hv. unfold fd_set_attr, perm. cbn [a_st].
  rewrite (clone_writes _ _ _ _ _ _ _ w j _ _ _ y v); [by destruct v|done..|].
  exact (put_con_ok (mkFileAttr s buf) (bs "fsetxattr") Some (λ _, None) (OnFd j) _ _ _ v eq_refl (lookup_insert_eq _ _ _) Hv).
Qed.

(** C28: when no call fails, cloning gives a file exactly the permissions, the owner and the
    context of another and changes nothing else, by path and by descriptor. *)
Theorem clone_attr_copies a b i j x y w :
  resolve AT_FDCWD false a = Some i → w !! i = Some x → con_fits x → is_kind KSymlink (st_mode (st x)) = false →
  resolve AT_FDCWD false b = Some j → resolve AT_FDCWD true b = Some j → w !! j = Some y →
  clone_attr resolve fails selinux a b w = (<[j := cloned x y]> w, Ok tt) ∧
  fclone_attr resolve fails selinux i j w = (<[j := cloned x y]> w, Ok tt).
Proof.
  intros Ha Hx Hcon Hk Hb Hb' Hy. unfold clone_attr, fclone_attr, mbind, F_bind, map_err, reading, get_attr, fd_get_attr, sys_stat.
  rewrite (found_ok _ (NoFollow a) _ _ _ (Hfine _) Ha Hx), (found_ok _ (OnFd i) w i x (Hfine _) eq_refl Hx).
  cbn [into_os_result map_error mbind res_bind].
  destruct (with_con_ok (bs "lgetxattr") (Some a) (NoFollow a) w i x Ha Hx Hcon) as (buf1 & E1 & H1).
  destruct (with_con_ok (bs "fgetxattr") None (OnFd i) w i x eq_refl Hx Hcon) as (buf2 & E2 & H2).
  unfold get_secontext, fd_get_secontext. rewrite E1, E2. cbn [map_error].
  rewrite (set_attr_ok b _ _ _ _ j y Hb Hb' Hy Hk H1), (fd_set_attr_ok _ _ _ _ j y Hy H2). done.
Qed.
End Clone.

(** ** Links and paths *)

Lemma readlink_ok dirfd p t n : fails (CReadLink dirfd p) = None → link dirfd p = Some t → (0 < n)%nat →
  sys_readlink link fails dirfd p n = Ok (take n t).
Proof. intros Hf Hl Hn. unfold sys_readlink. rewrite Hf, Hl. by destruct n; [lia|]. Qed.

Lemma not_elem_take {A} (x : A) n l : x ∉ l → x ∉ take n l.
Proof. intros H Hx. apply H. rewrite <- (take_drop n l). apply elem_of_app. by left. Qed.

(** Memory that starts with [t] and is longer, with a null behind it. *)
Lemma terminated_at (t m : bytes) : (length t < length m)%nat →
  <[length t := NUL]> (t ++ drop (length t) m) = t ++ NUL :: drop (S (length t)) m.
Proof.
  intros H. rewrite <- (Nat.add_0_r (length t)) at 1. rewrite insert_app_r.
  destruct (drop (length t) m) as [|b r] eqn:E.
  - apply (f_equal length) in E. rewrite length_drop in E. cbn in E. lia.
  - cbn. do 2 f_equal. apply (f_equal (drop 1)) in E. rewrite drop_drop in E. rewrite Nat.add_1_r in E. by rewrite E.
Qed.

Lemma read_link_text self t b : fails (CReadLink AT_FDCWD self) = None → link AT_FDCWD self = Some t → NUL ∉ t →
  (1 < Buf.capacity b)%nat →
  ∃ b', read_link link fails self b = (b', Ok tt) ∧
    Buf.as_str b' = received (take (Buf.capacity b - 1) t) ∧ Buf.wf b' ∧ Buf.capacity b' = Buf.capacity b.
Proof.
  intros Hf Hl Ht Hc. unfold read_link. pose proof (capacity_clear b) as Hcap.
  rewrite (readlink_ok _ _ _ _ Hf Hl) by lia. cbn [into_os_result map_error]. set (c := take _ t). assert (Hlen : (length c < Buf.capacity (Buf.clear b))%nat).
  { unfold c. rewrite length_take. lia. }
  unfold fill. cbn [Buf.buf Buf.used]. rewrite (terminated_at c) by exact Hlen. eexists. split; [done|].
  destruct (rebuild_received 0 (c ++ NUL :: drop (S (length c)) (Buf.buf (Buf.clear b))) c _ eq_refl) as (H1 & H2 & H3).
  { by apply not_elem_take. }
  rewrite <- Hcap. split; [exact H1|]. split; [exact H2|].
  etransitivity; [exact H3|]. unfold Buf.capacity in *.
  rewrite length_app. cbn [length]. rewrite length_drop. lia.
Qed.

Lemma read_link_cstr self b b' : (0 < Buf.capacity b)%nat → read_link link fails self b = (b', Ok tt) →
  until_nul (Buf.buf b') = Some (Buf.as_str b') ∧ length (Buf.as_str b') = Buf.used b'.
Proof.
  intros Hc. unfold read_link. destruct (into_os_result _ _ _ _) as [t| | |]; try done. intros [= <-].
  apply rebuild_cstr. unfold fill. cbn [Buf.buf Buf.clear].
  rewrite length_insert, length_app, length_drop, length_insert. unfold Buf.capacity in Hc. lia.
Qed.

Lemma zeros_after (t : bytes) n : (length t < n)%nat →
  t ++ drop (length t) (replicate n NUL) = t ++ NUL :: replicate (n - length t - 1) NUL.
Proof.
  intros H. rewrite drop_replicate. destruct (n - length t)%nat as [|k] eqn:E; [lia|]. cbn [replicate].
  by replace (S k - 1)%nat with k by lia.
Qed.

(** A buffer with room for the null only is refused, and so is an empty one: the kernel
    takes the size as a signed number. *)
Lemma readlink_no_room dirfd name b x86 : (Buf.capacity b ≤ 1)%nat →
  (read_link_at link fails x86 dirfd name b).2 = Err (mkOs EINVAL (bs "readlinkat") (Some name) None).
Proof.
  intros Hc. pose proof (capacity_clear b) as Hcap. unfold Buf.capacity in *. unfold read_link_at, readlinkat.
  assert (length (if x86 then replicate (length (Buf.buf (Buf.clear b))) NUL else Buf.buf (Buf.clear b)) - 1 = 0)%nat as ->
    by (destruct x86; rewrite ?length_replicate; lia). done.
Qed.

(** C30: [readlinkat] with the workaround for x86 and without it fill a buffer with the same
    string: the link, or as much of it as leaves room for the null, when that is UTF-8.  There
    must be room for a byte and the null: [readlink_no_room]. *)
Theorem read_link_at_same dirfd name t b : fails (CReadLink dirfd name) = None → link dirfd name = Some t → NUL ∉ t →
  (1 < Buf.capacity b)%nat → ∀ x86,
  ∃ b', read_link_at link fails x86 dirfd name b = (b', Ok tt) ∧
    Buf.as_str b' = received (take (Buf.capacity b - 1) t) ∧ Buf.wf b' ∧ Buf.capacity b' = Buf.capacity b.
Proof.
  intros Hf Hl Ht Hc x86. unfold read_link_at, readlinkat.
  pose proof (capacity_clear b) as Hcap. unfold Buf.capacity in Hcap at 1.
  set (m0 := if x86 then _ else _). assert (Hm0 : length m0 = Buf.capacity b).
  { unfold m0. destruct x86; [by rewrite length_replicate|done]. }
  rewrite Hm0, (readlink_ok _ _ _ _ Hf Hl) by lia. set (c := take _ t). assert (Hlen : (length c < length m0)%nat).
  { unfold c. rewrite length_take. lia. }
  assert (Hm : ∃ m r, (if x86 then (c ++ drop (length c) m0, Ok (length (default [] (until_nul (c ++ drop (length c) m0)))))
    else (<[length c := NUL]> (c ++ drop (length c) m0), Ok (length c))) = (m, Ok (length c) : res Z nat) ∧
    m = c ++ NUL :: r ∧ length m = length m0).
  { assert (Hr : ∀ r : bytes, length (default [] (until_nul (c ++ NUL :: r))) = length c).
    { intros r. by rewrite until_nul_app by (by apply not_elem_take). }
    destruct x86.
    - unfold m0. rewrite zeros_after by (unfold m0 in Hlen; by rewrite length_replicate in Hlen).
      eexists _, _. rewrite Hr. split; [done|]. split; [done|]. unfold m0 in Hlen.
      rewrite length_replicate, length_app in *. cbn [length]. rewrite length_replicate. lia.
    - rewrite terminated_at by done. eexists _, _. split; [done|]. split; [done|].
      rewrite length_app. cbn [length]. rewrite length_drop. lia. }
  destruct Hm as (m & r & -> & Em & Hlm). cbn [check_os_err into_os_result map_error mbind res_bind].
  eexists. split; [done|]. destruct (rebuild_received 0 m c r Em) as (H1 & H2 & H3); [by apply not_elem_take|].
  split; [exact H1|]. split; [exact H2|]. etransitivity; [exact H3|]. congruence.
Qed.

Lemma dec_digits_length fuel z : (length (dec_digits fuel z) ≤ fuel)%nat.
Proof.
  revert z. induction fuel as [|fuel IH]; intros z; cbn [dec_digits]; [done|].
  rewrite length_app. cbn [length]. destruct (z <? 10); [cbn; lia|]. specialize (IH (z / 10)). lia.
Qed.

Lemma fmt_dec_short z : 0 ≤ z < 2 ^ 31 → (length (fmt_dec z) ≤ 31)%nat.
Proof.
  intros Hz. unfold fmt_dec. etransitivity; [apply dec_digits_length|].
  destruct (decide (z = 0)) as [->|Hne]; [cbn; lia|].
  assert (Z.log2 z < 31) by (apply Z.log2_lt_pow2; lia). pose proof (Z.log2_nonneg z). lia.
Qed.

(** The path of a descriptor under [/proc]. *)
Lemma proc_path fd : 0 ≤ fd < 2 ^ 31 →
  Buf.as_str (Buf.append_path_fmt (Buf.append_path (Buf.new 64) (bs "/proc/self/fd")) (fmt_dec fd)) =
    bs "/proc/self/fd/" ++ fmt_dec fd.
Proof.
  intros Hfd. pose proof (fmt_dec_short fd Hfd) as Hlen.
  assert (Hw : Buf.wf (Buf.append_path (Buf.new 64) (bs "/proc/self/fd"))).
  { apply Buf.append_path_ok, Buf.wf_new_buf. lia. }
  destruct (Buf.step_ok _ (Buf.AppendFmt (fmt_dec fd)) Hw) as (_ & _ & E). cbn [Buf.step Buf.spec_step] in E.
  rewrite E.
  change (Buf.capacity (Buf.append_path (Buf.new 64) (bs "/proc/self/fd"))) with 64%nat.
  change (Buf.as_str (Buf.append_path (Buf.new 64) (bs "/proc/self/fd"))) with (bs "/proc/self/fd").
  unfold Buf.bounded_push. rewrite take_ge; [by rewrite app_assoc|].
  rewrite length_app. change (length (bs "/proc/self/fd")) with 13%nat. change (length (bs "/")) with 1%nat. lia.
Qed.

Lemma fd_path_text fd t b : 0 ≤ fd < 2 ^ 31 → (∀ o, fails o = None) →
  link AT_FDCWD (bs "/proc/self/fd/" ++ fmt_dec fd) = Some t → NUL ∉ t → t ≠ [] → utf8_valid t = true →
  (length t < Buf.capacity b)%nat →
  ∃ b', fd_path link fails fd b = (b', Ok tt) ∧ Buf.as_str b' = t.
Proof.
  intros Hfd Hf Hl Ht Hne Hv Hlen. unfold fd_path. rewrite proc_path by done.
  assert (0 < length t)%nat by (by destruct t; [|cbn; lia]).
  destruct (read_link_text _ t b (Hf _) Hl Ht) as (b' & -> & E & _ & _); [lia|].
  exists b'. split; [done|]. rewrite E, take_ge by lia. unfold received. by rewrite Hv.
Qed.

Lemma realpath_names self b w b' : realpath resolve link fails self b w = (b', Ok tt) →
  ∃ fd s2, resolve AT_FDCWD true self = Some fd ∧ fd_path link fails fd b = (b', Ok tt) ∧
    sys_stat resolve fails (Follow (Buf.as_str b')) w = Ok s2 ∧
    ∀ s1, sys_stat resolve fails (OnFd fd) w = Ok s1 → st_dev s2 = st_dev s1 ∧ st_ino s2 = st_ino s1.
Proof.
  unfold realpath, sys_open. destruct (fails (COpen AT_FDCWD self)); [done|].
  destruct (resolve AT_FDCWD true self) as [fd|]; [|done]. cbn [of_option into_os_result map_error].
  destruct (fd_path link fails fd b) as [b1 [[]| | |]] eqn:Ep; try done. intros [= -> Hr].
  exists fd. destruct (sys_stat resolve fails (Follow (Buf.as_str b')) w) as [s2| | |]; try done.
  exists s2. do 3 (split; [done|]). intros s1 E. rewrite E in Hr. cbn in Hr.
  destruct (st_dev s2 =? st_dev s1) eqn:E1, (st_ino s2 =? st_ino s1) eqn:E2; try done. lia.
Qed.

(** A path that [realpath] gives names the file the argument names, links followed, by
    device and inode; it is the one the kernel has for the open file, if that is still its name. *)
Theorem realpath_same_file self b w :
  (∀ b', realpath resolve link fails self b w = (b', Ok tt) →
     ∃ fd s2, resolve AT_FDCWD true self = Some fd ∧
       sys_stat resolve fails (Follow (Buf.as_str b')) w = Ok s2 ∧
       ∀ s1, sys_stat resolve fails (OnFd fd) w = Ok s1 → st_dev s2 = st_dev s1 ∧ st_ino s2 = st_ino s1) ∧
  (∀ fd n t, (∀ o, fails o = None) → resolve AT_FDCWD true self = Some fd → w !! fd = Some n → 0 ≤ fd < 2 ^ 31 →
     link AT_FDCWD (bs "/proc/self/fd/" ++ fmt_dec fd) = Some t → NUL ∉ t → t ≠ [] → utf8_valid t = true →
     (length t < Buf.capacity b)%nat → resolve AT_FDCWD true t = Some fd →
     ∃ b', realpath resolve link fails self b w = (b', Ok tt) ∧ Buf.as_str b' = t).
Proof.
  split.
  - intros b' H. apply realpath_names in H as (fd & s2 & ? & _ & ? & ?). by exists fd, s2.
  - intros fd n t Hf Hself Hn Hfd Hl Ht Hne Hv Hlen Hres. unfold realpath, sys_open. rewrite Hf, Hself. cbn [of_option into_os_result map_error].
    destruct (fd_path_text fd t b Hfd Hf Hl Ht Hne Hv Hlen) as (b' & -> & E). exists b'. split; [|done].
    unfold sys_stat. rewrite E.
    rewrite (found_ok _ (Follow t) w fd n (Hf _) Hres Hn), (found_ok _ (OnFd fd) w fd n (Hf _) eq_refl Hn).
    cbn. by rewrite !Z.eqb_refl.
Qed.

(** ** Mapped files *)

(** The size of a file or of a block device is that of its content. *)
Definition sized (n : Inode) : Prop :=
  (if is_kind KBlock (st_mode (st n)) then blocks n else st_size (st n)) = Z.of_nat (length (content n)).

(** C29: a file or a block device is mapped whole if its size fits a [usize]; of a larger one
    only the size modulo the width is mapped, and an empty one is an error of [mmap]. *)
Theorem map_file_bounds path rw w i n : (∀ o, fails o = None) → selinux = true → 0 < usize →
  resolve AT_FDCWD true path = Some i → w !! i = Some n → con_fits n → sized n →
  let size := Z.of_nat (length (content n)) in
  map_file resolve fails selinux usize path rw w =
    (if size mod 2 ^ usize =? 0 then Err (mkOs EINVAL (bs "mmap") (Some path) None)
     else Ok (mkMapped (take (Z.to_nat (size mod 2 ^ usize)) (content n)) rw)) ∧
  (0 < size < 2 ^ usize → map_file resolve fails selinux usize path rw w = Ok (mkMapped (content n) rw)).
Proof.
  intros Hf Hs Hu Hr Hn Hc Hz size.
  assert (E : map_file resolve fails selinux usize path rw w =
    (if size mod 2 ^ usize =? 0 then Err (mkOs EINVAL (bs "mmap") (Some path) None)
     else Ok (mkMapped (take (Z.to_nat (size mod 2 ^ usize)) (content n)) rw))).
  { unfold map_file, map_file_at, sys_open. rewrite Hf, Hr. cbn [of_option into_os_result map_error mbind res_bind].
    unfold fd_get_attr, sys_stat, fd_get_secontext. rewrite (found_ok (CStat (OnFd i)) (OnFd i) w i n (Hf _) eq_refl Hn).
    cbn [into_os_result map_error mbind res_bind].
    destruct (with_con_ok Hf Hs (bs "fgetxattr") None (OnFd i) w i n eq_refl Hn Hc) as (buf & -> & _).
    cbn [mbind res_bind]. unfold is_. cbn [a_st]. unfold sized in Hz. unfold map_fd.
    rewrite (found_ok (CIoctl i) (OnFd i) w i n (Hf _) eq_refl Hn), (found_ok (CMmap i) (OnFd i) w i n (Hf _) eq_refl Hn).
    cbn [into_os_result map_error mbind res_bind].
    destruct (is_kind KBlock _); cbn [mbind res_bind]; rewrite Hz; fold size; by destruct (size mod 2 ^ usize =? 0). }
  split; [exact E|]. intros Hsize. rewrite E, Z.mod_small by lia.
  assert ((size =? 0) = false) as -> by lia. unfold size. by rewrite Nat2Z.id, take_ge.
Qed.

(** ** Entries of a directory *)

(** The names a directory has for its users. *)
Definition visible (e : DirEntry) : option bytes :=
  match from_ptr (Some (d_name e)) with
  | Ok name => if bool_decide (name = bs ".") || bool_decide (name = bs "..") then None else Some name
  | _ => None
  end.

Lemma read_entry_next l end_ : let '(d, r) := read_entry l end_ in
  match r with
  | Ok (Some (name, e)) => ∃ pre, l = pre ++ e :: d.1 ∧ d.2 = end_ ∧ omap visible pre = [] ∧ visible e = Some name
  | Ok None => omap visible l = [] ∧ end_ = None
  | Err e => omap visible l = [] ∧ ∃ n, end_ = Some n ∧ e = mkOs n (bs "readdir") None None
  | _ => False
  end.
Proof.
  induction l as [|e l IH]; cbn [read_entry]; [destruct end_; naive_solver|].
  assert (Hskip : visible e = None → let '(d, r) := read_entry l end_ in
    match r with
    | Ok (Some (name, e')) => ∃ pre, e :: l = pre ++ e' :: d.1 ∧ d.2 = end_ ∧ omap visible pre = [] ∧ visible e' = Some name
    | Ok None => omap visible (e :: l) = [] ∧ end_ = None
    | Err e' => omap visible (e :: l) = [] ∧ ∃ n, end_ = Some n ∧ e' = mkOs n (bs "readdir") None None
    | _ => False
    end).
  { intros Hv. destruct (read_entry l end_) as [d [[[name e']|]|e'| |]]; cbn [omap list_omap]; rewrite ?Hv; try done.
    destruct IH as (pre & -> & Hd & Hp & He). exists (e :: pre). cbn [omap list_omap]. by rewrite Hv. }
  unfold visible in Hskip at 1. destruct (from_ptr (Some (d_name e))) as [name| | |] eqn:E; try by apply Hskip.
  destruct (bool_decide (name = bs ".") || bool_decide (name = bs "..")) eqn:Ed; [by apply Hskip|].
  exists []. split; [done|]. split; [done|]. split; [done|]. unfold visible. by rewrite E, Ed.
Qed.

(** A loop over a directory ends, and sees the entries in the order [readdir] gives
    them, each once, without [.], [..] and the names that are not UTF-8; an error of
    [readdir] comes after all the entries before it were seen. *)
Theorem entries_visible l end_ : entries (S (length l)) (l, end_) =
  (omap visible l, match end_ with None => Ok tt | Some e => Err (mkOs e (bs "readdir") None None) end).
Proof.
  assert (H : ∀ fuel l, (length l < fuel)%nat → entries fuel (l, end_) =
    (omap visible l, match end_ with None => Ok tt | Some e => Err (mkOs e (bs "readdir") None None) end)); [|apply H; lia].
  intros fuel. induction fuel as [|fuel IH]; intros k Hk; [lia|]. cbn [entries]. unfold read. cbn [fst snd].
  pose proof (read_entry_next k end_) as Hn. destruct (read_entry k end_) as [d [[[name e]|]|e| |]]; try done.
  - destruct Hn as (pre & -> & Hd & Hp & He). destruct d as [d1 d2]. cbn in Hd |- *. subst d2.
    rewrite length_app in Hk. cbn in Hk. rewrite IH by lia.
    rewrite omap_app, Hp. cbn. by rewrite He.
  - destruct Hn as [Hn ->]. by rewrite Hn.
  - destruct Hn as [Hn (n & -> & ->)]. by rewrite Hn.
Qed.
End Laws.

(** ** Examples *)

Section Examples.
Definition file_con : bytes := bs "u:object_r:system_file:s0".
Definition file_inode (mode ino : Z) (con : option bytes) (data : bytes) : Inode :=
  mkInode (mkStat mode 0 2000 0 1 ino (Z.of_nat (length data))) con data 0.
Definition sample_world : World :=
  {[ 1 := file_inode 0x81ed 1 (Some (as_bytes_with_nul file_con)) (bs "data");
     2 := file_inode 0x8180 2 None (bs "other"); 3 := file_inode 0xa1ff 3 None [] ]}.

(** [/l] is a link to [/b]. *)
Definition sample_resolve (dirfd : Z) (follow : bool) (p : bytes) : option Z :=
  if bool_decide (p = bs "/a") then Some 1 else if bool_decide (p = bs "/b") then Some 2
  else if bool_decide (p = bs "/l") then Some (if follow then 2 else 3) else None.
Definition sample_link (dirfd : Z) (p : bytes) : option bytes :=
  if bool_decide (p = bs "/l") then Some (bs "/b")
  else if bool_decide (p = bs "/proc/self/fd/2") then Some (bs "/b") else None.
Definition no_failure (o : Call) : option Z := None.

Lemma secontext_roundtrip_witness :
  let w' := (set_secontext sample_resolve no_failure (bs "/b") file_con sample_world).1 in
  ∃ b', get_secontext sample_resolve no_failure (bs "/b") (Buf.new 128) w' = (b', Ok tt) ∧
    Buf.as_str b' = file_con ∧ Buf.wf b'.
Proof.
  apply (secontext_roundtrip sample_resolve no_failure (bs "/b") 2 file_con (Buf.new 128) sample_world).
  - by_compute.
  - reflexivity.
  - by_compute.
  - reflexivity.
  - vm_compute. reflexivity.
Defined.

Lemma con_fits_a : con_fits (file_inode 0x81ed 1 (Some (as_bytes_with_nul file_con)) (bs "data")).
Proof. exists file_con. split; [done|]. split; [by_compute|]. split; [done|]. by_compute. Qed.

Lemma clone_attr_copies_witness :
  let x := file_inode 0x81ed 1 (Some (as_bytes_with_nul file_con)) (bs "data") in
  let y := file_inode 0x8180 2 None (bs "other") in
  (clone_attr sample_resolve no_failure true (bs "/a") (bs "/b") sample_world =
    (<[2 := cloned x y]> sample_world, Ok tt) ∧
   fclone_attr sample_resolve no_failure true 1 2 sample_world = (<[2 := cloned x y]> sample_world, Ok tt)) ∧
  st_mode (st (cloned x y)) = 0x81ed ∧ xattr (cloned x y) = xattr x.
Proof.
  split; [|split; vm_compute; reflexivity].
  apply clone_attr_copies; try reflexivity. apply con_fits_a.
Defined.

Lemma read_link_at_same_witness :
  (∃ b', read_link_at sample_link no_failure true 3 (bs "/l") (Buf.new 8) = (b', Ok tt) ∧
    Buf.as_str b' = bs "/b" ∧ Buf.wf b' ∧ Buf.capacity b' = 8%nat) ∧
  (∃ b', read_link_at sample_link no_failure false 3 (bs "/l") (Buf.new 2) = (b', Ok tt) ∧
    Buf.as_str b' = bs "/" ∧ Buf.wf b' ∧ Buf.capacity b' = 2%nat).
Proof.
  split.
  - apply (read_link_at_same sample_link no_failure 3 (bs "/l") (bs "/b") (Buf.new 8)); try reflexivity; by_compute.
  - apply (read_link_at_same sample_link no_failure 3 (bs "/l") (bs "/b") (Buf.new 2)); try reflexivity; by_compute.
Defined.

Lemma realpath_same_file_witness : ∃ b',
  realpath sample_resolve sample_link no_failure (bs "/l") (Buf.new 16) sample_world = (b', Ok tt) ∧
  Buf.as_str b' = bs "/b".
Proof.
  apply (proj2 (realpath_same_file sample_resolve sample_link no_failure (bs "/l") (Buf.new 16) sample_world)
    2 (file_inode 0x8180 2 None (bs "other")) (bs "/b")); try reflexivity; by_compute.
Defined.

Lemma map_file_bounds_witness :
  map_file sample_resolve no_failure true 64 (bs "/a") false sample_world = Ok (mkMapped (bs "data") false).
Proof.
  apply (map_file_bounds sample_resolve no_failure true 64 (bs "/a") false sample_world 1
    (file_inode 0x81ed 1 (Some (as_bytes_with_nul file_con)) (bs "data"))); try reflexivity; try by_compute.
  apply con_fits_a.
Defined.

(** Giving the attributes of a file to a link changes the permissions of what it links to. *)
Lemma set_attr_through_link :
  let '(w, r) := clone_attr sample_resolve no_failure true (bs "/a") (bs "/l") sample_world in
  r = Ok tt ∧ (λ n, st_mode (st n)) <$> w !! 2 = Some 0x81ed ∧
  (λ n, st_mode (st n)) <$> sample_world !! 2 = Some 0x8180.
Proof. vm_compute. repeat split. Qed.
End Examples.
