(* ===== verification/Foreign.v ===== *)
(** Foreign: what the C++ parts call, [native/src/base/xwrap.rs] and
    [native/src/base/cxx_extern.rs].

    A pointer is [None] when null and else the memory it points to.  The outcome of a call
    of libc is its value and the error number it leaves; a function of this file gives the
    messages it logs and the value C++ sees. *)

From S2P Require Import Prelude Text Cstr Logging Result Dir Files Attrs.

Abbreviation Ptr := (option bytes).

(** The value of a call, and [errno] after it. *)
Record Ret := mkRet { value : Z; errno_after : Z }.

(** [CStr::from_ptr(ptr).to_str().ok()]. *)
Definition ptr_to_str (p : Ptr) : option bytes :=
  match p with
  | None => None
  | Some m => s ← until_nul m; if utf8_valid s then Some s else None
  end.

(** The path C++ passes, when it is one. *)
Definition path_arg (p : Ptr) : option bytes := match from_ptr p with Ok s => Some s | _ => None end.

Section Foreign.
Context (strerror : Z → bytes) (caller : option (bytes * Z)).

#[local] Instance os_error_text : Display OsError := os_display strerror.

(** [io::Error] of an operating system's error. *)
#[local] Instance io_error_text : Display Z := strerror.

Definition unwrap_or {A B} (d : B) (f : A → B) (x : Logged A) : Msgs * B :=
  (x.1, match x.2 with Ok a => f a | _ => d end).

(** [.into_os_result(..).log().unwrap_or(-1)], and the same with a pointer. *)
Definition int_call (nm : bytes) (a b : option bytes) (r : Ret) : Msgs * Z :=
  unwrap_or (-1) id (log caller (into_os_result nm a b (check_err (errno_after r) (value r)))).
Definition ptr_call (nm : bytes) (a b : option bytes) (r : Ret) : Msgs * Z :=
  unwrap_or 0 id (log caller (into_os_result nm a b (check_ptr (errno_after r) (value r)))).

(** ** Files *)

Definition xfopen (path : Ptr) (r : Ret) := ptr_call (bs "fopen") (ptr_to_str path) None r.
Definition xfdopen (r : Ret) := ptr_call (bs "fdopen") None None r.
Definition xopen (path : Ptr) (r : Ret) := int_call (bs "open") (ptr_to_str path) None r.
Definition xopenat (path : Ptr) (r : Ret) := int_call (bs "openat") (ptr_to_str path) None r.
Definition xread (r : Ret) := int_call (bs "read") None None r.
Definition xpipe2 (r : Ret) := int_call (bs "pipe2") None None r.
Definition xfstat (r : Ret) := int_call (bs "fstat") None None r.
Definition xdup2 (r : Ret) := int_call (bs "dup2") None None r.
Definition xsendfile (r : Ret) := int_call (bs "sendfile") None None r.
Definition xmknod (pathname : Ptr) (r : Ret) := int_call (bs "mknod") (ptr_to_str pathname) None r.
Definition xsymlink (target linkpath : Ptr) (r : Ret) :=
  int_call (bs "symlink") (ptr_to_str target) (ptr_to_str linkpath) r.
Definition xrename (oldname newname : Ptr) (r : Ret) :=
  int_call (bs "rename") (ptr_to_str oldname) (ptr_to_str newname) r.

(** [write_all] and [read_exact] do the whole length or fail. *)
Definition xwrite (data : bytes) (r : res Z unit) : Msgs * Z :=
  unwrap_or (-1) (λ _, Z.of_nat (length data)) (log caller r).
Definition xxread (bufsz : Z) (r : res Z unit) : Msgs * Z :=
  unwrap_or (-1) (λ _, bufsz) (log caller r).

(** ** Directories, processes and mounts *)

Definition xopendir (path : Ptr) (r : Ret) := ptr_call (bs "opendir") (ptr_to_str path) None r.
Definition xfdopendir (r : Ret) := ptr_call (bs "fdopendir") None None r.

(** The entry, or a null pointer at the end and after an error. *)
Definition xreaddir (d : DirStream) : DirStream * (Msgs * option DirEntry) :=
  let '(d, r) := read d in
  (d, unwrap_or None (λ o, snd <$> o) (log caller r)).

Definition xsetns (r : Ret) := int_call (bs "setns") None None r.
Definition xunshare (r : Ret) := int_call (bs "unshare") None None r.
Definition xsetsid (r : Ret) := int_call (bs "setsid") None None r.
Definition xfork (r : Ret) := int_call (bs "fork") None None r.
Definition xmount (src target : Ptr) (r : Ret) :=
  int_call (bs "mount") (ptr_to_str src) (ptr_to_str target) r.
Definition xumount2 (target : Ptr) (r : Ret) := int_call (bs "umount2") (ptr_to_str target) None r.

(** [Utf8CStr::mkdir]: that the directory exists is no error. *)
Definition mkdir_result (self : bytes) (r : res Z unit) : res OsError unit :=
  match r with
  | Err e => if e =? 17 then Ok tt else Err (mkOs e (bs "mkdir") (Some self) None)
  | Ok _ => Ok tt
  | Panic => Panic
  | NoFuel => NoFuel
  end.

Definition xmkdir (path : Ptr) (r : res Z unit) : Msgs * Z :=
  match path_arg path with
  | Some path => unwrap_or (-1) (λ _, 0) (log caller (mkdir_result path r))
  | None => ([], -1)
  end.

(** [mkdirs] has logged its own errors. *)
Definition xmkdirs (path : Ptr) (mkdirs : bytes → Logged unit) : Msgs * Z :=
  match path_arg path with
  | Some path => unwrap_or (-1) (λ _, 0) (relog (mkdirs path))
  | None => ([], -1)
  end.

(** ** Paths *)

Section Paths.
Context (resolve : Z → bool → bytes → option Z) (link : Z → bytes → option bytes).
Context (fails : Call → option Z) (selinux : bool) (usize : Z).

(** The memory [buf] points to becomes a buffer, and is what C++ finds there. *)
Definition xrealpath (path : Ptr) (buf : bytes) (w : World) : res unit (bytes * (Msgs * Z)) :=
  match path_arg path with
  | None => Ok (buf, ([], -1))
  | Some path =>
      b ← Buf.wrap buf;
      let '(b, r) := realpath resolve link fails path b w in
      Ok (Buf.buf b, unwrap_or (-1) (λ _, Z.of_nat (Buf.used b)) (log caller r))
  end.

(** [canonical_path] is [xrealpath] again. *)
Definition canonical_path (path : Ptr) (buf : bytes) (w : World) : res unit (bytes * (Msgs * Z)) :=
  match path_arg path with
  | None => Ok (buf, ([], -1))
  | Some path =>
      b ← Buf.wrap buf;
      let '(b, r) := realpath resolve link fails path b w in
      Ok (Buf.buf b, unwrap_or (-1) (λ _, Z.of_nat (Buf.used b)) (log caller r))
  end.

Definition xreadlinkat (x86 : bool) (dirfd : Z) (path : Ptr) (buf : bytes) : bytes * (Msgs * Z) :=
  let '(m, r) := readlinkat link fails x86 dirfd (default [] (path ≫= until_nul)) buf in
  (m, unwrap_or (-1) Z.of_nat (log caller (into_os_result (bs "readlinkat") (ptr_to_str path) None r))).

Definition clone_attr_for_cxx (src dest : Ptr) (w : World) : World * (Msgs * bool) :=
  match path_arg src, path_arg dest with
  | Some src, Some dest =>
      let '(w, r) := clone_attr resolve fails selinux src dest w in
      (w, unwrap_or false (λ _, true) (log caller r))
  | _, _ => (w, ([], false))
  end.

Definition fclone_attr_for_cxx (a b : Z) (w : World) : World * (Msgs * bool) :=
  let '(w, r) := fclone_attr resolve fails selinux a b w in
  (w, unwrap_or false (λ _, true) (log caller r)).

(** An empty slice after an error. *)
Definition map_file_for_cxx (path : bytes) (rw : bool) (w : World) : Msgs * bytes :=
  unwrap_or [] bytes_of_map (log caller (map_file resolve fails selinux usize path rw w)).
Definition map_file_at_for_cxx (fd : Z) (path : bytes) (rw : bool) (w : World) : Msgs * bytes :=
  unwrap_or [] bytes_of_map (log caller (map_file_at resolve fails selinux usize fd path rw w)).
Definition map_fd_for_cxx (fd sz : Z) (rw : bool) (w : World) : Msgs * bytes :=
  unwrap_or [] bytes_of_map (log caller (map_fd resolve fails fd sz rw w)).
End Paths.

(** Whole files and trees; their errors are logged on the way. *)
Section Trees.
Context (created : Z → Attr).
(** The path a directory resolves to once it is open. *)
Context (real : bytes → bytes).

Definition cp_afc_for_cxx (src dest : Ptr) (p : Pair) : Pair * bool :=
  match path_arg src, path_arg dest with
  | Some src, Some dest => let '(p, r) := copy_to created (real src) (real dest) p in (p, is_ok r)
  | _, _ => (p, false)
  end.
Definition mv_path_for_cxx (src dest : Ptr) (p : Pair) : Pair * bool :=
  match path_arg src, path_arg dest with
  | Some _, Some _ => let '(p, r) := move_to p in (p, is_ok r)
  | _, _ => (p, false)
  end.
Definition link_path_for_cxx (src dest : Ptr) (p : Pair) : Pair * bool :=
  match path_arg src, path_arg dest with
  | Some src, Some _ => let '(p, r) := link_to created (real src) p in (p, is_ok r)
  | _, _ => (p, false)
  end.
Definition rm_rf_for_cxx (path : Ptr) (slot : option Node) : option Node * bool :=
  match path_arg path with
  | Some _ => let '(slot, r) := Dir.remove_all slot in (slot, is_ok r)
  | None => (slot, false)
  end.
Definition mkdirs_for_cxx (path : Ptr) (mode : Z) (w : Inodes * Entries) : Inodes * Entries * Z :=
  match path_arg path with
  | Some path => let '(w, r) := mkdirs created path mode w in (w, if is_ok r then 0 else -1)
  | None => (w, -1)
  end.
End Trees.

(** ** Strings and lines *)

(** The empty string stands for one that is not valid. *)
Definition str_new (s : bytes) : bytes := match from_bytes s with Ok t => t | _ => [] end.
Definition str_ptr (this : bytes) : bytes := as_bytes_with_nul this.
Definition str_len (this : bytes) : nat := length this.

Definition parse_prop_file_rs {St} (file : option bytes) (f : St → bytes → bytes → St * bool) (st : St) : St :=
  match file with Some data => for_each_prop f st data | None => st end.

(** The callback sees each line with a null after it. *)
Definition file_readline_for_cxx {St} (f : St → bytes → St * bool) (st : St) (data : bytes) : St :=
  for_each_line (λ st line, f st (as_bytes_with_nul line)) st data.
End Foreign.

(** ** What C++ sees *)

Section Seen.
Context (strerror : Z → bytes) (caller : option (bytes * Z)).

(** The message of a failed call. *)
Definition failure_line (nm : bytes) (a b : option bytes) (e : Z) : Msgs :=
  [(Error, location caller ++ os_display strerror (mkOs e nm a b) ++ [LF])].

(** A call passes its value on in silence, or [bad] with one message that names it. *)
Definition reports (failed : Ret → bool) (bad : Z) (r : Ret)
    (c : bytes * option bytes * option bytes * (Msgs * Z)) : Prop :=
  let '(nm, a, b, (msgs, v)) := c in
  if failed r then v = bad ∧ msgs = failure_line nm a b (errno_after r) else v = value r ∧ msgs = [].

Lemma int_call_reports nm a b r : reports (λ r, value r <? 0) (-1) r (nm, a, b, int_call strerror caller nm a b r).
Proof. unfold int_call, check_err, reports. by destruct (value r <? 0). Qed.

Lemma ptr_call_reports nm a b r : reports (λ r, value r =? 0) 0 r (nm, a, b, ptr_call strerror caller nm a b r).
Proof. unfold ptr_call, check_ptr, reports. by destruct (value r =? 0). Qed.

(** Every wrapper gives C++ the value of its call and logs nothing when it succeeds, and
    gives [-1] or null and logs one line with the call's name, its paths and the error when it fails. *)
Theorem wrappers_report (p q : Ptr) r : let s := ptr_to_str in
  Forall (reports (λ r, value r <? 0) (-1) r)
    [(bs "open", s p, None, xopen strerror caller p r); (bs "openat", s p, None, xopenat strerror caller p r);
     (bs "read", None, None, xread strerror caller r); (bs "pipe2", None, None, xpipe2 strerror caller r);
     (bs "fstat", None, None, xfstat strerror caller r); (bs "dup2", None, None, xdup2 strerror caller r);
     (bs "sendfile", None, None, xsendfile strerror caller r); (bs "mknod", s p, None, xmknod strerror caller p r);
     (bs "symlink", s p, s q, xsymlink strerror caller p q r); (bs "rename", s p, s q, xrename strerror caller p q r);
     (bs "setns", None, None, xsetns strerror caller r); (bs "unshare", None, None, xunshare strerror caller r);
     (bs "setsid", None, None, xsetsid strerror caller r); (bs "fork", None, None, xfork strerror caller r);
     (bs "mount", s p, s q, xmount strerror caller p q r); (bs "umount2", s p, None, xumount2 strerror caller p r)] ∧
  Forall (reports (λ r, value r =? 0) 0 r)
    [(bs "fopen", s p, None, xfopen strerror caller p r); (bs "fdopen", None, None, xfdopen strerror caller r);
     (bs "opendir", s p, None, xopendir strerror caller p r); (bs "fdopendir", None, None, xfdopendir strerror caller r)].
Proof.
  split; repeat (apply Forall_cons; split; [apply int_call_reports || apply ptr_call_reports|]); apply Forall_nil_2.
Qed.

Section Paths.
Context (resolve : Z → bool → bytes → option Z) (link : Z → bytes → option bytes) (fails : Call → option Z).

(** C31: [xrealpath] panics only on an empty buffer; else it gives [-1], or the length of the
    string it leaves in the buffer, which names the file of the path that was passed;
    [canonical_path] does the same. *)
Theorem xrealpath_sound path buf w : buf ≠ [] →
  canonical_path strerror caller resolve link fails path buf w = xrealpath strerror caller resolve link fails path buf w ∧
  ∃ buf' msgs v, xrealpath strerror caller resolve link fails path buf w = Ok (buf', (msgs, v)) ∧
    (v = -1 ∨ msgs = [] ∧ ∃ p s fd s2, path_arg path = Some p ∧ until_nul buf' = Some s ∧ v = Z.of_nat (length s) ∧
       resolve AT_FDCWD true p = Some fd ∧ sys_stat resolve fails (Follow s) w = Ok s2 ∧
       ∀ s1, sys_stat resolve fails (OnFd fd) w = Ok s1 → st_dev s2 = st_dev s1 ∧ st_ino s2 = st_ino s1).
Proof.
  intros Hb. split; [done|]. unfold xrealpath. destruct (path_arg path) as [p|]; [|eexists _, _, _; split; [done|by left]].
  destruct buf as [|x buf]; [done|]. cbn [Buf.wrap mbind res_bind].
  destruct (realpath resolve link fails p (Buf.mk 0 (NUL :: buf)) w) as [b [[]| | |]] eqn:E.
  - eexists _, _, _. split; [done|]. right. split; [done|].
    apply realpath_names in E as (fd & s2 & Hr & Hp & Hs & Hsame). exists p, (Buf.as_str b), fd, s2.
    unfold fd_path in Hp. destruct (read_link _ _ _ _) as [b1 r1] eqn:El. injection Hp as -> Hr1.
    destruct r1 as [[]| | |]; try done.
    apply read_link_cstr in El as [Hn Hu]; [|cbn; lia]. rewrite Hu. done.
  - eexists _, _, _. split; [done|by left].
  - eexists _, _, _. split; [done|by left].
  - eexists _, _, _. split; [done|by left].
Qed.
End Paths.

(** C++ cannot hand on a path that is null, not terminated or not UTF-8: nothing is
    touched and the call fails; with two paths the call says whether the operation succeeded. *)
Theorem foreign_paths_checked created real (src dest : Ptr) p slot mode w :
  (path_arg src = None ∨ path_arg dest = None →
     cp_afc_for_cxx created real src dest p = (p, false) ∧ mv_path_for_cxx src dest p = (p, false) ∧
     link_path_for_cxx created real src dest p = (p, false)) ∧
  (path_arg src = None → rm_rf_for_cxx src slot = (slot, false) ∧ mkdirs_for_cxx created src mode w = (w, -1)) ∧
  (∀ s d, path_arg src = Some s → path_arg dest = Some d →
     cp_afc_for_cxx created real src dest p = ((copy_to created (real s) (real d) p).1, is_ok (copy_to created (real s) (real d) p).2) ∧
     mv_path_for_cxx src dest p = ((move_to p).1, is_ok (move_to p).2) ∧
     link_path_for_cxx created real src dest p = ((link_to created (real s) p).1, is_ok (link_to created (real s) p).2)).
Proof.
  unfold cp_afc_for_cxx, mv_path_for_cxx, link_path_for_cxx, rm_rf_for_cxx, mkdirs_for_cxx. split_and!.
  - intros [E|E]; rewrite E; [done|]. by destruct (path_arg src).
  - by intros ->.
  - intros s d -> ->. destruct (copy_to created _ _ p), (move_to p), (link_to created _ p). done.
Qed.

(** A string C++ passes is valid UTF-8 without nulls, or the empty one. *)
Lemma str_new_valid s : utf8_valid (str_new s) = true ∧ NUL ∉ str_new s.
Proof.
  unfold str_new. destruct (from_bytes s) as [t| | |] eqn:E; [|by split; [|apply not_elem_of_nil]..].
  unfold from_bytes, from_cstr in E. destruct (until_nul s) as [u|] eqn:Eu; [|done].
  destruct (_ =? _)%nat; [|done]. destruct (utf8_valid u) eqn:Ev; [|done]. injection E as <-.
  apply until_nul_Some in Eu as (Hn & _). done.
Qed.
End Seen.

(** ** Examples *)

Section Examples.
Definition no_text (e : Z) : bytes := bs "error " ++ fmt_dec e.

Lemma xrealpath_sound_witness :
  let path : Ptr := Some (bs "/l" ++ [NUL]) in
  let buf := replicate 16 NUL in
  canonical_path no_text None sample_resolve sample_link no_failure path buf sample_world =
    xrealpath no_text None sample_resolve sample_link no_failure path buf sample_world ∧
  ∃ buf' msgs v, xrealpath no_text None sample_resolve sample_link no_failure path buf sample_world = Ok (buf', (msgs, v)) ∧
    (v = -1 ∨ msgs = [] ∧ ∃ p s fd s2, path_arg path = Some p ∧ until_nul buf' = Some s ∧ v = Z.of_nat (length s) ∧
       sample_resolve AT_FDCWD true p = Some fd ∧ sys_stat sample_resolve no_failure (Follow s) sample_world = Ok s2 ∧
       ∀ s1, sys_stat sample_resolve no_failure (OnFd fd) sample_world = Ok s1 → st_dev s2 = st_dev s1 ∧ st_ino s2 = st_ino s1).
Proof. intros path buf. apply xrealpath_sound. discriminate. Defined.

Lemma foreign_paths_checked_witness :
  let p := mkPair ∅ (Some (Symlink attr0 (bs "x"))) None in
  cp_afc_for_cxx (λ m, attr0) id None (Some [NUL]) p = (p, false) ∧ mv_path_for_cxx None (Some [NUL]) p = (p, false) ∧
  link_path_for_cxx (λ m, attr0) id None (Some [NUL]) p = (p, false).
Proof.
  intros p. apply (foreign_paths_checked (λ m, attr0) id None (Some [NUL]) p None 0 (∅, [])). by left.
Defined.
End Examples.
