(* ===== verification/MountCalls.v ===== *)
(** MountCalls: the mount operations on paths, [native/src/base/mount.rs].

    Each builds the arguments of one [mount(2)]; [action] is what Linux does with them, in
    the order in which that call looks at its flags. *)

From S2P Require Import Prelude Result.

Record MountCall := mkCall { source : option bytes; target : bytes; flags : Z; data : option bytes }.

(** The bits of the flags that choose the operation. *)
Definition REMOUNT : Z := 5.
Definition BIND : Z := 12.
Definition MOVE : Z := 13.
Definition REC : Z := 14.
Definition UNBINDABLE : Z := 17.
Definition PRIVATE : Z := 18.
Definition SLAVE : Z := 19.
Definition SHARED : Z := 20.

Definition flag (bit : Z) : Z := Z.shiftl 1 bit.
Definition MNT_DETACH : Z := 2.

Inductive Action :=
  | RemountPoint | RemountFs | BindMount (rec : bool) | Propagation (bit : Z) (rec : bool) | MoveMount | NewMount.

Definition action (c : MountCall) : Action :=
  let has := Z.testbit (flags c) in
  if has REMOUNT then if has BIND then RemountPoint else RemountFs
  else if has BIND then BindMount (has REC)
  else if has SHARED then Propagation SHARED (has REC)
  else if has PRIVATE then Propagation PRIVATE (has REC)
  else if has SLAVE then Propagation SLAVE (has REC)
  else if has UNBINDABLE then Propagation UNBINDABLE (has REC)
  else if has MOVE then MoveMount
  else NewMount.

Section Mount.
(** What the kernel answers. *)
Context (mount : MountCall → res Z unit) (umount2 : bytes → Z → res Z unit).

Definition bind_call (self path : bytes) (rec : bool) : MountCall :=
  mkCall (Some self) path (Z.lor (if rec then flag REC else 0) (flag BIND)) None.
Definition bind_mount_to (self path : bytes) (rec : bool) : res OsError unit :=
  check_os_err (bs "bind_mount") (Some self) (Some path) (mount (bind_call self path rec)).

Definition remount_point_call (self : bytes) (f : Z) : MountCall :=
  mkCall None self (Z.lor (Z.lor (flag BIND) (flag REMOUNT)) f) None.
Definition remount_mount_point_flags (self : bytes) (f : Z) : res OsError unit :=
  check_os_err (bs "remount") (Some self) None (mount (remount_point_call self f)).

Definition remount_call (self : bytes) (f : Z) : MountCall := mkCall None self (Z.lor (flag REMOUNT) f) None.
Definition remount_mount_flags (self : bytes) (f : Z) : res OsError unit :=
  check_os_err (bs "remount") (Some self) None (mount (remount_call self f)).

Definition remount_data_call (self d : bytes) : MountCall := mkCall None self (flag REMOUNT) (Some d).
Definition remount_with_data (self d : bytes) : res OsError unit :=
  check_os_err (bs "remount") (Some self) None (mount (remount_data_call self d)).

Definition move_call (self path : bytes) : MountCall := mkCall (Some self) path (flag MOVE) None.
Definition move_mount_to (self path : bytes) : res OsError unit :=
  check_os_err (bs "move_mount") (Some self) (Some path) (mount (move_call self path)).

Definition unmount (self : bytes) : res OsError unit :=
  check_os_err (bs "unmount") (Some self) None (umount2 self MNT_DETACH).

Definition private_call (self : bytes) (rec : bool) : MountCall :=
  mkCall None self (Z.lor (if rec then flag REC else 0) (flag PRIVATE)) None.
Definition set_mount_private (self : bytes) (rec : bool) : res OsError unit :=
  check_os_err (bs "set_mount_private") (Some self) None (mount (private_call self rec)).
End Mount.

(** The call that is made decides what happens, with the flags that were asked for.  A
    remount of a file system stays one unless the flags say [BIND]. *)
Theorem mount_calls_act self path d f rec :
  action (bind_call self path rec) = BindMount rec ∧
  action (remount_point_call self f) = RemountPoint ∧
  (Z.testbit f BIND = false → action (remount_call self f) = RemountFs) ∧
  action (remount_data_call self d) = RemountFs ∧
  action (move_call self path) = MoveMount ∧
  action (private_call self rec) = Propagation PRIVATE rec ∧
  (∀ n, Z.testbit f n = true → Z.testbit (flags (remount_point_call self f)) n = true ∧
     Z.testbit (flags (remount_call self f)) n = true).
Proof.
  unfold action. cbn [flags bind_call remount_point_call remount_call remount_data_call move_call private_call].
  split; [by destruct rec|]. split; [by rewrite !Z.lor_spec|].
  split; [intros Hf; by rewrite !Z.lor_spec, Hf|]. split; [done|]. split; [done|]. split; [by destruct rec|].
  intros n Hn. by rewrite !Z.lor_spec, Hn, !orb_true_r.
Qed.

(** A failed operation is named with the paths it was about. *)
Lemma mount_errors (mount : MountCall → res Z unit) self path rec e :
  mount (bind_call self path rec) = Err e →
  bind_mount_to mount self path rec = Err (mkOs e (bs "bind_mount") (Some self) (Some path)).
Proof. intros H. unfold bind_mount_to. by rewrite H. Qed.
