(* ===== verification/Init.v ===== *)
(** Init: the boot flows of magiskinit, [native/src/init/init.rs], [twostage.rs], [getinfo.rs],
    [logging.rs] and the rest of [mount.rs].

    The state is the [MagiskInit] struct and the files by their full names; a call succeeds if
    the environment lets it ([Env]) and the files allow it.  Renaming a directory is not
    needed and not modelled.  The functions of the C++ side are parameters that may do
    anything to the state; [mount_system_root] may also end the process or wait for ever, which
    are the outcomes [Panic] and [NoFuel] here. *)

From S2P Require Import Prelude Misc Files Io Sys Mount.

(** ** State *)

(** The character arrays are the strings in them. *)
Record BootConfig := mkConfig {
  skip_initramfs : bool; force_normal_boot : bool; rootwait : bool; emulator : bool;
  slot : bytes; dt_dir : bytes; fstab_suffix : bytes; hardware : bytes; hardware_plat : bytes;
  boot_mode : bytes; partition_map : list (bytes * bytes)
}.

(** [overlay_con]: the paths with their contexts. *)
Record MagiskInit := mkInit {
  preinit_dev : bytes; mount_list : list bytes; argv : list bytes; config : BootConfig;
  overlay_con : list (bytes * bytes)
}.

Inductive Obj := File (d : bytes) | Link (target : bytes) | Dir_.
#[global] Instance Obj_eq_dec : EqDecision Obj.
Proof. solve_decision. Defined.

(** With the bind mounts made, as source and target. *)
Record World := mkWorld { self : MagiskInit; files : gmap bytes Obj; binds : list (bytes * bytes) }.

Inductive InitOp :=
  | MkdirAt (p : bytes)
  | MkdirsAt (p : bytes)
  | MountFs (src target fs data : bytes)
  | RemoveAt (p : bytes)
  | RemoveAll (p : bytes)
  | Rename (from to : bytes)
  | SymlinkTo (p target : bytes)
  | CopyTo (from to : bytes)
  | BindMount (from to : bytes)
  | Map (p : bytes) (rw : bool)
  | Create (p : bytes)
  | WriteTo (p d : bytes)
  | SetAttr (p from : bytes)
  | Open (p : bytes)
  | Mknod (p : bytes) (major minor : Z)
  | Dup (fd : Z)
  | Cpp (name : bytes)
  | Mnt (o : MountOp).

Abbreviation I := (Sys World InitOp).

Definition with_self (f : MagiskInit → MagiskInit) (w : World) : World := mkWorld (f (self w)) (files w) (binds w).
Definition with_files (f : gmap bytes Obj → gmap bytes Obj) (w : World) : World := mkWorld (self w) (f (files w)) (binds w).
Definition push_mount (p : bytes) (m : MagiskInit) : MagiskInit :=
  mkInit (preinit_dev m) (mount_list m ++ [p]) (argv m) (config m) (overlay_con m).
Definition set_argv0 (a : bytes) (m : MagiskInit) : MagiskInit :=
  mkInit (preinit_dev m) (mount_list m) (match argv m with _ :: l => a :: l | [] => [a] end) (config m) (overlay_con m).
Definition set_config (c : BootConfig) (m : MagiskInit) : MagiskInit :=
  mkInit (preinit_dev m) (mount_list m) (argv m) c (overlay_con m).

(** ** Files by name *)

(** [p] and what is below it. *)
Definition under (p k : bytes) : bool := bool_decide (k = p) || starts_with (p ++ bs "/") k.
Definition empty_dir (p : bytes) (m : gmap bytes Obj) : Prop :=
  Forall (λ e, starts_with (p ++ bs "/") e.1 = false) (map_to_list m).

#[global] Instance empty_dir_dec p m : Decision (empty_dir p m).
Proof. unfold empty_dir. apply _. Defined.

Definition is_file (o : option Obj) : bool := match o with Some (File _) | Some (Link _) => true | _ => false end.

Definition copy_tree (from to : bytes) (m : gmap bytes Obj) : gmap bytes Obj :=
  list_to_map (omap (λ e, if under from e.1 then Some (to ++ drop (length from) e.1, e.2) else None) (map_to_list m)) ∪ m.

(** The directories a path goes through, itself last. *)
Fixpoint dir_prefixes (pre : bytes) (cs : list bytes) : list bytes :=
  match cs with [] => [] | c :: cs => let p := pre ++ bs "/" ++ c in p :: dir_prefixes p cs end.

(** The directory an entry is made in. *)
Definition has_parent (p : bytes) (m : gmap bytes Obj) : bool :=
  match Cstr.Path.parent_dir p with
  | Some d => bool_decide (d = bs "/") || match m !! d with Some Dir_ | Some (Link _) => true | _ => false end
  | None => false
  end.

Section Calls.
Context (env : Env InitOp).

Definition exists_ (p : bytes) : I bool := read (λ w, bool_decide (is_Some (files w !! p))).

(** A call that also needs the files to be so. *)
Definition try_call (o : InitOp) (cond : gmap bytes Obj → bool) (f : gmap bytes Obj → gmap bytes Obj) : I unit :=
  λ w h, if env h o && cond (files w) then (with_files f w, h ++ [o], Ok tt) else (w, h ++ [o], Err tt).

Definition mkdir (p : bytes) : I unit :=
  try_call (MkdirAt p) (has_parent p) (λ m, match m !! p with None => <[p := Dir_]> m | Some _ => m end).
Definition mkdirs (p : bytes) : I unit :=
  try_call (MkdirsAt p) (λ m, forallb (λ q, negb (is_file (m !! q))) (dir_prefixes [] (components p)))
    (λ m, foldl (λ m q, match m !! q with None => <[q := Dir_]> m | Some _ => m end) m (dir_prefixes [] (components p))).
Definition remove (p : bytes) : I unit :=
  try_call (RemoveAt p)
    (λ m, match m !! p with None => false | Some Dir_ => bool_decide (empty_dir p m) | Some _ => true end) (delete p).
Definition remove_all (p : bytes) : I unit :=
  try_call (RemoveAll p) (λ _, true) (filter (λ e, under p e.1 = false)).
Definition rename_to (from to : bytes) : I unit :=
  try_call (Rename from to) (λ m, is_file (m !! from) && negb (bool_decide (m !! to = Some Dir_)) && has_parent to m)
    (λ m, match m !! from with Some o => <[to := o]> (delete from m) | None => m end).
Definition create_symlink_to (p target : bytes) : I unit :=
  try_call (SymlinkTo p target) (λ m, bool_decide (m !! p = None) && has_parent p m) (<[p := Link target]>).
Definition copy_to (from to : bytes) : I unit :=
  try_call (CopyTo from to) (λ m, bool_decide (is_Some (m !! from)) && has_parent to m) (copy_tree from to).
Definition create (p : bytes) : I unit :=
  try_call (Create p) (λ m, negb (bool_decide (m !! p = Some Dir_)) && has_parent p m)
    (λ m, match m !! p with None => <[p := File []]> m | Some _ => m end).
(** Written from the start of the file, which is not truncated. *)
Definition write_to (p d : bytes) : I unit :=
  try_call (WriteTo p d) (λ _, true)
    (λ m, <[p := File (d ++ match m !! p with Some (File old) => drop (length d) old | _ => [] end)]> m).
Definition mount_fs (src target fs data : bytes) : I unit := ask env (MountFs src target fs data).
Definition bind_mount_to (from to : bytes) : I unit :=
  do_ env (BindMount from to) (λ w, mkWorld (self w) (files w) (binds w ++ [(from, to)])) (λ w, w).
Definition unmount (p : bytes) : I unit := ask env (Mnt (Unmount p)).

(** The contents of a file that is mapped; one without contents cannot be. *)
Definition map_file (p : bytes) (rw : bool) : I bytes :=
  _ ← ask env (Map p rw);
  lift_ (λ w, match files w !! p with
              | Some (File d) => if bool_decide (d = []) then Err tt else Ok d
              | _ => Err tt
              end).

(** Calls of [Mount]. *)
Definition embed {A} (m : Env MountOp → Io MountOp A) : I A := λ w h,
  let '(t, r) := m (λ k o, env (h ++ map Mnt k) (Mnt o)) [] in (w, h ++ map Mnt t, r).

(** ** [logging.rs]: the first descriptors and the kernel log *)

(** Opens a device node, or a copy of it made for the purpose. *)
Definition open_node (dev tmp : bytes) (minor : Z) : I bool :=
  there ← is_ok_ (ask env (Open dev));
  if there : bool then mret true
  else
    _ ← ok_ (ask env (Mknod tmp 1 minor));
    there ← is_ok_ (ask env (Open tmp));
    _ ← ok_ (ask env (RemoveAt tmp));
    mret there.

(** The results of [dup3] are not looked at. *)
Definition setup_klog : I unit :=
  null ← open_node (bs "/dev/null") (bs "/null") 3;
  _ ← (if null : bool then each (λ fd, ok_ (ask env (Dup fd))) [0; 1; 2] else mret tt);
  _ ← open_node (bs "/dev/kmsg") (bs "/kmsg") 11;
  rate ← is_ok_ (ask env (Open (bs "/proc/sys/kernel/printk_devkmsg")));
  if rate : bool then ok_ (ask env (WriteTo (bs "/proc/sys/kernel/printk_devkmsg") (bs "on" ++ [Byte.x0a]))) else mret tt.

(** ** [twostage.rs] *)

(** How a function of the C++ side comes back, if it does: it can also call [exit], or poll
    for a device that never appears. *)
Inductive Return := Returns (w : World) (b : bool) | Exits (w : World) | Polls (w : World).
Definition left_in (r : Return) : World := match r with Returns w _ | Exits w | Polls w => w end.
Definition outcome_of (r : Return) : LoggedResult bool :=
  match r with Returns _ b => Ok b | Exits _ => Panic | Polls _ => NoFuel end.

Section Flows.
(** The patched contents of a mapped file and the offsets, the decompressor, and the
    functions of the C++ side. *)
Context (mut_u8_patch : bytes → bytes → bytes → bytes * list Z) (unxz : bytes → bytes).
Context (config_init : World → BootConfig) (patch_rw_root patch_ro_root : World → World)
  (mount_system_root : World → Return).
Context (root_fs_type : option Z).

Definition cpp (name : string) (f : World → World) : I unit := λ w h, (f w, h ++ [Cpp (bs name)], Ok tt).
Definition cpp_bool (name : string) (f : World → Return) : I bool := λ w h,
  (left_in (f w), h ++ [Cpp (bs name)], outcome_of (f w)).

(** [backup_init]: the compressed backup is unpacked first. *)
Definition BACKUP : bytes := bs "/.backup/init".
Definition unpack (m : gmap bytes Obj) : gmap bytes Obj :=
  match m !! bs "/.backup/init.xz" with
  | Some (File d) => <[BACKUP := File (unxz d)]> (delete (bs "/.backup/init.xz") m)
  | _ => m
  end.
Definition backup_init : I bytes := _ ← cpp "backup_init" (with_files unpack); mret BACKUP.

Definition hexpatch_init_for_second_stage (writable : bool) : I unit :=
  init ← try_ (map_file (bs "/init") writable);
  match init with
  | None => mret tt
  | Some init =>
      let '(init, _) := mut_u8_patch init (bs "/system/bin/init") (bs "/data/magiskinit") in
      if writable then modify (with_files (<[bs "/init" := File init]>))
      else
        ok_ (_ ← create (bs "/data/init");
             _ ← write_to (bs "/data/init") init;
             _ ← ask env (SetAttr (bs "/data/init") (bs "/init"));
             bind_mount_to (bs "/data/init") (bs "/init"))
  end.

Definition hijack_init_with_switch_root : I unit :=
  w ← read (λ w, w);
  _ ← (if force_normal_boot (config (self w)) then
         _ ← ok_ (mkdirs (bs "/first_stage_ramdisk/storage/self"));
         _ ← ok_ (create_symlink_to (bs "/first_stage_ramdisk/storage/self/primary") (bs "/system/system/bin/init"));
         ok_ (create (bs "/first_stage_ramdisk/sdcard"))
       else
         _ ← ok_ (mkdirs (bs "/storage/self"));
         ok_ (create_symlink_to (bs "/storage/self/primary") (bs "/system/system/bin/init")));
  _ ← ok_ (rename_to (bs "/init") (bs "/sdcard"));
  bound ← is_ok_ (bind_mount_to (bs "/sdcard") (bs "/sdcard"));
  if bound : bool then mret tt else ok_ (bind_mount_to (bs "/data/magiskinit") (bs "/sdcard")).

(** ** [mount.rs] *)

Definition RAMFS_MAGIC : Z := 0x858458f6.
Definition TMPFS_MAGIC : Z := 0x01021994.
Definition is_rootfs : bool :=
  match root_fs_type with Some t => (t =? RAMFS_MAGIC) || (t =? TMPFS_MAGIC) | None => false end.

Definition prepare_data : I unit :=
  _ ← ok_ (mkdir (bs "/data"));
  _ ← ok_ (mount_fs (bs "magisk") (bs "/data") (bs "tmpfs") (bs "mode=755"));
  _ ← ok_ (copy_to (bs "/init") (bs "/data/magiskinit"));
  _ ← ok_ (copy_to (bs "/.backup") (bs "/data/.backup"));
  ok_ (copy_to (bs "/overlay.d") (bs "/data/overlay.d")).

(** ** [getinfo.rs] *)

Definition check_two_stage : I bool :=
  a ← exists_ (bs "/first_stage_ramdisk");
  b ← exists_ (bs "/second_stage_resources");
  c ← exists_ (bs "/system/bin/init");
  d ← exists_ (bs "/apex");
  if a || b || c || d : bool then mret true
  else
    real ← exists_ (bs "/init.real");
    (* the argument of unwrap_or is evaluated in any case *)
    backup ← backup_init;
    data ← try_ (map_file (if real : bool then bs "/init.real" else backup) false);
    mret (match data with Some data => contains (bs "selinux_setup") data | None => false end).

(** ** [init.rs] *)

Definition restore_ramdisk_init : I unit :=
  _ ← ok_ (remove (bs "/init"));
  orig_init ← backup_init;
  there ← exists_ orig_init;
  if there : bool then ok_ (rename_to orig_init (bs "/init"))
  else ok_ (create_symlink_to (bs "/init") (bs "/system/bin/init")).

Definition first_stage : I unit :=
  _ ← prepare_data;
  sdcard ← exists_ (bs "/sdcard");
  first_sdcard ← (if sdcard : bool then mret true else exists_ (bs "/first_stage_ramdisk/sdcard"));
  if negb sdcard && negb first_sdcard then
    _ ← hijack_init_with_switch_root;
    restore_ramdisk_init
  else
    _ ← restore_ramdisk_init;
    hexpatch_init_for_second_stage true.

Definition second_stage : I unit :=
  _ ← ok_ (unmount (bs "/init"));
  _ ← ok_ (unmount (bs "/system/bin/init"));
  _ ← ok_ (remove (bs "/data/init"));
  _ ← modify (with_self (set_argv0 (bs "/system/bin/init")));
  if is_rootfs then
    _ ← ok_ (remove (bs "/init"));
    _ ← ok_ (create_symlink_to (bs "/init") (bs "/system/bin/init"));
    cpp "patch_rw_root" patch_rw_root
  else cpp "patch_ro_root" patch_ro_root.

Definition legacy_system_as_root : I unit :=
  _ ← prepare_data;
  is_two_stage ← cpp_bool "mount_system_root" mount_system_root;
  if is_two_stage : bool then hexpatch_init_for_second_stage false
  else cpp "patch_ro_root" patch_ro_root.

Definition rootfs : I unit :=
  _ ← prepare_data;
  _ ← restore_ramdisk_init;
  cpp "patch_rw_root" patch_rw_root.

Definition recovery_or_charger : I unit :=
  _ ← restore_ramdisk_init;
  ok_ (remove_all (bs "/.backup")).

(** A kernel file system that is not there yet. *)
Definition mount_if_missing (probe p fs : string) : I unit :=
  there ← exists_ (bs probe);
  if there : bool then mret tt
  else
    _ ← mkdir (bs p);
    _ ← mount_fs (bs fs) (bs p) (bs fs) [];
    modify (with_self (push_mount (bs p))).

(** The flow is chosen by the arguments, the kernel's command line and the files there. *)
Definition run_flow : I unit :=
  w ← read (λ w, w);
  let c := config (self w) in
  recovery ← exists_ (bs "/sbin/recovery");
  recovery ← (if recovery : bool then mret true else exists_ (bs "/system/bin/recovery"));
  if bool_decide (argv (self w) !! 1%nat = Some (bs "selinux_setup")) then second_stage
  else if skip_initramfs c then legacy_system_as_root
  else if force_normal_boot c then first_stage
  else if recovery || bool_decide (boot_mode c = bs "charger") then recovery_or_charger
  else
    two_stage ← check_two_stage;
    if two_stage : bool then first_stage else rootfs.

Definition start : I unit :=
  _ ← mount_if_missing "/proc/cmdline" "/proc" "proc";
  _ ← mount_if_missing "/sys/block" "/sys" "sysfs";
  _ ← (_ ← setup_klog;
       _ ← cpp "BootConfig::init" (λ w, with_self (set_config (config_init w)) w);
       run_flow);
  w ← read (λ w, w);
  embed (λ env, exec_init env (mount_list (self w))).

(** [MagiskInit::new]. *)
Definition initial (args : list bytes) : MagiskInit :=
  mkInit [] [] args (mkConfig false false false false [] [] [] [] [] [] []) [].

(** [main]: the process [init] runs as number 1. *)
Inductive Main := Proxy | Started (w : World * list InitOp * LoggedResult unit) | Ignored.
Definition main (name : bytes) (pid : Z) (args : list bytes) (files0 : gmap bytes Obj) : Main :=
  if bool_decide (name = bs "magisk") then Proxy
  else if pid =? 1 then
    Started (start (mkWorld (initial args) files0 []) [])
  else Ignored.
End Flows.
End Calls.

(** ** Whatever calls fail, the boot goes on *)

(** A computation that extends the trace and ends in a value or an error; one that always
    ends in a value. *)
Definition safe {A} (m : I A) : Prop := ∀ w h, ∃ w' t r, m w h = (w', h ++ t, r) ∧ r ≠ Panic ∧ r ≠ NoFuel.
Definition total {A} (m : I A) : Prop := ∀ w h, ∃ w' t a, m w h = (w', h ++ t, Ok a).

Lemma total_safe {A} (m : I A) : total m → safe m.
Proof. intros Hm w h. destruct (Hm w h) as (w' & t & a & E). by exists w', t, (Ok a). Qed.

Lemma total_ret {A} (a : A) : total (mret a).
Proof. intros w h. exists w, [], a. by rewrite app_nil_r. Qed.
Lemma total_read {A} (f : World → A) : total (read f).
Proof. intros w h. exists w, [], (f w). by rewrite app_nil_r. Qed.
Lemma total_modify f : total (modify f).
Proof. intros w h. exists (f w), [], tt. by rewrite app_nil_r. Qed.
Lemma total_cpp n f : total (cpp n f).
Proof. intros w h. by eexists _, _, _. Qed.

Lemma safe_do env o ok ko : safe (do_ env o ok ko).
Proof. intros w h. unfold do_. destruct (env h o); eexists _, _, _; (split; [reflexivity|done]). Qed.
Lemma safe_try_call env o c f : safe (try_call env o c f).
Proof. intros w h. unfold try_call. destruct (_ && _); eexists _, _, _; (split; [reflexivity|done]). Qed.

Lemma total_bind {A B} (m : I A) (f : A → I B) : total m → (∀ a, total (f a)) → total (mbind f m).
Proof.
  intros Hm Hf w h. destruct (Hm w h) as (w1 & t1 & a & E1). destruct (Hf a w1 (h ++ t1)) as (w2 & t2 & b & E2).
  exists w2, (t1 ++ t2), b. unfold mbind, sys_bind. by rewrite E1, E2, app_assoc.
Qed.
Lemma safe_bind {A B} (m : I A) (f : A → I B) : safe m → (∀ a, safe (f a)) → safe (mbind f m).
Proof.
  intros Hm Hf w h. destruct (Hm w h) as (w1 & t1 & [a|e| |] & E1 & H1 & H2); try done.
  - destruct (Hf a w1 (h ++ t1)) as (w2 & t2 & r & E2 & H3 & H4).
    exists w2, (t1 ++ t2), r. unfold mbind, sys_bind. by rewrite E1, E2, app_assoc.
  - exists w1, t1, (Err e). unfold mbind, sys_bind. by rewrite E1.
Qed.

Lemma total_ok {A} (m : I A) : safe m → total (ok_ m).
Proof.
  intros Hm w h. destruct (Hm w h) as (w' & t & [a|e| |] & E & H1 & H2); try done;
    exists w', t, tt; unfold ok_; by rewrite E.
Qed.
Lemma total_is_ok {A} (m : I A) : safe m → total (is_ok_ m).
Proof.
  intros Hm w h. destruct (Hm w h) as (w' & t & [a|e| |] & E & H1 & H2); try done; unfold is_ok_; rewrite E; by eexists _, _, _.
Qed.
Lemma total_try {A} (m : I A) : safe m → total (try_ m).
Proof.
  intros Hm w h. destruct (Hm w h) as (w' & t & [a|e| |] & E & H1 & H2); try done; unfold try_; rewrite E; by eexists _, _, _.
Qed.
Lemma total_each {A} (f : A → I unit) l : (∀ a, total (f a)) → total (each f l).
Proof. intros Hf. induction l as [|a l IH]; [apply total_ret|]. by apply total_bind. Qed.
Lemma total_if {A} (b : bool) (m k : I A) : total m → total k → total (if b then m else k).
Proof. by destruct b. Qed.

Lemma safe_map_file env p rw : safe (map_file env p rw).
Proof.
  apply safe_bind; [apply safe_do|]. intros [] w h. unfold lift_. exists w, []. rewrite app_nil_r.
  destruct (files w !! p) as [[d|l|]|]; [case_bool_decide|..]; by eexists.
Qed.

(** One that ends in a value, or in the C++ function that does not come back. *)
Definition stuck_in (f : World → Return) {A} (t : list InitOp) (r : LoggedResult A) : Prop :=
  ∃ t' w0, t = t' ++ [Cpp (bs "mount_system_root")] ∧
    ((∃ w', f w0 = Exits w') ∧ r = Panic ∨ (∃ w', f w0 = Polls w') ∧ r = NoFuel).
Definition total_or_stuck (f : World → Return) {A} (m : I A) : Prop := ∀ w h, ∃ w' t r,
  m w h = (w', h ++ t, r) ∧ ((∃ a, r = Ok a) ∨ stuck_in f t r).

Lemma total_or f {A} (m : I A) : total m → total_or_stuck f m.
Proof. intros Hm w h. destruct (Hm w h) as (w' & t & a & E). exists w', t, (Ok a). split; [done|left; by eexists]. Qed.

Lemma stuck_call f : total_or_stuck f (cpp_bool "mount_system_root" f).
Proof.
  intros w h. exists (left_in (f w)), [Cpp (bs "mount_system_root")], (outcome_of (f w)). split; [done|].
  destruct (f w) as [w' b|w'|w'] eqn:E; [left; by eexists|right..]; exists [], w; (split; [done|]);
    [left|right]; (split; [by exists w'|done]).
Qed.

Lemma stuck_bind f {A B} (m : I A) (k : A → I B) : total_or_stuck f m → (∀ a, total_or_stuck f (k a)) →
  total_or_stuck f (mbind k m).
Proof.
  intros Hm Hk w h. destruct (Hm w h) as (w1 & t1 & r & E1 & [[a ->]|Hs]).
  - destruct (Hk a w1 (h ++ t1)) as (w2 & t2 & r2 & E2 & Hr). exists w2, (t1 ++ t2), r2.
    unfold mbind, sys_bind. rewrite E1, E2, app_assoc. split; [done|]. destruct Hr as [Hr|(t' & w0 & -> & Hr)]; [by left|].
    right. exists (t1 ++ t'), w0. by rewrite app_assoc.
  - exists w1, t1. destruct Hs as (t' & w0 & -> & [[Hw ->]|[Hw ->]]); unfold mbind, sys_bind; rewrite E1.
    + exists Panic. split; [done|]. right. exists t', w0. split; [done|]. by left.
    + exists NoFuel. split; [done|]. right. exists t', w0. split; [done|]. by right.
Qed.

Create HintDb init.
#[export] Hint Resolve total_ret total_read total_modify total_cpp safe_do safe_try_call safe_map_file : init.
#[export] Hint Extern 2 (safe (mbind _ _)) => apply safe_bind; [|intros ?] : init.
#[export] Hint Extern 3 (safe _) => apply total_safe : init.
#[export] Hint Extern 2 (safe (if _ then _ else _)) => case_match : init.
#[export] Hint Resolve total_ok total_is_ok total_try total_each total_if total_bind : init.

Section Total.
Context (env : Env InitOp).
Context (mut_u8_patch : bytes → bytes → bytes → bytes * list Z) (unxz : bytes → bytes).
Context (config_init : World → BootConfig) (patch_rw_root patch_ro_root : World → World)
  (mount_system_root : World → Return) (root_fs_type : option Z).

Ltac total := unfold mkdir, mkdirs, remove, remove_all, rename_to, create_symlink_to, copy_to, create, write_to,
  mount_fs, bind_mount_to, unmount, exists_, ask in *; eauto 20 with init.

Lemma backup_total : total (backup_init unxz).
Proof. unfold backup_init. total. Qed.
#[local] Hint Resolve backup_total : init.

Lemma hexpatch_total b : total (hexpatch_init_for_second_stage env mut_u8_patch b).
Proof.
  unfold hexpatch_init_for_second_stage. apply total_bind; [total|]. intros [d|]; [|total].
  destruct (mut_u8_patch d _ _) as [d' l]. total.
Qed.
#[local] Hint Resolve hexpatch_total : init.

Lemma restore_total : total (restore_ramdisk_init env unxz).
Proof. unfold restore_ramdisk_init. total. Qed.
#[local] Hint Resolve restore_total : init.

Lemma prepare_total : total (prepare_data env).
Proof. unfold prepare_data. total. Qed.
#[local] Hint Resolve prepare_total : init.

Lemma hijack_total : total (hijack_init_with_switch_root env).
Proof. unfold hijack_init_with_switch_root. total. Qed.
#[local] Hint Resolve hijack_total : init.

Lemma first_stage_total : total (first_stage env mut_u8_patch unxz).
Proof. unfold first_stage. total. Qed.
#[local] Hint Resolve first_stage_total : init.

Lemma check_two_stage_total : total (check_two_stage env unxz).
Proof.
  unfold check_two_stage. repeat (apply total_bind; [total|intros ?]). apply total_if; [total|].
  repeat (apply total_bind; [total|intros ?]). total.
Qed.
#[local] Hint Resolve check_two_stage_total : init.

Lemma open_node_total d t m : total (open_node env d t m).
Proof. unfold open_node. total. Qed.
#[local] Hint Resolve open_node_total : init.

Lemma setup_klog_total : total (setup_klog env).
Proof. unfold setup_klog. total. Qed.

Lemma second_stage_total : total (second_stage env patch_rw_root patch_ro_root root_fs_type).
Proof. unfold second_stage. total. Qed.
Lemma legacy_ends : total_or_stuck mount_system_root
  (legacy_system_as_root env mut_u8_patch patch_ro_root mount_system_root).
Proof.
  unfold legacy_system_as_root. apply stuck_bind; [apply total_or, prepare_total|]. intros [].
  apply stuck_bind; [apply stuck_call|]. intros b. apply total_or. total.
Qed.
Lemma rootfs_total : total (rootfs env unxz patch_rw_root).
Proof. unfold rootfs. total. Qed.
Lemma recovery_total : total (recovery_or_charger env unxz).
Proof. unfold recovery_or_charger. total. Qed.

Lemma run_flow_ends : total_or_stuck mount_system_root
  (run_flow env mut_u8_patch unxz patch_rw_root patch_ro_root mount_system_root root_fs_type).
Proof.
  unfold run_flow. apply stuck_bind; [apply total_or; total|]. intros w0. apply stuck_bind; [apply total_or; total|].
  intros r. apply stuck_bind; [apply total_or; total|]. intros r'.
  repeat case_match; [apply total_or, second_stage_total|apply legacy_ends|apply total_or, first_stage_total|
    apply total_or, recovery_total|].
  apply total_or, total_bind; [apply check_two_stage_total|]. intros b.
  apply total_if; [apply first_stage_total|apply rootfs_total].
Qed.

(** The calls that can end the boot. *)
Definition early_call (o : InitOp) : Prop :=
  o ∈ [MkdirAt (bs "/proc"); MountFs (bs "proc") (bs "/proc") (bs "proc") [];
       MkdirAt (bs "/sys"); MountFs (bs "sysfs") (bs "/sys") (bs "sysfs") []].

Lemma mount_if_missing_cases probe p fs w h : ∃ w' t r, mount_if_missing env probe p fs w h = (w', h ++ t, r) ∧
  (r = Ok tt ∨ r = Err tt) ∧ Forall (λ o, o ∈ [MkdirAt (bs p); MountFs (bs fs) (bs p) (bs fs) []]) t ∧
  ∀ q, q ≠ bs p → files w' !! q = files w !! q.
Proof.
  assert (Hf : ∀ q, q ≠ bs p → (match files w !! bs p with None => <[bs p := Dir_]> (files w) | Some _ => files w end) !! q = files w !! q).
  { intros q Hq. destruct (files w !! bs p); [done|]. by rewrite lookup_insert_ne. }
  unfold mount_if_missing, exists_, read, mkdir, try_call, mount_fs, ask, do_, modify, mbind, sys_bind.
  case_bool_decide.
  - exists w, [], (Ok tt). rewrite app_nil_r. split_and!; [done|by left|constructor|done].
  - destruct (env h (MkdirAt (bs p)) && has_parent (bs p) (files w));
      [|exists w, [MkdirAt (bs p)], (Err tt); split_and!; [done|by right|repeat constructor; set_solver|done]].
    destruct (env _ (MountFs _ _ _ _)); eexists _, [_; _], _; rewrite <- app_assoc;
      (split_and!; [reflexivity|by (left + right)|repeat constructor; set_solver|exact Hf]).
Qed.

Lemma exec_init_calls (e : Env MountOp) l : exec_init e l [] = (map Unmount (rev l) ++ [ExecInit], Ok tt).
Proof.
  unfold exec_init, mbind, io_bind. rewrite (for_each_calls _ (λ p, [Unmount p])).
  - unfold ignore, call. cbn [app]. assert (flat_map (λ p, [Unmount p]) (rev l) = map Unmount (rev l)) as ->.
    { induction (rev l) as [|x k IH]; [done|]. cbn. by rewrite IH. }
    by destruct (e _ ExecInit).
  - intros p h. unfold ignore, call. by destruct (e h (Unmount p)).
Qed.

End Total.

(** ** The first stage *)

Lemma wp_try_call env o c f (Q : unit → World → Prop) (E : World → Prop) w : all_succeed env →
  (c (files w) = true → Q tt (with_files f w)) → (c (files w) = false → E w) → wp (try_call env o c f) Q E w.
Proof. intros He HQ HE h. unfold try_call. rewrite He. destruct (c (files w)); [by apply HQ|by apply HE]. Qed.

Lemma wp_cpp n f (Q : unit → World → Prop) (E : World → Prop) w : Q tt (f w) → wp (cpp n f) Q E w.
Proof. by intros H h. Qed.

(** Files that are as before. *)
Definition same_on (ks : list bytes) (m m' : gmap bytes Obj) : Prop := Forall (λ k, m' !! k = m !! k) ks.

Lemma same_on_refl ks m : same_on ks m m.
Proof. by apply Forall_true. Qed.

Lemma same_on_trans ks m1 m2 m3 : same_on ks m1 m2 → same_on ks m2 m3 → same_on ks m1 m3.
Proof.
  unfold same_on. rewrite !Forall_forall. intros H1 H2 k Hk. by rewrite H2, H1.
Qed.

Lemma same_on_insert ks p o m : p ∉ ks → same_on ks m (<[p := o]> m).
Proof. intros Hp. apply Forall_forall. intros k Hk. rewrite lookup_insert_ne; [done|]. by intros ->. Qed.

Lemma same_on_add ks p o m : p ∉ ks → same_on ks m (match m !! p with None => <[p := o]> m | Some _ => m end).
Proof. intros Hp. destruct (m !! p); [apply same_on_refl|by apply same_on_insert]. Qed.

Lemma same_on_dirs ks ps m : Forall (λ p, p ∉ ks) ps →
  same_on ks m (foldl (λ m q, match m !! q with None => <[q := Dir_]> m | Some _ => m end) m ps).
Proof.
  intros Hps. revert m. induction Hps as [|p ps Hp _ IH]; intros m; [apply same_on_refl|]. cbn [foldl].
  eapply same_on_trans; [by apply same_on_add|apply IH].
Qed.

Lemma copy_tree_other from to m k : starts_with to k = false → copy_tree from to m !! k = m !! k.
Proof.
  intros Hk. unfold copy_tree. apply lookup_union_r. apply not_elem_of_list_to_map_1.
  intros (e & -> & He)%list_elem_of_fmap. apply list_elem_of_omap in He as (d & _ & Hd).
  destruct (under from d.1); [|done]. injection Hd as <-. cbn [fst] in Hk.
  by rewrite starts_with_app in Hk.
Qed.

Lemma copy_tree_self from to m o : m !! from = Some o → copy_tree from to m !! to = Some o.
Proof.
  intros Hm. unfold copy_tree. apply lookup_union_Some_l. apply elem_of_list_to_map_1'.
  - intros y ([k y'] & Hk & Hy)%list_elem_of_omap. cbn [fst snd] in Hy. destruct (under from k) eqn:Hu; [|done].
    injection Hy as Hd ->. apply elem_of_map_to_list in Hk.
    assert (drop (length from) k = []) as Hnil.
    { apply (f_equal length) in Hd. rewrite length_app in Hd. apply length_zero_iff_nil. lia. }
    unfold under in Hu. case_bool_decide as Hf; [subst k; congruence|]. apply starts_with_spec in Hu as [r ->].
    rewrite <- app_assoc, drop_app_length in Hnil. by destruct r.
  - apply list_elem_of_omap. exists (from, o). split; [by apply elem_of_map_to_list|]. cbn [fst snd].
    unfold under. rewrite bool_decide_true, drop_ge, app_nil_r by done. done.
Qed.

(** What is left in place of the original init. *)
Definition orig_init (unxz : bytes → bytes) (m : gmap bytes Obj) : option Obj :=
  match m !! bs "/.backup/init.xz" with Some (File d) => Some (File (unxz d)) | _ => m !! BACKUP end.

Section First.
Context (env : Env InitOp) (env_ok : all_succeed env).

Definition put_files (m : gmap bytes Obj) (w : World) : World := mkWorld (self w) m (binds w).

(** A call whose failure does not matter. *)
Lemma wp_tried o c f (Q : unit → World → Prop) (E : World → Prop) w :
  (c (files w) = true → Q tt (put_files (f (files w)) w)) → (c (files w) = false → Q tt w) →
  wp (ok_ (try_call env o c f)) Q E w.
Proof. intros H1 H2. apply wp_ok, wp_try_call; [done|exact H1|exact H2]. Qed.

Lemma same_on_elem ks m m' k : same_on ks m m' → k ∈ ks → m' !! k = m !! k.
Proof. unfold same_on. rewrite Forall_forall. auto. Qed.

Definition data_root (m : gmap bytes Obj) : Prop := m !! bs "/data" = None ∨ m !! bs "/data" = Some Dir_.

(** Only files below /data differ, and not the copy of magiskinit. *)
Definition beside_data (m m' : gmap bytes Obj) : Prop :=
  (∀ k, starts_with (bs "/data/") k = false → m' !! k = m !! k) ∧
  m' !! bs "/data/magiskinit" = m !! bs "/data/magiskinit".

Lemma beside_trans m1 m2 m3 : beside_data m1 m2 → beside_data m2 m3 → beside_data m1 m3.
Proof. intros [H1 H2] [H3 H4]. split; [intros k Hk; by rewrite H3, H1|by rewrite H4]. Qed.

Lemma copy_below from to m k : starts_with (bs "/data/") to = true → starts_with (bs "/data/") k = false →
  copy_tree from to m !! k = m !! k.
Proof.
  intros [r ->]%starts_with_spec Hk. apply copy_tree_other. apply not_true_is_false.
  intros [q ->]%starts_with_spec. rewrite <- app_assoc, starts_with_app in Hk. done.
Qed.

Lemma copy_beside from to m : starts_with (bs "/data/") to = true → starts_with to (bs "/data/magiskinit") = false →
  beside_data m (copy_tree from to m).
Proof. intros Ht Hn. split; [intros k Hk; by apply copy_below|by apply copy_tree_other]. Qed.

Lemma wp_prepare_data mi (Q : unit → World → Prop) (E : World → Prop) w : files w !! bs "/init" = Some (File mi) →
  data_root (files w) →
  (∀ m, (∀ k, k ≠ bs "/data" → starts_with (bs "/data/") k = false → m !! k = files w !! k) →
    m !! bs "/data/magiskinit" = Some (File mi) → Q tt (put_files m w)) →
  wp (prepare_data env) Q E w.
Proof.
  intros Hi Hd HQ. unfold prepare_data.
  apply wp_bind, wp_tried; [intros _|by intros]. set (m1 := match _ with None => _ | Some _ => _ end).
  assert (H1 : ∀ k, k ≠ bs "/data" → m1 !! k = files w !! k).
  { intros k Hk. unfold m1. destruct (files w !! bs "/data"); [done|]. by rewrite lookup_insert_ne. }
  assert (Hd1 : m1 !! bs "/data" = Some Dir_).
  { unfold m1. destruct Hd as [E0|E0]; rewrite E0; [by rewrite lookup_insert_eq|done]. }
  apply wp_bind. apply wp_ok, wp_ask_ok; [done|].
  assert (Hi1 : m1 !! bs "/init" = Some (File mi)) by (rewrite H1; done).
  assert (Hpar : ∀ m, m !! bs "/data" = Some Dir_ → has_parent (bs "/data/magiskinit") m = true).
  { intros m Hm. unfold has_parent. assert (Cstr.Path.parent_dir (bs "/data/magiskinit") = Some (bs "/data")) as -> by reflexivity.
    cbv beta iota. by rewrite Hm, orb_true_r. }
  apply wp_bind, wp_tried; cbn [files put_files]; rewrite Hpar, bool_decide_true by (done || by eexists); [intros _|done].
  set (m2 := copy_tree _ _ m1). assert (Hm : m2 !! bs "/data/magiskinit" = Some (File mi)) by (by apply copy_tree_self).
  assert (Hfin : ∀ m, beside_data m2 m → Q tt (put_files m w)).
  { intros m [Ha Hb]. apply HQ; [|by rewrite Hb]. intros k Hk Hk'.
    rewrite Ha by done. unfold m2. rewrite copy_below, H1; done. }
  apply wp_bind, wp_tried; intros _; (apply wp_tried; intros _; apply Hfin); cbn [files put_files];
    try (by apply copy_beside); [eapply beside_trans; by apply copy_beside|by split].
Qed.

(** *** The hijack of switch root *)

Definition dir_or_free (m : gmap bytes Obj) (p : bytes) : Prop := m !! p = None ∨ m !! p = Some Dir_.

(** Where the link is made, before and after [SwitchRoot]. *)
Definition storage (force : bool) : bytes := if force then bs "/first_stage_ramdisk/storage/self" else bs "/storage/self".

Definition add_dirs (m : gmap bytes Obj) (ps : list bytes) : gmap bytes Obj :=
  foldl (λ m q, match m !! q with None => <[q := Dir_]> m | Some _ => m end) m ps.

Lemma add_dirs_keep m ps p o : m !! p = Some o → add_dirs m ps !! p = Some o.
Proof.
  revert m. induction ps as [|q ps IH]; intros m Hm; [done|]. apply IH. destruct (m !! q) eqn:Hq; [done|].
  rewrite lookup_insert_ne; [done|]. by intros ->; rewrite Hm in Hq.
Qed.

Lemma add_dirs_new m ps p : p ∈ ps → dir_or_free m p → add_dirs m ps !! p = Some Dir_.
Proof.
  revert m. induction ps as [|q ps IH]; intros m Hp Hd; [by apply not_elem_of_nil in Hp|].
  change (add_dirs m (q :: ps)) with (add_dirs (match m !! q with None => <[q := Dir_]> m | Some _ => m end) ps).
  destruct (decide (p = q)) as [->|Hne].
  - apply add_dirs_keep. destruct Hd as [H|H]; rewrite H; [by rewrite lookup_insert_eq|done].
  - apply IH; [by apply elem_of_cons in Hp as [?|?]|]. unfold dir_or_free.
    destruct (m !! q) eqn:Hq; [exact Hd|]. by rewrite lookup_insert_ne.
Qed.

(** Nothing stands where the directories and the link are to be made. *)
Definition way_clear (force : bool) (m : gmap bytes Obj) : Prop :=
  Forall (dir_or_free m) (dir_prefixes [] (components (storage force))) ∧ m !! (storage force ++ bs "/primary") = None.

Lemma forallb_dir_or_free m ps : Forall (dir_or_free m) ps → forallb (λ q, negb (is_file (m !! q))) ps = true.
Proof. induction 1 as [|p ps [H|H] _ IH]; [done|..]; cbn [forallb]; by rewrite H, IH. Qed.

Lemma add_dirs_other m ps k : k ∉ ps → add_dirs m ps !! k = m !! k.
Proof. intros Hk. apply (same_on_elem [k]); [|by left]. apply same_on_dirs. apply Forall_forall. set_solver. Qed.

Lemma has_parent_storage force m : m !! storage force = Some Dir_ → has_parent (storage force ++ bs "/primary") m = true.
Proof.
  intros Hm. unfold has_parent. assert (Cstr.Path.parent_dir (storage force ++ bs "/primary") = Some (storage force)) as ->
    by (by destruct force). by rewrite Hm, orb_true_r.
Qed.

Definition hijacked (mi : bytes) (force : bool) (m m' : gmap bytes Obj) : Prop :=
  m' !! bs "/sdcard" = Some (File mi) ∧ m' !! bs "/init" = None ∧
  m' !! (storage force ++ bs "/primary") = Some (Link (bs "/system/system/bin/init")) ∧
  same_on [BACKUP; bs "/.backup/init.xz"; bs "/data/magiskinit"] m m'.

(** The directories of [storage], and the link in them. *)
Definition with_storage (force : bool) (m : gmap bytes Obj) : gmap bytes Obj :=
  add_dirs m (dir_prefixes [] (components (storage force))).
Definition with_link (force : bool) (m : gmap bytes Obj) : gmap bytes Obj :=
  <[storage force ++ bs "/primary" := Link (bs "/system/system/bin/init")]> (with_storage force m).

Lemma link_possible force m : way_clear force m →
  bool_decide (with_storage force m !! (storage force ++ bs "/primary") = None) &&
  has_parent (storage force ++ bs "/primary") (with_storage force m) = true.
Proof.
  intros [Hdirs Hlink]. rewrite bool_decide_true, has_parent_storage; [done|..].
  - apply add_dirs_new; [by destruct force; by_compute|]. rewrite Forall_forall in Hdirs. apply Hdirs. by destruct force; by_compute.
  - unfold with_storage. rewrite add_dirs_other; [done|]. by destruct force; by_compute.
Qed.

Lemma with_link_other force m k : k ∉ dir_prefixes [] (components (storage force)) → k ≠ storage force ++ bs "/primary" →
  with_link force m !! k = m !! k.
Proof. intros Hk Hp. unfold with_link. rewrite lookup_insert_ne by done. by apply add_dirs_other. Qed.

(** The rename and the mount. *)
Lemma wp_take_sdcard mi force (Q : unit → World → Prop) (E : World → Prop) w m :
  m !! bs "/init" = Some (File mi) → m !! bs "/sdcard" = None →
  m !! (storage force ++ bs "/primary") = Some (Link (bs "/system/system/bin/init")) →
  same_on [BACKUP; bs "/.backup/init.xz"; bs "/data/magiskinit"] (files w) m →
  (∀ m, hijacked mi force (files w) m → Q tt (mkWorld (self w) m (binds w ++ [(bs "/sdcard", bs "/sdcard")]))) →
  wp (_ ← ok_ (rename_to env (bs "/init") (bs "/sdcard"));
      bound ← is_ok_ (bind_mount_to env (bs "/sdcard") (bs "/sdcard"));
      if bound : bool then mret tt else ok_ (bind_mount_to env (bs "/data/magiskinit") (bs "/sdcard"))) Q E (put_files m w).
Proof.
  intros Hi Hs Hl Hsame HQ. apply wp_bind, wp_tried; cbn [files put_files self binds];
    rewrite Hi, Hs; [intros _|by intros].
  apply wp_bind, wp_is_ok, wp_do_ok; [done|]. apply wp_ret. apply HQ. cbn [files put_files]. split_and!.
  - by rewrite lookup_insert_eq.
  - by rewrite lookup_insert_ne, lookup_delete_eq.
  - rewrite lookup_insert_ne by (by destruct force). rewrite lookup_delete_ne by (by destruct force). done.
  - eapply same_on_trans; [exact Hsame|]. repeat constructor; by rewrite lookup_insert_ne, lookup_delete_ne by done.
Qed.

Lemma wp_hijack mi (Q : unit → World → Prop) (E : World → Prop) w :
  let force := force_normal_boot (config (self w)) in
  files w !! bs "/init" = Some (File mi) → files w !! bs "/sdcard" = None → way_clear force (files w) →
  (∀ m, hijacked mi force (files w) m → Q tt (mkWorld (self w) m (binds w ++ [(bs "/sdcard", bs "/sdcard")]))) →
  wp (hijack_init_with_switch_root env) Q E w.
Proof.
  intros force Hi Hs Hway HQ. unfold hijack_init_with_switch_root. apply wp_bind, wp_read. fold force.
  assert (Hfin : ∀ m, (∀ k, k ≠ bs "/first_stage_ramdisk/sdcard" → m !! k = with_link force (files w) !! k) →
    wp (_ ← ok_ (rename_to env (bs "/init") (bs "/sdcard"));
        bound ← is_ok_ (bind_mount_to env (bs "/sdcard") (bs "/sdcard"));
        if bound : bool then mret tt else ok_ (bind_mount_to env (bs "/data/magiskinit") (bs "/sdcard"))) Q E (put_files m w)).
  { intros m Hm. apply (wp_take_sdcard mi force); [..|exact HQ].
    - rewrite Hm, with_link_other; [done|by destruct force; by_compute|by destruct force|done].
    - rewrite Hm, with_link_other; [done|by destruct force; by_compute|by destruct force|done].
    - rewrite Hm by (by destruct force). unfold with_link. by rewrite lookup_insert_eq.
    - repeat constructor; (rewrite Hm, with_link_other; [done|by destruct force; by_compute|by destruct force|done]). }
  pose proof (forallb_dir_or_free _ _ (proj1 Hway)) as Hdirs. pose proof (link_possible force (files w) Hway) as Hlink.
  generalize dependent force. intros force. destruct force; intros.
  all: apply wp_bind, wp_bind, wp_tried; [intros _|change (components _) with (components (storage true)) || change (components _) with (components (storage false)); by rewrite Hdirs].
  - apply wp_bind, wp_tried; cbn [files put_files]; [intros _|intros Hc; discriminate (eq_trans (eq_sym Hlink) Hc)].
    apply wp_tried; intros _; apply Hfin; cbn [files put_files]; [|done].
    intros k Hk. destruct (_ !! bs "/first_stage_ramdisk/sdcard"); [done|]. by rewrite lookup_insert_ne.
  - apply wp_tried; cbn [files put_files]; [intros _|intros Hc; discriminate (eq_trans (eq_sym Hlink) Hc)]. by apply Hfin.
Qed.

(** *** The original init *)

Lemma wp_restore (unxz : bytes → bytes) (Q : unit → World → Prop) (E : World → Prop) w : files w !! bs "/init" = None →
  orig_init unxz (files w) ≠ Some Dir_ →
  (∀ m, m !! bs "/init" = Some (default (Link (bs "/system/bin/init")) (orig_init unxz (files w))) →
    (∀ k, k ∉ [bs "/init"; BACKUP; bs "/.backup/init.xz"] → m !! k = files w !! k) → Q tt (put_files m w)) →
  wp (restore_ramdisk_init env unxz) Q E w.
Proof.
  intros Hi Hb HQ. unfold restore_ramdisk_init.
  apply wp_bind, wp_tried; rewrite Hi; [done|intros _].
  unfold backup_init. apply wp_bind, wp_bind, wp_cpp, wp_ret. apply wp_bind. unfold exists_. apply wp_read.
  change (with_files (unpack unxz) w) with (put_files (unpack unxz (files w)) w). set (m := unpack unxz (files w)).
  cbn [files put_files].
  assert (Ho : m !! BACKUP = orig_init unxz (files w)).
  { unfold m, unpack, orig_init. destruct (files w !! bs "/.backup/init.xz") as [[d|l|]|]; try done. by rewrite lookup_insert_eq. }
  assert (Hother : ∀ k, k ∉ [BACKUP; bs "/.backup/init.xz"] → m !! k = files w !! k).
  { intros k Hk. rewrite !not_elem_of_cons in Hk. unfold m, unpack.
    destruct (files w !! bs "/.backup/init.xz") as [[d|l|]|]; try done. rewrite lookup_insert_ne, lookup_delete_ne by naive_solver. done. }
  assert (Hi' : m !! bs "/init" = None) by (rewrite Hother; [done|by_compute]).
  rewrite Ho.
  destruct (orig_init unxz (files w)) as [o|] eqn:Eo.
  - rewrite bool_decide_true by (by eexists). apply wp_tried; cbn [files put_files]; rewrite Ho, Hi'.
    + intros _. apply (HQ (<[bs "/init" := o]> (delete BACKUP m))).
      * by rewrite lookup_insert_eq.
      * intros k Hk. rewrite !not_elem_of_cons in Hk. rewrite lookup_insert_ne, lookup_delete_ne by naive_solver.
        apply Hother. rewrite !not_elem_of_cons. naive_solver.
    + intros Hc. exfalso. destruct o; [done..|by apply Hb].
  - rewrite bool_decide_false by (by intros []). apply wp_tried; cbn [files put_files].
    + intros _. apply (HQ (<[bs "/init" := Link (bs "/system/bin/init")]> m)).
      * by rewrite lookup_insert_eq.
      * intros k Hk. rewrite !not_elem_of_cons in Hk. rewrite lookup_insert_ne by naive_solver.
        apply Hother. rewrite !not_elem_of_cons. naive_solver.
    + by rewrite Hi'.
Qed.
End First.

Lemma link_elsewhere force : storage force ++ bs "/primary" ∉ [bs "/init"; BACKUP; bs "/.backup/init.xz"].
Proof. destruct force; by_compute. Qed.

(** The first stage hands over: when the calls succeed, nothing but magiskinit is /init,
    /data can be a mount point and nothing is in the way of the link, the device gets its
    own init back as /init (the backup, unpacked if it is compressed, or a link to the one
    of the system), and magiskinit is kept at /data/magiskinit and is bind-mounted at
    /sdcard, behind which the link leads [SwitchRoot] to put it over the init of the second
    stage. *)
Theorem first_stage_hands_over env mut_u8_patch unxz w h mi :
  let force := force_normal_boot (config (self w)) in
  all_succeed env → files w !! bs "/init" = Some (File mi) → data_root (files w) →
  files w !! bs "/sdcard" = None → files w !! bs "/first_stage_ramdisk/sdcard" = None →
  way_clear force (files w) → orig_init unxz (files w) ≠ Some Dir_ →
  let r := first_stage env mut_u8_patch unxz w h in
  result r = Ok tt ∧
  files (state r) !! bs "/init" = Some (default (Link (bs "/system/bin/init")) (orig_init unxz (files w))) ∧
  files (state r) !! bs "/sdcard" = Some (File mi) ∧ files (state r) !! bs "/data/magiskinit" = Some (File mi) ∧
  files (state r) !! (storage force ++ bs "/primary") = Some (Link (bs "/system/system/bin/init")) ∧
  binds (state r) = binds w ++ [(bs "/sdcard", bs "/sdcard")].
Proof.
  intros force Hok Hi Hd Hs Hs1 Hway Hb r.
  assert (Hwp : wp (first_stage env mut_u8_patch unxz) (λ _ w',
    files w' !! bs "/init" = Some (default (Link (bs "/system/bin/init")) (orig_init unxz (files w))) ∧
    files w' !! bs "/sdcard" = Some (File mi) ∧ files w' !! bs "/data/magiskinit" = Some (File mi) ∧
    files w' !! (storage force ++ bs "/primary") = Some (Link (bs "/system/system/bin/init")) ∧
    binds w' = binds w ++ [(bs "/sdcard", bs "/sdcard")]) (λ _, False) w).
  { unfold first_stage. apply wp_bind, (wp_prepare_data env Hok mi); [done..|]. intros m Hm Hmi.
    assert (Hk : ∀ k, k ≠ bs "/data" → starts_with (bs "/data/") k = false → m !! k = files w !! k) by done.
    apply wp_bind, wp_read. cbn [files put_files]. rewrite (Hk (bs "/sdcard")), Hs by done.
    rewrite bool_decide_false by (by intros []). apply wp_bind, wp_read. cbn [files put_files].
    rewrite (Hk (bs "/first_stage_ramdisk/sdcard")), Hs1 by done. rewrite bool_decide_false by (by intros []). cbn [negb andb].
    assert (Hway' : way_clear force m).
    { destruct Hway as [Hdirs Hlink]. split; [|rewrite Hk; [done|by destruct force..]].
      apply Forall_forall. intros p Hp. rewrite Forall_forall in Hdirs. specialize (Hdirs p Hp).
      unfold dir_or_free. rewrite Hk; [done|by intros ->; destruct force; vm_compute in Hp; set_solver|].
      clear - Hp. revert p Hp. apply Forall_forall. by destruct force; by_compute. }
    assert (Horig : orig_init unxz m = orig_init unxz (files w)).
    { unfold orig_init. by rewrite (Hk (bs "/.backup/init.xz")), (Hk BACKUP) by done. }
    apply wp_bind, (wp_hijack env Hok mi); cbn [files self put_files binds]; [by rewrite Hk|by rewrite Hk|done|].
    intros m2 (H1 & H2 & H3 & H4).
    assert (Horig2 : orig_init unxz m2 = orig_init unxz (files w)).
    { rewrite <- Horig. unfold orig_init.
      by rewrite (same_on_elem _ _ _ (bs "/.backup/init.xz") H4), (same_on_elem _ _ _ BACKUP H4) by by_compute. }
    apply (wp_restore env Hok unxz); cbn [files].
    - done.
    - by rewrite Horig2.
    - intros m3 Hm3 Hk3. rewrite Horig2 in Hm3. cbn [files put_files binds].
      rewrite (Hk3 (bs "/sdcard")), (Hk3 (bs "/data/magiskinit")), (Hk3 (storage force ++ _)) by (by_compute || apply link_elsewhere).
      split_and!; [done|done|by rewrite (same_on_elem _ _ _ (bs "/data/magiskinit") H4); [|by_compute]|done|done]. }
  pose proof (wp_run _ _ _ w h Hwp) as Hr. fold r in Hr. destruct (result r) as [[]|e| |] eqn:Er; try done.
Qed.

(** A ramdisk of a two-stage device, with a compressed backup. *)
Definition ramdisk : gmap bytes Obj :=
  list_to_map [(bs "/init", File (bs "magiskinit")); (bs "/.backup", Dir_); (bs "/.backup/init.xz", File (bs "packed"))].

Lemma first_stage_hands_over_witness :
  let w := mkWorld (mkInit [] [] [bs "/init"] (mkConfig false true false false [] [] [] [] [] [] []) []) ramdisk [] in
  let r := first_stage (λ _ _, true) (λ d _ _, (d, [])) (λ _, bs "init") w [] in
  files (state r) !! bs "/init" = Some (File (bs "init")) ∧ files (state r) !! bs "/sdcard" = Some (File (bs "magiskinit")).
Proof.
  intros w r.
  destruct (first_stage_hands_over (λ _ _, true) (λ d _ _, (d, [])) (λ _, bs "init") w [] (bs "magiskinit"))
    as (_ & H1 & H2 & _).
  - done.
  - by_compute.
  - left. by_compute.
  - by_compute.
  - by_compute.
  - split; [|by_compute]. repeat constructor; left; by_compute.
  - vm_compute. discriminate.
  - fold r in H1, H2. rewrite H1, H2. split; vm_compute; reflexivity.
Defined.
