(* ===== verification/Overlay.v ===== *)
(** Overlay: the files magiskinit lays over the root directory, [native/src/init/rootdir.rs],
    and the calls [Hijack] shares with it.

    The state is the [MagiskInit] struct and the bind mounts that were made.  What the
    calls answer (the entry is there, the call succeeds, the context and the contents of
    a file) is up to an [Oracle] that sees the calls before, so that the answers may change
    while other processes run. *)

From S2P Require Import Prelude Text Files Io Sys Init.
From S2P Require Dir Statement ModuleTree.

(** ** Calls and state *)

Inductive SeOp :=
  | OpenDir (p : bytes)
  | ReadDir (p : bytes)
  | Exists (p : bytes)
  | CloneAttr (from to : bytes)
  | GetCon (p : bytes)
  | SetCon (p con : bytes)
  | Bind (from to : bytes)
  | Umount (p : bytes)
  | Make (p : bytes)
  | OpenRead (p : bytes)
  | OpenWrite (p : bytes)
  | Close (p : bytes)
  | ReadAll (p : bytes)
  | Write (p d : bytes)
  | MakeDir (p : bytes)
  | MakeFifo (p : bytes)
  | Copy (from to : bytes)
  | SetEnv (var val : bytes)
  | Remount (p data : bytes)
  | MountFs (src target fs : bytes)
  | Delete (p : bytes)
  | Stat (p : bytes)
  | MapFile (p : bytes)
  | Fork
  | Sleep
  | LoadFrom (p : bytes)
  | ToFile (p : bytes) (sepol : Statement.SePolicy).

Record Oracle := mkOracle {
  succeeds : Env SeOp;
  con_of : list SeOp → bytes → bytes;
  content : list SeOp → bytes → bytes;
  size_of : list SeOp → bytes → Z
}.

(** [listed] is the string the overlay is recorded in. *)
Record Here := mkHere { self : MagiskInit; bound : list (bytes * bytes); listed : bytes }.
Abbreviation S := (Sys Here SeOp).

Definition with_init (f : MagiskInit → MagiskInit) (w : Here) : Here := mkHere (f (self w)) (bound w) (listed w).
Definition with_listed (f : bytes → bytes) (w : Here) : Here := mkHere (self w) (bound w) (f (listed w)).
Definition set_preinit (d : bytes) (m : MagiskInit) : MagiskInit :=
  mkInit d (mount_list m) (argv m) (config m) (overlay_con m).
Definition set_mounts (l : list bytes) (m : MagiskInit) : MagiskInit :=
  mkInit (preinit_dev m) l (argv m) (config m) (overlay_con m).
(** [OverlayAttr]: a path and its context. *)
Definition push_con (p con : bytes) (m : MagiskInit) : MagiskInit :=
  mkInit (preinit_dev m) (mount_list m) (argv m) (config m) (overlay_con m ++ [(p, con)]).

(** ** [consts.rs] *)

Definition ROOTOVL : bytes := bs ".magisk/rootdir".
Definition ROOTMNT : bytes := bs ".magisk/rootdir/.mount_list".
Definition SELINUXMOCK : bytes := bs ".magisk/selinux".
Definition PREINITMIRR : bytes := bs ".magisk/preinit".
Definition MAGISK_PROC_CON : bytes := bs "u:r:magisk:s0".

(** ** The fragment of init.rc *)

Definition lines_of (l : list bytes) : bytes := flat_map (λ s, s ++ [LF]) l.

(** A trigger with the command it runs. *)
Definition rc_action (trigger action tmp_dir : bytes) : list bytes :=
  [[]; bs "on " ++ trigger;
   bs "    exec " ++ MAGISK_PROC_CON ++ bs " 0 0 -- " ++ tmp_dir ++ bs "/magisk " ++ action].

Definition magisk_rc (tmp_dir : bytes) : bytes :=
  lines_of
    (rc_action (bs "post-fs-data") (bs "--post-fs-data") tmp_dir ++
     rc_action (bs "property:vold.decrypt=trigger_restart_framework") (bs "--service") tmp_dir ++
     rc_action (bs "nonencrypted") (bs "--service") tmp_dir ++
     rc_action (bs "property:sys.boot_completed=1") (bs "--boot-complete") tmp_dir).

(** Written at the end of the file, which stays open. *)
Definition inject_magisk_rc (file tmp_dir : bytes) : bytes := file ++ magisk_rc tmp_dir.

Section Calls.
Context (o : Oracle).
Abbreviation env := (succeeds o).

Definition exists_ (p : bytes) : S bool := test env (Exists p).

(** A call that answers with a value. *)
Definition get {A} (c : SeOp) (f : list SeOp → A) : S A := λ w h,
  if env h c then (w, h ++ [c], Ok (f h)) else (w, h ++ [c], Err tt).
Definition get_secontext (p : bytes) : S bytes := get (GetCon p) (λ h, con_of o h p).
(** Opens and reads to the end. *)
Definition read_file (p : bytes) : S bytes :=
  _ ← ask env (OpenRead p); get (ReadAll p) (λ h, content o h p).

Definition bind_mount_to (from to : bytes) : S unit :=
  do_ env (Bind from to) (λ w, mkHere (self w) (bound w ++ [(from, to)]) (listed w)) (λ w, w).

(** ** [parse_config_file] *)

Definition preinit_prop (dev key val : bytes) : bytes * bool :=
  if bool_decide (key = bs "PREINITDEVICE") then (val, false) else (dev, true).

Definition parse_config_file : S unit :=
  data ← try_ (get (OpenRead (bs "/data/.backup/.magisk")) (λ h, content o h (bs "/data/.backup/.magisk")));
  match data with
  | Some data => modify (with_init (λ m, set_preinit (for_each_prop preinit_prop (preinit_dev m) data) m))
  | None => mret tt
  end.

(** ** Laying the overlay *)

(** [Utf8CString]s grow, so that no path is cut. *)
Definition join (dir name : bytes) : bytes := ModuleTree.append_path (ModuleTree.append_path [] dir) name.

(** One entry; [rec] is the walk of a directory. *)
Definition mount_entry (rec : bytes → bytes → S unit) (src_dir dest_dir : bytes) (e : bytes * Dir.Node) : S unit :=
  let src := join src_dir e.1 in
  let dest := join dest_dir e.1 in
  there ← exists_ dest;
  if negb there then mret tt
  else if Dir.is_dir e.2 then rec src dest
  else
    _ ← ask env (CloneAttr dest src);
    con ← get_secontext dest;
    _ ← bind_mount_to src dest;
    _ ← modify (with_init (push_con dest con));
    modify (with_listed (λ l, l ++ dest ++ [LF])).

(** Every entry is read before it is looked at, and the end too. *)
Fixpoint mount_node (n : Dir.Node) (src_dir dest_dir : bytes) : S unit :=
  match n with
  | Dir.Directory _ es =>
      _ ← ask env (OpenDir src_dir);
      (fix go (es : Dir.Entries) : S unit :=
         _ ← ask env (ReadDir src_dir);
         match es with
         | [] => mret tt
         | (name, n) :: es => _ ← mount_entry (mount_node n) src_dir dest_dir (name, n); go es
         end) es
  | _ => _ ← ask env (OpenDir src_dir); throw
  end.

(** [write] puts the string into the file at once, or not. *)
Definition mount_overlay (overlay : Dir.Node) (dest : bytes) : S unit :=
  _ ← modify (with_listed (λ _, []));
  _ ← ok_ (mount_node overlay ROOTOVL dest);
  ok_ (_ ← ask env (Make ROOTMNT);
       w ← read (λ w, w);
       ask env (Write ROOTMNT (listed w))).

Definition restore_overlay_contexts : S unit :=
  w ← read (λ w, w);
  each (λ '(path, con), ok_ (ask env (SetCon path con))) (overlay_con (self w)).
End Calls.

(** ** What is mounted is what is recorded *)

(** The state after mounts with the contexts found. *)
Definition laid (ms : list (bytes * bytes * bytes)) (w : Here) : Here :=
  mkHere
    (mkInit (preinit_dev (self w)) (mount_list (self w)) (argv (self w)) (config (self w))
       (overlay_con (self w) ++ map (λ m, (m.1.2, m.2)) ms))
    (bound w ++ map fst ms) (listed w ++ lines_of (map (λ m, m.1.2) ms)).

Lemma laid_nil w : laid [] w = w.
Proof. destruct w as [[] b l]. unfold laid. cbn. by rewrite !app_nil_r. Qed.

Lemma laid_app ms ns w : laid ns (laid ms w) = laid (ms ++ ns) w.
Proof. unfold laid, lines_of. cbn. by rewrite !map_app, flat_map_app, !app_assoc. Qed.

Lemma laid_one src dest con w :
  with_listed (λ l, l ++ dest ++ [LF])
    (with_init (push_con dest con) (mkHere (self w) (bound w ++ [(src, dest)]) (listed w))) =
  laid [(src, dest, con)] w.
Proof. unfold laid, lines_of. cbn. by rewrite app_nil_r. Qed.

Section Recorded.
Context (o : Oracle).

Definition extends (w w' : Here) : Prop := ∃ ms, w' = laid ms w.

Lemma extends_refl w : extends w w.
Proof. exists []. by rewrite laid_nil. Qed.

Lemma extends_trans u v w : extends u v → extends v w → extends u w.
Proof. intros [ms ->] [ns ->]. exists (ms ++ ns). by rewrite laid_app. Qed.

(** However it ends, the state has only been extended. *)
Definition only {A} (m : S A) : Prop := ∀ w, wp m (λ _, extends w) (extends w) w.

Lemma only_ret {A} (a : A) : only (mret a).
Proof. intros w. apply wp_ret, extends_refl. Qed.

Lemma only_throw {A} : only (throw (A:=A)).
Proof. intros w. apply wp_throw, extends_refl. Qed.

Lemma only_ask c : only (ask (succeeds o) c).
Proof. intros w. apply wp_ask; intros; apply extends_refl. Qed.

Lemma only_bind {A B} (m : S A) (k : A → S B) : only m → (∀ a, only (k a)) → only (mbind k m).
Proof.
  intros Hm Hk w. apply wp_bind. eapply wp_mono; [apply Hm| |done]. intros a w' Hw.
  eapply wp_mono; [apply Hk|intros b v|intros v]; by eapply extends_trans.
Qed.

Lemma wp_get {A} c (f : list SeOp → A) (Q : A → Here → Prop) (E : Here → Prop) w :
  (∀ a, Q a w) → E w → wp (get o c f) Q E w.
Proof. intros HQ HE h. unfold get. destruct (succeeds o h c); auto. Qed.

Lemma mount_entry_only rec src_dir dest_dir e :
  (∀ s d, only (rec s d)) → only (mount_entry o rec src_dir dest_dir e).
Proof.
  intros Hrec w. unfold mount_entry, exists_, get_secontext, bind_mount_to. wp_step. wp_step.
  destruct b; cbn [negb]; [|apply wp_ret, extends_refl].
  destruct (Dir.is_dir e.2); [apply Hrec|].
  repeat first [wp_step | apply wp_get; [intros con|]]; try apply extends_refl.
  eexists. apply laid_one.
Qed.

Lemma mount_node_only n : ∀ src dest, only (mount_node o n src dest).
Proof.
  induction n as [a es IH|i|a t|a k] using Dir.node_ind_all; intros src dest; cbn [mount_node];
    (apply only_bind; [apply only_ask|intros _]); try apply only_throw.
  induction IH as [|[x n] es Hn _ IHes]; (apply only_bind; [apply only_ask|intros _]);
    [apply only_ret|].
  apply only_bind; [by apply mount_entry_only|intros _]. apply IHes.
Qed.

(** What was recorded before the walk is forgotten: its text, not its mounts. *)
Definition forget (w : Here) : Here := with_listed (λ _, []) w.

Lemma mount_overlay_wp overlay dest w :
  wp (mount_overlay o overlay dest) (λ _, extends (forget w)) (λ _, False) w.
Proof.
  unfold mount_overlay. wp_step. wp_step. wp_step. wp_step.
  eapply wp_mono; [apply mount_node_only|..].
  - intros [] w' Hw. by repeat wp_step.
  - intros w' Hw. by repeat wp_step.
Qed.

(** Whatever fails and whatever other processes do, laying the overlay ends well; each bind
    mount it made has its target in the text, on a line of its own, and a context to restore,
    in the order of the mounts, and nothing else is there. *)
Theorem overlay_recorded overlay dest w h :
  let '(w', _, r) := mount_overlay o overlay dest w h in
  r = Ok tt ∧ ∃ ms, w' = laid ms (forget w) ∧ listed w' = lines_of (map (λ m, m.1.2) ms).
Proof.
  pose proof (wp_run _ _ _ w h (mount_overlay_wp overlay dest w)) as Hrun.
  destruct (mount_overlay o overlay dest w h) as [[w' h'] r]. unfold result, state in Hrun. cbn in Hrun.
  destruct r as [[]|e| |]; try done. split; [done|]. destruct Hrun as [ms ->]. by exists ms.
Qed.
End Recorded.

(** ** Everything that can be mounted is *)

(** The paths of the entries that are not directories, as names from the top. *)
Fixpoint leaf_paths (n : Dir.Node) : list (list bytes) :=
  match n with
  | Dir.Directory _ es =>
      (fix go (es : Dir.Entries) : list (list bytes) :=
         match es with
         | [] => []
         | (name, n) :: es => (if Dir.is_dir n then map (cons name) (leaf_paths n) else [[name]]) ++ go es
         end) es
  | _ => []
  end.

(** The entry itself and every directory it is in are in the destination. *)
Fixpoint shadows (there : bytes → bool) (dest : bytes) (p : list bytes) : bool :=
  match p with [] => true | x :: p => there (join dest x) && shadows there (join dest x) p end.

(** The mounts: the leaves with a counterpart, with the contexts of these. *)
Definition overlay_mounts (there : bytes → bool) (con : bytes → bytes) (n : Dir.Node) (src dest : bytes) :
    list (bytes * bytes * bytes) :=
  map (λ p, (foldl join src p, foldl join dest p, con (foldl join dest p)))
    (List.filter (shadows there dest) (leaf_paths n)).

Section Complete.
Context (there : bytes → bool) (con : bytes → bytes).

(** The environment: every call succeeds, and what is in the destination does not change. *)
Definition settled (o : Oracle) : Prop :=
  (∀ h c, succeeds o h c = match c with Exists p => there p | _ => true end) ∧
  ∀ h p, con_of o h p = con p.

Lemma overlay_mounts_go a es src dest :
  overlay_mounts there con (Dir.Directory a es) src dest =
  flat_map (λ e,
    if there (join dest e.1) then
      if Dir.is_dir e.2 then overlay_mounts there con e.2 (join src e.1) (join dest e.1)
      else [(join src e.1, join dest e.1, con (join dest e.1))]
    else []) es.
Proof.
  unfold overlay_mounts. cbn [leaf_paths]. induction es as [|[x n] es IH]; [done|]. cbn [flat_map fst snd].
  rewrite List.filter_app, map_app, IH. f_equal. clear IH.
  assert (∀ l, map (λ p, (foldl join src p, foldl join dest p, con (foldl join dest p)))
      (List.filter (shadows there dest) (map (cons x) l)) =
    if there (join dest x) then
      map (λ p, (foldl join (join src x) p, foldl join (join dest x) p, con (foldl join (join dest x) p)))
        (List.filter (shadows there (join dest x)) l) else []) as Hcons.
  { induction l as [|p l IH]; [by destruct (there _)|]. cbn [map List.filter shadows].
    destruct (there (join dest x)); cbn [andb] in *; [|exact IH].
    destruct (shadows there (join dest x) p); cbn [map foldl]; by rewrite IH. }
  destruct (Dir.is_dir n); [apply Hcons|].
  change [[x]] with (map (cons x) [[]]). rewrite Hcons. by destruct (there _).
Qed.

Lemma gives_get o {A} c (f : list SeOp → A) a :
  (∀ h, succeeds o h c = true) → (∀ h, f h = a) → gives (get o c f) a (λ w, w).
Proof. intros Hc Hf w h. exists [c]. unfold get. by rewrite Hc, Hf. Qed.

Lemma gives_exists o p : settled o → gives (exists_ o p) (there p) (λ w, w).
Proof. intros [Ho _]. apply gives_test. intros h. apply Ho. Qed.

Lemma gives_ask o c : settled o → (∀ p, c ≠ Exists p) → gives (ask (succeeds o) c) tt (λ w : Here, w).
Proof. intros [Ho _] Hc. apply gives_do. intros h. rewrite Ho. destruct c; naive_solver. Qed.

Lemma mount_node_gives o n : settled o → Dir.is_dir n = true → ∀ src dest,
  gives (mount_node o n src dest) tt (laid (overlay_mounts there con n src dest)).
Proof.
  intros Ho. induction n as [a es IH|i|a t|a k] using Dir.node_ind_all; try done.
  intros _ src dest. rewrite overlay_mounts_go. cbn [mount_node].
  apply (gives_bind _ _ tt _ (λ w, w)); [by apply gives_ask|].
  induction IH as [|[x n] es Hn _ IHes].
  - eapply gives_eq; [eapply gives_bind; [by apply gives_ask|apply gives_ret]|].
    intros w. by rewrite laid_nil.
  - apply (gives_bind _ _ tt _ (λ w, w)); [by apply gives_ask|]. cbn [flat_map fst snd].
    eapply gives_eq; [eapply gives_bind; [|apply IHes]|intros w; apply laid_app].
    unfold mount_entry. cbn [fst snd].
    apply (gives_bind _ _ (there (join dest x)) _ (λ w, w)); [by apply gives_exists|].
    destruct (there (join dest x)); cbn [negb];
      [|eapply gives_eq; [apply gives_ret|]; intros w; by rewrite laid_nil].
    destruct (Dir.is_dir n) eqn:Hd; [by apply Hn|].
    eapply gives_eq.
    { eapply gives_bind; [by apply gives_ask|].
      eapply gives_bind; [apply gives_get; [intros h; apply Ho|intros h; apply Ho]|].
      eapply gives_bind; [apply gives_do; intros h; apply Ho|].
      eapply gives_bind; apply gives_modify. }
    intros w. cbn. apply laid_one.
Qed.

(** The last call of a run that succeeds. *)
Lemma restore_calls o w h :
  restore_overlay_contexts o w h =
  (w, h ++ map (λ '(p, c), SetCon p c) (overlay_con (self w)), Ok tt).
Proof.
  unfold restore_overlay_contexts. unfold mbind, sys_bind at 1. cbn [read].
  generalize (overlay_con (self w)) as l. intros l. revert h.
  induction l as [|[p c] l IH]; intros h; cbn [each map]; [by rewrite app_nil_r|].
  unfold mbind, sys_bind, ok_, ask, do_. destruct (succeeds o h _); rewrite IH, <- app_assoc; done.
Qed.

(** If the calls succeed, every entry of the overlay that is not a directory and has a
    counterpart below the destination is mounted there; the record is written last and
    names them all, and the contexts restored later are those the counterparts had. *)
Theorem overlay_laid o overlay dest w h :
  settled o → Dir.is_dir overlay = true → overlay_con (self w) = [] →
  let ms := overlay_mounts there con overlay ROOTOVL dest in
  ∃ w' t, mount_overlay o overlay dest w h = (w', h ++ t, Ok tt) ∧
    bound w' = bound w ++ map fst ms ∧
    last t = Some (Write ROOTMNT (lines_of (map (λ m, m.1.2) ms))) ∧
    ∀ k, restore_overlay_contexts o w' k = (w', k ++ map (λ m, SetCon m.1.2 m.2) ms, Ok tt).
Proof.
  intros Ho Hd Hw ms. destruct (mount_node_gives o overlay Ho Hd ROOTOVL dest (forget w) h) as [t Et].
  exists (laid ms (forget w)), (t ++ [Make ROOTMNT; Write ROOTMNT (lines_of (map (λ m, m.1.2) ms))]).
  split; [|repeat split].
  - unfold mount_overlay, mbind, sys_bind. cbn [modify]. fold (forget w).
    unfold ok_ at 1. rewrite Et. unfold ok_, ask, do_. cbn [read].
    rewrite !(proj1 Ho). cbn. by rewrite <- !app_assoc.
  - by rewrite last_app.
  - intros k. rewrite restore_calls. unfold laid. cbn. rewrite Hw. cbn [app].
    rewrite map_map. done.
Qed.
End Complete.

(** An overlay with a file that replaces one of the system and one that does not. *)
Definition overlay_sample : Dir.Node :=
  let a := Dir.mkAttr 0x1ed 0 0 (bs "rootfs") in
  Dir.Directory a
    [(bs "init.rc", Dir.Regular 1); (bs "etc", Dir.Directory a [(bs "new", Dir.Regular 2); (bs "hosts", Dir.Symlink a (bs "x"))])].
Definition settled_oracle : Oracle :=
  mkOracle (λ _ c, match c with Exists p => negb (bool_decide (p = bs "/etc/new")) | _ => true end)
    (λ _ p, bs "con:" ++ p) (λ _ _, []) (λ _ _, 0).
Definition here0 : Here := mkHere (initial []) [] [].

Lemma overlay_laid_witness :
  let ms := [(bs ".magisk/rootdir/init.rc", bs "/init.rc", bs "con:/init.rc");
             (bs ".magisk/rootdir/etc/hosts", bs "/etc/hosts", bs "con:/etc/hosts")] in
  ∃ w' t, mount_overlay settled_oracle overlay_sample (bs "/") here0 [] = (w', t, Ok tt) ∧
    bound w' = map fst ms ∧
    last t = Some (Write ROOTMNT (lines_of [bs "/init.rc"; bs "/etc/hosts"])) ∧
    ∀ k, restore_overlay_contexts settled_oracle w' k = (w', k ++ map (λ m, SetCon m.1.2 m.2) ms, Ok tt).
Proof.
  exact (overlay_laid (λ p, negb (bool_decide (p = bs "/etc/new"))) (λ p, bs "con:" ++ p)
    settled_oracle overlay_sample (bs "/") here0 [] (conj (λ _ _, eq_refl) (λ _ _, eq_refl)) eq_refl eq_refl).
Defined.
