(* ===== verification/Entry.v ===== *)
(** Entry: the start of the daemon, [daemon_entry] of [native/src/core/daemon.rs].

    The state is what the start leaves behind: the mounts, the contexts of files, the
    daemon's own record and the switches of the environment.  The answers of calls are the
    environment's; what files, properties and the temporary directory hold are parameters.
    Accepting clients goes on for as long as the environment has clients, unless one of them
    stops the daemon. *)

From S2P Require Import Prelude Text Cstr Io Sys Restorecon.
From S2P Require Dir Overlay Daemon.

(** What the daemon is started with, and the part of [MagiskD] that is set here. *)
Record Started := mkStarted { sdk_int : Z; is_emulator : bool; is_recovery : bool; exe_attr : Dir.Attr }.

Inductive EntryOp :=
  | SetNiceName (name : bytes)
  | AndroidLogging
  | BlockSignals
  | OpenFile (p : bytes)
  | Dup (p : bytes) (fd : Z)
  | Setsid
  | WriteTo (p d : bytes)
  | StartLogDaemon
  | MagiskLogging
  | Info (msg : bytes)
  | GetProp (key : bytes)
  | SetProp (key val : bytes)
  | Con (c : ConOp)
  | Exists (p : bytes)
  | Umount (p : bytes)
  | RemountReadOnly (p : bytes)
  | RemoveVar (var : bytes)
  | RemoveAll (p : bytes)
  | GetAttr (p : bytes)
  | Publish (d : Started)
  | Remove (p : bytes)
  | BindSocket (p : bytes)
  | Accept
  | Serve (c : Daemon.Client)
  | Exit (code : Z).

Record Here := mkHere {
  mounted : list bytes;
  contexts : Contexts;
  magiskd : option Started;
  vars : list bytes
}.
Abbreviation S := (Sys Here EntryOp).

Definition with_contexts (c : Contexts) (w : Here) : Here := mkHere (mounted w) c (magiskd w) (vars w).
(** [OnceLock::set]: the first value stays. *)
Definition set_daemon (d : Started) (w : Here) : Here :=
  mkHere (mounted w) (contexts w) (Some (default d (magiskd w))) (vars w).
Definition remove_var (v : bytes) (w : Here) : Here :=
  mkHere (mounted w) (contexts w) (magiskd w) (List.filter (λ x, bool_decide (x ≠ v)) (vars w)).

(** Unmounting takes the mount that was made last on the path. *)
Fixpoint remove_first (p : bytes) (l : list bytes) : list bytes :=
  match l with [] => [] | x :: l => if bool_decide (x = p) then l else x :: remove_first p l end.
Definition umounted (p : bytes) (w : Here) : Here :=
  mkHere (rev (remove_first p (rev (mounted w)))) (contexts w) (magiskd w) (vars w).

(** The string a C function sees. *)
Definition c_str (s : bytes) : bytes := default [] (until_nul (s ++ [NUL])).

Definition MAIN_CONFIG : bytes := bs ".magisk/config".
Definition MAIN_SOCKET : bytes := bs ".magisk/device/socket".
Definition MAGISK_PROC_CON : bytes := bs "u:r:magisk:s0".
Definition MAGISK_FILE_CON : bytes := bs "u:object_r:magisk_file:s0".

(** [{}] of a signed number. *)
Definition fmt_i32 (z : Z) : bytes := if z <? 0 then bs "-" ++ fmt_dec (- z) else fmt_dec z.

(** [str::contains]. *)
Definition contains_str (needle hay : bytes) : bool :=
  existsb (λ k, starts_with needle (drop k hay)) (seq 0 (Datatypes.S (length hay))).

(** The callbacks of the two readers of properties. *)
Definition recovery_prop (is_recovery : bool) (key val : bytes) : bool * bool :=
  if bool_decide (key = bs "RECOVERYMODE") then (bool_decide (val = bs "true"), false) else (is_recovery, true).
Definition parse_sdk (val : bytes) : Z := default (-1) (from_str_radix_i 32 10 val).
Definition sdk_prop (sdk : Z) (key val : bytes) : Z * bool :=
  if bool_decide (key = bs "ro.build.version.sdk") then (parse_sdk val, false) else (sdk, true).

Section Entry.
Context (env : Env EntryOp).
(** The feature [check-client], and what is read. *)
Context (check_client : bool).
Context (file prop : bytes → bytes) (attr : bytes → Dir.Attr) (magisk_tmp magisk_full_ver : bytes) (pid : Z).
Context (tmp_entries : Dir.Entries).

Definition get_prop (key : bytes) : S bytes := λ w h, (w, h ++ [GetProp key], Ok (prop key)).

(** What cannot fail. *)
Definition note (o : EntryOp) (f : Here → Here) : S unit := λ w h, (f w, h ++ [o], Ok tt).

(** A file that can be opened is read. *)
Definition open_read (p : bytes) : S (option bytes) :=
  opened ← is_ok_ (ask env (OpenFile p)); mret (if opened : bool then Some (file p) else None).

(** Clearing the buffer makes room for the number. *)
Definition switch_cgroup (cgroup : bytes) (pid : Z) : S unit :=
  let buf := Buf.append_path (Buf.append_path (Buf.new 64) cgroup) (bs "cgroup.procs") in
  there ← test env (Exists (Buf.as_str buf));
  if negb there then mret tt
  else
    opened ← is_ok_ (ask env (OpenFile (Buf.as_str buf)));
    if opened : bool then
      ok_ (ask env (WriteTo (Buf.as_str buf) (Buf.as_str (Buf.push_str (Buf.clear buf) (fmt_dec pid)).1)))
    else mret tt.

Definition umount (p : bytes) : S unit := do_ env (Umount p) (umounted p) (λ w, w).

(** Standard output and error, then standard input. *)
Definition redirect : S unit :=
  null ← is_ok_ (ask env (OpenFile (bs "/dev/null")));
  _ ← (if null : bool then
         _ ← ok_ (ask env (Dup (bs "/dev/null") 1)); ok_ (ask env (Dup (bs "/dev/null") 2))
       else mret tt);
  zero ← is_ok_ (ask env (OpenFile (bs "/dev/zero")));
  if zero : bool then ok_ (ask env (Dup (bs "/dev/zero") 0)) else mret tt.

Definition own_context : S unit :=
  current ← is_ok_ (ask env (OpenFile (bs "/proc/self/attr/current")));
  if current : bool then ok_ (ask env (WriteTo (bs "/proc/self/attr/current") (MAGISK_PROC_CON ++ [NUL]))) else mret tt.

(** [||] stops at the first test that holds. *)
Definition find_emulator : S bool :=
  kernel ← get_prop (bs "ro.kernel.qemu");
  if bool_decide (kernel = bs "1") then mret true
  else
    boot ← get_prop (bs "ro.boot.qemu");
    if bool_decide (boot = bs "1") then mret true
    else device ← get_prop (bs "ro.product.device"); mret (contains_str (bs "vsoc") device).

Definition find_recovery (tmp_path : Buf.Buf) : S bool :=
  data ← open_read (Buf.as_str tmp_path);
  mret (match data with Some data => for_each_prop recovery_prop false data | None => false end).

Definition find_sdk : S Z :=
  data ← open_read (bs "/system/build.prop");
  let sdk := match data with Some data => for_each_prop sdk_prop (-1) data | None => -1 end in
  if sdk <? 0 then val ← get_prop (bs "ro.build.version.sdk"); mret (parse_sdk val) else mret sdk.

Definition escape_cgroup : S unit :=
  _ ← switch_cgroup (bs "/acct") pid;
  _ ← switch_cgroup (bs "/dev/cg2_bpf") pid;
  _ ← switch_cgroup (bs "/sys/fs/cgroup") pid;
  memcg ← get_prop (bs "ro.config.per_app_memcg");
  if bool_decide (memcg ≠ bs "false") then switch_cgroup (bs "/dev/memcg/apps") pid else mret tt.

Definition mtk_workaround : S unit :=
  there ← test env (Exists (bs "/system_ext/app/mediatek-res/mediatek-res.apk"));
  if there : bool then ok_ (ask env (SetProp (bs "ro.vendor.mtk_model") (bs "0"))) else mret tt.

(** A line is unmounted before the next is read. *)
Definition unmount_listed (data : bytes) : S unit :=
  for_each_line (λ (m : S unit) line, (_ ← m; ok_ (umount (c_str (trim_end line))), true)) (mret tt) data.
Definition cleanup_rootfs (tmp_path : Buf.Buf) : S unit :=
  data ← open_read (Buf.as_str tmp_path);
  match data with Some data => unmount_listed data | None => mret tt end.

Definition remount_root : S unit :=
  w ← read (λ w, w);
  if bool_decide (bs "REMOUNT_ROOT" ∈ vars w) then
    _ ← ok_ (ask env (RemountReadOnly (bs "/")));
    note (RemoveVar (bs "REMOUNT_ROOT")) (remove_var (bs "REMOUNT_ROOT"))
  else mret tt.

(** [unwrap_or_default]. *)
Definition own_attr : S Dir.Attr :=
  opened ← is_ok_ (ask env (GetAttr (bs "/proc/self/exe")));
  mret (if opened : bool then attr (bs "/proc/self/exe") else Dir.mkAttr 0 0 0 []).

(** The process leaves its parent behind. *)
Definition detach : S unit :=
  _ ← note (SetNiceName (bs "magiskd")) (λ w, w);
  _ ← note AndroidLogging (λ w, w);
  _ ← ok_ (ask env BlockSignals);
  _ ← redirect;
  _ ← ok_ (ask env Setsid);
  _ ← own_context;
  _ ← note StartLogDaemon (λ w, w);
  _ ← note MagiskLogging (λ w, w);
  note (Info (bs "Magisk " ++ magisk_full_ver ++ bs " daemon started")) (λ w, w).

(** The device: whether it is an emulator, whether this is recovery mode, the API level. *)
Definition identify (config : Buf.Buf) : S (bool * bool * Z) :=
  emulator ← find_emulator;
  recovery ← find_recovery config;
  sdk ← find_sdk;
  _ ← note (Info (bs "* Device API level: " ++ fmt_i32 sdk)) (λ w, w);
  mret (emulator, recovery, sdk).

Definition settle : S unit :=
  _ ← ok_ (embed contexts with_contexts Con (λ env, restore_tmpcon env magisk_tmp tmp_entries) env);
  _ ← escape_cgroup;
  mtk_workaround.

Definition publish (found : bool * bool * Z) (exe : Dir.Attr) : S unit :=
  let d := mkStarted found.2 found.1.1 found.1.2 exe in note (Publish d) (set_daemon d).

(** The request to stop is answered on the thread that accepts: the process ends. *)
Definition stops (c : Daemon.Client) : bool :=
  match Daemon.handle_requests check_client c with
  | Daemon.Sync code => code =? Daemon.STOP_DAEMON
  | _ => false
  end.

(** [sock.incoming()]: [None] is a connection that could not be accepted. *)
Fixpoint serve_clients (clients : list (option Daemon.Client)) : S unit :=
  match clients with
  | [] => mret tt
  | Some c :: clients =>
      _ ← note Accept (λ w, w);
      _ ← note (Serve c) (λ w, w);
      if stops c then _ ← note (Exit 0) (λ w, w); throw else serve_clients clients
  | None :: _ => _ ← note Accept (λ w, w); _ ← note (Exit 1) (λ w, w); throw
  end.

Definition sock_path : bytes := Buf.as_str (Buf.append_path (Buf.append_path (Buf.new 64) magisk_tmp) MAIN_SOCKET).

Definition open_socket (clients : list (option Daemon.Client)) : S unit :=
  _ ← ok_ (ask env (Remove sock_path));
  bound ← is_ok_ (ask env (BindSocket sock_path));
  if negb bound then _ ← note (Exit 1) (λ w, w); throw
  else
    _ ← ok_ (ask env (Con (ChmodTo sock_path 0x1b6)));
    _ ← ok_ (embed contexts with_contexts Con (λ env, set_secontext env sock_path MAGISK_FILE_CON) env);
    serve_clients clients.

(** One buffer holds the paths below [magisk_tmp], cut back to its length after each. *)
Definition daemon_entry (clients : list (option Daemon.Client)) : S unit :=
  _ ← detach;
  let tmp_path := Buf.append_path (Buf.append_path (Buf.new 64) magisk_tmp) MAIN_CONFIG in
  found ← identify tmp_path;
  let tmp_path := Buf.truncate tmp_path (length magisk_tmp) in
  _ ← settle;
  let tmp_path := Buf.append_path tmp_path Overlay.ROOTMNT in
  _ ← cleanup_rootfs tmp_path;
  let tmp_path := Buf.truncate tmp_path (length magisk_tmp) in
  _ ← remount_root;
  let tmp_path := Buf.append_path tmp_path Overlay.ROOTOVL in
  _ ← ok_ (ask env (RemoveAll (Buf.as_str tmp_path)));
  exe ← own_attr;
  _ ← publish found exe;
  open_socket clients.
End Entry.

(** ** Steps that leave something alone

    [calm m]: [m] ends in a value, makes only calls of [P] and steps from a state to one
    related by [R]; [calm_err m] may also end in an error. *)

Section Calm.
Context (env : Env EntryOp) (P : EntryOp → Prop) (R : Here → Here → Prop) `{!PreOrder R}.

Definition calm_err {A} (m : S A) : Prop := ∀ w h, ∃ w' t r,
  m w h = (w', h ++ t, r) ∧ Forall P t ∧ R w w' ∧ (r = Err tt ∨ ∃ a, r = Ok a).
Definition calm {A} (m : S A) : Prop := ∀ w h, ∃ w' t a,
  m w h = (w', h ++ t, Ok a) ∧ Forall P t ∧ R w w'.

Lemma calm_ret {A} (a : A) : calm (mret a).
Proof. intros w h. exists w, [], a. rewrite app_nil_r. done. Qed.

Lemma calm_read {A} (f : Here → A) : calm (read f).
Proof. intros w h. exists w, [], (f w). by rewrite app_nil_r. Qed.

Lemma calm_bind {A B} (m : S A) (k : A → S B) : calm m → (∀ a, calm (k a)) → calm (mbind k m).
Proof.
  intros Hm Hk w h. destruct (Hm w h) as (w1 & t & a & E & Ht & Hw).
  destruct (Hk a w1 (h ++ t)) as (w2 & u & b & E' & Hu & Hw').
  exists w2, (t ++ u), b. unfold mbind, sys_bind. rewrite E, E', app_assoc.
  split; [done|]. split; [by apply Forall_app|]. by etrans.
Qed.

Lemma calm_note o f : P o → (∀ w, R w (f w)) → calm (note o f).
Proof. intros Ho Hf w h. exists (f w), [o], tt. split; [done|]. split; [auto|done]. Qed.

Lemma calm_test o : P o → calm (test env o).
Proof. intros Ho w h. exists w, [o], (env h o). split; [done|]. split; [auto|done]. Qed.

Lemma calm_prop prop k : P (GetProp k) → calm (get_prop prop k).
Proof. intros Ho w h. exists w, [GetProp k], (prop k). split; [done|]. split; [auto|done]. Qed.

Lemma calm_err_do o ok : P o → (∀ w, R w (ok w)) → calm_err (do_ env o ok (λ w, w)).
Proof.
  intros Ho Hok w h. unfold do_. destruct (env h o); eexists _, [o], _; (split; [done|]); (split; [auto|]).
  - split; [apply Hok|eauto].
  - split; [done|eauto].
Qed.

Lemma calm_err_ask o : P o → calm_err (ask env o).
Proof. intros Ho. by apply calm_err_do. Qed.

Lemma calm_is_ok {A} (m : S A) : calm_err m → calm (is_ok_ m).
Proof.
  intros Hm w h. destruct (Hm w h) as (w' & t & r & E & Ht & Hw & Hr). unfold is_ok_. rewrite E.
  destruct Hr as [->|[a ->]]; eauto 10.
Qed.

Lemma calm_ok {A} (m : S A) : calm_err m → calm (ok_ m).
Proof.
  intros Hm w h. destruct (Hm w h) as (w' & t & r & E & Ht & Hw & Hr). unfold ok_. rewrite E.
  destruct Hr as [->|[a ->]]; eauto 10.
Qed.

Lemma calm_embed {W' Op' A} (get : Here → W') put (inj : Op' → EntryOp) (m : Env Op' → Sys W' Op' A) :
  (∀ c, P (inj c)) → (∀ w w', R w (put w' w)) → (∀ env w, wp (m env) (λ _ _, True) (λ _, True) w) →
  calm_err (embed get put inj m env).
Proof.
  intros Hc Hput Hm w h. unfold embed.
  pose proof (Hm (λ t o, env (h ++ map inj t) (inj o)) (get w) []) as H.
  destruct (m _ (get w) []) as [[w' t] r]. eexists _, (map inj t), r. split; [done|].
  split; [by apply Forall_map, Forall_true|]. split; [done|]. destruct r as [a|[]| |]; try done; eauto.
Qed.
End Calm.

(** Programs that end in a value or an error. *)
Definition ends {A} (m : C A) : Prop := ∀ w, wp m (λ _ _, True) (λ _, True) w.

Lemma ends_ret {A} (a : A) : ends (mret a).
Proof. by intros w h. Qed.

Lemma ends_do env o ok : ends (do_ env o ok (λ m, m)).
Proof. intros w h. unfold do_. by destruct (env h o). Qed.

Lemma ends_bind {A B : Type} (m : C A) (k : A → C B) : ends m → (∀ a, ends (k a)) → ends (mbind k m).
Proof. intros Hm Hk w. apply wp_bind. eapply wp_mono; [apply Hm| |done]. intros a w' _. apply Hk. Qed.

Lemma ends_ok {A} (m : C A) : ends m → ends (ok_ m).
Proof. intros Hm w. apply wp_ok. eapply wp_mono; [apply Hm|done..]. Qed.

Lemma restore_tmpcon_ends env tmp es : ends (restore_tmpcon env tmp es).
Proof.
  unfold restore_tmpcon, set_secontext. apply ends_bind; [|intros _].
  { case_bool_decide; [apply ends_do|apply ends_ok, ends_do]. }
  apply ends_bind; [apply ends_do|intros _]. apply ends_bind; [|intros _; apply ends_do].
  induction es as [|[name c] es IH]; (apply ends_bind; [apply ends_do|intros _]); [apply ends_ret|].
  apply ends_bind; [|intros _; apply IH]. destruct c; first [apply ends_ok, ends_do | apply ends_ret].
Qed.

(** ** The pieces *)

(** Neither of a mount nor of the socket. *)
Definition plain_op (o : EntryOp) : bool :=
  match o with Umount _ | Publish _ | Remove _ | BindSocket _ | Accept | Serve _ | Exit _ => false | _ => true end.

Ltac calm_step :=
  first
  [ apply calm_ret | apply calm_read
  | apply calm_is_ok, calm_err_ask | apply calm_ok, calm_err_ask
  | apply calm_note | apply calm_test | apply calm_prop
  | apply calm_bind; [assumption| |intros ?]
  | match goal with
    | |- calm _ _ (if ?b then _ else _) => destruct b
    | |- calm _ _ (match ?o with Some _ => _ | None => _ end) => destruct o
    end ].

Section Pieces.
Context (env : Env EntryOp) (file prop : bytes → bytes) (attr : bytes → Dir.Attr).
Context (P : EntryOp → Prop) (R : Here → Here → Prop) `{!PreOrder R}.
Context (HP : ∀ o, plain_op o = true → P o).
Context (HR : ∀ w w', mounted w = mounted w' → magiskd w = magiskd w' → R w w').

Ltac calm_all := repeat (calm_step; try first [assumption | by apply HP | by intros; apply HR]).

Lemma calm_open_read p : calm P R (open_read env file p).
Proof. unfold open_read. calm_all. Qed.
Lemma calm_switch cgroup pid : calm P R (switch_cgroup env cgroup pid).
Proof. unfold switch_cgroup. calm_all. Qed.
Lemma calm_redirect : calm P R (redirect env).
Proof. unfold redirect. calm_all. Qed.
Lemma calm_own_context : calm P R (own_context env).
Proof. unfold own_context. calm_all. Qed.
Lemma calm_emulator : calm P R (find_emulator prop).
Proof. unfold find_emulator. calm_all. Qed.
Lemma calm_recovery b : calm P R (find_recovery env file b).
Proof. unfold find_recovery. calm_step; [apply calm_open_read|]. calm_all. Qed.
Lemma calm_sdk : calm P R (find_sdk env file prop).
Proof. unfold find_sdk. calm_step; [apply calm_open_read|]. cbn zeta. calm_all. Qed.
Lemma calm_cgroup pid : calm P R (escape_cgroup env prop pid).
Proof.
  unfold escape_cgroup. repeat (first [apply calm_switch | calm_step]; try first [assumption | by apply HP | by intros; apply HR]).
Qed.
Lemma calm_mtk : calm P R (mtk_workaround env).
Proof. unfold mtk_workaround. calm_all. Qed.
Lemma calm_remount : calm P R (remount_root env).
Proof. unfold remount_root. calm_all. Qed.
Lemma calm_attr : calm P R (own_attr env attr).
Proof. unfold own_attr. calm_all. Qed.
Lemma calm_tmpcon tmp es : calm P R (ok_ (embed contexts with_contexts Con (λ env, restore_tmpcon env tmp es) env)).
Proof.
  apply calm_ok, calm_embed; [intros c; by apply HP|intros w w'; by apply HR|].
  intros env' w. apply restore_tmpcon_ends.
Qed.

Lemma calm_detach ver : calm P R (detach env ver).
Proof.
  unfold detach. repeat (first [apply calm_redirect | apply calm_own_context | calm_step];
    try first [assumption | by apply HP | by intros; apply HR]).
Qed.
Lemma calm_identify b : calm P R (identify env file prop b).
Proof.
  unfold identify. repeat (first [apply calm_emulator | apply calm_recovery | apply calm_sdk | calm_step];
    try first [assumption | by apply HP | by intros; apply HR]).
Qed.
Lemma calm_settle tmp pid es : calm P R (settle env prop tmp pid es).
Proof.
  unfold settle. repeat (first [apply calm_tmpcon | apply calm_cgroup | apply calm_mtk | calm_step];
    try first [assumption | by apply HP | by intros; apply HR]).
Qed.
End Pieces.

(** Running a calm step first. *)
Lemma calm_run {P R A B} (m : S A) (k : A → S B) w h : calm P R m →
  ∃ w' t a, mbind k m w h = k a w' (h ++ t) ∧ Forall P t ∧ R w w'.
Proof.
  intros Hm. destruct (Hm w h) as (w' & t & a & E & Ht & Hw). exists w', t, a.
  split; [|done]. unfold mbind, sys_bind. by rewrite E.
Qed.

Ltac run_calm P R tac :=
  match goal with |- context [@mbind _ _ ?A ?B ?k ?m ?w ?h] =>
    let H := fresh in
    assert (calm P R m) as H by tac;
    let w' := fresh "w" in let t := fresh "t" in let a := fresh "a" in
    destruct (calm_run m k w h H) as (w' & t & a & -> & ? & ?); clear H; cbn zeta
  end.

Lemma ok_ask (env : Env EntryOp) o (w : Here) h : ok_ (ask env o) w h = (w, h ++ [o], Ok tt).
Proof. unfold ok_, ask, do_. by destruct (env h o). Qed.

(** ** The order of the start *)

(** What happens before the daemon is known. *)
Definition early (o : EntryOp) : Prop := plain_op o = true ∨ ∃ p, o = Umount p.
Definition same_daemon (w w' : Here) : Prop := magiskd w = magiskd w'.
#[global] Instance same_daemon_preorder : PreOrder same_daemon.
Proof. split; [done|]. intros u v w. unfold same_daemon. congruence. Qed.

Section Early.
Context (env : Env EntryOp) (file prop : bytes → bytes).

Lemma early_plain o : plain_op o = true → early o.
Proof. by left. Qed.
Lemma early_related w w' : mounted w = mounted w' → magiskd w = magiskd w' → same_daemon w w'.
Proof. done. Qed.

Lemma calm_umount p : calm early same_daemon (ok_ (umount env p)).
Proof. apply calm_ok, calm_err_do; [apply _|right; eauto|done]. Qed.

Lemma calm_for_lines lines m : calm early same_daemon m →
  calm early same_daemon (for_lines (λ (m : S unit) line, (_ ← m; ok_ (umount env (c_str (trim_end line))), true)) m lines).
Proof.
  revert m. induction lines as [|l lines IH]; intros m Hm; cbn [for_lines]; [done|].
  destruct (utf8_valid l); [|done]. apply IH. apply calm_bind; [apply _|done|intros _; apply calm_umount].
Qed.

Lemma calm_cleanup b : calm early same_daemon (cleanup_rootfs env file b).
Proof.
  unfold cleanup_rootfs. apply calm_bind; [apply _| |intros [data|]].
  - apply calm_open_read; [apply _|apply early_plain].
  - apply calm_for_lines. apply calm_ret, _.
  - apply calm_ret, _.
Qed.
End Early.

Section Clients.
Context (check_client : bool).

(** The clients that are served: up to the first that stops the daemon, or that cannot be
    accepted; and how the process ends after them, if it does. *)
Fixpoint served (clients : list (option Daemon.Client)) : list Daemon.Client * option Z :=
  match clients with
  | [] => ([], None)
  | None :: _ => ([], Some 1)
  | Some c :: clients => if stops check_client c then ([c], Some 0) else (c :: (served clients).1, (served clients).2)
  end.

Definition client_calls (cs : list Daemon.Client) (ended : option Z) : list EntryOp :=
  flat_map (λ c, [Accept; Serve c]) cs ++
  match ended with None => [] | Some code => (if code =? 0 then [] else [Accept]) ++ [Exit code] end.

Definition goes_on (c : Daemon.Client) : Prop := stops check_client c = false.

(** How the daemon ends after the clients [cs], with [rest] not served: not at all when
    nobody is left; with 0 after a request to stop, which only the last of them made; with 1
    when the next one cannot be accepted. *)
Definition ended_by (cs : list Daemon.Client) (rest : list (option Daemon.Client)) (ended : option Z) : Prop :=
  match ended with
  | None => Forall goes_on cs ∧ rest = []
  | Some code =>
      (code = 0 ∧ ∃ cs' c, cs = cs' ++ [c] ∧ Forall goes_on cs' ∧ stops check_client c = true) ∨
      (code = 1 ∧ Forall goes_on cs ∧ head rest = Some None)
  end.

Lemma serve_run clients w h :
  serve_clients check_client clients w h =
  (w, h ++ client_calls (served clients).1 (served clients).2,
   match (served clients).2 with None => Ok tt | Some _ => Err tt end).
Proof.
  revert h. unfold client_calls. induction clients as [|[c|] clients IH]; intros h; cbn [serve_clients served].
  - by rewrite app_nil_r.
  - unfold mbind, sys_bind, note. destruct (stops check_client c); cbn; [by rewrite <- !app_assoc|].
    by rewrite IH, <- !app_assoc.
  - unfold mbind, sys_bind, note. by rewrite <- app_assoc.
Qed.

Lemma served_ended clients :
  ∃ rest, clients = map Some (served clients).1 ++ rest ∧ ended_by (served clients).1 rest (served clients).2.
Proof.
  induction clients as [|[c|] clients (rest & E & H)]; cbn [served].
  - by exists [].
  - destruct (stops check_client c) eqn:Ec.
    + exists clients. split; [done|]. left. split; [done|]. by exists [], c.
    + exists rest. cbn [fst snd map app]. rewrite <- E. split; [done|]. unfold ended_by in *.
      destruct (served clients).2 as [code|]; [|by destruct H; split; [constructor|]].
      destruct H as [(-> & cs' & d & -> & Hc & Hd)|(-> & Hc & Hr)].
      * left. split; [done|]. exists (c :: cs'), d. split; [done|]. by split; [constructor|].
      * right. by split; [|split; [constructor|]].
  - exists (None :: clients). split; [done|right]. by split_and!.
Qed.
End Clients.

(** Nobody is accepted behind a request to stop by root; from a shell it is refused. *)
Example stop_ends (w : Here) :
  let stop uid := Daemon.mkClient (Some uid) [] true (Some Daemon.STOP_DAEMON) true in
  serve_clients true [Some (stop 2000); Some (stop 0); Some (stop 0)] w [] =
  (w, [Accept; Serve (stop 2000); Accept; Serve (stop 0); Exit 0], Err tt).
Proof. reflexivity. Qed.

Lemma open_socket_run env cc tmp clients w h :
  let h1 := h ++ [Remove (sock_path tmp)] in let b := env h1 (BindSocket (sock_path tmp)) in
  ∃ w', open_socket env cc tmp clients w h =
    (w', h1 ++ BindSocket (sock_path tmp) ::
       (if b then Con (ChmodTo (sock_path tmp) 0x1b6) :: Con (SetCon (sock_path tmp) MAGISK_FILE_CON) ::
         client_calls (served cc clients).1 (served cc clients).2
        else [Exit 1]),
     match (served cc clients).2 with None => if b then Ok tt else Err tt | Some _ => Err tt end) ∧
    magiskd w' = magiskd w ∧ mounted w' = mounted w.
Proof.
  cbn zeta. unfold open_socket, mbind, sys_bind.
  rewrite ok_ask. unfold is_ok_ at 1. unfold ask at 1. unfold do_ at 1.
  destruct (env (h ++ [Remove (sock_path tmp)]) (BindSocket (sock_path tmp))); cbn [negb andb]; cbn iota beta.
  - rewrite ok_ask. unfold ok_ at 1. unfold embed, set_secontext, do_. cbn [map].
    destruct (env _ (Con (SetCon _ _))); cbn [map]; rewrite serve_run; eexists; (split; [rewrite <- !app_assoc; done|done]).
  - exists w. split; [|done]. unfold mbind, sys_bind, note, throw. rewrite <- !app_assoc.
    by destruct (served cc clients).2.
Qed.

(** C26: whatever fails and whoever connects, the daemon's record is published once, with
    nothing served before; then comes the socket, and only when that is bound are clients
    accepted, each served before the next one, until one that may asks the daemon to stop,
    which ends it with 0, or one cannot be accepted, which ends it with 1; a daemon without a
    socket serves nobody and exits. *)
Theorem serves_when_ready env cc file prop attr tmp ver pid es clients w h :
  let '(w', t, r) := daemon_entry env cc file prop attr tmp ver pid es clients w h in
  ∃ before d cs rest ended,
    let known := h ++ before ++ [Publish d; Remove (sock_path tmp)] in
    let bound := env known (BindSocket (sock_path tmp)) in
    t = known ++ BindSocket (sock_path tmp) ::
        (if bound then Con (ChmodTo (sock_path tmp) 0x1b6) :: Con (SetCon (sock_path tmp) MAGISK_FILE_CON) :: client_calls cs ended
         else [Exit 1]) ∧
    Forall early before ∧ magiskd w' = Some (default d (magiskd w)) ∧
    clients = map Some cs ++ rest ∧ ended_by cc cs rest ended ∧
    r = match ended with None => if bound then Ok tt else Err tt | Some _ => Err tt end.
Proof.
  unfold daemon_entry. pose proof early_plain as HP. pose proof early_related as HR.
  run_calm early same_daemon ltac:(eauto using calm_detach with typeclass_instances).
  run_calm early same_daemon ltac:(eauto using calm_identify with typeclass_instances).
  run_calm early same_daemon ltac:(eauto using calm_settle with typeclass_instances).
  run_calm early same_daemon ltac:(apply calm_cleanup).
  run_calm early same_daemon ltac:(eauto using calm_remount with typeclass_instances).
  run_calm early same_daemon ltac:(apply calm_ok, calm_err_ask; [apply _|by left]).
  run_calm early same_daemon ltac:(eauto using calm_attr with typeclass_instances).
  match goal with |- context [publish ?f ?e] => unfold publish; generalize (mkStarted f.2 f.1.1 f.1.2 e) as d; intros d end.
  rewrite <- !app_assoc. repeat match goal with H : same_daemon _ _ |- _ => unfold same_daemon in H end.
  unfold mbind, sys_bind, note at 1.
  set (before := t ++ t0 ++ t1 ++ t2 ++ t3 ++ t4 ++ t5).
  destruct (open_socket_run env cc tmp clients (set_daemon d w6) ((h ++ before) ++ [Publish d])) as (w' & -> & Hd & _).
  destruct (served_ended cc clients) as (rest & Hs & He).
  exists before, d, (served cc clients).1, rest, (served cc clients).2. cbn zeta. rewrite <- !app_assoc.
  split; [done|]. split; [by repeat (apply Forall_app; split)|].
  split; [|done]. rewrite Hd. unfold set_daemon. cbn. congruence.
Qed.

(** ** The overlay of magiskinit is taken back *)

(** A path of printable characters that does not end in a space. *)
Definition plain_path (p : bytes) : Prop := ∃ s b, p = s ++ [b] ∧ Forall printable s ∧ 0x21 ≤ u8 b < 0x7F.

Lemma plain_printable p : plain_path p → Forall printable p.
Proof.
  intros (s & b & -> & Hs & Hb). apply Forall_app. split; [done|]. constructor; [|done]. unfold printable. lia.
Qed.

Lemma printable_ascii s : Forall printable s → utf8_valid (s ++ [LF]) = true ∧ LF ∉ s ∧ NUL ∉ s.
Proof.
  intros Hs. split_and!.
  - apply utf8_valid_ascii. unfold is_ascii. rewrite forallb_forall. intros x Hx.
    apply list_elem_of_In, elem_of_app in Hx as [Hx|Hx%list_elem_of_singleton]; [|by subst].
    rewrite Forall_forall in Hs. specialize (Hs _ Hx). unfold printable in Hs. lia.
  - intros Hx. rewrite Forall_forall in Hs. destruct (Hs _ Hx) as [H _]. by vm_compute in H.
  - intros Hx. rewrite Forall_forall in Hs. destruct (Hs _ Hx) as [H _]. by vm_compute in H.
Qed.

Lemma trim_start_stop s b t : Forall printable s → 0x21 ≤ u8 b < 0x7F → trim_start (s ++ b :: t) ≠ [].
Proof.
  unfold trim_start. induction 1 as [|c s Hc Hs IH]; intros Hb; cbn [app].
  - cbn [trim_start_from]. by rewrite ws_len_printable.
  - destruct (decide (u8 c = 0x20)) as [E|E].
    + cbn [trim_start_from]. assert (c = Byte.x20) as -> by (by apply u8_inj). by apply IH.
    + cbn [trim_start_from]. rewrite ws_len_printable; [done|]. unfold printable in Hc. lia.
Qed.

Lemma trim_end_line p : plain_path p → trim_end (p ++ [LF]) = p.
Proof.
  intros (s & b & -> & Hs & Hb). rewrite <- app_assoc. cbn [app].
  induction Hs as [|c s Hc Hs IH]; cbn [app trim_end].
  - rewrite trim_start_printable by done. rewrite bool_decide_false by done. f_equal.
  - rewrite bool_decide_false; [by rewrite IH|].
    change (c :: s ++ [b; LF]) with ((c :: s) ++ b :: [LF]). apply trim_start_stop; [by constructor|done].
Qed.

Lemma lines_from_line acc p s : LF ∉ p → lines_from acc (p ++ LF :: s) = (acc ++ p ++ [LF]) :: lines_from [] s.
Proof.
  revert acc. induction p as [|b p IH]; intros acc Hp; cbn [app lines_from].
  - by rewrite bool_decide_true.
  - rewrite bool_decide_false by set_solver. rewrite IH by set_solver. by rewrite <- app_assoc.
Qed.

Lemma read_lines_of ps : Forall plain_path ps → read_lines (Overlay.lines_of ps) = map (λ p, p ++ [LF]) ps.
Proof.
  unfold read_lines, Overlay.lines_of. induction 1 as [|p ps Hp Hps IH]; [done|]. cbn [flat_map map].
  rewrite <- app_assoc. cbn [app]. rewrite lines_from_line by apply printable_ascii, plain_printable, Hp.
  by rewrite IH.
Qed.

Lemma c_str_plain p : plain_path p → c_str p = p.
Proof.
  intros Hp. unfold c_str. rewrite until_nul_app; [done|]. by apply printable_ascii, plain_printable.
Qed.

Lemma unmount_lines env ps m w h w1 h1 :
  (∀ h p, env h (Umount p) = true) → Forall plain_path ps → m w h = (w1, h1, Ok tt) →
  for_lines (λ (m : S unit) line, (_ ← m; ok_ (umount env (c_str (trim_end line))), true)) m (map (λ p, p ++ [LF]) ps) w h =
  (foldl (λ w p, umounted p w) w1 ps, h1 ++ map Umount ps, Ok tt).
Proof.
  intros He Hps. revert m w1 h1. induction Hps as [|p ps Hp Hps IH]; intros m w1 h1 Hm; cbn [map for_lines foldl].
  - by rewrite app_nil_r.
  - rewrite (proj1 (printable_ascii p (plain_printable p Hp))).
    rewrite (IH _ (umounted p w1) (h1 ++ [Umount p])); [by rewrite <- app_assoc|].
    unfold mbind, sys_bind. rewrite Hm, trim_end_line, c_str_plain by done. unfold ok_, umount, do_. by rewrite He.
Qed.

Lemma remove_first_app p l k : p ∈ l → remove_first p (l ++ k) = remove_first p l ++ k.
Proof.
  induction l as [|x l IH]; intros Hp; [set_solver|]. cbn [app remove_first]. case_bool_decide; [done|].
  cbn [app]. rewrite IH; [done|]. set_solver.
Qed.

Lemma remove_first_perm p l : p ∈ l → l ≡ₚ p :: remove_first p l.
Proof.
  induction l as [|x l IH]; intros Hp; [set_solver|]. cbn [remove_first]. case_bool_decide as E; [by rewrite E|].
  rewrite Permutation_swap, <- IH; [done|]. set_solver.
Qed.

Lemma umounted_all base ps ts w : ps ≡ₚ ts → mounted w = base ++ ts →
  mounted (foldl (λ w p, umounted p w) w ps) = base.
Proof.
  revert ts w. induction ps as [|p ps IH]; intros ts w Hp Hw; cbn [foldl].
  - apply Permutation_nil_l in Hp. subst. by rewrite app_nil_r in Hw.
  - assert (p ∈ rev ts) as Hin by (rewrite <- (Permutation_rev ts), <- Hp; set_solver).
    apply (IH (rev (remove_first p (rev ts)))).
    + apply (Permutation_cons_inv (a := p)). rewrite Hp, <- (Permutation_rev (remove_first p (rev ts))).
      rewrite <- remove_first_perm by done. apply Permutation_rev.
    + cbn. by rewrite Hw, rev_app_distr, remove_first_app, rev_app_distr, rev_involutive by done.
Qed.

Definition mount_list_path (tmp : bytes) : bytes :=
  Buf.as_str (Buf.append_path
    (Buf.truncate (Buf.append_path (Buf.append_path (Buf.new 64) tmp) MAIN_CONFIG) (length tmp)) Overlay.ROOTMNT).

Example mount_list_path_at : mount_list_path (bs "/debug_ramdisk") = bs "/debug_ramdisk/.magisk/rootdir/.mount_list".
Proof. vm_compute. reflexivity. Qed.

Definition is_umount (o : EntryOp) : bool := match o with Umount _ => true | _ => false end.
Definition no_umount (o : EntryOp) : Prop := is_umount o = false.
Definition same_mounts (w w' : Here) : Prop := mounted w = mounted w'.
#[global] Instance same_mounts_preorder : PreOrder same_mounts.
Proof. split; [done|]. intros u v w. unfold same_mounts. congruence. Qed.

Lemma no_umounts t : Forall no_umount t → List.filter is_umount t = [].
Proof. induction 1 as [|o t Ho _ IH]; [done|]. cbn [List.filter]. by rewrite Ho. Qed.

Lemma only_umounts ps : List.filter is_umount (map Umount ps) = map Umount ps.
Proof. induction ps as [|p ps IH]; [done|]. cbn [map List.filter is_umount]. by rewrite IH. Qed.

Lemma client_calls_quiet cs ended : Forall no_umount (client_calls cs ended).
Proof.
  unfold client_calls. apply Forall_app. split.
  - by induction cs; repeat constructor.
  - destruct ended as [code|]; [destruct (code =? 0)|]; by repeat constructor.
Qed.

(** C25: the bind mounts magiskinit laid over the root directory are gone when the daemon
    serves: it unmounts the recorded paths, each once and in order, and nothing else, and
    leaves the mounts that were there before. *)
Theorem overlay_undone o overlay dest wo ho env cc file prop attr tmp ver pid es clients w base :
  let wo' := state (Overlay.mount_overlay o overlay dest wo ho) in
  let targets := map snd (Overlay.bound wo') in
  Overlay.bound wo = [] → Forall plain_path targets →
  (∀ h, env h (OpenFile (mount_list_path tmp)) = true) → (∀ h p, env h (Umount p) = true) →
  file (mount_list_path tmp) = Overlay.listed wo' → mounted w = base ++ targets →
  let run := daemon_entry env cc file prop attr tmp ver pid es clients w [] in
  mounted (state run) = base ∧ List.filter is_umount (calls run) = map Umount targets.
Proof.
  cbn zeta. intros Hwo Hplain Hopen Humount Hfile Hw.
  pose proof (Overlay.overlay_recorded o overlay dest wo ho) as Hrec.
  destruct (Overlay.mount_overlay o overlay dest wo ho) as [[wo' ho'] ro]. cbn [state fst] in *.
  destruct Hrec as (_ & ms & -> & Hl). rewrite Hl in Hfile.
  assert (map snd (Overlay.bound (Overlay.laid ms (Overlay.forget wo))) = map (λ m : bytes * bytes * bytes, m.1.2) ms) as Et.
  { cbn. rewrite Hwo. cbn [app]. by rewrite map_map. }
  rewrite Et in *. set (targets := map (λ m : bytes * bytes * bytes, m.1.2) ms) in *. clearbody targets. clear Et Hl.
  unfold daemon_entry.
  assert (∀ o, plain_op o = true → no_umount o) as HP by (by intros []).
  assert (∀ w w', mounted w = mounted w' → magiskd w = magiskd w' → same_mounts w w') as HR by done.
  run_calm no_umount same_mounts ltac:(eauto using calm_detach with typeclass_instances).
  run_calm no_umount same_mounts ltac:(eauto using calm_identify with typeclass_instances).
  run_calm no_umount same_mounts ltac:(eauto using calm_settle with typeclass_instances).
  match goal with |- context [mbind ?k (cleanup_rootfs env file ?b) ?w ?h] =>
    assert (mbind k (cleanup_rootfs env file b) w h = k tt (foldl (λ w p, umounted p w) w targets) (h ++ OpenFile (mount_list_path tmp) :: map Umount targets)) as -> end.
  { unfold cleanup_rootfs, open_read. unfold mbind, sys_bind. fold (mount_list_path tmp).
    unfold is_ok_, ask, do_. rewrite Hopen. cbn [mret sys_ret]. unfold mret, sys_ret. cbn iota beta.
    unfold unmount_listed, for_each_line. rewrite Hfile, read_lines_of by done.
    erewrite unmount_lines by done. by rewrite <- app_assoc. }
  cbn zeta.
  run_calm no_umount same_mounts ltac:(eauto using calm_remount with typeclass_instances).
  run_calm no_umount same_mounts ltac:(apply calm_ok, calm_err_ask; [apply _|done]).
  run_calm no_umount same_mounts ltac:(eauto using calm_attr with typeclass_instances).
  unfold publish, mbind, sys_bind, note.
  match goal with |- context [open_socket env cc tmp clients ?w ?h] => destruct (open_socket_run env cc tmp clients w h) as (w' & -> & _ & Hm) end.
  unfold same_mounts in *. split.
  - cbn. rewrite Hm. cbn. 
    match goal with H : mounted (foldl _ _ _) = mounted ?v |- mounted ?u = _ =>
      transitivity (mounted v); [congruence|rewrite <- H] end.
    eapply umounted_all; [done|congruence].
  - unfold calls. cbn [fst snd]. rewrite !List.filter_app, !(no_umounts t), !(no_umounts t0), !(no_umounts t1),
      !(no_umounts t2), !(no_umounts t3), !(no_umounts t4) by done.
    cbn [List.filter is_umount app]. rewrite only_umounts. destruct (env _ _); cbn [List.filter is_umount];
      rewrite ?(no_umounts (client_calls (served cc clients).1 (served cc clients).2)) by apply client_calls_quiet; by rewrite !app_nil_r.
Qed.

(** A file laid over init.rc. *)
Definition listing_env : Env EntryOp := λ _ _, true.

Lemma overlay_undone_witness :
  let run := daemon_entry listing_env true (λ _, Overlay.lines_of [bs "/init.rc"; bs "/etc/hosts"]) (λ _, []) (λ _, Dir.mkAttr 0 0 0 [])
    (bs "/sbin") (bs "30.7") 500 [] [None] (mkHere [bs "/"; bs "/sbin"; bs "/init.rc"; bs "/etc/hosts"] ∅ None []) [] in
  mounted (state run) = [bs "/"; bs "/sbin"] ∧ List.filter is_umount (calls run) = [Umount (bs "/init.rc"); Umount (bs "/etc/hosts")].
Proof.
  apply (overlay_undone Overlay.settled_oracle Overlay.overlay_sample (bs "/") Overlay.here0 []); try done.
  assert (∀ p, (1 <? length p)%nat && forallb (λ b, (0x21 <=? u8 b) && (u8 b <? 0x7F)) p = true → plain_path p) as H.
  { intros p [Hl Hp]%andb_true_iff. destruct p as [|b p _] using rev_ind; [done|].
    rewrite forallb_app in Hp. apply andb_true_iff in Hp as [Hp Hb]. exists p, b. split; [done|].
    rewrite forallb_forall in Hp. split; [|cbn in Hb; lia]. apply Forall_forall. intros x Hx.
    apply list_elem_of_In in Hx. specialize (Hp _ Hx). unfold printable. lia. }
  change (map snd _) with [bs "/init.rc"; bs "/etc/hosts"]. constructor; [by apply H|]. constructor; [by apply H|constructor].
Defined.
