(* ===== verification/Hijack.v ===== *)
(** Hijack: loading the patched policy before init goes on, [native/src/init/selinux.rs].

    magiskinit forks: the parent goes on to become init, the child waits for init to reach
    the point where it loads its policy, loads the patched policy, and lets init go on.
    [child] says which of the two processes is followed; the two busy waits have fuel.  The
    policy is the calls made on it, as in [Statement]. *)

From S2P Require Import Prelude Misc Text Files Io Sys Statement Init Overlay.

(** ** [init.hpp], [sepolicy.hpp] and the constants *)

Definition PRELOAD_LIB : bytes := bs "/dev/preload.so".
Definition PRELOAD_POLICY : bytes := bs "/dev/sepolicy".
Definition PRELOAD_ACK : bytes := bs "/dev/ack".
Definition SPLIT_PLAT_CIL : bytes := bs "/system/etc/selinux/plat_sepolicy.cil".

Definition MOCK_VERSION : bytes := bs ".magisk/selinux/version".
Definition MOCK_LOAD : bytes := bs ".magisk/selinux/load".
Definition MOCK_ENFORCE : bytes := bs ".magisk/selinux/enforce".
Definition MOCK_REQPROT : bytes := bs ".magisk/selinux/checkreqprot".
Definition SELINUX_MNT : bytes := bs "/sys/fs/selinux".
Definition SELINUX_ENFORCE : bytes := bs "/sys/fs/selinux/enforce".
Definition SELINUX_LOAD : bytes := bs "/sys/fs/selinux/load".
Definition SELINUX_REQPROT : bytes := bs "/sys/fs/selinux/checkreqprot".

Inductive SePatchStrategy := LdPreload | SelinuxFs | Legacy.

(** What a process does after [handle_sepolicy]: it returns to the boot flow, or is gone. *)
Inductive Fate := Returned | Exited.

Section Hijack.
Context (o : Oracle).
Abbreviation env := (succeeds o).

Definition mock_fifo (target mock : bytes) : S unit :=
  _ ← ask env (MakeFifo mock); bind_mount_to o mock target.
Definition mock_file (target mock : bytes) : S unit :=
  _ ← ask env (Make mock); bind_mount_to o mock target.

(** The policy of a file with the built-in rules and those given. *)
Definition load_patched (file rules : bytes) : S SePolicy :=
  _ ← ok_ (ask env (LoadFrom file));
  mret (load_rules magisk_rules rules).

(** The results of unmounting and of writing the policy are not looked at. *)
Definition cleanup_and_load (rules : bytes) : S unit :=
  _ ← ok_ (ask env (Umount (bs "/init")));
  _ ← ok_ (ask env (Umount SELINUX_LOAD));
  _ ← ok_ (ask env (Umount SELINUX_ENFORCE));
  _ ← ok_ (ask env (Umount SELINUX_REQPROT));
  sepol ← load_patched MOCK_LOAD rules;
  _ ← ok_ (ask env (ToFile SELINUX_LOAD sepol));
  _ ← ok_ (ask env (SetCon (bs "/init") (bs "u:object_r:init_exec:s0")));
  restore_overlay_contexts o.

(** [!SELINUX_ENFORCE.exists()], every 100 ms. *)
Fixpoint wait_mounted (fuel : nat) : S unit :=
  match fuel with
  | O => λ w h, (w, h, NoFuel)
  | Datatypes.S fuel =>
      there ← exists_ o SELINUX_ENFORCE;
      if there : bool then mret tt else _ ← ok_ (ask env Sleep); wait_mounted fuel
  end.

(** Until the size is not 0 and the same twice. *)
Fixpoint wait_written (fuel : nat) (sz : Z) : S unit :=
  match fuel with
  | O => λ w h, (w, h, NoFuel)
  | Datatypes.S fuel =>
      size ← get o (Stat MOCK_LOAD) (λ h, size_of o h MOCK_LOAD);
      if negb (sz =? 0) && (sz =? size) then mret tt
      else _ ← ok_ (ask env Sleep); wait_written fuel size
  end.

(** Step 0: the strategy and the file init reads the version from, unless the setup is
    not known. *)
Definition choose_strategy : S (option (SePatchStrategy * bytes)) :=
  let policy_ver := bs "/selinux_version" in
  two_stage ← exists_ o (bs "/system/bin/init");
  if two_stage : bool then mret (Some (LdPreload, policy_ver))
  else
    init ← get o (MapFile (bs "/init")) (λ h, content o h (bs "/init"));
    mret (if contains SPLIT_PLAT_CIL init then Some (SelinuxFs, policy_ver)
          else if contains policy_ver init then Some (Legacy, policy_ver)
          else if contains (bs "/sepolicy_version") init then Some (Legacy, bs "/sepolicy_version")
          else None).

(** Step 1: what will stop init. *)
Definition intercept (strat : SePatchStrategy) (policy_ver : bytes) : S unit :=
  match strat with
  | LdPreload =>
      _ ← ask env (Copy (bs "init-ld") PRELOAD_LIB);
      _ ← ok_ (ask env (SetEnv (bs "LD_PRELOAD") PRELOAD_LIB));
      ask env (MakeFifo PRELOAD_ACK)
  | SelinuxFs =>
      there ← exists_ o SELINUX_ENFORCE;
      _ ← (if there : bool then mret tt
           else
             _ ← ask env (Remount (bs "/proc") (bs "hidepid=2,gid=3009"));
             _ ← modify (with_init (λ m, set_mounts
                   (List.filter (λ s, negb (bool_decide (s = bs "/proc")) && negb (bool_decide (s = bs "/sys")))
                      (mount_list m)) m));
             ask env (MountFs (bs "selinuxfs") SELINUX_MNT (bs "selinuxfs")));
      _ ← mock_file SELINUX_LOAD MOCK_LOAD;
      mock_fifo SELINUX_ENFORCE MOCK_ENFORCE
  | Legacy =>
      there ← exists_ o policy_ver;
      _ ← (if there : bool then mret tt else ask env (Make policy_ver));
      mock_fifo policy_ver MOCK_VERSION
  end.

(** Step 2: selinuxfs is there; init may go on to load its policy into the mock file. *)
Definition wait_selinuxfs (fuel : nat) (policy_ver : bytes) : S unit :=
  _ ← wait_mounted fuel;
  _ ← mock_file SELINUX_LOAD MOCK_LOAD;
  _ ← mock_fifo SELINUX_REQPROT MOCK_REQPROT;
  _ ← ask env (OpenWrite MOCK_VERSION);
  ask env (Umount policy_ver).

(** [m] with [p] open for writing; the descriptor is closed when [m] ends, in an error too. *)
Definition closing {A} (p : bytes) (m : S A) : S A := λ w h,
  match m w h with
  | (w, h, Ok a) => (w, h ++ [Close p], Ok a)
  | (w, h, Err e) => (w, h ++ [Close p], Err e)
  | r => r
  end.
Definition holding {A} (p : bytes) (m : S A) : S A := _ ← ask env (OpenWrite p); closing p m.

(** Step 3. *)
Definition patch_and_load (fuel : nat) (strat : SePatchStrategy) (rules : bytes) : S unit :=
  match strat with
  | LdPreload =>
      holding PRELOAD_ACK
        (_ ← ok_ (ask env (LoadFrom PRELOAD_POLICY));
         _ ← ask env (Delete PRELOAD_POLICY);
         _ ← ask env (Delete PRELOAD_ACK);
         _ ← ok_ (ask env (ToFile SELINUX_LOAD (load_rules magisk_rules rules)));
         _ ← restore_overlay_contexts o;
         ask env (Write PRELOAD_ACK (bs "0")))
  | SelinuxFs =>
      holding MOCK_ENFORCE
        (_ ← cleanup_and_load rules;
         data ← read_file o SELINUX_ENFORCE;
         ask env (Write MOCK_ENFORCE data))
  | Legacy =>
      _ ← wait_written fuel 0;
      _ ← cleanup_and_load rules;
      _ ← ask env (OpenWrite SELINUX_REQPROT);
      _ ← ask env (Write SELINUX_REQPROT (bs "0"));
      _ ← read_file o MOCK_REQPROT;
      mret tt
  end.

(** A file of rules from an earlier boot; it must be UTF-8. *)
Definition rule_file : bytes := bs "/data/.magisk/preinit/sepolicy.rule".
Definition custom_rules : S bytes :=
  there ← exists_ o rule_file;
  if there : bool then
    rules ← read_file o rule_file; lift_ (λ _, if utf8_valid rules then Ok rules else Err tt)
  else mret [].

Definition handle_sepolicy_impl (child : bool) (fuel : nat) : S Fate :=
  _ ← ask env (MakeDir SELINUXMOCK);
  rules ← custom_rules;
  choice ← choose_strategy;
  match choice with
  | None => mret Returned
  | Some (strat, policy_ver) =>
      _ ← intercept strat policy_ver;
      _ ← ok_ (ask env Fork);
      if negb child then mret Returned
      else
        _ ← (match strat with Legacy => wait_selinuxfs fuel policy_ver | _ => mret tt end);
        _ ← patch_and_load fuel strat rules;
        mret Exited
  end.

(** The error is dropped: the process returns to the boot flow, the child too. *)
Definition handle_sepolicy (child : bool) (fuel : nat) : S Fate :=
  r ← try_ (handle_sepolicy_impl child fuel);
  mret (match r with Some f => f | None => Returned end).
End Hijack.

(** ** The order of the calls *)

(** The calls that let init go on behind the loading of its policy: what it reads from the
    pipe is written, the pipe is closed, or opened at its other end; and the one that lets it
    load the policy into the mock file. *)
Definition releases (c : SeOp) : bool :=
  match c with
  | Write p _ | Close p => bool_decide (p = PRELOAD_ACK) || bool_decide (p = MOCK_ENFORCE)
  | OpenRead p => bool_decide (p = MOCK_REQPROT)
  | _ => false
  end.
Definition enters (c : SeOp) : bool :=
  match c with OpenWrite p => bool_decide (p = MOCK_VERSION) | _ => false end.

(** The patched policy was written to the kernel's node; no result is looked at. *)
Definition loaded (rules : bytes) (h : list SeOp) : Prop :=
  ToFile SELINUX_LOAD (load_rules magisk_rules rules) ∈ h.

Section Order.
Context (o : Oracle) (rules : bytes).

(** [c] was called, and succeeded or failed. *)
Definition called (b : bool) (c : SeOp) (h : list SeOp) : Prop := ∃ k t, h = k ++ c :: t ∧ succeeds o k c = b.
Definition done_ := called true.

(** One of the two calls between opening the pipe and loading the policy failed. *)
Definition dropped (h : list SeOp) : Prop :=
  called false (Delete PRELOAD_POLICY) h ∨ called false (Delete PRELOAD_ACK) h.

Definition needs (c : SeOp) (pre : list SeOp) : Prop :=
  (releases c = true → Fork ∈ pre ∧ (loaded rules pre ∨ c = Close PRELOAD_ACK ∧ dropped pre)) ∧
  (enters c = true →
     done_ (Bind MOCK_LOAD SELINUX_LOAD) pre ∧ done_ (Bind MOCK_REQPROT SELINUX_REQPROT) pre).

Definition ordered (h : list SeOp) : Prop := ∀ pre c post, h = pre ++ c :: post → needs c pre.

Lemma ordered_nil : ordered [].
Proof. by intros [] ? ?. Qed.

Lemma ordered_snoc h c : ordered h → needs c h → ordered (h ++ [c]).
Proof.
  intros Ho Hc pre d post E. destruct post as [|e post _] using rev_ind.
  - apply app_inj_tail in E as [-> ->]. done.
  - rewrite app_comm_cons, app_assoc in E. apply app_inj_tail in E as [-> _]. by eapply Ho.
Qed.

Lemma called_snoc b c d h : called b c h → called b c (h ++ [d]).
Proof. intros (k & t & -> & Hc). exists k, (t ++ [d]). by rewrite <- app_assoc. Qed.
Lemma done_snoc c d h : done_ c h → done_ c (h ++ [d]).
Proof. apply called_snoc. Qed.

Lemma called_now b c h : succeeds o h c = b → called b c (h ++ [c]).
Proof. by exists h, []. Qed.
Lemma done_now c h : succeeds o h c = true → done_ c (h ++ [c]).
Proof. apply called_now. Qed.

Lemma in_snoc (c d : SeOp) h : c ∈ h → c ∈ h ++ [d].
Proof. set_solver. Qed.

Lemma in_now (c : SeOp) h : c ∈ h ++ [c].
Proof. set_solver. Qed.

(** ** Following the process *)

Context (child : bool).

Definition gated (c : SeOp) : bool := releases c || enters c.

(** Nothing out of order, and nothing for init from the parent. *)
Definition fine (h : list SeOp) : Prop := ordered h ∧ (child = false → existsb gated h = false).

(** What is known on the way: the process is the child, the policy is loaded, the mock
    files are there. *)
Definition known (forked load mocked : bool) (h : list SeOp) : Prop :=
  fine h ∧ (forked = true → child = true ∧ Fork ∈ h) ∧ (load = true → loaded rules h) ∧
  (mocked = true → done_ (Bind MOCK_LOAD SELINUX_LOAD) h ∧ done_ (Bind MOCK_REQPROT SELINUX_REQPROT) h).

Lemma known_fine f l m h : known f l m h → fine h.
Proof. by intros [H _]. Qed.

Lemma known_snoc f l m c h : gated c = false → known f l m h → known f l m (h ++ [c]).
Proof.
  intros Hc ([Ho Hq] & Hf & Hl & Hm). destruct (orb_false_elim _ _ Hc) as [Hr He].
  split; [split|split; [|split]].
  - apply ordered_snoc; [done|]. unfold needs. by rewrite Hr, He.
  - intros Hp. rewrite existsb_app, (Hq Hp). cbn. by rewrite Hc.
  - intros Hf'. destruct (Hf Hf'). auto using in_snoc.
  - intros Hl'. apply in_snoc. by apply Hl.
  - intros Hm'. destruct (Hm Hm'). auto using done_snoc.
Qed.

(** A computation that makes no such call, whatever is known; and one that does not fail
    either. *)
Definition quiet {A} (m : S A) : Prop := ∀ f l d h, known f l d h → after m (λ _, known f l d) (known f l d) h.
Definition calm {A} (m : S A) : Prop := ∀ f l d h, known f l d h → after m (λ _, known f l d) (λ _, False) h.

Lemma calm_quiet {A} (m : S A) : calm m → quiet m.
Proof. intros Hm f l d h Hk. eapply after_mono; [by apply Hm|done|done]. Qed.

Lemma quiet_do c (ok ko : Here → Here) : gated c = false → quiet (do_ (succeeds o) c ok ko).
Proof. intros Hc f l d h Hk. apply after_do; intros _; by apply known_snoc. Qed.

Lemma quiet_ask c : gated c = false → quiet (ask (succeeds o) c).
Proof. apply quiet_do. Qed.

Lemma quiet_get {A} c (g : list SeOp → A) : gated c = false → quiet (get o c g).
Proof. intros Hc f l d h Hk w. unfold get. destruct (succeeds o h c); by apply known_snoc. Qed.

Lemma quiet_exists p : quiet (exists_ o p).
Proof. intros f l d h Hk. apply after_test. intros b. by apply known_snoc. Qed.

Lemma quiet_ret {A} (a : A) : quiet (mret a).
Proof. intros f l d h Hk. by apply after_ret. Qed.

Lemma quiet_modify g : quiet (modify g).
Proof. intros f l d h Hk. by apply after_modify. Qed.

Lemma quiet_lift {A} (g : Here → LoggedResult A) : (∀ w, g w ≠ Panic) → quiet (lift_ g).
Proof. intros Hg f l d h Hk w. unfold lift_. specialize (Hg w). by destruct (g w). Qed.

Lemma quiet_bind {A B} (m : S A) (k : A → S B) : quiet m → (∀ a, quiet (k a)) → quiet (mbind k m).
Proof.
  intros Hm Hk f l d h Hh. apply after_bind. eapply after_mono; [by apply Hm| |done].
  intros a h' Hh'. by apply Hk.
Qed.

Lemma quiet_if {A} (b : bool) (m n : S A) : quiet m → quiet n → quiet (if b then m else n).
Proof. by destruct b. Qed.

Lemma calm_tried c (ok ko : Here → Here) : gated c = false → calm (ok_ (do_ (succeeds o) c ok ko)).
Proof.
  intros Hc f l d h Hk w. unfold ok_, do_. destruct (succeeds o h c); by apply known_snoc.
Qed.

Lemma quiet_tried c (ok ko : Here → Here) : gated c = false → quiet (ok_ (do_ (succeeds o) c ok ko)).
Proof. intros Hc. by apply calm_quiet, calm_tried. Qed.

Lemma calm_restore : calm (restore_overlay_contexts o).
Proof.
  intros f l d h Hk. unfold restore_overlay_contexts. apply after_bind, after_read. intros w.
  apply after_each; [|done]. intros [p c] h' Hh'. by apply calm_tried.
Qed.

Lemma quiet_restore : quiet (restore_overlay_contexts o).
Proof. apply calm_quiet, calm_restore. Qed.

Lemma quiet_mount from to : quiet (bind_mount_to o from to).
Proof. by apply quiet_do. Qed.

Lemma quiet_wait_mounted fuel : quiet (wait_mounted o fuel).
Proof.
  induction fuel as [|fuel IH]; cbn [wait_mounted]; [by intros f l d h Hk w|].
  apply quiet_bind; [apply quiet_exists|intros b]. apply quiet_if; [apply quiet_ret|].
  apply quiet_bind; [by apply quiet_tried|intros _; apply IH].
Qed.

Lemma quiet_wait_written fuel sz : quiet (wait_written o fuel sz).
Proof.
  revert sz. induction fuel as [|fuel IH]; intros sz; cbn [wait_written]; [by intros f l d h Hk w|].
  apply quiet_bind; [by apply quiet_get|intros n]. apply quiet_if; [apply quiet_ret|].
  apply quiet_bind; [by apply quiet_tried|intros _; apply IH].
Qed.

(** The steps that matter. *)

Lemma after_quiet {A B} (m : S A) (k : A → S B) Q f l d h :
  quiet m → known f l d h → (∀ a h', known f l d h' → after (k a) Q fine h') → after (mbind k m) Q fine h.
Proof. intros Hm Hh Hk. apply after_bind. eapply after_mono; [by apply Hm|apply Hk|apply known_fine]. Qed.

Lemma after_calm {A B} (m : S A) (k : A → S B) Q E f l d h :
  calm m → known f l d h → (∀ a h', known f l d h' → after (k a) Q E h') → after (mbind k m) Q E h.
Proof. intros Hm Hh Hk. apply after_bind. eapply after_mono; [by apply Hm|apply Hk|done]. Qed.

Lemma known_load f l d h :
  known f l d h → known f true d (h ++ [ToFile SELINUX_LOAD (load_rules magisk_rules rules)]).
Proof.
  intros Hk. destruct (known_snoc f l d (ToFile SELINUX_LOAD (load_rules magisk_rules rules)) h eq_refl Hk)
    as (Hf & Hc & _ & Hd). split; [done|]. split; [done|]. split; [intros _; apply in_now|done].
Qed.

Lemma known_enter l h :
  known true l true h → known true l true (h ++ [OpenWrite MOCK_VERSION]).
Proof.
  intros ([Ho Hq] & Hf & Hl & Hm). destruct (Hf eq_refl) as [Hc Hfork]. destruct (Hm eq_refl).
  split; [split; [|congruence]|split; [|split]].
  - apply ordered_snoc; [done|]. by split.
  - split; [done|by apply in_snoc].
  - intros Hl'. apply in_snoc. by apply Hl.
  - auto using done_snoc.
Qed.

(** A call init waits for, by the child, with the policy loaded. *)
Lemma known_release d c h :
  releases c = true → enters c = false → known true true d h →
  known true true d (h ++ [c]) ∧ existsb releases (h ++ [c]) = true.
Proof.
  intros Hr He ([Ho Hq] & Hf & Hl & Hm). destruct (Hf eq_refl) as [-> Hfork]. specialize (Hl eq_refl).
  split; [|by rewrite existsb_app; cbn; rewrite Hr, orb_true_r].
  split; [split; [|congruence]|split; [|split]].
  - apply ordered_snoc; [done|]. split; [intros _; split; [done|by left]|by rewrite He].
  - split; [done|by apply in_snoc].
  - intros _. by apply in_snoc.
  - intros Hm'. destruct (Hm Hm'). auto using done_snoc.
Qed.

(** The pipe dropped before the policy was loaded. *)
Lemma fine_drop l d h : known true l d h → dropped h → fine (h ++ [Close PRELOAD_ACK]).
Proof.
  intros ([Ho Hq] & Hf & _) Hd. destruct (Hf eq_refl) as [-> Hfork]. split; [|congruence].
  apply ordered_snoc; [done|]. split; [intros _; split; [done|by right]|done].
Qed.

Lemma after_holding {A} p (m : S A) (Q : A → list SeOp → Prop) (E : list SeOp → Prop) h :
  (after m (λ a h, Q a (h ++ [Close p])) (λ h, E h ∧ E (h ++ [Close p])) (h ++ [OpenWrite p])) → E (h ++ [OpenWrite p]) →
  after (holding o p m) Q E h.
Proof.
  intros Hm HE. unfold holding, closing. apply after_bind, after_do; intros _; [|done]. intros w. specialize (Hm w).
  destruct (m w _) as [[w' h'] [a|e| |]]; [done|by destruct Hm|done|by destruct Hm].
Qed.
End Order.

Ltac quiet_step :=
  first
  [ apply quiet_restore | apply quiet_mount | apply quiet_exists | apply quiet_get; reflexivity
  | apply quiet_tried; reflexivity | apply quiet_ask; reflexivity | apply quiet_ret | apply quiet_modify
  | apply quiet_if | apply quiet_bind; [|intros ?] ].

Section Processes.
Context (o : Oracle) (rules : bytes) (child : bool).
Abbreviation known := (known o rules child).
Abbreviation fine := (fine o rules child).
Abbreviation quiet := (quiet o rules child).

Lemma load_patched_known file f l d h E :
  known f l d h →
  after (load_patched o file rules) (λ p h, p = load_rules magisk_rules rules ∧ known f l d h) E h.
Proof.
  intros Hk. unfold load_patched. eapply after_calm; [by apply calm_tried|done|].
  intros [] h' Hk'. by apply after_ret.
Qed.

Lemma to_file_known f l d h E :
  known f l d h →
  after (ok_ (ask (succeeds o) (ToFile SELINUX_LOAD (load_rules magisk_rules rules))) : S unit) (λ _, known f true d) E h.
Proof.
  intros Hk w. unfold ok_, ask, do_. destruct (succeeds o h _); by eapply known_load.
Qed.

Ltac pass := eapply after_quiet; [by repeat quiet_step|eassumption|]; let a := fresh "a" in let t := fresh "t" in let Ht := fresh "Ht" in intros a t Ht.
Ltac pass_calm := eapply after_calm; [first [apply calm_restore | by apply calm_tried]|eassumption|]; let a := fresh "a" in let t := fresh "t" in let Ht := fresh "Ht" in intros a t Ht.

Lemma cleanup_loads f l d h E :
  known f l d h → after (cleanup_and_load o rules) (λ _, known f true d) E h.
Proof.
  intros Hk. unfold cleanup_and_load. do 4 pass_calm.
  apply after_bind. eapply after_mono; [by eapply (load_patched_known _ _ _ _ _ (λ _, False))| |done]. intros ? h' [-> Hk'].
  apply after_bind. eapply after_mono; [by eapply (to_file_known _ _ _ _ (λ _, False))| |done]. intros [] k Hk2.
  pass_calm. eapply after_mono; [by apply calm_restore|done|done].
Qed.

(** A call that lets init go on, and then the end of the pipe. *)
Lemma release_known d c h :
  releases c = true → enters c = false → known true true d h →
  after (ask (succeeds o) c : S unit) (λ _ h, known true true d h ∧ existsb releases h = true) (known true true d) h.
Proof.
  intros Hr He Hk. destruct (known_release o rules child d c h Hr He Hk) as [Hk' Hx].
  by apply after_do; intros _.
Qed.

Lemma known_close p d h : p = PRELOAD_ACK ∨ p = MOCK_ENFORCE → known true true d h →
  known true true d (h ++ [Close p]) ∧ existsb releases (h ++ [Close p]) = true.
Proof. intros Hp Hk. apply known_release; [by destruct Hp as [-> | ->]|done..]. Qed.

Lemma patch_and_load_known fuel strat d h :
  known true false d h →
  after (patch_and_load o fuel strat rules) (λ _ h, known true true d h ∧ existsb releases h = true) fine h.
Proof.
  intros Hk. unfold patch_and_load. destruct strat.
  - apply after_holding; [|by eapply known_fine, known_snoc].
    pose proof (known_snoc _ _ _ true false d (OpenWrite PRELOAD_ACK) _ eq_refl Hk) as H0. pass_calm.
    apply after_bind, after_do; intros E1; [|split; [by eapply known_fine, known_snoc|]].
    2: { eapply fine_drop; [by eapply known_snoc|]. left. by apply called_now. }
    pose proof (known_snoc _ _ _ true false d (Delete PRELOAD_POLICY) _ eq_refl Ht) as H1.
    apply after_bind, after_do; intros E2; [|split; [by eapply known_fine, known_snoc|]].
    2: { eapply fine_drop; [by eapply known_snoc|]. right. by apply called_now. }
    pose proof (known_snoc _ _ _ true false d (Delete PRELOAD_ACK) _ eq_refl H1) as H2.
    apply after_bind. eapply after_mono; [by eapply (to_file_known _ _ _ _ (λ _, False))| |done]. intros [] k Hk2. pass_calm.
    eapply after_mono; [apply release_known; [reflexivity|reflexivity|eassumption]| |].
    + intros [] h' [Hk' _]. by apply known_close; [left|].
    + intros h' Hk'. split; [by eapply known_fine|]. eapply known_fine, known_close; [by left|done].
  - apply after_holding; [|by eapply known_fine, known_snoc].
    pose proof (known_snoc _ _ _ true false d (OpenWrite MOCK_ENFORCE) _ eq_refl Hk) as H0.
    assert (Hend : ∀ h', known true true d h' → fine h' ∧ fine (h' ++ [Close MOCK_ENFORCE])).
    { intros h' Hk'. split; [by eapply known_fine|]. eapply known_fine, known_close; [by right|done]. }
    apply after_bind. eapply after_mono; [by eapply (cleanup_loads _ _ _ _ (λ _, False))| |done]. intros [] k Hk2.
    assert (Hq : quiet (read_file o SELINUX_ENFORCE)) by (unfold read_file; by repeat quiet_step).
    apply after_bind. eapply after_mono; [by apply Hq| |exact Hend]. intros data h' Hk'.
    cbn beta in Hk'. eapply after_mono; [apply release_known; [reflexivity|reflexivity|eassumption]| |exact Hend].
    intros [] h2 [Hk3 _]. by apply known_close; [right|].
  - eapply after_quiet; [apply quiet_wait_written|done|]. intros [] k Hk2.
    apply after_bind. eapply after_mono; [by eapply (cleanup_loads _ _ _ _ (λ _, False))| |done]. intros [] k' Hk3.
    do 2 pass. unfold read_file. apply after_bind, after_bind.
    eapply after_mono; [apply release_known; [reflexivity|reflexivity|eassumption]| |apply known_fine]. intros [] h' [Hk' Hx].
    intros w. unfold get. assert (known true true d (h' ++ [ReadAll MOCK_REQPROT])) by by apply known_snoc.
    destruct (succeeds o h' _); [|by eapply known_fine]. split; [done|]. by rewrite existsb_app, Hx.
Qed.

Lemma known_mocked l d h :
  known true l d h → done_ o (Bind MOCK_LOAD SELINUX_LOAD) h → done_ o (Bind MOCK_REQPROT SELINUX_REQPROT) h →
  known true l true h.
Proof. intros (Hf & Hc & Hl & _) H1 H2. split; [done|split; [done|split; [done|by split]]]. Qed.

Lemma wait_selinuxfs_known fuel policy_ver l d h :
  known true l d h → after (wait_selinuxfs o fuel policy_ver) (λ _, known true l true) fine h.
Proof.
  intros Hk. unfold wait_selinuxfs, mock_file, mock_fifo.
  eapply after_quiet; [apply quiet_wait_mounted|done|]. intros [] h1 H1.
  pose proof (known_snoc _ _ _ true l d (Make MOCK_LOAD) _ eq_refl H1) as H2.
  pose proof (known_snoc _ _ _ true l d (Bind MOCK_LOAD SELINUX_LOAD) _ eq_refl H2) as H3.
  pose proof (known_snoc _ _ _ true l d (MakeFifo MOCK_REQPROT) _ eq_refl H3) as H4.
  pose proof (known_snoc _ _ _ true l d (Bind MOCK_REQPROT SELINUX_REQPROT) _ eq_refl H4) as H5.
  apply after_bind, after_bind, after_do; intros _; [|by eapply known_fine].
  apply after_do; intros E1; [|by eapply known_fine].
  apply after_bind, after_bind, after_do; intros _; [|by eapply known_fine].
  apply after_do; intros E2; [|by eapply known_fine].
  assert (known true l true ((((h1 ++ [Make MOCK_LOAD]) ++ [Bind MOCK_LOAD SELINUX_LOAD]) ++
    [MakeFifo MOCK_REQPROT]) ++ [Bind MOCK_REQPROT SELINUX_REQPROT])) as H6.
  { eapply known_mocked; [done|by do 2 apply done_snoc; apply done_now|by apply done_now]. }
  apply known_enter in H6.
  apply after_bind, after_do; intros _; [|by eapply known_fine].
  eapply after_mono; [by apply quiet_ask|done|apply known_fine].
Qed.

Lemma intercept_quiet strat policy_ver : quiet (intercept o strat policy_ver).
Proof. unfold intercept, mock_file, mock_fifo. destruct strat; by repeat quiet_step. Qed.

Lemma choose_quiet : quiet (choose_strategy o).
Proof. unfold choose_strategy. by repeat quiet_step. Qed.

Lemma ordered_known : known false false false [].
Proof. split; [split; [apply ordered_nil|done]|done]. Qed.
End Processes.

(** The rules of the file, as the child and the parent find them. *)
Definition found_rules (o : Oracle) : bytes :=
  if succeeds o [MakeDir SELINUXMOCK] (Exists rule_file) then
    content o [MakeDir SELINUXMOCK; Exists rule_file; OpenRead rule_file] rule_file
  else [].

Section Main.
Context (o : Oracle) (child : bool).
Abbreviation rules := (found_rules o).
Abbreviation known := (known o rules child).
Abbreviation fine := (fine o rules child).

Lemma custom_rules_known :
  after (custom_rules o) (λ r h, r = rules ∧ known false false false h) fine [MakeDir SELINUXMOCK].
Proof.
  assert (known false false false [MakeDir SELINUXMOCK]) as H0 by (by apply (known_snoc _ _ _ _ _ _ _ []), ordered_known).
  pose proof (known_snoc _ _ _ _ _ _ (Exists rule_file) _ eq_refl H0) as H1.
  pose proof (known_snoc _ _ _ _ _ _ (OpenRead rule_file) _ eq_refl H1) as H2.
  pose proof (known_snoc _ _ _ _ _ _ (ReadAll rule_file) _ eq_refl H2) as H3.
  intros w. unfold custom_rules, exists_, read_file, get, ask, do_, test, lift_, mbind, sys_bind.
  cbn [app] in *. destruct (succeeds o _ (Exists rule_file)) eqn:E;
    [|split; [unfold found_rules; by rewrite E|done]].
  destruct (succeeds o _ (OpenRead rule_file)); [|by eapply known_fine].
  destruct (succeeds o _ (ReadAll rule_file)); [|by eapply known_fine].
  destruct (utf8_valid _); [|by eapply known_fine]. split; [unfold found_rules; by rewrite E|done].
Qed.

(** The ends of the two processes. *)
Definition ends (f : Fate) (h : list SeOp) : Prop :=
  fine h ∧ (f = Exited → child = true ∧ existsb releases h = true ∧ loaded rules h).

Lemma impl_after fuel : after (handle_sepolicy_impl o child fuel) ends fine [].
Proof.
  unfold handle_sepolicy_impl.
  assert (known false false false [MakeDir SELINUXMOCK]) as H0 by (by apply (known_snoc _ _ _ _ _ _ _ []), ordered_known).
  apply after_bind, after_do; intros _; [|by eapply known_fine]. cbn [app].
  apply after_bind. eapply after_mono; [apply custom_rules_known| |done]. intros ? h1 [-> H1].
  eapply after_quiet; [apply choose_quiet|done|]. intros [[strat policy_ver]|] h2 H2;
    [|apply after_ret; split; [by eapply known_fine|done]].
  eapply after_quiet; [apply intercept_quiet|done|]. intros [] h3 H3.
  apply after_bind. eapply (after_mono _ (λ _ h, known child false false h)); [| |done].
  { assert (known child false false (h3 ++ [Fork])) as H4.
    { destruct (known_snoc _ _ _ _ _ _ Fork _ eq_refl H3) as (Hf & _ & Hl & Hm).
      split; [done|split; [intros Hc; split; [done|apply in_now]|by split]]. }
    apply after_ok, after_do; intros _; [done|split; [done|by eapply known_fine]]. }
  intros [] h4 H4. destruct (negb child) eqn:Ec; [apply after_ret; split; [by eapply known_fine|done]|].
  apply negb_false_iff in Ec. rewrite Ec in H4 at 2.
  apply after_bind. apply (after_mono _ (λ _ h, ∃ d, known true false d h) _ fine); [| |done].
  { destruct strat; [apply after_ret; by eexists..|].
    eapply after_mono; [by eapply wait_selinuxfs_known|by eexists|done]. }
  intros [] h5 [d H5]. apply after_bind. eapply after_mono; [by eapply patch_and_load_known| |done].
  intros [] h6 [H6 Hx]. apply after_ret. split; [by eapply known_fine|]. intros _. split_and!; [done|done|].
  by apply H6.
Qed.
End Main.


(** ** The waits end *)

Definition count_of (f : SeOp → bool) (h : list SeOp) : nat := length (List.filter f h).
Definition polls_mount (c : SeOp) : bool := match c with Exists p => bool_decide (p = SELINUX_ENFORCE) | _ => false end.
Definition polls_size (c : SeOp) : bool := match c with Stat _ => true | _ => false end.

Lemma count_of_app f h t : count_of f (h ++ t) = (count_of f h + count_of f t)%nat.
Proof. unfold count_of. by rewrite List.filter_app, length_app. Qed.

Lemma count_polled : count_of polls_mount [Exists SELINUX_ENFORCE] = 1%nat.
Proof. reflexivity. Qed.

Section Ends.
Context (o : Oracle) (k : nat) (n : Z).

(** selinuxfs is there when it was asked for [k] times, and the policy is written when its
    size was asked for [k] times. *)
Definition init_moves : Prop :=
  (∀ h, (k ≤ count_of polls_mount h)%nat → succeeds o h (Exists SELINUX_ENFORCE) = true) ∧
  (∀ h, (k ≤ count_of polls_size h)%nat → size_of o h MOCK_LOAD = n).

Definition ended {A} (m : S A) : Prop := ∀ w h, result (m w h) ≠ NoFuel.

Lemma ended_bind {A B} (m : S A) (g : A → S B) : ended m → (∀ a, ended (g a)) → ended (mbind g m).
Proof.
  intros Hm Hg w h. specialize (Hm w h). unfold mbind, sys_bind.
  destruct (m w h) as [[w' h'] [a|e| |]]; try done. apply Hg.
Qed.

Lemma ended_ret {A} (a : A) : ended (mret a).
Proof. done. Qed.

Lemma ended_do c (ok ko : Here → Here) : ended (do_ (succeeds o) c ok ko).
Proof. intros w h. unfold do_. by destruct (succeeds o h c). Qed.

Lemma ended_get {A} c (g : list SeOp → A) : ended (get o c g).
Proof. intros w h. unfold get. by destruct (succeeds o h c). Qed.

Lemma ended_ok {A} (m : S A) : ended m → ended (ok_ m).
Proof. intros Hm w h. specialize (Hm w h). unfold ok_. by destruct (m w h) as [[w' h'] [a|e| |]]. Qed.

Lemma ended_holding {A} p (m : S A) : ended m → ended (holding o p m).
Proof.
  intros Hm. unfold holding, closing. apply ended_bind; [apply ended_do|]. intros _ w h. specialize (Hm w h).
  by destruct (m w h) as [[w' h'] [a|e| |]].
Qed.

Lemma ended_each {A} (f : A → S unit) l : (∀ a, ended (f a)) → ended (each f l).
Proof. intros Hf. induction l as [|a l IH]; [done|]. by apply ended_bind. Qed.

Lemma ended_if {A} (b : bool) (m1 m2 : S A) : ended m1 → ended m2 → ended (if b then m1 else m2).
Proof. by destruct b. Qed.

Lemma ended_restore : ended (restore_overlay_contexts o).
Proof. intros w h. by rewrite restore_calls. Qed.

Lemma wait_mounted_ended fuel w h :
  init_moves → (k - count_of polls_mount h < fuel)%nat → result (wait_mounted o fuel w h) ≠ NoFuel.
Proof.
  intros [Hm _]. revert w h. induction fuel as [|fuel IH]; intros w h Hf; [lia|].
  cbn [wait_mounted]. unfold mbind at 1, sys_bind, exists_, test.
  destruct (succeeds o h (Exists SELINUX_ENFORCE)) eqn:E; [done|].
  assert (count_of polls_mount h < k)%nat.
  { destruct (decide (k ≤ count_of polls_mount h)%nat); [|lia]. by rewrite Hm in E. }
  unfold mbind, sys_bind, ok_, ask, do_. destruct (succeeds o _ Sleep); apply IH;
    rewrite !count_of_app, count_polled; lia.
Qed.

Lemma wait_written_ended fuel sz w h :
  init_moves → n ≠ 0 →
  (k - count_of polls_size h + 1 < fuel ∨ (k ≤ count_of polls_size h ∧ sz = n ∧ 0 < fuel))%nat →
  result (wait_written o fuel sz w h) ≠ NoFuel.
Proof.
  intros [_ Hs] Hn. revert sz w h. induction fuel as [|fuel IH]; intros sz w h Hf; [lia|].
  cbn [wait_written]. unfold mbind at 1, sys_bind, get.
  destruct (succeeds o h (Stat MOCK_LOAD)) eqn:E; [|done].
  destruct (decide (k ≤ count_of polls_size h)%nat) as [Hk|Hk].
  - rewrite Hs by done. destruct (negb (sz =? 0) && (sz =? n)) eqn:Ez; [done|].
    assert (sz ≠ n) by (intros ->; rewrite (proj2 (Z.eqb_neq n 0)) in Ez by done; by rewrite Z.eqb_refl in Ez).
    unfold mbind, sys_bind, ok_, ask, do_. destruct (succeeds o _ Sleep); apply IH; right;
      rewrite !count_of_app; cbn; repeat split; lia.
  - destruct (_ && _); [done|]. unfold mbind, sys_bind, ok_, ask, do_.
    destruct (succeeds o _ Sleep); apply IH; left; rewrite !count_of_app; cbn; lia.
Qed.
End Ends.

Ltac ended_step :=
  first
  [ apply ended_restore | apply ended_do | apply ended_get | apply ended_ret | apply ended_ok
  | apply ended_if | apply ended_bind; [|intros ?] ].

(** If init moves on, the two waits have enough fuel and [handle_sepolicy] returns. *)
Theorem hijack_ends o child fuel k n w h :
  init_moves o k n → n ≠ 0 → (k + 1 < fuel)%nat → result (handle_sepolicy o child fuel w h) ≠ NoFuel.
Proof.
  intros Hi Hn Hk.
  assert (∀ rules, ended (cleanup_and_load o rules)) as Hload
    by (intros rules; unfold cleanup_and_load, load_patched, ask; by repeat ended_step).
  assert (∀ p, ended (read_file o p)) as Hread by (intros p; unfold read_file, ask; by repeat ended_step).
  assert (ended (handle_sepolicy_impl o child fuel)) as H.
  { unfold handle_sepolicy_impl. apply ended_bind; [apply ended_do|intros _].
    apply ended_bind.
    { unfold custom_rules. apply ended_bind; [by intros ??|intros b]. apply ended_if; [|done].
      apply ended_bind; [apply Hread|]. intros r v t. unfold lift_. by destruct (utf8_valid r). }
    intros rules. apply ended_bind.
    { unfold choose_strategy. apply ended_bind; [by intros ??|intros b]. by repeat ended_step. }
    intros [[strat ver]|]; [|done]. apply ended_bind.
    { unfold intercept, mock_file, mock_fifo, bind_mount_to, ask, exists_.
      destruct strat; repeat first [ended_step | by intros ??]. }
    intros _. apply ended_bind; [by repeat ended_step|intros _]. apply ended_if; [done|].
    apply ended_bind.
    { destruct strat; [done..|]. unfold wait_selinuxfs. apply ended_bind.
      - intros v t. apply (wait_mounted_ended o k n); [done|lia].
      - intros _. unfold mock_file, mock_fifo, bind_mount_to, ask. by repeat ended_step. }
    intros _. apply ended_bind; [|done]. unfold patch_and_load. destruct strat.
    - apply ended_holding. unfold ask. by repeat ended_step.
    - apply ended_holding. unfold ask. repeat first [apply Hload | apply Hread | ended_step].
    - apply ended_bind.
      + intros v t. apply (wait_written_ended o k n); [done|done|]. left. lia.
      + intros _. unfold ask. repeat first [apply Hload | apply Hread | ended_step]. }
  unfold handle_sepolicy. specialize (H w h). unfold try_, mbind, sys_bind.
  by destruct (handle_sepolicy_impl o child fuel w h) as [[w' h'] [a|e| |]].
Qed.

(** ** Runs *)

(** A device without split policy: selinuxfs is mounted when asked for the third time, the
    size of the policy settles after two polls. *)
Definition legacy_oracle : Oracle :=
  mkOracle
    (λ h c, match c with
            | Exists p => if bool_decide (p = SELINUX_ENFORCE) then (2 <=? count_of polls_mount h)%nat
                          else negb (bool_decide (p = bs "/system/bin/init"))
            | _ => true
            end)
    (λ _ _, []) (λ _ p, if bool_decide (p = bs "/init") then bs "x/selinux_versionx" else bs "allow a b c d")
    (λ h _, if (2 <=? count_of polls_size h)%nat then 5 else 1 + Z.of_nat (count_of polls_size h)).

Lemma hijack_ends_witness :
  init_moves legacy_oracle 2 5 ∧
  result (handle_sepolicy legacy_oracle true 4 here0 []) ≠ NoFuel ∧
  result (handle_sepolicy legacy_oracle true 4 here0 []) = Ok Exited.
Proof.
  assert (init_moves legacy_oracle 2 5) as Hi.
  { split; intros h Hh; [exact (proj2 (Nat.leb_le _ _) Hh)|].
    cbn [size_of legacy_oracle]. by rewrite (proj2 (Nat.leb_le _ _) Hh). }
  split; [exact Hi|]. split; [|vm_compute; reflexivity].
  apply (hijack_ends legacy_oracle true 4 2 5 here0 [] Hi); [discriminate|lia].
Defined.

(** A device with two-stage init where a call of the child fails. *)
Definition failing_oracle : Oracle :=
  mkOracle (λ _ c, match c with Delete _ => false | _ => true end) (λ _ _, []) (λ _ _, []) (λ _ _, 0).

(** The child that fails does not exit: like the parent it returns to the boot flow, so
    that two processes go on to become init; and init is let go on without the policy. *)
Lemma child_error_returns :
  existsb releases (handle_sepolicy failing_oracle true 0 here0 []).1.2 = true ∧
  existsb (λ c, match c with ToFile _ _ => true | _ => false end) (handle_sepolicy failing_oracle true 0 here0 []).1.2 = false ∧
  (handle_sepolicy failing_oracle true 0 here0 []).2 = Ok Returned ∧
  (handle_sepolicy failing_oracle false 0 here0 []).2 = Ok Returned ∧
  existsb (λ c, match c with Fork => true | _ => false end) (handle_sepolicy failing_oracle true 0 here0 []).1.2 = true.
Proof. by vm_compute. Qed.

(** [patch_ro_root] lays the overlay after [handle_sepolicy]: the child was forked before
    that and restores no context, whatever the overlay. *)
Definition restored (h : list SeOp) : list bytes :=
  omap (λ c, match c with SetCon p _ => Some p | _ => None end) h.

Lemma child_restores_nothing :
  restored (handle_sepolicy legacy_oracle true 4 here0 []).1.2 = [bs "/init"] ∧
  (let w := (handle_sepolicy legacy_oracle false 4 here0 []).1.1 in
   overlay_con (self (mount_overlay settled_oracle overlay_sample (bs "/") w []).1.1)).*1 =
  [bs "/init.rc"; bs "/etc/hosts"].
Proof. by vm_compute. Qed.
