(* ===== verification/Dtb.v ===== *)
(** Dtb: device trees in a boot image, [native/src/boot/dtb.rs].

    The device-tree parser is a package: [Fdts] is what the code takes from it (the
    total size, the nodes depth first, [find_node], and for each node its name,
    children and properties), with the value of a property given by its place in the
    parsed bytes, because [dtb_patch] writes through the values into the mapped file.
    [FdtsOk] is what the package documents of them.  The mapped file is a byte list,
    handed from one callback of [for_each_fdt] to the next. *)

From S2P Require Import Prelude Text Patch.

Record NodeProperty := mkProperty { prop_name : bytes; value_off : nat; value_size : nat }.
Inductive FdtNode := mkNode (name : bytes) (properties : list NodeProperty) (children : list FdtNode).

Definition node_name (n : FdtNode) : bytes := match n with mkNode name _ _ => name end.
Definition properties (n : FdtNode) : list NodeProperty := match n with mkNode _ ps _ => ps end.
Definition children (n : FdtNode) : list FdtNode := match n with mkNode _ _ cs => cs end.

Record Fdt := mkFdt {
  total_size : nat;
  all_nodes : list FdtNode;
  find_node : bytes → option FdtNode
}.

Inductive FdtError := BufferTooSmall | OtherError.

Class Fdts := Fdt_new : bytes → res FdtError Fdt.

(** [FdtNode::property]. *)
Definition property (name : bytes) (n : FdtNode) : option NodeProperty :=
  List.find (λ p, bool_decide (prop_name p = name)) (properties n).

(** ** Values in the file *)

(** The tree that starts at [base]: the value of a property, and writing it. *)
Definition value (m : bytes) (base : nat) (p : NodeProperty) : bytes :=
  take (value_size p) (drop (base + value_off p) m).

Definition write (m : bytes) (off : nat) (d : bytes) : bytes := take off m ++ d ++ drop (off + length d) m.

Fixpoint position (w s : bytes) : option nat :=
  match s with
  | [] => None
  | _ :: t => if starts_with w s then Some O else S <$> position w t
  end.

Definition MAGIC : bytes := [Byte.xd0; Byte.x0d; Byte.xfe; Byte.xed].

Section Dtb.
Context `{Fdts}.

(** ** [for_each_fdt] *)

Section ForEach.
Context {S : Type}.
(** A callback: the number of the tree, its place, the parsed tree, and the state. *)
Context (f : nat → nat → Fdt → bytes * S → (bytes * S) * LoggedResult unit).

Fixpoint for_each_loop (fuel n base : nat) (w : bytes * S) : (bytes * S) * LoggedResult unit :=
  match fuel with
  | O => (w, NoFuel)
  | Datatypes.S fuel =>
      match position MAGIC (drop base w.1) with
      | None => (w, Ok tt)
      | Some pos =>
          let base := (base + pos)%nat in
          let slice := drop base w.1 in
          if (length slice <? 40)%nat then (w, Ok tt)
          else
            match Fdt_new slice with
            | Err BufferTooSmall => (w, Ok tt)
            | Ok fdt =>
                match f n base fdt w with
                | (w, Ok _) =>
                    if (total_size fdt <=? length (drop base w.1))%nat
                    then for_each_loop fuel (Datatypes.S n) (base + total_size fdt) w
                    else (w, Panic)
                | (w, r) => (w, r)
                end
            | Err OtherError => (w, Err tt)
            | Panic => (w, Panic)
            | NoFuel => (w, NoFuel)
            end
      end
  end.

(** A file that cannot be opened is an error; one that is keeps what was written. *)
Definition for_each_fdt (file : option bytes) (s : S) : option bytes * S * LoggedResult unit :=
  match file with
  | None => (None, s, Err tt)
  | Some m => let '((m', s'), r) := for_each_loop (Datatypes.S (length m)) 0 0 (m, s) in (Some m', s', r)
  end.
End ForEach.

Definition find_fstab (fdt : Fdt) : option FdtNode :=
  List.find (λ n, bool_decide (node_name n = bs "fstab")) (all_nodes fdt).

(** ** [dtb_test] *)

Definition system_root : bytes := bs "/system_root" ++ [Byte.x00].

Fixpoint test_children (m : bytes) (base : nat) (cs : list FdtNode) (ret : bool) : bool :=
  match cs with
  | [] => ret
  | child :: cs =>
      if bool_decide (node_name child = bs "system") then
        match property (bs "mnt_point") child with
        | Some p => if bool_decide (value m base p = system_root) then false else test_children m base cs ret
        | None => test_children m base cs ret
        end
      else test_children m base cs ret
  end.

Definition dtb_test (file : option bytes) : LoggedResult bool :=
  match for_each_fdt (λ _ base fdt w,
          match find_fstab fdt with
          | Some fstab => ((w.1, test_children w.1 base (children fstab) w.2), Ok tt)
          | None => (w, Ok tt)
          end) file true with
  | (_, ret, Ok _) => Ok ret
  | (_, _, Err e) => Err e
  | (_, _, Panic) => Panic
  | (_, _, NoFuel) => NoFuel
  end.

(** ** [dtb_patch] *)

(** [dst.copy_from_slice(src)] on the [n] bytes at [off]: panics unless the lengths agree. *)
Definition copy_from_slice (m : bytes) (off n : nat) (src : bytes) : LoggedResult bytes :=
  if bool_decide (length src = n) then Ok (write m off src) else Panic.

(** The windows of [bootargs], from the [i]th on; the file and [patched]. *)
Fixpoint patch_windows (count off : nat) (w : bytes * bool) : (bytes * bool) * LoggedResult unit :=
  match count with
  | O => (w, Ok tt)
  | S count =>
      if bool_decide (take 14 (drop off w.1) = bs "skip_initramfs") then
        match copy_from_slice w.1 off 5 (bs "want") with
        | Ok m => patch_windows count (S off) (m, true)
        | Err e => (w, Err e)
        | Panic => (w, Panic)
        | NoFuel => (w, NoFuel)
        end
      else patch_windows count (S off) w
  end.

Fixpoint patch_bootargs (base : nat) (nodes : list FdtNode) (w : bytes * bool) :
    (bytes * bool) * LoggedResult unit :=
  match nodes with
  | [] => (w, Ok tt)
  | node :: nodes =>
      if bool_decide (node_name node = bs "chosen") then
        match property (bs "bootargs") node with
        | Some p =>
            match patch_windows (S (value_size p) - 14) (base + value_off p) w with
            | (w, Ok _) => patch_bootargs base nodes w
            | (w, r) => (w, r)
            end
        | None => patch_bootargs base nodes w
        end
      else patch_bootargs base nodes w
  end.

Fixpoint patch_flags (base : nat) (cs : list FdtNode) (w : bytes * bool) : (bytes * bool) * LoggedResult unit :=
  match cs with
  | [] => (w, Ok tt)
  | child :: cs =>
      match property (bs "fsmgr_flags") child with
      | Some p =>
          match patch_verity (value w.1 base p) with
          | Ok (flags, n) =>
              patch_flags base cs
                (write w.1 (base + value_off p) flags, w.2 || negb (n =? Z.of_nat (value_size p)))
          | Err e => (w, Err e)
          | Panic => (w, Panic)
          | NoFuel => (w, NoFuel)
          end
      | None => patch_flags base cs w
      end
  end.

Definition patch_fdt (keep_verity : bool) (n base : nat) (fdt : Fdt) (w : bytes * bool) :
    (bytes * bool) * LoggedResult unit :=
  match patch_bootargs base (all_nodes fdt) w with
  | (w, Ok _) =>
      if keep_verity then (w, Ok tt)
      else match find_fstab fdt with
           | Some fstab => patch_flags base (children fstab) w
           | None => (w, Ok tt)
           end
  | (w, r) => (w, r)
  end.

Definition dtb_patch (keep_verity : bool) (file : option bytes) : option bytes * LoggedResult bool :=
  let '(file, patched, r) := for_each_fdt (patch_fdt keep_verity) file false in
  (file, _ ← r; Ok patched).

(** ** [dtb_print] *)

Definition MAX_PRINT_LEN : nat := 32.

Definition tree_prefix (mid_last mid end_last end_ : bytes) : list bool → bytes :=
  fix go depth_set :=
    match depth_set with
    | [] => []
    | depth :: rest =>
        (if depth : bool
         then if nonempty_list rest then mid else mid_last
         else if nonempty_list rest then end_ else end_last) ++ go rest
    end.

Definition pretty_node : list bool → bytes :=
  tree_prefix (bs "├── ") (bs "│   ") (bs "└── ") (bs "    ").
Definition pretty_prop : list bool → bytes :=
  tree_prefix (bs "│  ") (bs "│   ") (bs "└─ ") (bs "    ").

Definition is_str (v : bytes) : bool :=
  negb ((1 <? length v)%nat && bool_decide (head v = Some Byte.x00)) &&
  match last v with Some b => bool_decide (b = Byte.x00) | None => true end &&
  forallb (λ c, bool_decide (c = Byte.x00) || ((32 <=? u8 c) && (u8 c <? 127))) v.

(** [{value:02x?}]. *)
Definition fmt_bytes (v : bytes) : bytes := bs "[" ++ join (bs ", ") (map (λ b, hex_fixed false 2 (u8 b)) v) ++ bs "]".

Definition dquote : bytes := [Byte.x22].

(** What is printed for a property, behind the prefix. *)
Definition print_value (name v : bytes) : bytes :=
  bs "[" ++ name ++ bs "]: " ++
  (if is_str v then bs "[" ++ dquote ++ removelast v ++ dquote ++ bs "]"
   else if (MAX_PRINT_LEN <? length v)%nat then bs "<bytes>(" ++ fmt_dec (Z.of_nat (length v)) ++ bs ")"
   else fmt_bytes v).

(** The properties below [depth_set ++ [more]]: what is printed, and [more] after it. *)
Fixpoint print_props (m : bytes) (base : nat) (has_children : bool) (depth_set : list bool) (more : bool)
    (ps : list NodeProperty) : list bytes * bool :=
  match ps with
  | [] => ([], more)
  | p :: ps =>
      let more := more && negb (negb (nonempty_list ps) && negb has_children) in
      let line := pretty_prop (depth_set ++ [more]) ++ print_value (prop_name p) (value m base p) in
      let '(lines, more) := print_props m base has_children depth_set more ps in
      (line :: lines, more)
  end.

(** The lines printed for a node. *)
Fixpoint do_print_node (m : bytes) (base : nat) (depth_set : list bool) (n : FdtNode) : list bytes :=
  match n with
  | mkNode name ps cs =>
      let '(lines, more) := print_props m base (nonempty_list cs) depth_set true ps in
      (pretty_node depth_set ++ name) :: lines ++
      (fix go (more : bool) (cs : list FdtNode) : list bytes :=
         match cs with
         | [] => []
         | child :: cs =>
             let more := more && nonempty_list cs in
             do_print_node m base (depth_set ++ [more]) child ++ go more cs
         end) more cs
  end.

Definition print_node (m : bytes) (base : nat) (n : FdtNode) : bytes :=
  flat_map (λ l, l ++ [LF]) (do_print_node m base [] n).

Definition with_name (name : bytes) (n : FdtNode) : FdtNode := mkNode name (properties n) (children n).

(** The bytes printed to the standard output. *)
Definition dtb_print (file : option bytes) (fstab : bool) : bytes * LoggedResult unit :=
  let '(_, out, r) := for_each_fdt (λ _ base fdt w,
    if fstab then
      match find_fstab fdt with
      | Some fstab => ((w.1, w.2 ++ print_node w.1 base fstab), Ok tt)
      | None => (w, Ok tt)
      end
    else
      match find_node fdt (bs "/") with
      | Some root =>
          let root := if bool_decide (node_name root = []) then with_name (bs "/") root else root in
          ((w.1, w.2 ++ print_node w.1 base root), Ok tt)
      | None => (w, Ok tt)
      end) file [] in
  (out, r).

(** ** [dtb_commands] *)

Inductive DtbAction := Print (fstab : bool) | Patch | Test.

(** The file afterwards, what is printed, and the result. *)
Definition dtb_commands (keep_verity : bool) (file : option bytes) (action : DtbAction) :
    option bytes * bytes * LoggedResult bool :=
  match action with
  | Print fstab => let '(out, r) := dtb_print file fstab in (file, out, _ ← r; Ok true)
  | Test => (file, [], dtb_test file)
  | Patch => let '(file, r) := dtb_patch keep_verity file in (file, [], r)
  end.
End Dtb.

(** ** What the package documents *)

Definition apart (p q : nat * nat) : Prop := (p.1 + p.2 ≤ q.1 ∨ q.1 + q.2 ≤ p.1)%nat.

(** The place of a value in the file. *)
Definition place (base : nat) (p : NodeProperty) : nat * nat := ((base + value_off p)%nat, value_size p).

(** The values [dtb_patch] strips, in order. *)
Definition flag_values (t : Fdt) : list NodeProperty :=
  match find_fstab t with
  | Some fstab => omap (property (bs "fsmgr_flags")) (children fstab)
  | None => []
  end.

Class FdtsOk `{Fdts} : Prop := {
  fdt_returns : ∀ s, (∃ t, Fdt_new s = Ok t) ∨ ∃ e, Fdt_new s = Err e;
  fdt_fits : ∀ s t, Fdt_new s = Ok t → (total_size t ≤ length s)%nat;
  fdt_inside : ∀ s t n p, Fdt_new s = Ok t →
    n ∈ all_nodes t ∨ (∃ o, o ∈ all_nodes t ∧ n ∈ children o) → p ∈ properties n →
    (value_off p + value_size p ≤ total_size t)%nat;
  fdt_apart : ∀ s t, Fdt_new s = Ok t →
    ForallOrdPairs (λ p q, apart (place 0 p) (place 0 q)) (flag_values t)
}.

(** ** The trees of a file *)

Section Trees.
Context `{FdtsOk}.

Fixpoint scan (fuel base : nat) (m : bytes) : list (nat * Fdt) * LoggedResult unit :=
  match fuel with
  | O => ([], NoFuel)
  | S fuel =>
      match position MAGIC (drop base m) with
      | None => ([], Ok tt)
      | Some pos =>
          let base := (base + pos)%nat in
          if (length (drop base m) <? 40)%nat then ([], Ok tt)
          else
            match Fdt_new (drop base m) with
            | Err BufferTooSmall => ([], Ok tt)
            | Ok t => let '(l, r) := scan fuel (base + total_size t) m in ((base, t) :: l, r)
            | _ => ([], Err tt)
            end
      end
  end.

(** The trees that are visited, and how the search ends. *)
Definition trees (m : bytes) : list (nat * Fdt) * LoggedResult unit := scan (S (length m)) 0 m.

(** Every tree is parsed where it lies, and they lie one behind the other. *)
Fixpoint chain (base : nat) (m : bytes) (l : list (nat * Fdt)) : Prop :=
  match l with
  | [] => True
  | (b, t) :: l =>
      (base ≤ b)%nat ∧ Fdt_new (drop b m) = Ok t ∧ (b + total_size t ≤ length m)%nat ∧ chain (b + total_size t) m l
  end.

Lemma drop_deeper (m m' : bytes) b c : (b ≤ c)%nat → drop b m = drop b m' → drop c m = drop c m'.
Proof.
  intros Hb Hd. replace c with (b + (c - b))%nat by lia. by rewrite <- !drop_drop, Hd.
Qed.

Lemma scan_drop fuel base m m' : drop base m = drop base m' → scan fuel base m = scan fuel base m'.
Proof.
  revert base. induction fuel as [|fuel IH]; intros base Hd; [done|]. cbn [scan]. rewrite Hd.
  destruct (position MAGIC (drop base m')) as [pos|]; [|done]. cbv zeta.
  rewrite (drop_deeper m m' base (base + pos)) by (done || lia).
  destruct (_ <? _)%nat; [done|]. destruct (Fdt_new (drop (base + pos) m')) as [t|[]| |]; try done.
  rewrite IH; [done|]. apply (drop_deeper _ _ base); [lia|done].
Qed.

Lemma position_lt w s n : position w s = Some n → (n < length s)%nat.
Proof.
  revert n. induction s as [|c s IH]; intros n; cbn [position length]; [done|].
  destruct (starts_with w (c :: s)); [intros; simplify_eq; lia|].
  destruct (position w s) as [k|]; [|done]. intros [= <-]. specialize (IH k eq_refl). lia.
Qed.

Lemma chain_mono b c m l : (b ≤ c)%nat → chain c m l → chain b m l.
Proof. intros Hbc. destruct l as [|[d t] l]; [done|]. cbn. intros (? & ? & ? & ?). split_and!; [lia|done..]. Qed.

Lemma scan_chain fuel base m : chain base m (scan fuel base m).1.
Proof.
  revert base. induction fuel as [|fuel IH]; intros base; [done|]. cbn [scan].
  destruct (position MAGIC (drop base m)) as [pos|] eqn:Hp; [|done]. cbv zeta.
  destruct (_ <? _)%nat; [done|]. destruct (Fdt_new (drop (base + pos) m)) as [t|[]| |] eqn:E; try done.
  specialize (IH (base + pos + total_size t)%nat).
  destruct (scan fuel (base + pos + total_size t) m) as [l r]. cbn [fst chain] in *.
  pose proof (fdt_fits _ _ E) as Hf. rewrite length_drop in Hf.
  apply position_lt in Hp. rewrite length_drop in Hp. split_and!; [lia|done|lia|done].
Qed.

(** Where every tree has a size, the search ends. *)
Lemma scan_ends fuel base m : (∀ s t, Fdt_new s = Ok t → (0 < total_size t)%nat) →
  (length m - base < fuel)%nat → (scan fuel base m).2 = Ok tt ∨ (scan fuel base m).2 = Err tt.
Proof.
  intros Hpos. revert base. induction fuel as [|fuel IH]; intros base Hf; [lia|]. cbn [scan].
  destruct (position MAGIC (drop base m)) as [pos|] eqn:Hp; [|by left]. cbv zeta.
  destruct (_ <? _)%nat; [by left|].
  destruct (Fdt_new (drop (base + pos) m)) as [t|[]| |] eqn:E; try by (left + right).
  specialize (IH (base + pos + total_size t)%nat). specialize (Hpos _ _ E).
  apply position_lt in Hp. rewrite length_drop in Hp.
  destruct (scan fuel (base + pos + total_size t) m) as [l r]. cbn [snd] in *. apply IH. lia.
Qed.

(** A callback writes only in the tree it is given. *)
Definition writes_inside {S} (f : nat → nat → Fdt → bytes * S → (bytes * S) * LoggedResult unit) : Prop :=
  ∀ n b t w, Fdt_new (drop b w.1) = Ok t → (b + total_size t ≤ length w.1)%nat →
    length (f n b t w).1.1 = length w.1 ∧
    drop (b + total_size t) (f n b t w).1.1 = drop (b + total_size t) w.1.

Fixpoint run_all {S} (f : nat → nat → Fdt → bytes * S → (bytes * S) * LoggedResult unit)
    (n : nat) (l : list (nat * Fdt)) (w : bytes * S) : (bytes * S) * LoggedResult unit :=
  match l with
  | [] => (w, Ok tt)
  | (b, t) :: l =>
      match f n b t w with
      | (w, Ok _) => run_all f (Datatypes.S n) l w
      | (w, r) => (w, r)
      end
  end.

(** The result of a search whose callbacks gave [x]. *)
Definition then_end {W} (x : W * LoggedResult unit) (r : LoggedResult unit) : W * LoggedResult unit :=
  match x with (w, Ok _) => (w, r) | x => x end.

Lemma for_each_scan {S} (f : nat → nat → Fdt → bytes * S → (bytes * S) * LoggedResult unit) fuel n base w :
  writes_inside f →
  for_each_loop f fuel n base w = then_end (run_all f n (scan fuel base w.1).1 w) (scan fuel base w.1).2.
Proof.
  intros Hf. revert n base w. induction fuel as [|fuel IH]; intros n base w; [by cbn|]. cbn [for_each_loop scan].
  destruct (position MAGIC (drop base w.1)) as [pos|] eqn:Hp; [|by cbn]. cbv zeta.
  destruct (_ <? _)%nat; [by cbn|].
  destruct (Fdt_new (drop (base + pos) w.1)) as [t|[]| |] eqn:E;
    [|by cbn|by cbn|by destruct (fdt_returns (drop (base + pos) w.1)) as [[? ?]|[? ?]]; congruence..].
  pose proof (fdt_fits _ _ E) as Hfit. apply position_lt in Hp. rewrite !length_drop in *.
  destruct (Hf n (base + pos)%nat t w E) as [Hl Hd]; [lia|].
  destruct (scan fuel (base + pos + total_size t) w.1) as [l r] eqn:Es. cbn [fst snd run_all].
  destruct (f n (base + pos)%nat t w) as [w' [[]|[]| |]]; cbn [fst] in *; [|by cbn..].
  rewrite !length_drop in *.
  replace (total_size t <=? length w'.1 - (base + pos))%nat with true by (symmetry; apply Nat.leb_le; lia).
  rewrite IH, (scan_drop fuel _ w'.1 w.1 Hd), Es. done.
Qed.
End Trees.

(** ** What [dtb_patch] does to a file *)

(** A flag that still holds for the image to boot with an initramfs. *)
Definition SKIP : bytes := bs "skip_initramfs".

Definition has_skip (m : bytes) (base : nat) (t : Fdt) : bool :=
  existsb (λ n, bool_decide (node_name n = bs "chosen") &&
    match property (bs "bootargs") n with
    | Some p => bool_decide (is_Some (position SKIP (value m base p)))
    | None => false
    end) (all_nodes t).

(** The values at some places stripped one after the other, and whether one matched. *)
Fixpoint strip_places (l : list (nat * nat)) (w : bytes * bool) : (bytes * bool) * LoggedResult unit :=
  match l with
  | [] => (w, Ok tt)
  | (off, n) :: l =>
      match patch_verity (take n (drop off w.1)) with
      | Ok (flags, k) => strip_places l (write w.1 off flags, w.2 || negb (k =? Z.of_nat n))
      | Err e => (w, Err e)
      | Panic => (w, Panic)
      | NoFuel => (w, NoFuel)
      end
  end.

Definition flag_places (b : nat * Fdt) : list (nat * nat) := place b.1 <$> flag_values b.2.

Lemma starts_with_take (p s : bytes) : starts_with p s = bool_decide (take (length p) s = p).
Proof.
  apply Bool.eq_true_iff_eq. rewrite starts_with_spec, bool_decide_eq_true. split.
  - intros [r ->]. by rewrite take_app_length.
  - intros E. exists (drop (length p) s). by rewrite <- E at 1; rewrite take_drop.
Qed.

Lemma position_short w s : (length s < length w)%nat → position w s = None.
Proof.
  induction s as [|c s IH]; cbn [position length]; [done|]. intros Hl.
  rewrite starts_with_take, bool_decide_false, IH; [done|lia|].
  intros E. apply (f_equal length) in E. rewrite length_take in E. cbn [length] in E. lia.
Qed.

Lemma patch_windows_eq v off w : take (length v) (drop off w.1) = v →
  patch_windows (S (length v) - 14) off w = (w, if bool_decide (is_Some (position SKIP v)) then Panic else Ok tt).
Proof.
  revert off. induction v as [|x v IH]; intros off Hv; [done|].
  destruct (decide (length (x :: v) < 14)%nat) as [Hs|Hs].
  { rewrite (position_short SKIP) by exact Hs. replace (S (length (x :: v)) - 14)%nat with O by lia. done. }
  cbn [length] in *. replace (S (S (length v)) - 14)%nat with (S (S (length v) - 14)) by lia.
  cbn [patch_windows position]. rewrite starts_with_take.
  change (length SKIP) with 14%nat. fold SKIP.
  assert (Ht : take 14 (drop off w.1) = take 14 (x :: v)).
  { rewrite <- Hv, take_take. f_equal. lia. }
  rewrite Ht. destruct (decide (take 14 (x :: v) = SKIP)) as [E|E].
  - rewrite (bool_decide_true (_ = SKIP)) by done. rewrite bool_decide_true by eauto. done.
  - rewrite (bool_decide_false (_ = SKIP)) by done. rewrite IH.
    + by destruct (position SKIP v).
    + destruct (drop off w.1) as [|y d] eqn:Ed; [done|]. cbn [take] in Hv. injection Hv as _ Hv.
      replace (S off) with (off + 1)%nat by lia. by rewrite <- drop_drop, Ed.
Qed.

Section Patch.
Context `{FdtsOk}.

Lemma property_elem name n p : property name n = Some p → p ∈ properties n.
Proof. intros E. apply find_some in E as [E _]. by apply list_elem_of_In. Qed.

Lemma length_value m b t p : (b + total_size t ≤ length m)%nat → (value_off p + value_size p ≤ total_size t)%nat →
  length (value m b p) = value_size p.
Proof. intros. unfold value. rewrite length_take, length_drop. lia. Qed.

Lemma patch_bootargs_eq b t w : Fdt_new (drop b w.1) = Ok t → (b + total_size t ≤ length w.1)%nat →
  patch_bootargs b (all_nodes t) w = (w, if has_skip w.1 b t then Panic else Ok tt).
Proof.
  intros E Hlen. unfold has_skip.
  assert (Hin : ∀ n, n ∈ all_nodes t → n ∈ all_nodes t) by done.
  revert Hin. generalize (all_nodes t) at 1 3 4 as nodes. intros nodes Hin.
  induction nodes as [|n nodes IH]; [done|]. cbn [patch_bootargs existsb].
  assert (IH' := IH ltac:(intros; apply Hin; by right)). clear IH.
  case_bool_decide as Hn; cbn [andb orb]; [|exact IH'].
  destruct (property (bs "bootargs") n) as [p|] eqn:Ep; [|exact IH'].
  pose proof (fdt_inside _ _ n p E (or_introl (Hin n ltac:(by left))) (property_elem _ _ _ Ep)) as Hp.
  pose proof (length_value w.1 b t p Hlen Hp) as Hv.
  rewrite <- Hv. rewrite (patch_windows_eq (value w.1 b p)) by (by rewrite Hv).
  case_bool_decide; [done|]. exact IH'.
Qed.

Definition region (m : bytes) (p : nat * nat) : bytes := take p.2 (drop p.1 m).

Lemma patch_flags_eq b cs w :
  patch_flags b cs w = strip_places (place b <$> omap (property (bs "fsmgr_flags")) cs) w.
Proof.
  revert w. induction cs as [|c cs IH]; intros w; [done|].
  change (omap (property (bs "fsmgr_flags")) (c :: cs)) with
    (match property (bs "fsmgr_flags") c with
     | Some p => p :: omap (property (bs "fsmgr_flags")) cs
     | None => omap (property (bs "fsmgr_flags")) cs end).
  cbn [patch_flags]. destruct (property (bs "fsmgr_flags") c) as [p|]; [|apply IH].
  cbn [fmap list_fmap place strip_places]. unfold value.
  destruct (patch_verity _) as [[flags k]| | |]; [apply IH|done..].
Qed.

Lemma patch_fdt_eq n b t w : Fdt_new (drop b w.1) = Ok t → (b + total_size t ≤ length w.1)%nat →
  patch_fdt false n b t w = if has_skip w.1 b t then (w, Panic) else strip_places (flag_places (b, t)) w.
Proof.
  intros E Hlen. unfold patch_fdt. rewrite (patch_bootargs_eq b t w E Hlen).
  destruct (has_skip w.1 b t); [done|]. unfold flag_places, flag_values. cbn [fst snd].
  destruct (find_fstab t); [apply patch_flags_eq|done].
Qed.

(** A value with a verity flag somewhere. *)
Definition has_verity (v : bytes) : bool :=
  existsb (λ i, bool_decide (is_Some (match_verity_pattern (drop i v)))) (seq 0 (length v)).

Lemma patch_verity_value v : ∃ t, stripped match_verity_pattern v t ∧ (length t ≤ length v)%nat ∧
  patch_verity v = Ok (t ++ zeros (len v - len t), len t) ∧
  negb (len t =? Z.of_nat (length v)) = has_verity v.
Proof.
  destruct (remove_pattern_spec match_verity_pattern v) as (t & Ht & Hl & E); [auto with magisk|].
  exists t. split_and!; [done..|]. pose proof (stripped_same_length _ _ _ match_verity_ok Ht) as Hs.
  apply Bool.eq_iff_eq_true. unfold has_verity. rewrite existsb_exists, negb_true_iff, Z.eqb_neq. split.
  - intros Hne. assert (Hn : length t ≠ length v) by (unfold len in Hne; lia).
    destruct (decide (Forall (λ i, match_verity_pattern (drop i v) = None) (seq 0 (length v)))) as [Hall|Hex].
    + destruct Hn. apply Hs. intros i Hi. rewrite Forall_forall in Hall. apply Hall, elem_of_seq. lia.
    + apply not_Forall_Exists, Exists_exists in Hex as (i & Hi & Hm); [|intros; apply _].
      exists i. split; [by apply list_elem_of_In|]. apply bool_decide_eq_true. by apply not_eq_None_Some.
  - intros (i & Hi & Hm) Hne. apply bool_decide_eq_true in Hm as [k Hk]. apply list_elem_of_In, elem_of_seq in Hi.
    assert (He : length t = length v) by (unfold len in Hne; lia). rewrite (proj1 Hs He) in Hk; [done|lia].
Qed.

Lemma length_write m off d : (off + length d ≤ length m)%nat → length (write m off d) = length m.
Proof. intros. unfold write. rewrite !length_app, length_take, length_drop. lia. Qed.

Lemma lookup_write_ne m off d i : (off + length d ≤ length m)%nat →
  (i < off)%nat ∨ (off + length d ≤ i)%nat → write m off d !! i = m !! i.
Proof.
  intros Hl Hi. unfold write. destruct Hi as [Hi|Hi].
  - rewrite lookup_app_l by (rewrite length_take; lia). by rewrite lookup_take_lt.
  - rewrite lookup_app_r by (rewrite length_take; lia). rewrite length_take, Nat.min_l by lia.
    rewrite lookup_app_r by lia. rewrite lookup_drop. f_equal. lia.
Qed.

Lemma overwritten_region m p d : length d = p.2 → (p.1 + p.2 ≤ length m)%nat → region (write m p.1 d) p = d.
Proof.
  intros Hd Hl. unfold region, write. rewrite drop_app_length' by (rewrite length_take; lia).
  by rewrite <- Hd, take_app_length.
Qed.

(** Regions that agree byte by byte. *)
Lemma region_ext m m' p : (∀ i, (p.1 ≤ i < p.1 + p.2)%nat → m !! i = m' !! i) → region m p = region m' p.
Proof.
  intros Hi. apply list_eq. intros i. unfold region.
  destruct (decide (i < p.2)%nat); [|by rewrite !lookup_take_ge by lia].
  rewrite !lookup_take_lt, !lookup_drop by lia. apply Hi. lia.
Qed.

Lemma drop_ext (m m' : bytes) k : (∀ i, (k ≤ i)%nat → m !! i = m' !! i) → drop k m = drop k m'.
Proof. intros Hi. apply list_eq. intros i. rewrite !lookup_drop. apply Hi. lia. Qed.

(** Places in the file, each apart from the others: every value is stripped, and no
    byte outside them changes. *)
Lemma strip_places_spec l m pd : Forall (λ p, (p.1 + p.2 ≤ length m)%nat) l → ForallOrdPairs apart l →
  ∃ m', strip_places l (m, pd) = ((m', pd || existsb (λ p, has_verity (region m p)) l), Ok tt) ∧
    length m' = length m ∧
    (∀ i, (∀ p, p ∈ l → (i < p.1 ∨ p.1 + p.2 ≤ i)%nat) → m' !! i = m !! i) ∧
    (∀ p, p ∈ l → ∃ t, stripped match_verity_pattern (region m p) t ∧
      region m' p = t ++ zeros (len (region m p) - len t)).
Proof.
  revert m pd. induction l as [|[off n] l IH]; intros m pd Hin Hap.
  { exists m. cbn. rewrite orb_false_r. split_and!; try done. intros p Hp%not_elem_of_nil. done. }
  inversion Hin as [|? ? Hb Hin']; subst. inversion Hap as [|? ? Ha Hap']; subst. cbn [fst snd] in *.
  destruct (patch_verity_value (take n (drop off m))) as (t & Ht & Htl & E & Ef).
  assert (Hvl : length (take n (drop off m)) = n) by (rewrite length_take, length_drop; lia).
  set (d := t ++ zeros (len (take n (drop off m)) - len t)).
  assert (Hd : length d = n).
  { unfold d, zeros, len. rewrite length_app, length_replicate. lia. }
  assert (Hkeep : ∀ i, (i < off ∨ off + n ≤ i)%nat → write m off d !! i = m !! i)
    by (intros; apply lookup_write_ne; lia).
  assert (Hreg : ∀ q, q ∈ l → region (write m off d) q = region m q).
  { intros q Hq. rewrite Forall_forall in Ha. specialize (Ha q Hq). unfold apart in Ha. cbn in Ha.
    apply region_ext. intros i Hi. apply Hkeep. lia. }
  destruct (IH (write m off d) (pd || negb (len t =? Z.of_nat n))) as (m' & Es & Hl & Hout & Hval).
  { eapply Forall_impl; [exact Hin'|]. intros q Hq. by rewrite length_write by lia. }
  { done. }
  exists m'. cbn [strip_places fst snd]. rewrite E. fold d. rewrite Es. split_and!.
  - cbn [existsb]. rewrite <- orb_assoc. do 3 f_equal. f_equal.
    + rewrite Hvl in Ef. unfold region. cbn [fst snd]. by rewrite <- Ef.
    + clear -Hreg. induction l as [|q l IHl]; [done|]. cbn [existsb]. rewrite Hreg by (by left).
      f_equal. apply IHl. intros; apply Hreg. by right.
  - by rewrite Hl, length_write by lia.
  - intros i Hi. rewrite Hout by (intros q Hq; apply Hi; by right). apply Hkeep.
    apply (Hi (off, n)). by left.
  - intros q Hq. apply elem_of_cons in Hq as [->|Hq].
    + exists t. split; [exact Ht|]. fold d. transitivity (region (write m off d) (off, n));
        [|apply (overwritten_region m (off, n)); [exact Hd|exact Hb]].
      apply region_ext. cbn [fst snd]. intros i Hi. apply Hout. intros q Hq.
      rewrite Forall_forall in Ha. specialize (Ha q Hq). unfold apart in Ha. cbn in Ha. lia.
    + destruct (Hval q Hq) as (t' & Ht' & Er). rewrite Hreg in * by done. eauto.
Qed.

Lemma strip_places_app l k w : strip_places (l ++ k) w =
  match strip_places l w with (w, Ok _) => strip_places k w | x => x end.
Proof.
  revert w. induction l as [|[off n] l IH]; intros w; [by destruct w|]. cbn [app strip_places].
  destruct (patch_verity _) as [[flags k']| | |]; [apply IH|done..].
Qed.

Lemma flag_values_inside s t p : Fdt_new s = Ok t → p ∈ flag_values t →
  (value_off p + value_size p ≤ total_size t)%nat.
Proof.
  intros E. unfold flag_values, find_fstab. destruct (List.find _ _) as [fstab|] eqn:Ef; [|by intros ?%not_elem_of_nil].
  apply find_some in Ef as [Ef _]. apply list_elem_of_In in Ef.
  intros (c & Hc & Hp)%list_elem_of_omap. apply (fdt_inside s t c p E); [right; eauto|].
  by eapply property_elem.
Qed.

Lemma flag_places_inside b t m p : Fdt_new (drop b m) = Ok t → p ∈ flag_places (b, t) →
  (b ≤ p.1 ∧ p.1 + p.2 ≤ b + total_size t)%nat.
Proof.
  intros E (q & -> & Hq)%list_elem_of_fmap. pose proof (flag_values_inside _ _ _ E Hq). cbn. lia.
Qed.

Lemma flag_places_apart b t m : Fdt_new (drop b m) = Ok t → ForallOrdPairs apart (flag_places (b, t)).
Proof.
  intros E. pose proof (fdt_apart _ _ E) as Ha. unfold flag_places. cbn [fst snd].
  induction Ha as [|p l Hp Ha IH]; [constructor|]. cbn. constructor; [|exact IH].
  apply Forall_fmap. eapply Forall_impl; [exact Hp|]. intros q Hq. unfold apart, place, compose in *. cbn in *. lia.
Qed.

(** What one tree's callback keeps. *)
Lemma strip_tree b t m pd : Fdt_new (drop b m) = Ok t → (b + total_size t ≤ length m)%nat →
  ∃ m' pd', strip_places (flag_places (b, t)) (m, pd) = ((m', pd'), Ok tt) ∧ length m' = length m ∧
    drop (b + total_size t) m' = drop (b + total_size t) m.
Proof.
  intros E Hl. destruct (strip_places_spec (flag_places (b, t)) m pd) as (m' & Es & Hlen & Hout & _).
  - apply Forall_forall. intros p Hp%(flag_places_inside b t m p E). lia.
  - by eapply flag_places_apart.
  - eexists _, _. split_and!; [exact Es|done|]. apply drop_ext. intros i Hi. apply Hout.
    intros p Hp%(flag_places_inside b t m p E). lia.
Qed.

Lemma patch_writes_inside : writes_inside (patch_fdt false).
Proof.
  intros n b t [m pd] E Hb. cbn [fst] in *.
  rewrite (patch_fdt_eq n b t (m, pd) E Hb). cbn [fst]. destruct (has_skip m b t); [done|].
  destruct (strip_tree b t m pd E Hb) as (m' & pd' & -> & ? & ?). done.
Qed.
End Patch.

Section Whole.
Context `{FdtsOk}.

Lemma has_skip_drop m m' b t : drop b m = drop b m' → has_skip m b t = has_skip m' b t.
Proof.
  intros Hd. unfold has_skip. induction (all_nodes t) as [|n l IH]; [done|]. cbn [existsb]. rewrite IH.
  destruct (property _ n) as [p|]; [|done]. unfold value.
  by rewrite (drop_deeper m m' b (b + value_off p)) by (done || lia).
Qed.

Lemma region_drop m m' b p : (b ≤ p.1)%nat → drop b m = drop b m' → region m p = region m' p.
Proof. intros Hb Hd. unfold region. by rewrite (drop_deeper m m' b p.1 Hb Hd). Qed.

Lemma run_patch l n base m w : chain base m l → length w.1 = length m → drop base w.1 = drop base m →
  if existsb (λ b, has_skip m b.1 b.2) l then (run_all (patch_fdt false) n l w).2 = Panic
  else run_all (patch_fdt false) n l w = strip_places (flat_map flag_places l) w.
Proof.
  revert n base w. induction l as [|[b t] l IH]; intros n base [m1 pd] Hc Hl Hd; [done|].
  cbn [chain existsb run_all flat_map fst snd] in *. destruct Hc as (Hb & E & Hfit & Hc).
  assert (Hdb : drop b m1 = drop b m) by (by apply (drop_deeper _ _ base)).
  rewrite <- Hdb in E. rewrite (patch_fdt_eq n b t (m1, pd)) by (cbn [fst]; (done || lia)). cbn [fst].
  rewrite (has_skip_drop m1 m b t Hdb). destruct (has_skip m b t); cbn [orb]; [done|].
  destruct (strip_tree b t m1 pd E) as (m2 & pd2 & Es & Hl2 & Hd2); [lia|]. rewrite Es.
  specialize (IH (Datatypes.S n) (b + total_size t)%nat (m2, pd2) Hc). cbn [fst] in IH.
  rewrite strip_places_app, Es. apply IH; [lia|]. rewrite Hd2. apply (drop_deeper _ _ b); [lia|done].
Qed.

Lemma chain_places l base m : chain base m l →
  Forall (λ p, (base ≤ p.1 ∧ p.1 + p.2 ≤ length m)%nat) (flat_map flag_places l) ∧
  ForallOrdPairs apart (flat_map flag_places l).
Proof.
  revert base. induction l as [|[b t] l IH]; intros base Hc; [split; constructor|].
  cbn [chain flat_map] in *. destruct Hc as (Hb & E & Hfit & Hc). destruct (IH _ Hc) as [Hin Hap].
  assert (Hi : Forall (λ p, (b ≤ p.1 ∧ p.1 + p.2 ≤ b + total_size t)%nat) (flag_places (b, t))).
  { apply Forall_forall. intros p. by apply (flag_places_inside b t m). }
  split.
  - apply Forall_app. split; (eapply Forall_impl; [eassumption|]); intros p Hp; cbn in *; lia.
  - pose proof (flag_places_apart b t m E) as Ha. induction Ha as [|p k Hp Ha IHk]; [done|].
    inversion Hi as [|? ? Hpi Hi']; subst. cbn [app]. constructor; [|by apply IHk].
    apply Forall_app. split; [done|]. eapply Forall_impl; [exact Hin|]. intros q Hq. unfold apart. cbn in Hq. lia.
Qed.

(** C32: patching a file of device trees, for any parser that keeps its contract and
    gives every tree a size: the search ends; if some [bootargs] of a [chosen] node
    holds [skip_initramfs] the program panics (five bytes are to be replaced by four);
    otherwise exactly the [fsmgr_flags] of the fstab entries of the trees change, each
    to what stripping its verity flags leaves, filled with zeros, no other byte of the
    file changes, and the answer says whether some value had such a flag. *)
Theorem dtb_patch_file m : (∀ s t, Fdt_new s = Ok t → (0 < total_size t)%nat) →
  let '(l, r) := trees m in
  let places := flat_map flag_places l in
  (r = Ok tt ∨ r = Err tt) ∧
  if existsb (λ b, has_skip m b.1 b.2) l then (dtb_patch false (Some m)).2 = Panic
  else ∃ m', dtb_patch false (Some m) = (Some m', _ ← r; Ok (existsb (λ p, has_verity (region m p)) places)) ∧
    length m' = length m ∧
    (∀ i, (∀ p, p ∈ places → (i < p.1 ∨ p.1 + p.2 ≤ i)%nat) → m' !! i = m !! i) ∧
    (∀ p, p ∈ places → ∃ t, stripped match_verity_pattern (region m p) t ∧
      region m' p = t ++ zeros (len (region m p) - len t)).
Proof.
  intros Hpos. pose proof (scan_ends (S (length m)) 0 m Hpos ltac:(lia)) as Hr.
  pose proof (scan_chain (S (length m)) 0 m) as Hc. unfold trees, dtb_patch, for_each_fdt.
  rewrite (for_each_scan (patch_fdt false) _ _ _ (m, false) patch_writes_inside). cbn [fst] in *.
  destruct (scan (S (length m)) 0 m) as [l r]. cbn [fst snd] in *. split; [exact Hr|].
  pose proof (run_patch l 0 0 m (m, false) Hc eq_refl eq_refl) as Hrun.
  destruct (existsb _ l).
  - destruct (run_all _ _ l _) as [[m' pd] e]. cbn [snd] in Hrun. subst e. done.
  - rewrite Hrun. destruct (chain_places l 0 m Hc) as [Hin Hap].
    destruct (strip_places_spec (flat_map flag_places l) m false) as (m' & Es & Hl & Hout & Hval).
    { eapply Forall_impl; [exact Hin|]. intros p Hp. cbn in Hp. lia. }
    { done. }
    exists m'. rewrite Es. by destruct Hr as [-> | ->].
Qed.

(** ** The answer of [dtb_test] *)

Definition system_as_root (m : bytes) (b : nat * Fdt) : bool :=
  match find_fstab b.2 with
  | Some fstab =>
      existsb (λ c, bool_decide (node_name c = bs "system") &&
        match property (bs "mnt_point") c with
        | Some p => bool_decide (value m b.1 p = system_root)
        | None => false
        end) (children fstab)
  | None => false
  end.

Lemma test_children_eq m b cs ret : test_children m b cs ret = ret && negb (existsb (λ c,
  bool_decide (node_name c = bs "system") &&
  match property (bs "mnt_point") c with
  | Some p => bool_decide (value m b p = system_root)
  | None => false
  end) cs).
Proof.
  induction cs as [|c cs IH]; cbn [test_children existsb]; [by destruct ret|].
  case_bool_decide; cbn [andb orb]; [|exact IH]. destruct (property _ c) as [p|]; [|exact IH].
  case_bool_decide; [by rewrite andb_false_r|exact IH].
Qed.

(** [dtb_test] answers whether no tree mounts its system partition at [/system_root]. *)
Theorem dtb_test_file m :
  dtb_test (Some m) = (_ ← (trees m).2; Ok (negb (existsb (system_as_root m) (trees m).1))).
Proof.
  unfold dtb_test, for_each_fdt, trees. set (f := λ _ base fdt w, _).
  assert (Hf : writes_inside f).
  { intros n b t w E Hb. unfold f. by destruct (find_fstab t). }
  rewrite (for_each_scan f _ _ _ (m, true) Hf). cbn [fst].
  destruct (scan (S (length m)) 0 m) as [l r]. cbn [fst snd].
  assert (Hrun : ∀ n ret, run_all f n l (m, ret) = ((m, ret && negb (existsb (system_as_root m) l)), Ok tt)).
  { induction l as [|[b t] l IH]; intros n ret; [by cbn; rewrite andb_true_r|]. cbn [run_all existsb].
    unfold f at 1, system_as_root at 1. cbn [fst snd]. destruct (find_fstab t) as [fstab|]; [|apply IH].
    rewrite IH, test_children_eq, negb_orb, andb_assoc. done. }
  rewrite Hrun. cbn [then_end]. destruct r; done.
Qed.

(** A tree whose header says it has no bytes is found again and again: with a callback
    that writes nothing, no fuel is enough. *)
Theorem for_each_fdt_stuck {S} (m : bytes) (t : Fdt) (s : S) fuel :
  starts_with MAGIC m = true → (40 ≤ length m)%nat → Fdt_new m = Ok t → total_size t = O →
  for_each_loop (λ _ _ _ w, (w, Ok tt)) fuel 0 0 (m, s) = ((m, s), NoFuel).
Proof.
  intros Hm Hl E Hz. enough (∀ n, for_each_loop (λ _ _ _ w, (w, Ok tt)) fuel n 0 (m, s) = ((m, s), NoFuel)) by done.
  induction fuel as [|fuel IH]; intros n; [done|].
  cbn [for_each_loop fst]. rewrite drop_0.
  destruct m as [|c m']; [done|]. cbn [position]. rewrite Hm. cbn [Nat.add]. rewrite drop_0, E, Hz.
  rewrite (proj2 (Nat.ltb_ge _ _)) by done. cbn [Nat.leb Nat.add]. apply IH.
Qed.
End Whole.

(** ** The printed tree *)

Lemma fdt_node_ind (P : FdtNode → Prop) :
  (∀ name ps cs, Forall P cs → P (mkNode name ps cs)) → ∀ n, P n.
Proof.
  intros Hn. fix IH 1. intros [name ps cs]. apply Hn. induction cs as [|c cs IHcs]; constructor; [apply IH|exact IHcs].
Qed.

(** Columns on a terminal: the bytes that start a character. *)
Definition columns (s : bytes) : nat := length (List.filter (λ b, negb (is_cont b)) s).

(** What is printed, from the root down: how far it is indented, and the text. *)
Fixpoint labels (m : bytes) (base depth : nat) (n : FdtNode) : list (nat * bytes) :=
  match n with
  | mkNode name ps cs =>
      ((4 * depth)%nat, name) ::
      map (λ p, ((4 * depth + 3)%nat, print_value (prop_name p) (value m base p))) ps ++
      (fix go (cs : list FdtNode) : list (nat * bytes) :=
         match cs with
         | [] => []
         | c :: cs => labels m base (S depth) c ++ go cs
         end) cs
  end.

Definition shows (line : bytes) (label : nat * bytes) : Prop :=
  ∃ pre, line = pre ++ label.2 ∧ columns pre = label.1.

Lemma columns_app a b : columns (a ++ b) = (columns a + columns b)%nat.
Proof. unfold columns. by rewrite List.filter_app, length_app. Qed.

Lemma tree_prefix_columns a b c d ds k : columns b = 4%nat → columns d = 4%nat → columns a = k → columns c = k →
  columns (tree_prefix a b c d ds) = match ds with [] => O | _ => (4 * (length ds - 1) + k)%nat end.
Proof.
  intros Hb Hd Ha Hc. induction ds as [|x ds IH]; [done|]. cbn [tree_prefix]. rewrite columns_app, IH.
  destruct x, ds; cbn [nonempty_list length]; rewrite ?Ha, ?Hb, ?Hc, ?Hd; lia.
Qed.

Lemma pretty_node_columns ds : columns (pretty_node ds) = (4 * length ds)%nat.
Proof.
  unfold pretty_node. rewrite (tree_prefix_columns _ _ _ _ _ 4); [|reflexivity..]. destruct ds; cbn [length]; lia.
Qed.

Lemma pretty_prop_columns ds b : columns (pretty_prop (ds ++ [b])) = (4 * length ds + 3)%nat.
Proof.
  unfold pretty_prop. rewrite (tree_prefix_columns _ _ _ _ _ 3); [|reflexivity..].
  destruct (ds ++ [b]) eqn:E; [by destruct ds|]. apply (f_equal length) in E. rewrite length_app in E. cbn in *. lia.
Qed.

Lemma print_props_shows m base hc ds more ps :
  Forall2 shows (print_props m base hc ds more ps).1
    (map (λ p, ((4 * length ds + 3)%nat, print_value (prop_name p) (value m base p))) ps).
Proof.
  revert more. induction ps as [|p ps IH]; intros more; [constructor|]. cbn [print_props map].
  set (more' := more && _). specialize (IH more'). destruct (print_props m base hc ds more' ps) as [lines more2].
  cbn [fst] in *. constructor; [|exact IH]. eexists. split; [done|]. apply pretty_prop_columns.
Qed.

(** Printing a tree gives one line for each node and each property, in order, each
    behind a frame that indents it by four columns for each level. *)
Theorem print_node_outline m base ds n :
  Forall2 shows (do_print_node m base ds n) (labels m base (length ds) n).
Proof.
  revert ds. induction n as [name ps cs IH] using fdt_node_ind. intros ds. cbn [do_print_node labels].
  pose proof (print_props_shows m base (nonempty_list cs) ds true ps) as Hp.
  destruct (print_props m base (nonempty_list cs) ds true ps) as [lines more]. cbn [fst] in Hp.
  constructor; [eexists; split; [done|apply pretty_node_columns]|]. apply Forall2_app; [exact Hp|].
  clear Hp. revert more. induction IH as [|c cs Hc Hcs IHcs]; intros more; [constructor|].
  apply Forall2_app; [|apply IHcs]. replace (S (length ds)) with (length (ds ++ [more && nonempty_list cs])); [apply Hc|].
  rewrite length_app. cbn. lia.
Qed.

(** ** A file with two trees

    A stand-in parser: after the magic, the size, the place and the size of a flags
    value, and of a boot command line. *)

Definition toy_child (off size : nat) : FdtNode :=
  mkNode (bs "system") [mkProperty (bs "fsmgr_flags") off size] [].

Definition byte_at (i : nat) (s : bytes) : nat := Z.to_nat (u8 (default Byte.x00 (s !! i))).

#[global] Instance toy_fdt : Fdts := λ s,
  let size := (40 + byte_at 4 s)%nat in
  if (size <=? length s)%nat && (byte_at 5 s <=? size)%nat && (byte_at 6 s <=? size - byte_at 5 s)%nat then
    let fstab := mkNode (bs "fstab") [] [toy_child (byte_at 5 s) (byte_at 6 s)] in
    let root := mkNode [] [] [fstab] in
    Ok (mkFdt size [root; fstab; toy_child (byte_at 5 s) (byte_at 6 s)] (λ _, Some root))
  else Err BufferTooSmall.

#[global] Instance toy_fdt_ok : FdtsOk.
Proof.
  split; unfold Fdt_new, toy_fdt.
  - intros s. destruct (_ && _); eauto.
  - intros s t. destruct (_ && _) eqn:E; [|done]. intros [= <-]. cbn [total_size].
    apply andb_prop in E as [[E%Nat.leb_le _]%andb_prop _]. exact E.
  - intros s t n p. destruct (_ && _) eqn:E; [|done]. intros [= <-]. cbn [total_size all_nodes].
    apply andb_prop in E as [[_ E1%Nat.leb_le]%andb_prop E2%Nat.leb_le].
    assert (Hn : ∀ k, k ∈ [mkNode [] [] [mkNode (bs "fstab") [] [toy_child (byte_at 5 s) (byte_at 6 s)]];
        mkNode (bs "fstab") [] [toy_child (byte_at 5 s) (byte_at 6 s)]; toy_child (byte_at 5 s) (byte_at 6 s)] →
      p ∈ properties k → p = mkProperty (bs "fsmgr_flags") (byte_at 5 s) (byte_at 6 s)).
    { intros k Hk Hp. rewrite !elem_of_cons, elem_of_nil in Hk. destruct Hk as [->|[->|[->|[]]]]; cbn in Hp;
        rewrite ?elem_of_cons, ?elem_of_nil in Hp; tauto. }
    intros Hin Hp. assert (p = mkProperty (bs "fsmgr_flags") (byte_at 5 s) (byte_at 6 s)) as ->; [|cbn; lia].
    destruct Hin as [Hin|(o & Ho & Hin)]; [by apply (Hn n)|]. apply (Hn n); [|done].
    rewrite !elem_of_cons, elem_of_nil in Ho. unfold toy_child in *. destruct Ho as [->|[->|[->|[]]]]; cbn [children] in Hin;
      rewrite ?elem_of_cons, ?elem_of_nil in Hin; rewrite ?elem_of_cons, ?elem_of_nil; tauto.
  - intros s t. destruct (_ && _); [|done]. intros [= <-]. cbn. repeat constructor.
Qed.

Definition toy_tree (flags : bytes) : bytes :=
  MAGIC ++ [byte_of (len flags); Byte.x28; byte_of (len flags)] ++ zeros 33 ++ flags.
Definition toy_file : bytes := bs "boot" ++ toy_tree (bs "wait,verify") ++ toy_tree (bs "wait") ++ bs "end".

Lemma dtb_patch_file_witness :
  dtb_patch false (Some toy_file) =
    (Some (bs "boot" ++ MAGIC ++ [Byte.x0b; Byte.x28; Byte.x0b] ++ zeros 33 ++ bs "wait" ++ zeros 7
           ++ toy_tree (bs "wait") ++ bs "end"), Ok true) ∧
  ∃ m', (dtb_patch false (Some toy_file)).1 = Some m' ∧ length m' = length toy_file.
Proof.
  pose proof (dtb_patch_file (H := toy_fdt) toy_file) as Ht. split; [vm_compute; reflexivity|].
  assert (Hpos : ∀ s t, Fdt_new (Fdts := toy_fdt) s = Ok t → (0 < total_size t)%nat).
  { intros s t. unfold Fdt_new, toy_fdt. destruct (_ && _); [|done]. intros [= <-]. cbn. lia. }
  specialize (Ht Hpos). clear Hpos. destruct (trees toy_file) as [l r] eqn:E.
  assert (Hs : existsb (λ b, has_skip toy_file b.1 b.2) l = false).
  { replace l with (trees toy_file).1 by (by rewrite E). vm_compute. reflexivity. }
  rewrite Hs in Ht. destruct Ht as (_ & m' & Ep & Hl & _). exists m'. rewrite Ep. done.
Defined.

(** A tree that still boots without its initramfs. *)
Example patch_panics :
  snd (patch_windows 2 0 (bs "skip_initramfs" ++ [Byte.x00], false)) = Panic.
Proof. reflexivity. Qed.
