(* ===== verification/Payload.v ===== *)
(** Payload: partitions out of an update payload, [native/src/boot/payload.rs].

    The manifest's decoder (a protobuf library), the recognition of formats (C++) and
    the decompressors are parameters. *)

From S2P Require Import Prelude Format Files.

(** ** The manifest *)

Inductive OpType := REPLACE | REPLACE_BZ | REPLACE_XZ | ZERO | OTHER.
Record Extent := mkExtent { start_block : option Z; num_blocks : option Z }.
Record Operation := mkOperation {
  type_pb : OpType;
  data_offset : option Z;
  data_length : option Z;
  dst_extents : list Extent
}.
Record Partition := mkPartition { partition_name : bytes; operations : list Operation }.
Record Manifest := mkManifest { minor_version : Z; block_size : Z; partitions : list Partition }.

(** ** Streams *)

(** The input, the position in it and whether it can seek. *)
Record Reader := mkReader { data : bytes; pos : Z; can_seek : bool }.

Definition read_exact (n : Z) (r : Reader) : res unit (bytes * Reader) :=
  if (pos r <=? len (data r)) && (n <=? len (data r) - pos r)
  then Ok (take (Z.to_nat n) (drop (Z.to_nat (pos r)) (data r)), mkReader (data r) (pos r + n) (can_seek r))
  else Err tt.

Definition skip_reader (n : Z) (r : Reader) : res unit Reader :=
  p ← skip_seek (can_seek r) n (data r) (pos r); Ok (mkReader (data r) p (can_seek r)).

(** A big-endian number. *)
Definition be_val (s : bytes) : Z := le_val (rev s).

(** [seek] to an offset and [write_all]: the gap before it reads as zeros. *)
Definition write_at (off : Z) (d : bytes) (f : bytes) : bytes :=
  match d with
  | [] => f
  | _ => take (Z.to_nat off) (f ++ zeros (off - len f)) ++ d ++ drop (Z.to_nat off + length d) f
  end.

(** ** Extraction *)

Definition u64 (z : Z) : Z := z mod 2 ^ 64.
Definition offset_key (o : Operation) : Z := default 0 (data_offset o).

(** [sort_by_key], which is stable. *)
Fixpoint insert_op (o : Operation) (l : list Operation) : list Operation :=
  match l with
  | [] => [o]
  | p :: l => if offset_key o <=? offset_key p then o :: p :: l else p :: insert_op o l
  end.
Definition sort_ops (l : list Operation) : list Operation := foldr insert_op [] l.

Definition find_partition (name : bytes) (m : Manifest) : option Partition :=
  List.find (λ p, bool_decide (partition_name p = name)) (partitions m).

Section Extract.
Context (decode_manifest : bytes → res unit Manifest) (check_fmt : bytes → FileFormat)
        (decode : FileFormat → bytes → res unit bytes).
(** The largest size the file system allows a file, below [2 ^ 63]. *)
Context (max_size : Z).

Definition choose_partition (name : option bytes) (m : Manifest) : res unit Partition :=
  match name with
  | None =>
      of_option tt (match find_partition (bs "init_boot") m with
                    | Some boot => Some boot
                    | None => find_partition (bs "boot") m
                    end)
  | Some name => of_option tt (find_partition name m)
  end.

(** Neither a seek nor a write gets beyond the largest size.  What is written before a write
    fails is not modelled: the file is then [f]. *)
Definition put_at (off : Z) (d f : bytes) : bytes * res unit unit :=
  if max_size <? off + len d then (f, Err tt) else (write_at off d f, Ok tt).

Fixpoint zero_extents (bsize : Z) (exts : list Extent) (f : bytes) : bytes * res unit unit :=
  match exts with
  | [] => (f, Ok tt)
  | ext :: exts =>
      match start_block ext, num_blocks ext with
      | None, _ | _, None => (f, Err tt)
      | Some s, Some n =>
          match put_at (u64 (s * bsize)) (zeros n) f with
          | (f, Ok _) => zero_extents bsize exts f
          | r => r
          end
      end
  end.

(** The first extent says where the data go, all of it.  What is written before [decode]
    fails is not modelled either. *)
Definition apply_op (bsize : Z) (o : Operation) (d : bytes) (f : bytes) : bytes * res unit unit :=
  match dst_extents o with
  | [] => (f, Err tt)
  | ext :: _ =>
      match start_block ext with
      | None => (f, Err tt)
      | Some s =>
          let out_offset := u64 (s * bsize) in
          match type_pb o with
          | REPLACE => put_at out_offset d f
          | ZERO => zero_extents bsize (dst_extents o) f
          | REPLACE_BZ | REPLACE_XZ =>
              if max_size <? out_offset then (f, Err tt)
              else match decode (check_fmt d) d with
              | Ok raw => put_at out_offset raw f
              | Err e => (f, Err e)
              | Panic => (f, Panic)
              | NoFuel => (f, NoFuel)
              end
          | OTHER => (f, Err tt)
          end
      end
  end.

(** The buffer for the data cannot be larger than [isize::MAX]. *)
Fixpoint apply_ops (bsize : Z) (ops : list Operation) (curr : Z) (r : Reader) (f : bytes) : bytes * res unit unit :=
  match ops with
  | [] => (f, Ok tt)
  | o :: ops =>
      match data_length o, data_offset o with
      | None, _ | _, None => (f, Err tt)
      | Some l, Some off =>
          if 2 ^ 63 <=? l then (f, Panic)
          else match (r ← skip_reader (u64 (off - curr)) r; read_exact l r) with
          | Ok (d, r) =>
              match apply_op bsize o d f with
              | (f, Ok _) => apply_ops bsize ops (u64 (off + l)) r f
              | r => r
              end
          | Err e => (f, Err e)
          | Panic => (f, Panic)
          | NoFuel => (f, NoFuel)
          end
      end
  end.

(** The manifest, and the reader at the manifest's signature with its length. *)
Definition read_header (r : Reader) : res unit (Manifest * Z * Reader) :=
  '(magic, r) ← read_exact 4 r;
  if negb (bool_decide (magic = bs "CrAU")) then Err tt
  else
    '(v, r) ← read_exact 8 r;
    if negb (be_val v =? 2) then Err tt
    else
      '(ml, r) ← read_exact 8 r;
      if be_val ml =? 0 then Err tt
      else
        '(sl, r) ← read_exact 4 r;
        if be_val sl =? 0 then Err tt
        else if 2 ^ 63 <=? be_val ml then Panic
        else
          '(mf, r) ← read_exact (be_val ml) r;
          m ← decode_manifest mf;
          Ok (m, be_val sl, r).

(** [None] for a file that was not created, else its name and content. *)
Definition extract_boot_from_payload (r : Reader) (name out_path : option bytes) :
    option (bytes * bytes) * res unit unit :=
  match read_header r with
  | Ok (m, sig_len, r) =>
      if negb (minor_version m =? 0) then (None, Err tt)
      else
        match choose_partition name m with
        | Ok partition =>
            let out_path := default (partition_name partition ++ bs ".img") out_path in
            match skip_reader sig_len r with
            | Ok r =>
                let '(f, res) := apply_ops (block_size m) (sort_ops (operations partition)) 0 r [] in
                (Some (out_path, f), res)
            | Err e => (Some (out_path, []), Err e)
            | Panic => (Some (out_path, []), Panic)
            | NoFuel => (Some (out_path, []), NoFuel)
            end
        | Err e => (None, Err e)
        | Panic => (None, Panic)
        | NoFuel => (None, NoFuel)
        end
  | Err e => (None, Err e)
  | Panic => (None, Panic)
  | NoFuel => (None, NoFuel)
  end.
End Extract.

(** ** Reading and writing at offsets *)

Definition region (off n : Z) (f : bytes) : bytes := take (Z.to_nat n) (drop (Z.to_nat off) f).

Lemma len_region off n f : 0 ≤ off → 0 ≤ n → off + n ≤ len f → len (region off n f) = n.
Proof. intros. unfold region, len in *. rewrite length_take, length_drop. lia. Qed.

Lemma write_at_nonempty off d f : d ≠ [] →
  write_at off d f = take (Z.to_nat off) (f ++ zeros (off - len f)) ++ d ++ drop (Z.to_nat off + length d) f.
Proof. by destruct d. Qed.

Lemma length_padded off f : 0 ≤ off → length (take (Z.to_nat off) (f ++ zeros (off - len f))) = Z.to_nat off.
Proof. intros. rewrite length_take, length_app. unfold zeros, len. rewrite length_replicate. lia. Qed.

Lemma region_write_eq off d f : 0 ≤ off → region off (len d) (write_at off d f) = d.
Proof.
  intros Ho. destruct d as [|b d']; [by unfold region; rewrite take_0|]. rewrite write_at_nonempty by done.
  set (d := b :: d'). unfold region, len. rewrite Nat2Z.id.
  by rewrite drop_app_length', take_app_length by (by rewrite length_padded).
Qed.

Lemma len_write off d f : 0 ≤ off → len f ≤ len (write_at off d f).
Proof.
  intros Ho. destruct d as [|b d']; [done|]. rewrite write_at_nonempty by done.
  unfold len. rewrite !length_app, length_padded, length_drop by done. lia.
Qed.

(** A write leaves a region of the file that it does not touch as it was. *)
Lemma region_write_ne off d f o n : 0 ≤ off → 0 ≤ o → 0 ≤ n → o + n ≤ len f →
  o + n ≤ off ∨ off + len d ≤ o → region o n (write_at off d f) = region o n f.
Proof.
  intros Hoff Ho Hn Hl Hd. destruct d as [|b d']; [done|]. rewrite write_at_nonempty by done. set (d := b :: d') in *.
  unfold region, len in *. pose proof (length_padded off f Hoff) as Hp. unfold len in Hp.
  destruct Hd as [Hd|Hd].
  - rewrite drop_app_le by lia. rewrite take_app_le by (rewrite length_drop; lia).
    rewrite !take_drop_commute, take_take, Nat.min_l by lia. f_equal. by rewrite take_app_le by lia.
  - rewrite app_assoc, drop_app_ge by (rewrite length_app; lia). rewrite drop_drop, length_app, Hp.
    do 2 f_equal. lia.
Qed.

(** ** Sorting the operations *)

Lemma insert_op_perm o l : insert_op o l ≡ₚ o :: l.
Proof. induction l as [|p l IH]; cbn; [done|]. destruct (_ <=? _); [done|]. rewrite IH. by constructor. Qed.

Lemma sort_ops_perm l : sort_ops l ≡ₚ l.
Proof. induction l as [|o l IH]; [done|]. unfold sort_ops in *. cbn [foldr]. by rewrite insert_op_perm, IH. Qed.

Definition op_le (a b : Operation) : Prop := offset_key a ≤ offset_key b.

Lemma insert_op_sorted o l : StronglySorted op_le l → StronglySorted op_le (insert_op o l).
Proof.
  induction 1 as [|p l Hl IH Hp]; cbn; [repeat constructor|].
  destruct (Z.leb_spec (offset_key o) (offset_key p)) as [H|H].
  - constructor; [by constructor|]. constructor; [done|]. eapply Forall_impl; [exact Hp|].
    unfold op_le. intros q Hq. lia.
  - constructor; [done|]. rewrite insert_op_perm. constructor; [unfold op_le; lia|done].
Qed.

Lemma sort_ops_sorted l : StronglySorted op_le (sort_ops l).
Proof. unfold sort_ops. induction l; cbn; [constructor|by apply insert_op_sorted]. Qed.

(** A symmetric relation between all pairs does not depend on the order. *)
Lemma ord_pairs_perm {A} (R : A → A → Prop) l k : (∀ x y, R x y → R y x) → l ≡ₚ k →
  ForallOrdPairs R l → ForallOrdPairs R k.
Proof.
  intros Hsym Hlk. induction Hlk as [|x l k Hlk IH|x y l|l1 l2 l3 _ IH1 _ IH2]; intros H; [done| | |auto].
  - inversion_clear H as [|? ? Hx Hl]. constructor; [by rewrite <- Hlk|auto].
  - inversion_clear H as [|? ? Hy Hl]. inversion_clear Hl as [|? ? Hx Hl'].
    apply Forall_cons in Hy as [Hyx Hy]. constructor; [constructor; auto|]. by constructor.
Qed.

(** ** A full payload *)

Section Full.
Context (check_fmt : bytes → FileFormat) (decode : FileFormat → bytes → res unit bytes).
Context (max_size bsize : Z) (blob : bytes).
Context (Hmax : max_size < 2 ^ 63).

(** The data an operation has in the blob, and where it goes and what is written there;
    [ZERO] and operations that fail are not here. *)
Definition chunk (o : Operation) : bytes := region (offset_key o) (default 0 (data_length o)) blob.

Definition write_of (o : Operation) : option (Z * bytes) :=
  ext ← head (dst_extents o);
  s ← start_block ext;
  match type_pb o with
  | REPLACE => Some (s * bsize, chunk o)
  | REPLACE_BZ | REPLACE_XZ => raw ← res_ok (decode (check_fmt (chunk o)) (chunk o)); Some (s * bsize, raw)
  | _ => None
  end.

(** The operation has data inside the blob and one extent, which what is written fills and
    which is within the largest size. *)
Definition op_valid (o : Operation) : Prop :=
  (∃ off l, data_offset o = Some off ∧ data_length o = Some l ∧ 0 ≤ off ∧ 0 < l ∧ off + l ≤ len blob) ∧
  ∃ s n d, dst_extents o = [mkExtent (Some s) (Some n)] ∧ write_of o = Some (s * bsize, d) ∧
    0 ≤ s * bsize ∧ len d = n * bsize ∧ s * bsize + n * bsize ≤ max_size.

Definition data_end (o : Operation) : Z := offset_key o + default 0 (data_length o).

(** Two operations share no data and write to different places. *)
Definition apart (o p : Operation) : Prop :=
  (data_end o ≤ offset_key p ∨ data_end p ≤ offset_key o) ∧
  ∀ w d v e, write_of o = Some (w, d) → write_of p = Some (v, e) → w + len d ≤ v ∨ v + len e ≤ w.

Lemma apart_sym o p : apart o p → apart p o.
Proof. intros [H1 H2]. split; [tauto|]. intros w d v e Hw Hv. destruct (H2 v e w d Hv Hw); tauto. Qed.

Lemma put_at_ok off d f : off + len d ≤ max_size → put_at max_size off d f = (write_at off d f, Ok tt).
Proof. intros H. unfold put_at. by rewrite (proj2 (Z.ltb_ge _ _)). Qed.

Lemma apply_op_write o w d f : write_of o = Some (w, d) → 0 ≤ w → w + len d ≤ max_size →
  apply_op check_fmt decode max_size bsize o (chunk o) f = (write_at w d f, Ok tt).
Proof.
  unfold write_of, apply_op. intros H Hw0 Hw. pose proof (len_nonneg d). destruct (dst_extents o) as [|ext exts]; [done|]. cbn in H.
  destruct (start_block ext) as [s|]; [|done]. cbn in H.
  destruct (type_pb o); try done.
  - simplify_eq. unfold u64. rewrite Z.mod_small by lia. by apply put_at_ok.
  - destruct (decode _ (chunk o)) as [raw| | |] eqn:E; [|done..]. cbn in H. simplify_eq. unfold u64.
    rewrite Z.mod_small, (proj2 (Z.ltb_ge _ _)) by lia. by apply put_at_ok.
  - destruct (decode _ (chunk o)) as [raw| | |] eqn:E; [|done..]. cbn in H. simplify_eq. unfold u64.
    rewrite Z.mod_small, (proj2 (Z.ltb_ge _ _)) by lia. by apply put_at_ok.
Qed.

Lemma len_write_end off d f : 0 ≤ off → d ≠ [] → off + len d ≤ len (write_at off d f).
Proof.
  intros Ho Hd. rewrite write_at_nonempty by done. unfold len. rewrite !length_app, length_padded by done. lia.
Qed.

(** Whatever keeps the regions it does not touch keeps what was just written. *)
Lemma write_kept off d f f' : 0 ≤ off →
  (off + len d ≤ len (write_at off d f) → region off (len d) f' = region off (len d) (write_at off d f)) →
  region off (len d) f' = d.
Proof.
  intros Ho H. destruct (decide (d = [])) as [->|Hd]; [by unfold region; rewrite take_0|].
  rewrite H by (by apply len_write_end). by apply region_write_eq.
Qed.

Lemma read_chunk pre r o off l curr : data r = pre ++ blob → pos r = len pre + curr → 0 ≤ curr ≤ off →
  len (pre ++ blob) < 2 ^ 63 → data_offset o = Some off → data_length o = Some l → 0 < l → off + l ≤ len blob →
  (r ← skip_reader (u64 (off - curr)) r; read_exact l r) =
    Ok (chunk o, mkReader (data r) (len pre + (off + l)) (can_seek r)).
Proof.
  intros Hd Hp Hc Hlen Eo El Hl Hin. rewrite len_app in Hlen. pose proof (len_nonneg pre).
  unfold skip_reader, u64. rewrite Z.mod_small by lia.
  rewrite skip_seek_ok by (rewrite ?Hd, ?len_app; lia). cbn [mbind res_bind].
  unfold read_exact. cbn [data pos can_seek]. rewrite Hp, Hd, len_app.
  rewrite (proj2 (Z.leb_le _ _)), (proj2 (Z.leb_le _ _)) by lia. cbn [andb].
  unfold chunk, region, offset_key. rewrite Eo, El. cbn [default Datatypes.id].
  do 2 f_equal; [|f_equal; lia]. f_equal. rewrite drop_app_ge by (unfold len in *; lia).
  f_equal. change (id off) with off. unfold len in *. lia.
Qed.

Lemma apply_ops_ok pre l : StronglySorted op_le l → Forall op_valid l → ForallOrdPairs apart l →
  len (pre ++ blob) < 2 ^ 63 → ∀ curr r f, data r = pre ++ blob → pos r = len pre + curr → 0 ≤ curr →
  Forall (λ o, curr ≤ offset_key o) l →
  ∃ f', apply_ops check_fmt decode max_size bsize l curr r f = (f', Ok tt) ∧
    (∀ o w d, o ∈ l → write_of o = Some (w, d) → region w (len d) f' = d) ∧
    ∀ w n, 0 ≤ w → 0 ≤ n → w + n ≤ len f →
      (∀ o v e, o ∈ l → write_of o = Some (v, e) → w + n ≤ v ∨ v + len e ≤ w) → region w n f' = region w n f.
Proof.
  intros Hs Hv Ha Hlen. induction Hs as [|o l Hs IH Ho]; intros curr r f Hd Hp Hc Hle.
  - exists f. split_and!; try done. intros ? ? ? Hin. by apply elem_of_nil in Hin.
  - apply Forall_cons in Hv as [Hvo Hv]. apply Forall_cons in Hle as [Hlo Hle].
    inversion_clear Ha as [|? ? Hao Hal].
    destruct Hvo as [(off & n & Eo & En & Hoff & Hn & Hin) (s & k & d & _ & Hw & Hw0 & Hd' & Hwr)]. set (w := s * bsize) in *.
    assert (Hk : offset_key o = off) by (unfold offset_key; by rewrite Eo).
    assert (He : data_end o = off + n) by (unfold data_end; by rewrite Hk, En).
    rewrite len_app in Hlen. pose proof (len_nonneg pre).
    assert (Hnext : Forall (λ p, off + n ≤ offset_key p) l).
    { apply Forall_forall. intros p Hpin. rewrite !Forall_forall in *.
      destruct (Hao p Hpin) as [[?|Hpe] _]; [lia|].
      destruct (Hv p Hpin) as [(po & pn & Epo & Epn & ? & ? & ?) _].
      specialize (Ho p Hpin). unfold op_le, data_end, offset_key in *. rewrite Epo, Epn, Eo in *.
      cbn [default Datatypes.id] in *. lia. }
    cbn [apply_ops]. rewrite En, Eo, (proj2 (Z.leb_gt _ _)) by lia.
    rewrite (read_chunk pre r o off n curr) by (rewrite ?len_app; done || lia).
    rewrite (apply_op_write o w d f Hw Hw0) by lia.
    unfold u64. rewrite Z.mod_small by lia.
    destruct (IH Hv Hal (off + n) (mkReader (data r) (len pre + (off + n)) (can_seek r)) (write_at w d f))
      as (f' & E & Hall & Hframe); [done|done|lia|done|].
    assert (Hkeep : region w (len d) f' = d).
    { apply (write_kept w d f); [lia|]. intros Hend. apply Hframe; [lia|apply len_nonneg|done|].
      intros p v e Hpin Hpw. rewrite Forall_forall in Hao. destruct (Hao p Hpin) as [_ Hap].
      by apply (Hap w d v e). }
    exists f'. split_and!; [done| |].
    + intros p v e [->|Hpin]%elem_of_cons Hpw; [|by eapply Hall]. by rewrite Hw in Hpw; simplify_eq.
    + intros v m Hv0 Hm Hvm Hdis. rewrite Hframe; [|done|done| |].
      * apply region_write_ne; [lia|done..|]. apply (Hdis o w d); [left|done].
      * pose proof (len_write w d f). lia.
      * intros p u e Hpin Hpw. apply (Hdis p u e); [by right|done].
Qed.
End Full.

Lemma payload_writes_all check_fmt decode max_size bsize pre blob ops seek : max_size < 2 ^ 63 →
  Forall (op_valid check_fmt decode max_size bsize blob) ops →
  ForallOrdPairs (apart check_fmt decode bsize blob) ops → len (pre ++ blob) < 2 ^ 63 →
  ∃ f, apply_ops check_fmt decode max_size bsize (sort_ops ops) 0 (mkReader (pre ++ blob) (len pre) seek) [] = (f, Ok tt) ∧
    ∀ o w d, o ∈ ops → write_of check_fmt decode bsize blob o = Some (w, d) → region w (len d) f = d.
Proof.
  intros Hmax Hv Ha Hlen.
  destruct (apply_ops_ok check_fmt decode max_size bsize blob Hmax pre (sort_ops ops) (sort_ops_sorted ops)) with (curr := 0)
    (r := mkReader (pre ++ blob) (len pre) seek) (f := [] : bytes) as (f & E & H & _); try done.
  - by rewrite sort_ops_perm.
  - eapply ord_pairs_perm; [apply apart_sym|symmetry; apply sort_ops_perm|done].
  - cbn [pos]. lia.
  - rewrite sort_ops_perm. eapply Forall_impl; [exact Hv|]. intros o [(off & l & Eo & _ & Hoff & _) _].
    unfold offset_key. by rewrite Eo.
  - exists f. split; [done|]. intros o w d Hin. apply H. by rewrite sort_ops_perm.
Qed.

(** *** The file *)

Definition be_bytes (n : nat) (z : Z) : bytes := rev (le_bytes n z).

Lemma be_val_bytes n z : 0 ≤ z < 256 ^ Z.of_nat n → be_val (be_bytes n z) = z.
Proof. intros. unfold be_val, be_bytes. rewrite rev_involutive. by apply le_val_bytes_small. Qed.

Lemma len_be_bytes n z : len (be_bytes n z) = Z.of_nat n.
Proof. unfold len, be_bytes. by rewrite length_rev, length_le_bytes. Qed.

Lemma read_exact_app p m s seek : read_exact (len m) (mkReader (p ++ m ++ s) (len p) seek) =
  Ok (m, mkReader (p ++ m ++ s) (len (p ++ m)) seek).
Proof.
  unfold read_exact. cbn [data pos can_seek]. rewrite !len_app.
  pose proof (len_nonneg p). pose proof (len_nonneg m). pose proof (len_nonneg s).
  rewrite (proj2 (Z.leb_le _ _)), (proj2 (Z.leb_le _ _)) by lia. cbn [andb].
  unfold len at 1 2. by rewrite !Nat2Z.id, drop_app_length, take_app_length.
Qed.

(** A payload: magic, version, lengths, manifest, its signature, data. *)
Definition header (mf sig : bytes) : bytes :=
  bs "CrAU" ++ be_bytes 8 2 ++ be_bytes 8 (len mf) ++ be_bytes 4 (len sig) ++ mf.
Definition payload (mf sig blob : bytes) : bytes := header mf sig ++ sig ++ blob.

Lemma read_header_payload decode_manifest mf sig blob seek m : decode_manifest mf = Ok m →
  0 < len mf < 2 ^ 63 → 0 < len sig < 2 ^ 32 →
  read_header decode_manifest (mkReader (payload mf sig blob) 0 seek) =
    Ok (m, len sig, mkReader (payload mf sig blob) (len (header mf sig)) seek).
Proof.
  intros Hm Hmf Hsig. unfold read_header, payload, header.
  rewrite <- !app_assoc.
  change (read_exact 4) with (read_exact (len (bs "CrAU"))).
  pose proof (read_exact_app [] (bs "CrAU")) as E. cbn [app] in E. change (len []) with 0 in E. rewrite E. clear E.
  cbn [mbind res_bind]. rewrite bool_decide_true by done. cbn [negb].
  assert (Hstep : ∀ p n z s, 0 ≤ z < 256 ^ Z.of_nat n →
    read_exact (Z.of_nat n) (mkReader (p ++ be_bytes n z ++ s) (len p) seek) =
      Ok (be_bytes n z, mkReader ((p ++ be_bytes n z) ++ s) (len (p ++ be_bytes n z)) seek)).
  { intros p n z s _. rewrite <- (len_be_bytes n z) at 1. by rewrite read_exact_app, <- app_assoc. }
  change (read_exact 8) with (read_exact (Z.of_nat 8)). change (read_exact (len (bs "CrAU"))) with (read_exact (Z.of_nat 4)).
  rewrite Hstep by lia. cbn [mbind res_bind]. rewrite be_val_bytes by lia. cbn [Z.eqb Pos.eqb negb].
  rewrite Hstep by lia. cbn [mbind res_bind]. rewrite be_val_bytes by lia.
  rewrite (proj2 (Z.eqb_neq (len mf) 0)) by lia.
  rewrite Hstep by lia. cbn [mbind res_bind]. rewrite be_val_bytes by lia.
  rewrite (proj2 (Z.eqb_neq (len sig) 0)), (proj2 (Z.leb_gt (2 ^ 63) (len mf))) by lia.
  rewrite read_exact_app. cbn [mbind res_bind]. rewrite Hm. cbn [mbind res_bind].
  by rewrite <- !app_assoc.
Qed.

(** C33: a full payload is extracted: when the manifest names the partition and its
    operations replace (no [ZERO]: [zero_blocks_are_bytes]), have their data inside the
    payload, each one extent that the data, decompressed where they must be, fill, share
    no data and write to different places within the largest size of a file, then the file
    is made under the name asked for or the partition's, and every extent holds its data,
    whatever the order of the operations and whether the input can seek.  With more than
    one extent all data go to the first: [later_extents_unused]. *)
Theorem extract_full_payload decode_manifest check_fmt decode max_size mf sig blob m p name out seek :
  decode_manifest mf = Ok m → minor_version m = 0 → choose_partition name m = Ok p →
  0 < len mf → 0 < len sig < 2 ^ 32 → len (payload mf sig blob) < 2 ^ 63 → max_size < 2 ^ 63 →
  Forall (op_valid check_fmt decode max_size (block_size m) blob) (operations p) →
  ForallOrdPairs (apart check_fmt decode (block_size m) blob) (operations p) →
  ∃ f, extract_boot_from_payload decode_manifest check_fmt decode max_size (mkReader (payload mf sig blob) 0 seek) name out =
         (Some (default (partition_name p ++ bs ".img") out, f), Ok tt) ∧
    ∀ o s n d, o ∈ operations p → dst_extents o = [mkExtent (Some s) (Some n)] →
      write_of check_fmt decode (block_size m) blob o = Some (s * block_size m, d) →
      region (s * block_size m) (n * block_size m) f = d.
Proof.
  intros Hm Hmin Hp Hmf Hsig Hlen Hmax Hv Ha.
  assert (Hlens : len (payload mf sig blob) = len (header mf sig) + len sig + len blob).
  { unfold payload. rewrite !len_app. lia. }
  assert (Hh : len mf ≤ len (header mf sig)).
  { unfold header. rewrite !len_app, !len_be_bytes. pose proof (len_nonneg (bs "CrAU")). lia. }
  pose proof (len_nonneg blob).
  destruct (payload_writes_all check_fmt decode max_size (block_size m) (header mf sig ++ sig) blob (operations p) seek Hmax Hv Ha)
    as (f & E & H'); [unfold payload in Hlen; by rewrite <- app_assoc|].
  exists f. split; cycle 1.
  { intros o s n d Hin Hx Hw. rewrite Forall_forall in Hv. destruct (Hv o Hin) as [_ (s' & n' & d' & Hx' & Hw' & _ & Hn & _)].
    rewrite Hx in Hx'. injection Hx' as <- <-. rewrite Hw in Hw'. injection Hw' as <-. rewrite <- Hn. by eapply H'. }
  unfold extract_boot_from_payload.
  rewrite (read_header_payload _ _ _ _ _ m) by (done || lia). rewrite Hmin. cbn [Z.eqb negb]. rewrite Hp.
  unfold skip_reader. cbn [can_seek data pos].
  rewrite skip_seek_ok by lia. cbn [mbind res_bind].
  replace (len (header mf sig) + len sig) with (len (header mf sig ++ sig)) by (by rewrite len_app).
  unfold payload. rewrite app_assoc, E. done.
Qed.

(** Two operations out of order, one of them compressed. *)
Definition op_raw : Operation := mkOperation REPLACE (Some 3) (Some 2) [mkExtent (Some 0) (Some 1)].
Definition op_packed : Operation := mkOperation REPLACE_XZ (Some 0) (Some 3) [mkExtent (Some 1) (Some 3)].
Definition sample_manifest : Manifest := mkManifest 0 2 [mkPartition (bs "boot") [op_raw; op_packed]].

Lemma extract_full_payload_witness : ∃ f,
  extract_boot_from_payload (λ _, Ok sample_manifest) (λ _, XZ) (λ _ d, Ok (d ++ d)) 4096
    (mkReader (payload (bs "manifest") (bs "sig") (bs "abcde")) 0 false) None None = (Some (bs "boot.img", f), Ok tt) ∧
  region 0 2 f = bs "de" ∧ region 2 6 f = bs "abcabc".
Proof.
  destruct (extract_full_payload (λ _, Ok sample_manifest) (λ _, XZ) (λ _ d, Ok (d ++ d)) 4096 (bs "manifest") (bs "sig")
    (bs "abcde") sample_manifest (mkPartition (bs "boot") [op_raw; op_packed]) None None false) as (f & E & H).
  - reflexivity.
  - reflexivity.
  - reflexivity.
  - vm_compute. reflexivity.
  - split; vm_compute; reflexivity.
  - vm_compute. reflexivity.
  - reflexivity.
  - constructor; [|constructor; [|constructor]]; (split; [|]).
    + exists 3, 2. split_and!; try reflexivity; vm_compute; done.
    + exists 0, 1, (bs "de"). split_and!; try reflexivity; vm_compute; done.
    + exists 0, 3. split_and!; try reflexivity; vm_compute; done.
    + exists 1, 3, (bs "abcabc"). split_and!; try reflexivity; vm_compute; done.
  - constructor; [constructor; [|constructor]|constructor; [constructor|constructor]].
    split; [right; vm_compute; done|]. intros w d v e Hw He. vm_compute in Hw, He. simplify_eq.
    left. vm_compute. done.
  - exists f. split_and!; [exact E|..].
    + apply (H op_raw 0 1 (bs "de")); [left|done|done].
    + apply (H op_packed 1 3 (bs "abcabc")); [right; left|done|done].
Defined.

(** Only a [ZERO] operation looks behind its first extent. *)
Theorem later_extents_unused check_fmt decode max_size bsize t off l ext exts d f : t ≠ ZERO →
  apply_op check_fmt decode max_size bsize (mkOperation t off l (ext :: exts)) d f =
  apply_op check_fmt decode max_size bsize (mkOperation t off l [ext]) d f.
Proof. intros Ht. unfold apply_op. cbn. destruct (start_block ext); [|done]. by destruct t. Qed.

(** A [ZERO] operation of [n] blocks at block [s] zeroes [n] bytes, not [n] blocks: a
    partition that ends with it comes out short. *)
Theorem zero_blocks_are_bytes check_fmt decode max_size bsize o s n :
  type_pb o = ZERO → dst_extents o = [mkExtent (Some s) (Some n)] → 0 ≤ s * bsize → s * bsize + n ≤ max_size < 2 ^ 63 → 0 < n →
  apply_op check_fmt decode max_size bsize o [] [] = (zeros (s * bsize + n), Ok tt).
Proof.
  intros Ht He Hs Hm Hn. unfold apply_op. rewrite Ht, He. cbn [start_block num_blocks zero_extents].
  unfold u64. rewrite Z.mod_small, put_at_ok by (rewrite ?len_zeros; lia). f_equal.
  rewrite write_at_nonempty; cycle 1.
  { intros E. assert (Hz : len (zeros n) = n) by (apply len_zeros; lia). rewrite E in Hz. change (len []) with 0 in Hz. lia. }
  cbn [app]. change (len []) with 0. rewrite Z.sub_0_r, drop_nil, app_nil_r.
  rewrite take_ge by (unfold zeros; rewrite length_replicate; done). apply zeros_app; lia.
Qed.
