(* ===== verification/Compress.v ===== *)
(** Compress: the commands [compress] and [decompress], [native/src/boot/compress.rs]
    (from [get_encoder] on).

    The encoders and decoders of the libraries and the recognition of formats (C++) are
    an interface ([Codecs]); the legacy LZ4 archives of [Lz4] are an implementation of
    its law.  Files are a map from paths to contents. *)

From S2P Require Import Prelude Format Lz4.

(** ** The interface *)

Class Codecs := {
  check_fmt : bytes → FileFormat;
  encode_with : FileFormat → bytes → res unit bytes;
  decode_with : FileFormat → bytes → res unit bytes
}.

(** What is compressed with a format is recognised from its first 4096 bytes as a format
    of the same extension, and that format's decoder gives it back. *)
Class RoundTrips `{Codecs} (m : FileFormat) (d : bytes) : Prop :=
  round_trips a : encode_with m d = Ok a →
    let m' := check_fmt (take 4096 a) in
    is_compressed m' = true ∧ ext m' = ext m ∧ decode_with m' a = Ok d.

Section Commands.
Context `{Codecs}.

(** [get_encoder] and [get_decoder] with the copy through them. *)
Definition get_encoder (f : FileFormat) (d : bytes) : res unit bytes :=
  if is_compressed f then encode_with f d else Panic.
Definition get_decoder (f : FileFormat) (d : bytes) : res unit bytes :=
  if is_compressed f then decode_with f d else Panic.

(** ** Commands *)

Record World := mkWorld { files : gmap bytes bytes; std_in : bytes; std_out : bytes }.

(** [create] succeeds for these paths. *)
Context (creatable : bytes → bool).

Inductive Input := StdIn | InFile (path : bytes).
Inductive Output := StdOut | OutFile (path : bytes).

Definition open_input (path : bytes) (w : World) : res unit Input :=
  if bool_decide (path = bs "-") then Ok StdIn
  else match files w !! path with Some _ => Ok (InFile path) | None => Err tt end.

Definition content (i : Input) (w : World) : bytes :=
  match i with StdIn => std_in w | InFile p => default [] (files w !! p) end.

(** [create] with [O_TRUNC]. *)
Definition create (path : bytes) (w : World) : res unit (Output * World) :=
  if creatable path then Ok (OutFile path, mkWorld (<[path := []]> (files w)) (std_in w) (std_out w)) else Err tt.

Definition write_output (o : Output) (d : bytes) (w : World) : World :=
  match o with
  | StdOut => mkWorld (files w) (std_in w) (std_out w ++ d)
  | OutFile p => mkWorld (<[p := d]> (files w)) (std_in w) (std_out w)
  end.

Definition remove (i : Input) (w : World) : World :=
  match i with StdIn => w | InFile p => mkWorld (delete p (files w)) (std_in w) (std_out w) end.

(** [s.rsplit_once('.')]. *)
Definition DOT : byte := Byte.x2e.
Fixpoint rsplit_once (c : byte) (s : bytes) : option (bytes * bytes) :=
  match s with
  | [] => None
  | b :: s =>
      match rsplit_once c s with
      | Some (l, r) => Some (b :: l, r)
      | None => if bool_decide (b = c) then Some ([], s) else None
      end
  end.

(** The world, and what is the result; what a decoder wrote before it failed is not
    modelled, the output is then empty. *)
Definition decompress_cmd (infile : bytes) (outfile : option bytes) (w : World) : World * res unit unit :=
  match open_input infile w with
  | Ok i =>
      let first := take 4096 (content i w) in
      let format := check_fmt first in
      if negb (is_compressed format) then (w, Err tt)
      else
        let dest :=
          match outfile with
          | Some out => if bool_decide (out = bs "-") then Ok (StdOut, w, false)
                        else '(o, w) ← create out w; Ok (o, w, false)
          | None =>
              match i with
              | StdIn => Ok (StdOut, w, false)
              | InFile _ =>
                  match rsplit_once DOT infile with
                  | Some (out, e) =>
                      if bool_decide (e = ext format) then '(o, w) ← create out w; Ok (o, w, true) else Err tt
                  | None => Err tt
                  end
              end
          end in
        match dest with
        | Ok (o, w, rm_in) =>
            (* the input is read on after its first bytes, once the output is created *)
            match get_decoder format (first ++ drop 4096 (content i w)) with
            | Ok d => let w := write_output o d w in (if rm_in : bool then remove i w else w, Ok tt)
            | Err e => (w, Err e)
            | Panic => (w, Panic)
            | NoFuel => (w, NoFuel)
            end
        | Err e => (w, Err e)
        | Panic => (w, Panic)
        | NoFuel => (w, NoFuel)
        end
  | Err e => (w, Err e)
  | Panic => (w, Panic)
  | NoFuel => (w, NoFuel)
  end.

Definition compress_cmd (method : FileFormat) (infile : bytes) (outfile : option bytes) (w : World) :
    World * res unit unit :=
  match open_input infile w with
  | Ok i =>
      let dest :=
        match outfile with
        | Some out => if bool_decide (out = bs "-") then Ok (StdOut, w, false)
                      else '(o, w) ← create out w; Ok (o, w, false)
        | None =>
            match i with
            | StdIn => Ok (StdOut, w, false)
            | InFile _ => '(o, w) ← create (infile ++ [DOT] ++ ext method) w; Ok (o, w, true)
            end
        end in
      match dest with
      | Ok (o, w, rm_in) =>
          match get_encoder method (content i w) with
          | Ok a => let w := write_output o a w in (if rm_in : bool then remove i w else w, Ok tt)
          | Err e => (w, Err e)
          | Panic => (w, Panic)
          | NoFuel => (w, NoFuel)
          end
      | Err e => (w, Err e)
      | Panic => (w, Panic)
      | NoFuel => (w, NoFuel)
      end
  | Err e => (w, Err e)
  | Panic => (w, Panic)
  | NoFuel => (w, NoFuel)
  end.

(** [compress_bytes] and [decompress_bytes]: what is appended to the file, nothing when
    something fails. *)
Definition compress_bytes (f : FileFormat) (d : bytes) : res unit bytes :=
  match get_encoder f d with Err _ => Ok [] | r => r end.
Definition decompress_bytes (f : FileFormat) (d : bytes) : res unit bytes :=
  match get_decoder f d with Err _ => Ok [] | r => r end.

(** ** Properties *)

Lemma rsplit_once_ext c s e : c ∉ e → rsplit_once c (s ++ [c] ++ e) = Some (s, e).
Proof.
  intros He. assert (Hn : rsplit_once c e = None).
  { clear s. induction e as [|b e IH]; cbn; [done|]. rewrite IH by set_solver.
    by rewrite bool_decide_false by set_solver. }
  induction s as [|b s IH]; cbn.
  - by rewrite Hn, bool_decide_true.
  - cbn in IH. by rewrite IH.
Qed.

Lemma open_file w path d : files w !! path = Some d → path ≠ bs "-" → open_input path w = Ok (InFile path).
Proof. intros Hd Hp. unfold open_input. by rewrite bool_decide_false, Hd. Qed.

(** Compressing a file in place and decompressing the result in place gives the file
    back, under its name and alone: no other file is touched, the archive is gone, and
    nothing is printed. *)
Theorem compress_decompress_file m d `{!RoundTrips m d} w path a : is_compressed m = true →
  files w !! path = Some d → path ≠ bs "-" → encode_with m d = Ok a →
  let arch := path ++ [DOT] ++ ext m in
  files w !! arch = None → creatable arch = true → creatable path = true →
  ∃ w', compress_cmd m path None w = (w', Ok tt) ∧
    files w' = <[arch := a]> (delete path (files w)) ∧
    decompress_cmd arch None w' = (w, Ok tt).
Proof.
  intros Hm Hd Hp Ha arch Harch Hc1 Hc2.
  assert (Hne : arch ≠ path) by (intros E; by rewrite E, Hd in Harch).
  assert (Hdash : arch ≠ bs "-").
  { intros E%(f_equal length). unfold arch in E. rewrite !length_app in E.
    pose proof (ext_nonempty m Hm). destruct (ext m); [done|]. cbn in E. destruct path; cbn in E; lia. }
  assert (Hsp : rsplit_once DOT arch = Some (path, ext m)) by (apply rsplit_once_ext, ext_no_dot).
  destruct (round_trips a Ha) as (Hc & He & Hdec).
  exists (mkWorld (<[arch := a]> (delete path (files w))) (std_in w) (std_out w)). split_and!.
  - unfold compress_cmd. rewrite (open_file w path d Hd Hp). fold arch. unfold create. rewrite Hc1.
    cbn [mbind res_bind content]. cbn [files]. rewrite lookup_insert_ne, Hd by done.
    unfold get_encoder. cbn [default Datatypes.id]. rewrite Hm, Ha. unfold write_output, remove. cbn [files std_in std_out].
    rewrite insert_insert_eq. by rewrite delete_insert_ne.
  - done.
  - unfold decompress_cmd. erewrite (open_file _ arch a) by (done || by cbn; rewrite lookup_insert_eq).
    unfold content at 1 2 3 4 5. cbn [files]. rewrite lookup_insert_eq. cbn [default Datatypes.id].
    rewrite Hc. cbn [negb]. rewrite Hsp.
    rewrite bool_decide_true by done. unfold create. rewrite Hc2. cbn [mbind res_bind content files].
    rewrite lookup_insert_ne, lookup_insert_eq by done. cbn [default Datatypes.id]. rewrite take_drop.
    unfold get_decoder. rewrite Hc, Hdec. unfold write_output, remove. cbn [files std_in std_out].
    f_equal. destruct w as [fs i o]. cbn in *. f_equal.
    rewrite insert_insert_eq, delete_insert_ne, delete_insert_eq by done.
    rewrite (delete_id (delete path fs)) by (by rewrite lookup_delete_ne).
    by rewrite insert_delete_eq, insert_id.
Qed.
End Commands.

(** ** Legacy LZ4

    The library's encoder and decoder of that format are those of [Lz4]; [io::copy]
    writes the input in pieces of a buffer's length. *)

(** The data in pieces of [n] bytes; [n] is not 0. *)
Fixpoint pieces (fuel n : nat) (d : bytes) : list bytes :=
  match fuel with
  | O => []
  | S fuel => match d with [] => [] | _ => take n d :: pieces fuel n (drop n d) end
  end.

Lemma pieces_ok fuel n d : (0 < n)%nat → (length d < fuel)%nat →
  concat (pieces fuel n d) = d ∧ Forall (λ w, w ≠ []) (pieces fuel n d).
Proof.
  revert d. induction fuel as [|fuel IH]; intros d Hn Hf; [lia|]. cbn [pieces].
  destruct d as [|b d']; [done|]. set (d := b :: d') in *.
  destruct (IH (drop n d)) as [E Hne]; [done|unfold d in *; rewrite length_drop; cbn in *; lia|].
  cbn [concat]. rewrite E, take_drop. split; [done|]. constructor; [|done]. destruct n; [lia|done].
Qed.

Definition COPY_BUF : nat := Z.to_nat 8192.
Definition LZ4_BLOCK : nat := Z.to_nat 0x800000.

Section Lz4Codec.
Context (lz4_compress lz4_decompress : bytes → option bytes) (in_len : Z) (read_some : Z → Z).
Context (codec_ok : ∀ b, b ≠ [] → (length b ≤ LZ4_BLOCK)%nat →
  ∃ z, lz4_compress b = Some z ∧ lz4_decompress z = Some b ∧ z ≠ [] ∧ len z ≤ in_len).
Context (in_len_small : in_len < LZ4_MAGIC).
Context (read_some_ok : ∀ n, 0 ≤ n → Z.min 1 n ≤ read_some n ≤ n).

(** [get_encoder(LZ4_LEGACY)] with the copy, and the decoder with fuel for [2 ^ 32] bytes. *)
Definition lz4_codecs (others : Codecs) (decode_fuel : nat) : Codecs := {|
  check_fmt b := if starts_with (le_bytes 4 LZ4_MAGIC) b then LZ4_LEGACY else check_fmt (Codecs := others) b;
  encode_with f d :=
    if decide (f = LZ4_LEGACY) then encode LZ4_BLOCK lz4_compress false (pieces (S (length d)) COPY_BUF d)
    else encode_with (Codecs := others) f d;
  decode_with f a :=
    if decide (f = LZ4_LEGACY)
    then read_to_end lz4_decompress in_len read_some decode_fuel (new_decoder a) COPY_BUF
    else decode_with (Codecs := others) f a
|}.

(** The law holds of every non-empty input below 4 GiB; an empty one makes an empty
    archive, which no format is recognised from. *)
Lemma lz4_round_trips others fuel d : d ≠ [] → len d < 2 ^ 32 → (length d < fuel)%nat →
  RoundTrips (H := lz4_codecs others fuel) LZ4_LEGACY d.
Proof.
  intros Hd Hlen Hf a Ha. cbn [encode_with decode_with check_fmt lz4_codecs] in Ha |- *.
  rewrite decide_True in Ha by done.
  destruct (pieces_ok (S (length d)) COPY_BUF d) as [Hc Hne]; [unfold COPY_BUF; lia|lia|].
  destruct (pieces (S (length d)) COPY_BUF d) as [|w ws] eqn:E; [by rewrite <- Hc in Hd|].
  rewrite <- Hc in Hlen, Hf.
  destruct (lz4_archive LZ4_BLOCK lz4_compress lz4_decompress in_len read_some) with (lg := false) (w := w) (ws := ws)
    (n := COPY_BUF) (fuel := fuel) as (a' & Ha' & (t & Ht) & Hr); try done.
  all: try (unfold LZ4_BLOCK, COPY_BUF; lia).
  assert (a' = a) as -> by congruence.
  assert (starts_with (le_bytes 4 LZ4_MAGIC) (take 4096 a) = true) as ->.
  { apply starts_with_spec. exists (take 4092 t). rewrite Ht, take_app_ge by (rewrite length_le_bytes; apply Nat.leb_le; reflexivity).
    by rewrite length_le_bytes. }
  cbv zeta. rewrite decide_True by done. split_and!; [done|done|]. by rewrite Hr, Hc.
Qed.
End Lz4Codec.

(** A format that only puts two bytes in front. *)
Definition stored_codecs : Codecs := {|
  check_fmt b := if starts_with (bs "GZ") b then GZIP else UNKNOWN;
  encode_with _ d := Ok (bs "GZ" ++ d);
  decode_with _ a := of_option tt (strip_prefix (bs "GZ") a)
|}.

Lemma stored_round_trips d : RoundTrips (H := stored_codecs) ZOPFLI d.
Proof.
  intros a Ha. cbn [encode_with stored_codecs] in Ha. assert (a = bs "GZ" ++ d) as -> by congruence. cbn zeta.
  unfold check_fmt, decode_with, stored_codecs.
  assert (starts_with (bs "GZ") (take 4096 (bs "GZ" ++ d)) = true) as ->.
  { apply starts_with_spec. by exists (take 4094 d). }
  split_and!; [done|done|]. by rewrite strip_prefix_app.
Qed.

Definition disk : World := mkWorld {[ bs "ramdisk.cpio" := bs "070701" ]} [] [].

Lemma compress_decompress_file_witness : ∃ w',
  compress_cmd (H := stored_codecs) (λ _, true) ZOPFLI (bs "ramdisk.cpio") None disk = (w', Ok tt) ∧
  files w' = {[ bs "ramdisk.cpio.gz" := bs "GZ070701" ]} ∧
  decompress_cmd (H := stored_codecs) (λ _, true) (bs "ramdisk.cpio.gz") None w' = (disk, Ok tt).
Proof.
  pose proof (stored_round_trips (bs "070701")) as Hr.
  destruct (compress_decompress_file (H := stored_codecs) (λ _, true) ZOPFLI (bs "070701") disk (bs "ramdisk.cpio")
              (bs "GZ070701")) as (w' & E1 & E2 & E3).
  all: try reflexivity.
  - by_compute.
  - exists w'. split_and!; [exact E1|rewrite E2; by_compute|exact E3].
Defined.
