(* ===== verification/Sign.v ===== *)
(** Sign: AVB 1.0 signatures of boot images, [native/src/boot/sign.rs], and the commands
    [sign] and [verify] of [native/src/boot/cli.rs].

    Hashes, keys, signatures, certificates and their DER encoding come from libraries:
    they are an interface ([Crypto]) with the laws their documentation states.  The
    parser of boot images (C++) is a parameter. *)

From S2P Require Import Prelude Files Payload.

(** ** The interface *)

(** The four algorithms, in the order keys are tried. *)
Inductive Alg := RSA | P256 | P384 | P521.
Inductive Digest := Sha256 | Sha384 | Sha512.

Definition digest_of (a : Alg) : Digest :=
  match a with RSA | P256 => Sha256 | P384 => Sha384 | P521 => Sha512 end.

Record AuthenticatedAttributes := mkAttributes { target : bytes; length_ : Z }.

Class Crypto := {
  Certificate : Type;
  AlgId : Type;
  PublicKey : Type;
  PrivateKey : Type;
  cert_from_pem : bytes → option Certificate;
  signature_algorithm : Certificate → AlgId;
  public_key : Alg → Certificate → option PublicKey;
  private_key : Alg → bytes → option PrivateKey;
  hash : Digest → bytes → bytes;
  sign_prehash : Alg → PrivateKey → bytes → option bytes;
  verify_prehash : Alg → PublicKey → bytes → bytes → bool;
  printable : bytes → bool;
  attributes_der : AuthenticatedAttributes → option bytes
}.

Record BootSignature `{Crypto} := mkBootSignature {
  format_version : Z;
  certificate : Certificate;
  algorithm_identifier : AlgId;
  authenticated_attributes : AuthenticatedAttributes;
  signature : bytes
}.

(** The DER encoding of the whole structure. *)
Class Der `{Crypto} := {
  to_der : BootSignature → option bytes;
  decode_der : bytes → option BootSignature
}.

(** A sequence starts with its tag, and decodes whatever comes after it. *)
Class DerOk `{Der} : Prop := {
  der_decodes s b tail : to_der s = Some b → decode_der (b ++ tail) = Some s;
  der_tag s b : to_der s = Some b → head b = Some Byte.x30
}.

Section Sign.
Context `{Der}.

(** The first algorithm whose key parses. *)
Definition first_key {K} (key : Alg → option K) : option (Alg * K) :=
  match key RSA, key P256, key P384, key P521 with
  | Some k, _, _, _ => Some (RSA, k)
  | None, Some k, _, _ => Some (P256, k)
  | None, None, Some k, _ => Some (P384, k)
  | None, None, None, Some k => Some (P521, k)
  | None, None, None, None => None
  end.

(** [Verifier]: the key and the data so far. *)
Definition from_public_key (c : Certificate) : res unit (Alg * PublicKey) :=
  of_option tt (first_key (λ a, public_key a c)).
Definition verify_digest (v : Alg * PublicKey) (data sig : bytes) : res unit unit :=
  if verify_prehash v.1 v.2 (hash (digest_of v.1) data) sig then Ok tt else Err tt.

(** [Signer]. *)
Definition from_private_key (key : bytes) : res unit (Alg * PrivateKey) :=
  of_option tt (first_key (λ a, private_key a key)).
Definition sign_digest (s : Alg * PrivateKey) (data : bytes) : res unit bytes :=
  of_option tt (sign_prehash s.1 s.2 (hash (digest_of s.1) data)).

(** [BootSignature::verify]. *)
Definition verify_signature (s : BootSignature) (payload : bytes) : res unit unit :=
  if negb (length_ (authenticated_attributes s) mod 2 ^ 64 =? len payload) then Err tt
  else
    verifier ← from_public_key (certificate s);
    attr ← of_option tt (attributes_der (authenticated_attributes s));
    verify_digest verifier (payload ++ attr) (signature s).

(** [BootImage::verify] on the image's payload and what follows it; [cert] is the content
    of the certificate file. *)
Definition verify (payload tail : bytes) (cert : option bytes) : res unit unit :=
  if starts_with (bs "AVB0") tail then Err tt
  else
    sig ← of_option tt (decode_der tail);
    sig ← match cert with
          | None => Ok sig
          | Some pem =>
              c ← of_option tt (cert_from_pem pem);
              Ok (mkBootSignature _ (format_version sig) c (algorithm_identifier sig)
                    (authenticated_attributes sig) (signature sig))
          end;
    verify_signature sig payload.

(** The bundled certificate and key. *)
Context (VERITY_PEM VERITY_PK8 : bytes).

Definition sign_boot_image (payload name : bytes) (cert key : option bytes) : res unit bytes :=
  cert ← of_option tt (cert_from_pem (default VERITY_PEM cert));
  signer ← from_private_key (default VERITY_PK8 key);
  if negb (printable name) then Err tt
  else
    let attr := mkAttributes name (len payload) in
    der ← of_option tt (attributes_der attr);
    sig ← sign_digest signer (payload ++ der);
    of_option tt (to_der (mkBootSignature _ 1 cert (signature_algorithm cert) attr sig)).

(** [unwrap_or_default]. *)
Definition sign_payload_for_cxx (payload : bytes) : bytes :=
  default [] (res_ok (sign_boot_image payload (bs "/boot") None None)).

(** ** The commands *)

(** What the parser of images tells: the payload, where the tail starts, and whether the
    image is signed. *)
Record BootImage := mkBootImage { payload_ : bytes; tail_off : Z; is_signed : bool }.
Context (parse_image : bytes → BootImage).

Definition verify_cmd (image : bytes) (cert : option bytes) : bool :=
  let img := parse_image image in
  match cert with
  | None => is_signed img
  | Some _ => is_ok (verify (payload_ img) (drop (Z.to_nat (tail_off img)) image) cert)
  end.

(** The signature over the tail, and zeros to the end of the file. *)
Definition sign_cmd (image : bytes) (name cert key : option bytes) : res unit bytes :=
  let img := parse_image image in
  sig ← sign_boot_image (payload_ img) (default (bs "/boot") name) cert key;
  let fd := write_at (tail_off img) sig image in
  let current := tail_off img + len sig in
  if current <? len fd
  then z ← write_zeros (len fd - current) []; Ok (write_at current z fd)
  else Ok fd.

(** ** Properties *)

(** The certificate and the private key belong together. *)
Definition key_pair (pem key : bytes) : Prop := ∃ c a pk sk,
  cert_from_pem pem = Some c ∧ first_key (λ a, public_key a c) = Some (a, pk) ∧
  first_key (λ a, private_key a key) = Some (a, sk) ∧
  ∀ h s, sign_prehash a sk h = Some s → verify_prehash a pk h s = true.

Lemma head_not_avb b tail : head b = Some Byte.x30 → starts_with (bs "AVB0") (b ++ tail) = false.
Proof.
  intros Hb. destruct b as [|c b]; [done|]. injection Hb as ->.
  apply not_true_is_false. intros (r & E)%starts_with_spec. discriminate E.
Qed.

Context `{!DerOk}.

Lemma sign_verify_image payload name cert key der n : len payload < 2 ^ 64 →
  key_pair (default VERITY_PEM cert) (default VERITY_PK8 key) →
  sign_boot_image payload name cert key = Ok der →
  verify payload (der ++ zeros n) None = Ok tt ∧
  verify payload (der ++ zeros n) (Some (default VERITY_PEM cert)) = Ok tt ∧
  ∀ other c, len other ≠ len payload → verify other (der ++ zeros n) c ≠ Ok tt.
Proof.
  intros Hlen (c & a & pk & sk & Hc & Hpk & Hsk & Hsv) Hs. unfold sign_boot_image in Hs.
  rewrite Hc in Hs. cbn [of_option mbind res_bind] in Hs. unfold from_private_key in Hs.
  rewrite Hsk in Hs. cbn [of_option mbind res_bind] in Hs.
  destruct (printable name); [|done]. cbn [negb] in Hs.
  destruct (attributes_der _) as [attr|] eqn:Ha; [|done]. cbn [of_option mbind res_bind] in Hs.
  unfold sign_digest in Hs. cbn [fst snd] in Hs.
  destruct (sign_prehash a sk _) as [sig|] eqn:Esig; [|done]. cbn [of_option mbind res_bind] in Hs.
  destruct (to_der _) as [b|] eqn:Eb; [|done]. cbn [of_option] in Hs. injection Hs as ->.
  pose proof (len_nonneg payload).
  assert (Hv : ∀ c', c' = c → verify_signature (mkBootSignature _ 1 c' (signature_algorithm c)
                 (mkAttributes name (len payload)) sig) payload = Ok tt).
  { intros c' ->. unfold verify_signature. cbn [authenticated_attributes length_ certificate signature].
    rewrite Z.mod_small, Z.eqb_refl by lia. cbn [negb]. unfold from_public_key. rewrite Hpk.
    cbn [of_option mbind res_bind]. rewrite Ha. cbn [of_option mbind res_bind].
    unfold verify_digest. cbn [fst snd]. by rewrite (Hsv _ _ Esig). }
  unfold verify. rewrite head_not_avb by (by eapply der_tag). rewrite (der_decodes _ _ _ Eb).
  cbn [of_option mbind res_bind]. split_and!.
  - by apply Hv.
  - rewrite Hc. cbn [of_option mbind res_bind]. by apply Hv.
  - intros other c' Hne.
    assert (Hrej : ∀ c'' , verify_signature (mkBootSignature _ 1 c'' (signature_algorithm c)
                     (mkAttributes name (len payload)) sig) other = Err tt).
    { intros c''. unfold verify_signature. cbn [authenticated_attributes length_].
      rewrite Z.mod_small by lia. by rewrite (proj2 (Z.eqb_neq _ _)) by congruence. }
    destruct c' as [pem|]; cbn [mbind res_bind]; [|by rewrite Hrej].
    destruct (cert_from_pem pem); cbn [of_option mbind res_bind]; [|done].
    cbn [format_version algorithm_identifier authenticated_attributes signature]. by rewrite Hrej.
Qed.

Lemma write_at_end p d r e : len d = len r → write_at (len p) d (p ++ r ++ e) = p ++ d ++ e.
Proof.
  intros Hd. unfold len in Hd. destruct d as [|b d'].
  - destruct r; [done|cbn in Hd; lia].
  - rewrite write_at_nonempty by done. set (d := b :: d') in *.
    rewrite !len_app. replace (len p - (len p + (len r + len e))) with (- (len r + len e)) by lia.
    unfold zeros.
    assert (Z.to_nat (- (len r + len e)) = 0%nat) as -> by (pose proof (len_nonneg r); pose proof (len_nonneg e); lia).
    cbn [replicate]. rewrite app_nil_r. unfold len. rewrite Nat2Z.id, take_app_length. do 2 f_equal.
    rewrite app_assoc. apply drop_app_length'. rewrite length_app. lia.
Qed.

(** The file after signing: what precedes the tail, the signature, zeros. *)
Lemma sign_cmd_file image name cert key sig :
  let off := tail_off (parse_image image) in
  0 ≤ off ≤ len image →
  sign_boot_image (payload_ (parse_image image)) (default (bs "/boot") name) cert key = Ok sig →
  sign_cmd image name cert key = Ok (take (Z.to_nat off) image ++ sig ++ zeros (len image - off - len sig)).
Proof.
  intros off Hoff Hs. unfold sign_cmd. rewrite Hs. cbn [mbind res_bind]. fold off.
  set (p := take (Z.to_nat off) image). set (r := drop (Z.to_nat off) image).
  assert (Himg : image = p ++ r) by (unfold p, r; by rewrite take_drop).
  assert (Hp : off = len p) by (unfold p, len in *; rewrite length_take; lia).
  rewrite Himg, Hp. rewrite (len_app p r).
  destruct (decide (len sig ≤ len r)) as [Hle|Hgt].
  - assert (Hr : r = take (length sig) r ++ drop (length sig) r) by (by rewrite take_drop).
    assert (E : write_at (len p) sig (p ++ r) = p ++ sig ++ drop (length sig) r).
    { rewrite Hr at 1. apply write_at_end. unfold len in *. rewrite length_take. lia. }
    rewrite E, !len_app.
    assert (Hd : len (drop (length sig) r) = len r - len sig) by (unfold len in *; rewrite length_drop; lia).
    destruct (Z.ltb_spec (len p + len sig) (len p + (len sig + len (drop (length sig) r)))) as [Hlt|Hge].
    + replace (len p + (len sig + len (drop (length sig) r)) - (len p + len sig)) with (len r - len sig) by lia.
      unfold write_zeros. rewrite write_zeros_ok by lia. cbn [mbind res_bind app].
      rewrite app_assoc, <- len_app. rewrite <- (app_nil_r (drop (length sig) r)).
      rewrite write_at_end by (rewrite len_zeros; lia). rewrite app_nil_r, <- app_assoc. do 4 f_equal. lia.
    + assert (drop (length sig) r = []) as -> by (apply nil_length_inv; unfold len in *; lia).
      do 3 f_equal. unfold zeros. by replace (Z.to_nat _) with 0%nat by lia.
  - assert (E : write_at (len p) sig (p ++ r) = p ++ sig).
    { rewrite write_at_nonempty by (intros ->; unfold len in Hgt; cbn in Hgt; lia).
      rewrite take_app_le by (rewrite length_app; unfold len; lia).
      unfold len. rewrite Nat2Z.id, take_app_length. rewrite drop_ge; [by rewrite app_nil_r|].
      rewrite length_app. unfold len in *. lia. }
    rewrite E, !len_app, (proj2 (Z.ltb_ge _ _)) by lia. do 3 f_equal.
    unfold zeros. replace (Z.to_nat _) with 0%nat by lia. by rewrite app_nil_r.
Qed.

(** C36: signing an image with a certificate and its key writes only behind the image: the
    bytes before the tail are untouched and the tail is the signature and zeros to the
    end of the file; and verifying the result against that certificate succeeds, while
    no image of another length verifies with that tail. *)
Theorem sign_cmd_verifies image name cert key image' :
  let img := parse_image image in
  0 ≤ tail_off img ≤ len image → len (payload_ img) < 2 ^ 64 →
  key_pair (default VERITY_PEM cert) (default VERITY_PK8 key) →
  sign_cmd image name cert key = Ok image' →
  payload_ (parse_image image') = payload_ img → tail_off (parse_image image') = tail_off img →
  take (Z.to_nat (tail_off img)) image' = take (Z.to_nat (tail_off img)) image ∧
  verify_cmd image' (Some (default VERITY_PEM cert)) = true ∧
  ∀ other c, len other ≠ len (payload_ img) → verify other (drop (Z.to_nat (tail_off img)) image') c ≠ Ok tt.
Proof.
  intros img Hoff Hlen Hk Hs Hp Ht.
  destruct (sign_boot_image (payload_ img) (default (bs "/boot") name) cert key) as [sig|e| |] eqn:E;
    try (unfold sign_cmd in Hs; fold img in Hs; rewrite E in Hs; done).
  rewrite (sign_cmd_file image name cert key sig Hoff E) in Hs. fold img in Hs. injection Hs as <-.
  assert (Hpre : length (take (Z.to_nat (tail_off img)) image) = Z.to_nat (tail_off img)).
  { rewrite length_take. unfold len in Hoff. lia. }
  assert (Hdrop : drop (Z.to_nat (tail_off img))
    (take (Z.to_nat (tail_off img)) image ++ sig ++ zeros (len image - tail_off img - len sig)) =
      sig ++ zeros (len image - tail_off img - len sig)) by (by apply drop_app_length').
  destruct (sign_verify_image _ _ _ _ _ (len image - tail_off img - len sig) Hlen Hk E) as (_ & Hv & Hrej).
  split_and!.
  - by apply take_app_length'.
  - unfold verify_cmd. rewrite Hp, Ht, Hdrop, Hv. done.
  - intros other c. rewrite Hdrop. apply Hrej.
Qed.
End Sign.

(** ** A toy implementation

    The hash is the data, a key signs by putting itself in front, and a structure is a
    tag and its fields with their lengths. *)

#[global] Instance toy_crypto : Crypto := {|
  Certificate := bytes; AlgId := unit; PublicKey := bytes; PrivateKey := bytes;
  cert_from_pem pem := Some pem;
  signature_algorithm _ := tt;
  public_key a c := match a with P256 => Some c | _ => None end;
  private_key a k := match a with P256 => Some k | _ => None end;
  hash _ d := d;
  sign_prehash _ k h := Some (k ++ h);
  verify_prehash _ k h s := bool_decide (s = k ++ h);
  printable _ := true;
  attributes_der a := Some (target a ++ le_bytes 8 (length_ a))
|}.

Definition field (s : bytes) : bytes := le_bytes 8 (len s) ++ s.
Definition unfield (s : bytes) : option (bytes * bytes) :=
  let n := Z.to_nat (le_val (take 8 s)) in Some (take n (drop 8 s), drop n (drop 8 s)).

Lemma unfield_field s t : len s < 2 ^ 64 → unfield (field s ++ t) = Some (s, t).
Proof.
  intros Hs. pose proof (len_nonneg s). unfold unfield, field. rewrite <- app_assoc.
  rewrite take_app_length', drop_app_length' by (by rewrite length_le_bytes).
  rewrite le_val_bytes_small by lia. unfold len. by rewrite Nat2Z.id, take_app_length, drop_app_length.
Qed.

#[global] Instance toy_der : Der := {|
  to_der s :=
    let a := authenticated_attributes s in
    if bool_decide (format_version s = 1 ∧ len (certificate s : bytes) < 2 ^ 64 ∧ len (target a) < 2 ^ 64 ∧
                    len (signature s) < 2 ^ 64 ∧ 0 ≤ length_ a < 2 ^ 64)
    then Some (Byte.x30 :: field (certificate s : bytes) ++ field (target a) ++ field (signature s)
                 ++ le_bytes 8 (length_ a))
    else None;
  decode_der b :=
    '(c, b) ← unfield (drop 1 b);
    '(t, b) ← unfield b;
    '(s, b) ← unfield b;
    Some (mkBootSignature _ 1 (c : Certificate) (tt : AlgId) (mkAttributes t (le_val (take 8 b))) s)
|}.

#[global] Instance toy_der_ok : DerOk.
Proof.
  split.
  - intros [v c [] [t l] s] b tail Hb. cbn [to_der toy_der format_version certificate authenticated_attributes
      signature target length_] in Hb. case_bool_decide as Hok; [|done]. destruct Hok as (-> & Hc & Ht & Hs & Hl).
    assert (b = Byte.x30 :: field (c : bytes) ++ field t ++ field s ++ le_bytes 8 l) as -> by congruence.
    cbn [decode_der toy_der app drop]. rewrite <- !app_assoc, drop_0.
    rewrite unfield_field by done. cbn [mbind option_bind].
    rewrite unfield_field by done. cbn [mbind option_bind].
    rewrite unfield_field by done. cbn [mbind option_bind].
    rewrite take_app_length' by (by rewrite length_le_bytes). rewrite le_val_bytes_small by lia. done.
  - intros s b Hb. cbn [to_der toy_der] in Hb. case_bool_decide; [|done].
    by assert (b = Byte.x30 :: tail b) as -> by (injection Hb as <-; done).
Qed.

(** An image whose first four bytes are the payload. *)
Definition toy_parse (image : bytes) : BootImage := mkBootImage (take 4 image) 4 false.

Lemma sign_cmd_verifies_witness : ∃ image',
  sign_cmd (bs "key") (bs "key") toy_parse (bs "bootXXXX") None None None = Ok image' ∧
  take 4 image' = bs "boot" ∧ verify_cmd toy_parse image' (Some (bs "key")) = true.
Proof.
  destruct (sign_cmd (bs "key") (bs "key") toy_parse (bs "bootXXXX") None None None) as [image'|e| |] eqn:E.
  - exists image'. split; [done|].
    assert (Hp : take 4 image' = bs "boot") by (vm_compute in E; injection E as <-; reflexivity).
    destruct (sign_cmd_verifies (bs "key") (bs "key") toy_parse (bs "bootXXXX") None None None image')
      as (H1 & H2 & _).
    + vm_compute. split; discriminate.
    + vm_compute. reflexivity.
    + exists (bs "key"), P256, (bs "key"), (bs "key"). split_and!; [reflexivity|reflexivity|reflexivity|].
      intros h s Hs. cbn in Hs. simplify_eq. cbn. by apply bool_decide_true.
    + exact E.
    + unfold toy_parse. cbn [payload_]. by rewrite Hp.
    + reflexivity.
    + split; [exact Hp|exact H2].
  - exfalso. vm_compute in E. discriminate E.
  - exfalso. vm_compute in E. discriminate E.
  - exfalso. vm_compute in E. discriminate E.
Defined.
