(* ===== verification/CpioCli.v ===== *)
(** CpioCli: the cpio command of magiskboot, [native/src/boot/cpio.rs]: reading and writing
    the archive as a file, adding and extracting files, listing, the commands' parsers and
    their loop.

    The file system is the tree of [Dir], with the working directory at its top; what is
    printed to the standard output is kept, messages to the standard error are not. *)

From S2P Require Import Prelude Text Cstr Argh Derive Dir Files Cpio CpioPatch.

(** ** The state of a run *)

Record World := mkWorld { files : Inodes * Entries; stdout : bytes }.

(** How a command can end the run: with an error, with [return Ok(())], or in [exit] after a
    message. *)
Inductive End := Failed | Returned | Exited (code : Z) (message : option bytes).

Definition C (A : Type) : Type := World → World * res End A.
#[global] Instance C_ret : MRet C := λ A a w, (w, Ok a).
#[global] Instance C_bind : MBind C := λ A B f m w,
  match m w with
  | (w, Ok a) => f a w
  | (w, Err e) => (w, Err e)
  | (w, Panic) => (w, Panic)
  | (w, NoFuel) => (w, NoFuel)
  end.

Definition stop {A} (e : End) : C A := λ w, (w, Err e).
Definition lift {E A} (r : res E A) : C A := λ w,
  (w, match r with Ok a => Ok a | Err _ => Err Failed | Panic => Panic | NoFuel => NoFuel end).
(** A call on the file system; its error is logged. *)
Definition on_files {A} (m : D Inodes A) : C A := λ w,
  let '(f, r) := m (files w) in (mkWorld f (stdout w), (lift r w).2).
Definition println (s : bytes) : C unit := λ w, (mkWorld (files w) (stdout w ++ s ++ [LF]), Ok tt).

Definition or_nothing {A} (m : D Inodes A) : D Inodes unit := λ w, ((m w).1, Ok tt).

(** ** Paths *)

(** A call on the entry a path names; [top] is the call on the directory the path starts
    at, which a path of slashes names. *)
Definition at_path {A} (top : D Inodes A) (call : bytes → D Inodes A) (path : bytes) : D Inodes A :=
  if bool_decide (path = []) then fail ENOENT else at_comps top call (Files.components path).

Definition stat_entry (x : bytes) : D Inodes Node := λ w, (w, of_option ENOENT (assoc x w.2)).

(** Truncates a file and writes to it. *)
Definition overwrite (i : Z) (d : bytes) : D Inodes unit := λ w, ((alter (λ '(a, _), (a, d)) i w.1, w.2), Ok tt).

Section Commands.
Context (created : Z → Attr).
(** Device numbers, of the C library. *)
Context (makedev : Z → Z → Z) (major minor : Z → Z).
Context (xz unxz : bytes → option bytes).
Context (env : bytes → option bytes).
(** A size in abbreviated form, of the size package. *)
Context (fmt_size : Z → bytes).

(** [mknod]. *)
Definition mknod_at (x : bytes) (mode dev : Z) : D Inodes unit := λ w,
  match assoc x w.2 with
  | Some _ => (w, Err EEXIST)
  | None => ((w.1, Dir.put x (Special (created (Z.land mode 0xfff)) (mkDev (Z.land mode S_IFMT) dev)) w.2), Ok tt)
  end.

(** [lstat]; what is asked of the topmost directory is only that it is one. *)
Definition lstat (path : bytes) : D Inodes Node :=
  at_path (λ w, (w, Ok (Directory (created 0x1ed) w.2))) stat_entry path.

(** Opened for reading, then read to the end; a link is not followed. *)
Definition read_file (path : bytes) : D Inodes bytes :=
  n ← lstat path;
  match n with
  | Regular i => get (λ t, of_option ENOENT (snd <$> t !! i))
  | Directory _ _ => fail EISDIR
  | _ => fail Escapes
  end.

(** Created or truncated, then written. *)
Definition write_file (path : bytes) (mode : Z) (d : bytes) : D Inodes unit :=
  at_path (fail EISDIR) (λ x, i ← open_trunc created x mode; overwrite i d) path.

(** ** The archive as a file *)

(** [MappedFile::open]: mapping no bytes is an error. *)
Definition map_file (path : bytes) : D Inodes bytes :=
  data ← read_file path;
  if bool_decide (data = []) then fail EINVAL else mret data.

Definition load_from_file (path : bytes) : C Cpio :=
  data ← on_files (map_file path); lift (load_from_data data).

Definition dump_to (c : Cpio) (path : bytes) : C unit := on_files (write_file path 0x1b6 (dump c)).

(** ** Extracting *)

Definition c_uint (z : Z) : LoggedResult Z := if (0 <=? z) && (z <? 2 ^ 32) then Ok z else Err tt.

Definition extract_entry (c : Cpio) (path out : bytes) : C unit :=
  entry ← lift (of_option tt (c !! path));
  _ ← (match Cstr.Path.parent_dir out with
       | Some dir => on_files (mkdirs created (Buf.as_str (Buf.push_str (Buf.new 4096) dir).1) 0x1ed)
       | None => mret tt
       end);
  let md := Z.land (mode entry) 0x1ff in
  let kind := Z.land (mode entry) S_IFMT in
  if kind =? S_IFDIR then on_files (Files.mkdir created out md)
  else if kind =? S_IFREG then on_files (write_file out md (data entry))
  else if kind =? S_IFLNK then
    if utf8_valid (data entry) then
      on_files (at_path (fail EEXIST) (λ x, create_symlink_at created x (Buf.as_str (Buf.push_str (Buf.new 4096) (data entry)).1)) out)
    else stop Failed
  else if (kind =? S_IFBLK) || (kind =? S_IFCHR) then
    ma ← lift (c_uint (rdevmajor entry));
    mi ← lift (c_uint (rdevminor entry));
    on_files (or_nothing (at_path (fail EEXIST) (λ x, mknod_at x (mode entry) (makedev ma mi)) out))
  else stop Failed.

Fixpoint extract_all (c : Cpio) (paths : list bytes) : C unit :=
  match paths with
  | [] => mret tt
  | path :: paths =>
      if bool_decide (path = bs ".") || bool_decide (path = bs "..") then extract_all c paths
      else _ ← extract_entry c path path; extract_all c paths
  end.

Definition extract (c : Cpio) (path out : option bytes) : C unit :=
  match norm_path <$> path, out with
  | Some path, Some out => extract_entry c path out
  | _, _ => extract_all c (entries c).*1
  end.

(** ** Adding a file *)

Definition add (c : Cpio) (md : Z) (path file : bytes) : C Cpio :=
  if ends_with (bs "/") path then stop Failed
  else
    n ← on_files (lstat file);
    '(content, rmaj, rmin, md) ←
      match n with
      | Regular _ | Symlink _ _ =>
          content ← on_files (read_file file);
          mret (content, 0, 0, Z.lor md S_IFREG)
      | Special _ k =>
          if dev_type k =? S_IFBLK then mret ([], major (rdev k), minor (rdev k), Z.lor md S_IFBLK)
          else if dev_type k =? S_IFCHR then mret ([], major (rdev k), minor (rdev k), Z.lor md S_IFCHR)
          else stop Failed
      | Directory _ _ => stop Failed
      end;
    mret (<[norm_path path := mkEntry md 0 0 rmaj rmin content]> c).

(** ** Listing *)

Definition bit (m b : Z) (c : string) : bytes := if negb (Z.land m b =? 0) then bs c else bs "-".
Definition TAB : bytes := [Byte.x09].

(** [Display] for [CpioEntry]. *)
Definition show_entry (e : CpioEntry) : bytes :=
  let m := mode e in
  let kind := Z.land m S_IFMT in
  (if kind =? S_IFDIR then bs "d" else if kind =? S_IFREG then bs "-" else if kind =? S_IFLNK then bs "l"
   else if kind =? S_IFBLK then bs "b" else if kind =? S_IFCHR then bs "c" else bs "?") ++
  bit m 0x100 "r" ++ bit m 0x80 "w" ++ bit m 0x40 "x" ++ bit m 0x20 "r" ++ bit m 0x10 "w" ++ bit m 8 "x" ++
  bit m 4 "r" ++ bit m 2 "w" ++ bit m 1 "x" ++
  TAB ++ fmt_dec (uid e) ++ TAB ++ fmt_dec (gid e) ++ TAB ++ fmt_size (len (data e)) ++
  TAB ++ fmt_dec (rdevmajor e) ++ bs ":" ++ fmt_dec (rdevminor e).

Definition slashes (p : bytes) : nat := length (filter (.= SLASH) p).

(** Whether [ls] lists a name: [path] is normalised, with a slash in front unless empty. *)
Definition lists (path : bytes) (recursive : bool) (name : bytes) : bool :=
  match strip_prefix path (bs "/" ++ name) with
  | None => false
  | Some p =>
      if nonempty p && negb (starts_with (bs "/") p) then false
      else negb (negb recursive && nonempty p && (1 <? slashes p)%nat)
  end.

Definition ls (c : Cpio) (path : bytes) (recursive : bool) : C unit :=
  let path := norm_path path in
  let path := if bool_decide (path = []) then path else bs "/" ++ path in
  foldl (λ (m : C unit) '(name, entry), _ ← m; println (show_entry entry ++ TAB ++ name)) (mret tt)
    (filter (λ p, lists path recursive p.1 = true) (entries c)).

(** ** The commands *)

Inductive CpioAction :=
  | Test | Restore | Patch
  | Exists (path : bytes)
  | Backup (origin : bytes) (skip_compress : bool)
  | Remove (path : bytes) (recursive : bool)
  | Move (from to : bytes)
  | Extract (paths : list bytes)
  | MakeDir (mode : Z) (dir : bytes)
  | Link (src dst : bytes)
  | Add (mode : Z) (path file : bytes)
  | List (path : bytes) (recursive : bool).

(** A positional of another type than [String]. *)
Inductive Val := VStr (s : bytes) | VMode (m : Z).

(** [ParseIntError] of [u32::from_str_radix(_, 8)]: the first digit that fails decides. *)
Fixpoint digits_error (acc : Z) (s : bytes) : bytes :=
  match s with
  | [] => bs "number too large to fit in target type"
  | c :: s =>
      match to_digit 8 c with
      | None => bs "invalid digit found in string"
      | Some d =>
          if acc * 8 + d <? 2 ^ 32 then digits_error (acc * 8 + d) s
          else bs "number too large to fit in target type"
      end
  end.

Definition parse_mode_error (s : bytes) : bytes :=
  if bool_decide (s = []) then bs "cannot parse integer from empty string"
  else if bool_decide (s = bs "+") || bool_decide (s = bs "-") then bs "invalid digit found in string"
  else digits_error 0 (default s (strip_prefix (bs "+") s)).

Definition parse_val (f : StructField) (s : bytes) : res bytes Val :=
  match from_str_fn (attrs f) with
  | Some _ => match parse_mode s with Some m => Ok (VMode m) | None => Err (parse_mode_error s) end
  | None => Ok (VStr s)
  end.

(** The structs. *)
Definition string_ty : Ty := Derive.path (bs "String").
Definition meta_str (key value : string) : Meta := NameValue (bs key) (ELit (LStr (bs value))).
Definition str_arg (ident arg : string) : RawField := field ident [Path (bs "positional"); meta_str "arg_name" arg] string_ty.
Definition mode_arg : RawField :=
  field "mode" [Path (bs "positional"); MList (bs "from_str_fn") (inr [EPath (bs "parse_mode")]) (inr (bs "parse_mode"))]
    (Derive.path (bs "mode_t")).
Definition short_switch (ident c : string) : RawField :=
  field ident [Path (bs "switch"); NameValue (bs "short") (ELit (LChar (bs c)))] (Derive.path (bs "bool")).

(** [String::from("/")] as it is written. *)
Definition root_default : bytes := bs "String::from(" ++ [Byte.x22] ++ bs "/" ++ [Byte.x22] ++ bs ")".

Definition exists_fields := [str_arg "path" "entry"].
Definition backup_fields := [short_switch "skip_compress" "n"; str_arg "origin" "orig"].
Definition remove_fields := [short_switch "recursive" "r"; str_arg "path" "entry"].
Definition move_fields := [str_arg "from" "source"; str_arg "to" "dest"].
Definition extract_fields := [field "paths" [Path (bs "positional"); Path (bs "greedy")] (vec_of string_ty)].
Definition mkdir_fields := [mode_arg; str_arg "dir" "entry"].
Definition link_fields := [str_arg "src" "entry"; str_arg "dst" "target"].
Definition add_fields := [mode_arg; str_arg "path" "entry"; str_arg "file" "infile"].
Definition list_fields :=
  [short_switch "recursive" "r";
   field "path" [Path (bs "positional"); NameValue (bs "default") (ELit (LStr root_default))] string_ty].

Definition default_val (tokens : bytes) : Val := VStr (if bool_decide (tokens = root_default) then bs "/" else []).

Definition val_parser (name : string) (fs : list RawField) (make : list (FieldValue Val unit) → option CpioAction) :
    list bytes → list bytes → res EarlyExit CpioAction :=
  derived_parser parse_val default_val (sub_struct name fs) [] no_sub make.

Definition cpio_variants : list (bytes * (list bytes → list bytes → res EarlyExit CpioAction)) :=
  [(bs "test", val_parser "test" [] (λ vs, match vs with [] => Some Test | _ => None end));
   (bs "restore", val_parser "restore" [] (λ vs, match vs with [] => Some Restore | _ => None end));
   (bs "patch", val_parser "patch" [] (λ vs, match vs with [] => Some Patch | _ => None end));
   (bs "exists", val_parser "exists" exists_fields (λ vs, match vs with [FOne (VStr p)] => Some (Exists p) | _ => None end));
   (bs "backup", val_parser "backup" backup_fields
      (λ vs, match vs with [FFlag (FBool n); FOne (VStr o)] => Some (Backup o n) | _ => None end));
   (bs "rm", val_parser "rm" remove_fields
      (λ vs, match vs with [FFlag (FBool r); FOne (VStr p)] => Some (Remove p r) | _ => None end));
   (bs "mv", val_parser "mv" move_fields
      (λ vs, match vs with [FOne (VStr f); FOne (VStr t)] => Some (Move f t) | _ => None end));
   (bs "extract", val_parser "extract" extract_fields
      (λ vs, match vs with
             | [FMany l] => Some (Extract (omap (λ v, match v with VStr s => Some s | _ => None end) l))
             | _ => None
             end));
   (bs "mkdir", val_parser "mkdir" mkdir_fields
      (λ vs, match vs with [FOne (VMode m); FOne (VStr d)] => Some (MakeDir m d) | _ => None end));
   (bs "ln", val_parser "ln" link_fields
      (λ vs, match vs with [FOne (VStr s); FOne (VStr d)] => Some (Link s d) | _ => None end));
   (bs "add", val_parser "add" add_fields
      (λ vs, match vs with [FOne (VMode m); FOne (VStr p); FOne (VStr f)] => Some (Add m p f) | _ => None end));
   (bs "ls", val_parser "ls" list_fields
      (λ vs, match vs with [FFlag (FBool r); FOne (VStr p)] => Some (List p r) | _ => None end))].

Definition cpio_action_args (cmd args : list bytes) : res EarlyExit CpioAction :=
  x ← from_args_enum cpio_variants None cmd args; Ok x.2.

(** [CpioCommand::from_args]. *)
Definition cpio_command_args : list bytes → list bytes → res EarlyExit CpioAction :=
  derived_parser parse_val default_val
    (emitted_struct (ascii_derive [] (Struct (Named [field "action" [Path (bs "subcommand")] (Derive.path (bs "CpioAction"))]))))
    (map (λ v, mkCommand v.1 []) cpio_variants) cpio_action_args
    (λ vs, match vs with [FSub a] => Some a | _ => None end).

(** [on_early_exit]; the usage text is left out. *)
Definition on_early_exit (r : res EarlyExit CpioAction) : C CpioAction :=
  match r with
  | Ok a => mret a
  | Err e => stop (if is_help e then Exited 0 None else Exited 1 (Some (output e)))
  | Panic => λ w, (w, Panic)
  | NoFuel => λ w, (w, NoFuel)
  end.

(** [check_env]. *)
Definition check_env (name : bytes) : bool := bool_decide (env name = Some (bs "true")).

Definition run_action (c : Cpio) (a : CpioAction) : C Cpio :=
  match a with
  | Test => stop (Exited (test c) None)
  | Restore => mret (restore unxz c)
  | Patch => lift (patch (check_env (bs "KEEPVERITY")) (check_env (bs "KEEPFORCEENCRYPT")) c)
  | Exists path => stop (if exists_ c path then Returned else Failed)
  | Backup origin skip_compress =>
      λ w, match load_from_file origin w with
           | (w, Ok o) => lift (backup xz c (Ok o) skip_compress) w
           | (w, Err e) => (w, Err e)
           | (w, Panic) => (w, Panic)
           | (w, NoFuel) => (w, NoFuel)
           end
  | Remove path recursive => mret (rm c path recursive)
  | Move from to => lift (mv c from to)
  | MakeDir mode dir => mret (mkdir c mode dir)
  | Link src dst => mret (ln c src dst)
  | Add mode path file => add c mode path file
  | Extract paths =>
      if negb (bool_decide (paths = [])) && negb (length paths =? 2)%nat then stop Failed
      else _ ← extract c (paths !! 0%nat) (paths !! 1%nat); mret c
  | List path recursive => _ ← ls c path recursive; stop Returned
  end.

(** [cmd.split(' ').filter(|x| !x.is_empty())]. *)
Definition SPACE : byte := Byte.x20.
Definition cmd_words (cmd : bytes) : list bytes := List.filter nonempty (split_on SPACE cmd).

Fixpoint run_commands (file : bytes) (c : Cpio) (cmds : list bytes) : C Cpio :=
  match cmds with
  | [] => mret c
  | cmd :: cmds =>
      if starts_with (bs "#") cmd then run_commands file c cmds
      else
        a ← on_early_exit (cpio_command_args [bs "magiskboot"; bs "cpio"; file] (cmd_words cmd));
        c ← run_action c a;
        run_commands file c cmds
  end.

Definition exists_path (path : bytes) : C bool := λ w,
  let '(f, r) := lstat path (files w) in (mkWorld f (stdout w), Ok (is_ok r)).

Definition cpio_commands (file : bytes) (cmds : list bytes) : C unit :=
  there ← exists_path file;
  c ← (if there : bool then load_from_file file else mret ∅);
  c ← run_commands file c cmds;
  dump_to c file.

(** What the caller gets: [return Ok(())] is a success. *)
Inductive Result := Done (r : LoggedResult unit) | Exit (code : Z) (message : option bytes).
Definition cpio_main (file : bytes) (cmds : list bytes) (w : World) : World * Result :=
  match cpio_commands file cmds w with
  | (w, Ok _) | (w, Err Returned) => (w, Done (Ok tt))
  | (w, Err Failed) => (w, Done (Err tt))
  | (w, Err (Exited code m)) => (w, Exit code m)
  | (w, Panic) => (w, Done Panic)
  | (w, NoFuel) => (w, Done NoFuel)
  end.
End Commands.

(** ** Every command can be written

    Words after [--] are never options. *)

Definition flag_word (b : bool) (f : string) : list bytes := if b then [bs f] else [].

Inductive written : list bytes → CpioAction → Prop :=
  | w_test : written [bs "test"; bs "--"] Test
  | w_restore : written [bs "restore"; bs "--"] Restore
  | w_patch : written [bs "patch"; bs "--"] Patch
  | w_exists p : written [bs "exists"; bs "--"; p] (Exists p)
  | w_backup o n : written (bs "backup" :: flag_word n "-n" ++ [bs "--"; o]) (Backup o n)
  | w_remove p r : written (bs "rm" :: flag_word r "-r" ++ [bs "--"; p]) (Remove p r)
  | w_move f t : written [bs "mv"; bs "--"; f; t] (Move f t)
  | w_extract ps : written (bs "extract" :: bs "--" :: ps) (Extract ps)
  | w_mkdir ms m d : parse_mode ms = Some m → written [bs "mkdir"; bs "--"; ms; d] (MakeDir m d)
  | w_link s d : written [bs "ln"; bs "--"; s; d] (Link s d)
  | w_add ms m p f : parse_mode ms = Some m → written [bs "add"; bs "--"; ms; p; f] (Add m p f)
  | w_list p r : written (bs "ls" :: flag_word r "-r" ++ [bs "--"; p]) (List p r)
  | w_list_root r : written (bs "ls" :: flag_word r "-r" ++ [bs "--"]) (List (bs "/") r).

(** What a field is given: a switch, strings, or a mode. *)
Inductive Arg := AFlag (b : bool) | AStrs (ws : list bytes) | AMode (s : bytes) (m : Z).
Definition given_arg (a : Arg) : Given (V := Val) :=
  match a with
  | AFlag b => GFlag (if b then 1 else 0)
  | AStrs ws => GVals (map (λ w, (w, VStr w)) ws)
  | AMode s m => GVals [(s, VMode m)]
  end.

Definition arg_fits (p : StructField * Arg) : bool :=
  match p.2, from_str_fn (attrs p.1) with
  | AFlag _, _ | AStrs _, None | AMode _ _, Some _ => true
  | _, _ => false
  end.
Definition mode_ok (a : Arg) : Prop := match a with AMode s m => parse_mode s = Some m | _ => True end.

Lemma args_parse fs l : forallb arg_fits (zip fs l) = true → Forall mode_ok l →
  Forall (parses parse_val) (zip fs (map given_arg l)).
Proof.
  intros Hf Hm. revert fs Hf. induction Hm as [|a l Ha _ IH]; intros [|f fs] Hf; [constructor..|].
  cbn [zip zip_with map forallb] in *. apply andb_prop in Hf as [Hf1 Hf2]. constructor; [|by apply IH].
  unfold arg_fits, parses, parse_val in *. cbn [fst snd] in *. destruct a as [b|ws|s m]; cbn [given_arg]; [done|..].
  - destruct (from_str_fn (attrs f)) eqn:E; [done|]. by apply Forall_fmap, Forall_true.
  - destruct (from_str_fn (attrs f)) eqn:E; [|done]. apply Forall_singleton. cbn in *. by rewrite Ha.
Qed.

Lemma val_given k opts poss name fs (make : list (FieldValue Val unit) → option CpioAction) cmd args a :
  args_check (sub_struct name fs) k (map given_arg opts) (map given_arg poss) = true →
  forallb arg_fits (zip (take k (sub_struct name fs).2) opts) = true →
  forallb arg_fits (zip (drop k (sub_struct name fs).2) poss) = true →
  Forall mode_ok opts → Forall mode_ok poss →
  args = cmdline (zip (take k (sub_struct name fs).2) (map given_arg opts)) (zip (drop k (sub_struct name fs).2) (map given_arg poss)) →
  make (map (value_of default_val (λ _, [])) (zip (take k (sub_struct name fs).2) (map given_arg opts) ++
    zip (drop k (sub_struct name fs).2) (map given_arg poss))) = Some a →
  val_parser name fs make cmd args = Ok a.
Proof.
  intros Hc Hfo Hfp Hmo Hmp Ha Hm. apply (derived_given _ _ _ _ _ _ k (map given_arg opts) (map given_arg poss)); try done;
    by apply args_parse.
Qed.

Lemma cpio_command_run cmd name rest i g :
  starts_with (bs "-") name = false → find_variant name 0 cpio_variants = Some (i, g) →
  cpio_command_args cmd (name :: rest) = g (cmd ++ [name]) rest.
Proof.
  intros Hn Hv. unfold cpio_command_args, cpio_action_args.
  set (s := emitted_struct _).
  assert (∃ f, s.2 = [f] ∧ kind f = SubCommand ∧ optionality f = Required ∧ is_subcommand s.1 = None ∧
    help_triggers_ s.1 = None) as (f & Hs & Hk & Ho & Ht & Hh).
  { eexists. split; [vm_compute; reflexivity|]. by split_and!. }
  rewrite (derived_subcommand parse_val default_val s f cpio_variants snd _ cmd name rest i g) by done.
  by destruct (g (cmd ++ [name]) rest).
Qed.

Ltac modes := repeat (apply Forall_cons; split); try exact (Forall_nil_2 _); (exact I || assumption).
Ltac val_args k o p :=
  apply (val_given k o p); [vm_compute; reflexivity..|modes|modes|vm_compute; reflexivity|vm_compute; reflexivity].

Lemma texts_strs f ws : texts_of (f, given_arg (AStrs ws)) = ws.
Proof. unfold texts_of. cbn. induction ws as [|w ws IH]; [done|]. cbn. by rewrite IH. Qed.

(** Any number of words. *)
Lemma extract_given cmd ps : val_parser "extract" extract_fields
    (λ vs, match vs with
           | [FMany l] => Some (Extract (omap (λ v, match v with VStr s => Some s | _ => None end) l))
           | _ => None
           end) cmd (bs "--" :: ps) = Ok (Extract ps).
Proof.
  assert (∃ f, (sub_struct "extract" extract_fields).2 = [f] ∧ optionality f = Repeating) as (f & Hs & Hf)
    by (eexists; split; [vm_compute; reflexivity|done]).
  apply (val_given 0 [] [AStrs ps]); [vm_compute; reflexivity..|modes|modes| |]; rewrite Hs; cbn [take drop map zip zip_with app].
  - unfold cmdline. cbn [flat_map app]. by rewrite texts_strs, app_nil_r.
  - unfold value_of. cbn [fst snd given_arg]. rewrite Hf. do 2 f_equal.
    induction ps as [|p ps IH]; [done|]. cbn. by f_equal.
Qed.

Lemma written_args ws a cmd : written ws a → cpio_command_args cmd ws = Ok a.
Proof.
  pose (none := @nil Arg).
  intros [| | |p|o n|p r|f t|ps|ms m d Hm|s d|ms m p f Hm|p r|r];
    (erewrite cpio_command_run; [|reflexivity|reflexivity]).
  - val_args 0%nat none none.
  - val_args 0%nat none none.
  - val_args 0%nat none none.
  - val_args 0%nat none [AStrs [p]].
  - destruct n; [val_args 1%nat [AFlag true] [AStrs [o]]|val_args 1%nat [AFlag false] [AStrs [o]]].
  - destruct r; [val_args 1%nat [AFlag true] [AStrs [p]]|val_args 1%nat [AFlag false] [AStrs [p]]].
  - val_args 0%nat none [AStrs [f]; AStrs [t]].
  - apply extract_given.
  - val_args 0%nat none [AMode ms m; AStrs [d]].
  - val_args 0%nat none [AStrs [s]; AStrs [d]].
  - val_args 0%nat none [AMode ms m; AStrs [p]; AStrs [f]].
  - destruct r; [val_args 1%nat [AFlag true] [AStrs [p]]|val_args 1%nat [AFlag false] [AStrs [p]]].
  - destruct r; [val_args 1%nat [AFlag true] [AStrs []]|val_args 1%nat [AFlag false] [AStrs []]].
Qed.

(** ** Scripts *)

Definition word (x : bytes) : Prop := x ≠ [] ∧ SPACE ∉ x.

Lemma cmd_words_join ws : Forall word ws → cmd_words (join [SPACE] ws) = ws.
Proof.
  intros Hw. unfold cmd_words. destruct (decide (ws = [])) as [->|Hne]; [done|].
  rewrite split_on_join; [|done|by eapply Forall_impl; [exact Hw|]; intros ? []].
  clear Hne. induction Hw as [|x ws [Hx _] _ IH]; [done|]. cbn [List.filter].
  by rewrite (proj2 (nonempty_true x)), IH.
Qed.

(** A line of a script: a comment or a command. *)
Inductive line : bytes → option CpioAction → Prop :=
  | comment_line cmd : starts_with (bs "#") cmd = true → line cmd None
  | command_line ws a : written ws a → Forall word ws → line (join [SPACE] ws) (Some a).

(** The commands that only change the archive. *)
Definition is_edit (a : CpioAction) : bool :=
  match a with Restore | Patch | Remove _ _ | Move _ _ | MakeDir _ _ | Link _ _ => true | _ => false end.

Lemma written_name ws a : written ws a → ∃ b name rest, ws = (b :: name) :: rest ∧ b ≠ Byte.x23.
Proof. by intros []; eexists _, _, _. Qed.

Lemma command_no_comment ws a : written ws a → starts_with (bs "#") (join [SPACE] ws) = false.
Proof.
  intros (b & name & rest & -> & Hb)%written_name. destruct rest; cbn; unfold starts_with; cbn; by rewrite bool_decide_false.
Qed.

Section Scripts.
Context (created : Z → Attr) (makedev : Z → Z → Z) (major minor : Z → Z).
Context (xz unxz : bytes → option bytes) (env : bytes → option bytes) (fmt_size : Z → bytes).

Definition edit (c : Cpio) (a : CpioAction) : LoggedResult Cpio :=
  match a with
  | Restore => Ok (restore unxz c)
  | Patch => patch (check_env env (bs "KEEPVERITY")) (check_env env (bs "KEEPFORCEENCRYPT")) c
  | Remove path recursive => Ok (rm c path recursive)
  | Move from to => mv c from to
  | MakeDir mode dir => Ok (mkdir c mode dir)
  | Link src dst => Ok (ln c src dst)
  | _ => Err tt
  end.

Fixpoint edits (c : Cpio) (l : list CpioAction) : LoggedResult Cpio :=
  match l with [] => Ok c | a :: l => c ← edit c a; edits c l end.

Abbreviation act := (run_action created makedev major minor xz unxz env fmt_size).
Abbreviation loop := (run_commands created makedev major minor xz unxz env fmt_size).

Lemma run_action_edit c a w : is_edit a = true → act c a w = lift (edit c a) w.
Proof. by destruct a. Qed.

Lemma run_lines file cmds acts c w : Forall2 line cmds acts → Forall (λ a, is_edit a = true) (omap id acts) →
  loop file c cmds w = lift (edits c (omap id acts)) w.
Proof.
  intros Hl. revert c. induction Hl as [|cmd oa cmds acts Hline _ IH]; intros c He; [done|].
  cbn [run_commands]. destruct Hline as [cmd Hc|ws a Hw Hws].
  - rewrite Hc. by apply IH.
  - cbn [omap list_omap id] in *. apply Forall_cons in He as [Ha He].
    rewrite (command_no_comment ws a), cmd_words_join, (written_args ws a) by done.
    unfold mbind, C_bind. cbn [on_early_exit]. unfold mret, C_ret.
    rewrite run_action_edit by done. cbn [edits]. unfold lift at 1.
    destruct (edit c a) as [c'|e| |]; [|done..]. cbn [mbind res_bind]. by apply IH.
Qed.
End Scripts.

(** *** The archive's file *)

(** What can be done with a node that [lstat] finds. *)
Lemma stat_call {A} top0 top (call : bytes → D Inodes A) comps t es w n t' r :
  comps ≠ [] → at_comps top0 stat_entry comps (t, es) = (w, Ok n) →
  (∀ x ds, assoc x ds = Some n → call x (t, ds) = ((t', ds), r)) →
  w = (t, es) ∧ at_comps top call comps (t, es) = ((t', es), r).
Proof.
  intros Hne E Hcall. revert es w Hne E. induction comps as [|x comps IH]; intros es w Hne E; [done|].
  cbn [at_comps] in *. destruct (dots x); [done|]. destruct comps as [|y comps].
  - unfold stat_entry in E. cbn [snd] in E. destruct (assoc x es) as [m|] eqn:Ex; cbn in E; [|done].
    injection E as <- ->. split; [done|by apply Hcall].
  - unfold in_dir in *. cbn [fst snd] in *. destruct (assoc x es) as [[a ds|i|a l|a k]|] eqn:Ex; try done.
    destruct (at_comps top0 stat_entry (y :: comps) (t, ds)) as [[t1 ds1] r1] eqn:E1.
    injection E as <- ->. destruct (IH ds _ ltac:(done) E1) as [[= -> ->] ->]. by rewrite put_assoc.
Qed.

(** A path names a regular file. *)
Definition names_file (created : Z → Attr) (path : bytes) (f : Inodes * Entries) (i : Z) (d : bytes) : Prop :=
  lstat created path f = (f, Ok (Regular i)) ∧ ∃ a, f.1 !! i = Some (a, d).

(** The same file with other contents. *)
Definition with_data (w : World) (i : Z) (d : bytes) : World :=
  mkWorld (alter (λ '(a, _), (a, d)) i (files w).1, (files w).2) (stdout w).

Section File.
Context (created : Z → Attr).

Lemma read_named path f i d : names_file created path f i d → read_file created path f = (f, Ok d).
Proof.
  intros [Hl (a & Ha)]. unfold read_file, mbind, D_bind. rewrite Hl. unfold get. cbn. by rewrite Ha.
Qed.

Lemma map_named path f i d : names_file created path f i d →
  map_file created path f = (f, if bool_decide (d = []) then Err EINVAL else Ok d).
Proof.
  intros H. unfold map_file, mbind, D_bind. rewrite (read_named path f i d) by done.
  by case_bool_decide.
Qed.

Lemma write_named path mode f i d d' : names_file created path f i d →
  write_file created path mode d' f = ((alter (λ '(a, _), (a, d')) i f.1, f.2), Ok tt).
Proof.
  intros [Hl _]. destruct f as [t es]. unfold lstat, write_file, at_path in *.
  case_bool_decide as Hp; [discriminate Hl|].
  destruct (decide (Files.components path = [])) as [Hc|Hc]; [rewrite Hc in Hl; discriminate Hl|].
  edestruct (stat_call (λ w, (w, Ok (Directory (created 0x1ed) w.2))) (fail EISDIR)
    (λ x, i ← open_trunc created x mode; overwrite i d')) as [_ H]; [exact Hc|exact Hl| |exact H].
  intros x ds Hx. unfold mbind, D_bind, open_trunc, overwrite. cbn [fst snd]. rewrite Hx. cbn [fst snd].
  rewrite alter_alter_eq. do 2 f_equal. apply alter_ext. by intros [].
Qed.
End File.


(** No command is run on an empty file, and it stays empty. *)
Theorem empty_file_fails created makedev major minor xz unxz env fmt_size file cmds w i :
  names_file created file (files w) i [] →
  cpio_main created makedev major minor xz unxz env fmt_size file cmds w = (w, Done (Err tt)).
Proof.
  intros Hf. destruct w as [f out]. cbn [files] in Hf.
  unfold cpio_main, cpio_commands, exists_path, load_from_file, mbind, C_bind, on_files. cbn [files stdout].
  destruct (Hf) as [Hs _]. rewrite Hs. cbv beta iota. cbn [is_ok files stdout].
  by rewrite (map_named created file f i []).
Qed.

(** A run that ends in [exists] or [test] gives the answer for the edited archive, but
    never writes it: the file stays as it was. *)
Definition answer (a : CpioAction) (c : Cpio) : option Result :=
  match a with
  | Test => Some (Exit (test c) None)
  | Exists path => Some (Done (if exists_ c path then Ok tt else Err tt))
  | _ => None
  end.

Theorem query_discards_edits created makedev major minor xz unxz env fmt_size file cmds acts ws q rest w i d c0 c r :
  names_file created file (files w) i d → d ≠ [] → load_from_data d = Ok c0 →
  Forall2 line cmds acts → Forall (λ a, is_edit a = true) (omap id acts) →
  edits unxz env c0 (omap id acts) = Ok c → written ws q → Forall word ws → answer q c = Some r →
  cpio_main created makedev major minor xz unxz env fmt_size file (cmds ++ join [SPACE] ws :: rest) w = (w, r).
Proof.
  intros Hf Hne Hd Hl He Hc Hq Hws Hr. destruct w as [f out]. cbn [files] in Hf.
  assert (Happ : ∀ c1 cmds1 k w, run_commands created makedev major minor xz unxz env fmt_size file c1 (cmds1 ++ k) w =
    mbind (λ c2, run_commands created makedev major minor xz unxz env fmt_size file c2 k)
      (run_commands created makedev major minor xz unxz env fmt_size file c1 cmds1) w).
  { clear. intros c1 cmds1. revert c1. induction cmds1 as [|cmd cmds1 IH]; intros c1 k w; [done|].
    cbn [app run_commands]. destruct (starts_with _ cmd); [apply IH|]. unfold mbind, C_bind in *.
    destruct (on_early_exit _ w) as [w1 [a| | |]]; [|done..].
    destruct (run_action _ _ _ _ _ _ _ _ _ a w1) as [w2 [c2| | |]]; [|done..]. apply IH. }
  unfold cpio_main, cpio_commands, exists_path, load_from_file. unfold mbind at 1 2 3 4, C_bind, on_files. cbn [files stdout].
  destruct (Hf) as [Hs _]. rewrite Hs. cbv beta iota. cbn [is_ok files stdout]. rewrite (map_named created file f i d), bool_decide_false by done.
  unfold lift at 1 2. cbn [snd]. rewrite Hd. cbv beta iota. rewrite Happ. unfold mbind at 1, C_bind.
  rewrite (run_lines created makedev major minor xz unxz env fmt_size file cmds acts) by done. unfold lift at 1. rewrite Hc.
  cbn [run_commands]. rewrite (command_no_comment ws q), cmd_words_join, (written_args ws q) by done.
  unfold mbind at 1 2, C_bind. cbn [on_early_exit]. unfold mret, C_ret.
  destruct q; try discriminate Hr; injection Hr as <-; [done|]. cbn [run_action]. by destruct (exists_ c path).
Qed.

(** *** Example *)

Definition script_archive : Cpio :=
  list_to_map [(bs "a", mkEntry 0x81a4 0 0 0 0 (bs "1")); (bs "old", mkEntry 0x41ed 0 0 0 0 []);
               (bs "old/x", mkEntry 0x81a4 0 0 0 0 (bs "2"))].
Definition script_world : World :=
  mkWorld (<[1 := (mkAttr 0x1a4 0 0 [], dump script_archive)]> ∅, [(bs "ramdisk.cpio", Regular 1)]) [].
Definition script : list bytes := map bs ["# edit"; "rm -r -- old"; "mkdir -- 755 new"; "mv -- a new/b"]%string.

