(* ===== verification/CpioExtract.v ===== *)
(** CpioExtract: what [Cpio::extract] makes of an archive ([native/src/boot/cpio.rs]):
    every entry of the archive, with its kind, mode and contents, and the directories
    above the entries. *)

From S2P Require Import Prelude Cstr Dir Files Cpio CpioCli.

Abbreviation components := Files.components.

(** ** Names *)

(** A name as [norm_path] leaves it, without dots or null bytes, that fits in a path buffer,
    with components that a file system takes. *)
Definition clean (n : bytes) : Prop :=
  components n ≠ [] ∧ n = join [SLASH] (components n) ∧ Forall (λ x, dots x = false) (components n) ∧
  (length n < 4096)%nat ∧ NUL ∉ n ∧ Forall (λ x, (length x ≤ 255)%nat) (components n).

Lemma comp_not_skipped x : comp x → dots x = false → Cstr.Path.skipped x = false.
Proof.
  intros [Hx _] [Hd _]%orb_false_iff. unfold Cstr.Path.skipped. by rewrite bool_decide_false, Hd.
Qed.

Lemma join_relative cs : Forall comp cs → starts_with (bs "/") (join [SLASH] cs) = false.
Proof.
  intros Hc. destruct cs as [|x cs]; [done|]. apply Forall_cons in Hc as [Hx _]. pose proof (starts_slash_comp _ Hx) as Hs.
  destruct Hx as [Hx _], x as [|b x]; [done|]. unfold starts_with in *.
  destruct cs; cbn [join app] in *; change (bs "/") with [SLASH] in *; cbn [strip_prefix] in *; by case_bool_decide.
Qed.

Lemma parent_dir_join cs : cs ≠ [] → Forall comp cs → Forall (λ x, dots x = false) cs →
  Cstr.Path.parent_dir (join [SLASH] cs) = Some (join [SLASH] (removelast cs)).
Proof.
  intros Hne Hc Hd. unfold Cstr.Path.parent_dir, Cstr.Path.parts.
  assert (Hs : Forall (λ p, Cstr.Path.skipped p = false) cs).
  { apply Forall_forall. intros x Hx. rewrite Forall_forall in Hc, Hd. by apply comp_not_skipped; [apply Hc|apply Hd]. }
  assert (strip_prefix (bs "/") (join [SLASH] cs) = None) as ->.
  { pose proof (join_relative cs Hc) as H. unfold starts_with in H. by destruct strip_prefix. }
  rewrite split_on_join; [|done|by eapply Forall_impl; [exact Hc|]; intros ? []].
  rewrite Path.trim_right_plain by done. destruct cs as [|x cs]; [done|]. cbn [negb app].
  do 2 f_equal. apply Path.trim_right_plain. rewrite Forall_forall in *. intros y Hy. apply Hs.
  rewrite (app_removelast_last (l := x :: cs) x) by done. apply elem_of_app. by left.
Qed.

Lemma removelast_snoc {A} (l : list A) x : removelast (l ++ [x]) = l.
Proof. rewrite removelast_app by done. cbn. by rewrite app_nil_r. Qed.

(** A name below another sorts behind it. *)
Lemma below_not_before n m : clean n → clean m → bytes_lt m n → ~ components n `prefix_of` components m.
Proof.
  intros (_ & Hn & _) (_ & Hm & _) Hlt [k Hk]. assert (Hp : ∃ r, m = n ++ r).
  { rewrite Hn, Hm, Hk. clear. generalize (components n). intros l.
    induction k as [|x k IH] using rev_ind; [exists []; by rewrite !app_nil_r|].
    destruct IH as [r Hr]. rewrite app_assoc. destruct (decide (l ++ k = [])) as [E|Hne].
    - apply app_eq_nil in E as [-> ->]. by exists x.
    - rewrite join_snoc, Hr, <- app_assoc by done. by eexists. }
  destruct Hp as [r ->]. destruct r as [|b r]; [rewrite app_nil_r in Hlt; by apply bytes_lt_irrefl in Hlt|].
  apply (bytes_lt_irrefl n). eapply bytes_lt_trans; [|exact Hlt]. by apply bytes_lt_prefix.
Qed.

(** ** One entry *)

Section Extract.
Context (created : Z → Attr).

Definition entry_shape (e : CpioEntry) : Shape :=
  let md := Z.land (mode e) 0x1ff in
  if is_kind S_IFDIR (mode e) then SDir (created md)
  else if is_kind S_IFREG (mode e) then SFile (created md) (data e)
  else SLink (created 0x1ff) (data e).

(** A directory, a file, or a link whose target is not empty and fits in a path buffer. *)
Definition extractable (e : CpioEntry) : Prop :=
  is_kind S_IFDIR (mode e) = true ∨ is_kind S_IFREG (mode e) = true ∨
  (is_kind S_IFLNK (mode e) = true ∧ utf8_valid (data e) = true ∧ NUL ∉ data e ∧ data e ≠ [] ∧ (length (data e) < 4096)%nat).

(** The buffer holds what is pushed if there is room. *)
Lemma buf_holds s : (length s < 4096)%nat → Buf.as_str (Buf.push_str (Buf.new 4096) s).1 = s.
Proof.
  intros Hs. destruct (Buf.push_str_ok (Buf.new 4096) s) as (_ & _ & -> & _); [apply Buf.wf_new_buf; lia|].
  assert (Hc : Buf.capacity (Buf.new 4096) = 4096%nat) by apply length_replicate.
  rewrite Hc. change (Buf.as_str (Buf.new 4096)) with (@nil byte). unfold Buf.bounded_push. cbn [app].
  apply take_ge. cbn [length]. lia.
Qed.

(** An entry that is made at a name nothing is at, in a directory that is there. *)
Definition makes {A} (m : D Inodes A) (r : res Fault A) (t : Inodes) (es : Entries) (cs : list bytes) (s : Shape) : Prop :=
  ∃ t' es', m (t, es) = ((t', es'), r) ∧ closed t' es' ∧
    ∀ p, look t' p es' = if bool_decide (p = cs) then Some s else look t p es.

Lemma makes_put {A} top (call : bytes → D Inodes A) pre x t es t' n s r :
  Forall (λ y, dots y = false) (pre ++ [x]) → closed t es →
  (∀ p, p ≠ [] → p `prefix_of` pre → ∃ a, look t p es = Some (SDir a)) →
  look t (pre ++ [x]) es = None →
  (∀ ds, assoc x ds = None → call x (t, ds) = ((t', Dir.put x n ds), r)) →
  t ⊆ t' → closed_node t' n → (∀ q, look_node t' q n = match q with [] => Some s | _ => None end) →
  makes (at_comps top call (pre ++ [x])) r t es (pre ++ [x]) s.
Proof.
  intros. destruct (at_comps_put top call pre x t es t' n s r) as (es' & ? & ? & ?); [done..|]. by exists t', es'.
Qed.

Lemma overwrite_fresh md d x t ds : assoc x ds = None →
  let i := fresh (dom t : gset Z) in
  (j ← open_trunc created x md; overwrite j d) (t, ds) = ((<[i := (created md, d)]> t, Dir.put x (Regular i) ds), Ok tt).
Proof.
  intros Hx i. unfold mbind, D_bind, open_trunc. cbn [fst snd]. rewrite Hx. unfold overwrite. cbn [fst snd].
  fold i. do 3 f_equal. apply map_eq. intros j. destruct (decide (j = i)) as [->|Hj].
  - by rewrite lookup_alter_eq, !lookup_insert_eq.
  - by rewrite lookup_alter_ne, !lookup_insert_ne by done.
Qed.

(** What is made at a name. *)
Lemma makes_entry pre x e t es : extractable e →
  let out := join [SLASH] (pre ++ [x]) in
  Forall comp (pre ++ [x]) → Forall (λ y, dots y = false) (pre ++ [x]) → closed t es →
  (∀ p, p ≠ [] → p `prefix_of` pre → ∃ a, look t p es = Some (SDir a)) →
  look t (pre ++ [x]) es = None →
  makes (if Z.land (mode e) S_IFMT =? S_IFDIR then Files.mkdir created out (Z.land (mode e) 0x1ff)
         else if Z.land (mode e) S_IFMT =? S_IFREG then write_file created out (Z.land (mode e) 0x1ff) (data e)
         else at_path (fail EEXIST)
                (λ x, create_symlink_at created x (Buf.as_str (Buf.push_str (Buf.new 4096) (data e)).1)) out)
    (Ok tt) t es (pre ++ [x]) (entry_shape e).
Proof.
  intros He out Hc Hd Hcl Hdir Hnone. unfold entry_shape, is_kind.
  assert (Hout : components out = pre ++ [x]) by (by apply components_join).
  assert (Hne : out ≠ []) by (intros E; rewrite E in Hout; by destruct pre).
  unfold Files.mkdir, write_file, at_path. rewrite (bool_decide_false (out = [])), Hout by done.
  destruct (Z.land (mode e) S_IFMT =? S_IFDIR) eqn:E1; [|destruct (Z.land (mode e) S_IFMT =? S_IFREG) eqn:E2].
  - apply (makes_put _ _ pre x t es t (Directory (created (Z.land (mode e) 0x1ff)) [])); try done.
    + intros ds Hx. unfold mkdir_at. cbn [fst snd]. by rewrite Hx.
    + apply closed_dir. by intros [|z p] i Hi.
    + by intros [|z q].
  - set (i := fresh (dom t : gset Z)). assert (Hi : t !! i = None) by (apply not_elem_of_dom, is_fresh).
    apply (makes_put _ _ pre x t es (<[i := (created (Z.land (mode e) 0x1ff), data e)]> t) (Regular i)); try done.
    + intros ds Hx. by apply overwrite_fresh.
    + by apply insert_subseteq.
    + intros [|z p] j Hj; [|done]. injection Hj as <-. rewrite lookup_insert_eq. by eexists.
    + intros q. rewrite (look_node_leaf _ q _ (SFile (created (Z.land (mode e) 0x1ff)) (data e))); [done|done|].
      cbn. by rewrite lookup_insert_eq.
  - destruct He as [He|[He|(He & _ & _ & Hde & Hl)]]; [unfold is_kind in He; congruence..|].
    rewrite buf_holds by done.
    apply (makes_put _ _ pre x t es t (Symlink (created 0x1ff) (data e))); try done.
    + intros ds Hx. unfold create_symlink_at. cbn [fst snd]. by rewrite bool_decide_false, Hx.
    + intros [|z p] j Hj; done.
    + by intros [|z q].
Qed.

(** ** What is there after some entries *)

Fixpoint find_at (p : list bytes) (l : list (bytes * CpioEntry)) : option CpioEntry :=
  match l with
  | [] => None
  | (n, e) :: l => if bool_decide (components n = p) then Some e else find_at p l
  end.

Definition above (p : list bytes) (l : list (bytes * CpioEntry)) : Prop := List.Exists (λ q : bytes * CpioEntry, p `prefix_of` components q.1) l.

Definition expected (l : list (bytes * CpioEntry)) (p : list bytes) : option Shape :=
  match find_at p l with
  | Some e => Some (entry_shape e)
  | None => if bool_decide (above p l) then Some (SDir (created 0x1ed)) else None
  end.

Lemma find_at_Some p l e : find_at p l = Some e → ∃ n, (n, e) ∈ l ∧ components n = p.
Proof.
  induction l as [|[n d] l IH]; [done|]. cbn [find_at]. case_bool_decide as Hn.
  - intros [= ->]. exists n. split; [by left|done].
  - intros (m & Hm & Hp)%IH. exists m. split; [by right|done].
Qed.

Lemma find_at_None p (l : list (bytes * CpioEntry)) : Forall (λ q : bytes * CpioEntry, components q.1 ≠ p) l → find_at p l = None.
Proof. induction 1 as [|[n e] l Hn _ IH]; [done|]. cbn [find_at]. by rewrite bool_decide_false. Qed.

Lemma find_at_app p l k : find_at p (l ++ k) = match find_at p l with Some e => Some e | None => find_at p k end.
Proof. induction l as [|[n e] l IH]; [done|]. cbn [app find_at]. by case_bool_decide. Qed.

Lemma expected_snoc (l : list (bytes * CpioEntry)) n e p : Forall (λ q : bytes * CpioEntry, ~ components n `prefix_of` components q.1) l →
  components n ≠ [] →
  expected (l ++ [(n, e)]) p =
  if bool_decide (p = components n) then Some (entry_shape e)
  else match expected l p with
       | Some s => Some s
       | None => if bool_decide (p `prefix_of` removelast (components n)) then Some (SDir (created 0x1ed)) else None
       end.
Proof.
  intros Hl Hne. unfold expected. rewrite find_at_app. cbn [find_at].
  destruct (decide (p = components n)) as [Hp|Hp]; [subst p; rewrite !(bool_decide_true (_ = components n)) by done|rewrite (bool_decide_false (p = _)) by done].
  - rewrite find_at_None; [done|]. eapply Forall_impl; [exact Hl|]. intros q Hq Heq. apply Hq. by rewrite Heq.
  - rewrite (bool_decide_false (components n = p)) by done. destruct (find_at p l); [done|].
    assert (above p (l ++ [(n, e)]) ↔ above p l ∨ p `prefix_of` removelast (components n)) as Ha.
    { unfold above. rewrite Exists_app, Exists_cons, Exists_nil. cbn [fst].
      enough (p `prefix_of` components n ↔ p `prefix_of` removelast (components n)) as -> by naive_solver.
      destruct (components n) as [|x cs _] using rev_ind; [done|]. rewrite removelast_snoc.
      split; [|by intros ?; apply prefix_app_r]. intros [k Hk]. destruct k as [|z k _] using rev_ind; [by rewrite app_nil_r in Hk|].
      rewrite app_assoc in Hk. apply app_inj_2 in Hk as [-> _]; [by eexists|done]. }
    destruct (decide (above p l)) as [H1|H1].
    + rewrite !bool_decide_true by naive_solver. done.
    + rewrite (bool_decide_false (above p l)) by done. by rewrite (bool_decide_ext _ (p `prefix_of` removelast (components n))) by naive_solver.
Qed.

(** ** Extracting everything *)

(** What extraction needs of an archive: clean names, entries of the three kinds, and
    nothing below an entry that is not a directory. *)
Definition extracts_whole (c : gmap bytes CpioEntry) : Prop :=
  map_Forall (λ n e, clean n ∧ extractable e ∧
    map_Forall (λ m d, components m `prefix_of` removelast (components n) → is_kind S_IFDIR (mode d) = true) c) c.

Definition shows (l : list (bytes * CpioEntry)) (t : Inodes) (es : Entries) : Prop :=
  closed t es ∧ ∀ p, p ≠ [] → look t p es = expected l p.

Lemma look_nil t es : look t [] es = None.
Proof. done. Qed.

Lemma length_join_pre pre x : (length (join [SLASH] pre) ≤ length (join [SLASH] (pre ++ [x])))%nat.
Proof. exact (path_of_prefix false pre [x]). Qed.

(** The directories above an entry. *)
Lemma make_parents (c : gmap bytes CpioEntry) l t es pre x : Forall comp (pre ++ [x]) → Forall (λ y, dots y = false) (pre ++ [x]) →
  (length (join [SLASH] (pre ++ [x])) < 4096)%nat →
  shows l t es → (∀ m d, (m, d) ∈ l → c !! m = Some d) →
  map_Forall (λ m d, components m `prefix_of` pre → is_kind S_IFDIR (mode d) = true) c →
  ∃ es', mkdirs created (Buf.as_str (Buf.push_str (Buf.new 4096) (join [SLASH] pre)).1) 0x1ed (t, es) = ((t, es'), Ok tt) ∧
    closed t es' ∧
    (∀ p, look t p es' = if bool_decide (p ≠ [] ∧ p `prefix_of` pre ∧ look t p es = None)
                         then Some (SDir (created 0x1ed)) else look t p es) ∧
    (∀ p, p ≠ [] → p `prefix_of` pre → ∃ a, look t p es' = Some (SDir a)).
Proof.
  intros Hc Hd Hlen [Hcl Hsh] Hl Hdirs. pose proof (length_join_pre pre x) as Hle.
  apply Forall_app in Hc as [Hc _], Hd as [Hd _]. rewrite buf_holds by lia.
  assert (Hcs : components (join [SLASH] pre) = pre) by (by apply components_join).
  assert (Hdn : ∀ p, p ≠ [] → p `prefix_of` pre → dir_or_none (look t p es)).
  { intros p Hp Hpre. rewrite Hsh by done. unfold expected. destruct (find_at p l) as [d|] eqn:E.
    - right. apply find_at_Some in E as (m & Hm & <-). unfold entry_shape.
      rewrite (Hdirs m d (Hl m d Hm) Hpre). by eexists.
    - case_bool_decide; [right; by eexists|by left]. }
  destruct (mkdirs_ok created 0x1ed (join [SLASH] pre) t es) as (es' & E & Hc' & Hlook).
  - rewrite Hcs, join_relative by done. unfold path_of. cbn [app]. lia.
  - by rewrite Hcs.
  - done.
  - by rewrite Hcs.
  - rewrite Hcs in Hlook. exists es'. split_and!; [done..|]. intros p Hp Hpre. rewrite Hlook.
    destruct (Hdn p Hp Hpre) as [Hn|[a Ha]].
    + rewrite bool_decide_true by done. by eexists.
    + rewrite bool_decide_false by (rewrite Ha; by intros (_ & _ & ?)). by exists a.
Qed.

(** One turn of the loop. *)
Lemma extract_entry_shows (makedev : Z → Z → Z) (c : gmap bytes CpioEntry) l n e t es out : extracts_whole c → c !! n = Some e →
  (∀ m d, (m, d) ∈ l → c !! m = Some d) → Forall (λ q : bytes * CpioEntry, ~ components n `prefix_of` components q.1) l →
  shows l t es →
  ∃ t' es', extract_entry created makedev c n n (mkWorld (t, es) out) = (mkWorld (t', es') out, Ok tt) ∧
    shows (l ++ [(n, e)]) t' es'.
Proof.
  intros Hw Hn Hl Hbelow Hs. destruct (Hw n e Hn) as ((Hne & Hj & Hd & Hlen & _) & He & Hdirs).
  pose proof (components_comps n) as Hc.
  assert (∃ pre x, components n = pre ++ [x]) as (pre & x & Hcs).
  { destruct (components n) as [|x pre _] using rev_ind; [done|]. by exists pre, x. }
  rewrite Hcs in Hj, Hd, Hc, Hdirs. rewrite removelast_snoc in Hdirs.
  destruct (make_parents c l t es pre x) as (es1 & E1 & Hc1 & Hl1 & Hd1); [done|done|by rewrite <- Hj|done..|].
  assert (Hnp : ~ pre ++ [x] `prefix_of` pre) by (intros H%prefix_length; rewrite length_app in H; cbn in H; lia).
  assert (Hx : look t (pre ++ [x]) es1 = None).
  { rewrite Hl1, bool_decide_false by (by intros (_ & ? & _)). destruct Hs as [_ Hs]. rewrite Hs by (by destruct pre).
    rewrite Hcs in Hbelow. unfold expected. rewrite find_at_None, bool_decide_false; [done|..].
    - unfold above. apply Forall_not_Exists. exact Hbelow.
    - eapply Forall_impl; [exact Hbelow|]. intros q Hq Heq. apply Hq. by rewrite Heq. }
  destruct (makes_entry pre x e t es1 He Hc Hd Hc1 Hd1 Hx) as (t' & es' & E2 & Hc2 & Hl2). rewrite <- Hj in E2.
  exists t', es'. split.
  - assert (Hpar : Cstr.Path.parent_dir n = Some (join [SLASH] pre)).
    { rewrite Hj, parent_dir_join, removelast_snoc by (done || by destruct pre). done. }
    unfold extract_entry, mbind, C_bind. rewrite Hn, Hpar. cbn [of_option lift].
    unfold on_files at 1. cbn [files stdout]. rewrite E1. cbv beta iota. cbn [lift snd].
    revert E2. destruct He as [He|[He|(He & Hu & _ & _)]]; unfold is_kind in He.
    + rewrite He. intros E2. unfold on_files. cbn [files stdout]. by rewrite E2.
    + rewrite He. destruct (_ =? S_IFDIR); intros E2; unfold on_files; cbn [files stdout]; by rewrite E2.
    + rewrite He, Hu. apply Z.eqb_eq in He. rewrite He. cbn [Z.eqb S_IFLNK S_IFDIR S_IFREG Pos.eqb].
      intros E2. unfold on_files. cbn [files stdout]. by rewrite E2.
  - split; [done|]. intros p Hp. rewrite Hl2, expected_snoc, Hcs, removelast_snoc by done.
    destruct (decide (p = pre ++ [x])) as [->|Hpx]; [by rewrite !bool_decide_true|].
    rewrite !(bool_decide_false (p = _)) by done. rewrite Hl1. destruct Hs as [_ Hs]. rewrite Hs by done.
    destruct (expected l p); [by rewrite bool_decide_false by (by intros (_ & _ & ?))|].
    erewrite bool_decide_ext; [reflexivity|]. split; [by intros (_ & ? & _)|by intros ?].
Qed.

Lemma dots_names n : clean n → bool_decide (n = bs ".") || bool_decide (n = bs "..") = false.
Proof.
  intros (_ & _ & Hd & _). apply orb_false_iff. split; apply bool_decide_eq_false; intros ->; vm_compute in Hd;
    by apply Forall_cons in Hd as [? _].
Qed.

Lemma extract_rest (makedev : Z → Z → Z) (c : gmap bytes CpioEntry) l1 l2 t es out : extracts_whole c → entries c = l1 ++ l2 →
  shows l1 t es →
  ∃ t' es', extract_all created makedev c l2.*1 (mkWorld (t, es) out) = (mkWorld (t', es') out, Ok tt) ∧
    shows (entries c) t' es'.
Proof.
  intros Hw. revert l1 t es. induction l2 as [|[n e] l2 IH]; intros l1 t es Hl Hs.
  - exists t, es. rewrite Hl, app_nil_r. by split.
  - assert (Hin : ∀ m d, (m, d) ∈ l1 ++ (n, e) :: l2 → c !! m = Some d) by (intros m d Hm; rewrite <- Hl in Hm; by apply elem_of_entries).
    destruct (extract_entry_shows makedev c l1 n e t es out Hw) as (t1 & es1 & E1 & Hs1).
    + apply Hin. apply elem_of_app. right. by left.
    + intros m d Hm. apply Hin. apply elem_of_app. by left.
    + apply Forall_forall. intros [m d] Hm. cbn [fst].
      assert (Hcm : clean m) by (apply (Hw m d); apply Hin, elem_of_app; by left).
      apply below_not_before; [apply (Hw n e); apply Hin, elem_of_app; right; by left|done|].
      pose proof (entries_strict c) as Hst. rewrite Hl, fmap_app in Hst. cbn [fmap list_fmap] in Hst.
      apply (StronglySorted_app_1_elem_of bytes_lt l1.*1 (n :: l2.*1)); [exact Hst| |by left].
      apply list_elem_of_fmap. by exists (m, d).
    + done.
    + destruct (IH (l1 ++ [(n, e)]) t1 es1) as (t2 & es2 & E2 & Hs2); [by rewrite <- app_assoc|done|].
      exists t2, es2. split; [|done]. cbn [fmap list_fmap extract_all fst].
      rewrite dots_names by (apply (Hw n e); apply Hin, elem_of_app; right; by left).
      unfold mbind, C_bind. rewrite E1. exact E2.
Qed.
End Extract.

Lemma find_at_elem n e (l : list (bytes * CpioEntry)) : (n, e) ∈ l → ∃ d, find_at (components n) l = Some d.
Proof.
  induction l as [|[m d] l IH]; [by intros ?%not_elem_of_nil|]. cbn [find_at]. case_bool_decide as Hm; [by eexists|].
  intros [[= -> ->]|H]%elem_of_cons; [done|by apply IH].
Qed.

(** C6: extracting an archive into an empty directory makes every entry, with its kind,
    permissions and contents, below directories that are entries of their own or are
    made for the purpose, and nothing else: the entries come in the order of their
    names, so a directory is there with its own mode before anything in it.  The entries
    are directories, files and links that point somewhere, with names and targets that fit
    in the buffers, and nothing is below an entry that is not a directory. *)
Theorem extract_shows_entries (created : Z → Attr) (makedev : Z → Z → Z) (c : gmap bytes CpioEntry) t out : extracts_whole c →
  ∃ t' es', extract created makedev c None None (mkWorld (t, []) out) = (mkWorld (t', es') out, Ok tt) ∧
    (∀ n e, c !! n = Some e → look t' (components n) es' = Some (entry_shape created e)) ∧
    (∀ p s, look t' p es' = Some s → ∃ n e, c !! n = Some e ∧ p `prefix_of` components n).
Proof.
  intros Hw. destruct (extract_rest created makedev c [] (entries c) t [] out Hw eq_refl) as (t' & es' & E & _ & Hs).
  { split; [by intros [|x p]|]. by intros [|x p]. }
  exists t', es'. split_and!; [exact E| |].
  - intros n e Hn. destruct (Hw n e Hn) as ((Hne & Hj & _) & _). rewrite Hs by done. unfold expected.
    destruct (find_at_elem n e (entries c)) as [d Hd]; [by apply elem_of_entries|]. rewrite Hd.
    apply find_at_Some in Hd as (m & Hm%elem_of_entries & Hmn). destruct (Hw m d Hm) as ((_ & Hj' & _) & _).
    rewrite Hmn, <- Hj in Hj'. subst m. by simplify_eq.
  - intros [|x p] s Hp; [done|]. rewrite Hs in Hp by done. unfold expected in Hp. destruct (find_at (x :: p) (entries c)) as [d|] eqn:Hd.
    + apply find_at_Some in Hd as (m & Hm%elem_of_entries & Hmn). exists m, d. by rewrite Hmn.
    + case_bool_decide as Ha; [|done]. apply Exists_exists in Ha as ([m d] & Hm%elem_of_entries & Hpre). by exists m, d.
Qed.

(** A file whose directory is no entry, and a link in one that is. *)
Definition small_archive : gmap bytes CpioEntry :=
  list_to_map [(bs "bin", mkEntry 0x41c0 0 0 0 0 []); (bs "bin/sh", mkEntry 0xa000 0 0 0 0 (bs "mksh"));
               (bs "etc/conf", mkEntry 0x81a4 0 0 0 0 (bs "x=1"))].

Lemma extract_shows_entries_witness : ∃ t es,
  extract (λ m, mkAttr m 0 0 []) (λ _ _, 0) small_archive None None (mkWorld (∅, []) []) = (mkWorld (t, es) [], Ok tt) ∧
  look t [bs "bin"] es = Some (SDir (mkAttr 0x1c0 0 0 [])) ∧
  look t [bs "bin"; bs "sh"] es = Some (SLink (mkAttr 0x1ff 0 0 []) (bs "mksh")) ∧
  look t [bs "etc"; bs "conf"] es = Some (SFile (mkAttr 0x1a4 0 0 []) (bs "x=1")).
Proof.
  destruct (extract_shows_entries (λ m, mkAttr m 0 0 []) (λ _ _, 0) small_archive ∅ []) as (t & es & E & H & _).
  - unfold extracts_whole, clean, extractable. by_compute.
  - exists t, es. split_and!; [exact E|..].
    + exact (H (bs "bin") (mkEntry 0x41c0 0 0 0 0 []) eq_refl).
    + exact (H (bs "bin/sh") (mkEntry 0xa000 0 0 0 0 (bs "mksh")) eq_refl).
    + exact (H (bs "etc/conf") (mkEntry 0x81a4 0 0 0 0 (bs "x=1")) eq_refl).
Defined.
