(* ===== verification/MagiskCli.v ===== *)
(** MagiskCli: the command line of magisk, [native/src/core/magisk.rs].

    The structs go through the derive macro's model ([Derive], [Words]); an action is run as
    calls on the daemon and the system ([CliOp]).  [reply] is what comes through the socket
    behind the daemon's [OK]. *)

From S2P Require Import Prelude Text Cstr Socket Io Argh Derive Words Daemon.
From S2P Require Overlay.

(** ** Actions *)

Inductive MagiskAction :=
  | LocalVersion | Version | VersionCode | List_
  | RemoveModules (no_reboot : bool)
  | InstallModule (zip : bytes)
  | Daemon_ | Stop | PostFsData | Service | BootCompleted | ZygoteRestart | UnlockBlocks | RestoreCon
  | CloneAttr (from to : bytes)
  | CloneFile (from to : bytes)
  | Sqlite (sql : bytes)
  | Path_
  | DenyList (args : list bytes)
  | PreInitDevice.

Definition two_fields := [pos "from"; pos "to"].
Definition sqlite_fields := [field "sql" positional_meta (path (bs "String"))].
Definition denylist_fields :=
  [field "args" [Path (bs "positional"); Path (bs "greedy")] (vec_of (path (bs "String")))].
Definition magisk_cli_fields := [subcommand_field "action" "MagiskAction"].

(** A subcommand without fields. *)
Definition bare (name : string) (a : MagiskAction) : bytes * (list bytes → list bytes → res EarlyExit MagiskAction) :=
  (bs name, plain_parser name [] (λ vs, match vs with [] => Some a | _ => None end)).

Definition remove_modules_args := plain_parser "--remove-modules" [switch "no_reboot" "n"]
  (λ vs, match vs with [FFlag (FBool n)] => Some (RemoveModules n) | _ => None end).
Definition install_module_args := plain_parser "--install-module" [pos "zip"]
  (λ vs, match vs with [FOne z] => Some (InstallModule z) | _ => None end).
Definition clone_attr_args := plain_parser "--clone-attr" two_fields
  (λ vs, match vs with [FOne a; FOne b] => Some (CloneAttr a b) | _ => None end).
Definition clone_args := plain_parser "--clone" two_fields
  (λ vs, match vs with [FOne a; FOne b] => Some (CloneFile a b) | _ => None end).
Definition sqlite_args := plain_parser "--sqlite" sqlite_fields
  (λ vs, match vs with [FOne s] => Some (Sqlite s) | _ => None end).
Definition denylist_args := plain_parser "--denylist" denylist_fields
  (λ vs, match vs with [FMany l] => Some (DenyList l) | _ => None end).

Definition magisk_variants : list (bytes * (list bytes → list bytes → res EarlyExit MagiskAction)) :=
  [bare "-c" LocalVersion; bare "-v" Version; bare "-V" VersionCode; bare "--list" List_;
   (bs "--remove-modules", remove_modules_args); (bs "--install-module", install_module_args);
   bare "--daemon" Daemon_; bare "--stop" Stop; bare "--post-fs-data" PostFsData; bare "--service" Service;
   bare "--boot-complete" BootCompleted; bare "--zygote-restart" ZygoteRestart; bare "--unlock-blocks" UnlockBlocks;
   bare "--restorecon" RestoreCon; (bs "--clone-attr", clone_attr_args); (bs "--clone", clone_args);
   (bs "--sqlite", sqlite_args); bare "--path" Path_; (bs "--denylist", denylist_args);
   bare "--preinit-device" PreInitDevice].

(** [Cli::from_args]. *)
Definition magisk_cli_args : list bytes → list bytes → res EarlyExit MagiskAction :=
  parser (emitted_struct (ascii_derive [] (Struct (Named magisk_cli_fields))))
    (map (λ v, mkCommand v.1 []) magisk_variants)
    (λ cmd args, x ← from_args_enum magisk_variants None cmd args; Ok x.2)
    (λ vs, match vs with [FSub a] => Some a | _ => None end).

(** ** Running an action *)

Inductive CliOp :=
  | Print (line : bytes)
  | EPrint (text : bytes)
  | PrintUsage
  | Connect (code : Z) (create : bool)
  | Send (data : bytes)
  | Poll (ms : Z)
  | InstallZip (zip : bytes)
  | UnlockAll
  | Restorecon_
  | CloneAttr_ (from to : bytes)
  | Copy_ (from to : bytes)
  | DenylistCli (args : list bytes).

Definition POST_FS_DATA_WAIT_TIME : Z := 40.
Definition APPLET_NAMES : list bytes := [bs "su"; bs "resetprop"].

(** What the program is built with and finds. *)
Record CliEnv := mkCliEnv {
  debug_build : bool;
  version : bytes;
  ver_code : Z;
  magisk_tmp : bytes;
  preinit_device : bytes;
  denylist_code : list bytes → Z
}.

Section Exec.
Context (c : CliEnv) (env : Env CliOp) (reply : Z → bytes).
Abbreviation M := (Io CliOp).

(** The socket behind the answer, as the bytes still to be read. *)
Definition connect (code : Z) (create : bool) : M bytes :=
  _ ← call env (Connect code create); mret (reply code).
Definition print (line : bytes) : M unit := ignore (call env (Print line)).
Definition as_io {A} (r : IoResult A) : M A :=
  lift (match r with Ok a => Ok a | Err e => Err tt | Panic => Panic | NoFuel => NoFuel end).

(** The exit status the daemon sends. *)
Definition read_code (fd : bytes) : M Z := '(v, _) ← as_io (decode (A:=i32_) fd); mret (i32_val v).

(** Lines up to an empty one. *)
Fixpoint print_rows (fuel : nat) (fd : bytes) : M Z :=
  match fuel with
  | O => lift NoFuel
  | S fuel =>
      '(line, fd) ← as_io (decode (A:=str) fd);
      if bool_decide (str_val line = []) then mret 0
      else _ ← print (str_val line); print_rows fuel fd
  end.

Definition exec (a : MagiskAction) : M Z :=
  match a with
  | LocalVersion =>
      _ ← print (version c ++ (if debug_build c then bs ":MAGISK:D (" else bs ":MAGISK:R (") ++
                 fmt_dec (ver_code c) ++ bs ")");
      mret 0
  | Version =>
      fd ← connect CHECK_VERSION false;
      '(v, _) ← as_io (decode (A:=str) fd);
      _ ← print (str_val v); mret 0
  | VersionCode =>
      fd ← connect CHECK_VERSION_CODE false;
      v ← read_code fd;
      _ ← print (if v <? 0 then bs "-" ++ fmt_dec (- v) else fmt_dec v); mret 0
  | List_ => _ ← Io.for_each print APPLET_NAMES; mret 0
  | RemoveModules no_reboot =>
      fd ← connect REMOVE_MODULES false;
      _ ← call env (Send (encode (negb no_reboot)));
      read_code fd
  | InstallModule zip => _ ← ignore (call env (InstallZip zip)); mret 0
  | Daemon_ => _ ← connect START_DAEMON true; mret 0
  | Stop => fd ← connect STOP_DAEMON false; read_code fd
  | PostFsData =>
      _ ← connect POST_FS_DATA true;
      _ ← call env (Poll (POST_FS_DATA_WAIT_TIME * 1000)); mret 0
  | Service => _ ← connect LATE_START true; mret 0
  | BootCompleted => _ ← connect BOOT_COMPLETE false; mret 0
  | ZygoteRestart => _ ← connect ZYGOTE_RESTART false; mret 0
  | UnlockBlocks => _ ← ignore (call env UnlockAll); mret 0
  | RestoreCon => _ ← ignore (call env Restorecon_); mret 0
  | CloneAttr from to => _ ← call env (CloneAttr_ from to); mret 0
  | CloneFile from to => _ ← call env (Copy_ from to); mret 0
  | Sqlite sql =>
      fd ← connect SQLITE_CMD false;
      _ ← call env (Send (encode (mk_str sql)));
      print_rows (S (length fd)) fd
  | Path_ => if bool_decide (magisk_tmp c = []) then mret 1 else _ ← print (magisk_tmp c); mret 0
  | DenyList args => _ ← ignore (call env (DenylistCli args)); mret (denylist_code c args)
  | PreInitDevice =>
      if bool_decide (preinit_device c = []) then mret 1 else _ ← print (preinit_device c); mret 0
  end.

(** [unwrap_or(1)]. *)
Definition unwrap_or_1 (m : M Z) : M Z := λ h,
  match m h with (h, Err _) => (h, Ok 1) | r => r end.

(** [CmdArgs::new]. *)
Definition cmd_args (argv : list bytes) : list bytes :=
  map (λ s, if utf8_valid s then s else bs "<invalid>") argv.

(** The exit status; an early exit ends the process inside [on_early_exit]. *)
Definition magisk_main (argv : list bytes) : M Z :=
  match cmd_args argv with
  | prog :: cmd :: args =>
      match magisk_cli_args [prog] (bs "--" :: cmd :: args) with
      | Ok a => unwrap_or_1 (exec a)
      | Err e =>
          if is_help e then _ ← ignore (call env PrintUsage); mret 0
          else _ ← ignore (call env (EPrint (output e))); _ ← ignore (call env PrintUsage); mret 1
      | Panic => lift Panic
      | NoFuel => lift NoFuel
      end
  | _ => _ ← ignore (call env PrintUsage); mret 1
  end.
End Exec.

(** ** Every action can be given *)

Definition magisk_words (a : MagiskAction) : list bytes :=
  match a with
  | LocalVersion => [bs "-c"]
  | Version => [bs "-v"]
  | VersionCode => [bs "-V"]
  | List_ => [bs "--list"]
  | RemoveModules n => bs "--remove-modules" :: (if n then [bs "-n"] else [])
  | InstallModule z => [bs "--install-module"; bs "--"; z]
  | Daemon_ => [bs "--daemon"]
  | Stop => [bs "--stop"]
  | PostFsData => [bs "--post-fs-data"]
  | Service => [bs "--service"]
  | BootCompleted => [bs "--boot-complete"]
  | ZygoteRestart => [bs "--zygote-restart"]
  | UnlockBlocks => [bs "--unlock-blocks"]
  | RestoreCon => [bs "--restorecon"]
  | CloneAttr a b => [bs "--clone-attr"; bs "--"; a; b]
  | CloneFile a b => [bs "--clone"; bs "--"; a; b]
  | Sqlite s => [bs "--sqlite"; bs "--"; s]
  | Path_ => [bs "--path"]
  | DenyList l => bs "--denylist" :: bs "--" :: l
  | PreInitDevice => [bs "--preinit-device"]
  end.

Example post_fs_data_args : magisk_cli_args [bs "magisk"] [bs "--"; bs "--post-fs-data"] = Ok PostFsData.
Proof. vm_compute. reflexivity. Qed.
Example remove_args : magisk_cli_args [bs "magisk"] [bs "--"; bs "--remove-modules"; bs "-n"] = Ok (RemoveModules true).
Proof. vm_compute. reflexivity. Qed.
Example denylist_args_greedy :
  magisk_cli_args [bs "magisk"] [bs "--"; bs "--denylist"; bs "exec"; bs "-x"; bs "--help"] = Ok (DenyList [bs "exec"; bs "-x"; bs "--help"]).
Proof. vm_compute. reflexivity. Qed.

Lemma magisk_args_run prog name rest i g :
  find_variant name 0 magisk_variants = Some (i, g) →
  magisk_cli_args [prog] (bs "--" :: name :: rest) = g [prog; name] rest.
Proof.
  intros Hv. unfold magisk_cli_args, parser.
  assert (∃ t f, emitted_struct (ascii_derive [] (Struct (Named magisk_cli_fields))) = (t, [f]) ∧ kind f = SubCommand ∧
    optionality f = Required ∧ is_subcommand t = None ∧ help_triggers_ t = None) as (t & f & -> & H1 & H2 & H3 & H4).
  { eexists _, _. split; [vm_compute; reflexivity|]. by cbn. }
  pose proof (derived_subcommand_at parse_text id (t, [f]) f magisk_variants snd
    (λ vs, match vs with [FSub a] => Some a | _ => None end) [prog] true name rest i g) as Hs.
  cbn [app fst snd] in Hs. rewrite Hs by done. by destruct (g [prog; name] rest).
Qed.

(** Any number of words behind a greedy field. *)
Lemma denylist_given cmd l : denylist_args cmd (bs "--" :: l) = Ok (DenyList l).
Proof.
  apply (plain_given 0 [] [words l]); [give_shape|vm_compute; reflexivity|..].
  - change (drop 0 (sub_struct "--denylist" denylist_fields).2) with (sub_struct "--denylist" denylist_fields).2.
    destruct (sub_struct "--denylist" denylist_fields).2 as [|p []] eqn:E; vm_compute in E; try discriminate E.
    unfold cmdline. cbn [zip zip_with take map flat_map app]. by rewrite !texts_words, app_nil_r.
  - replace (drop 0 (sub_struct "--denylist" denylist_fields).2) with (sub_struct "--denylist" denylist_fields).2 by done.
    assert (∃ p, (sub_struct "--denylist" denylist_fields).2 = [p] ∧ optionality p = Repeating)
      as (p & -> & Hp) by (eexists _; split; [vm_compute; reflexivity|done]).
    cbn [take zip zip_with map app]. unfold value_of, words. cbn [fst snd].
    rewrite Hp. cbn [map]. do 2 f_equal. induction l as [|c l IH]; [done|]. cbn. by rewrite IH.
Qed.

Lemma magisk_given prog a : magisk_cli_args [prog] (bs "--" :: magisk_words a) = Ok a.
Proof.
  destruct a as [| | | |n|z| | | | | | | | |x y|x y|s| |l|]; cbn [magisk_words];
    (erewrite magisk_args_run; [|reflexivity]); try (vm_compute; reflexivity).
  - destruct n; vm_compute; reflexivity.
  - give 0%nat (@nil (Given (V := bytes))) [words [z]].
  - give 0%nat (@nil (Given (V := bytes))) [words [x]; words [y]].
  - give 0%nat (@nil (Given (V := bytes))) [words [x]; words [y]].
  - give 0%nat (@nil (Given (V := bytes))) [words [s]].
  - apply denylist_given.
Qed.

(** Every action can be given on the command line: the words [magisk_words] writes for
    it make [magisk_main] run exactly that action, and an error of the action is the exit
    status 1. *)
Theorem magisk_main_dispatch c env reply prog a h :
  utf8_valid prog = true → Forall (λ w, utf8_valid w = true) (magisk_words a) →
  magisk_main c env reply (prog :: magisk_words a) h = unwrap_or_1 (exec c env reply a) h.
Proof.
  intros Hp Hw. unfold magisk_main.
  assert (cmd_args (prog :: magisk_words a) = prog :: magisk_words a) as ->.
  { unfold cmd_args. rewrite <- (map_id (prog :: magisk_words a)) at 2. apply map_ext_Forall.
    constructor; [by rewrite Hp|]. eapply Forall_impl; [exact Hw|]. intros w Hv. cbn. by rewrite Hv. }
  pose proof (magisk_given prog a) as Hg.
  destruct (magisk_words a) as [|cmd args]; [by vm_compute in Hg|]. by rewrite Hg.
Qed.

Definition cli_env_sample : CliEnv := mkCliEnv false (bs "30.0") 30000 (bs "/debug_ramdisk") (bs "vda3") (λ _, 0).

Lemma magisk_main_dispatch_witness :
  magisk_main cli_env_sample (λ _ _, true) (λ _, le_bytes 4 0) [bs "magisk"; bs "--remove-modules"; bs "-n"] [] =
  ([Connect REMOVE_MODULES false; Send [Byte.x00]], Ok 0).
Proof.
  etransitivity; [apply (magisk_main_dispatch cli_env_sample (λ _ _, true) (λ _, le_bytes 4 0) (bs "magisk") (RemoveModules true) [])|].
  - reflexivity.
  - repeat constructor.
  - vm_compute. reflexivity.
Defined.

(** ** What the daemon answers is what is shown *)

(** What a handler writes to the socket behind the [OK]. *)
Definition op_bytes (o : DaemonOp) : bytes :=
  match o with WriteStr s => encode (mk_str s) | WritePod v => encode (mk_i32 v) | _ => [] end.
Definition daemon_reply (d : DaemonEnv) (code : Z) : bytes :=
  flat_map op_bytes (handle_request_sync d code ++ handle_request_async d code).

(** The daemon with the flag the client sent. *)
Definition with_flag_sent (data : bytes) (d : DaemonEnv) : DaemonEnv :=
  mkDaemonEnv (debug d) (magisk_version d) (magisk_ver_code d) (zygisk_on d) (is_recovery d)
    (match decode (A:=bool) data with Ok (b, _) => Some b | _ => None end).

(** The two ends of the socket agree: against the daemon's handlers, -v prints the
    version and -V the code the daemon has, --stop and --remove-modules end with status 0,
    and the flag the latter sends makes the daemon reboot exactly without -n. *)
Theorem client_shows_daemon c env d :
  (∀ h o, env h o = true) → len (magisk_version d) < 2 ^ 30 → utf8_valid (magisk_version d) = true →
  0 ≤ magisk_ver_code d < 2 ^ 31 →
  let run a := exec c env (daemon_reply d) a [] in
  let shown := magisk_version d ++ (if debug d then bs ":MAGISK:D" else bs ":MAGISK:R") in
  run Version = ([Connect CHECK_VERSION false; Print shown], Ok 0) ∧
  run VersionCode = ([Connect CHECK_VERSION_CODE false; Print (fmt_dec (magisk_ver_code d))], Ok 0) ∧
  run Stop = ([Connect STOP_DAEMON false], Ok 0) ∧
  ∀ n, ∃ data, run (RemoveModules n) = ([Connect REMOVE_MODULES false; Send data], Ok 0) ∧
    handle_request_async (with_flag_sent data d) REMOVE_MODULES =
    [Daemon.RemoveModules; WritePod 0] ++ (if n then [] else reboot d).
Proof.
  intros He Hl Hu Hv. cbv zeta.
  set (shown := magisk_version d ++ (if debug d then bs ":MAGISK:D" else bs ":MAGISK:R")).
  assert (fits (mk_str shown)) as Hf.
  { cbn. unfold shown. rewrite len_app, utf8_valid_app by done. split; [|by destruct (debug d)].
    assert (len (if debug d then bs ":MAGISK:D" else bs ":MAGISK:R") = 9) as -> by by destruct (debug d). lia. }
  assert (fits (mk_i32 (magisk_ver_code d))) as Hc by (cbn; lia).
  assert (∀ o h, call env o h = (h ++ [o], Ok tt)) as Hcall by (intros; unfold call; by rewrite He).
  split; [|split; [|split]].
  - unfold exec, connect, mbind, io_bind. rewrite Hcall. cbn [mret io_ret].
    replace (daemon_reply d CHECK_VERSION) with (encode (mk_str shown) ++ []) by done.
    unfold as_io, lift. rewrite decode_encode by done. cbn [str_val]. unfold print, ignore. by rewrite Hcall.
  - unfold exec, connect, read_code, mbind, io_bind. rewrite Hcall. cbn [mret io_ret].
    replace (daemon_reply d CHECK_VERSION_CODE) with (encode (mk_i32 (magisk_ver_code d)) ++ []) by done.
    unfold as_io, lift. rewrite decode_encode by done. cbn [i32_val mret io_ret].
    rewrite (proj2 (Z.ltb_ge _ _)) by lia. unfold print, ignore. by rewrite Hcall.
  - unfold exec, connect, read_code, mbind, io_bind. rewrite Hcall. reflexivity.
  - intros n. exists (encode (negb n)). split.
    + unfold exec, connect, read_code, mbind, io_bind. rewrite Hcall. cbn [mret io_ret]. rewrite Hcall.
      unfold daemon_reply, handle_request_sync, handle_request_async. cbn [Z.eqb]. 
      by destruct (do_reboot d) as [[]|], (is_recovery d) eqn:Er.
    + destruct n; reflexivity.
Qed.

Definition daemon_env_sample : DaemonEnv := mkDaemonEnv false (bs "30.0") 30000 true false None.

Lemma client_shows_daemon_witness :
  let run a := exec cli_env_sample (λ _ _, true) (daemon_reply daemon_env_sample) a [] in
  run Version = ([Connect CHECK_VERSION false; Print (bs "30.0:MAGISK:R")], Ok 0) ∧
  run VersionCode = ([Connect CHECK_VERSION_CODE false; Print (bs "30000")], Ok 0) ∧
  run Stop = ([Connect STOP_DAEMON false], Ok 0) ∧
  ∀ n, ∃ data, run (RemoveModules n) = ([Connect REMOVE_MODULES false; Send data], Ok 0) ∧
    handle_request_async (with_flag_sent data daemon_env_sample) REMOVE_MODULES =
    [Daemon.RemoveModules; WritePod 0] ++ (if n then [] else reboot daemon_env_sample).
Proof.
  refine (client_shows_daemon cli_env_sample (λ _ _, true) daemon_env_sample (λ _ _, eq_refl) _ eq_refl _);
    [reflexivity|split; [discriminate|reflexivity]].
Defined.

(** ** The triggers magiskinit puts into init.rc *)

(** The words behind [--] in the lines that execute a command. *)
Definition exec_command (line : bytes) : option (list bytes) :=
  match split_whitespace line with
  | w :: context :: user :: group :: dashes :: command =>
      if bool_decide (w = bs "exec") && bool_decide (dashes = bs "--") then Some command else None
  | _ => None
  end.
Definition rc_commands (rc : bytes) : list (list bytes) := omap exec_command (split_on LF rc).

Lemma split_lines ls : Forall (λ l, LF ∉ l) ls → split_on LF (Overlay.lines_of ls) = ls ++ [[]].
Proof.
  induction 1 as [|l ls Hl _ IH]; [done|]. unfold Overlay.lines_of in *. cbn [flat_map].
  rewrite <- app_assoc. cbn [app]. rewrite split_on_app_sep by done. by rewrite IH.
Qed.

Lemma no_ws_no_lf s : no_ws s → LF ∉ s.
Proof. intros Hs Hin. apply (proj1 (Forall_forall _ _) Hs) in Hin. vm_compute in Hin. intuition congruence. Qed.

(** Indented words. *)
Lemma split_indented ws : Forall (λ w, no_ws w ∧ w ≠ []) ws → split_whitespace (bs "    " ++ join (bs " ") ws) = ws.
Proof. intros Hw. rewrite <- (split_whitespace_join ws Hw) at 2. reflexivity. Qed.

Lemma exec_line action tmp_dir : no_ws tmp_dir → no_ws action → action ≠ [] →
  exec_command (bs "    exec " ++ Overlay.MAGISK_PROC_CON ++ bs " 0 0 -- " ++ tmp_dir ++ bs "/magisk " ++ action) =
  Some [tmp_dir ++ bs "/magisk"; action].
Proof.
  intros Ht Ha Hn.
  assert (bs "    exec " ++ Overlay.MAGISK_PROC_CON ++ bs " 0 0 -- " ++ tmp_dir ++ bs "/magisk " ++ action =
    bs "    " ++ join (bs " ") [bs "exec"; Overlay.MAGISK_PROC_CON; bs "0"; bs "0"; bs "--"; tmp_dir ++ bs "/magisk"; action]) as ->.
  { cbn [join]. change (bs "/magisk ") with (bs "/magisk" ++ bs " "). rewrite <- !app_assoc. reflexivity. }
  unfold exec_command. rewrite split_indented; [done|].
  do 5 (constructor; [split; [by_compute|done]|]).
  constructor; [split; [apply Forall_app; split; [done|by_compute]|by destruct tmp_dir]|].
  by repeat constructor.
Qed.

(** C21: the boot triggers reach the daemon: for a path without blanks, the commands of the
    init.rc fragment, run as root, are in this order the requests of the post-fs-data
    stage, twice of the late start and of the completed boot, the first three starting the
    daemon if need be; the daemon hands each to its boot stages. *)
Theorem triggers_reach_daemon c env reply tmp_dir check tail :
  (∀ h o, env h o = true) → no_ws tmp_dir → is_ascii tmp_dir = true →
  let codes := [(POST_FS_DATA, true); (LATE_START, true); (LATE_START, true); (BOOT_COMPLETE, false)] in
  map (λ cmd, magisk_main c env reply cmd []) (rc_commands (Overlay.magisk_rc tmp_dir)) =
  map (λ '(code, create),
    (Connect code create :: (if code =? POST_FS_DATA then [Poll 40000] else []), Ok 0)) codes ∧
  Forall (λ '(code, _), handle_requests check (mkClient (Some 0) tail true (Some code) true) = Stage code) codes.
Proof.
  intros He Hn Hu. cbv zeta. split.
  2: { repeat constructor. }
  assert (rc_commands (Overlay.magisk_rc tmp_dir) =
    map (λ w, [tmp_dir ++ bs "/magisk"; w]) [bs "--post-fs-data"; bs "--service"; bs "--service"; bs "--boot-complete"]) as ->.
  { unfold rc_commands, Overlay.magisk_rc. rewrite split_lines.
    - unfold Overlay.rc_action. cbn [app omap list_omap].
      rewrite !exec_line by (done || by_compute). reflexivity.
    - pose proof (no_ws_no_lf tmp_dir Hn) as Hl.
      assert (∀ a, LF ∉ a → LF ∉ bs "    exec " ++ Overlay.MAGISK_PROC_CON ++ bs " 0 0 -- " ++ tmp_dir ++ bs "/magisk " ++ a) as Hx.
      { intros a Ha. rewrite !not_elem_of_app. repeat split; try done; by_compute. }
      unfold Overlay.rc_action. cbn [app].
      repeat (constructor; [first [apply not_elem_of_nil | apply Hx; by_compute | by_compute]|]). constructor. }
  assert (utf8_valid (tmp_dir ++ bs "/magisk") = true) as Hp.
  { apply utf8_valid_ascii. unfold is_ascii in *. by rewrite forallb_app, Hu. }
  cbn [map].
  assert (∀ a w, magisk_words a = [w] → utf8_valid w = true →
    magisk_main c env reply [tmp_dir ++ bs "/magisk"; w] [] = unwrap_or_1 (exec c env reply a) []) as Hrun.
  { intros a w Hw Hv. unfold magisk_main, cmd_args. cbn [map]. rewrite Hp, Hv.
    rewrite <- Hw. by rewrite magisk_given. }
  assert (∀ o h, call env o h = (h ++ [o], Ok tt)) as Hcall by (intros; unfold call; by rewrite He).
  rewrite (Hrun PostFsData), (Hrun Service), (Hrun BootCompleted) by done.
  unfold unwrap_or_1, exec, connect, mbind, io_bind. rewrite !Hcall. cbn [mret io_ret]. by rewrite Hcall.
Qed.

Lemma triggers_reach_daemon_witness :
  let run cmd := magisk_main cli_env_sample (λ _ _, true) (λ _, []) cmd [] in
  map run (rc_commands (Overlay.magisk_rc (bs "/debug_ramdisk"))) =
  [([Connect POST_FS_DATA true; Poll 40000], Ok 0); ([Connect LATE_START true], Ok 0);
   ([Connect LATE_START true], Ok 0); ([Connect BOOT_COMPLETE false], Ok 0)].
Proof.
  etransitivity; [refine (proj1 (triggers_reach_daemon cli_env_sample (λ _ _, true) (λ _, []) (bs "/debug_ramdisk")
    true (bs "u:r:init:s0") (λ _ _, eq_refl) _ _)); by_compute|vm_compute; reflexivity].
Defined.
