(* ===== verification/Db.v ===== *)
(** Db: statements on the settings database, [native/src/core/db.rs].

    SQLite is an interface ([Sqlite]): preparing a statement, binding its parameters and
    running it to its end.  [sql_exec_impl] is the loop around it (C++, [sqlite.cpp]) that
    calls the callbacks given to it; the callbacks, the connection and everything that is
    executed are the code's. *)

From S2P Require Import Prelude Socket Io Daemon.
From S2P Require MagiskCli.

Inductive DbArg := Text (s : bytes) | Integer (v : Z).

(** A row: a column as text and as an integer, of which [sqlite3_column_int] gives the low 32
    bits. *)
Record DbValues := mkValues { get_text : nat → bytes; column_int64 : nat → Z }.
Definition get_int (values : DbValues) (index : nat) : Z := as_i32 (column_int64 values index).

(** [prepare] gives the code, the statement if there is one, and the rest of the text;
    [execute] the database afterwards, the columns, the rows and the code. *)
Class Sqlite (Conn Stmt : Type) := {
  prepare : Conn → bytes → Z * option Stmt * bytes;
  parameter_count : Stmt → nat;
  bind : Stmt → nat → DbArg → Z * Stmt;
  execute : Conn → Stmt → Conn * list bytes * list DbValues * Z
}.

Definition SQLITE_OK : Z := 0.

Section Exec.
Context {Conn Stmt : Type} `{Sqlite Conn Stmt}.

(** ** The loop, with a callback for each parameter and each row *)

Section Callbacks.
Context {B E : Type}.
Context (bind_callback : option (B → nat → Stmt → B * Z * Stmt)).
Context (exec_callback : option (E → list bytes → DbValues → E)).

(** The parameters from [i] on, until one fails. *)
Fixpoint bind_from (cb : B → nat → Stmt → B * Z * Stmt) (n i : nat) (b : B) (st : Stmt) : B * Z * Stmt :=
  match n with
  | O => (b, SQLITE_OK, st)
  | S n =>
      let '(b, rc, st) := cb b i st in
      if rc =? SQLITE_OK then bind_from cb n (S i) b st else (b, rc, st)
  end.

Definition run_rows (e : E) (columns : list bytes) (rows : list DbValues) : E :=
  match exec_callback with None => e | Some cb => foldl (λ e row, cb e columns row) e rows end.

(** [fuel] bounds the statements of a text. *)
Fixpoint sql_exec_impl (fuel : nat) (db : Conn) (sql : bytes) (b : B) (e : E) : Conn * B * E * res unit Z :=
  match fuel with
  | O => (db, b, e, NoFuel)
  | S fuel =>
      match sql with
      | [] => (db, b, e, Ok SQLITE_OK)
      | _ =>
          match prepare db sql with
          | (rc, st, rest) =>
              if negb (rc =? SQLITE_OK) then (db, b, e, Ok rc)
              else
                match st with
                | None => sql_exec_impl fuel db rest b e
                | Some st =>
                    let '(b, rc, st) :=
                      match bind_callback with
                      | Some cb => bind_from cb (parameter_count st) 1 b st
                      | None => (b, SQLITE_OK, st)
                      end in
                    if negb (rc =? SQLITE_OK) then (db, b, e, Ok rc)
                    else
                      let '(db, columns, rows, rc) := execute db st in
                      let e := run_rows e columns rows in
                      if rc =? SQLITE_OK then sql_exec_impl fuel db rest b e else (db, b, e, Ok rc)
                end
          end
      end
  end.
End Callbacks.

(** ** The arguments *)

Record DbArgs := mkArgs { args : list DbArg; curr : nat }.

(** One parameter takes the next argument; those beyond the arguments stay unbound. *)
Definition bind_arguments (a : DbArgs) (idx : nat) (stmt : Stmt) : DbArgs * Z * Stmt :=
  match args a !! curr a with
  | Some arg => let '(rc, stmt) := bind stmt idx arg in (mkArgs (args a) (S (curr a)), rc, stmt)
  | None => (a, 0, stmt)
  end.

(** ** The connection *)

(** [sql_connection], and what opening the database gives each time it is tried. *)
Record Magiskd := mkMagiskd { sql_connection : option Conn; opening : list (option Conn) }.

(** The database is opened when it is needed first, and again if that failed. *)
Definition with_db {A} (f : Conn → Conn * A * res unit Z) (none : A) (d : Magiskd) : Magiskd * A * res unit Z :=
  let d :=
    match sql_connection d with
    | Some _ => d
    | None => mkMagiskd (default None (head (opening d))) (tail (opening d))
    end in
  match sql_connection d with
  | Some db => let '(db, a, r) := f db in (mkMagiskd (Some db) (opening d), a, r)
  | None => (d, none, Ok (-1))
  end.

Definition fuel_for (sql : bytes) : nat := S (length sql).

Definition db_exec_impl {E} (sql : bytes) (a : list DbArg) (exec_callback : option (E → list bytes → DbValues → E)) (e : E)
    (d : Magiskd) : Magiskd * E * res unit Z :=
  let bind_callback := match a with [] => None | _ => Some bind_arguments end in
  with_db (λ db, let '(db, _, e, r) := sql_exec_impl bind_callback exec_callback (fuel_for sql) db sql (mkArgs a 0) e in (db, e, r)) e d.

Definition db_exec_with_rows {E} (sql : bytes) (a : list DbArg) (out : E → list bytes → DbValues → E) (e : E) (d : Magiskd) :
    Magiskd * E * res unit Z :=
  db_exec_impl sql a (Some out) e d.
Definition db_exec (sql : bytes) (a : list DbArg) (d : Magiskd) : Magiskd * res unit Z :=
  let '(d, _, r) := db_exec_impl (E:=unit) sql a None tt d in (d, r).

(** [SqliteReturn::sql_result]. *)
Definition sql_result (r : res unit Z) : res Z unit :=
  match r with Ok rc => if rc =? 0 then Ok tt else Err rc | Err _ => Err (-1) | Panic => Panic | NoFuel => NoFuel end.

(** ** Settings *)

Definition INSERT_SETTING : bytes := bs "INSERT OR REPLACE INTO settings (key,value) VALUES(?,?)".
Definition SELECT_SETTING : bytes := bs "SELECT value FROM settings WHERE key=?".

(** The value is an [i32]. *)
Definition set_setting (key : DbEntryKey) (value : Z) (d : Magiskd) : Magiskd * res Z unit :=
  let '(d, r) := db_exec INSERT_SETTING [Text (to_str key); Integer (as_i32 value)] d in (d, sql_result r).
(** The value and whether the query went well, which is only logged. *)
Definition get_setting (is_emulator : bool) (key : DbEntryKey) (d : Magiskd) : Magiskd * Z * res Z unit :=
  let '(d, val, r) := db_exec_with_rows SELECT_SETTING [Text (to_str key)]
    (λ _ _ values, get_int values 0) (db_default is_emulator key) d in
  (d, val, sql_result r).
Definition set_db_setting_for_cxx (key : DbEntryKey) (value : Z) (d : Magiskd) : Magiskd * bool :=
  let '(d, r) := set_setting key value d in (d, is_ok r).

(** ** The command line *)

(** A row is one string of columns with their values. *)
Fixpoint row_text (first : bool) (columns : list bytes) (i : nat) (values : DbValues) : bytes :=
  match columns with
  | [] => []
  | column :: columns =>
      (if first then [] else bs "|") ++ column ++ bs "=" ++ get_text values i ++ row_text false columns (S i) values
  end.

(** What is sent for a statement; an empty string ends it. *)
Definition db_exec_for_cli (request : bytes) (d : Magiskd) : Magiskd * res unit bytes :=
  match decode (A:=str) request with
  | Ok (sql, _) =>
      let '(d, out, r) := db_exec_with_rows (str_val sql) []
        (λ out columns values, out ++ encode (mk_str (row_text true columns 0 values))) [] d in
      (d, match r with NoFuel => NoFuel | Panic => Panic | _ => Ok (out ++ encode (mk_str [])) end)
  | Err _ => (d, Err tt)
  | Panic => (d, Panic)
  | NoFuel => (d, NoFuel)
  end.

(** ** Callbacks that keep in step *)

Lemma exec_related {B E E'} bcb (f : E → list bytes → DbValues → E) (g : E' → list bytes → DbValues → E') (R : E → E' → Prop) :
  (∀ e e' c v, R e e' → R (f e c v) (g e' c v)) →
  ∀ fuel db sql (b : B) e e', R e e' →
  let '(db1, b1, e1, r1) := sql_exec_impl bcb (Some f) fuel db sql b e in
  let '(db2, b2, e2, r2) := sql_exec_impl bcb (Some g) fuel db sql b e' in
  db1 = db2 ∧ b1 = b2 ∧ R e1 e2 ∧ r1 = r2.
Proof.
  intros Hfg fuel. induction fuel as [|fuel IH]; intros db sql b e e' He; [done|]. cbn [sql_exec_impl].
  destruct sql as [|c sql]; [done|]. destruct (prepare db (c :: sql)) as [[rc st] rest].
  destruct (negb (rc =? SQLITE_OK)); [done|]. destruct st as [st|]; [|by apply IH].
  destruct (match bcb with Some cb => _ | None => _ end) as [[b' rc'] st'].
  destruct (negb (rc' =? SQLITE_OK)); [done|]. destruct (execute db st') as [[[db' columns] rows] rc''].
  assert (R (run_rows (Some f) e columns rows) (run_rows (Some g) e' columns rows)) as Hr.
  { unfold run_rows. clear -Hfg He. revert e e' He. induction rows as [|v rows IH]; intros e e' He; [done|]. cbn. auto. }
  destruct (rc'' =? SQLITE_OK); [by apply IH|done].
Qed.

(** The tail is what is behind a statement. *)
Context (prepare_consumes : ∀ db sql st rest,
  prepare db sql = (SQLITE_OK, st, rest) → sql ≠ [] → (length rest < length sql)%nat).

Lemma exec_ends {B E} bcb (ecb : option (E → list bytes → DbValues → E)) fuel db sql (b : B) e : (length sql < fuel)%nat →
  ∃ rc, (sql_exec_impl bcb ecb fuel db sql b e).2 = Ok rc.
Proof.
  revert db sql b e. induction fuel as [|fuel IH]; intros db sql b e Hf; [lia|]. cbn [sql_exec_impl].
  destruct sql as [|c sql]; [by eexists|]. destruct (prepare db (c :: sql)) as [[rc st] rest] eqn:Ep.
  destruct (Z.eqb_spec rc SQLITE_OK) as [->|]; cbn [negb]; [|by eexists].
  assert (length rest < fuel)%nat as Hr by (pose proof (prepare_consumes _ _ _ _ Ep ltac:(done)); lia).
  destruct st as [st|]; [|by apply IH].
  destruct (match bcb with Some cb => _ | None => _ end) as [[b' rc'] st'].
  destruct (negb (rc' =? SQLITE_OK)); [by eexists|]. destruct (execute db st') as [[[db' columns] rows] rc''].
  destruct (rc'' =? SQLITE_OK); [by apply IH|by eexists].
Qed.

(** *** What a statement shows *)

Definition rows_shown (sql : bytes) (d : Magiskd) : list bytes :=
  (db_exec_with_rows sql [] (λ l columns values, l ++ [row_text true columns 0 values]) [] d).1.2.

Lemma cli_stream request sql rest d :
  decode (A:=str) request = Ok (sql, rest) →
  ∃ d', db_exec_for_cli request d =
    (d', Ok (concat (map (λ l, encode (mk_str l)) (rows_shown (str_val sql) d)) ++ encode (mk_str []))).
Proof.
  intros Hs. unfold db_exec_for_cli, rows_shown, db_exec_with_rows, db_exec_impl, with_db. rewrite Hs.
  set (d1 := match sql_connection d with Some _ => d | None => _ end). destruct (sql_connection d1) as [db|]; [|by eexists].
  pose proof (exec_related (B:=DbArgs) None (λ out columns values, out ++ encode (mk_str (row_text true columns 0 values)))
    (λ l columns values, l ++ [row_text true columns 0 values])
    (λ out l, out = concat (map (λ l, encode (mk_str l)) l))
    ltac:(intros e e' c v ->; rewrite map_app, concat_app; cbn; by rewrite app_nil_r)
    (fuel_for (str_val sql)) db (str_val sql) (mkArgs [] 0) [] [] eq_refl) as Hr.
  pose proof (exec_ends (B:=DbArgs) None (Some (λ (l : list bytes) columns values, l ++ [row_text true columns 0 values]))
    (fuel_for (str_val sql)) db (str_val sql) (mkArgs [] 0) [] ltac:(unfold fuel_for; lia)) as [rc Hrc].
  destruct (sql_exec_impl None (Some (λ (out : bytes) _ _, _)) _ _ _ _ _) as [[[db1 b1] out] r1].
  destruct (sql_exec_impl None (Some (λ (l : list bytes) _ _, _)) _ _ _ _ _) as [[[db2 b2] l] r2].
  destruct Hr as (-> & -> & -> & ->). cbn in *. subst. by eexists.
Qed.

(** The texts a stream of strings can carry. *)
Definition sendable (l : bytes) : Prop := l ≠ [] ∧ len l < 2 ^ 31 ∧ utf8_valid l = true.

Lemma print_rows_shows env fuel lines h : Forall sendable lines → (length lines < fuel)%nat →
  MagiskCli.print_rows env fuel (concat (map (λ l, encode (mk_str l)) lines) ++ encode (mk_str [])) h =
  (h ++ map MagiskCli.Print lines, Ok 0).
Proof.
  intros Hl. revert fuel h. induction Hl as [|l lines (Hne & Hlen & Hv) Hl IH]; intros fuel h Hf;
    (destruct fuel as [|fuel]; [cbn in Hf; lia|]); cbn [map concat MagiskCli.print_rows].
  - cbn [app]. rewrite <- (app_nil_r (encode (mk_str []))), decode_encode by done. cbn. by rewrite app_nil_r.
  - rewrite <- app_assoc, decode_encode by done. unfold MagiskCli.as_io, lift, mbind, io_bind. cbn [str_val].
    rewrite bool_decide_eq_false_2 by done. unfold MagiskCli.print, ignore, call. cbn [length] in Hf.
    destruct (env h (MagiskCli.Print l)); rewrite IH by lia; by rewrite <- app_assoc.
Qed.
End Exec.

(** [magisk --sqlite] prints what the database answers: the daemon runs the statements
    that were sent and the client prints each row on a line, in order, and nothing else, up to
    the end of the answer; both ends stop. *)
Theorem sqlite_shows_rows {Conn Stmt} `{Sqlite Conn Stmt} env sql (d : Magiskd (Conn:=Conn)) h :
  (∀ db sql st rest, prepare db sql = (SQLITE_OK, st, rest) → sql ≠ [] → (length rest < length sql)%nat) →
  fits (mk_str sql) → Forall sendable (rows_shown sql d) →
  ∃ d' stream, db_exec_for_cli (encode (mk_str sql)) d = (d', Ok stream) ∧
    MagiskCli.print_rows env (S (length stream)) stream h = (h ++ map MagiskCli.Print (rows_shown sql d), Ok 0).
Proof.
  intros Hp Hf Hl. destruct (cli_stream Hp (encode (mk_str sql)) (mk_str sql) [] d) as [d' E].
  { rewrite <- (app_nil_r (encode (mk_str sql))). by apply decode_encode. }
  eexists d', _. split; [exact E|]. cbn [str_val]. apply print_rows_shows; [done|]. rewrite length_app.
  assert (∀ l, length l ≤ length (concat (map (λ l, encode (mk_str l)) l)))%nat as Hlen; [|specialize (Hlen (rows_shown sql d)); lia].
  clear. induction l as [|x l IH]; [done|]. cbn [map concat length]. rewrite length_app.
  assert (0 < length (encode (mk_str x)))%nat; [|lia]. cbn [encode str_codec]. unfold encode_str.
  rewrite length_app. cbn [encode i32_codec]. unfold write_pod. rewrite length_le_bytes. lia.
Qed.

(** ** Settings are kept *)

(** What the two statements mean on the table of settings, which has a row per key; the
    value of a row is read as a number.  Anything can fail: a query then shows what it
    found up to that point, and an insertion is done or not.  Nothing but the daemon's
    connection writes the table. *)
Class SettingsEngine (Conn Stmt : Type) `{Sqlite Conn Stmt} := {
  table : Conn → gmap bytes Z;
  is_select : Stmt → Prop;
  is_insert : Stmt → Prop;
  is_selected : bytes → Stmt → Prop;
  is_keyed : bytes → Stmt → Prop;
  is_inserted : bytes → Z → Stmt → Prop;
  prepare_select db st rest : prepare db SELECT_SETTING = (SQLITE_OK, st, rest) → ∃ s, st = Some s ∧ rest = [] ∧ is_select s;
  prepare_insert db st rest : prepare db INSERT_SETTING = (SQLITE_OK, st, rest) → ∃ s, st = Some s ∧ rest = [] ∧ is_insert s;
  select_count s : is_select s → parameter_count s = 1%nat;
  insert_count s : is_insert s → parameter_count s = 2%nat;
  bind_select s k s' : is_select s → bind s 1 (Text k) = (SQLITE_OK, s') → is_selected k s';
  bind_key s k s' : is_insert s → bind s 1 (Text k) = (SQLITE_OK, s') → is_keyed k s';
  bind_value s k v s' : is_keyed k s → bind s 2 (Integer v) = (SQLITE_OK, s') → is_inserted k v s';
  execute_select db k s : is_selected k s →
    let '(db', _, rows, rc) := execute db s in
    table db' = table db ∧
    (rows = [] ∧ (rc = SQLITE_OK → table db !! k = None) ∨ ∃ row, rows = [row] ∧ table db !! k = Some (column_int64 row 0));
  execute_insert db k v s : is_inserted k v s → - 2 ^ 63 ≤ v < 2 ^ 63 →
    let '(db', _, _, rc) := execute db s in
    table db' = <[k := v]> (table db) ∨ rc ≠ SQLITE_OK ∧ table db' = table db
}.

Section Settings.
Context {Conn Stmt : Type} `{SettingsEngine Conn Stmt}.

(** The connection that is used next. *)
Definition connected (d : Magiskd (Conn := Conn)) : option Conn :=
  match sql_connection d with Some db => Some db | None => default None (head (opening d)) end.

(** A statement is run with its parameters bound, or fails before it is run. *)
Lemma one_statement {E} (ecb : option (E → list bytes → DbValues → E)) sql db b (e : E) (ready : Stmt → Prop) :
  sql ≠ [] →
  (∀ st rest, prepare db sql = (SQLITE_OK, st, rest) → ∃ s, st = Some s ∧ rest = [] ∧
     ∀ b' s', bind_from bind_arguments (parameter_count s) 1 b s = (b', SQLITE_OK, s') → ready s') →
  (∃ b' rc, rc ≠ SQLITE_OK ∧ sql_exec_impl (Some bind_arguments) ecb (fuel_for sql) db sql b e = (db, b', e, Ok rc)) ∨
  (∃ b' s, ready s ∧ sql_exec_impl (Some bind_arguments) ecb (fuel_for sql) db sql b e =
     let '(db', columns, rows, rc) := execute db s in (db', b', run_rows ecb e columns rows, Ok rc)).
Proof.
  intros Hs Hp. unfold fuel_for. destruct sql as [|c sql]; [done|]. cbn [length sql_exec_impl].
  destruct (prepare db (c :: sql)) as [[rc st] rest]. destruct (Z.eqb_spec rc SQLITE_OK) as [->|Hrc]; cbn [negb]; [|left; eauto].
  destruct (Hp st rest eq_refl) as (s & -> & -> & Hb).
  destruct (bind_from bind_arguments (parameter_count s) 1 b s) as [[b' rc'] s'] eqn:Eb.
  destruct (Z.eqb_spec rc' SQLITE_OK) as [->|Hrc]; cbn [negb]; [|left; eauto].
  right. exists b', s'. split; [by eapply Hb|]. destruct (execute db s') as [[[db' columns] rows] rc''].
  by destruct (Z.eqb_spec rc'' SQLITE_OK) as [->|].
Qed.

(** [with_db] opens the database if it has to. *)
Lemma with_db_none {A} f (none : A) d : connected d = None →
  sql_connection (with_db f none d).1.1 = None ∧ (with_db f none d).1.2 = none ∧ (with_db f none d).2 = Ok (-1).
Proof. unfold connected, with_db. destruct (sql_connection d); [done|]. by intros ->. Qed.

Lemma with_db_some {A} f (none : A) d db : connected d = Some db →
  sql_connection (with_db f none d).1.1 = Some (f db).1.1 ∧ (with_db f none d).1.2 = (f db).1.2 ∧ (with_db f none d).2 = (f db).2.
Proof.
  unfold connected, with_db. destruct (sql_connection d) as [c|] eqn:E; [intros [= ->]; rewrite E|intros ->; cbn];
    by destruct (f db) as [[db' a] r].
Qed.

Lemma sql_result_ok r : sql_result r = Ok tt → r = Ok SQLITE_OK.
Proof. destruct r as [rc|?| |]; cbn; try done. by destruct (Z.eqb_spec rc 0) as [->|]. Qed.

(** *** The two operations on the table *)

Lemma select_cases {E} (cb : E → list bytes → DbValues → E) e k d db : connected d = Some db →
  let '(d', e', r) := db_exec_with_rows SELECT_SETTING [Text k] cb e d in
  ∃ db' columns rows, sql_connection d' = Some db' ∧ table db' = table db ∧ e' = foldl (λ e v, cb e columns v) e rows ∧
    (rows = [] ∧ (r = Ok SQLITE_OK → table db !! k = None) ∨ ∃ row, rows = [row] ∧ table db !! k = Some (column_int64 row 0)).
Proof.
  intros Hd. unfold db_exec_with_rows, db_exec_impl.
  match goal with |- context [with_db ?f ?none d] => destruct (with_db_some f none d db Hd) as (E1 & E2 & E3);
    destruct (with_db f none d) as [[d' e'] r] end.
  cbn [fst snd] in E1, E2, E3. rewrite E1, E2, E3. clear E1 E2 E3.
  destruct (one_statement (Some cb) SELECT_SETTING db (mkArgs [Text k] 0) e (is_selected k))
    as [(b' & rc & Hrc & ->)|(b' & s & Hs & ->)]; [done| | |].
  - intros st rest Hp. destruct (prepare_select db st rest Hp) as (s & -> & -> & Hs). exists s. do 2 (split; [done|]).
    intros b' s'. rewrite (select_count s Hs). cbn [bind_from]. unfold bind_arguments. cbn.
    destruct (bind s 1 (Text k)) as [rc s1] eqn:Eb. destruct (Z.eqb_spec rc SQLITE_OK) as [->|]; [|by intros [= _ ? _]].
    intros [= _ <-]. by eapply bind_select.
  - exists db, [], []. cbn [fst snd]. do 3 (split; [done|]). left. split; [done|]. intros [= ?]. done.
  - pose proof (execute_select db k s Hs) as Hx. destruct (execute db s) as [[[db' columns] rows] rc].
    destruct Hx as [Ht Hr]. exists db', columns, rows. cbn [fst snd]. do 3 (split; [done|]).
    destruct Hr as [[-> Hn]|Hr]; [left|by right]. split; [done|]. intros [= ->]. by apply Hn.
Qed.

Lemma insert_cases k v d db : connected d = Some db → - 2 ^ 63 ≤ v < 2 ^ 63 →
  let '(d', r) := db_exec INSERT_SETTING [Text k; Integer v] d in
  ∃ db', sql_connection d' = Some db' ∧
    (table db' = <[k := v]> (table db) ∨ r ≠ Ok SQLITE_OK ∧ table db' = table db).
Proof.
  intros Hd Hv. unfold db_exec, db_exec_impl.
  match goal with |- context [with_db ?f ?none d] => destruct (with_db_some f none d db Hd) as (E1 & _ & E3);
    destruct (with_db f none d) as [[d' e'] r] end.
  cbn [fst snd] in E1, E3. rewrite E1, E3. clear E1 E3.
  destruct (one_statement (E:=unit) None INSERT_SETTING db (mkArgs [Text k; Integer v] 0) tt (is_inserted k v))
    as [(b' & rc & Hrc & ->)|(b' & s & Hs & ->)]; [done| | |].
  - intros st rest Hp. destruct (prepare_insert db st rest Hp) as (s & -> & -> & Hs). exists s. do 2 (split; [done|]).
    intros b' s'. rewrite (insert_count s Hs). cbn [bind_from]. unfold bind_arguments. cbn.
    destruct (bind s 1 (Text k)) as [rc s1] eqn:Eb. destruct (Z.eqb_spec rc SQLITE_OK) as [->|]; [|by intros [= _ ? _]].
    cbn. destruct (bind s1 2 (Integer v)) as [rc s2] eqn:Eb'. destruct (Z.eqb_spec rc SQLITE_OK) as [->|]; [|by intros [= _ ? _]].
    intros [= _ <-]. eapply bind_value; [|done]. by eapply bind_key.
  - exists db. cbn [fst snd]. split; [done|]. right. split; [by intros [= ?]|done].
  - pose proof (execute_insert db k v s Hs Hv) as Hx.
    destruct (execute db s) as [[[db' columns] rows] rc]. exists db'. cbn [fst snd]. split; [done|].
    destruct Hx as [Hx|[Hrc Hx]]; [by left|right]. split; [by intros [= ?]|done].
Qed.

(** What is read: the stored number, as far as an [i32] goes, or the default. *)
Definition stored (emu : bool) (key : DbEntryKey) (db : Conn) : Z :=
  from_option as_i32 (db_default emu key) (table db !! to_str key).

Lemma get_cases emu key d db : connected d = Some db →
  ∃ db', sql_connection (get_setting emu key d).1.1 = Some db' ∧ table db' = table db ∧
    ((get_setting emu key d).2 = Ok tt → (get_setting emu key d).1.2 = stored emu key db) ∧
    ((get_setting emu key d).1.2 = db_default emu key ∨ (get_setting emu key d).1.2 = stored emu key db).
Proof.
  intros Hd. unfold get_setting.
  pose proof (select_cases (λ (_ : Z) (_ : list bytes) values, get_int values 0) (db_default emu key) (to_str key) d db Hd) as Hs.
  destruct (db_exec_with_rows _ _ _ _ d) as [[d' v] r]. destruct Hs as (db' & columns & rows & Hc & Ht & -> & Hr).
  exists db'. cbn [fst snd]. do 2 (split; [done|]). unfold stored.
  destruct Hr as [[-> Hn]|(row & -> & ->)]; cbn [foldl from_option]; [|by split; [|right]].
  split; [|by left]. intros ?%sql_result_ok. by rewrite Hn.
Qed.

Lemma as_i32_range z : - 2 ^ 31 ≤ as_i32 z < 2 ^ 31.
Proof. unfold as_i32. pose proof (Z.mod_pos_bound (z + 2 ^ 31) (2 ^ 32) ltac:(lia)). lia. Qed.

Lemma set_cases key value d db : connected d = Some db →
  ∃ db', sql_connection (set_setting key value d).1 = Some db' ∧
    (table db' = <[to_str key := as_i32 value]> (table db) ∨ (set_setting key value d).2 ≠ Ok tt ∧ table db' = table db).
Proof.
  intros Hd. unfold set_setting. pose proof (as_i32_range value).
  pose proof (insert_cases (to_str key) (as_i32 value) d db Hd ltac:(lia)) as Hs.
  destruct (db_exec _ _ d) as [d' r]. destruct Hs as (db' & Hc & Ht). exists db'. cbn [fst snd]. split; [done|].
  destruct Ht as [Ht|[Hr Ht]]; [by left|right]. split; [by intros ?%sql_result_ok|done].
Qed.

Lemma set_unopened key value d : connected d = None → (set_setting key value d).2 = Err (-1).
Proof.
  intros Hd. unfold set_setting, db_exec, db_exec_impl.
  match goal with |- context [with_db ?f ?none d] => destruct (with_db_none f none d Hd) as (_ & _ & E);
    destruct (with_db f none d) as [[d' val] r] end.
  cbn in E |- *. by rewrite E.
Qed.

Lemma get_unopened emu key d : connected d = None → (get_setting emu key d).2 = Err (-1).
Proof.
  intros Hd. unfold get_setting, db_exec_with_rows, db_exec_impl.
  match goal with |- context [with_db ?f ?none d] => destruct (with_db_none f none d Hd) as (_ & _ & E);
    destruct (with_db f none d) as [[d' val] r] end.
  cbn in E |- *. by rewrite E.
Qed.

Lemma opened_connected d db : sql_connection d = Some db → connected d = Some db.
Proof. unfold connected. by intros ->. Qed.

(** *** Sequences of operations *)

Inductive SettingOp := SetOp (key : DbEntryKey) (value : Z) | GetOp (key : DbEntryKey).

Definition setting_step (emu : bool) (d : Magiskd) (o : SettingOp) : Magiskd :=
  match o with SetOp key value => (set_setting key value d).1 | GetOp key => (get_setting emu key d).1.1 end.

Definition writes (key : DbEntryKey) (o : SettingOp) : bool :=
  match o with SetOp k _ => bool_decide (to_str k = to_str key) | GetOp _ => false end.

Lemma steps_keep emu key ops d db : sql_connection d = Some db → forallb (λ o, negb (writes key o)) ops = true →
  ∃ db', sql_connection (foldl (setting_step emu) d ops) = Some db' ∧ table db' !! to_str key = table db !! to_str key.
Proof.
  revert d db. induction ops as [|o ops IH]; intros d db Hd Ho; cbn [foldl]; [by exists db|].
  cbn [forallb] in Ho. apply andb_true_iff in Ho as [Ho Hops].
  assert (∃ db1, sql_connection (setting_step emu d o) = Some db1 ∧ table db1 !! to_str key = table db !! to_str key) as (db1 & Hc1 & E1).
  { destruct o as [k v|k]; cbn [setting_step writes] in *.
    - apply negb_true_iff, bool_decide_eq_false in Ho.
      destruct (set_cases k v d db (opened_connected d db Hd)) as (db1 & Hc1 & [Ht|[_ Ht]]); exists db1; (split; [done|]); rewrite Ht; [|done].
      by rewrite lookup_insert_ne.
    - destruct (get_cases emu k d db (opened_connected d db Hd)) as (db1 & Hc1 & Ht & _). exists db1. by rewrite Ht. }
  destruct (IH _ db1 Hc1 Hops) as (db2 & Hc2 & E2). exists db2. by rewrite E2.
Qed.

(** *** The interface the daemon's components use *)

Definition code_of (r : res unit Z) : Z := match r with Ok rc => rc | _ => -1 end.

#[export] Instance sqlite_settings : SettingsDb Conn := {
  db_rows db k :=
    let '(_, rows, r) := db_exec_with_rows SELECT_SETTING [Text k] (λ l _ values, l ++ [get_int values 0]) [] (mkMagiskd (Some db) []) in
    (rows, code_of r);
  db_insert db k v :=
    let '(d, r) := db_exec INSERT_SETTING [Text k; Integer v] (mkMagiskd (Some db) []) in
    (default db (sql_connection d), code_of r)
}.

(** Its promise is kept where queries do not fail. *)
Lemma sqlite_settings_ok : (∀ (db : Conn) k, (db_rows db k).2 = SQLITE_OK) → SettingsOk Conn.
Proof.
  intros Hread.
  assert (Hrows : ∀ (db : Conn) k, db_rows db k = (match table db !! k with Some z => [as_i32 z] | None => [] end, SQLITE_OK)).
  { intros db k. specialize (Hread db k). cbn [db_rows sqlite_settings] in *.
    pose proof (select_cases (λ l (_ : list bytes) values, l ++ [get_int values 0]) [] k (mkMagiskd (Some db) []) db eq_refl) as Hs.
    destruct (db_exec_with_rows _ _ _ _ _) as [[d' l] r]. destruct Hs as (db' & columns & rows & _ & _ & -> & Hr).
    cbn [snd] in Hread. rewrite Hread. f_equal. destruct Hr as [[-> Hn]|(row & -> & ->)]; [|done].
    rewrite Hn; [done|]. destruct r as [rc|?| |]; [by cbn in Hread; subst|done..]. }
  assert (Hins : ∀ (db : Conn) k v, - 2 ^ 63 ≤ v < 2 ^ 63 → let '(db', rc) := db_insert db k v in
    table db' = <[k := v]> (table db) ∨ rc ≠ SQLITE_OK ∧ table db' = table db).
  { intros db k v Hv. cbn [db_insert sqlite_settings].
    pose proof (insert_cases k v (mkMagiskd (Some db) []) db eq_refl Hv) as Hs.
    destruct (db_exec _ _ _) as [d' r]. destruct Hs as (db' & Hc & Ht). rewrite Hc. cbn [default].
    destruct Ht as [Ht|[Hr Ht]]; [by left|right]. split; [|done]. destruct r as [rc|?| |]; cbn; [congruence|done..]. }
  split.
  - intros db k v Hv Hrc. pose proof (as_i32_range v). pose proof (Hins db k v ltac:(lia)) as Hi.
    destruct (db_insert db k v) as [db' rc]. cbn [fst snd] in *. rewrite Hrows.
    destruct Hi as [->|[Hne _]]; [|done]. by rewrite lookup_insert_eq, Hv.
  - intros db k j v Hv Hne. pose proof (as_i32_range v). pose proof (Hins db k v ltac:(lia)) as Hi.
    destruct (db_insert db k v) as [db' rc]. cbn [fst snd] in *. rewrite !Hrows.
    destruct Hi as [->|[_ ->]]; [|done]. by rewrite lookup_insert_ne.
Qed.
End Settings.

(** C40: a setting that was written without an error is what is read from then on, as long as
    nothing is written under its key: after any other settings operations, whether they
    succeed or not, a read that goes well gives the value, and one that fails gives it or
    the default; and the other settings read as before.  The connection need not be open
    before: the statements, the bound arguments and the opening are the code's, and SQLite
    can be anything that gives the two statements their meaning when it does not fail. *)
Theorem setting_kept {Conn Stmt} `{SettingsEngine Conn Stmt} (d : Magiskd (Conn:=Conn)) emu key value ops :
  - 2 ^ 31 ≤ value < 2 ^ 31 → (set_setting key value d).2 = Ok tt →
  forallb (λ o, negb (writes key o)) ops = true →
  let d1 := (set_setting key value d).1 in
  let '(_, v, r) := get_setting emu key (foldl (setting_step emu) d1 ops) in
  (r = Ok tt → v = value) ∧ (v = value ∨ v = db_default emu key) ∧
  ∀ other, other ≠ key →
    let '(_, v0, r0) := get_setting emu other d in
    let '(_, v1, r1) := get_setting emu other d1 in
    r0 = Ok tt → r1 = Ok tt → v1 = v0.
Proof.
  intros Hv Hset Hops d1. destruct (connected d) as [db|] eqn:Hd; [|by rewrite set_unopened in Hset].
  destruct (set_cases key value d db Hd) as (db1 & Hd1 & [Ht|[Hne _]]); [|done]. fold d1 in Hd1.
  rewrite as_i32_small in Ht by done.
  destruct (steps_keep emu key ops d1 db1 Hd1 Hops) as (db2 & Hd2 & E2). rewrite Ht, lookup_insert_eq in E2.
  destruct (get_cases emu key _ db2 (opened_connected _ _ Hd2)) as (db3 & _ & _ & Hok & Hany).
  assert (Hst : stored emu key db2 = value) by (unfold stored; rewrite E2; by apply as_i32_small). rewrite Hst in *.
  destruct (get_setting emu key (foldl _ _ _)) as [[d3 v] r]. cbn [fst snd] in *. split; [done|]. split; [tauto|].
  intros other Hne. destruct (get_cases emu other d db Hd) as (_ & _ & _ & Hg0 & _).
  destruct (get_cases emu other d1 db1 (opened_connected _ _ Hd1)) as (_ & _ & _ & Hg1 & _).
  assert (Hother : stored emu other db1 = stored emu other db).
  { unfold stored. rewrite Ht, lookup_insert_ne; [done|]. intros E. apply Hne. by destruct other, key. }
  destruct (get_setting emu other d) as [[d4 v0] r0], (get_setting emu other d1) as [[d5 v1] r1]. cbn [fst snd] in *.
  intros Hr0 Hr1. by rewrite (Hg0 Hr0), (Hg1 Hr1).
Qed.

(** ** A small engine *)

(** Statements by what they do; the table is a map, and each execution fails with the code
    that is next, if it is not 0. *)
Inductive Toy :=
  | ToySelect | ToyInsert | ToySelected (k : bytes) | ToyKeyed (k : bytes) | ToyInserted (k : bytes) (v : Z) | ToyAll.
Record ToyDb := mkToy { toy_table : gmap bytes Z; toy_codes : list Z }.

Definition toy_row (v : Z) : DbValues := mkValues (λ _, fmt_dec v) (λ _, v).

#[local] Instance toy : Sqlite ToyDb Toy := {
  prepare _ sql :=
    if bool_decide (sql = SELECT_SETTING) then (0, Some ToySelect, [])
    else if bool_decide (sql = INSERT_SETTING) then (0, Some ToyInsert, [])
    else if bool_decide (sql = bs "SELECT * FROM settings") then (0, Some ToyAll, [])
    else (1, None, []);
  parameter_count st := match st with ToySelect => 1 | ToyInsert => 2 | _ => 0 end%nat;
  bind st i a :=
    match st, a with
    | ToySelect, Text k => (0, ToySelected k)
    | ToyInsert, Text k => (0, ToyKeyed k)
    | ToyKeyed k, Integer v => (0, ToyInserted k v)
    | st, _ => (25, st)
    end;
  execute db st :=
    let m := toy_table db in
    let db' m := mkToy m (tail (toy_codes db)) in
    let rc := default 0 (head (toy_codes db)) in
    if negb (rc =? 0) then (db' m, [], [], rc)
    else
      match st with
      | ToySelected k => (db' m, [bs "value"], match m !! k with Some v => [toy_row v] | None => [] end, 0)
      | ToyInserted k v => (db' (<[k := v]> m), [], [], 0)
      | ToyAll => (db' m, [bs "value"], map (λ e, toy_row e.2) (entries m), 0)
      | _ => (db' m, [], [], 21)
      end
}.

#[local, refine] Instance toy_engine : SettingsEngine ToyDb Toy := {
  table := toy_table;
  is_select s := s = ToySelect;
  is_insert s := s = ToyInsert;
  is_selected k s := s = ToySelected k;
  is_keyed k s := s = ToyKeyed k;
  is_inserted k v s := s = ToyInserted k v
}.
Proof.
  - intros db st rest [= <- <-]. by eexists.
  - intros db st rest [= <- <-]. by eexists.
  - by intros s ->.
  - by intros s ->.
  - by intros s k s' -> [= <-].
  - by intros s k s' -> [= <-].
  - by intros s k v s' -> [= <-].
  - intros db k s ->. cbn. destruct (Z.eqb_spec (default 0 (head (toy_codes db))) 0) as [->|Hrc]; cbn.
    + split; [done|]. destruct (toy_table db !! k) as [v|]; [right; by eexists|by left].
    + split; [done|]. by left.
  - intros db k v s -> _. cbn. destruct (Z.eqb_spec (default 0 (head (toy_codes db))) 0) as [->|Hrc]; cbn; [by left|by right].
Defined.

(** A database that has to be opened, and that is busy when another setting is written. *)
Definition busy_db : Magiskd (Conn := ToyDb) := mkMagiskd None [Some (mkToy {[bs "denylist" := 1]} [0; 5])].
Definition busy_ops : list SettingOp := [SetOp BootloopCount 2; GetOp DenylistConfig].

Lemma setting_kept_witness :
  let d1 := (set_setting ZygiskConfig 1 busy_db).1 in
  let '(_, v, r) := get_setting false ZygiskConfig (foldl (setting_step false) d1 busy_ops) in
  r = Ok tt ∧ (r = Ok tt → v = 1) ∧ (v = 1 ∨ v = 0) ∧
  ∀ other, other ≠ ZygiskConfig →
    let '(_, v0, r0) := get_setting false other busy_db in
    let '(_, v1, r1) := get_setting false other d1 in
    r0 = Ok tt → r1 = Ok tt → v1 = v0.
Proof.
  assert ((set_setting ZygiskConfig 1 busy_db).2 = Ok tt) as Hset by (vm_compute; reflexivity).
  assert (- 2 ^ 31 ≤ 1 < 2 ^ 31) as Hv by lia.
  pose proof (setting_kept busy_db false ZygiskConfig 1 busy_ops Hv Hset eq_refl) as H. cbv zeta in H |- *.
  assert ((get_setting false ZygiskConfig (foldl (setting_step false) (set_setting ZygiskConfig 1 busy_db).1 busy_ops)).2 = Ok tt)
    as Hr by (vm_compute; reflexivity).
  destruct (get_setting false ZygiskConfig (foldl _ _ _)) as [[d' v] r]. cbn [snd] in Hr. split; [exact Hr|exact H].
Defined.

(** The number of a row is cut to 32 bits. *)
Example wide_value_cut :
  (get_setting false ZygiskConfig (mkMagiskd (Some (mkToy {[bs "zygisk" := 2 ^ 32 + 7]} [])) [])).1.2 = 7.
Proof. vm_compute. reflexivity. Qed.

Lemma sqlite_shows_rows_witness :
  let d : Magiskd (Conn := ToyDb) := mkMagiskd (Some (mkToy {[bs "zygisk" := 1]} [])) [] in
  let sql := bs "SELECT * FROM settings" in
  ∃ d' stream, db_exec_for_cli (encode (mk_str sql)) d = (d', Ok stream) ∧
    MagiskCli.print_rows (λ _ _, true) (S (length stream)) stream [] = ([MagiskCli.Print (bs "value=1")], Ok 0).
Proof.
  intros d sql. assert (map MagiskCli.Print (rows_shown sql d) = [MagiskCli.Print (bs "value=1")]) as <- by (vm_compute; reflexivity).
  apply (sqlite_shows_rows (λ _ _, true) sql d []).
  - intros db sql' st rest Hp Hs. cbn [prepare toy] in Hp.
    repeat (case_bool_decide; [by injection Hp as <- <-; destruct sql'; [|cbn; lia]|]). done.
  - split; vm_compute; reflexivity.
  - assert (rows_shown sql d = [bs "value=1"]) as -> by (vm_compute; reflexivity).
    constructor; [|constructor]. split; [discriminate|]. split; vm_compute; reflexivity.
Defined.
