(* ===== verification/BootCli.v ===== *)
(** BootCli: the command line of magiskboot, [native/src/boot/cli.rs] and the positional
    parser of [native/src/base/misc.rs].

    Every struct of the command line is written down as the syntax the derive macro gets
    ([RawField]), goes through the macro's model ([Derive]) and comes out as a parser.
    The commands themselves are the fields of [Handlers]: each is modelled in a file of
    its own ([Sign], [Payload], [Patch], [Cpio], [Dtb], [Compress]) or is C++. *)

From S2P Require Import Prelude Text Format Argh Derive Words.

(** ** [PositionalArgParser]

    What is left of the arguments is passed along. *)

Definition missing_positional (name : bytes) : EarlyExit :=
  early (match err_on_any (mkMissing [] None [name]) with Err e => e | _ => [] end).

Definition required (name : bytes) (args : list bytes) : res EarlyExit (bytes * list bytes) :=
  match args with
  | next :: args => Ok (next, args)
  | [] => Err (missing_positional name)
  end.
Definition optional (args : list bytes) : option bytes * list bytes :=
  match args with next :: args => (Some next, args) | [] => (None, []) end.
Definition ensure_end (args : list bytes) : res EarlyExit unit :=
  match args with
  | [] => Ok tt
  | s :: _ => Err (early (bs "Unrecognized argument: " ++ s ++ [LF]))
  end.
Definition last_required (name : bytes) (args : list bytes) : res EarlyExit bytes :=
  '(r, args) ← required name args; _ ← ensure_end args; Ok r.
Definition last_optional (args : list bytes) : res EarlyExit (option bytes) :=
  let '(r, args) := optional args in
  match r with
  | None => Ok r
  | Some _ => _ ← ensure_end args; Ok r
  end.

(** ** The structs *)

Inductive DtbAction := DtbPrint (fstab : bool) | DtbPatch | DtbTest.

Inductive Action :=
  | Unpack (no_decompress dump_header : bool) (img : bytes)
  | Repack (no_compress : bool) (img : bytes) (out : option bytes)
  | Verify (img : bytes) (cert : option bytes)
  | Sign (img : bytes) (name cert key : option bytes)
  | Extract (payload : bytes) (partition outfile : option bytes)
  | HexPatch (file src dest : bytes)
  | Cpio (file : bytes) (cmds : list bytes)
  | Dtb (file : bytes) (action : DtbAction)
  | Split (no_decompress : bool) (file : bytes)
  | Sha1 (file : bytes)
  | Cleanup
  | Compress (format : FileFormat) (file : bytes) (out : option bytes)
  | Decompress (file : bytes) (out : option bytes).

Definition repack_fields := [switch "no_compress" "n"; pos "img"; pos_opt "out"].
Definition verify_fields := [pos "img"; pos_opt "cert"].
Definition sign_fields := [pos "img"; pos_opt "name"; pos_opt "cert"; pos_opt "key"].
Definition extract_fields := [pos "payload"; pos_opt "partition"; pos_opt "outfile"].
Definition hexpatch_fields := [pos "file"; pos "src"; pos "dest"].
Definition cpio_fields := [pos "file"; field "cmds" positional_meta (vec_of (path (bs "String")))].
Definition dtb_fields := [pos "file"; subcommand_field "action" "DtbAction"].
Definition split_fields := [switch "no_decompress" "n"; pos "file"].
Definition sha1_fields := [pos "file"].
Definition decompress_fields := [pos "file"; pos_opt "out"].
Definition print_fields := [switch "fstab" "f"].
Definition cli_fields := [subcommand_field "action" "Action"].

(** [DtbAction]. *)
Definition dtb_print_args := plain_parser "print" print_fields
  (λ vs, match vs with [FFlag (FBool f)] => Some (DtbPrint f) | _ => None end).
Definition dtb_patch_args := plain_parser "patch" [] (λ vs, match vs with [] => Some DtbPatch | _ => None end).
Definition dtb_test_args := plain_parser "test" [] (λ vs, match vs with [] => Some DtbTest | _ => None end).
Definition dtb_variants : list (bytes * (list bytes → list bytes → res EarlyExit DtbAction)) :=
  [(bs "print", dtb_print_args); (bs "patch", dtb_patch_args); (bs "test", dtb_test_args)].
Definition dtb_commands : list CommandInfo := [command "print"; command "patch"; command "test"].
Definition dtb_action_args (cmd args : list bytes) : res EarlyExit DtbAction :=
  '(_, a) ← from_args_enum dtb_variants None cmd args; Ok a.

(** The variants of [Action]. *)
Definition unpack_args := plain_parser "unpack" unpack_fields
  (λ vs, match vs with [FFlag (FBool n); FFlag (FBool h); FOne img] => Some (Unpack n h img) | _ => None end).
Definition repack_args := plain_parser "repack" repack_fields
  (λ vs, match vs with [FFlag (FBool n); FOne img; FOptional out] => Some (Repack n img out) | _ => None end).
Definition verify_args := plain_parser "verify" verify_fields
  (λ vs, match vs with [FOne img; FOptional cert] => Some (Verify img cert) | _ => None end).
Definition sign_args := plain_parser "sign" sign_fields
  (λ vs, match vs with [FOne img; FOptional name; FOptional cert; FOptional key] => Some (Sign img name cert key) | _ => None end).
Definition extract_args := plain_parser "extract" extract_fields
  (λ vs, match vs with [FOne p; FOptional part; FOptional out] => Some (Extract p part out) | _ => None end).
Definition hexpatch_args := plain_parser "hexpatch" hexpatch_fields
  (λ vs, match vs with [FOne f; FOne s; FOne d] => Some (HexPatch f s d) | _ => None end).
Definition cpio_args := plain_parser "cpio" cpio_fields
  (λ vs, match vs with [FOne f; FMany cmds] => Some (Cpio f cmds) | _ => None end).
Definition dtb_args := parser (sub_struct "dtb" dtb_fields) dtb_commands dtb_action_args
  (λ vs, match vs with [FOne f; FSub a] => Some (Dtb f a) | _ => None end).
Definition split_args := plain_parser "split" split_fields
  (λ vs, match vs with [FFlag (FBool n); FOne f] => Some (Split n f) | _ => None end).
Definition sha1_args := plain_parser "sha1" sha1_fields
  (λ vs, match vs with [FOne f] => Some (Sha1 f) | _ => None end).
Definition cleanup_args := plain_parser "cleanup" []
  (λ vs, match vs with [] => Some Cleanup | _ => None end).
Definition decompress_args := plain_parser "decompress" decompress_fields
  (λ vs, match vs with [FOne f; FOptional out] => Some (Decompress f out) | _ => None end).

(** [Compress::from_args], written by hand: the format is in the command name. *)
Definition compress_args (command_name args : list bytes) : res EarlyExit Action :=
  let cmd := default [] (last command_name) in
  let fmt := default (bs "gzip") (strip_prefix (bs "compress=") cmd) in
  match from_str fmt with
  | None => Err (early (bs "Unsupported or unknown compression format: " ++ fmt ++ [LF]))
  | Some format =>
      '(file, args) ← required (bs "infile") args;
      out ← last_optional args;
      Ok (Compress format file out)
  end.

Definition variants : list (bytes * (list bytes → list bytes → res EarlyExit Action)) :=
  [(bs "unpack", unpack_args); (bs "repack", repack_args); (bs "verify", verify_args); (bs "sign", sign_args);
   (bs "extract", extract_args); (bs "hexpatch", hexpatch_args); (bs "cpio", cpio_args); (bs "dtb", dtb_args);
   (bs "split", split_args); (bs "sha1", sha1_args); (bs "cleanup", cleanup_args); (bs "compress", compress_args);
   (bs "decompress", decompress_args)].
Definition commands : list CommandInfo := map (λ v, mkCommand v.1 []) variants.

Definition action_args (cmd args : list bytes) : res EarlyExit Action := '(_, a) ← from_args_enum variants None cmd args; Ok a.

(** [Cli::from_args]. *)
Definition cli_args : list bytes → list bytes → res EarlyExit Action :=
  parser (emitted_struct (ascii_derive [] (Struct (Named cli_fields)))) commands action_args
    (λ vs, match vs with [FSub a] => Some a | _ => None end).

(** ** [boot_main] *)

Inductive Usage := DtbUsage | CpioUsage | MainUsage (cmd : bytes).

(** How the program ends: by returning from [boot_main], or in [on_early_exit] with a
    message and a usage text. *)
Inductive Outcome := Returned (r : LoggedResult Z) | Exited (code : Z) (message : option bytes) (usage : Usage).

Record Handlers (S : Type) := mkHandlers {
  h_unpack : bytes → bool → bool → S → S * Z;
  h_repack : bytes → bytes → bool → S → S;
  h_verify : bytes → option bytes → S → S * bool;
  h_sign : bytes → option bytes → option bytes → option bytes → S → S * LoggedResult unit;
  h_extract : bytes → option bytes → option bytes → S → S * LoggedResult unit;
  h_hexpatch : bytes → bytes → bytes → S → S * bool;
  h_cpio : bytes → list bytes → S → S * LoggedResult unit;
  h_dtb : bytes → DtbAction → S → S * LoggedResult bool;
  h_split : bytes → bool → S → S * Z;
  h_sha1 : bytes → S → S * LoggedResult unit;
  h_cleanup : S → S;
  h_compress : FileFormat → bytes → option bytes → S → S * LoggedResult unit;
  h_decompress : bytes → option bytes → S → S * LoggedResult unit
}.
Arguments mkHandlers {S}.

Section Main.
Context {S : Type} (h : Handlers S).

Definition zero (x : S * LoggedResult unit) : S * LoggedResult Z := (x.1, _ ← x.2; Ok 0).

(** The command that was chosen. *)
Definition run_action (a : Action) (s : S) : S * LoggedResult Z :=
  match a with
  | Unpack n d img => let '(s, c) := h_unpack _ h img n d s in (s, Ok c)
  | Repack n img out => (h_repack _ h img (default (bs "new-boot.img") out) n s, Ok 0)
  | Verify img cert => let '(s, ok) := h_verify _ h img cert s in (s, if ok : bool then Ok 0 else Err tt)
  | Sign img name cert key => zero (h_sign _ h img name cert key s)
  | Extract p part out => zero (h_extract _ h p part out s)
  | HexPatch f a b => let '(s, ok) := h_hexpatch _ h f a b s in (s, if ok : bool then Ok 0 else Err tt)
  | Cpio f cmds => zero (h_cpio _ h f cmds s)
  | Dtb f a => let '(s, r) := h_dtb _ h f a s in (s, b ← r; Ok (if b : bool then 0 else 1))
  | Split n f => let '(s, c) := h_split _ h f n s in (s, Ok c)
  | Sha1 f => zero (h_sha1 _ h f s)
  | Cleanup => (h_cleanup _ h s, Ok 0)
  | Compress fmt f out => zero (h_compress _ h fmt f out s)
  | Decompress f out => zero (h_decompress _ h f out s)
  end.

Definition usage_of (cmd0 cmd1 : bytes) : Usage :=
  if bool_decide (cmd1 = bs "dtb") then DtbUsage
  else if bool_decide (cmd1 = bs "cpio") then CpioUsage
  else MainUsage cmd0.

Definition boot_main (cmds : list bytes) (s : S) : S * Outcome :=
  match cmds with
  | cmd0 :: cmd1 :: args =>
      let cmd1 := default cmd1 (strip_prefix (bs "--") cmd1) in
      let cli := if starts_with (bs "compress=") cmd1 then compress_args [cmd0; cmd1] args
                 else cli_args [cmd0] (cmd1 :: args) in
      match cli with
      | Ok a => let '(s, r) := run_action a s in (s, Returned r)
      | Err e =>
          (s, if is_help e then Exited 0 None (usage_of cmd0 cmd1)
              else Exited 1 (Some (output e)) (usage_of cmd0 cmd1))
      | Panic => (s, Returned Panic)
      | NoFuel => (s, Returned NoFuel)
      end
  | _ => (s, Returned (Err tt))
  end.

(** [boot_main(cmds).unwrap_or(1)]. *)
Definition main (cmds : list bytes) (s : S) : S * res unit Z :=
  match boot_main cmds s with
  | (s, Returned (Ok c)) => (s, Ok c)
  | (s, Returned (Err _)) => (s, Ok 1)
  | (s, Returned Panic) => (s, Panic)
  | (s, Returned NoFuel) => (s, NoFuel)
  | (s, Exited c _ _) => (s, Ok c)
  end.
End Main.

(** ** Every command can be given *)

Definition some_list (o : option bytes) : list bytes := option_list o.

Definition render_dtb (a : DtbAction) : list bytes :=
  match a with
  | DtbPrint f => bs "print" :: (if f then [bs "-f"] else [])
  | DtbPatch => [bs "patch"]
  | DtbTest => [bs "test"]
  end.

(** A command line for an action. *)
Definition render (a : Action) : list bytes :=
  match a with
  | Unpack n d img => bs "unpack" :: (if n then [bs "-n"] else []) ++ (if d then [bs "-h"] else []) ++ [bs "--"; img]
  | Repack n img out => bs "repack" :: (if n then [bs "-n"] else []) ++ bs "--" :: img :: some_list out
  | Verify img cert => bs "verify" :: bs "--" :: img :: some_list cert
  | Sign img name cert key => bs "sign" :: bs "--" :: img :: some_list name ++ some_list cert ++ some_list key
  | Extract p part out => bs "extract" :: bs "--" :: p :: some_list part ++ some_list out
  | HexPatch f s d => [bs "hexpatch"; bs "--"; f; s; d]
  | Cpio f cmds => bs "cpio" :: bs "--" :: f :: cmds
  | Dtb f a => bs "dtb" :: f :: render_dtb a
  | Split n f => bs "split" :: (if n then [bs "-n"] else []) ++ [bs "--"; f]
  | Sha1 f => [bs "sha1"; bs "--"; f]
  | Cleanup => [bs "cleanup"; bs "--"]
  | Compress fmt f out => (bs "compress=" ++ as_cstr fmt) :: f :: some_list out
  | Decompress f out => bs "decompress" :: bs "--" :: f :: some_list out
  end.

(** Optional arguments cannot be skipped, a file that is named like an action of [dtb]
    or like an option cannot be given to it, and a format must have a name. *)
Definition can_be_given (a : Action) : Prop :=
  match a with
  | Sign _ name cert key => (is_Some cert → is_Some name) ∧ (is_Some key → is_Some cert)
  | Extract _ part out => is_Some out → is_Some part
  | Dtb f _ => starts_with (bs "-") f = false ∧ f ∉ [bs "print"; bs "patch"; bs "test"]
  | Compress fmt _ _ => is_compressed fmt = true
  | _ => True
  end.

(** *** The main parser *)

Lemma cli_args_run cmd name rest i f :
  starts_with (bs "-") name = false → existsb (λ c, bool_decide (cmd_name_ c = name)) commands = true →
  find_variant name 0 variants = Some (i, f) → cli_args [cmd] (name :: rest) = f [cmd; name] rest.
Proof.
  intros Hn He Hf. unfold cli_args, parser, derived_parser.
  assert (∃ t g, emitted_struct (ascii_derive [] (Struct (Named cli_fields))) = (t, [g]) ∧ kind g = SubCommand ∧
    optionality g = Required ∧ is_subcommand t = None ∧ help_triggers_ t = None) as (t & g & -> & H1 & H2 & H3 & H4).
  { eexists _, _. split; [vm_compute; reflexivity|]. by cbn. }
  cbn [fst snd]. rewrite from_args_subcommand by done. unfold action_args.
  rewrite (from_args_enum_find variants [cmd] name rest i f Hf). cbn [app].
  by destruct (f [cmd; name] rest).
Qed.

(** A file, then an action of [dtb]. *)
Lemma dtb_args_run cmd file name rest i f :
  starts_with (bs "-") file = false → file ∉ [bs "print"; bs "patch"; bs "test"] →
  starts_with (bs "-") name = false → existsb (λ c, bool_decide (cmd_name_ c = name)) dtb_commands = true →
  find_variant name 0 dtb_variants = Some (i, f) →
  dtb_args [cmd; bs "dtb"] (file :: name :: rest) = (a ← f [cmd; bs "dtb"; name] rest; Ok (Dtb file a)).
Proof.
  intros Hd Hf Hn He Hv. unfold dtb_args, parser, derived_parser.
  assert (∃ t p g, sub_struct "dtb" dtb_fields = (t, [p; g]) ∧ kind p = Positional ∧ optionality p = Required ∧
    kind g = SubCommand ∧ optionality g = Required ∧ get_help_triggers t = [] ∧ greedy (attrs p) = false)
    as (t & p & g & -> & Hp & Hpo & Hg & Hgo & Ht & Hgr).
  { eexists _, _, _. split; [vm_compute; reflexivity|]. by cbn. }
  cbn [fst snd]. unfold Derive.from_args, parse_struct_args. rewrite Ht.
  set (spec := spec_of dtb_commands dtb_action_args [] [p; g]).
  assert (Hps : of_kind Positional [p; g] = [p]) by (unfold of_kind; cbn; rewrite Hp, Hg; done).
  assert (Hsc : of_kind SubCommand [p; g] = [g]) by (unfold of_kind; cbn; rewrite Hp, Hg; done).
  assert (Hsub : subcommands spec = Some dtb_commands) by (unfold spec, spec_of, Derive.subcommand_field; cbn [subcommands]; by rewrite Hsc).
  assert (Hrep : last_is_repeating spec = false) by (unfold spec, spec_of; cbn [last_is_repeating]; rewrite Hps; cbn; by rewrite Hpo).
  assert (Hfile : existsb (λ c, bool_decide (cmd_name_ c = file)) dtb_commands = false).
  { rewrite !not_elem_of_cons in Hf. destruct Hf as (H1 & H2 & H3 & _). cbn [existsb dtb_commands command cmd_name_].
    by rewrite !bool_decide_false by done. }
  unfold positional_table. rewrite Hps. cbn [map].
  remember (length (file :: name :: rest)) as k eqn:E. cbn [length] in E. destruct k as [|k]; [done|].
  cbn [parse_args slots positionals index help options_ended chosen].
  change (help_triggers spec) with (@nil bytes). rewrite !(bool_decide_false (_ ∈ [])) by apply not_elem_of_nil.
  rewrite Hd, Hn. cbn [andb].
  replace (parse_subcommand spec false [cmd; bs "dtb"] file (name :: rest)) with
    (Ok (E := EarlyExit) (None (A := list bytes * list bytes))) by (unfold parse_subcommand; by rewrite Hsub, Hfile).
  cbn [mbind res_bind].
  assert (Hpp : parse_positional spec [init_slot parse_text p] 0 file =
    Ok ([with_slot (init_slot parse_text p) (One (Some file))], 1%nat, false)).
  { unfold parse_positional, fill_slot, init_slot, parse_text. rewrite Hpo, Hrep.
    cbn [lookup list_lookup slot parse_func map_err mbind res_bind andb]. done. }
  rewrite Hpp. cbn [mbind res_bind orb]. unfold parse_subcommand. rewrite Hsub, He.
  change (sub_parse spec ([cmd; bs "dtb"] ++ [name]) rest) with (_ ← dtb_action_args ([cmd; bs "dtb"] ++ [name]) rest; Ok tt).
  assert (Hact : dtb_action_args ([cmd; bs "dtb"] ++ [name]) rest = f [cmd; bs "dtb"; name] rest).
  { unfold dtb_action_args. rewrite (from_args_enum_find dtb_variants [cmd; bs "dtb"] name rest i f Hv).
    cbn [app]. by destruct (f _ rest). }
  rewrite Hact. destruct (f [cmd; bs "dtb"; name] rest) as [a|e| |] eqn:Ea; [|done..].
  cbn [mbind res_bind chosen slots positionals]. rewrite ?Hact, ?Ea. cbn [mbind res_bind locals]. rewrite Hp, Hg.
  cbn [slot with_slot append_missing_requirements is_none]. rewrite !andb_false_r.
  cbn [err_on_any m_options m_subcommands m_positional_args map_err mbind res_bind unwrap_fields unwrap_field].
  by rewrite Hpo, Hgo.
Qed.

(** *** Each struct *)

(** The fields an action sets. *)
Ltac given :=
  lazymatch goal with
  | |- _ = Ok (Unpack ?n ?d ?i) => give 2%nat [flag n; flag d] [words [i]]
  | |- _ = Ok (Repack ?n ?i ?o) => give 1%nat [flag n] [words [i]; words (some_list o)]
  | |- _ = Ok (Verify ?i ?c) => give 0%nat (@nil (Given (V := bytes))) [words [i]; words (some_list c)]
  | |- _ = Ok (Sign ?i ?n ?c ?k) =>
      give 0%nat (@nil (Given (V := bytes))) [words [i]; words (some_list n); words (some_list c); words (some_list k)]
  | |- _ = Ok (Extract ?p ?n ?o) => give 0%nat (@nil (Given (V := bytes))) [words [p]; words (some_list n); words (some_list o)]
  | |- _ = Ok (HexPatch ?f ?a ?b) => give 0%nat (@nil (Given (V := bytes))) [words [f]; words [a]; words [b]]
  | |- _ = Ok (Split ?n ?f) => give 1%nat [flag n] [words [f]]
  | |- _ = Ok (Sha1 ?f) => give 0%nat (@nil (Given (V := bytes))) [words [f]]
  | |- _ = Ok Cleanup => give 0%nat (@nil (Given (V := bytes))) (@nil (Given (V := bytes)))
  | |- _ = Ok (Decompress ?f ?o) => give 0%nat (@nil (Given (V := bytes))) [words [f]; words (some_list o)]
  | |- _ = Ok (DtbPrint ?f) => give 1%nat [flag f] (@nil (Given (V := bytes)))
  end.

(** The commands of a file are any number of words. *)
Lemma cpio_given cmd f cmds : cpio_args cmd (bs "--" :: f :: cmds) = Ok (Cpio f cmds).
Proof.
  apply (plain_given 0 [] [words [f]; words cmds]); [give_shape|vm_compute; reflexivity|..].
  - change (drop 0 (sub_struct "cpio" cpio_fields).2) with (sub_struct "cpio" cpio_fields).2.
    destruct (sub_struct "cpio" cpio_fields).2 as [|p [|q []]] eqn:E; vm_compute in E; try discriminate E.
    unfold cmdline. cbn [zip zip_with take map flat_map app]. by rewrite !texts_words, app_nil_r.
  - replace (drop 0 (sub_struct "cpio" cpio_fields).2) with (sub_struct "cpio" cpio_fields).2 by done.
    assert (∃ p q, (sub_struct "cpio" cpio_fields).2 = [p; q] ∧ optionality p = Required ∧ optionality q = Repeating)
      as (p & q & -> & Hp & Hq) by (eexists _, _; split; [vm_compute; reflexivity|done]).
    cbn [take zip zip_with map app]. unfold value_of, words. cbn [fst snd].
    rewrite Hp, Hq. cbn [map]. do 2 f_equal. induction cmds as [|c cmds IH]; [done|]. cbn. by rewrite IH.
Qed.

(** The words behind the name of a command. *)
Lemma action_given cmd a : can_be_given a →
  match a with
  | Unpack _ _ _ => unpack_args cmd (drop 1 (render a)) = Ok a
  | Repack _ _ _ => repack_args cmd (drop 1 (render a)) = Ok a
  | Verify _ _ => verify_args cmd (drop 1 (render a)) = Ok a
  | Sign _ _ _ _ => sign_args cmd (drop 1 (render a)) = Ok a
  | Extract _ _ _ => extract_args cmd (drop 1 (render a)) = Ok a
  | HexPatch _ _ _ => hexpatch_args cmd (drop 1 (render a)) = Ok a
  | Cpio _ _ => cpio_args cmd (drop 1 (render a)) = Ok a
  | Split _ _ => split_args cmd (drop 1 (render a)) = Ok a
  | Sha1 _ => sha1_args cmd (drop 1 (render a)) = Ok a
  | Cleanup => cleanup_args cmd (drop 1 (render a)) = Ok a
  | Decompress _ _ => decompress_args cmd (drop 1 (render a)) = Ok a
  | _ => True
  end.
Proof.
  destruct a as [n d i|n i o|i c|i n c k|p n o|f x y|f cmds|f a|n f|f| |fmt f o|f o]; cbn [can_be_given];
    try done; intros Hg; cbn [render drop skipn].
  - destruct n, d; given.
  - destruct n, o; given.
  - destruct c; given.
  - destruct Hg as [H1 H2]. destruct n, c, k; try (by destruct (H1 ltac:(eauto))); try (by destruct (H2 ltac:(eauto))); given.
  - destruct n, o; try (by destruct (Hg ltac:(eauto))); given.
  - given.
  - apply cpio_given.
  - destruct n; given.
  - given.
  - destruct o; given.
Qed.

Lemma dtb_action_given cmd a :
  match a with
  | DtbPrint f => dtb_print_args cmd (if f then [bs "-f"] else []) = Ok a
  | DtbPatch => dtb_patch_args cmd [] = Ok a
  | DtbTest => dtb_test_args cmd [] = Ok a
  end.
Proof. destruct a as [[]| |]; vm_compute; reflexivity. Qed.

Lemma compress_given cmd fmt f out : is_compressed fmt = true →
  compress_args [cmd; bs "compress=" ++ as_cstr fmt] (f :: some_list out) = Ok (Compress fmt f out).
Proof. intros Hf. unfold compress_args. by destruct fmt, out; try discriminate Hf; vm_compute. Qed.

(** Every command of magiskboot can be given on its command line: for every action
    whose arguments it can take (optional ones without gaps, a file for [dtb] that is no
    action or option), the words [render] writes for it make [boot_main] run exactly
    that action, with these arguments, on the same state. *)
Theorem boot_main_dispatch {S} (h : Handlers S) prog a s : can_be_given a →
  boot_main h (prog :: render a) s = (let '(s, r) := run_action h a s in (s, Returned r)).
Proof.
  intros Hg.
  assert (Hcli : ∀ name rest i f, render a = name :: rest → strip_prefix (bs "--") name = None →
    starts_with (bs "compress=") name = false → starts_with (bs "-") name = false →
    existsb (λ c, bool_decide (cmd_name_ c = name)) commands = true →
    find_variant name 0 variants = Some (i, f) → f [prog; name] rest = Ok a →
    boot_main h (prog :: render a) s = (let '(s, r) := run_action h a s in (s, Returned r))).
  { intros name rest i f -> Hs Hc Hd He Hv Hf. cbn [boot_main]. rewrite Hs. cbn [default]. rewrite Hc.
    by rewrite (cli_args_run prog name rest i f), Hf. }
  pose proof (action_given [prog; hd [] (render a)] a Hg) as Ha.
  destruct a; cbn [render drop skipn hd] in Ha; try by (eapply Hcli; [reflexivity..|exact Ha]).
  - destruct Hg as [Hd Hf]. destruct action as [f| |]; cbn [render render_dtb] in *.
    + eapply Hcli; [reflexivity..|]. rewrite (dtb_args_run prog file (bs "print") _ 0 dtb_print_args) by done.
      by rewrite (dtb_action_given _ (DtbPrint f)).
    + eapply Hcli; [reflexivity..|]. rewrite (dtb_args_run prog file (bs "patch") _ 1 dtb_patch_args) by done.
      by rewrite (dtb_action_given _ DtbPatch).
    + eapply Hcli; [reflexivity..|]. rewrite (dtb_args_run prog file (bs "test") _ 2 dtb_test_args) by done.
      by rewrite (dtb_action_given _ DtbTest).
  - cbn [can_be_given] in Hg. cbn [render boot_main].
    assert (Hp : strip_prefix (bs "--") (bs "compress=" ++ as_cstr format) = None ∧
      starts_with (bs "compress=") (bs "compress=" ++ as_cstr format) = true) by (by destruct format).
    destruct Hp as [-> Hp]. cbn [default]. by rewrite Hp, compress_given.
Qed.

(** ** Examples *)

(** A handler that only writes down what was run. *)
Definition log_handlers : Handlers (list bytes) := {|
  h_unpack img n d s := (s ++ [bs "unpack"; img], 3);
  h_repack img out n s := s ++ [bs "repack"; img; out];
  h_verify img cert s := (s ++ [bs "verify"; img], true);
  h_sign img name cert key s := (s ++ [bs "sign"; img], Ok tt);
  h_extract p n o s := (s ++ [bs "extract"; p], Ok tt);
  h_hexpatch f a b s := (s ++ [bs "hexpatch"; f], false);
  h_cpio f cmds s := (s ++ bs "cpio" :: f :: cmds, Ok tt);
  h_dtb f a s := (s ++ [bs "dtb"; f], Ok false);
  h_split f n s := (s ++ [bs "split"; f], 0);
  h_sha1 f s := (s ++ [bs "sha1"; f], Ok tt);
  h_cleanup s := s ++ [bs "cleanup"];
  h_compress fmt f o s := (s ++ [bs "compress"; f], Ok tt);
  h_decompress f o s := (s ++ [bs "decompress"; f], Ok tt)
|}.

Lemma boot_main_dispatch_witness :
  main log_handlers [bs "magiskboot"; bs "sign"; bs "--"; bs "boot.img"; bs "/boot"] [] = ([bs "sign"; bs "boot.img"], Ok 0).
Proof.
  unfold main. etransitivity; [|reflexivity].
  pose proof (boot_main_dispatch log_handlers (bs "magiskboot") (Sign (bs "boot.img") (Some (bs "/boot")) None None) []) as H.
  change (bs "magiskboot" :: render _) with [bs "magiskboot"; bs "sign"; bs "--"; bs "boot.img"; bs "/boot"] in H.
  rewrite H; [reflexivity|]. split; intros [? ?]; discriminate.
Defined.

(** A [dtb] file named like an action is taken for the action. *)
Example dtb_file_test : cli_args [bs "magiskboot"] [bs "dtb"; bs "test"; bs "print"] =
  Err (early (bs "Unrecognized argument: print" ++ [LF])).
Proof. vm_compute. reflexivity. Qed.

(** Help prints the usage and succeeds; an unknown command fails with it. *)
Example help_exits : boot_main log_handlers [bs "magiskboot"; bs "-h"] [] = ([], Exited 0 None (MainUsage (bs "magiskboot"))).
Proof. vm_compute. reflexivity. Qed.
Example unknown_exits : snd (main log_handlers [bs "magiskboot"; bs "fly"] []) = Ok 1.
Proof. vm_compute. reflexivity. Qed.
