(* ===== verification/AtomicArc.v ===== *)
(** AtomicArc: the shared pointer that can be swapped, [native/src/base/misc.rs].

    Memory is the reference counts of the values that are alive, by address; [held] are the
    [Arc]s the threads own and [loading] the raw pointers that a [load] has read and not yet
    turned into one.  The threads' steps are interleaved in any order; every step is atomic. *)

From S2P Require Import Prelude.

Record State := mkState {
  ptr : Z; strong : gmap Z nat; held : list Z; loading : list Z; use_after_free : bool }.

(** [load] reads the pointer and then clones what it points to; [store] swaps and then
    releases what it got; [Dispose] is [drop]. *)
Inductive Step := Make (a : Z) | LoadRead | LoadClone (raw : Z) | Swap (a : Z) | Release (a : Z) | Dispose.

Fixpoint remove_one (a : Z) (l : list Z) : list Z :=
  match l with
  | [] => []
  | b :: l => if a =? b then l else b :: remove_one a l
  end.

Definition has (a : Z) (l : list Z) : bool := bool_decide (a ∈ l).

(** One reference less: the last one frees the value. *)
Definition decrement (a : Z) (m : gmap Z nat) : gmap Z nat :=
  match m !! a with Some (S (S n)) => <[a := S n]> m | _ => delete a m end.

(** [AtomicArc::new] of an [Arc] nobody else has. *)
Definition new (a : Z) : State := mkState a {[a := 1%nat]} [] [] false.

Definition load_read (s : State) : State :=
  mkState (ptr s) (strong s) (held s) (ptr s :: loading s) (use_after_free s).

Definition load_clone (raw : Z) (s : State) : State :=
  let loading := remove_one raw (loading s) in
  match strong s !! raw with
  | Some n => mkState (ptr s) (<[raw := S n]> (strong s)) (raw :: held s) loading (use_after_free s)
  | None => mkState (ptr s) (strong s) (held s) loading true
  end.

Definition swap_ptr (raw : Z) (s : State) : State :=
  mkState raw (strong s) (ptr s :: held s) (loading s) (use_after_free s).
Definition swap (a : Z) (s : State) : State :=
  swap_ptr a (mkState (ptr s) (strong s) (remove_one a (held s)) (loading s) (use_after_free s)).
Definition release (a : Z) (s : State) : State :=
  mkState (ptr s) (decrement a (strong s)) (remove_one a (held s)) (loading s) (use_after_free s).

(** A step of some thread, if it can be taken: a thread swaps in and releases what it owns,
    and nobody uses the cell any more when it is dropped. *)
Definition step (s : State) (t : Step) : option State :=
  match t with
  | Make a =>
      if (a =? 0) || bool_decide (is_Some (strong s !! a)) then None
      else Some (mkState (ptr s) (<[a := 1%nat]> (strong s)) (a :: held s) (loading s) (use_after_free s))
  | LoadRead => if ptr s =? 0 then None else Some (load_read s)
  | LoadClone raw => if has raw (loading s) then Some (load_clone raw s) else None
  | Swap a => if has a (held s) && negb (ptr s =? 0) then Some (swap a s) else None
  | Release a => if has a (held s) then Some (release a s) else None
  | Dispose =>
      if (ptr s =? 0) || negb (bool_decide (loading s = [])) then None
      else Some (release (ptr s) (swap_ptr 0 s))
  end.

Fixpoint run (s : State) (l : list Step) : option State :=
  match l with
  | [] => Some s
  | t :: l => s ← step s t; run s l
  end.

(** [store] and a [load] that nothing comes between. *)
Definition store (old a : Z) : list Step := [Swap a; Release old].
Definition load (raw : Z) : list Step := [LoadRead; LoadClone raw].

(** ** Counts *)

Definition count (a : Z) (l : list Z) : nat := length (List.filter (Z.eqb a) l).

(** The references to [a] there are: those the threads own and the cell's. *)
Definition refs (s : State) (a : Z) : nat := (count a (held s) + if Z.eqb (ptr s) a then 1 else 0)%nat.
Definition counted (n : nat) : option nat := match n with O => None | S n => Some (S n) end.

(** What is alive is what is referred to, with the number of its references. *)
Definition exact (s : State) : Prop := 0 ∉ held s ∧ 0 ∉ loading s ∧ ∀ a, a ≠ 0 → strong s !! a = counted (refs s a).

Lemma count_cons a b l : count a (b :: l) = ((if Z.eqb a b then 1 else 0) + count a l)%nat.
Proof. unfold count. cbn. by destruct (a =? b). Qed.

Lemma count_elem a l : a ∈ l ↔ (0 < count a l)%nat.
Proof.
  induction l as [|b l IH]; [split; [by intros ?%not_elem_of_nil|cbn; lia]|].
  rewrite elem_of_cons, count_cons, IH. destruct (Z.eqb_spec a b); naive_solver lia.
Qed.

Lemma count_remove a b l : b ∈ l → count a (remove_one b l) = (count a l - if Z.eqb a b then 1 else 0)%nat.
Proof.
  induction l as [|c l IH]; [by intros ?%not_elem_of_nil|]. intros Hb. cbn [remove_one]. rewrite count_cons.
  destruct (Z.eqb_spec b c) as [->|Hne].
  - destruct (a =? c); lia.
  - apply elem_of_cons in Hb as [?|Hb]; [done|]. rewrite count_cons, IH by done. apply count_elem in Hb.
    destruct (Z.eqb_spec a b), (Z.eqb_spec a c); subst; lia.
Qed.

Lemma remove_elem a b l : a ∈ remove_one b l → a ∈ l.
Proof.
  induction l as [|c l IH]; cbn; [done|]. destruct (b =? c); rewrite !elem_of_cons; naive_solver.
Qed.

Lemma decrement_lookup a b m n : m !! a = Some n →
  decrement a m !! b = if b =? a then counted (n - 1) else m !! b.
Proof.
  intros Hn. unfold decrement. rewrite Hn. destruct (Z.eqb_spec b a) as [->|Hne].
  - destruct n as [|[|n]]; [by rewrite lookup_delete_eq..|]. by rewrite lookup_insert_eq.
  - destruct n as [|[|n]]; [by rewrite lookup_delete_ne..|]. by rewrite lookup_insert_ne.
Qed.

Lemma counted_some n : counted n = None ∨ counted n = Some n.
Proof. destruct n; auto. Qed.

Lemma release_exact a s : exact s → a ∈ held s → exact (release a s).
Proof.
  intros (H0 & Hl & H) Ha. split; [intros Hin; by apply H0, (remove_elem _ a)|]. split; [done|].
  intros b Hb. unfold release, refs. cbn [strong held ptr].
  assert (Ha0 : a ≠ 0) by (by intros ->). pose proof (H a Ha0) as Hs. pose proof (proj1 (count_elem _ _) Ha) as Hc.
  unfold refs in Hs. destruct (count a (held s)) as [|k] eqn:Ek; [lia|]. cbn [Nat.add counted] in Hs.
  rewrite (decrement_lookup _ _ _ _ Hs), count_remove by done. destruct (Z.eqb_spec b a) as [->|Hne].
  - rewrite Ek. f_equal. lia.
  - rewrite H by done. unfold refs. f_equal. lia.
Qed.

(** The cell takes another pointer: what a thread gives up the cell holds, and the other way round. *)
Lemma swap_exact raw s : exact s → ptr s ≠ 0 → raw = 0 ∨ raw ∈ held s →
  exact (swap_ptr raw (mkState (ptr s) (strong s) (if raw =? 0 then held s else remove_one raw (held s)) (loading s) (use_after_free s))).
Proof.
  intros (H0 & Hl & H) Hp Hr. unfold swap_ptr. cbn [ptr strong held loading use_after_free]. split; [|split; [done|]].
  - cbn. rewrite elem_of_cons. intros [?|Hin]; [done|]. destruct (raw =? 0); [done|]. by apply remove_elem in Hin.
  - intros b Hb. cbn [strong]. rewrite H by done. unfold refs. cbn [ptr held]. rewrite count_cons. f_equal.
    destruct (Z.eqb_spec raw 0) as [->|Hraw].
    + destruct (Z.eqb_spec 0 b); [by subst|]. rewrite (Z.eqb_sym b). lia.
    + destruct Hr as [?|Hr]; [done|]. rewrite count_remove by done. apply count_elem in Hr.
      rewrite (Z.eqb_sym (ptr s)), (Z.eqb_sym raw). destruct (Z.eqb_spec b raw) as [->|]; lia.
Qed.

Lemma step_exact s t s' : exact s → step s t = Some s' → use_after_free s' = false → exact s'.
Proof.
  intros He. pose proof He as (H0 & Hl & H). destruct t as [a| |raw|a|a|]; cbn [step].
  - destruct (Z.eqb_spec a 0); [done|]. cbn [orb]. case_bool_decide as Hs; [done|]. intros [= <-] _.
    split; [cbn; rewrite elem_of_cons; naive_solver|]. split; [done|]. intros b Hb. unfold refs. cbn [held ptr strong].
    rewrite count_cons. destruct (Z.eqb_spec b a) as [->|Hne].
    + rewrite lookup_insert_eq. apply eq_None_not_Some in Hs. rewrite H in Hs by done. unfold refs in Hs.
      destruct (count a (held s) + _)%nat eqn:E in Hs; [|done]. by rewrite <- Nat.add_assoc, E.
    + rewrite lookup_insert_ne by done. by rewrite H.
  - destruct (Z.eqb_spec (ptr s) 0); [done|]. intros [= <-] _. split; [done|]. split; [|done].
    cbn. rewrite elem_of_cons. naive_solver.
  - unfold has. case_bool_decide as Er; [|done]. intros [= <-]. unfold load_clone.
    destruct (strong s !! raw) as [n|] eqn:En; [|done]. intros _. split_and!; cbn [held loading strong].
    + rewrite elem_of_cons. intros [<-|]; done.
    + intros Hin. by apply remove_elem in Hin.
    + intros b Hb. unfold refs. cbn [held ptr]. rewrite count_cons. destruct (Z.eqb_spec b raw) as [->|Hne].
      * rewrite lookup_insert_eq. rewrite H in En by done. unfold refs in En.
        destruct (count raw (held s) + _)%nat eqn:E in En; [done|]. injection En as <-.
        by rewrite <- Nat.add_assoc, E.
      * rewrite lookup_insert_ne by done. by rewrite H.
  - unfold has. case_bool_decide as Ea; [|done]. destruct (Z.eqb_spec (ptr s) 0); [done|]. intros [= <-] _.
    pose proof (swap_exact a s He ltac:(done) (or_intror Ea)) as Hs. destruct (Z.eqb_spec a 0); [by subst|]. exact Hs.
  - unfold has. case_bool_decide; [|done]. intros [= <-] _. by apply release_exact.
  - destruct (Z.eqb_spec (ptr s) 0); [done|]. case_bool_decide; [|done]. intros [= <-] _.
    pose proof (swap_exact 0 s He ltac:(done) (or_introl eq_refl)) as Hs.
    apply release_exact; [|cbn; by left]. by destruct s.
Qed.

Lemma uaf_stays l s s' : run s l = Some s' → use_after_free s = true → use_after_free s' = true.
Proof.
  revert s. induction l as [|t l IH]; intros s; cbn [run]; [by intros [= ->]|].
  destruct (step s t) as [s1|] eqn:E; [|done]. cbn. intros Hr Hu. apply (IH s1); [done|].
  destruct t; cbn [step] in E; unfold load_clone in E; repeat case_match; simplify_eq; done.
Qed.

Lemma new_exact a : a ≠ 0 → exact (new a).
Proof.
  intros Ha. split; [apply not_elem_of_nil|]. split; [apply not_elem_of_nil|]. intros b Hb. unfold new, refs. cbn.
  destruct (Z.eqb_spec a b) as [->|]; [by rewrite lookup_singleton_eq|by rewrite lookup_singleton_ne].
Qed.

(** In every interleaving, as long as no freed value was used, the counts are exactly the
    references there are: nothing is freed that is still referred to, and what nobody refers
    to is freed. *)
Theorem counts_exact a l s : a ≠ 0 → run (new a) l = Some s → use_after_free s = false → exact s.
Proof.
  intros Ha. pose proof (new_exact a Ha) as Hn.
  revert Hn. generalize (new a). induction l as [|t l IH]; intros s0 Hs0; cbn [run]; [congruence|].
  destruct (step s0 t) as [s1|] eqn:E; [|done]. cbn. intros Hr Hu. apply (IH s1); [|done..].
  apply (step_exact s0 t s1 Hs0 E). destruct (use_after_free s1) eqn:Eu; [|done].
  by rewrite (uaf_stays l s1 s Hr Eu) in Hu.
Qed.

(** A load that nothing comes between finds its value alive. *)
Lemma load_whole s s' : exact s → run s (load (ptr s)) = Some s' → exact s' ∧ use_after_free s' = use_after_free s.
Proof.
  intros He. cbn [run load step]. destruct (Z.eqb_spec (ptr s) 0) as [|Hp]; [done|]. cbn [mbind option_bind].
  assert (has (ptr s) (loading (load_read s)) = true) as -> by (apply bool_decide_true; by left).
  intros [= <-]. pose proof He as (_ & _ & H). specialize (H _ Hp). unfold refs in H. rewrite Z.eqb_refl in H.
  destruct (count (ptr s) (held s) + 1)%nat as [|n] eqn:Ec; [lia|]. cbn [counted] in H.
  assert (Hu : use_after_free (load_clone (ptr s) (load_read s)) = use_after_free s).
  { unfold load_clone. cbn [strong load_read]. by rewrite H. }
  split; [|done]. destruct He as (H0 & Hl & Hc). unfold load_clone. cbn [strong load_read]. rewrite H.
  split_and!; cbn [held loading strong load_read].
  - by rewrite elem_of_cons; intros [?|].
  - cbn [remove_one]. by rewrite Z.eqb_refl.
  - intros b Hb. unfold refs. cbn [held ptr]. rewrite count_cons. destruct (Z.eqb_spec b (ptr s)) as [->|Hne].
    + rewrite lookup_insert_eq, Z.eqb_refl, <- Nat.add_assoc, Ec. done.
    + rewrite lookup_insert_ne by done. by rewrite Hc.
Qed.

(** Only a load uses a value by its raw pointer. *)
Lemma step_uaf s t s' : step s t = Some s' → (∀ raw, t ≠ LoadClone raw) → use_after_free s' = use_after_free s.
Proof. intros E Ht. destruct t; cbn [step] in E; repeat case_match; simplify_eq; try done. by destruct (Ht raw). Qed.

(** What threads do when nothing comes between the two halves of a load. *)
Inductive Whole := WMake (a : Z) | WLoad | WSwap (a : Z) | WRelease (a : Z).
Definition whole_step (s : State) (w : Whole) : option State :=
  match w with
  | WMake a => step s (Make a)
  | WLoad => run s (load (ptr s))
  | WSwap a => step s (Swap a)
  | WRelease a => step s (Release a)
  end.
Fixpoint run_whole (s : State) (l : list Whole) : option State :=
  match l with
  | [] => Some s
  | w :: l => s ← whole_step s w; run_whole s l
  end.

(** Loads that are not interrupted never use a freed value. *)
Theorem whole_loads_safe a l s : a ≠ 0 → run_whole (new a) l = Some s → use_after_free s = false ∧ exact s.
Proof.
  intros Ha. pose proof (new_exact a Ha) as Hn. assert (Hu : use_after_free (new a) = false) by done.
  revert Hn Hu. generalize (new a). induction l as [|w l IH]; intros s0 Hs0 Hu; cbn [run_whole]; [by intros [= <-]|].
  destruct (whole_step s0 w) as [s1|] eqn:E; [|done]. cbn. assert (exact s1 ∧ use_after_free s1 = false) as [H1 H2]; [|by apply IH].
  assert (Hstep : ∀ t, step s0 t = Some s1 → (∀ raw, t ≠ LoadClone raw) → exact s1 ∧ use_after_free s1 = false).
  { intros t Et Ht. assert (use_after_free s1 = false) by (by rewrite (step_uaf _ _ _ Et Ht)).
    split; [by apply (step_exact _ _ _ Hs0 Et)|done]. }
  destruct w; [by apply (Hstep _ E)| |by apply (Hstep _ E)..]. apply load_whole in E as [? ->]; done.
Qed.

(** A [store] between the two halves of a [load] frees the value the [load] then clones. *)
Lemma load_races_store :
  use_after_free <$> run (new 1) ([Make 2; LoadRead] ++ store 1 2 ++ [LoadClone 1]) = Some true.
Proof. vm_compute. reflexivity. Qed.

Lemma counts_exact_witness : exact (default (new 1) (run (new 1) ([Make 2] ++ load 1 ++ store 1 2))).
Proof.
  apply (counts_exact 1 ([Make 2] ++ load 1 ++ store 1 2)); [discriminate|vm_compute; reflexivity|vm_compute; reflexivity].
Defined.
