(* ===== verification/Tools.v ===== *)
(** Tools: the programs of the build, [tools/elf-cleaner] and [tools/rustup-wrapper].

    Reading and writing ELF files is a library's ([read_elf], [write_elf]); a file is the
    bytes at its path, and a command line is run by [status]. *)

From S2P Require Import Prelude.

(** ** The ELF cleaner *)

Module ElfCleaner.

(** An entry of a dynamic section: a number, or something the tool does not look into. *)
Inductive Dynamic := Integer (tag val : Z) | Opaque (tag : Z) (data : bytes).
Definition tag_of (d : Dynamic) : Z := match d with Integer t _ | Opaque t _ => t end.

Inductive SectionData := DynamicData (entries : list Dynamic) | OtherData (data : bytes).
Record Elf := mkElf { e_machine : Z; sections : list SectionData }.

Definition EM_AARCH64 : Z := 183.
Definition DT_RPATH : Z := 15.
Definition DT_RUNPATH : Z := 29.
Definition DT_FLAGS_1 : Z := 0x6ffffffb.
Definition DT_LOPROC : Z := 0x70000000.
Definition DT_AARCH64_BTI_PLT : Z := DT_LOPROC + 1.
Definition DT_AARCH64_PAC_PLT : Z := DT_LOPROC + 3.
Definition DT_AARCH64_VARIANT_PCS : Z := DT_LOPROC + 5.
Definition SUPPORTED_DT_FLAGS : Z := Z.lor 1 2.

Definition retained (is_aarch64 : bool) (d : Dynamic) : bool :=
  let tag := tag_of d in
  if (tag =? DT_RPATH) || (tag =? DT_RUNPATH) then false
  else if is_aarch64 then
    negb ((tag =? DT_AARCH64_BTI_PLT) || (tag =? DT_AARCH64_PAC_PLT) || (tag =? DT_AARCH64_VARIANT_PCS))
  else true.

(** Only the first entry of flags is looked at. *)
Fixpoint clear_flags (entries : list Dynamic) : list Dynamic :=
  match entries with
  | [] => []
  | Integer t v :: entries =>
      if t =? DT_FLAGS_1 then Integer t (Z.land v SUPPORTED_DT_FLAGS) :: entries
      else Integer t v :: clear_flags entries
  | d :: entries => d :: clear_flags entries
  end.

Definition clean_section (is_aarch64 : bool) (s : SectionData) : SectionData :=
  match s with
  | DynamicData entries => DynamicData (clear_flags (List.filter (retained is_aarch64) entries))
  | s => s
  end.

Definition clean (e : Elf) : Elf := mkElf (e_machine e) (map (clean_section (e_machine e =? EM_AARCH64)) (sections e)).

Section Files.
Context (read_elf : bytes → option Elf) (write_elf : Elf → option bytes).
Abbreviation FileMap := (gmap bytes bytes).

Definition process_elf (path : bytes) (fs : FileMap) : option FileMap :=
  b ← fs !! path;
  e ← read_elf b;
  out ← write_elf (clean e);
  Some (<[path := out]> fs).

(** [try_for_each]: the files before one that fails stay rewritten. *)
Fixpoint main (args : list bytes) (fs : FileMap) : FileMap * bool :=
  match args with
  | [] => (fs, true)
  | p :: args => match process_elf p fs with Some fs => main args fs | None => (fs, false) end
  end.
End Files.

(** ** What is left *)

Lemma clear_tags l : map tag_of (clear_flags l) = map tag_of l.
Proof. induction l as [|[t v|t d] l IH]; cbn; [done| |by rewrite IH]. destruct (t =? DT_FLAGS_1); cbn; by rewrite ?IH. Qed.

Lemma retained_tag arm d d' : tag_of d = tag_of d' → retained arm d = retained arm d'.
Proof. unfold retained. by intros ->. Qed.

Lemma filter_clear arm l : List.filter (retained arm) (clear_flags l) = clear_flags (List.filter (retained arm) l).
Proof.
  induction l as [|[t v|t d] l IH]; cbn [clear_flags List.filter]; [done| |].
  - destruct (t =? DT_FLAGS_1) eqn:E.
    + cbn [List.filter]. rewrite (retained_tag arm (Integer t (Z.land v SUPPORTED_DT_FLAGS)) (Integer t v)) by done.
      assert (retained arm (Integer t v) = true) as ->.
      { apply Z.eqb_eq in E as ->. by destruct arm. }
      cbn [clear_flags]. by rewrite E.
    + cbn [List.filter]. rewrite IH. destruct (retained arm _); [|done]. cbn [clear_flags]. by rewrite E.
  - rewrite IH. by destruct (retained arm _).
Qed.

Lemma clear_twice l : clear_flags (clear_flags l) = clear_flags l.
Proof.
  induction l as [|[t v|t d] l IH]; cbn [clear_flags]; [done| |by rewrite IH].
  destruct (t =? DT_FLAGS_1) eqn:E; cbn [clear_flags]; rewrite E; [|by rewrite IH].
  by rewrite <- Z.land_assoc, Z.land_diag.
Qed.

Lemma filter_twice {A} (f : A → bool) l : List.filter f (List.filter f l) = List.filter f l.
Proof. induction l as [|x l IH]; cbn; [done|]. destruct (f x) eqn:E; cbn; by rewrite ?E, IH. Qed.

Lemma clean_twice e : clean (clean e) = clean e.
Proof.
  unfold clean. cbn [e_machine sections]. f_equal. rewrite map_map. apply map_ext. intros [l|d]; [|done].
  cbn [clean_section]. by rewrite filter_clear, clear_twice, filter_twice.
Qed.

(** In what is left no unsupported entry remains, the others are in their order, and only
    the flags of the first entry of flags differ. *)
Lemma section_cleaned arm l : let l' := clear_flags (List.filter (retained arm) l) in
  map tag_of l' = map tag_of (List.filter (retained arm) l) ∧
  Forall (λ d, tag_of d ≠ DT_RPATH ∧ tag_of d ≠ DT_RUNPATH) l'.
Proof.
  cbn. split; [apply clear_tags|]. rewrite <- filter_clear. apply Forall_forall. intros d Hd.
  apply list_elem_of_In, filter_In in Hd as [_ Hr]. unfold retained in Hr.
  destruct (Z.eqb_spec (tag_of d) DT_RPATH), (Z.eqb_spec (tag_of d) DT_RUNPATH); done.
Qed.

(** A program that ran over all its files leaves files that it does not change again. *)
Theorem elf_cleaner_idempotent read_elf write_elf args fs fs' :
  (∀ e b, write_elf e = Some b → read_elf b = Some e) →
  main read_elf write_elf args fs = (fs', true) →
  (∀ p, p ∈ args → ∃ e b, fs' !! p = Some b ∧ read_elf b = Some (clean e)) ∧
  main read_elf write_elf args fs' = (fs', true).
Proof.
  intros Hrw.
  (* a file once clean stays as it is *)
  assert (Hclean : ∀ args fs fs', main read_elf write_elf args fs = (fs', true) → ∀ p e b,
    fs !! p = Some b → read_elf b = Some (clean e) → write_elf (clean e) = Some b → fs' !! p = Some b).
  { clear args fs fs'. intros args. induction args as [|q args IH]; intros fs fs' Hm p e b Hp He Hw; cbn in Hm; [congruence|].
    destruct (process_elf read_elf write_elf q fs) as [fs1|] eqn:Eq; [|done]. unfold process_elf in Eq.
    destruct (fs !! q) as [bq|] eqn:Efq; [|done]. cbn in Eq. destruct (read_elf bq) as [eq|] eqn:Er; [|done]. cbn in Eq.
    destruct (write_elf (clean eq)) as [out|] eqn:Ew; [|done]. injection Eq as <-.
    apply (IH _ _ Hm p e b); [|done..]. destruct (decide (p = q)) as [->|Hne].
    - assert (bq = b) as -> by congruence. rewrite He in Er. injection Er as <-. rewrite clean_twice, Hw in Ew.
      injection Ew as <-. by rewrite lookup_insert_eq.
    - by rewrite lookup_insert_ne by done. }
  assert (Hdone : ∀ args fs fs', main read_elf write_elf args fs = (fs', true) → ∀ p, p ∈ args →
    ∃ e b, fs' !! p = Some b ∧ read_elf b = Some (clean e) ∧ write_elf (clean e) = Some b).
  { clear args fs fs'. intros args. induction args as [|q args IH]; intros fs fs' Hm p Hin; [by apply not_elem_of_nil in Hin|].
    cbn in Hm. destruct (process_elf read_elf write_elf q fs) as [fs1|] eqn:Eq; [|done].
    apply elem_of_cons in Hin as [->|Hin]; [|by apply (IH _ _ Hm)]. unfold process_elf in Eq.
    destruct (fs !! q) as [bq|]; [|done]. cbn in Eq. destruct (read_elf bq) as [eq|]; [|done]. cbn in Eq.
    destruct (write_elf (clean eq)) as [out|] eqn:Ew; [|done]. injection Eq as <-.
    exists eq, out. split; [|split; [by apply Hrw|done]].
    apply (Hclean _ _ _ Hm q eq); [by rewrite lookup_insert_eq|by apply Hrw|done]. }
  intros Hm. split.
  - intros p Hp. destruct (Hdone _ _ _ Hm p Hp) as (e & b & H1 & H2 & _). by exists e, b.
  - pose proof (Hdone _ _ _ Hm) as H. clear Hdone Hclean Hm. induction args as [|p args IH]; cbn; [done|].
    destruct (H p) as (e & b & H1 & H2 & H3); [by left|].
    assert (process_elf read_elf write_elf p fs' = Some fs') as ->.
    { unfold process_elf. rewrite H1. cbn. rewrite H2. cbn. rewrite clean_twice, H3. cbn. by rewrite insert_id. }
    apply IH. intros q Hq. apply H. by right.
Qed.
End ElfCleaner.

(** ** The wrapper of rustup *)

Module RustupWrapper.
Section Wrapper.
(** The exit status of a command: the program and its arguments. *)
Context (status : bytes → list bytes → option bool).

(** What is run, in order; the last is what the caller waits for. *)
Definition wrapper (exe real_exe : bytes) (argv : list bytes) : list (bytes * list bytes) * bool :=
  if starts_with (bs "rustup") exe && bool_decide (bs "component" ∈ argv) then
    match status real_exe argv with
    | None => ([(real_exe, argv)], false)
    | Some true => ([(real_exe, argv); (real_exe, argv)], match status real_exe argv with Some _ => true | None => false end)
    | Some false =>
        let retry := bs "+nightly" :: List.filter (λ s, negb (starts_with (bs "+") s)) argv in
        ([(real_exe, argv); (real_exe, retry)], match status real_exe retry with Some _ => true | None => false end)
    end
  else ([(real_exe, argv)], match status real_exe argv with Some _ => true | None => false end).

(** A component command the toolchain does not support is run again on the nightly channel
    and on no other, with the rest of its arguments in order; other commands run once. *)
Lemma component_on_nightly exe real argv :
  starts_with (bs "rustup") exe = true → bs "component" ∈ argv → status real argv = Some false →
  ∃ rest, (wrapper exe real argv).1 = [(real, argv); (real, bs "+nightly" :: rest)] ∧
    rest `sublist_of` argv ∧ bs "component" ∈ rest ∧ Forall (λ s, starts_with (bs "+") s = false) rest.
Proof.
  intros He Hc Hs. unfold wrapper. rewrite He, bool_decide_true, Hs by done. cbn [andb fst].
  eexists. split; [done|]. split; [|split].
  - generalize argv. intros l. induction l as [|x l IH]; cbn; [constructor|]. destruct (negb _); by constructor.
  - apply list_elem_of_In, filter_In. split; [by apply list_elem_of_In|done].
  - apply Forall_forall. intros s Hin. apply list_elem_of_In, filter_In in Hin as [_ H]. by apply negb_true_iff.
Qed.
End Wrapper.
End RustupWrapper.
